(* ===== verification/_CoqProject ===== *)
-Q . S2P
Prelude.v
CLib.v
CMonad.v
UQueue.v
EventQueue.v
UQueueProofs.v
UQueueSpec.v
Queue.v
QueueProofs.v
Msg.v
MsgTypes.v
Util.v
Subject.v
Socket.v
SocketProofs.v
Collections.v
Routing.v
RoutingProofs.v
RoutingSpec.v
Publisher.v
PubSub.v
Naming.v
NamingProofs.v
CNum.v
Nsd.v
Mesh.v
CDouble.v
Params.v
Transport.v
TransportProofs.v
Lifecycle.v
LifecycleProofs.v
LifecycleSpec.v
Threads.v
Timer.v
TimerProofs.v
TimerSpec.v
Monitor.v
Bridge.v
Accessors.v
Ere.v
OzTopics.v
OzArgs.v
Oz.v
OzSystem.v
OzProofs.v
OzConn.v
OzSpec.v
OzReply.v
OzPrograms.v
OzProgramsSpec.v
HammerNail.v
QueueBench.v
