(* ===== verification/Prelude.v ===== *)
(** * OZ: a verification of the OpenMAMA/ZeroMQ bridge

    OZ (src/src, in C) is the middleware bridge that carries OpenMAMA
    messages over ZeroMQ: publish/subscribe with wildcards, request/reply
    through inboxes, discovery of peers through a proxy, event queues and
    timers; src/examples/ozimpl.cpp is a C++ interface on top of OpenMAMA.
    This library models its files as executable Gallina functions
    and step relations and proves what makes them correct.

    ** How C is modelled

    - A function that may be undefined (an access outside an object, a NULL
      or dangling pointer, an overflow) returns an [option]: [None] is
      undefined behaviour.  An error the code handles is a value, mostly a
      [mama_status].
    - A function with effects is a computation of the monad [C] of [CMonad]:
      from a state to a result, a new state and the list of what it did to
      the outside (library calls, locks, callbacks).  [wp] is its weakest
      precondition; it is total: it includes that the run is defined.
    - Functions that other threads can interrupt are programs of atomic
      actions ([Threads]) or are cut at their critical sections ([UQueueSpec],
      [RoutingSpec], [Mesh]).
    - Integers are [Z] with their wrap-around ([wrapu], [wraps]) or the test
      that they fit; bytes are [Byte.byte]; a C string is the list of its
      characters; objects that are shared live in heaps of pointers.
    - Code outside src (zmq, OpenMAMA, the operating system) is a parameter:
      the n-th call of zmq answers [rc n call]; the collections of OpenMAMA
      are type classes with the laws the bridge relies on ([Collections]).
      Every class has an instance, so no hypothesis is empty.

    ** The files

    Foundations: this file (bytes, widths, status codes, automation), [CLib]
    (strings, memory, formatting), [CNum] and [CDouble] (numbers of the C
    library), [CMonad], [Threads].

    - uqueue.c: [UQueue] is the linked structure (free list, chunks, lock and
      semaphore); [UQueueProofs] proves its invariant [wf]; [UQueueSpec] the
      refinement of a bounded list ([uQueue_enqueue_refines],
      [uQueue_dispatch_refines]), FIFO under any interleaving of producers
      and dispatchers ([uQueue_concurrent_fifo]), the bound of its memory and
      its release.  [EventQueue] is the interface queue.c is verified against.
    - queue.c: [Queue], [QueueProofs]: the dispatch loop, every branch of the
      enqueue functions, creation and destruction.
    - msg.c, util.c, and the topics of subscription.c: [Msg] (wire format:
      [serialize_deserialize], [deserialize_safe_iff]), [MsgTypes] (messages
      keep their type under every function: [msg_typed]), [Util] (serials, log
      levels of socket events), [Subject] (subject keys, wildcard prefixes).
    - the sockets of transport.c: [Socket], [SocketProofs] (lock discipline,
      [sockets_locked]; not of the socket [createSocket] is making, nor of the
      send of [stopMonitor], which takes no lock).
    - inbox.c, subscription.c and the dispatchers of transport.c: [Routing],
      [RoutingProofs], [RoutingSpec]: no freed object is followed in any
      interleaving ([no_dangling]), exact delivery ([subscription_delivery]).
      A message is compared with the inbox prefix and with the keys of the
      wildcard subscriptions by [memcmp], which is undefined on a shorter one:
      both theorems say that dispatching is defined exactly on the messages
      that are long enough ([in_bounds], [wildcards_fit]).
    - publisher.c: [Publisher], with request and reply end to end
      ([request_reply]).  [PubSub]: publish and subscribe end to end, with the
      routing and in every interleaving ([publish_subscribe]).
    - discovery: [Naming] (the naming messages of transport.c), [NamingProofs],
      [Nsd] (nsd.c, the proxy), and [Mesh], their composition: in every
      interleaving a quiet network is a full mesh ([full_mesh]) and it comes
      to rest ([discovery_settles]).  [peer_discovery] includes insertions into
      the peer table that fail, whose result the code ignores.
    - params.c: [Params].
    - the dispatch thread: [Transport], [TransportProofs]
      ([dispatch_thread_safe], on well-formed messages that are long enough,
      and [beacon_timing]).
    - creation, start, stop and destruction of a transport: [Lifecycle],
      [LifecycleProofs], [LifecycleSpec].  [life_cycle_balanced] is about the
      log of a creation, a run of the dispatch thread and the destruction:
      nothing is released twice or unheld and nothing is left, up to the
      announcing thread, which the destruction joins once, however often the
      dispatch thread started it.
    - the socket monitor of transport.c: [Monitor].
    - timer.c: [Timer], [TimerProofs], [TimerSpec]: a rely-guarantee proof for
      the threads of the heap and of the queue ([timer_safe]).  The queue may
      refuse events: a destroyed timer is released exactly if it accepted the
      destroy event ([timer_released]).
    - ozimpl.cpp: [Ere] (the regular expressions of the C library that the
      source generates) and [OzTopics]: what the expressions that
      [subscriber::start] makes of hierarchical topics match, compared with
      WS-Topic ([ws2posix_matches]), and what is left of it behind the zmq
      prefix of the bridge ([ws_prefix]); [OzArgs], the command line ([cmdLine_options]); [Oz], the
      objects with their shared and weak pointers; [OzSystem], programs that
      use them and MAMA that calls back, with any number of connections and
      sessions; [OzProofs] (the publisher caches), [OzConn] (which connections
      and sessions stay), [OzSpec], no deleted object is followed ([oz_safe]);
      [OzReply], requests and replies ([reply_awaited], [reply_leaks]) and the
      calls of a connection.
    - the example programs (leak, pub, rep, req, req2, sub, timer, timer2, wc,
      wc2 in src/examples): [OzPrograms], each [main] with its exceptions and
      event sinks, interleaved with the callbacks of MAMA; [OzProgramsSpec]
      shows that they follow the rules of [OzSystem], statement by statement,
      and that a callback is defined unless it calls a sink after its scope or
      replies to a destroyed request ([examples_safe]).
    - the test programs: [HammerNail] (hammer.c and nail.c, together in
      [hammer_nail]) and [QueueBench] (queuebench.c: what its threads count,
      [queuebench_counts], and when they end, [queuebench_ends]).
    - bridge.c: [Bridge].  io.c, notimpl.c and the accessors of msg.c, inbox.c
      and subscription.c: [Accessors].

    A C function keeps its name; a part of a function that is a definition of
    its own says in a comment which part it is.  The enqueue of [Queue] is the
    [oEnqueue] of [Routing] and the [aEnqueue] of [Timer]; the threads of
    [Transport] and [Naming] are created by [Lifecycle], whose
    [create_establishes] gives the invariants they start from.

    ** Fuel and bounds

    Loops over lists are structural.  [uQueue_destroy] and the dispatch loops
    of [Queue] take fuel; [uQueue_destroy_frees_all] shows that the number of
    chunks suffices, [dispatch_fifo] that the loop over given rounds returns
    exactly when it is stopped.  Threads that poll forever take the finite
    list of what they are given ([Transport.poll], [Monitor.poll]) and say
    whether they have ended.  Capacities (256 characters of a subject, 60 of
    a reply handle, 512 URLs) are those of zmqdefs.h; what lies beyond them is
    undefined and stated as such.  Numbers are printed with at most 20 digits,
    the width of 64 bits.

    ** Assumptions

    A log entry cannot fail.  The timer heap of OpenMAMA runs its callbacks
    with its recursive lock held and its calls succeed ([timer_faults] shows
    what happens when a creation fails).  A failed library call changes nothing.
    Interlocked operations are atomic and sequentially consistent.

    ** Not modelled

    The contents of the payloads (OpenMAMA's), the statistics that are only
    logged, what the programs print, and the schedule of the operating
    system: theorems quantify over every order instead.  Data races of plain C variables are
    not detected: an access of [Timer] is atomic; callbacks of [OzSystem] come
    between operations.  The headers are modelled where they define data; the rest of
    them declares. *)

From stdpp Require Export base gmap list fin_maps strings.
From Stdlib Require Export Strings.Byte ZArith Lia.
From Stdlib Require String.

(** ** Bytes

    A C [char] or [uint8_t] is a [byte]; a block of memory is a [list byte]. *)

Declare Scope oz_scope.
Delimit Scope oz_scope with oz.
Open Scope oz_scope.

Definition NUL : byte := x00.

#[export] Instance byte_eq_dec : EqDecision byte := Byte.byte_eq_dec.

#[export] Program Instance byte_countable : Countable byte :=
  inj_countable Byte.to_N Byte.of_N Byte.of_to_N.

(** The bytes of a string literal, without a terminator. *)
Notation "'lit' s" := (String.list_byte_of_string s%string)
  (at level 9, s constr at level 0, only parsing) : oz_scope.

Definition byte_val (b : byte) : Z := Z.of_N (Byte.to_N b).

Definition byte_of (z : Z) : byte :=
  default x00 (Byte.of_N (Z.to_N (z mod 256))).

Lemma byte_val_range b : (0 <= byte_val b < 256)%Z.
Proof. unfold byte_val. pose proof (Byte.to_N_bounded b). lia. Qed.

Lemma byte_of_val b : byte_of (byte_val b) = b.
Proof.
  unfold byte_of. rewrite Z.mod_small by apply byte_val_range.
  unfold byte_val. by rewrite N2Z.id, Byte.of_to_N.
Qed.

Lemma byte_val_of z : byte_val (byte_of z) = (z mod 256)%Z.
Proof.
  unfold byte_of, byte_val.
  pose proof (Z.mod_pos_bound z 256 ltac:(lia)).
  destruct (Byte.of_N (Z.to_N (z mod 256))) as [b|] eqn:E; simpl.
  - apply Byte.to_of_N in E. rewrite E. lia.
  - apply Byte.of_N_None_iff in E. lia.
Qed.

(** ** Machine integers

    Integers are [Z]; where the width matters the wrap-around is written
    out with these functions. *)

Definition wrapu (w : Z) (z : Z) : Z := (z mod 2 ^ w)%Z.

Definition wraps (w : Z) (z : Z) : Z :=
  ((z + 2 ^ (w - 1)) mod 2 ^ w - 2 ^ (w - 1))%Z.

Abbreviation uint32 := (wrapu 32).
Abbreviation size64 := (wrapu 64).
Abbreviation int32 := (wraps 32).

Lemma wrapu_id w z : (0 <= z < 2 ^ w)%Z → wrapu w z = z.
Proof. intros. unfold wrapu. by apply Z.mod_small. Qed.

Lemma wraps_id w z :
  (0 < w)%Z → (- 2 ^ (w - 1) <= z < 2 ^ (w - 1))%Z → wraps w z = z.
Proof.
  intros Hw Hz. unfold wraps.
  assert (2 ^ w = 2 * 2 ^ (w - 1))%Z as E.
  { replace w with (Z.succ (w - 1)) at 1 by lia. apply Z.pow_succ_r. lia. }
  rewrite Z.mod_small by lia. lia.
Qed.

(** ** Status codes

    [mama_status] and [wombatQueueStatus] are enumerations of OpenMAMA;
    the source uses them only by name. *)

Inductive mama_status :=
  | MAMA_STATUS_OK
  | MAMA_STATUS_NULL_ARG
  | MAMA_STATUS_INVALID_ARG
  | MAMA_STATUS_NOMEM
  | MAMA_STATUS_PLATFORM
  | MAMA_STATUS_NOT_FOUND
  | MAMA_STATUS_TIMEOUT
  | MAMA_STATUS_SYSTEM_ERROR
  | MAMA_STATUS_NOT_IMPLEMENTED.

Inductive wombatQueueStatus :=
  | WOMBAT_QUEUE_OK
  | WOMBAT_QUEUE_NOMEM
  | WOMBAT_QUEUE_FULL
  | WOMBAT_QUEUE_TIMEOUT
  | WOMBAT_QUEUE_SEM_ERR.

#[export] Instance mama_status_eq_dec : EqDecision mama_status.
Proof. solve_decision. Defined.

#[export] Instance wombatQueueStatus_eq_dec : EqDecision wombatQueueStatus.
Proof. solve_decision. Defined.

(** ** Undefined behaviour

    A C function whose execution may be undefined (an access outside an
    object, through a null or dangling pointer, a signed overflow) returns
    an [option]: [None] is undefined behaviour, and an error that the code
    reports is a status inside [Some]. *)

(** ** Automation *)

Create HintDb oz.

(** Destruct every conjunction, existential and pair equality in the context. *)
Ltac oz_destruct :=
  repeat match goal with
  | H : _ ∧ _ |- _ => destruct H
  | H : ∃ _, _ |- _ => destruct H
  | H : (_, _) = (_, _) |- _ => injection H as ? ?
  | H : Some _ = Some _ |- _ => injection H as ?
  | H : None = Some _ |- _ => discriminate H
  | H : Some _ = None |- _ => discriminate H
  end; subst.

(** Split the case analyses of a straight-line function body. *)
Ltac oz_case :=
  repeat (case_match || case_decide); simplify_eq/=.

(** Routine goals: the hints of the development, arithmetic, congruence. *)
Ltac oz := try solve [ eauto with oz | lia | congruence | set_solver ].

(** Decide a closed proposition by evaluation. *)
Ltac by_decide := apply (bool_decide_unpack _); vm_compute; exact I.

(** ** Lists *)

Lemma take_app_exact {A} (l1 l2 : list A) n :
  n = length l1 → take n (l1 ++ l2) = l1.
Proof. intros ->. apply take_app_length. Qed.

Lemma drop_app_exact {A} (l1 l2 : list A) n :
  n = length l1 → drop n (l1 ++ l2) = l2.
Proof. intros ->. apply drop_app_length. Qed.

(** Counting: a weaker predicate counts less, and less again when an element
    no longer counts. *)
Lemma length_filter_le {A} (P Q : A → Prop) `{!∀ x, Decision (P x), !∀ x, Decision (Q x)} (l : list A) :
  (∀ x, x ∈ l → P x → Q x) → length (filter P l) ≤ length (filter Q l).
Proof.
  induction l as [|x l IH]; intros HPQ; [done|]. rewrite !filter_cons.
  assert (length (filter P l) ≤ length (filter Q l)) by (apply IH; intros; apply HPQ; [by right|done]).
  assert (P x → Q x) by (apply HPQ; by left). repeat case_decide; simpl; try lia. tauto.
Qed.

Lemma length_filter_less {A} (P Q : A → Prop) `{!∀ x, Decision (P x), !∀ x, Decision (Q x)} (l : list A) y :
  (∀ x, x ∈ l → P x → Q x) → y ∈ l → Q y → ¬ P y → length (filter P l) < length (filter Q l).
Proof.
  intros HPQ Hy HQ HP. induction l as [|x l IH]; [by apply elem_of_nil in Hy|].
  assert (length (filter P l) ≤ length (filter Q l)) as Hle
    by (apply length_filter_le; intros; apply HPQ; [by right|done]).
  rewrite !filter_cons. assert (P x → Q x) as Hx by (apply HPQ; by left).
  apply elem_of_cons in Hy as [->|Hy].
  - rewrite decide_False, decide_True by done. simpl. lia.
  - assert (length (filter P l) < length (filter Q l)) by (apply IH; [intros; apply HPQ; [by right|done]|done]).
    repeat case_decide; simpl; try lia. tauto.
Qed.

Lemma sum_list_fmap_cons {A} (f : A → nat) x l : sum_list (f <$> x :: l) = f x + sum_list (f <$> l).
Proof. done. Qed.

(** Sums that grow by at most [c] everywhere and shrink by [k] somewhere. *)
Lemma sum_list_shift {A} (f f' : A → nat) (l : list A) c :
  (∀ x, x ∈ l → f' x ≤ f x + c) → sum_list (f' <$> l) ≤ sum_list (f <$> l) + c * length l.
Proof.
  induction l as [|x l IH]; intros Hf; [simpl; lia|].
  rewrite !sum_list_fmap_cons. cbn [length].
  pose proof (Hf x ltac:(by left)). assert (∀ y, y ∈ l → f' y ≤ f y + c) as Hl by (intros; apply Hf; by right).
  specialize (IH Hl). rewrite Nat.mul_succ_r. lia.
Qed.

Lemma sum_list_drop {A} (f f' : A → nat) (l : list A) i c k :
  (∀ x, x ∈ l → f' x ≤ f x + c) → i ∈ l → f' i + k ≤ f i + c →
  sum_list (f' <$> l) + k ≤ sum_list (f <$> l) + c * length l.
Proof.
  induction l as [|x l IH]; intros Hf Hi Hk; [by apply elem_of_nil in Hi|].
  rewrite !sum_list_fmap_cons. cbn [length]. rewrite Nat.mul_succ_r.
  assert (∀ y, y ∈ l → f' y ≤ f y + c) as Hl by (intros; apply Hf; by right).
  apply elem_of_cons in Hi as [->|Hi].
  - pose proof (sum_list_shift f f' l c Hl). lia.
  - pose proof (Hf x ltac:(by left)). specialize (IH Hl Hi Hk). lia.
Qed.

(** ** Options *)

(** Step a monadic body without unfolding the operations it calls. *)
Lemma bind_some {A B} (x : A) (f : A → option B) : (Some x ≫= f) = f x.
Proof. done. Qed.
