(* ===== verification/CLib.v ===== *)
(** * The C library functions the bridge uses

    Memory is a [list byte]; a C string value is the list of its characters
    without the terminator.  A read past the end of a block is [None]. *)

From S2P Require Import Prelude.

(** ** Strings in memory *)

(** [strlen]: the number of bytes before the first NUL of the block. *)
Fixpoint strlen (m : list byte) : option nat :=
  match m with
  | [] => None
  | b :: m' => if decide (b = NUL) then Some 0 else S <$> strlen m'
  end.

(** The C string that starts at the first byte of the block. *)
Definition cstring (m : list byte) : option (list byte) :=
  n ← strlen m; Some (take n m).

(** A list of characters that is a C string value holds no NUL. *)
Definition is_cstr (s : list byte) : Prop := NUL ∉ s.

#[export] Instance is_cstr_dec s : Decision (is_cstr s).
Proof. unfold is_cstr. apply _. Defined.

(** [strcpy] into an array of [cap] bytes: [None] when it overflows. *)
Definition strcpy (cap : nat) (s : list byte) : option (list byte) :=
  if decide (length s < cap) then Some s else None.

(** [memcmp (a, b, n) == 0]: both blocks must have [n] bytes, wherever they
    differ first. *)
Definition memcmp_eq (a b : list byte) (n : nat) : option bool :=
  if decide (n ≤ length a ∧ n ≤ length b) then Some (bool_decide (take n a = take n b)) else None.

(** [strchr (s, c) != NULL]. *)
Definition strchr (s : list byte) (c : byte) : bool := bool_decide (c ∈ s).

(** The characters of [s] before the first [c]: what remains of [s] after
    [*strchr (s, c) = 0]. *)
Fixpoint until_char (c : byte) (s : list byte) : list byte :=
  match s with
  | [] => []
  | b :: s' => if decide (b = c) then [] else b :: until_char c s'
  end.

Fixpoint is_prefix (p s : list byte) : bool :=
  match p, s with
  | [], _ => true
  | _ :: _, [] => false
  | x :: p', y :: s' => if decide (x = y) then is_prefix p' s' else false
  end.

(** [strstr (s, p)]: the offset of the first occurrence of [p] in [s]. *)
Fixpoint strstr (s p : list byte) : option nat :=
  if is_prefix p s then Some 0
  else match s with
       | [] => None
       | _ :: s' => S <$> strstr s' p
       end.

(** [sprintf] with ["%0<n>llx"]: [n] lower-case hexadecimal digits. *)
Definition hexdigit (d : Z) : byte :=
  byte_of (if decide (d < 10)%Z then 48 + d else 87 + d)%Z.

Fixpoint hexn (n : nat) (z : Z) : list byte :=
  match n with
  | 0 => []
  | S n' => hexn n' (z / 16) ++ [hexdigit (z mod 16)]
  end.

(** ** Lemmas *)

Lemma strlen_cstr (s m : list byte) :
  is_cstr s → strlen (s ++ NUL :: m) = Some (length s).
Proof.
  unfold is_cstr. induction s as [|b s IH]; intros Hs; simpl.
  - done.
  - rewrite decide_False by set_solver. rewrite IH by set_solver. done.
Qed.

Lemma strlen_none (s : list byte) : is_cstr s → strlen s = None.
Proof.
  unfold is_cstr. induction s as [|b s IH]; intros Hs; simpl; [done|].
  rewrite decide_False by set_solver. rewrite IH by set_solver. done.
Qed.

(** Every block either holds no NUL or splits at the first one. *)
Lemma strlen_inv (m : list byte) n :
  strlen m = Some n →
  ∃ s r, m = s ++ NUL :: r ∧ is_cstr s ∧ n = length s.
Proof.
  revert n. induction m as [|b m IH]; intros n H; simplify_eq/=.
  case_decide; simplify_eq.
  - exists [], m. split_and!; [done| unfold is_cstr; set_solver |done].
  - destruct (strlen m) as [k|] eqn:E; simplify_eq/=.
    destruct (IH k eq_refl) as (s & r & -> & Hs & ->).
    exists (b :: s), r. unfold is_cstr in *. split_and!; [done|set_solver|done].
Qed.

Lemma cstring_cstr (s m : list byte) :
  is_cstr s → cstring (s ++ NUL :: m) = Some s.
Proof.
  intros. unfold cstring. rewrite strlen_cstr by done. simpl.
  by rewrite take_app_exact.
Qed.

Lemma cstring_is_cstr (m s : list byte) : cstring m = Some s → is_cstr s.
Proof.
  unfold cstring. destruct (strlen m) as [n|] eqn:E; simpl; [|done].
  destruct (strlen_inv _ _ E) as (s' & r & -> & Hs & ->).
  intros [= <-]. by rewrite take_app_exact.
Qed.

Lemma is_cstr_app s1 s2 : is_cstr (s1 ++ s2) ↔ is_cstr s1 ∧ is_cstr s2.
Proof. unfold is_cstr. rewrite elem_of_app. tauto. Qed.

Lemma is_cstr_take n s : is_cstr s → is_cstr (take n s).
Proof. unfold is_cstr. rewrite <-(take_drop n s) at 1. set_solver. Qed.

Lemma is_cstr_drop n s : is_cstr s → is_cstr (drop n s).
Proof. unfold is_cstr. rewrite <-(take_drop n s) at 1. set_solver. Qed.

Lemma strcpy_fits cap s : length s < cap → strcpy cap s = Some s.
Proof. intros. unfold strcpy. by rewrite decide_True. Qed.

Lemma strcpy_Some cap s s' : strcpy cap s = Some s' → s' = s ∧ length s < cap.
Proof. unfold strcpy. case_decide; naive_solver. Qed.

Lemma is_prefix_app p s : is_prefix p s = true ↔ ∃ r, s = p ++ r.
Proof.
  revert s. induction p as [|x p IH]; intros s; simpl.
  - split; [by exists s | done].
  - destruct s as [|y s]; [naive_solver|]. case_decide as E; [subst y|].
    + rewrite IH. naive_solver.
    + naive_solver.
Qed.

(** Comparing the whole of [key] is the prefix test, on a block that is long
    enough. *)
Lemma memcmp_eq_key key b :
  memcmp_eq key b (length key) = if decide (length key ≤ length b) then Some (is_prefix key b) else None.
Proof.
  unfold memcmp_eq. destruct (decide (length key ≤ length b)); [|by rewrite decide_False by lia].
  rewrite decide_True by lia. f_equal. rewrite take_ge by lia. apply eq_true_iff_eq.
  rewrite bool_decide_eq_true, is_prefix_app. split.
  - intros ->. eexists. symmetry. apply take_drop.
  - intros [r ->]. by rewrite take_app_length.
Qed.

Lemma memcmp_eq_refl p r : memcmp_eq p (p ++ r) (length p) = Some true.
Proof.
  rewrite memcmp_eq_key, decide_True by (rewrite length_app; lia). f_equal. apply is_prefix_app. by eexists.
Qed.

(** A C string is a prefix of a block exactly when it is one of the C string
    at its start. *)
Lemma is_prefix_cstr key s m : is_cstr key → is_prefix key (s ++ NUL :: m) = is_prefix key s.
Proof.
  revert s. induction key as [|x key IH]; intros s Hk; [done|].
  unfold is_cstr in *. destruct s as [|y s]; simpl.
  - rewrite decide_False by set_solver. done.
  - case_decide; [|done]. apply IH. set_solver.
Qed.

Lemma memcmp_eq_prefix key s m :
  is_cstr key → length key ≤ length (s ++ NUL :: m) →
  memcmp_eq key (s ++ NUL :: m) (length key) = Some (is_prefix key s).
Proof. intros Hk Hl. by rewrite memcmp_eq_key, decide_True, is_prefix_cstr. Qed.

Lemma is_prefix_app_same p q s : is_prefix (p ++ q) (p ++ s) = is_prefix q s.
Proof. induction p; simpl; [done|]. by rewrite decide_True. Qed.

Lemma strstr_Some s p n :
  strstr s p = Some n → ∃ l r, s = l ++ p ++ r ∧ length l = n.
Proof.
  revert n. induction s as [|b s IH]; intros n; simpl.
  - destruct (is_prefix p []) eqn:E; [|done]. intros [= <-].
    apply is_prefix_app in E as [r E]. by exists [], r.
  - destruct (is_prefix p (b :: s)) eqn:E.
    + intros [= <-]. apply is_prefix_app in E as [r E]. by exists [], r.
    + destruct (strstr s p) as [k|] eqn:E'; simpl; [|done]. intros [= <-].
      destruct (IH k eq_refl) as (l & r & -> & <-). by exists (b :: l), r.
Qed.

(** ** Hexadecimal *)

Lemma hexdigit_inj d1 d2 :
  (0 <= d1 < 16)%Z → (0 <= d2 < 16)%Z → hexdigit d1 = hexdigit d2 → d1 = d2.
Proof.
  intros ? ? E. apply (f_equal byte_val) in E. unfold hexdigit in E.
  rewrite !byte_val_of in E. rewrite !Z.mod_small in E by (repeat case_decide; lia).
  repeat case_decide; lia.
Qed.

Lemma hexdigit_nonzero d : (0 <= d < 16)%Z → hexdigit d ≠ NUL.
Proof.
  intros ? E. apply (f_equal byte_val) in E. unfold hexdigit in E.
  rewrite byte_val_of in E. rewrite Z.mod_small in E by (case_decide; lia).
  change (byte_val NUL) with 0%Z in E. case_decide; lia.
Qed.

Lemma length_hexn n z : length (hexn n z) = n.
Proof. revert z. induction n; intros; simpl; [done|]. rewrite length_app, IHn. simpl. lia. Qed.

Lemma hexn_is_cstr n z : is_cstr (hexn n z).
Proof.
  revert z. induction n as [|n IH]; intros z; simpl.
  - unfold is_cstr. set_solver.
  - apply is_cstr_app. split; [apply IH|]. unfold is_cstr.
    rewrite list_elem_of_singleton. intros E. symmetry in E. revert E.
    apply hexdigit_nonzero, Z.mod_pos_bound. lia.
Qed.

Lemma hexn_inj n z1 z2 :
  (0 <= z1 < 16 ^ Z.of_nat n)%Z → (0 <= z2 < 16 ^ Z.of_nat n)%Z →
  hexn n z1 = hexn n z2 → z1 = z2.
Proof.
  revert z1 z2. induction n as [|n IH]; intros z1 z2 H1 H2 E; simpl in E.
  - rewrite Z.pow_0_r in *. lia.
  - rewrite Nat2Z.inj_succ, Z.pow_succ_r in H1, H2 by lia.
    apply app_inj_2 in E as [E1 E2]; [|done]. injection E2 as E2.
    apply hexdigit_inj in E2; [|apply Z.mod_pos_bound; lia..].
    apply IH in E1.
    + rewrite (Z.div_mod z1 16), (Z.div_mod z2 16) by lia. lia.
    + split; [apply Z.div_pos; lia | apply Z.div_lt_upper_bound; lia].
    + split; [apply Z.div_pos; lia | apply Z.div_lt_upper_bound; lia].
Qed.

#[export] Hint Resolve is_cstr_take is_cstr_drop hexn_is_cstr cstring_is_cstr : oz.

(** ** Blocks of memory *)

(** [memcpy] of [src] to offset [pos] of a block. *)
Definition poke (m : list byte) (pos : nat) (src : list byte) : option (list byte) :=
  if decide (pos + length src ≤ length m)
  then Some (take pos m ++ src ++ drop (pos + length src) m) else None.

(** [n] bytes at offset [pos] of a block. *)
Definition peek (m : list byte) (pos n : nat) : option (list byte) :=
  if decide (pos + n ≤ length m) then Some (take n (drop pos m)) else None.

(** Successive writes fill a block from the left. *)
Lemma poke_next (done src rest : list byte) :
  length src ≤ length rest →
  poke (done ++ rest) (length done) src = Some ((done ++ src) ++ drop (length src) rest).
Proof.
  intros Hl. unfold poke. rewrite length_app. rewrite decide_True by lia.
  rewrite take_app_length, drop_app_add. by rewrite app_assoc.
Qed.

(** A block with arbitrary contents. *)
Definition fresh (junk : nat → byte) (n : nat) : list byte := junk <$> seq 0 n.

Lemma length_fresh junk n : length (fresh junk n) = n.
Proof. unfold fresh. by rewrite length_fmap, length_seq. Qed.

Lemma peek_app (l m r : list byte) : peek (l ++ m ++ r) (length l) (length m) = Some m.
Proof.
  unfold peek. rewrite !length_app. rewrite decide_True by lia.
  by rewrite drop_app_length, take_app_length.
Qed.

(** ** Bounded copies

    [wmStrSizeCpy dest src size] of OpenMAMA copies at most [size - 1]
    characters and a terminator; the result is the number of characters that
    were copied.  Here it also returns the new contents of [dest]. *)
Class WStr := {
  wmStrSizeCpy : list byte → nat → nat * list byte;
  wstr_fits s n : length s < n → wmStrSizeCpy s n = (length s, s);
  wstr_cut s n :
    0 < n ≤ length s →
    snd (wmStrSizeCpy s n) = take (n - 1) s ∧ fst (wmStrSizeCpy s n) ≠ length s }.

#[export] Instance wstr_copy : WStr.
Proof.
  refine {| wmStrSizeCpy s n := (Nat.min (length s) (n - 1), take (n - 1) s) |}.
  - intros s n Hn. rewrite take_ge by lia. f_equal. lia.
  - intros s n Hn. simpl. split; [done|lia].
Defined.

(** The copy is a prefix of the source, whatever fits. *)
Lemma wstr_take `{WStr} s n : 0 < n → snd (wmStrSizeCpy s n) = take (n - 1) s.
Proof.
  intros Hn. destruct (decide (length s < n)).
  - rewrite wstr_fits, take_ge by lia. done.
  - apply wstr_cut. lia.
Qed.

Lemma wstr_count `{WStr} s n :
  0 < n → fst (wmStrSizeCpy s n) = length s ↔ length s < n.
Proof.
  intros Hn. split.
  - intros E. destruct (decide (length s < n)); [done|].
    destruct (wstr_cut s n) as [_ ?]; [lia|]. done.
  - intros Hl. by rewrite wstr_fits.
Qed.
