(* ===== verification/CMonad.v ===== *)
(** * The monad of C functions

    A C function with effects is a function from the state it works on to
    an outcome: undefined behaviour ([None]), or a result, the new state and
    the interactions with the outside (calls of callbacks and libraries,
    locks) in the order they happen.  The bind notation is stdpp's. *)

From S2P Require Import Prelude.

(** State [S], interactions [O], result [A]. *)
Definition C (S O A : Type) : Type := S → option (A * S * list O).

#[export] Instance C_ret {S O} : MRet (C S O) := λ A a s, Some (a, s, []).

#[export] Instance C_bind {S O} : MBind (C S O) := λ A B f m s,
  match m s with
  | None => None
  | Some (a, s1, o1) =>
      match f a s1 with
      | None => None
      | Some (b, s2, o2) => Some (b, s2, o1 ++ o2)
      end
  end.

Section Primitives.

Context {S O : Type}.

Definition cget : C S O S := λ s, Some (s, s, []).
Definition cput (s' : S) : C S O () := λ _, Some ((), s', []).
Definition cmodify (f : S → S) : C S O () := λ s, Some ((), f s, []).
Definition emit (o : O) : C S O () := λ s, Some ((), s, [o]).
Definition ub {A} : C S O A := λ _, None.

(** A partial function of the library: undefined behaviour when it is. *)
Definition cpart {A} (x : option A) : C S O A := λ s, a ← x; Some (a, s, []).

(** Run [m] for every element of a list, in order. *)
Fixpoint cforeach {A} (f : A → C S O ()) (l : list A) : C S O () :=
  match l with
  | [] => mret ()
  | x :: l' => f x ;; cforeach f l'
  end.

End Primitives.

(** ** Inversion

    What a bind that is defined went through. *)

Lemma C_bind_Some {S O A B} (m : C S O A) (f : A → C S O B) s b s2 o :
  (m ≫= f) s = Some (b, s2, o) ↔
  ∃ a s1 o1 o2, m s = Some (a, s1, o1) ∧ f a s1 = Some (b, s2, o2) ∧ o = o1 ++ o2.
Proof.
  unfold mbind, C_bind. split.
  - destruct (m s) as [[[a s1] o1]|]; [|done].
    destruct (f a s1) as [[[b' s2'] o2]|] eqn:E; [|done].
    intros [= -> -> <-]. exists a, s1, o1, o2. auto.
  - intros (a & s1 & o1 & o2 & -> & -> & ->). done.
Qed.

Lemma C_bind_eq {S O A B} (m : C S O A) (f : A → C S O B) s a s1 o1 :
  m s = Some (a, s1, o1) →
  (m ≫= f) s = (match f a s1 with
                | Some (b, s2, o2) => Some (b, s2, o1 ++ o2)
                | None => None
                end).
Proof. unfold mbind, C_bind. by intros ->. Qed.

(** Evaluate the primitives at the head of a run. *)
Ltac c_step :=
  repeat (progress (
    cbn [mbind C_bind mret C_ret cget cput cmodify emit cpart app fst snd]
    || rewrite ?app_nil_r)).

(** Two runs one after the other. *)
Lemma cforeach_app {S O A} (f : A → C S O ()) l1 l2 s :
  cforeach f (l1 ++ l2) s = (cforeach f l1 ;; cforeach f l2) s.
Proof.
  revert s. induction l1 as [|x l1 IH]; intros s; simpl.
  - unfold mbind, C_bind, mret, C_ret. by destruct (cforeach f l2 s) as [[[[] ?] ?]|].
  - unfold mbind, C_bind in *. destruct (f x s) as [[[[] s1] o1]|]; [|done].
    rewrite IH. destruct (cforeach f l1 s1) as [[[[] s2] o2]|]; [|done].
    destruct (cforeach f l2 s2) as [[[[] s3] o3]|]; [|done]. by rewrite app_assoc.
Qed.

(** A call whose result is ignored. *)
Lemma C_void {S O A} (m : C S O A) s a s1 o1 :
  m s = Some (a, s1, o1) → (m ;; mret ()) s = Some ((), s1, o1).
Proof. intros E. rewrite (C_bind_eq _ _ _ _ _ _ E). simpl. by rewrite app_nil_r. Qed.

(** A step that only reads the state. *)
Lemma C_bind_read {S O A B} (m : C S O A) (f : A → C S O B) s a s1 :
  m s = Some (a, s1, []) → (m ≫= f) s = f a s1.
Proof.
  intros E. rewrite (C_bind_eq _ _ _ _ _ _ E). by destruct (f a s1) as [[[? ?] ?]|].
Qed.

(** ** Weakest preconditions

    [wp m Q s]: run from [s], [m] is defined and its result, final state and
    log satisfy [Q]. *)

Definition wp {S O A} (m : C S O A) (Q : A → S → list O → Prop) (s : S) : Prop :=
  match m s with Some (a, s', o) => Q a s' o | None => False end.

Section Wp.

Context {S O : Type}.

Lemma wp_run {A} (m : C S O A) Q s :
  wp m Q s ↔ ∃ a s' o, m s = Some (a, s', o) ∧ Q a s' o.
Proof.
  unfold wp. destruct (m s) as [[[a s'] o]|]; split; try done; [eauto|naive_solver|naive_solver].
Qed.

Lemma wp_bind {A B} (m : C S O A) (f : A → C S O B) Q s :
  wp m (λ a s1 o1, wp (f a) (λ b s2 o2, Q b s2 (o1 ++ o2)) s1) s → wp (m ≫= f) Q s.
Proof.
  unfold wp, mbind, C_bind. destruct (m s) as [[[a s1] o1]|]; [|done].
  by destruct (f a s1) as [[[b s2] o2]|].
Qed.

Lemma wp_mono {A} (m : C S O A) (Q Q' : A → S → list O → Prop) s :
  (∀ a s' o, Q a s' o → Q' a s' o) → wp m Q s → wp m Q' s.
Proof. unfold wp. destruct (m s) as [[[a s'] o]|]; eauto. Qed.

Lemma wp_ret {A} (a : A) (Q : A → S → list O → Prop) s : Q a s [] → wp (mret a) Q s.
Proof. done. Qed.

Lemma wp_get (Q : S → S → list O → Prop) s : Q s s [] → wp cget Q s.
Proof. done. Qed.

Lemma wp_put (s' : S) (Q : () → S → list O → Prop) s : Q () s' [] → wp (cput s') Q s.
Proof. done. Qed.

Lemma wp_modify (f : S → S) (Q : () → S → list O → Prop) s :
  Q () (f s) [] → wp (cmodify f) Q s.
Proof. done. Qed.

Lemma wp_emit (x : O) (Q : () → S → list O → Prop) s : Q () s [x] → wp (emit x) Q s.
Proof. done. Qed.

Lemma wp_part {A} (x : option A) a (Q : A → S → list O → Prop) s :
  x = Some a → Q a s [] → wp (cpart x) Q s.
Proof. intros -> HQ. exact HQ. Qed.

(** A loop with an invariant on the state and the log so far. *)
Lemma wp_foreach {A} (f : A → C S O ()) l (I : list A → S → list O → Prop) s :
  I [] s [] →
  (∀ done x s' o, x ∈ l → I done s' o → wp (f x) (λ _ s2 o2, I (done ++ [x]) s2 (o ++ o2)) s') →
  wp (cforeach f l) (λ _ s' o, I l s' o) s.
Proof.
  intros H0 Hf.
  assert (∀ done rest s1 o1, (∀ x, x ∈ rest → x ∈ l) → I done s1 o1 →
    wp (cforeach f rest) (λ _ s2 o2, I (done ++ rest) s2 (o1 ++ o2)) s1) as Hgen.
  { intros dn rest. revert dn. induction rest as [|x rest IH]; intros dn s1 o1 Hin HI; simpl.
    - apply wp_ret. by rewrite !app_nil_r.
    - apply wp_bind. eapply wp_mono; [|apply Hf; [apply Hin; set_solver|exact HI]].
      intros [] s2 o2 HI2. eapply wp_mono; [|apply IH; [set_solver|exact HI2]].
      intros [] s3 o3. simpl. by rewrite <-!app_assoc. }
  eapply wp_mono; [|apply (Hgen [] l s []); [done|done]]. done.
Qed.

(** A loop that only logs. *)
Lemma wp_emit_map {A} (f : A → O) l (Q : () → S → list O → Prop) s :
  Q () s (f <$> l) → wp (cforeach (λ a, emit (f a)) l) Q s.
Proof.
  intros HQ. unfold wp.
  assert (cforeach (λ a, emit (f a)) l s = Some ((), s, f <$> l)) as ->; [|done]. clear HQ.
  induction l as [|a l IH]; [done|]. cbn [cforeach]. by rewrite (C_bind_eq _ _ _ _ _ _ eq_refl), IH.
Qed.

Lemma wp_emit_all (l : list O) (Q : () → S → list O → Prop) s : Q () s l → wp (cforeach emit l) Q s.
Proof. intros HQ. apply (wp_emit_map id). by rewrite list_fmap_id. Qed.

End Wp.

(** Step through a straight-line body, without unfolding anything. *)
Ltac wp_step :=
  lazymatch goal with
  | |- wp (_ ≫= _) _ _ => apply wp_bind
  | |- wp (mret _) _ _ => apply wp_ret
  | |- wp cget _ _ => apply wp_get
  | |- wp (cput _) _ _ => apply wp_put
  | |- wp (cmodify _) _ _ => apply wp_modify
  | |- wp (emit _) _ _ => apply wp_emit
  | |- wp (let '(_, _) := (_, _) in _) _ _ => cbv beta iota
  end.
Ltac wp_steps := repeat (wp_step; cbv zeta).

(** ** Components

    A function on a component of a larger state, its log embedded in the
    larger one. *)

Definition zoom {S S' O O' A} (get : S' → S) (set : S → S' → S') (emb : O → O')
    (m : C S O A) : C S' O' A := λ s',
  match m (get s') with
  | Some (a, s, o) => Some (a, set s s', emb <$> o)
  | None => None
  end.

Lemma wp_zoom {S S' O O' A} (get : S' → S) (set : S → S' → S') (emb : O → O') (m : C S O A) Q s' :
  wp m (λ a s o, Q a (set s s') (emb <$> o)) (get s') → wp (zoom get set emb m) Q s'.
Proof. unfold wp, zoom. by destruct (m (get s')) as [[[a s] o]|]. Qed.
