(* ===== verification/UQueue.v ===== *)
(** * The event queue (src/src/uqueue.c)

    [uQueueImpl] is a doubly linked list of items between two dummy nodes,
    with a free list threaded through [mNext] and a list of the allocated
    chunks threaded through [mChunkNext].  Items live in a heap; pointers
    are [uPtr].  [UQueueProofs] and [UQueueSpec] show that the pointer
    manipulation implements a FIFO queue, sequentially and with concurrent
    dispatchers. *)

From S2P Require Import Prelude.

Module UQ.

(** ** Data *)

(** [&impl->mHead], [&impl->mTail], a pointer to a heap item, or NULL. *)
Inductive uPtr := pNull | pHead | pTail | pItem (n : nat).

#[export] Instance uPtr_eq_dec : EqDecision uPtr.
Proof. solve_decision. Defined.

Section UQueue.

Context {Cb Data Closure Msg : Type}.

(** The anonymous union of [uQueueItem_]; also the [void* closure] argument
    of [uQueue_enqueue], which points to a [zmqTransportMsg] when [isMsg]. *)
Inductive uUnion := uClosure (c : option Closure) | uMsg (m : Msg).

Record uQueueItem := mkItem {
  mCb : option Cb;
  mData : option Data;
  mIsMsg : Z;
  mUnion : uUnion;
  mNext : uPtr;
  mPrev : uPtr;
  mChunkNext : uPtr }.

(** An item in memory that [calloc] or [memset] has cleared. *)
Definition zero_item : uQueueItem := mkItem None None 0 (uClosure None) pNull pNull pNull.

(** The queue; [heap] holds the items of the chunks, [blocks] is the
    allocator's record of the chunks (base item, number of items) and
    [brk] the first item that was never allocated. *)
Record uQueueImpl := mkImpl {
  mSem : Z;
  mMaxSize : Z;
  mChunkSize : Z;
  mCurrSize : Z;
  mHead : uQueueItem;
  mTail : uQueueItem;
  mFirstFree : uQueueItem;
  mChunks : uPtr;
  heap : gmap nat uQueueItem;
  blocks : gmap nat nat;
  brk : nat }.

(** What an item carries for the dispatcher. *)
Record uEvent := mkEvent {
  ev_cb : option Cb; ev_data : option Data; ev_isMsg : Z; ev_union : uUnion }.

Definition item_event (it : uQueueItem) : uEvent :=
  mkEvent (mCb it) (mData it) (mIsMsg it) (mUnion it).

Definition set_mNext (p : uPtr) (it : uQueueItem) : uQueueItem :=
  mkItem (mCb it) (mData it) (mIsMsg it) (mUnion it) p (mPrev it) (mChunkNext it).

Definition set_mPrev (p : uPtr) (it : uQueueItem) : uQueueItem :=
  mkItem (mCb it) (mData it) (mIsMsg it) (mUnion it) (mNext it) p (mChunkNext it).

Definition set_mChunkNext (p : uPtr) (it : uQueueItem) : uQueueItem :=
  mkItem (mCb it) (mData it) (mIsMsg it) (mUnion it) (mNext it) (mPrev it) p.

Definition set_event (e : uEvent) (it : uQueueItem) : uQueueItem :=
  mkItem (ev_cb e) (ev_data e) (ev_isMsg e) (ev_union e) (mNext it) (mPrev it) (mChunkNext it).

Definition set_sem (s : Z) (q : uQueueImpl) : uQueueImpl :=
  mkImpl s (mMaxSize q) (mChunkSize q) (mCurrSize q) (mHead q) (mTail q)
    (mFirstFree q) (mChunks q) (heap q) (blocks q) (brk q).

Definition set_curr (c : Z) (q : uQueueImpl) : uQueueImpl :=
  mkImpl (mSem q) (mMaxSize q) (mChunkSize q) c (mHead q) (mTail q)
    (mFirstFree q) (mChunks q) (heap q) (blocks q) (brk q).

(** [++impl->mCurrSize] and [--impl->mCurrSize]: signed 32-bit arithmetic. *)
Definition add_curr (d : Z) (q : uQueueImpl) : option uQueueImpl :=
  if decide (- 2 ^ 31 <= mCurrSize q + d < 2 ^ 31)%Z
  then Some (set_curr (mCurrSize q + d) q) else None.

(** [impl->mFirstFree.mNext = p]. *)
Definition set_free (p : uPtr) (q : uQueueImpl) : uQueueImpl :=
  mkImpl (mSem q) (mMaxSize q) (mChunkSize q) (mCurrSize q) (mHead q) (mTail q)
    (set_mNext p (mFirstFree q)) (mChunks q) (heap q) (blocks q) (brk q).

Definition set_chunks (p : uPtr) (q : uQueueImpl) : uQueueImpl :=
  mkImpl (mSem q) (mMaxSize q) (mChunkSize q) (mCurrSize q) (mHead q) (mTail q)
    (mFirstFree q) p (heap q) (blocks q) (brk q).

Definition set_heap (h : gmap nat uQueueItem) (q : uQueueImpl) : uQueueImpl :=
  mkImpl (mSem q) (mMaxSize q) (mChunkSize q) (mCurrSize q) (mHead q) (mTail q)
    (mFirstFree q) (mChunks q) h (blocks q) (brk q).

(** ** Memory *)

(** Dereference; [None] for NULL and for items that are not allocated. *)
Definition load (q : uQueueImpl) (p : uPtr) : option uQueueItem :=
  match p with
  | pNull => None
  | pHead => Some (mHead q)
  | pTail => Some (mTail q)
  | pItem n => heap q !! n
  end.

Definition store_item (h : gmap nat uQueueItem) (n : nat) (f : uQueueItem → uQueueItem)
    : option (gmap nat uQueueItem) :=
  it ← h !! n; Some (<[n := f it]> h).

(** Assignment through a pointer. *)
Definition store (q : uQueueImpl) (p : uPtr) (f : uQueueItem → uQueueItem)
    : option uQueueImpl :=
  match p with
  | pNull => None
  | pHead =>
      Some (mkImpl (mSem q) (mMaxSize q) (mChunkSize q) (mCurrSize q) (f (mHead q)) (mTail q)
              (mFirstFree q) (mChunks q) (heap q) (blocks q) (brk q))
  | pTail =>
      Some (mkImpl (mSem q) (mMaxSize q) (mChunkSize q) (mCurrSize q) (mHead q) (f (mTail q))
              (mFirstFree q) (mChunks q) (heap q) (blocks q) (brk q))
  | pItem n => h ← store_item (heap q) n f; Some (set_heap h q)
  end.

(** [calloc] of [k] items at [base]. *)
Fixpoint zero_items (base k : nat) (h : gmap nat uQueueItem) : gmap nat uQueueItem :=
  match k with
  | 0 => h
  | S k' => <[base := zero_item]> (zero_items (S base) k' h)
  end.

Definition calloc_items (k : nat) (q : uQueueImpl) : uQueueImpl :=
  mkImpl (mSem q) (mMaxSize q) (mChunkSize q) (mCurrSize q) (mHead q) (mTail q)
    (mFirstFree q) (mChunks q)
    (zero_items (brk q) k (heap q)) (<[brk q := k]> (blocks q)) (brk q + k).

(** [free] of the chunk at [base]; [None] when [base] is not a chunk. *)
Fixpoint clear_items (base k : nat) (h : gmap nat uQueueItem) : gmap nat uQueueItem :=
  match k with
  | 0 => h
  | S k' => delete base (clear_items (S base) k' h)
  end.

Definition free_items (base : nat) (q : uQueueImpl) : option uQueueImpl :=
  k ← blocks q !! base;
  Some (mkImpl (mSem q) (mMaxSize q) (mChunkSize q) (mCurrSize q) (mHead q) (mTail q)
          (mFirstFree q) (mChunks q)
          (clear_items base k (heap q)) (delete base (blocks q)) (brk q)).

(** ** Operations *)

(** The loop of [uQueueImpl_allocChunk] from [i] for [n] iterations. *)
Fixpoint link_chunk (h : gmap nat uQueueItem) (result i n : nat)
    : option (gmap nat uQueueItem) :=
  match n with
  | 0 => Some h
  | S n' =>
      h1 ← store_item h (result + i) (set_mNext (pItem (result + S i)));
      h2 ← store_item h1 (result + S i) (set_mPrev (pItem (result + i)));
      link_chunk h2 result (S i) n'
  end.

(** [mem] is whether [calloc] succeeds. *)
Definition uQueueImpl_allocChunk (mem : bool) (q : uQueueImpl) (items : Z)
    : option (wombatQueueStatus * uQueueImpl) :=
  let size := mSem q in
  if decide (uint32 (size + items) > mMaxSize q)%Z then Some (WOMBAT_QUEUE_FULL, q)
  else if mem then
    let result := brk q in
    let q1 := calloc_items (Z.to_nat items) q in
    q2 ← store q1 (pItem result) (set_mChunkNext (mChunks q1));
    let q3 := set_free (pItem result) (set_chunks (pItem result) q2) in
    h ← link_chunk (heap q3) result 0 (Z.to_nat (uint32 (items - 1)));
    Some (WOMBAT_QUEUE_OK, set_heap h q3)
  else Some (WOMBAT_QUEUE_NOMEM, q).

(** [maxdef] and [chunkdef] are WOMBAT_QUEUE_MAX_SIZE and
    WOMBAT_QUEUE_CHUNK_SIZE. *)
Definition uQueue_allocate (maxdef chunkdef : Z) (mem : bool)
    : wombatQueueStatus * option uQueueImpl :=
  if mem then
    (WOMBAT_QUEUE_OK,
     Some (mkImpl 0 maxdef chunkdef 0
             (set_mPrev pHead (set_mNext pTail zero_item))
             (set_mNext pTail (set_mPrev pHead zero_item))
             zero_item pNull ∅ ∅ 0))
  else (WOMBAT_QUEUE_NOMEM, None).

(** [sem] is whether [wsem_init] succeeds, [mem] whether [calloc] does. *)
Definition uQueue_create (chunkdef : Z) (sem mem : bool) (q : uQueueImpl)
    (maxSize initialSize growBySize : Z) : option (wombatQueueStatus * uQueueImpl) :=
  let q1 := mkImpl (mSem q)
              (if decide (maxSize = 0)%Z then mMaxSize q else maxSize)
              (if decide (growBySize = 0)%Z then mChunkSize q else growBySize)
              (mCurrSize q) (mHead q) (mTail q) (mFirstFree q) (mChunks q)
              (heap q) (blocks q) (brk q) in
  if sem then
    let q2 := set_sem 0 q1 in
    let initialSize' := if decide (initialSize = 0)%Z then chunkdef else initialSize in
    '(_, q3) ← uQueueImpl_allocChunk mem q2 initialSize';
    if decide (mNext (mFirstFree q3) = pNull) then Some (WOMBAT_QUEUE_NOMEM, q3)
    else Some (WOMBAT_QUEUE_OK, set_curr 0 q3)
  else Some (WOMBAT_QUEUE_SEM_ERR, q1).

Definition uQueue_enqueue (mem : bool) (q : uQueueImpl) (cb : option Cb)
    (data : option Data) (closure : uUnion) (isMsg : Z)
    : option (wombatQueueStatus * uQueueImpl) :=
  q0 ← (if decide (mNext (mFirstFree q) = pNull)
        then snd <$> uQueueImpl_allocChunk mem q (mChunkSize q) else Some q);
  let item := mNext (mFirstFree q0) in
  if decide (item = pNull) then Some (WOMBAT_QUEUE_FULL, q0)
  else
    it ← load q0 item;
    let q1 := set_free (mNext it) q0 in
    arg ← (match closure with
           | uMsg _ => if decide (isMsg = 0)%Z then None else Some closure
           | uClosure _ => if decide (isMsg = 0)%Z then Some closure else None
           end);
    q2 ← store q1 item (set_event (mkEvent cb data isMsg arg));
    q3 ← store q2 item (set_mNext pTail);
    q4 ← store q3 item (set_mPrev (mPrev (mTail q3)));
    it4 ← load q4 item;
    q5 ← store q4 (mPrev it4) (set_mNext item);
    q6 ← store q5 pTail (set_mPrev item);
    q7 ← add_curr 1 q6;
    Some (WOMBAT_QUEUE_OK, set_sem (mSem q7 + 1) q7).

Definition uQueue_getSize (q : uQueueImpl) : wombatQueueStatus * Z :=
  (WOMBAT_QUEUE_OK, mSem q).

(** The macro [UQ_REMOVE]. *)
Definition UQ_REMOVE (q : uQueueImpl) (ele : uPtr) : option uQueueImpl :=
  e0 ← load q ele;
  q1 ← store q (mPrev e0) (set_mNext (mNext e0));
  e1 ← load q1 ele;
  q2 ← store q1 (mNext e1) (set_mPrev (mPrev e1));
  q3 ← store q2 ele (set_mNext (mNext (mFirstFree q2)));
  add_curr (-1) (set_free ele q3).

(** The part of [uQueue_dispatchInt] that runs under [mLock]. *)
Definition uQueue_takeHead (q : uQueueImpl) : option (option uEvent * uQueueImpl) :=
  let head := mNext (mHead q) in
  if decide (head = pTail) then Some (None, q)
  else
    q' ← UQ_REMOVE q head;
    it ← load q' head;
    Some (Some (item_event it), q').

(** The call of the callback at the end of [uQueue_dispatchInt]. *)
Inductive uArg := argMsg (m : Msg) | argClosure (c : option Closure).

Definition uQueue_call (e : uEvent) : option (option (Cb * option Data * uArg)) :=
  arg ← (match ev_union e with
         | uMsg m =>
             if decide (ev_isMsg e = 0)%Z then None
             else Some (if decide (ev_isMsg e = 1)%Z then argMsg m else argClosure None)
         | uClosure c => if decide (ev_isMsg e = 0)%Z then Some (argClosure c) else None
         end);
  Some (match ev_cb e with
        | Some cb => Some (cb, ev_data e, arg)
        | None => None
        end).

(** Answers of [wsem_wait]: acquired, interrupted, another error. *)
Inductive semAnswer := SemOk | SemEintr | SemErr.

Inductive waitResult := Acquired | WaitFailed (s : wombatQueueStatus) | Blocked.

Fixpoint wsem_wait_loop (ans : list semAnswer) : waitResult :=
  match ans with
  | [] => Blocked
  | SemOk :: _ => Acquired
  | SemEintr :: ans' => wsem_wait_loop ans'
  | SemErr :: _ => WaitFailed WOMBAT_QUEUE_SEM_ERR
  end.

Definition uQueue_wait (isTimed : bool) (ans : list semAnswer) : waitResult :=
  if isTimed then
    match ans with
    | [] => Blocked
    | SemOk :: _ => Acquired
    | _ :: _ => WaitFailed WOMBAT_QUEUE_TIMEOUT
    end
  else wsem_wait_loop ans.

(** Still waiting, or returned with a status, the call that was made and the
    new state [q] of the queue. *)
Inductive dispatchResult (Q : Type) :=
  | Waiting
  | Dispatched (s : wombatQueueStatus) (call : option (Cb * option Data * uArg)) (q : Q).
Arguments Waiting {Q}.
Arguments Dispatched {Q} s call q.

Definition uQueue_dispatchInt (q : uQueueImpl) (isTimed : bool) (ans : list semAnswer)
    : option (dispatchResult uQueueImpl) :=
  match uQueue_wait isTimed ans with
  | Blocked => Some Waiting
  | WaitFailed s => Some (Dispatched s None q)
  | Acquired =>
      '(head, q') ← uQueue_takeHead (set_sem (mSem q - 1) q);
      match head with
      | None => Some (Dispatched WOMBAT_QUEUE_OK None q')
      | Some e => call ← uQueue_call e; Some (Dispatched WOMBAT_QUEUE_OK call q')
      end
  end.

Definition uQueue_dispatch (q : uQueueImpl) (ans : list semAnswer) : option (dispatchResult uQueueImpl) :=
  uQueue_dispatchInt q false ans.

Definition uQueue_timedDispatch (q : uQueueImpl) (ans : list semAnswer)
    : option (dispatchResult uQueueImpl) :=
  uQueue_dispatchInt q true ans.

(** The loop of [uQueue_destroy] with fuel. *)
Fixpoint destroy_loop (fuel : nat) (curItem : uPtr) (q : uQueueImpl) : option uQueueImpl :=
  match curItem with
  | pNull => Some q
  | pItem base =>
      match fuel with
      | 0 => None
      | S fuel' =>
          it ← load q curItem;
          q' ← free_items base q;
          destroy_loop fuel' (mChunkNext it) q'
      end
  | _ => None
  end.

(** Frees the implementation struct itself: the [bool]. *)
Definition uQueue_deallocate : wombatQueueStatus * bool := (WOMBAT_QUEUE_OK, true).

(** [semOk] is whether [wsem_destroy] succeeds; the [bool] of the result is
    whether the implementation struct itself is freed. *)
Definition uQueue_destroy (fuel : nat) (semOk : bool) (q : uQueueImpl)
    : option (wombatQueueStatus * bool * uQueueImpl) :=
  q' ← destroy_loop fuel (mChunks q) q;
  Some (if semOk then (uQueue_deallocate, q') else (WOMBAT_QUEUE_SEM_ERR, false, q')).

End UQueue.

Arguments uUnion : clear implicits.
Arguments uQueueItem : clear implicits.
Arguments uQueueImpl : clear implicits.
Arguments uEvent : clear implicits.
Arguments uArg : clear implicits.
Arguments dispatchResult : clear implicits.
Arguments Waiting {Cb Data Closure Msg Q}.
Arguments Dispatched {Cb Data Closure Msg Q} s call q.

End UQ.
