(* ===== verification/EventQueue.v ===== *)
(** * The interface between queue.c and uqueue.c

    [EventQueue] lists the operations of uqueue.h that queue.c calls,
    [EventQueueLaws] what queue.c relies on: the operations act on a list of
    pending events.  queue.c is verified against these laws; the pointer
    structure of uqueue.c discharges them in UQueueSpec. *)

From S2P Require Import Prelude UQueue.
Import UQ.

(** What the caller of [uQueue_enqueue] guarantees: [closure] points to a
    message exactly when [isMsg] is set. *)
Definition arg_ok {Closure Msg : Type} (closure : uUnion Closure Msg) (isMsg : Z) : Prop :=
  match closure with uMsg _ => isMsg ≠ 0%Z | uClosure _ => isMsg = 0%Z end.

(** The call that dispatching an event owes to its owner: the callback, if
    there is one, with the event's data, and the message or the closure that
    was enqueued (an [isMsg] other than 0 and 1 would lose the message). *)
Definition event_call {Cb Data Closure Msg : Type} (e : uEvent Cb Data Closure Msg)
    : option (Cb * option Data * uArg Closure Msg) :=
  (λ cb, (cb, ev_data e,
          match ev_union e with
          | uClosure c => argClosure c
          | uMsg m => if (ev_isMsg e =? 1)%Z then argMsg m else argClosure None
          end)) <$> ev_cb e.

(** The [bool] arguments are the answers of the system: whether memory
    ([mem]) and the semaphore ([sem]) are available; the [bool] of
    [q_destroy]'s result is whether the queue's memory is released. *)
Class EventQueue (Q Cb Data Closure Msg : Type) := {
  q_allocate : bool → wombatQueueStatus * option Q;
  q_create : bool → bool → Q → option (wombatQueueStatus * Q);
  q_destroy : bool → Q → option (wombatQueueStatus * bool);
  q_enqueue : bool → Q → option Cb → option Data → uUnion Closure Msg → Z →
              option (wombatQueueStatus * Q);
  q_getSize : Q → wombatQueueStatus * Z;
  q_dispatchInt : Q → bool → list semAnswer →
                  option (dispatchResult Cb Data Closure Msg Q) }.

Class EventQueueLaws (Q Cb Data Closure Msg : Type)
    `{EventQueue Q Cb Data Closure Msg} := {
  q_pending : Q → list (uEvent Cb Data Closure Msg) → Prop;
  law_allocate mem :
    q_allocate mem = (WOMBAT_QUEUE_NOMEM, None) ∨
    ∃ q, q_allocate mem = (WOMBAT_QUEUE_OK, Some q) ∧ ∀ sem mem',
      ∃ st q', q_create sem mem' q = Some (st, q') ∧ (st = WOMBAT_QUEUE_OK → q_pending q' []);
  law_destroy q es sem :
    q_pending q es →
    q_destroy sem q = Some (if sem then WOMBAT_QUEUE_OK else WOMBAT_QUEUE_SEM_ERR, sem);
  law_enqueue mem q es cb data closure isMsg :
    q_pending q es → arg_ok closure isMsg →
    ∃ st q', q_enqueue mem q cb data closure isMsg = Some (st, q') ∧
      (st = WOMBAT_QUEUE_OK ∧ q_pending q' (es ++ [mkEvent cb data isMsg closure])
       ∨ st = WOMBAT_QUEUE_FULL ∧ q_pending q' es);
  law_getSize q es :
    q_pending q es → q_getSize q = (WOMBAT_QUEUE_OK, Z.of_nat (length es));
  law_bounded q es :
    q_pending q es → (Z.of_nat (length es) < 2 ^ 31)%Z;
  law_acquired q e es isTimed ans :
    q_pending q (e :: es) → uQueue_wait isTimed ans = Acquired →
    ∃ q', q_dispatchInt q isTimed ans = Some (Dispatched WOMBAT_QUEUE_OK (event_call e) q')
      ∧ q_pending q' es;
  law_failed q es isTimed ans s :
    q_pending q es → uQueue_wait isTimed ans = WaitFailed s →
    q_dispatchInt q isTimed ans = Some (Dispatched s None q);
  law_blocked q es isTimed ans :
    q_pending q es → uQueue_wait isTimed ans = Blocked →
    q_dispatchInt q isTimed ans = Some Waiting }.
