(* ===== verification/UQueueProofs.v ===== *)
(** * The event queue is a FIFO queue

    The invariant [wf] of the linked structure of UQueue.v, its preservation
    by every operation, and the refinement of the list-based specification
    [Spec]. *)

From S2P Require Import Prelude UQueue EventQueue.
Import UQ.

(** ** The specification

    A queue is the list of its pending events and the number of free items. *)
Module Spec.

Record queue (E : Type) := mkQ { pending : list E; nfree : nat }.
Arguments mkQ {E}.
Arguments pending {E}.
Arguments nfree {E}.

(** An enqueue that finds no free item first takes a chunk, if [room] for
    one is left. *)
Definition enqueue {E} (room : bool) (chunk : nat) (e : E) (a : queue E)
    : wombatQueueStatus * queue E :=
  match nfree a with
  | S k => (WOMBAT_QUEUE_OK, mkQ (pending a ++ [e]) k)
  | 0 => if room then (WOMBAT_QUEUE_OK, mkQ (pending a ++ [e]) (chunk - 1))
         else (WOMBAT_QUEUE_FULL, a)
  end.

Definition dequeue {E} (a : queue E) : option (E * queue E) :=
  match pending a with
  | [] => None
  | e :: es => Some (e, mkQ es (S (nfree a)))
  end.

End Spec.

Section Proofs.

Context {Cb Data Closure Msg : Type}.
Implicit Types q : uQueueImpl Cb Data Closure Msg.
Implicit Types it : uQueueItem Cb Data Closure Msg.
Implicit Types h : gmap nat (uQueueItem Cb Data Closure Msg).
Implicit Types e : uEvent Cb Data Closure Msg.

(** ** Links *)

Definition next_of q (p : uPtr) : option uPtr := mNext <$> load q p.
Definition prev_of q (p : uPtr) : option uPtr := mPrev <$> load q p.

(** Consecutive pointers of the list are linked in both directions. *)
Fixpoint dlinked q (l : list uPtr) : Prop :=
  match l with
  | a :: ((b :: _) as l') => next_of q a = Some b ∧ prev_of q b = Some a ∧ dlinked q l'
  | _ => True
  end.

(** [ys] are the items reached from [p] by [mNext], up to NULL. *)
Fixpoint slinked h (p : uPtr) (ys : list nat) : Prop :=
  match ys with
  | [] => p = pNull
  | y :: ys' => p = pItem y ∧ ∃ it, h !! y = Some it ∧ slinked h (mNext it) ys'
  end.

(** [cs] are the chunks reached from [p] by [mChunkNext], up to NULL. *)
Fixpoint clinked h (p : uPtr) (cs : list nat) : Prop :=
  match cs with
  | [] => p = pNull
  | c :: cs' => p = pItem c ∧ ∃ it, h !! c = Some it ∧ clinked h (mChunkNext it) cs'
  end.

Lemma dlinked_app q l1 a l2 :
  dlinked q (l1 ++ a :: l2) ↔ dlinked q (l1 ++ [a]) ∧ dlinked q (a :: l2).
Proof.
  induction l1 as [|b l1 IH]; simpl; [tauto|].
  destruct l1 as [|c l1]; simpl in *; tauto.
Qed.

(** Only the [mNext] of all but the last element and the [mPrev] of all but
    the first matter. *)
Lemma dlinked_frame_front q q' l z :
  (∀ p, p ∈ l → next_of q' p = next_of q p) →
  (∀ p, p ∈ l ++ [z] → prev_of q' p = prev_of q p) →
  dlinked q (l ++ [z]) → dlinked q' (l ++ [z]).
Proof.
  induction l as [|a l IH]; intros Hn Hp; [done|].
  destruct l as [|b l]; simpl in *.
  - intros (? & ? & ?). rewrite Hn, Hp by set_solver. done.
  - intros (? & ? & ?). rewrite Hn, Hp by set_solver.
    split_and!; [done..|]. apply IH; set_solver.
Qed.

Lemma dlinked_frame_back q q' z l :
  (∀ p, p ∈ z :: l → next_of q' p = next_of q p) →
  (∀ p, p ∈ l → prev_of q' p = prev_of q p) →
  dlinked q (z :: l) → dlinked q' (z :: l).
Proof.
  revert z. induction l as [|b l IH]; intros z Hn Hp; [done|].
  simpl. intros (? & ? & ?). rewrite Hn, Hp by set_solver.
  split_and!; [done..|]. apply IH; set_solver.
Qed.

Lemma slinked_frame h h' p ys :
  (∀ y, y ∈ ys → mNext <$> h' !! y = mNext <$> h !! y) →
  slinked h p ys → slinked h' p ys.
Proof.
  revert p. induction ys as [|y ys IH]; intros p Hf; [done|]. simpl.
  intros [-> (it & E & Hs)]. split; [done|].
  pose proof (Hf y ltac:(set_solver)) as Hy. rewrite E in Hy. simpl in Hy.
  destruct (h' !! y) as [it'|]; simplify_eq/=. exists it'. split; [done|].
  rewrite Hy. apply IH; [set_solver|done].
Qed.

Lemma clinked_frame h h' p cs :
  (∀ y, y ∈ cs → mChunkNext <$> h' !! y = mChunkNext <$> h !! y) →
  clinked h p cs → clinked h' p cs.
Proof.
  revert p. induction cs as [|y ys IH]; intros p Hf; [done|]. simpl.
  intros [-> (it & E & Hs)]. split; [done|].
  pose proof (Hf y ltac:(set_solver)) as Hy. rewrite E in Hy. simpl in Hy.
  destruct (h' !! y) as [it'|]; simplify_eq/=. exists it'. split; [done|].
  rewrite Hy. apply IH; [set_solver|done].
Qed.

(** ** The invariant *)

(** The chunk list [cs] and the allocator's blocks describe the same memory. *)
Record wf_alloc q (cs : list nat) : Prop := {
  wa_linked : clinked (heap q) (mChunks q) cs;
  wa_nodup : NoDup cs;
  wa_blocks : ∀ b, b ∈ cs ↔ is_Some (blocks q !! b);
  wa_size : ∀ b k, blocks q !! b = Some k → 0 < k ∧ b + k ≤ brk q;
  wa_disj : ∀ b1 k1 b2 k2, blocks q !! b1 = Some k1 → blocks q !! b2 = Some k2 →
    b1 ≠ b2 → b1 + k1 ≤ b2 ∨ b2 + k2 ≤ b1;
  wa_dom : ∀ n, is_Some (heap q !! n) ↔ ∃ b k, blocks q !! b = Some k ∧ b ≤ n < b + k }.

(** The queued items are [xs], the free items [ys]; [tok] dispatchers have
    passed [wsem_wait] and not yet taken an item; [N] bounds the items. *)
Record wf q (xs ys cs : list nat) (tok N : Z) : Prop := {
  wf_queue : dlinked q (pHead :: (pItem <$> xs) ++ [pTail]);
  wf_free : slinked (heap q) (mNext (mFirstFree q)) ys;
  wf_nodup : NoDup (xs ++ ys);
  wf_dom : ∀ n, is_Some (heap q !! n) ↔ n ∈ xs ++ ys;
  wf_alloc_ok : wf_alloc q cs;
  wf_curr : mCurrSize q = Z.of_nat (length xs);
  wf_sem : (mSem q + tok = Z.of_nat (length xs))%Z;
  wf_tok : (0 <= tok ∧ 0 <= mSem q)%Z;
  wf_cap : (Z.of_nat (length (xs ++ ys)) <= N)%Z;
  wf_chunk : (0 < mChunkSize q)%Z;
  wf_max : (0 <= mMaxSize q <= N)%Z;
  wf_width : (N + mChunkSize q < 2 ^ 31)%Z }.

(** The queued items carry the events [es]. *)
Definition holds h (xs : list nat) (es : list (uEvent Cb Data Closure Msg)) : Prop :=
  Forall2 (λ n e, item_event <$> h !! n = Some e) xs es.

Definition ev_ok e : Prop := arg_ok (ev_union e) (ev_isMsg e).

(** The pointer structure [q] represents the abstract queue [a]. *)
Definition represents q (tok N : Z) (a : Spec.queue (uEvent Cb Data Closure Msg)) : Prop :=
  Forall ev_ok (Spec.pending a) ∧
  ∃ xs ys cs, wf q xs ys cs tok N ∧ holds (heap q) xs (Spec.pending a)
              ∧ length ys = Spec.nfree a.

(** ** Chunks *)

Lemma lookup_zero_items h b k n :
  zero_items b k h !! n = if decide (b ≤ n < b + k) then Some zero_item else h !! n.
Proof.
  revert b. induction k as [|k IH]; intros b; simpl.
  - by rewrite decide_False by lia.
  - destruct (decide (b = n)) as [->|Hne].
    + by rewrite lookup_insert_eq, decide_True by lia.
    + rewrite lookup_insert_ne, IH by done. repeat case_decide; done || lia.
Qed.

Lemma lookup_clear_items h b k n :
  clear_items b k h !! n = if decide (b ≤ n < b + k) then None else h !! n.
Proof.
  revert b. induction k as [|k IH]; intros b; simpl.
  - by rewrite decide_False by lia.
  - destruct (decide (b = n)) as [->|Hne].
    + by rewrite lookup_delete_eq, decide_True by lia.
    + rewrite lookup_delete_ne, IH by done. repeat case_decide; done || lia.
Qed.

Lemma link_chunk_spec n : ∀ h r i,
  (∀ j, r + i ≤ j ≤ r + i + n → is_Some (h !! j)) →
  ∃ h', link_chunk h r i n = Some h'
    ∧ (∀ j, mChunkNext <$> h' !! j = mChunkNext <$> h !! j)
    ∧ (∀ j, ¬ (r + i ≤ j ≤ r + i + n) → h' !! j = h !! j)
    ∧ (∀ j, r + i ≤ j < r + i + n → mNext <$> h' !! j = Some (pItem (S j)))
    ∧ mNext <$> h' !! (r + i + n) = mNext <$> h !! (r + i + n).
Proof.
  induction n as [|n IH]; intros h r i Hdom.
  { exists h. split_and!; try done. lia. }
  destruct (Hdom (r + i)) as [it0 E0]; [lia|].
  destruct (Hdom (r + S i)) as [it1 E1]; [lia|].
  simpl. unfold store_item. rewrite E0. simpl.
  rewrite lookup_insert_ne by lia. rewrite E1. simpl.
  set (h2 := <[r + S i := _]> (<[r + i := _]> h)).
  assert (∀ j, is_Some (h !! j) → is_Some (h2 !! j)) as Hmono.
  { intros j Hj. unfold h2. rewrite !lookup_insert. repeat case_decide; eauto. }
  destruct (IH h2 r (S i)) as (h' & Hl & Hc & Ho & Hn & Hlast).
  { intros j Hj. apply Hmono, Hdom. lia. }
  exists h'. split_and!.
  - done.
  - intros j. rewrite Hc. unfold h2. rewrite !lookup_insert.
    repeat case_decide; subst; rewrite ?E0, ?E1; done.
  - intros j Hj. rewrite Ho by lia. unfold h2. by rewrite !lookup_insert_ne by lia.
  - intros j Hj. destruct (decide (j = r + i)) as [->|]; [|apply Hn; lia].
    rewrite Ho by lia. unfold h2. rewrite lookup_insert_ne by lia.
    rewrite lookup_insert_eq. simpl. do 2 f_equal. lia.
  - replace (r + i + S n) with (r + S i + n) by lia. rewrite Hlast.
    unfold h2. destruct (decide (n = 0)) as [->|].
    + rewrite Nat.add_0_r, lookup_insert_eq, E1. done.
    + by rewrite !lookup_insert_ne by lia.
Qed.

Lemma slinked_seq h r n :
  (∀ j, r ≤ j < r + n → mNext <$> h !! j = Some (pItem (S j))) →
  mNext <$> h !! (r + n) = Some pNull →
  slinked h (pItem r) (seq r (S n)).
Proof.
  revert r. induction n as [|n IH]; intros r Hn Hl.
  - rewrite Nat.add_0_r in Hl. simpl. split; [done|].
    destruct (h !! r) as [it|]; simplify_eq/=. eauto.
  - pose proof (Hn r ltac:(lia)) as Hr.
    change (seq r (S (S n))) with (r :: seq (S r) (S n)). split; [done|].
    destruct (h !! r) as [it|] eqn:E; simplify_eq/=. exists it. split; [done|].
    rewrite Hr. apply IH.
    + intros j ?. apply Hn. lia.
    + rewrite <-Hl. do 2 f_equal. lia.
Qed.

Lemma dlinked_same q q' xs :
  mHead q' = mHead q → mTail q' = mTail q →
  (∀ n, n ∈ xs → heap q' !! n = heap q !! n) →
  dlinked q (pHead :: (pItem <$> xs) ++ [pTail]) →
  dlinked q' (pHead :: (pItem <$> xs) ++ [pTail]).
Proof.
  intros Hh Ht Hx.
  assert (∀ p, p ∈ pHead :: (pItem <$> xs) ++ [pTail] → load q' p = load q p) as Hload.
  { intros p. rewrite elem_of_cons, elem_of_app, list_elem_of_fmap, list_elem_of_singleton.
    intros [->|[(n & -> & ?)| ->]]; simpl; [by rewrite Hh|by apply Hx|by rewrite Ht]. }
  apply dlinked_frame_back; intros p Hp; unfold next_of, prev_of; rewrite Hload; done || set_solver.
Qed.

Lemma wf_alloc_fresh q cs n : wf_alloc q cs → is_Some (heap q !! n) → n < brk q.
Proof.
  intros Ha Hn. apply (wa_dom _ _ Ha) in Hn as (b & k & Hb & ?).
  pose proof (wa_size _ _ Ha b k Hb). lia.
Qed.

(** A new chunk at [brk]: the allocator's invariant. *)
Lemma wf_alloc_extend q q' cs k :
  wf_alloc q cs → 0 < k →
  blocks q' = <[brk q := k]> (blocks q) → brk q' = brk q + k →
  mChunks q' = pItem (brk q) →
  mChunkNext <$> heap q' !! brk q = Some (mChunks q) →
  (∀ n, n < brk q → mChunkNext <$> heap q' !! n = mChunkNext <$> heap q !! n) →
  (∀ n, is_Some (heap q' !! n) ↔ is_Some (heap q !! n) ∨ brk q ≤ n < brk q + k) →
  wf_alloc q' (brk q :: cs).
Proof.
  intros Ha Hk Hb Hbrk Hch Hnew Hold Hdom.
  assert (blocks q !! brk q = None) as Hfresh.
  { destruct (blocks q !! brk q) eqn:E; [|done]. apply (wa_size _ _ Ha) in E. lia. }
  assert (∀ b, b ∈ cs → b < brk q) as Hcs.
  { intros b Hb'. apply (wa_blocks _ _ Ha) in Hb' as [k' Hk'].
    apply (wa_size _ _ Ha) in Hk'. lia. }
  split.
  - simpl. split; [done|]. destruct (heap q' !! brk q) as [it|]; simplify_eq/=.
    exists it. split; [done|]. rewrite Hnew.
    eapply clinked_frame; [|apply (wa_linked _ _ Ha)]. intros y Hy. apply Hold. auto.
  - constructor; [|apply (wa_nodup _ _ Ha)]. intros Hin%Hcs. lia.
  - intros b. rewrite Hb, elem_of_cons, lookup_insert, (wa_blocks _ _ Ha).
    case_decide; subst; split; intros; destruct_or?; eauto; naive_solver.
  - intros b k'. rewrite Hb, Hbrk, lookup_insert.
    case_decide; intros E; simplify_eq; [lia|]. apply (wa_size _ _ Ha) in E. lia.
  - intros b1 k1 b2 k2. rewrite Hb, !lookup_insert.
    repeat case_decide; intros E1 E2 ?; simplify_eq.
    + apply (wa_size _ _ Ha) in E2. lia.
    + apply (wa_size _ _ Ha) in E1. lia.
    + eapply (wa_disj _ _ Ha); eauto.
  - intros n. rewrite Hdom, (wa_dom _ _ Ha), Hb. setoid_rewrite lookup_insert. split.
    + intros [(b & k' & E & ?)|?].
      * exists b, k'. rewrite decide_False; [done|]. intros <-. simplify_eq.
      * exists (brk q), k. by rewrite decide_True.
    + intros (b & k' & E & ?). case_decide; simplify_eq; [by right|left; eauto].
Qed.

(** The heap after [calloc] of a chunk and the linking loop. *)
Lemma alloc_heap_spec h r k c :
  let h2 := <[r := set_mChunkNext c zero_item]> (zero_items r (S k) h) in
  ∃ h', link_chunk h2 r 0 k = Some h'
    ∧ (∀ n, n < r → h' !! n = h !! n)
    ∧ (∀ n, is_Some (h' !! n) ↔ is_Some (h !! n) ∨ r ≤ n < r + S k)
    ∧ mChunkNext <$> h' !! r = Some c
    ∧ slinked h' (pItem r) (seq r (S k)).
Proof.
  intros h2.
  assert (∀ n, h2 !! n = if decide (n = r) then Some (set_mChunkNext c zero_item)
                else if decide (r ≤ n < r + S k) then Some zero_item else h !! n) as Hh2.
  { intros n. unfold h2. rewrite lookup_insert, lookup_zero_items.
    repeat case_decide; done || lia. }
  destruct (link_chunk_spec k h2 r 0) as (h' & Hl & Hc & Ho & Hn & Hlast).
  { intros j Hj. rewrite Hh2. repeat case_decide; eauto. lia. }
  rewrite Nat.add_0_r in *. exists h'. split_and!.
  - done.
  - intros n ?. rewrite Ho, Hh2, !decide_False by lia. done.
  - intros n. rewrite <-(fmap_is_Some mChunkNext), Hc, fmap_is_Some, Hh2.
    repeat case_decide; split; intros; destruct_or?; eauto; lia.
  - rewrite Hc, Hh2, decide_True; done.
  - apply slinked_seq; [intros; apply Hn; lia|].
    rewrite Hlast, Hh2. case_decide; [done|]. rewrite decide_True; [done|lia].
Qed.

Lemma allocChunk_ok q xs cs tok N items :
  wf q xs [] cs tok N → (0 < items)%Z → (items + N < 2 ^ 31)%Z →
  (mSem q + items <= mMaxSize q)%Z → (mMaxSize q + tok <= N)%Z →
  ∃ q', uQueueImpl_allocChunk true q items = Some (WOMBAT_QUEUE_OK, q')
    ∧ wf q' xs (seq (brk q) (Z.to_nat items)) (brk q :: cs) tok N
    ∧ (∀ n, n ∈ xs → heap q' !! n = heap q !! n)
    ∧ mMaxSize q' = mMaxSize q ∧ mChunkSize q' = mChunkSize q ∧ mSem q' = mSem q.
Proof.
  intros [Hq Hf Hnd Hd Ha Hcu Hs [Ht Ht'] Hcap Hch Hm Hwd] Hi Hw Hfit HN.
  rewrite app_nil_r in *.
  assert (∀ n, n ∈ xs → n < brk q) as Hxs.
  { intros n Hn. eapply wf_alloc_fresh; [done|]. by apply Hd. }
  assert (∃ k, Z.to_nat items = S k ∧ items = Z.of_nat (S k)) as (k & Ek & Ei).
  { exists (Z.to_nat (items - 1)). lia. }
  destruct (alloc_heap_spec (heap q) (brk q) k (mChunks q)) as (h' & Hl & Hlow & Hdom & Hc & Hsl).
  unfold uQueueImpl_allocChunk. rewrite decide_False by (rewrite wrapu_id; lia).
  rewrite Ek. unfold store, store_item. cbn [calloc_items heap].
  rewrite lookup_zero_items, decide_True by lia. simpl in Hl |- *.
  rewrite (wrapu_id 32) by lia. replace (Z.to_nat (items - 1)) with k by lia.
  rewrite Hl. simpl. eexists. split; [done|].
  split; [|split; [intros; apply Hlow; auto|done]].
  split; simpl; try done; change (brk q :: seq (S (brk q)) k) with (seq (brk q) (S k)).
  - apply (dlinked_same q); [done..| |done]. intros; apply Hlow; auto.
  - rewrite NoDup_app. split_and!; [done| |apply NoDup_seq].
    intros n Hn' Hs'%elem_of_seq. apply Hxs in Hn'. lia.
  - intros n. rewrite Hdom, Hd, elem_of_app, elem_of_seq. done.
  - apply (wf_alloc_extend q _ cs (S k)); simpl; try done; try lia.
    intros n ?. by rewrite Hlow.
  - rewrite length_app, length_seq. lia.
Qed.

(** ** Stores *)

(** Everything of a queue but its items. *)
Definition meta q :=
  (mSem q, mMaxSize q, mChunkSize q, mCurrSize q, mFirstFree q, mChunks q, blocks q, brk q).

Lemma store_spec q p f it :
  load q p = Some it →
  ∃ q', store q p f = Some q'
    ∧ (∀ p', load q' p' = if decide (p = p') then Some (f it) else load q p')
    ∧ meta q' = meta q.
Proof.
  destruct p as [| | |n]; simpl; intros Hl; simplify_eq.
  - eexists. split_and!; [done| |done]. intros [| | |]; done.
  - eexists. split_and!; [done| |done]. intros [| | |]; done.
  - unfold store_item. rewrite Hl. simpl. eexists. split_and!; [done| |done].
    intros [| | |m]; simpl; [done..|]. rewrite lookup_insert.
    repeat case_decide; naive_solver.
Qed.

#[local] Arguments store : simpl never.
#[local] Arguments load : simpl never.

Lemma load_tail q : load q pTail = Some (mTail q).
Proof. done. Qed.

(** The assignments of [uQueue_enqueue] that put [item], whose [mPrev] is
    already set to the last element [lst], in front of the tail. *)
Lemma link_tail q it (y : nat) lst it_l e :
  load q (pItem y) = Some it → mPrev (mTail q) = lst →
  load q lst = Some it_l → lst ≠ pItem y → lst ≠ pTail →
  ∃ q6,
    (∀ A (K : uQueueImpl Cb Data Closure Msg → option A),
     (q2 ← store q (pItem y) (set_event e);
      q3 ← store q2 (pItem y) (set_mNext pTail);
      q4 ← store q3 (pItem y) (set_mPrev (mPrev (mTail q3)));
      it4 ← load q4 (pItem y);
      q5 ← store q4 (mPrev it4) (set_mNext (pItem y));
      q6 ← store q5 pTail (set_mPrev (pItem y));
      K q6) = K q6)
    ∧ meta q6 = meta q
    ∧ (∀ p, load q6 p =
         if decide (p = pItem y)
         then Some (set_mPrev lst (set_mNext pTail (set_event e it)))
         else if decide (p = pTail) then Some (set_mPrev (pItem y) (mTail q))
         else if decide (p = lst) then Some (set_mNext (pItem y) it_l)
         else load q p).
Proof.
  intros Ey Elst El Hne Hnt.
  destruct (store_spec q (pItem y) (set_event e) it Ey) as (q2 & E2 & L2 & M2).
  destruct (store_spec q2 (pItem y) (set_mNext pTail) (set_event e it)) as (q3 & E3 & L3 & M3).
  { rewrite L2. by rewrite decide_True. }
  assert (mTail q3 = mTail q) as Et.
  { pose proof (L3 pTail) as Ht. rewrite L2, !load_tail in Ht. simpl in Ht. congruence. }
  destruct (store_spec q3 (pItem y) (set_mPrev lst) (set_mNext pTail (set_event e it)))
    as (q4 & E4 & L4 & M4).
  { rewrite L3. by rewrite decide_True. }
  destruct (store_spec q4 lst (set_mNext (pItem y)) it_l) as (q5 & E5 & L5 & M5).
  { rewrite L4, L3, L2, !decide_False by congruence. done. }
  destruct (store_spec q5 pTail (set_mPrev (pItem y)) (mTail q)) as (q6 & E6 & L6 & M6).
  { rewrite L5, decide_False by congruence. rewrite L4, L3, L2. done. }
  exists q6. split_and!; [|congruence|].
  { intros A K. rewrite E2, bind_some, E3, bind_some, Et, Elst, E4, bind_some.
    rewrite L4, decide_True, bind_some by done. simpl mPrev.
    by rewrite E5, bind_some, E6, bind_some. }
  intros p. rewrite L6, L5, L4, L3, L2. repeat case_decide; congruence.
Qed.

(** ** Enqueue *)

(** The last queued element (or the head) precedes the tail. *)
Lemma queue_last q xs :
  dlinked q (pHead :: (pItem <$> xs) ++ [pTail]) →
  ∃ l0 lst, pHead :: (pItem <$> xs) = l0 ++ [lst]
    ∧ mPrev (mTail q) = lst ∧ dlinked q (l0 ++ [lst])
    ∧ (∃ it, load q lst = Some it) ∧ lst ≠ pTail ∧ (∀ n, lst = pItem n → n ∈ xs).
Proof.
  rewrite app_comm_cons. intros Hd.
  destruct (exists_last (l := pHead :: (pItem <$> xs))) as (l0 & lst & E); [done|].
  exists l0, lst. rewrite E in Hd. rewrite <-app_assoc in Hd. simpl in Hd.
  apply dlinked_app in Hd as [Hd1 (Hn & Hp & _)].
  assert (lst ∈ pHead :: (pItem <$> xs)) as Hin by (rewrite E; set_solver).
  unfold next_of, prev_of in *. rewrite load_tail in Hp. simplify_eq/=.
  split_and!; try done.
  - destruct (load q (mPrev (mTail q))); naive_solver.
  - intros Et. rewrite Et in Hin. apply elem_of_cons in Hin as [?|Hin]; [done|].
    apply list_elem_of_fmap in Hin as (? & ? & ?). done.
  - intros n En. rewrite En in Hin. apply elem_of_cons in Hin as [?|Hin]; [done|].
    apply list_elem_of_fmap in Hin as (? & ? & ?). by simplify_eq.
Qed.

Lemma wf_alloc_frame q q' cs :
  wf_alloc q cs → mChunks q' = mChunks q → blocks q' = blocks q → brk q' = brk q →
  (∀ n, mChunkNext <$> heap q' !! n = mChunkNext <$> heap q !! n) →
  wf_alloc q' cs.
Proof.
  intros [Hl Hnd Hb Hs Hdi Hdo] Ec Eb Ebr Hh. split; rewrite ?Ec, ?Eb, ?Ebr; try done.
  - eapply clinked_frame; [|done]. auto.
  - intros n. by rewrite <-Hdo, <-(fmap_is_Some mChunkNext), Hh, fmap_is_Some.
Qed.

#[local] Instance pItem_inj : Inj (=) (=) pItem.
Proof. by intros ? ? [=]. Qed.

Lemma not_in_queue_ptrs xs y : y ∉ xs → pItem y ∉ pHead :: (pItem <$> xs).
Proof. rewrite elem_of_cons, list_elem_of_fmap. naive_solver. Qed.

Lemma tail_not_in_queue_ptrs xs : pTail ∉ pHead :: (pItem <$> xs).
Proof. rewrite elem_of_cons, list_elem_of_fmap. naive_solver. Qed.

Lemma queue_ptrs_nodup xs : NoDup xs → NoDup (pHead :: (pItem <$> xs)).
Proof.
  intros. apply NoDup_cons. split.
  - rewrite list_elem_of_fmap. naive_solver.
  - by apply (NoDup_fmap_2 _).
Qed.

(** The queue after an item was linked in front of the tail. *)
Lemma dlinked_enqueue q q' xs (y : nat) it lst it_l l0 :
  dlinked q (l0 ++ [lst]) → pHead :: (pItem <$> xs) = l0 ++ [lst] →
  NoDup xs → y ∉ xs → load q lst = Some it_l →
  mNext it = pTail → mPrev it = lst →
  (∀ p, load q' p =
     if decide (p = pItem y) then Some it
     else if decide (p = pTail) then Some (set_mPrev (pItem y) (mTail q))
     else if decide (p = lst) then Some (set_mNext (pItem y) it_l)
     else load q p) →
  dlinked q' (pHead :: (pItem <$> (xs ++ [y])) ++ [pTail]).
Proof.
  intros Hd El Hnd Hy Hl Hn Hp HL.
  assert (pItem y ∉ l0 ++ [lst]) by (rewrite <-El; by apply not_in_queue_ptrs).
  assert (pTail ∉ l0 ++ [lst]) by (rewrite <-El; apply tail_not_in_queue_ptrs).
  assert (NoDup (l0 ++ [lst])) as Hnd' by (rewrite <-El; by apply queue_ptrs_nodup).
  apply NoDup_app in Hnd' as (_ & Hdis & _).
  rewrite fmap_app, !app_comm_cons, El, <-!app_assoc. cbn [fmap list_fmap app]. apply dlinked_app. split.
  - apply (dlinked_frame_front q); [..|done]; intros p Hin; unfold next_of, prev_of; rewrite HL.
    + rewrite !decide_False; [done|set_solver..].
    + rewrite decide_False by set_solver. rewrite decide_False by set_solver.
      case_decide; [|done]. subst. by rewrite Hl.
  - cbn [app dlinked]. unfold next_of, prev_of. rewrite !HL.
    rewrite (decide_False (P := lst = pItem y)) by set_solver.
    rewrite (decide_False (P := lst = pTail)) by set_solver.
    rewrite !decide_True by done. simpl. by rewrite Hn, Hp.
Qed.

(** What the stores of an enqueue leave in the heap: the item [y], taken from
    the free list, holds [it'] between the last queued item and the tail. *)
Record linked q q' (y : nat) it it' (lst : uPtr) it_l : Prop := {
  lk_load : ∀ p, load q' p =
     if decide (p = pItem y) then Some it'
     else if decide (p = pTail) then Some (set_mPrev (pItem y) (mTail q))
     else if decide (p = lst) then Some (set_mNext (pItem y) it_l)
     else load q p;
  lk_free : mNext (mFirstFree q') = mNext it;
  lk_chunks : mChunks q' = mChunks q ∧ blocks q' = blocks q ∧ brk q' = brk q;
  lk_curr : mCurrSize q' = (mCurrSize q + 1)%Z;
  lk_sem : mSem q' = (mSem q + 1)%Z;
  lk_sizes : mMaxSize q' = mMaxSize q ∧ mChunkSize q' = mChunkSize q }.

(** A field the link of two items leaves alone is unchanged in every other
    item. *)
Lemma linked_frame {B} (g : uQueueItem Cb Data Closure Msg → B) q q' y it it' lst it_l n :
  linked q q' y it it' lst it_l → load q lst = Some it_l → n ≠ y →
  (∀ p i, g (set_mNext p i) = g i) → g <$> heap q' !! n = g <$> heap q !! n.
Proof.
  intros HL Hl Hn Hg. change (heap q' !! n) with (load q' (pItem n)). rewrite (lk_load _ _ _ _ _ _ _ HL).
  rewrite decide_False by congruence. rewrite decide_False by done. case_decide as E; [|done].
  rewrite <-E in Hl. change (load q (pItem n)) with (heap q !! n) in Hl. rewrite Hl. simpl. by rewrite Hg.
Qed.

(** Such a link preserves the invariant. *)
Lemma wf_linked q q' xs y ys cs tok N e it lst it_l l0 :
  wf q xs (y :: ys) cs tok N → heap q !! y = Some it →
  pHead :: (pItem <$> xs) = l0 ++ [lst] → dlinked q (l0 ++ [lst]) → load q lst = Some it_l →
  (∀ n, lst = pItem n → n ∈ xs) →
  linked q q' y it (set_mPrev lst (set_mNext pTail (set_event e it))) lst it_l →
  wf q' (xs ++ [y]) ys cs tok N.
Proof.
  intros [Hq Hf Hnd Hd Ha Hcu Hs Ht Hcap Hch Hm Hwd] Ey El Hd0 Hl Hin HL.
  destruct Hf as [_ (it0 & Ey0 & Hf)]. assert (it0 = it) as -> by congruence.
  apply NoDup_app in Hnd as (Hndx & Hdisj & Hndy). apply NoDup_cons in Hndy as [Hy Hndy].
  assert (y ∉ xs) as Hyx by set_solver.
  pose proof (lk_load _ _ _ _ _ _ _ HL) as Hh.
  destruct (lk_chunks _ _ _ _ _ _ _ HL) as (Eck & Ebl & Ebr), (lk_sizes _ _ _ _ _ _ _ HL) as (Emx & Ech).
  assert (heap q' !! y = Some (set_mPrev lst (set_mNext pTail (set_event e it)))) as Hhy.
  { change (heap q' !! y) with (load q' (pItem y)). by rewrite Hh, decide_True. }
  assert (∀ n, mChunkNext <$> heap q' !! n = mChunkNext <$> heap q !! n) as Hchn.
  { intros n. destruct (decide (n = y)) as [->|Hn]; [by rewrite Hhy, Ey|]. by apply (linked_frame _ _ _ _ _ _ _ _ _ HL). }
  split; rewrite ?Ech, ?Emx, ?(lk_curr _ _ _ _ _ _ _ HL), ?(lk_sem _ _ _ _ _ _ _ HL); try done.
  - by apply (dlinked_enqueue q _ xs y _ lst it_l l0) in Hh.
  - rewrite (lk_free _ _ _ _ _ _ _ HL). eapply slinked_frame; [|done].
    intros n Hn. change (heap q' !! n) with (load q' (pItem n)). rewrite Hh, decide_False by set_solver.
    rewrite decide_False by done. rewrite decide_False; [done|]. intros E. symmetry in E. apply Hin in E. set_solver.
  - rewrite <-app_assoc. apply NoDup_app. split_and!; [done|set_solver|by apply NoDup_cons].
  - intros n. rewrite <-(fmap_is_Some mChunkNext), Hchn, fmap_is_Some, Hd. set_solver.
  - by apply (wf_alloc_frame q).
  - rewrite length_app. simpl. lia.
  - rewrite length_app. simpl. lia.
  - lia.
  - rewrite !length_app in *. simpl in *. lia.
Qed.

Lemma enqueue_free mem q xs y ys cs tok N cb data closure isMsg :
  wf q xs (y :: ys) cs tok N → arg_ok closure isMsg →
  ∃ q', uQueue_enqueue mem q cb data closure isMsg = Some (WOMBAT_QUEUE_OK, q')
    ∧ wf q' (xs ++ [y]) ys cs tok N
    ∧ item_event <$> heap q' !! y = Some (mkEvent cb data isMsg closure)
    ∧ (∀ n, n ∈ xs → item_event <$> heap q' !! n = item_event <$> heap q !! n)
    ∧ mMaxSize q' = mMaxSize q ∧ mChunkSize q' = mChunkSize q.
Proof.
  intros Hwf Harg. pose proof Hwf as [Hq Hf Hnd _ _ Hcu _ _ Hcap Hch Hm Hwd].
  destruct Hf as [Ef (it & Ey & Hf)].
  apply NoDup_app in Hnd as (_ & Hdisj & _).
  destruct (queue_last q xs Hq) as (l0 & lst & El & Elst & Hd0 & [it_l Hl] & Hnt & Hin).
  assert (y ∉ xs) as Hyx by set_solver.
  set (q1 := set_free (mNext it) q).
  destruct (link_tail q1 it y lst it_l (mkEvent cb data isMsg closure))
    as (q6 & HK & HM & HL); [done|done|done| |done|].
  { intros E. apply Hyx. by apply Hin. }
  injection HM as Es Emx Ech Ecu Eff Eck Ebl Ebr.
  unfold uQueue_enqueue. rewrite Ef.
  destruct (decide (pItem y = pNull)) as [?|_]; [done|]. rewrite bind_some. cbv zeta. rewrite Ef.
  destruct (decide (pItem y = pNull)) as [?|_]; [done|].
  change (load q (pItem y)) with (heap q !! y). rewrite Ey, bind_some. fold q1.
  replace (match closure with uMsg _ => _ | uClosure _ => _ end) with (Some closure)
    by (destruct closure; simpl in Harg; rewrite ?decide_True, ?decide_False by done; done).
  rewrite bind_some, HK. unfold add_curr. rewrite Ecu. cbn [mCurrSize q1 set_free].
  rewrite length_app in Hcap. simpl in Hcap. rewrite decide_True by lia. rewrite bind_some.
  eexists. split; [done|]. match goal with |- wf ?q' _ _ _ _ _ ∧ _ => set (q7 := q') end.
  assert (linked q q7 y it (set_mPrev lst (set_mNext pTail (set_event (mkEvent cb data isMsg closure) it))) lst it_l)
    as HK7.
  { split; [exact HL|by cbn; rewrite Eff|done|done|by cbn; rewrite Es|done]. }
  split_and!; [by eapply wf_linked| | |done|done].
  - change (heap q7 !! y) with (load q6 (pItem y)). by rewrite HL, decide_True.
  - intros n Hn. apply (linked_frame _ _ _ _ _ _ _ _ _ HK7); [done|set_solver|done].
Qed.

(** ** Dispatch *)

(** The first queued item and its successor. *)
Lemma queue_first q x xs :
  dlinked q (pHead :: (pItem <$> (x :: xs)) ++ [pTail]) →
  ∃ it nxt l it_n, (pItem <$> xs) ++ [pTail] = nxt :: l
    ∧ mNext (mHead q) = pItem x ∧ load q (pItem x) = Some it
    ∧ mPrev it = pHead ∧ mNext it = nxt ∧ load q nxt = Some it_n ∧ dlinked q (nxt :: l).
Proof.
  cbn [fmap list_fmap app]. intros (H1 & H2 & H3).
  destruct ((pItem <$> xs) ++ [pTail]) as [|nxt l] eqn:E; [by destruct xs|].
  destruct H3 as (H3 & H4 & H5). unfold next_of, prev_of in *.
  destruct (load q (pItem x)) as [it|] eqn:Ex; simplify_eq/=.
  destruct (load q (mNext it)) as [it_n|] eqn:En; simplify_eq/=.
  exists it, (mNext it), l, it_n. change (load q pHead) with (Some (mHead q)) in H1.
  naive_solver.
Qed.

(** The assignments of [UQ_REMOVE] on the first item. *)
Lemma unlink_head q x it nxt it_n :
  load q (pItem x) = Some it → mPrev it = pHead → mNext it = nxt →
  load q nxt = Some it_n → nxt ≠ pItem x → nxt ≠ pHead →
  (- 2 ^ 31 <= mCurrSize q - 1 < 2 ^ 31)%Z →
  ∃ q', UQ_REMOVE q (pItem x) = Some q'
    ∧ meta q' = meta (set_curr (mCurrSize q - 1) (set_free (pItem x) q))
    ∧ (∀ p, load q' p =
         if decide (p = pItem x) then Some (set_mNext (mNext (mFirstFree q)) it)
         else if decide (p = pHead) then Some (set_mNext nxt (mHead q))
         else if decide (p = nxt) then Some (set_mPrev pHead it_n)
         else load q p).
Proof.
  intros Ex Hp Hn En Hne Hnh Hc.
  destruct (store_spec q pHead (set_mNext nxt) (mHead q)) as (q1 & E1 & L1 & M1); [done|].
  destruct (store_spec q1 nxt (set_mPrev pHead) it_n) as (q2 & E2 & L2 & M2).
  { rewrite L1, decide_False by congruence. done. }
  destruct (store_spec q2 (pItem x) (set_mNext (mNext (mFirstFree q))) it) as (q3 & E3 & L3 & M3).
  { rewrite L2, decide_False by congruence. rewrite L1, decide_False by done. done. }
  assert (meta q3 = meta q) as M by congruence. injection M as ? ? ? Ecu Eff ? ? ?.
  injection M2 as ? ? ? ? Eff2 ? ? ?. injection M1 as ? ? ? ? Eff1 ? ? ?.
  unfold UQ_REMOVE. rewrite Ex, bind_some, Hp, Hn, E1, bind_some.
  rewrite L1, decide_False, Ex, bind_some by done. rewrite Hn, Hp, E2, bind_some.
  rewrite Eff2, Eff1, E3, bind_some. unfold add_curr. cbn [mCurrSize set_free].
  rewrite Ecu. change (mCurrSize q + -1)%Z with (mCurrSize q - 1)%Z.
  rewrite decide_True by done. eexists. split_and!; [done| |].
  - unfold meta. simpl. congruence.
  - intros p. transitivity (load q3 p); [by destruct p|].
    rewrite L3, L2, L1. repeat case_decide; congruence.
Qed.

(** The queue after its first item was unlinked. *)
Lemma dlinked_dequeue q q' (x : nat) it nxt it_n l xs :
  dlinked q (nxt :: l) → (pItem <$> xs) ++ [pTail] = nxt :: l →
  NoDup (x :: xs) → load q nxt = Some it_n →
  (∀ p, load q' p =
     if decide (p = pItem x) then Some it
     else if decide (p = pHead) then Some (set_mNext nxt (mHead q))
     else if decide (p = nxt) then Some (set_mPrev pHead it_n)
     else load q p) →
  dlinked q' (pHead :: (pItem <$> xs) ++ [pTail]).
Proof.
  intros Hd El [Hx Hnd]%NoDup_cons Hn HL.
  assert (∀ p, p ∈ nxt :: l → p ≠ pItem x ∧ p ≠ pHead) as Hin.
  { intros p. rewrite <-El, elem_of_app, list_elem_of_fmap, list_elem_of_singleton. naive_solver. }
  assert (NoDup (nxt :: l)) as [Hnl _]%NoDup_cons.
  { rewrite <-El. apply NoDup_app. split_and!; [by apply (NoDup_fmap_2 _)| |apply NoDup_singleton].
    intros p. rewrite list_elem_of_fmap, list_elem_of_singleton. naive_solver. }
  assert (dlinked q' (nxt :: l)) as Htl.
  { apply (dlinked_frame_back q); [..|done]; intros p Hp; unfold next_of, prev_of; rewrite HL;
      destruct (Hin p ltac:(set_solver)) as [Hpx Hph];
      rewrite (decide_False _ _ Hpx), (decide_False _ _ Hph).
    - case_decide; [|done]. subst. by rewrite Hn.
    - rewrite decide_False; [done|set_solver]. }
  destruct (Hin nxt ltac:(set_solver)) as [Hpx Hph].
  rewrite El. refine (conj _ (conj _ Htl)); unfold next_of, prev_of; rewrite HL.
  - rewrite decide_False, decide_True by done. done.
  - rewrite (decide_False _ _ Hpx), (decide_False _ _ Hph), decide_True by done. done.
Qed.

Lemma takeHead_cons q x xs ys cs tok N :
  wf q (x :: xs) ys cs tok N → (0 < tok)%Z →
  ∃ e q', uQueue_takeHead q = Some (Some e, q')
    ∧ item_event <$> heap q !! x = Some e
    ∧ wf q' xs (x :: ys) cs (tok - 1) N
    ∧ (∀ n, item_event <$> heap q' !! n = item_event <$> heap q !! n)
    ∧ mMaxSize q' = mMaxSize q ∧ mChunkSize q' = mChunkSize q.
Proof.
  intros [Hq Hf Hnd Hd Ha Hcu Hs Ht Hcap Hch Hm Hwd] Htok.
  destruct (queue_first q x xs Hq) as (it & nxt & l & it_n & El & Eh & Ex & Ep & En & Hn & Hdl).
  rewrite length_app in Hcap. simpl length in *.
  pose proof Hnd as ([Hxx Hndx]%NoDup_cons & Hdisj & Hndy)%NoDup_app.
  assert (nxt ≠ pItem x ∧ nxt ≠ pHead) as [Hne Hnh].
  { assert (nxt ∈ (pItem <$> xs) ++ [pTail]) as Hin by (rewrite El; set_solver).
    rewrite elem_of_app, list_elem_of_fmap, list_elem_of_singleton in Hin.
    destruct Hin as [(n & E & ?)|E]; rewrite E; [|done]. split; [intros [= ->]|]; done. }
  destruct (unlink_head q x it nxt it_n) as (q' & Hrm & HM & HL); [done..|lia|].
  injection HM as Es Emx Ech Ecu Eff Eck Ebl Ebr.
  assert (∀ n, heap q' !! n = load q' (pItem n)) as Hh by done.
  assert (∀ B (g : uQueueItem Cb Data Closure Msg → B),
            (∀ p i, g (set_mPrev p i) = g i) → (∀ i, g (set_mNext (mNext (mFirstFree q)) i) = g i) →
            ∀ n, g <$> heap q' !! n = g <$> heap q !! n) as Hold.
  { intros B g Hg1 Hg2 n. rewrite Hh, HL. change (heap q !! n) with (load q (pItem n)).
    case_decide as E1; [rewrite E1, Ex; simpl; by rewrite Hg2|].
    rewrite decide_False by done. case_decide as E2; [|done]. rewrite E2, Hn. simpl. by rewrite Hg1. }
  exists (item_event it), q'. split_and!; [|by change (heap q !! x) with (load q (pItem x)); rewrite Ex| | |done..].
  - unfold uQueue_takeHead. rewrite Eh. destruct (decide (pItem x = pTail)); [done|].
    rewrite Hrm, bind_some, HL, decide_True by done. done.
  - split.
    + apply (dlinked_dequeue q _ x _ nxt it_n l xs Hdl El) in HL; [done|by apply NoDup_cons|done].
    + rewrite Eff. split; [done|]. eexists. split; [rewrite Hh, HL, decide_True; done|].
      simpl. eapply slinked_frame; [|done]. intros n Hn'. rewrite Hh, HL.
      rewrite decide_False by set_solver. rewrite decide_False by done.
      case_decide as E; [|done]. change (heap q !! n) with (load q (pItem n)). rewrite E, Hn. done.
    + apply NoDup_app. split_and!; [done|set_solver|]. apply NoDup_cons. split; [|done].
      intros Hin. by apply (Hdisj x); [set_solver|].
    + intros n. rewrite <-(fmap_is_Some mChunkNext), Hold by done. rewrite fmap_is_Some, Hd. set_solver.
    + apply (wf_alloc_frame q); try done. intros n. by apply Hold.
    + rewrite Ecu. simpl. lia.
    + rewrite Es. simpl. lia.
    + rewrite Es. simpl. lia.
    + rewrite length_app. simpl. lia.
    + by rewrite Ech.
    + by rewrite Emx.
    + by rewrite Ech.
  - intros n. by apply Hold.
Qed.

(** ** Destruction *)

(** Freeing the first chunk of the list leaves the invariant of the rest. *)
Lemma wf_alloc_free q c cs it k :
  wf_alloc q (c :: cs) → heap q !! c = Some it → blocks q !! c = Some k →
  wf_alloc (mkImpl (mSem q) (mMaxSize q) (mChunkSize q) (mCurrSize q) (mHead q) (mTail q)
              (mFirstFree q) (mChunkNext it)
              (clear_items c k (heap q)) (delete c (blocks q)) (brk q)) cs.
Proof.
  intros [[_ (it' & Eit & Hl)] [Hc Hnd]%NoDup_cons Hb Hs Hdi Hdo] Eit' Ek. simplify_eq.
  split; simpl; [|done|..].
  - eapply clinked_frame; [|done]. intros y Hy. rewrite lookup_clear_items.
    rewrite decide_False; [done|]. intros Hin.
    destruct (proj1 (Hb y)) as [k' Ek']; [set_solver|].
    pose proof (Hs _ _ Ek'). destruct (Hdi y k' c k); [done..|set_solver|lia|lia].
  - intros b. rewrite lookup_delete. case_decide; [subst; naive_solver|].
    rewrite <-Hb. set_solver.
  - intros b k'. rewrite lookup_delete. case_decide; [done|]. apply Hs.
  - intros b1 k1 b2 k2. rewrite !lookup_delete. repeat case_decide; [done..|]. apply Hdi.
  - intros n. rewrite lookup_clear_items. setoid_rewrite lookup_delete. case_decide as Hin.
    + split; [by intros []|]. intros (b & k' & E & ?). case_decide; [done|].
      destruct (Hdi b k' c k); done || lia.
    + rewrite Hdo. split; intros (b & k' & E & ?).
      * exists b, k'. case_decide; [|done]. subst. simplify_eq. lia.
      * case_decide; [done|]. eauto.
Qed.

(** The loop does not read [mChunks]. *)
Lemma destroy_loop_chunks fuel p c q :
  destroy_loop fuel p (set_chunks c q) = set_chunks c <$> destroy_loop fuel p q.
Proof.
  revert p q. induction fuel as [|fuel IH]; intros [| | |n] q; try done.
  cbn [destroy_loop]. change (load (set_chunks c q) (pItem n)) with (load q (pItem n)).
  destruct (load q (pItem n)) as [it|]; [|done]. rewrite !bind_some. unfold free_items.
  change (blocks (set_chunks c q)) with (blocks q).
  destruct (blocks q !! n) as [k|]; [|done]. rewrite !bind_some, <-IH. done.
Qed.

Lemma destroy_loop_ok cs : ∀ q fuel,
  wf_alloc q cs → length cs ≤ fuel →
  ∃ q', destroy_loop fuel (mChunks q) q = Some q' ∧ heap q' = ∅ ∧ blocks q' = ∅.
Proof.
  induction cs as [|c cs IH]; intros q fuel Ha Hf.
  - pose proof (wa_linked _ _ Ha) as Hl. simpl in Hl. exists q. rewrite Hl.
    assert (blocks q = ∅) as Eb.
    { apply map_eq. intros b. rewrite lookup_empty. apply eq_None_not_Some.
      rewrite <-(wa_blocks _ _ Ha). set_solver. }
    split_and!; [by destruct fuel| |done].
    apply map_eq. intros n. rewrite lookup_empty. apply eq_None_not_Some.
    rewrite (wa_dom _ _ Ha), Eb. intros (b & k & E & _). by rewrite lookup_empty in E.
  - pose proof (wa_linked _ _ Ha) as [Hl (it & Eit & _)].
    destruct (proj1 (wa_blocks _ _ Ha c)) as [k Ek]; [set_solver|].
    destruct fuel as [|fuel]; [simpl in Hf; lia|]. rewrite Hl. simpl.
    change (load q (pItem c)) with (heap q !! c). rewrite Eit, bind_some.
    unfold free_items. rewrite Ek, !bind_some.
    pose proof (wf_alloc_free q c cs it k Ha Eit Ek) as Ha'.
    apply IH with (fuel := fuel) in Ha'; [|simpl in Hf; lia].
    destruct Ha' as (q' & E & ? & ?). exists (set_chunks (mChunks q) q'). split_and!; try done.
    simpl in E.
    set (q0 := mkImpl _ _ _ _ _ _ _ _ _ _ _) in E.
    change (mkImpl _ _ _ _ _ _ _ (mChunks q) _ _ _) with (set_chunks (mChunks q) q0).
    rewrite destroy_loop_chunks, E. done.
Qed.

Lemma length_chunks q cs : wf_alloc q cs → length cs = size (blocks q).
Proof.
  intros Ha. rewrite <-size_dom, <-(size_list_to_set (C := gset nat) cs) by apply (wa_nodup _ _ Ha).
  f_equal. apply set_eq. intros b. rewrite elem_of_list_to_set, elem_of_dom.
  apply (wa_blocks _ _ Ha).
Qed.

End Proofs.
