(* ===== verification/UQueueSpec.v ===== *)
(** * What the event queue promises

    The refinement theorems of uqueue.c against the list specification, the
    concurrent behaviour with several dispatching threads, and the interface
    [EventQueue] that queue.c is verified against. *)

From S2P Require Import Prelude UQueue EventQueue UQueueProofs.
Import UQ.

Section Refinement.

Context {Cb Data Closure Msg : Type}.
Implicit Types q : uQueueImpl Cb Data Closure Msg.
Implicit Types e : uEvent Cb Data Closure Msg.
Implicit Types a : Spec.queue (uEvent Cb Data Closure Msg).

(** Whether [uQueueImpl_allocChunk] succeeds when the free list is empty. *)
Definition has_room (mem : bool) q : bool :=
  mem && bool_decide (mSem q + mChunkSize q <= mMaxSize q)%Z.

Lemma holds_same h h' xs (es : list (uEvent Cb Data Closure Msg)) :
  (∀ n, n ∈ xs → item_event <$> h' !! n = item_event <$> h !! n) →
  holds h xs es → holds h' xs es.
Proof.
  unfold holds. intros Hs. induction 1; constructor.
  - rewrite Hs by set_solver. done.
  - apply IHForall2. intros. apply Hs. set_solver.
Qed.

Lemma holds_snoc h xs es y e :
  holds h xs es → item_event <$> h !! y = Some e → holds h (xs ++ [y]) (es ++ [e]).
Proof. intros. apply Forall2_app; [done|]. by constructor. Qed.

(** An enqueue with a free item appends the event. *)
Lemma enqueue_nonempty mem q xs y ys cs tok N es cb data closure isMsg :
  wf q xs (y :: ys) cs tok N → holds (heap q) xs es → Forall ev_ok es →
  arg_ok closure isMsg →
  ∃ q', uQueue_enqueue mem q cb data closure isMsg = Some (WOMBAT_QUEUE_OK, q')
    ∧ represents q' tok N
        (Spec.mkQ (es ++ [mkEvent cb data isMsg closure]) (length ys))
    ∧ mMaxSize q' = mMaxSize q ∧ mChunkSize q' = mChunkSize q.
Proof.
  intros Hwf Hh Hok Harg.
  destruct (enqueue_free mem q xs y ys cs tok N cb data closure isMsg Hwf Harg)
    as (q' & E & Hwf' & Hy & Hx & ? & ?).
  exists q'. split_and!; try done. split; simpl.
  - apply Forall_app. split; [done|]. by constructor.
  - exists (xs ++ [y]), ys, cs. split_and!; [done| |done].
    apply holds_snoc; [|done]. by eapply holds_same.
Qed.

(** With an empty free list the operation continues with the new chunk. *)
Lemma enqueue_alloc mem q q1 cb data closure isMsg :
  mNext (mFirstFree q) = pNull → mNext (mFirstFree q1) ≠ pNull →
  uQueueImpl_allocChunk mem q (mChunkSize q) = Some (WOMBAT_QUEUE_OK, q1) →
  uQueue_enqueue mem q cb data closure isMsg = uQueue_enqueue mem q1 cb data closure isMsg.
Proof.
  intros E1 E2 E3. unfold uQueue_enqueue.
  destruct (decide (mNext (mFirstFree q) = pNull)) as [_|?]; [|done]. rewrite E3.
  destruct (decide (mNext (mFirstFree q1) = pNull)) as [?|_]; [done|].
  cbn [fmap option_fmap option_map snd]. rewrite !bind_some. done.
Qed.

Lemma allocChunk_full mem q xs cs tok N :
  wf q xs [] cs tok N → has_room mem q = false →
  ∃ st, st ≠ WOMBAT_QUEUE_OK ∧ uQueueImpl_allocChunk mem q (mChunkSize q) = Some (st, q).
Proof.
  intros [Hq Hf Hnd Hd Ha Hcu Hs Ht Hcap Hch Hm Hwd] Hr.
  rewrite app_nil_r in *. unfold has_room in Hr. unfold uQueueImpl_allocChunk.
  rewrite (wrapu_id 32 (mSem q + mChunkSize q)) by lia.
  destruct (decide (mSem q + mChunkSize q > mMaxSize q)%Z);
    [exists WOMBAT_QUEUE_FULL; split; done|].
  destruct mem; [|exists WOMBAT_QUEUE_NOMEM; split; done]. rewrite bool_decide_eq_true_2 in Hr by lia. done.
Qed.

Lemma enqueue_represents mem q tok N a cb data closure isMsg :
  represents q tok N a → (mMaxSize q + tok <= N)%Z → arg_ok closure isMsg →
  ∃ q' st a', uQueue_enqueue mem q cb data closure isMsg = Some (st, q')
    ∧ Spec.enqueue (has_room mem q) (Z.to_nat (mChunkSize q))
        (mkEvent cb data isMsg closure) a = (st, a')
    ∧ represents q' tok N a'
    ∧ mMaxSize q' = mMaxSize q ∧ mChunkSize q' = mChunkSize q.
Proof.
  intros [Hok (xs & ys & cs & Hwf & Hh & Hl)] HN Harg.
  destruct a as [es nf]; simpl in *. subst nf. unfold Spec.enqueue. simpl.
  destruct ys as [|y ys]; simpl.
  2: { destruct (enqueue_nonempty mem q xs y ys cs tok N es cb data closure isMsg)
         as (q' & ? & ? & ?); try done. eauto 10. }
  pose proof (wf_free _ _ _ _ _ _ Hwf) as Ef. simpl in Ef.
  destruct (has_room mem q) eqn:Hr.
  - unfold has_room in Hr. apply andb_true_iff in Hr as [-> Hr%bool_decide_eq_true].
    pose proof (wf_chunk _ _ _ _ _ _ Hwf). pose proof (wf_width _ _ _ _ _ _ Hwf).
    destruct (allocChunk_ok q xs cs tok N (mChunkSize q)) as (q1 & E1 & Hwf1 & Hx & Em & Ec & _);
      [done|done|lia|done|done|].
    destruct (Z.to_nat (mChunkSize q)) as [|k] eqn:Ek; [lia|].
    change (seq (brk q) (S k)) with (brk q :: seq (S (brk q)) k) in Hwf1.
    destruct (enqueue_nonempty true q1 xs (brk q) (seq (S (brk q)) k) (brk q :: cs) tok N es
                cb data closure isMsg) as (q' & E' & R' & ? & ?); try done.
    { eapply holds_same; [|done]. intros n Hn. by rewrite Hx. }
    rewrite length_seq in R'. rewrite (enqueue_alloc true q q1); [|done| |done].
    + replace (S k - 1) with k by lia. do 3 eexists. split_and!; [done|done|done|congruence..].
    + pose proof (wf_free _ _ _ _ _ _ Hwf1) as [-> _]. done.
  - destruct (allocChunk_full mem q xs cs tok N Hwf Hr) as (st & Hst & Es).
    exists q, WOMBAT_QUEUE_FULL, (Spec.mkQ es 0). split_and!; try done.
    + unfold uQueue_enqueue. destruct (decide (mNext (mFirstFree q) = pNull)) as [_|?]; [|done].
      rewrite Es. cbn [fmap option_fmap option_map snd]. rewrite bind_some. cbv zeta.
      destruct (decide (mNext (mFirstFree q) = pNull)) as [_|?]; done.
    + split; [done|]. exists xs, [], cs. done.
Qed.

(** Taking an item with a token removes the first pending event. *)
Lemma takeHead_represents q tok N a :
  represents q tok N a → (0 < tok)%Z →
  ∃ e q' a', uQueue_takeHead q = Some (Some e, q') ∧ Spec.dequeue a = Some (e, a')
    ∧ ev_ok e ∧ represents q' (tok - 1) N a'
    ∧ mMaxSize q' = mMaxSize q ∧ mChunkSize q' = mChunkSize q.
Proof.
  intros [Hok (xs & ys & cs & Hwf & Hh & Hl)] Htok. destruct a as [es nf]; simpl in *. subst nf.
  inversion Hh as [E1 E2|x e0 xs' es' Hx Hh' E1 E2]; subst.
  - pose proof (wf_sem _ _ _ _ _ _ Hwf) as Hs. pose proof (wf_tok _ _ _ _ _ _ Hwf).
    simpl in Hs. lia.
  - destruct (takeHead_cons q x xs' ys cs tok N Hwf Htok) as (e & q' & E & He & Hwf' & Hev & ? & ?).
    rewrite He in Hx. injection Hx as ->. inversion Hok; subst.
    exists e0, q', (Spec.mkQ es' (S (length ys))). split_and!; try done.
    split; [done|]. exists xs', (x :: ys), cs. split_and!; [done| |done].
    eapply holds_same; [|done]. intros. apply Hev.
Qed.

(** The end of [uQueue_dispatchInt] makes the call that is owed. *)
Lemma call_ok e : ev_ok e → uQueue_call e = Some (event_call e).
Proof.
  unfold ev_ok, arg_ok, uQueue_call, event_call. destruct (ev_union e) as [c|m]; intros H.
  - rewrite decide_True by done. by destruct (ev_cb e).
  - rewrite decide_False by done. destruct (Z.eqb_spec (ev_isMsg e) 1); [rewrite decide_True by done|
      rewrite decide_False by done]; by destruct (ev_cb e).
Qed.

(** Waiting on the semaphore turns a unit into a token. *)
Lemma wait_represents q tok N a :
  represents q tok N a → (0 < mSem q)%Z →
  represents (set_sem (mSem q - 1) q) (tok + 1) N a.
Proof.
  intros [Hok (xs & ys & cs & Hwf & Hh & Hl)] Hsem. split; [done|].
  exists xs, ys, cs. split_and!; [|done..].
  destruct Hwf as [Hq Hf Hnd Hd Ha Hcu Hs Ht Hcap Hch Hm Hwd].
  split; simpl; try done; try lia.
  - by apply (dlinked_same q).
  - by apply (wf_alloc_frame q).
Qed.

(** The number of allocated items. *)
Lemma represents_heap q tok N a :
  represents q tok N a →
  size (heap q) = length (Spec.pending a) + Spec.nfree a ∧ (Z.of_nat (size (heap q)) <= N)%Z.
Proof.
  intros [Hok (xs & ys & cs & Hwf & Hh & Hl)].
  assert (size (heap q) = length (xs ++ ys)) as E.
  { rewrite <-size_dom, <-(size_list_to_set (C := gset nat) (xs ++ ys))
      by apply (wf_nodup _ _ _ _ _ _ Hwf).
    f_equal. apply set_eq. intros n. rewrite elem_of_list_to_set, elem_of_dom.
    apply (wf_dom _ _ _ _ _ _ Hwf). }
  rewrite E. split; [|apply (wf_cap _ _ _ _ _ _ Hwf)].
  apply Forall2_length in Hh. rewrite length_app. lia.
Qed.

Lemma represents_size q tok N a :
  represents q tok N a → (mSem q + tok = Z.of_nat (length (Spec.pending a)))%Z ∧
  mCurrSize q = Z.of_nat (length (Spec.pending a)).
Proof.
  intros [Hok (xs & ys & cs & Hwf & Hh & Hl)]. apply Forall2_length in Hh.
  rewrite <-Hh. split; [apply (wf_sem _ _ _ _ _ _ Hwf)|apply (wf_curr _ _ _ _ _ _ Hwf)].
Qed.

(** ** Creation *)

(** [uQueue_create] replaces a parameter that is zero by its default. *)
Definition or_default (d x : Z) : Z := if decide (x = 0)%Z then d else x.

(** The queue of [uQueue_allocate] with its two limits set. *)
Lemma empty_wf maxSize chunkSize q q0 N :
  uQueue_allocate maxSize chunkSize true = (WOMBAT_QUEUE_OK, Some q) →
  q0 = set_sem 0 q →
  (0 < chunkSize)%Z → (0 <= maxSize <= N)%Z → (N + chunkSize < 2 ^ 31)%Z →
  wf q0 [] [] [] 0 N.
Proof.
  intros [= <-] -> Hc Hm Hw. split; simpl; try done; try lia.
  - apply NoDup_nil_2.
  - intros n. rewrite lookup_empty. split; [by intros []|set_solver].
  - split; simpl; try done.
    + apply NoDup_nil_2.
    + intros b. rewrite lookup_empty. split; [set_solver|by intros []].
    + intros n. setoid_rewrite lookup_empty. split; [by intros []|naive_solver].
Qed.

Section Create.

Context (maxdef chunkdef maxSize initialSize growBySize N : Z) q.

Let mx := or_default maxdef maxSize.
Let ini := or_default chunkdef initialSize.
Let grow := or_default chunkdef growBySize.

Hypothesis Halloc : uQueue_allocate maxdef chunkdef true = (WOMBAT_QUEUE_OK, Some q).
Hypothesis Hmx : (0 < mx <= N)%Z.
Hypothesis Hini : (0 < ini)%Z.
Hypothesis Hgrow : (0 < grow)%Z.
Hypothesis Hwidth : (N + grow < 2 ^ 31 ∧ N + ini < 2 ^ 31)%Z.

Lemma create_represents :
  (ini <= mx)%Z →
  ∃ q', uQueue_create chunkdef true true q maxSize initialSize growBySize
          = Some (WOMBAT_QUEUE_OK, q')
    ∧ represents q' 0 N (Spec.mkQ [] (Z.to_nat ini))
    ∧ mMaxSize q' = mx ∧ mChunkSize q' = grow.
Proof using Halloc Hmx Hini Hgrow Hwidth.
  intros Hle. injection Halloc as <-. unfold uQueue_create.
  fold (or_default maxdef maxSize) (or_default chunkdef initialSize)
    (or_default chunkdef growBySize) mx ini grow.
  set (q2 := set_sem 0 _).
  assert (wf q2 [] [] [] 0 N) as Hwf2 by (eapply (empty_wf mx grow); [done|done|lia..]).
  destruct (allocChunk_ok q2 [] [] 0 N ini) as (q3 & E & Hwf3 & _ & Em & Ec & _);
    [done|done|lia|change (0 + ini <= mx)%Z; lia|change (mx + 0 <= N)%Z; lia|].
  rewrite E, bind_some.
  pose proof (wf_free _ _ _ _ _ _ Hwf3) as Hf3.
  destruct (Z.to_nat ini) as [|k] eqn:Ek; [lia|]. destruct Hf3 as [Hf3 _].
  rewrite Hf3. destruct (decide (pItem (brk q2) = pNull)) as [?|_]; [done|].
  eexists. split_and!; [done| |exact Em|exact Ec]. split; [constructor|].
  exists [], (seq (brk q2) (S k)), [brk q2]. split_and!; [|constructor|by rewrite length_seq].
  destruct Hwf3 as [Hq Hf Hnd Hd Ha Hcu Hs Ht Hcap Hch Hm Hwd].
  split; try done; by apply (wf_alloc_frame q3).
Qed.

Lemma create_nomem mem :
  mem && bool_decide (ini <= mx)%Z = false →
  ∃ q', uQueue_create chunkdef true mem q maxSize initialSize growBySize
          = Some (WOMBAT_QUEUE_NOMEM, q').
Proof using Halloc Hmx Hini Hgrow Hwidth.
  intros Hr. injection Halloc as <-. unfold uQueue_create.
  fold (or_default maxdef maxSize) (or_default chunkdef initialSize)
    (or_default chunkdef growBySize) mx ini grow.
  set (q2 := set_sem 0 _).
  assert (∃ st, uQueueImpl_allocChunk mem q2 ini = Some (st, q2)) as [st ->].
  { unfold uQueueImpl_allocChunk. change (mSem q2) with 0%Z. change (mMaxSize q2) with mx.
    rewrite (wrapu_id 32 (0 + ini)) by lia.
    destruct (decide (0 + ini > mx)%Z); [eauto|].
    rewrite bool_decide_eq_true_2 in Hr by lia. destruct mem; [done|eauto]. }
  rewrite bind_some. destruct (decide (mNext (mFirstFree q2) = pNull)) as [_|?]; [eauto|done].
Qed.

End Create.

(** ** Concurrent dispatchers

    [wsem_wait] and the critical section of [uQueue_dispatchInt] are two
    atomic steps, and [uQueue_enqueue] is one (it posts the semaphore inside
    the lock).  [c_tok] dispatchers are between the two steps; the histories
    record the events in the order of the critical sections. *)
Record conc := mkConc {
  c_q : uQueueImpl Cb Data Closure Msg;
  c_tok : Z;
  c_enq : list (uEvent Cb Data Closure Msg);
  c_deq : list (uEvent Cb Data Closure Msg) }.

Inductive cstep (T : Z) : conc → conc → Prop :=
  | cs_enqueue s mem cb data closure isMsg st q' :
      arg_ok closure isMsg →
      uQueue_enqueue mem (c_q s) cb data closure isMsg = Some (st, q') →
      cstep T s (mkConc q' (c_tok s)
                   (c_enq s ++ (if decide (st = WOMBAT_QUEUE_OK)
                                then [mkEvent cb data isMsg closure] else []))
                   (c_deq s))
  | cs_wait s :
      (0 < mSem (c_q s))%Z → (c_tok s < T)%Z →
      cstep T s (mkConc (set_sem (mSem (c_q s) - 1) (c_q s)) (c_tok s + 1) (c_enq s) (c_deq s))
  | cs_take s head q' :
      (0 < c_tok s)%Z → uQueue_takeHead (c_q s) = Some (head, q') →
      cstep T s (mkConc q' (c_tok s - 1) (c_enq s) (c_deq s ++ option_list head)).

(** The invariant of the concurrent system. *)
Definition cinv (T M : Z) (s : conc) : Prop :=
  mMaxSize (c_q s) = M ∧ (c_tok s <= T)%Z ∧
  ∃ a, represents (c_q s) (c_tok s) (M + T) a ∧ c_enq s = c_deq s ++ Spec.pending a.

Lemma represents_tok q tok N a : represents q tok N a → (0 <= tok)%Z.
Proof. intros [_ (? & ? & ? & Hwf & _)]. apply (wf_tok _ _ _ _ _ _ Hwf). Qed.

Lemma spec_enqueue_pending room k e a st a' :
  Spec.enqueue room k e a = (st, a') →
  Spec.pending a' = Spec.pending a ++ (if decide (st = WOMBAT_QUEUE_OK) then [e] else []).
Proof.
  unfold Spec.enqueue. destruct (Spec.nfree a); [destruct room|]; intros; simplify_eq/=; try done.
  by rewrite app_nil_r.
Qed.

Lemma cstep_inv T M s s' : cstep T s s' → cinv T M s → cinv T M s'.
Proof.
  intros Hs (HM & HT & a & Hr & He). destruct Hs as [s mem cb data cl im st q' Harg E|s H1 H2|s hd q' H1 E].
  - pose proof (represents_tok _ _ _ _ Hr).
    destruct (enqueue_represents mem (c_q s) (c_tok s) (M + T) a cb data cl im)
      as (q0 & st0 & a' & E0 & Es & Hr' & Em & Ec); [done|lia|done|]. simplify_eq.
    split_and!; simpl; [congruence|done|]. exists a'. split; [done|].
    rewrite He, <-app_assoc. f_equal. symmetry. by eapply spec_enqueue_pending.
  - split_and!; simpl; [done|lia|]. exists a. split; [|done]. by apply wait_represents.
  - destruct (takeHead_represents (c_q s) (c_tok s) (M + T) a)
      as (e & q0 & a' & E0 & Es & _ & Hr' & Em & Ec); [done|done|]. simplify_eq.
    split_and!; simpl; [congruence|lia|]. exists a'. split; [done|].
    rewrite He, <-app_assoc. f_equal. unfold Spec.dequeue in Es.
    destruct (Spec.pending a); by simplify_eq.
Qed.

Lemma creach_inv T M s s' : rtc (cstep T) s s' → cinv T M s → cinv T M s'.
Proof. induction 1; eauto using cstep_inv. Qed.

End Refinement.

(** ** Theorems *)

Section Theorems.

Context {Cb Data Closure Msg : Type}.
Implicit Types q : uQueueImpl Cb Data Closure Msg.

(** C12: uQueue_enqueue implements the specification's enqueue on every
    branch (free item available, chunk allocated, queue full or out of
    memory): it never dereferences an invalid pointer, returns the specified
    status, and the new pointer structure represents the new abstract queue. *)
Theorem uQueue_enqueue_refines mem q tok N a cb data closure isMsg :
  represents q tok N a → (mMaxSize q + tok <= N)%Z → arg_ok closure isMsg →
  ∃ q' st a', uQueue_enqueue mem q cb data closure isMsg = Some (st, q')
    ∧ Spec.enqueue (has_room mem q) (Z.to_nat (mChunkSize q))
        (mkEvent cb data isMsg closure) a = (st, a')
    ∧ represents q' tok N a'.
Proof.
  intros H1 H2 H3.
  destruct (enqueue_represents mem q tok N a cb data closure isMsg H1 H2 H3)
    as (q' & st & a' & ? & ? & ? & _). eauto 10.
Qed.

(** C13: A dispatch (timed or not) that acquires the semaphore removes the
    oldest pending event, calls its callback, if it has one, with the event's
    data and the closure or the message that was enqueued, and calls nothing
    else; it leaves a structure that represents the remaining events. *)
Theorem uQueue_dispatch_refines q N a isTimed ans :
  represents q 0 N a → uQueue_wait isTimed ans = Acquired → (0 < mSem q)%Z →
  ∃ e a' q', Spec.dequeue a = Some (e, a')
    ∧ uQueue_dispatchInt q isTimed ans
      = Some (Dispatched WOMBAT_QUEUE_OK
                (match ev_cb e with
                 | None => None
                 | Some cb => Some (cb, ev_data e,
                     match ev_union e with
                     | uClosure c => argClosure c
                     | uMsg m => if (ev_isMsg e =? 1)%Z then argMsg m else argClosure None
                     end)
                 end) q')
    ∧ represents q' 0 N a'.
Proof.
  intros Hr Hw Hs. apply wait_represents in Hr; [|done].
  destruct (takeHead_represents _ _ _ _ Hr) as (e & q' & a' & E & Ed & Hok & Hr' & _); [done|].
  exists e, a', q'. split_and!; [done| |done].
  unfold uQueue_dispatchInt. rewrite Hw, E, bind_some, (call_ok e Hok). done.
Qed.

(** C4: With any number of producers and up to T concurrent dispatchers, in
    every interleaving of the critical sections: the dispatched events
    followed by the pending ones are exactly the enqueued events in order
    (FIFO, nothing lost or duplicated); a dispatcher that holds a token
    always finds an event (the empty-queue branch is never taken). *)
Theorem uQueue_concurrent_fifo T M (s0 s : conc (Cb:=Cb) (Data:=Data) (Closure:=Closure) (Msg:=Msg)) :
  cinv T M s0 → rtc (cstep T) s0 s →
  (∃ a, represents (c_q s) (c_tok s) (M + T) a ∧ c_enq s = c_deq s ++ Spec.pending a)
  ∧ ((0 < c_tok s)%Z → ∃ e q', uQueue_takeHead (c_q s) = Some (Some e, q')).
Proof.
  intros H0 Hr. apply (creach_inv T M) in Hr as (_ & _ & a & Ha & He); [|done].
  split; [eauto|]. intros Ht.
  destruct (takeHead_represents _ _ _ _ Ha Ht) as (e & q' & a' & E & _). eauto.
Qed.

(** The number of items ever allocated stays within the configured
    maximum plus the number of concurrent dispatchers (the capacity check
    counts the semaphore, which excludes items already claimed). *)
Theorem uQueue_memory_bound T M (s0 s : conc (Cb:=Cb) (Data:=Data) (Closure:=Closure) (Msg:=Msg)) :
  cinv T M s0 → rtc (cstep T) s0 s → (Z.of_nat (size (heap (c_q s))) <= M + T)%Z.
Proof.
  intros H0 Hr. apply (creach_inv T M) in Hr as (_ & _ & a & Ha & He); [|done].
  by apply represents_heap in Ha as [_ ?].
Qed.

(** C40: uQueue_destroy terminates, frees every chunk exactly once and leaves
    no allocated item, however the items are distributed between the queue
    and the free list; one loop iteration per chunk is enough. *)
Theorem uQueue_destroy_frees_all q tok N a semOk fuel :
  represents q tok N a → size (blocks q) ≤ fuel →
  ∃ q', uQueue_destroy fuel semOk q
        = Some (if semOk then WOMBAT_QUEUE_OK else WOMBAT_QUEUE_SEM_ERR, semOk, q')
    ∧ heap q' = ∅ ∧ blocks q' = ∅.
Proof.
  intros [_ (xs & ys & cs & Hwf & _)] Hf. pose proof (wf_alloc_ok _ _ _ _ _ _ Hwf) as Ha.
  rewrite <-(length_chunks q cs Ha) in Hf.
  destruct (destroy_loop_ok cs q fuel Ha Hf) as (q' & E & ? & ?).
  exists q'. split_and!; [|done..]. unfold uQueue_destroy. rewrite E, bind_some. by destruct semOk.
Qed.

(** uQueue_allocate followed by uQueue_create yields an empty queue with
    the initial chunk on the free list, and fails with WOMBAT_QUEUE_NOMEM
    exactly when that chunk does not fit in the maximum or memory is
    exhausted; zero arguments stand for the defaults. *)
Theorem uQueue_create_spec (mem : bool) q maxdef chunkdef maxSize initialSize growBySize :
  let mx := or_default maxdef maxSize in
  let ini := or_default chunkdef initialSize in
  let grow := or_default chunkdef growBySize in
  uQueue_allocate maxdef chunkdef true = (WOMBAT_QUEUE_OK, Some q) →
  (0 < mx)%Z → (0 < ini)%Z → (0 < grow)%Z → (mx + grow < 2 ^ 31)%Z → (mx + ini < 2 ^ 31)%Z →
  ∃ st q', uQueue_create chunkdef true mem q maxSize initialSize growBySize = Some (st, q')
    ∧ if mem && bool_decide (ini <= mx)%Z
      then st = WOMBAT_QUEUE_OK ∧ represents q' 0 mx (Spec.mkQ [] (Z.to_nat ini))
           ∧ mMaxSize q' = mx ∧ mChunkSize q' = grow
      else st = WOMBAT_QUEUE_NOMEM.
Proof.
  intros mx ini grow Ha Hm Hi Hg Hw1 Hw2.
  destruct (mem && bool_decide (ini <= mx)%Z) eqn:Hr.
  - apply andb_true_iff in Hr as [-> Hle%bool_decide_eq_true].
    destruct (create_represents maxdef chunkdef maxSize initialSize growBySize mx q)
      as (q' & E & Hrep & ?); try done. eauto 10.
  - destruct (create_nomem maxdef chunkdef maxSize initialSize growBySize mx q Ha
                ltac:(done) Hi Hg ltac:(done) mem Hr) as (q' & E). eauto.
Qed.

(** ** uqueue.c implements the interface of queue.c

    The constants of OpenMAMA are parameters; queue.c passes them as the
    maximum, initial and grow-by sizes.  One loop iteration per chunk is the
    fuel of [uQueue_destroy]. *)

Context (maxdef chunkdef : Z).

Definition uQueue_ops : EventQueue (uQueueImpl Cb Data Closure Msg) Cb Data Closure Msg := {|
  q_allocate := uQueue_allocate maxdef chunkdef;
  q_create sem mem q := uQueue_create chunkdef sem mem q maxdef chunkdef chunkdef;
  q_destroy sem q := fst <$> uQueue_destroy (size (blocks q)) sem q;
  q_enqueue := uQueue_enqueue;
  q_getSize := uQueue_getSize;
  q_dispatchInt := uQueue_dispatchInt |}.

(** The events pending in a queue no dispatcher of which is between its two steps. *)
Definition uQueue_pending q (es : list (uEvent Cb Data Closure Msg)) : Prop :=
  ∃ a, represents q 0 (mMaxSize q) a ∧ Spec.pending a = es.

Lemma spec_enqueue_status room k (e : uEvent Cb Data Closure Msg) a st a' :
  Spec.enqueue room k e a = (st, a') → st = WOMBAT_QUEUE_OK ∨ st = WOMBAT_QUEUE_FULL.
Proof.
  unfold Spec.enqueue. destruct (Spec.nfree a); [destruct room|]; intros; simplify_eq/=; auto.
Qed.

Lemma pending_enqueue mem q es cb data closure isMsg :
  uQueue_pending q es → arg_ok closure isMsg →
  ∃ st q', uQueue_enqueue mem q cb data closure isMsg = Some (st, q') ∧
    (st = WOMBAT_QUEUE_OK ∧ uQueue_pending q' (es ++ [mkEvent cb data isMsg closure])
     ∨ st = WOMBAT_QUEUE_FULL ∧ uQueue_pending q' es).
Proof.
  intros (a & Hr & <-) Harg.
  destruct (enqueue_represents mem q 0 (mMaxSize q) a cb data closure isMsg)
    as (q' & st & a' & E & Es & Hr' & Em & _); [done|lia|done|].
  exists st, q'. split; [done|]. pose proof (spec_enqueue_pending _ _ _ _ _ _ Es) as Hp.
  destruct (spec_enqueue_status _ _ _ _ _ _ Es); subst; [left|right]; split; try done.
  - exists a'. by rewrite Em.
  - exists a'. rewrite Em. split; [done|]. by rewrite Hp, app_nil_r.
Qed.

Lemma pending_acquired q e es isTimed ans :
  uQueue_pending q (e :: es) → uQueue_wait isTimed ans = Acquired →
  ∃ q', uQueue_dispatchInt q isTimed ans = Some (Dispatched WOMBAT_QUEUE_OK (event_call e) q')
    ∧ uQueue_pending q' es.
Proof.
  intros (a & Hr & Ep) Hw. pose proof (represents_size _ _ _ _ Hr) as [Hs _].
  rewrite Ep in Hs. simpl in Hs. apply wait_represents in Hr; [|lia].
  destruct (takeHead_represents _ _ _ _ Hr) as (e' & q' & a' & E & Ed & Hok & Hr' & Em & _); [lia|].
  unfold Spec.dequeue in Ed. rewrite Ep in Ed. injection Ed as <- <-. exists q'. split.
  - unfold uQueue_dispatchInt. rewrite Hw, E, bind_some, (call_ok e Hok). done.
  - eexists. rewrite Em. split; [exact Hr'|done].
Qed.

Lemma destroy_represents q tok N a sem :
  represents q tok N a →
  ∃ q', uQueue_destroy (size (blocks q)) sem q
        = Some (if sem then WOMBAT_QUEUE_OK else WOMBAT_QUEUE_SEM_ERR, sem, q').
Proof.
  intros [_ (xs & ys & cs & Hwf & _)]. pose proof (wf_alloc_ok _ _ _ _ _ _ Hwf) as Ha.
  rewrite <-(length_chunks q cs Ha). unfold uQueue_destroy.
  destruct (destroy_loop_ok cs q (length cs) Ha) as (q' & -> & _); [done|].
  exists q'. by destruct sem.
Qed.

Lemma pending_create sem mem q :
  (0 < chunkdef <= maxdef)%Z → (maxdef + chunkdef < 2 ^ 31)%Z →
  uQueue_allocate maxdef chunkdef true = (WOMBAT_QUEUE_OK, Some q) →
  ∃ st q', uQueue_create chunkdef sem mem q maxdef chunkdef chunkdef = Some (st, q')
    ∧ (st = WOMBAT_QUEUE_OK → uQueue_pending q' []).
Proof.
  intros Hc Hw Ha. destruct sem; [|do 2 eexists; split; [reflexivity|done]].
  assert (or_default maxdef maxdef = maxdef ∧ or_default chunkdef chunkdef = chunkdef) as [Em Ec]
    by (unfold or_default; repeat case_decide; lia).
  destruct mem.
  - destruct (create_represents maxdef chunkdef maxdef chunkdef chunkdef maxdef q)
      as (q' & E & Hr & Hm & _); rewrite ?Em, ?Ec; try lia; [done|].
    rewrite Em in Hm. exists WOMBAT_QUEUE_OK, q'. split; [done|]. intros _. eexists.
    rewrite Hm. split; [exact Hr|done].
  - destruct (create_nomem maxdef chunkdef maxdef chunkdef chunkdef maxdef q Ha) with (mem := false)
      as (q' & E); rewrite ?Em, ?Ec; try lia; try done.
    exists WOMBAT_QUEUE_NOMEM, q'. by split.
Qed.

Lemma uQueue_laws :
  (0 < chunkdef <= maxdef)%Z → (maxdef + chunkdef < 2 ^ 31)%Z →
  @EventQueueLaws (uQueueImpl Cb Data Closure Msg) Cb Data Closure Msg uQueue_ops.
Proof.
  intros Hc Hw. refine {| q_pending := uQueue_pending |}; simpl.
  - intros []; [right|by left]. eexists. split; [done|]. intros. by apply pending_create.
  - intros q es sem (a & Hr & <-). by destruct (destroy_represents q 0 (mMaxSize q) a sem Hr) as [q' ->].
  - apply pending_enqueue.
  - intros q es (a & Hr & <-). apply represents_size in Hr as [Hs _]. unfold uQueue_getSize.
    f_equal. lia.
  - intros q es (a & Hr & <-). pose proof (represents_heap _ _ _ _ Hr).
    destruct Hr as [_ (xs & ys & cs & Hwf & _)].
    pose proof (wf_width _ _ _ _ _ _ Hwf). pose proof (wf_chunk _ _ _ _ _ _ Hwf). lia.
  - apply pending_acquired.
  - intros q es isTimed ans s _ E. unfold uQueue_dispatchInt. by rewrite E.
  - intros q es isTimed ans _ E. unfold uQueue_dispatchInt. by rewrite E.
Defined.

End Theorems.

(** ** A concrete queue *)

Section Demo.

Definition demo_alloc : uQueueImpl nat nat nat nat :=
  mkImpl 0 8 2 0 (set_mPrev pHead (set_mNext pTail zero_item))
    (set_mNext pTail (set_mPrev pHead zero_item)) zero_item pNull ∅ ∅ 0.

(** A queue of at most 4 items, one of which is allocated. *)
Definition demo : uQueueImpl nat nat nat nat :=
  match uQueue_create 2 true true demo_alloc 4 1 1 with
  | Some (_, q) => q
  | None => demo_alloc
  end.

Lemma demo_represents N : (4 <= N < 100)%Z → represents demo 0 N (Spec.mkQ [] 1).
Proof.
  intros HN.
  destruct (create_represents 8 2 4 1 1 N demo_alloc) as (q' & E & Hr & _);
    [done|unfold or_default; simpl; lia..|].
  replace demo with q'; [done|]. unfold demo. by rewrite E.
Qed.

(** The state after one enqueue and the system around it. *)
Definition demo1 : uQueueImpl nat nat nat nat :=
  match uQueue_enqueue true demo (Some 1) (Some 2) (uMsg 3) 1 with
  | Some (_, q) => q
  | None => demo
  end.

Definition demo_conc : conc (Cb:=nat) (Data:=nat) (Closure:=nat) (Msg:=nat) :=
  mkConc demo 0 [] [].

Lemma demo_cinv : cinv 2 4 demo_conc.
Proof. split_and!; [done|done|]. exists (Spec.mkQ [] 1). split; [by apply demo_represents|done]. Qed.

(** An enqueue, a wait and a second enqueue (which allocates a chunk). *)
Definition demo_ev (m : nat) : uEvent nat nat nat nat := mkEvent (Some 1) (Some 2) 1 (uMsg m).

Definition demo2 : uQueueImpl nat nat nat nat :=
  match uQueue_enqueue true (set_sem (mSem demo1 - 1) demo1) (Some 1) (Some 2) (uMsg 4) 1 with
  | Some (_, q) => q
  | None => demo1
  end.

Definition demo_conc2 : conc (Cb:=nat) (Data:=nat) (Closure:=nat) (Msg:=nat) :=
  mkConc demo2 1 [demo_ev 3; demo_ev 4] [].

Lemma demo_enqueue1 :
  uQueue_enqueue true demo (Some 1) (Some 2) (uMsg 3) 1 = Some (WOMBAT_QUEUE_OK, demo1).
Proof. vm_compute. reflexivity. Qed.

Lemma demo_enqueue2 :
  uQueue_enqueue true (set_sem (mSem demo1 - 1) demo1) (Some 1) (Some 2) (uMsg 4) 1
  = Some (WOMBAT_QUEUE_OK, demo2).
Proof. vm_compute. reflexivity. Qed.

Lemma demo_arg (m : nat) : arg_ok (Closure := nat) (uMsg m) 1.
Proof. done. Qed.

Lemma demo_run : rtc (cstep 2) demo_conc demo_conc2.
Proof.
  set (s1 := mkConc demo1 0 [demo_ev 3] []).
  set (s2 := mkConc (set_sem (mSem demo1 - 1) demo1) 1 [demo_ev 3] []).
  apply (rtc_l _ _ s1).
  { exact (cs_enqueue 2 demo_conc true (Some 1) (Some 2) _ _ _ _ (demo_arg 3) demo_enqueue1). }
  apply (rtc_l _ _ s2); [exact (cs_wait 2 s1 eq_refl eq_refl)|].
  apply rtc_once. exact (cs_enqueue 2 s2 true (Some 1) (Some 2) _ _ _ _ (demo_arg 4) demo_enqueue2).
Qed.

Lemma uQueue_enqueue_refines_witness :
  ∃ q' st a', uQueue_enqueue true demo (Some 1) (Some 2) (uMsg 3) 1 = Some (st, q')
    ∧ Spec.enqueue (has_room true demo) 1 (demo_ev 3) (Spec.mkQ [] 1) = (st, a')
    ∧ represents q' 0 4 a'.
Proof.
  apply (uQueue_enqueue_refines true demo 0 4 (Spec.mkQ [] 1) (Some 1) (Some 2) (uMsg 3) 1).
  - by apply demo_represents.
  - vm_compute. done.
  - done.
Defined.

Lemma demo1_represents : represents demo1 0 4 (Spec.mkQ [demo_ev 3] 0).
Proof.
  destruct (enqueue_represents true demo 0 4 (Spec.mkQ [] 1) (Some 1) (Some 2) (uMsg 3) 1)
    as (q' & st & a' & E & Es & Hr & _); [by apply demo_represents|done|done|].
  injection Es as <- <-. replace demo1 with q'; [done|]. unfold demo1. by rewrite E.
Qed.

Lemma uQueue_dispatch_refines_witness :
  ∃ a' q', Spec.dequeue (Spec.mkQ [demo_ev 3] 0) = Some (demo_ev 3, a')
    ∧ uQueue_dispatchInt demo1 false [SemEintr; SemOk]
      = Some (Dispatched WOMBAT_QUEUE_OK (Some (1, Some 2, argMsg 3)) q')
    ∧ represents q' 0 4 a'.
Proof.
  destruct (uQueue_dispatch_refines demo1 4 (Spec.mkQ [demo_ev 3] 0) false [SemEintr; SemOk])
    as (e & a' & q' & Ed & E & Hr).
  - apply demo1_represents.
  - reflexivity.
  - vm_compute. done.
  - injection Ed as <- <-. eexists _, q'. split_and!; [reflexivity|exact E|exact Hr].
Defined.

Lemma uQueue_concurrent_fifo_witness :
  (∃ a, represents demo2 1 (4 + 2) a ∧ [demo_ev 3; demo_ev 4] = [] ++ Spec.pending a)
  ∧ ((0 < 1)%Z → ∃ e q', uQueue_takeHead demo2 = Some (Some e, q')).
Proof. exact (uQueue_concurrent_fifo 2 4 demo_conc demo_conc2 demo_cinv demo_run). Defined.

Lemma uQueue_memory_bound_witness : (Z.of_nat (size (heap demo2)) <= 4 + 2)%Z.
Proof. exact (uQueue_memory_bound 2 4 demo_conc demo_conc2 demo_cinv demo_run). Defined.

Lemma uQueue_destroy_frees_all_witness :
  ∃ q', uQueue_destroy 1 true demo1 = Some (WOMBAT_QUEUE_OK, true, q')
    ∧ heap q' = ∅ ∧ blocks q' = ∅.
Proof.
  apply (uQueue_destroy_frees_all demo1 0 4 (Spec.mkQ [demo_ev 3] 0) true 1).
  - apply demo1_represents.
  - vm_compute. lia.
Defined.

Lemma uQueue_create_spec_witness :
  ∃ st q', uQueue_create 2 true true demo_alloc 0 3 1 = Some (st, q')
    ∧ (st = WOMBAT_QUEUE_OK ∧ represents q' 0 8 (Spec.mkQ [] 3)
       ∧ mMaxSize q' = 8%Z ∧ mChunkSize q' = 1%Z).
Proof. apply (uQueue_create_spec true demo_alloc 8 2 0 3 1); done. Defined.

End Demo.
