(* ===== verification/Queue.v ===== *)
(** * The queue bridge (src/src/queue.c)

    [zmqQueueBridge] wraps the event queue of uqueue.c for MAMA: dispatch
    loops, enqueueing of events and messages, watermarks, activation.  The
    handle [queueBridge] may be NULL, so the operations work on an
    [option zmqQueueBridge].  The event queue is any implementation of the
    interface [EventQueue]. *)

From S2P Require Import Prelude CMonad UQueue EventQueue.
Import UQ.

Module ZQ.

Section Queue.

(** [Data] is [mamaQueue] (the parent, passed to every callback), [EnqCb]
    the type of enqueue callbacks. *)
Context {Q Cb Data Closure Msg EnqCb : Type} `{EventQueue Q Cb Data Closure Msg}.

Record zmqQueueBridge := mkQueueBridge {
  mParent : option Data;
  mQueue : option Q;
  mEnqueueClosure : option Closure;
  mHighWaterFired : Z;
  mHighWatermark : Z;
  mLowWatermark : Z;
  mIsDispatching : Z;
  mIsActive : Z;
  mEnqueueCallback : option EnqCb }.

(** The two blocks [zmqBridgeMamaQueue_create] allocates. *)
Inductive block := bBridge | bQueue.

#[export] Instance block_eq_dec : EqDecision block.
Proof. solve_decision. Defined.

(** Interactions: the dispatch lock, memory, the calls of [uQueue_enqueue]
    with their status, and the callbacks. *)
Inductive qobs :=
  | oLock | oUnlock
  | oAlloc (b : block) | oFree (b : block)
  | oPut (e : uEvent Cb Data Closure Msg) (st : wombatQueueStatus)
  | oEnqueueCb (cb : EnqCb) (parent : option Data) (closure : option Closure)
  | oLowWater (parent : option Data) (n : Z)
  | oHighWater (parent : option Data) (n : Z)
  | oCall (c : Cb * option Data * uArg Closure Msg).

Definition queueBridge : Type := option zmqQueueBridge.
Local Notation QC := (C queueBridge qobs).

(** The function body after the macro [CHECK_QUEUE]. *)
Definition CHECK_QUEUE (k : zmqQueueBridge → Q → QC mama_status) : QC mama_status :=
  impl ← cget;
  match impl with
  | None => mret MAMA_STATUS_NULL_ARG
  | Some i => match mQueue i with
              | None => mret MAMA_STATUS_NULL_ARG
              | Some q => k i q
              end
  end.

(** [impl->...] without a check. *)
Definition deref : QC zmqQueueBridge := impl ← cget; cpart impl.

Definition set_queue (q : Q) (i : zmqQueueBridge) : zmqQueueBridge :=
  mkQueueBridge (mParent i) (Some q) (mEnqueueClosure i) (mHighWaterFired i)
    (mHighWatermark i) (mLowWatermark i) (mIsDispatching i) (mIsActive i) (mEnqueueCallback i).
Definition set_enqueue (cb : option EnqCb) (cl : option Closure) (i : zmqQueueBridge) : zmqQueueBridge :=
  mkQueueBridge (mParent i) (mQueue i) cl (mHighWaterFired i)
    (mHighWatermark i) (mLowWatermark i) (mIsDispatching i) (mIsActive i) cb.
Definition set_fired (n : Z) (i : zmqQueueBridge) : zmqQueueBridge :=
  mkQueueBridge (mParent i) (mQueue i) (mEnqueueClosure i) n
    (mHighWatermark i) (mLowWatermark i) (mIsDispatching i) (mIsActive i) (mEnqueueCallback i).
Definition set_high (n : Z) (i : zmqQueueBridge) : zmqQueueBridge :=
  mkQueueBridge (mParent i) (mQueue i) (mEnqueueClosure i) (mHighWaterFired i)
    n (mLowWatermark i) (mIsDispatching i) (mIsActive i) (mEnqueueCallback i).
Definition set_low (n : Z) (i : zmqQueueBridge) : zmqQueueBridge :=
  mkQueueBridge (mParent i) (mQueue i) (mEnqueueClosure i) (mHighWaterFired i)
    (mHighWatermark i) n (mIsDispatching i) (mIsActive i) (mEnqueueCallback i).
Definition set_dispatching (n : Z) (i : zmqQueueBridge) : zmqQueueBridge :=
  mkQueueBridge (mParent i) (mQueue i) (mEnqueueClosure i) (mHighWaterFired i)
    (mHighWatermark i) (mLowWatermark i) n (mIsActive i) (mEnqueueCallback i).
Definition set_active (n : Z) (i : zmqQueueBridge) : zmqQueueBridge :=
  mkQueueBridge (mParent i) (mQueue i) (mEnqueueClosure i) (mHighWaterFired i)
    (mHighWatermark i) (mLowWatermark i) (mIsDispatching i) n (mEnqueueCallback i).

Definition upd (f : zmqQueueBridge → zmqQueueBridge) : QC () := cmodify (fmap f).

(** ** Creation and destruction *)

(** The struct [calloc] returns. *)
Definition zero_bridge : zmqQueueBridge := mkQueueBridge None None None 0 0 0 0 0 None.

(** [queueOk] is whether the out parameter is non-NULL; [mem], [qmem],
    [sem] and [cmem] answer the allocations and [wsem_init].  The state is
    [*queue]; [impl] is local until the end. *)
Definition zmqBridgeMamaQueue_create (queueOk mem qmem sem cmem : bool) (parent : option Data)
    : QC mama_status :=
  match parent with
  | None => mret MAMA_STATUS_NULL_ARG
  | Some _ =>
    if queueOk then
      cput None ;;
      if mem then
        emit (oAlloc bBridge) ;;
        let impl := mkQueueBridge parent None None 0 0 0 0 1 None in
        match q_allocate qmem with
        | (WOMBAT_QUEUE_OK, Some q) =>
            emit (oAlloc bQueue) ;;
            '(underlyingStatus, q') ← cpart (q_create sem cmem q);
            if decide (underlyingStatus = WOMBAT_QUEUE_OK) then
              cput (Some (set_queue q' impl)) ;; mret MAMA_STATUS_OK
            else
              emit (oFree bQueue) ;; emit (oFree bBridge) ;; mret MAMA_STATUS_PLATFORM
        | (_, _) => emit (oFree bBridge) ;; mret MAMA_STATUS_NOMEM
        end
      else mret MAMA_STATUS_NOMEM
    else mret MAMA_STATUS_NULL_ARG
  end.

Definition zmqBridgeMamaQueue_create_usingNative (queueOk mem : bool) (parent : option Data)
    (nativeQueue : option Q) : QC mama_status :=
  match parent, nativeQueue with
  | Some _, Some q =>
    if queueOk then
      cput None ;;
      if mem then
        emit (oAlloc bBridge) ;;
        cput (Some (mkQueueBridge parent (Some q) None 0 0 0 0 0 None)) ;;
        mret MAMA_STATUS_OK
      else mret MAMA_STATUS_NOMEM
    else mret MAMA_STATUS_NULL_ARG
  | _, _ => mret MAMA_STATUS_NULL_ARG
  end.

(** After [free(impl)] the handle must not be used: the state is NULL.
    [sem] is whether [wsem_destroy] succeeds. *)
Definition zmqBridgeMamaQueue_destroy (sem : bool) : QC mama_status :=
  CHECK_QUEUE (λ i q,
    emit oLock ;;
    '(status, freed) ← cpart (q_destroy sem q);
    (if freed : bool then emit (oFree bQueue) else mret ()) ;;
    emit oUnlock ;;
    cput None ;; emit (oFree bBridge) ;;
    mret (if decide (status = WOMBAT_QUEUE_OK) then MAMA_STATUS_OK else MAMA_STATUS_PLATFORM)).

(** ** Watermarks *)

(** The status and [*count]; [None] when the count was not written. *)
Definition zmqBridgeMamaQueue_getEventCount (countOk : bool) (queue : queueBridge)
    : mama_status * option Z :=
  if countOk then
    match queue with
    | Some i => match mQueue i with
                | Some q => (MAMA_STATUS_OK, Some (size64 (snd (q_getSize q))))
                | None => (MAMA_STATUS_NULL_ARG, None)
                end
    | None => (MAMA_STATUS_NULL_ARG, None)
    end
  else (MAMA_STATUS_NULL_ARG, None).

Definition zmqBridgeMamaQueueImpl_checkWatermarks : QC () :=
  queue ← cget;
  let eventCount := default 0%Z (snd (zmqBridgeMamaQueue_getEventCount true queue)) in
  impl ← deref;
  if decide (mHighWaterFired impl ≠ 0 ∧ eventCount = mLowWatermark impl)%Z then
    upd (set_fired 0) ;; emit (oLowWater (mParent impl) eventCount)
  else if decide (mHighWaterFired impl = 0 ∧ mHighWatermark impl <= eventCount)%Z then
    upd (set_fired 1) ;; emit (oHighWater (mParent impl) eventCount)
  else mret ().

Definition zmqBridgeMamaQueue_setHighWatermark (highWatermark : Z) : QC mama_status :=
  if decide (highWatermark = 0)%Z then mret MAMA_STATUS_NULL_ARG
  else CHECK_QUEUE (λ i q, upd (set_high highWatermark) ;; mret MAMA_STATUS_OK).

Definition zmqBridgeMamaQueue_setLowWatermark (lowWatermark : Z) : QC mama_status :=
  if decide (lowWatermark = 0)%Z then mret MAMA_STATUS_NULL_ARG
  else CHECK_QUEUE (λ i q, upd (set_low lowWatermark) ;; mret MAMA_STATUS_OK).

(** ** Enqueueing *)

Definition zmqBridgeMamaQueue_enqueueEventInt (mem : bool) (callback : option Cb)
    (closure : uUnion Closure Msg) (isMsg : Z) : QC mama_status :=
  match callback with
  | None => mret MAMA_STATUS_NULL_ARG
  | Some _ =>
    CHECK_QUEUE (λ i q,
      '(status, q') ← cpart (q_enqueue mem q callback (mParent i) closure isMsg);
      upd (set_queue q') ;;
      emit (oPut (mkEvent callback (mParent i) isMsg closure) status) ;;
      match mEnqueueCallback i with
      | Some ecb => emit (oEnqueueCb ecb (mParent i) (mEnqueueClosure i))
      | None => mret ()
      end ;;
      mret (if decide (status = WOMBAT_QUEUE_OK) then MAMA_STATUS_OK else MAMA_STATUS_PLATFORM))
  end.

Definition zmqBridgeMamaQueue_enqueueEvent (mem : bool) (callback : option Cb)
    (closure : option Closure) : QC mama_status :=
  zmqBridgeMamaQueue_enqueueEventInt mem callback (uClosure closure) 0.

Definition zmqBridgeMamaQueue_enqueueEventEx (mem : bool) (callback : option Cb)
    (closure : option Closure) : QC mama_status :=
  impl ← deref;
  if decide (mIsActive impl = 1)%Z then zmqBridgeMamaQueue_enqueueEvent mem callback closure
  else mret MAMA_STATUS_OK.

Definition zmqBridgeMamaQueue_enqueueMsg (mem : bool) (callback : option Cb) (msg : Msg)
    : QC mama_status :=
  impl ← deref;
  if decide (mIsActive impl = 1)%Z then
    zmqBridgeMamaQueue_enqueueEventInt mem callback (uMsg msg) 1
  else mret MAMA_STATUS_OK.

Definition zmqBridgeMamaQueue_setEnqueueCallback (callback : option EnqCb)
    (closure : option Closure) : QC mama_status :=
  match callback with
  | None => mret MAMA_STATUS_NULL_ARG
  | Some _ => CHECK_QUEUE (λ i q, upd (set_enqueue callback closure) ;; mret MAMA_STATUS_OK)
  end.

Definition zmqBridgeMamaQueue_removeEnqueueCallback : QC mama_status :=
  CHECK_QUEUE (λ i q, upd (set_enqueue None None) ;; mret MAMA_STATUS_OK).

(** The native handle returned is the bridge itself. *)
Definition zmqBridgeMamaQueue_getNativeHandle (handleOk : bool) (queue : queueBridge)
    : mama_status * option queueBridge :=
  if handleOk then
    match queue with
    | Some i => match mQueue i with
                | Some _ => (MAMA_STATUS_OK, Some queue)
                | None => (MAMA_STATUS_NULL_ARG, None)
                end
    | None => (MAMA_STATUS_NULL_ARG, None)
    end
  else (MAMA_STATUS_NULL_ARG, None).

Definition zmqBridgeMamaQueue_activate : QC mama_status :=
  _ ← deref; upd (set_active 1) ;; mret MAMA_STATUS_OK.

Definition zmqBridgeMamaQueue_deactivate : QC mama_status :=
  _ ← deref; upd (set_active 0) ;; mret MAMA_STATUS_OK.

Definition zmqBridgeMamaQueue_stopDispatch : QC mama_status :=
  CHECK_QUEUE (λ i q, upd (set_dispatching 0) ;; mret MAMA_STATUS_OK).

(** ** Dispatching *)

(** A call of [uQueue_dispatchInt] that returns; [None] while it waits. *)
Definition dispatch_event (isTimed : bool) (ans : list semAnswer) (q : Q)
    : QC (option wombatQueueStatus) :=
  r ← cpart (q_dispatchInt q isTimed ans);
  match r with
  | Waiting => mret None
  | Dispatched status call q' =>
      upd (set_queue q') ;;
      match call with Some c => emit (oCall c) | None => mret () end ;;
      mret (Some status)
  end.

Definition dispatch_status (status : wombatQueueStatus) : mama_status :=
  match status with
  | WOMBAT_QUEUE_OK | WOMBAT_QUEUE_TIMEOUT => MAMA_STATUS_OK
  | _ => MAMA_STATUS_PLATFORM
  end.

(** One dispatch; [ans] are the answers of the semaphore.  A result of
    [None] is a call that has not returned. *)
Definition dispatch_once (isTimed : bool) (ans : list semAnswer) : QC (option mama_status) :=
  impl ← cget;
  match impl with
  | None => mret (Some MAMA_STATUS_NULL_ARG)
  | Some i =>
    match mQueue i with
    | None => mret (Some MAMA_STATUS_NULL_ARG)
    | Some q =>
        zmqBridgeMamaQueueImpl_checkWatermarks ;;
        status ← dispatch_event isTimed ans q;
        mret (dispatch_status <$> status)
    end
  end.

Definition zmqBridgeMamaQueue_timedDispatch (ans : list semAnswer) : QC (option mama_status) :=
  dispatch_once true ans.

Definition zmqBridgeMamaQueue_dispatchEvent (ans : list semAnswer) : QC (option mama_status) :=
  dispatch_once false ans.

(** What other threads, and the callbacks, do to a queue that is being
    dispatched. *)
Inductive qop :=
  | OpEnqueueEvent (mem : bool) (cb : Cb) (closure : option Closure)
  | OpEnqueueMsg (mem : bool) (cb : Cb) (msg : Msg)
  | OpActivate | OpDeactivate
  | OpStop.

Definition run_op (op : qop) : QC () :=
  match op with
  | OpEnqueueEvent mem cb cl => zmqBridgeMamaQueue_enqueueEventEx mem (Some cb) cl ;; mret ()
  | OpEnqueueMsg mem cb m => zmqBridgeMamaQueue_enqueueMsg mem (Some cb) m ;; mret ()
  | OpActivate => zmqBridgeMamaQueue_activate ;; mret ()
  | OpDeactivate => zmqBridgeMamaQueue_deactivate ;; mret ()
  | OpStop => zmqBridgeMamaQueue_stopDispatch ;; mret ()
  end.

(** One iteration of the loop: what happens before the semaphore is taken
    and between the dispatch and the test of [mIsDispatching], and whether
    the wait is interrupted. *)
Record round := mkRound { r_before : list qop; r_intr : bool; r_after : list qop }.

(** [wsem_timedwait] on a semaphore of the given value. *)
Definition timedwait_answer (intr : bool) (value : Z) : list semAnswer :=
  if intr then [SemEintr] else if decide (0 < value)%Z then [SemOk] else [SemErr].

(** The loop of [zmqBridgeMamaQueue_dispatch]; [None] when it is still
    running after the given rounds. *)
Fixpoint dispatch_loop (rs : list round) : QC (option wombatQueueStatus) :=
  match rs with
  | [] => mret None
  | r :: rs' =>
      zmqBridgeMamaQueueImpl_checkWatermarks ;;
      cforeach run_op (r_before r) ;;
      impl ← deref;
      q ← cpart (mQueue impl);
      res ← dispatch_event true (timedwait_answer (r_intr r) (snd (q_getSize q))) q;
      status ← cpart res;
      cforeach run_op (r_after r) ;;
      impl ← deref;
      if decide ((status = WOMBAT_QUEUE_OK ∨ status = WOMBAT_QUEUE_TIMEOUT)
                 ∧ mIsDispatching impl = 1%Z)
      then dispatch_loop rs' else mret (Some status)
  end.

Definition zmqBridgeMamaQueue_dispatch (rs : list round) : QC (option mama_status) :=
  impl ← cget;
  match impl with
  | None => mret (Some MAMA_STATUS_NULL_ARG)
  | Some i =>
    match mQueue i with
    | None => mret (Some MAMA_STATUS_NULL_ARG)
    | Some _ =>
        emit oLock ;;
        upd (set_dispatching 1) ;;
        status ← dispatch_loop rs;
        match status with
        | None => mret None
        | Some st => emit oUnlock ;; mret (Some (dispatch_status st))
        end
    end
  end.

End Queue.

Arguments zmqQueueBridge : clear implicits.
Arguments qobs : clear implicits.
Arguments qop : clear implicits.
Arguments round : clear implicits.
Arguments queueBridge : clear implicits.

End ZQ.
