(* ===== verification/QueueProofs.v ===== *)
(** * Correctness of the queue bridge

    Against the laws of [EventQueue]: the dispatch loop delivers the pending
    and newly enqueued events in order, runs until it is told to stop and
    never fails, the watermark callbacks alternate, enqueueing on every
    branch, creation and destruction release what they allocate. *)

From S2P Require Import Prelude CMonad UQueue EventQueue UQueueProofs UQueueSpec Queue.
Import UQ ZQ.

Section QueueProofs.

Context {Q Cb Data Closure Msg EnqCb : Type} `{EventQueueLaws Q Cb Data Closure Msg}.
Notation bridge := (zmqQueueBridge Q Data Closure EnqCb).
Notation obs := (qobs Cb Data Closure Msg EnqCb).
Notation event := (uEvent Cb Data Closure Msg).
Implicit Types (i : bridge) (es : list event) (o : list obs).

(** ** Reading a log *)

(** The events the queue accepted. *)
Definition accepted o : list event :=
  omap (λ x, match x with oPut e WOMBAT_QUEUE_OK => Some e | _ => None end) o.

(** The callbacks that were called. *)
Definition calls o : list (Cb * option Data * uArg Closure Msg) :=
  omap (λ x, match x with oCall c => Some c | _ => None end) o.

(** The watermark notifications: [true] is high. *)
Definition marks o : list (bool * Z) :=
  omap (λ x, match x with
             | oHighWater _ n => Some (true, n)
             | oLowWater _ n => Some (false, n)
             | _ => None
             end) o.

(** The notifications alternate: high only when not fired and the count has
    reached [hi], low only when fired and the count equals [lo].  The result
    is whether the high watermark is fired at the end. *)
Fixpoint marks_run (hi lo : Z) (fired : bool) (l : list (bool * Z)) : option bool :=
  match l with
  | [] => Some fired
  | (true, n) :: l' =>
      if fired then None else if (hi <=? n)%Z then marks_run hi lo true l' else None
  | (false, n) :: l' =>
      if fired then if (n =? lo)%Z then marks_run hi lo false l' else None else None
  end.

Lemma marks_run_app hi lo f l1 l2 g :
  marks_run hi lo f l1 = Some g → marks_run hi lo f (l1 ++ l2) = marks_run hi lo g l2.
Proof.
  revert f. induction l1 as [|[[] n] l1 IH]; intros f; simpl; [by intros [= ->]|..];
    destruct f; try done; case_match; eauto; done.
Qed.

Definition fired i : bool := negb (mHighWaterFired i =? 0)%Z.

(** ** Effects

    From a live queue with the events [es] to one with [es'], by a run that
    logs [o]: what was pending or accepted has been called, in order, or is
    still pending; [k] events are dispatched. *)

Definition live i es : Prop := ∃ q, mQueue i = Some q ∧ q_pending q es.

Record effect (k : nat) i i' es es' o : Prop := {
  ef_live : live i' es';
  ef_fifo : ∃ dn, length dn = k ∧ es ++ accepted o = dn ++ es' ∧ calls o = omap event_call dn;
  ef_marks : marks_run (mHighWatermark i) (mLowWatermark i) (fired i) (marks o) = Some (fired i');
  ef_frame : mParent i' = mParent i ∧ mHighWatermark i' = mHighWatermark i
             ∧ mLowWatermark i' = mLowWatermark i }.

Lemma effect_refl i es : live i es → effect 0 i i es es [].
Proof. intros. split; try done. exists []. by rewrite app_nil_r. Qed.

Lemma effect_trans k l i i1 i2 es es1 es2 o1 o2 :
  effect k i i1 es es1 o1 → effect l i1 i2 es1 es2 o2 → effect (k + l) i i2 es es2 (o1 ++ o2).
Proof.
  intros [_ (d1 & <- & E1 & C1) M1 (Fp & Fh & Fl)] [L2 (d2 & <- & E2 & C2) M2 (Gp & Gh & Gl)].
  split; [done| | |split_and!; congruence].
  - exists (d1 ++ d2). unfold accepted, calls in *. rewrite !omap_app, C1, C2.
    split_and!; [by rewrite length_app| |done]. by rewrite app_assoc, E1, <-app_assoc, E2, app_assoc.
  - unfold marks in *. rewrite omap_app, (marks_run_app _ _ _ _ _ _ M1). by rewrite <-Fh, <-Fl.
Qed.

(** What is left of the events at the start. *)
Lemma effect_length k i i' es es' o : effect k i i' es es' o → length es <= k + length es'.
Proof.
  intros [_ (dn & <- & E & _) _ _]. apply (f_equal length) in E. rewrite !length_app in E. lia.
Qed.

(** ** Operations of other threads *)

Definition is_stop (op : qop Cb Closure Msg) : bool :=
  match op with OpStop => true | _ => false end.

(** The dispatching flag after some operations. *)
Definition flag_after (ops : list (qop Cb Closure Msg)) (d : Z) : Z := if existsb is_stop ops then 0%Z else d.

Definition queue_full_status (st : wombatQueueStatus) : mama_status :=
  if decide (st = WOMBAT_QUEUE_OK) then MAMA_STATUS_OK else MAMA_STATUS_PLATFORM.

(** The callback of [zmqBridgeMamaQueue_setEnqueueCallback]. *)
Definition enqueue_cb i : list obs :=
  match mEnqueueCallback i with
  | Some ecb => [oEnqueueCb ecb (mParent i) (mEnqueueClosure i)]
  | None => []
  end.

Lemma enqueueInt_run mem i es cb closure isMsg :
  live i es → arg_ok closure isMsg →
  ∃ st q', let e := mkEvent (Some cb) (mParent i) isMsg closure in
    zmqBridgeMamaQueue_enqueueEventInt mem (Some cb) closure isMsg (Some i)
    = Some (queue_full_status st, Some (set_queue q' i), oPut e st :: enqueue_cb i)
    ∧ (st = WOMBAT_QUEUE_OK ∧ q_pending q' (es ++ [e])
       ∨ st = WOMBAT_QUEUE_FULL ∧ q_pending q' es).
Proof.
  intros (q & Eq & Hp) Harg.
  destruct (law_enqueue mem q es (Some cb) (mParent i) closure isMsg Hp Harg)
    as (st & q' & E & Hst).
  exists st, q'. split; [|done]. unfold zmqBridgeMamaQueue_enqueueEventInt, CHECK_QUEUE.
  unfold mbind, C_bind, cget. rewrite Eq. unfold cpart. rewrite E. unfold mbind, option_bind.
  unfold upd, cmodify, emit, enqueue_cb. simpl. by destruct (mEnqueueCallback i).
Qed.

Lemma omap_enqueue_cb {B} (f : obs → option B) i :
  (∀ a b c, f (oEnqueueCb a b c) = None) → omap f (enqueue_cb i) = [].
Proof. intros Hf. unfold enqueue_cb. destruct (mEnqueueCallback i); simpl; [by rewrite Hf|done]. Qed.

Lemma enqueueInt_effect mem i es cb closure isMsg :
  live i es → arg_ok closure isMsg →
  ∃ st i' o es', zmqBridgeMamaQueue_enqueueEventInt mem (Some cb) closure isMsg (Some i)
    = Some (st, Some i', o) ∧ effect 0 i i' es es' o ∧ mIsDispatching i' = mIsDispatching i.
Proof.
  intros Hl Harg. destruct (enqueueInt_run mem i es cb closure isMsg Hl Harg) as (st & q' & E & Hst).
  destruct Hst as [[-> Hp]|[-> Hp]]; do 4 eexists; (split_and!; [exact E| |done]);
    (split; [eexists; split; [reflexivity|exact Hp]| | |done]).
  - exists []. unfold accepted, calls. simpl. by rewrite !omap_enqueue_cb.
  - unfold marks. simpl. by rewrite omap_enqueue_cb.
  - exists []. unfold accepted, calls. simpl. by rewrite !omap_enqueue_cb, app_nil_r.
  - unfold marks. simpl. by rewrite omap_enqueue_cb.
Qed.

(** A setter that leaves the queue and the watermarks alone. *)
Lemma setter_effect (f : bridge → bridge) i es :
  live i es → mQueue (f i) = mQueue i → mParent (f i) = mParent i →
  mHighWatermark (f i) = mHighWatermark i → mLowWatermark (f i) = mLowWatermark i →
  mHighWaterFired (f i) = mHighWaterFired i → effect 0 i (f i) es es [].
Proof.
  intros (q & Eq & Hp) E1 E2 E3 E4 E5. split.
  - exists q. by rewrite E1.
  - exists []. by rewrite app_nil_r.
  - simpl. unfold fired. by rewrite E5.
  - done.
Qed.

Lemma enqueueEventEx_run mem cb cl i :
  zmqBridgeMamaQueue_enqueueEventEx mem cb cl (Some i)
  = if decide (mIsActive i = 1)%Z
    then zmqBridgeMamaQueue_enqueueEventInt mem cb (uClosure cl) 0 (Some i)
    else Some (MAMA_STATUS_OK, Some i, []).
Proof.
  unfold zmqBridgeMamaQueue_enqueueEventEx. rewrite (C_bind_read _ _ _ i (Some i)) by done.
  by destruct (decide _).
Qed.

Lemma enqueueMsg_run mem cb m i :
  zmqBridgeMamaQueue_enqueueMsg mem cb m (Some i)
  = if decide (mIsActive i = 1)%Z
    then zmqBridgeMamaQueue_enqueueEventInt mem cb (uMsg m) 1 (Some i)
    else Some (MAMA_STATUS_OK, Some i, []).
Proof.
  unfold zmqBridgeMamaQueue_enqueueMsg. rewrite (C_bind_read _ _ _ i (Some i)) by done.
  by destruct (decide _).
Qed.

Lemma run_op_effect op i es :
  live i es →
  ∃ i' o es', run_op op (Some i) = Some ((), Some i', o) ∧ effect 0 i i' es es' o
    ∧ mIsDispatching i' = flag_after [op] (mIsDispatching i).
Proof.
  intros Hl. destruct op as [mem cb cl|mem cb m| | |]; unfold flag_after; cbn [run_op].
  - pose proof (enqueueEventEx_run mem (Some cb) cl i) as Er. case_decide.
    + destruct (enqueueInt_effect mem i es cb (uClosure cl) 0 Hl eq_refl)
        as (st & i' & o & es' & E & He & Hd). rewrite E in Er. eauto 10 using C_void.
    + eauto 10 using C_void, effect_refl.
  - pose proof (enqueueMsg_run mem (Some cb) m i) as Er. case_decide.
    + destruct (enqueueInt_effect mem i es cb (uMsg m) 1 Hl ltac:(done))
        as (st & i' & o & es' & E & He & Hd). rewrite E in Er. eauto 10 using C_void.
    + eauto 10 using C_void, effect_refl.
  - do 3 eexists. split_and!; [reflexivity|by apply (setter_effect (set_active 1))|done].
  - do 3 eexists. split_and!; [reflexivity|by apply (setter_effect (set_active 0))|done].
  - pose proof Hl as (q & Eq & Hp).
    unfold zmqBridgeMamaQueue_stopDispatch, CHECK_QUEUE, mbind, C_bind, cget. rewrite Eq.
    do 3 eexists. split_and!; [reflexivity|by apply (setter_effect (set_dispatching 0))|done].
Qed.

Lemma run_ops_effect ops i es :
  live i es →
  ∃ i' o es', cforeach run_op ops (Some i) = Some ((), Some i', o) ∧ effect 0 i i' es es' o
    ∧ mIsDispatching i' = flag_after ops (mIsDispatching i).
Proof.
  revert i es. induction ops as [|op ops IH]; intros i es Hl.
  - simpl. eauto 10 using effect_refl.
  - destruct (run_op_effect op i es Hl) as (i1 & o1 & es1 & E1 & He1 & Hd1).
    destruct (IH i1 es1 (ef_live _ _ _ _ _ _ He1)) as (i2 & o2 & es2 & E2 & He2 & Hd2).
    exists i2, (o1 ++ o2), es2. split_and!.
    + simpl. by rewrite (C_bind_eq _ _ _ _ _ _ E1), E2.
    + by apply (effect_trans 0 0 i i1 i2 es es1 es2).
    + rewrite Hd2, Hd1. unfold flag_after. simpl. by destruct (is_stop op), (existsb is_stop ops).
Qed.

(** ** Watermarks *)

Lemma eventCount_live i es :
  live i es →
  zmqBridgeMamaQueue_getEventCount true (Some i) = (MAMA_STATUS_OK, Some (Z.of_nat (length es))).
Proof.
  intros (q & Eq & Hp). simpl. rewrite Eq, (law_getSize q es Hp). simpl.
  pose proof (law_bounded q es Hp). rewrite wrapu_id by lia. done.
Qed.

(** What one check of the watermarks logs and sets. *)
Definition watermark_step i (n : Z) : bridge * list obs :=
  if decide (mHighWaterFired i ≠ 0 ∧ n = mLowWatermark i)%Z
  then (set_fired 0 i, [oLowWater (mParent i) n])
  else if decide (mHighWaterFired i = 0 ∧ mHighWatermark i <= n)%Z
  then (set_fired 1 i, [oHighWater (mParent i) n])
  else (i, []).

Lemma checkWatermarks_run i es :
  live i es →
  zmqBridgeMamaQueueImpl_checkWatermarks (Some i)
  = Some ((), Some (fst (watermark_step i (Z.of_nat (length es)))),
          snd (watermark_step i (Z.of_nat (length es)))).
Proof.
  intros Hl. unfold zmqBridgeMamaQueueImpl_checkWatermarks.
  rewrite (C_bind_read _ _ _ (Some i) (Some i)) by done.
  rewrite (eventCount_live i es Hl). cbn [snd default]. cbv zeta.
  rewrite (C_bind_read _ _ _ i (Some i)) by done. unfold watermark_step.
  destruct (decide _); [done|]. by destruct (decide _).
Qed.

Lemma checkWatermarks_effect i es :
  live i es →
  ∃ i' o, zmqBridgeMamaQueueImpl_checkWatermarks (Some i) = Some ((), Some i', o)
    ∧ effect 0 i i' es es o ∧ mIsDispatching i' = mIsDispatching i ∧ mQueue i' = mQueue i.
Proof.
  intros Hl. rewrite (checkWatermarks_run i es Hl). do 2 eexists. split; [reflexivity|].
  pose proof Hl as (q & Eq & Hp). unfold watermark_step.
  destruct (decide _) as [[Hf Hn]|]; [|destruct (decide _) as [[Hf Hn]|]];
    (split; [|done]); [| |by apply effect_refl].
  - split; [by exists q|by exists []; rewrite app_nil_r| |done].
    simpl. unfold fired at 1. rewrite (proj2 (Z.eqb_neq _ _) Hf). simpl.
    by rewrite (proj2 (Z.eqb_eq _ _) Hn).
  - split; [by exists q|by exists []; rewrite app_nil_r| |done].
    simpl. unfold fired at 1. rewrite Hf. simpl. by rewrite (proj2 (Z.leb_le _ _) Hn).
Qed.

(** ** The dispatch loop *)

(** An uninterrupted dispatch takes an event whenever there is one. *)
Definition taken (intr : bool) es : nat := if intr then 0 else min 1 (length es).

Lemma dispatch_timed_effect i q es intr :
  mQueue i = Some q → q_pending q es →
  ∃ st i' o es', (st = WOMBAT_QUEUE_OK ∨ st = WOMBAT_QUEUE_TIMEOUT)
    ∧ dispatch_event true (timedwait_answer intr (snd (q_getSize q))) q (Some i)
      = Some (Some st, Some i', o)
    ∧ effect (taken intr es) i i' es es' o ∧ mIsDispatching i' = mIsDispatching i.
Proof.
  intros Eq Hp. rewrite (law_getSize q es Hp). cbn [snd]. unfold timedwait_answer.
  assert (∀ ans s, uQueue_wait true ans = WaitFailed s →
    dispatch_event true ans q (Some i) = Some (Some s, Some (set_queue q i), [])) as Hfail.
  { intros ans s Ew. unfold dispatch_event. rewrite (C_bind_read _ _ _ (Dispatched s None q) (Some i)); [done|].
    unfold cpart. by rewrite (law_failed q es true ans s Hp Ew). }
  assert (effect 0 i (set_queue q i) es es []) as Hid.
  { by apply (setter_effect (set_queue q)); [exists q|..]. }
  destruct intr; [|case_decide].
  - rewrite (Hfail _ WOMBAT_QUEUE_TIMEOUT) by done. eauto 10.
  - destruct es as [|e es']; [done|].
    destruct (law_acquired q e es' true [SemOk] Hp eq_refl) as (q' & Ed & Hp').
    exists WOMBAT_QUEUE_OK, (set_queue q' i), (oCall <$> option_list (event_call e)), es'.
    split_and!; [by left| | |done].
    + unfold dispatch_event. rewrite (C_bind_read _ _ _ (Dispatched WOMBAT_QUEUE_OK (event_call e) q') (Some i)).
      * by destruct (event_call e).
      * unfold cpart. by rewrite Ed.
    + split; [by exists q'| |by destruct (event_call e)|done].
      exists [e]. simpl. by destruct (event_call e); rewrite app_nil_r.
  - rewrite (Hfail _ WOMBAT_QUEUE_TIMEOUT) by done. assert (es = []) as -> by (destruct es; [done|simpl in *; lia]).
    eauto 10.
Qed.

Definition round_ops (r : round Cb Closure Msg) : list (qop Cb Closure Msg) :=
  r_before r ++ r_after r.

(** One iteration of the loop, up to the test of its condition. *)
Lemma round_effect r rs i es :
  live i es →
  ∃ st i' o es' k, (st = WOMBAT_QUEUE_OK ∨ st = WOMBAT_QUEUE_TIMEOUT)
    ∧ (if r_intr r then k = 0 else min 1 (length es) <= k <= 1)
    ∧ dispatch_loop (r :: rs) (Some i)
      = (match (if decide (mIsDispatching i' = 1%Z)
                then dispatch_loop rs (Some i') else Some (Some st, Some i', [])) with
         | Some (b, s2, o2) => Some (b, s2, o ++ o2)
         | None => None
         end)
    ∧ effect k i i' es es' o
    ∧ mIsDispatching i' = flag_after (round_ops r) (mIsDispatching i).
Proof.
  intros Hl. destruct (checkWatermarks_effect i es Hl) as (i1 & o1 & E1 & He1 & Hd1 & Hq1).
  destruct (run_ops_effect (r_before r) i1 es (ef_live _ _ _ _ _ _ He1))
    as (i2 & o2 & es2 & E2 & He2 & Hd2).
  destruct (ef_live _ _ _ _ _ _ He2) as (q2 & Eq2 & Hp2).
  destruct (dispatch_timed_effect i2 q2 es2 (r_intr r) Eq2 Hp2)
    as (st & i3 & o3 & es3 & Hst & E3 & He3 & Hd3).
  destruct (run_ops_effect (r_after r) i3 es3 (ef_live _ _ _ _ _ _ He3))
    as (i4 & o4 & es4 & E4 & He4 & Hd4).
  exists st, i4, (o1 ++ o2 ++ o3 ++ o4), es4, (0 + (0 + (taken (r_intr r) es2 + 0))). split_and!; [done| | | |].
  - unfold taken. destruct (r_intr r); [done|]. pose proof (effect_length _ _ _ _ _ _ He2). lia.
  - cbn [dispatch_loop]. rewrite (C_bind_eq _ _ _ _ _ _ E1), (C_bind_eq _ _ _ _ _ _ E2).
    rewrite (C_bind_read _ _ _ i2 (Some i2)) by done.
    rewrite (C_bind_read _ _ _ q2 (Some i2)) by (unfold cpart; by rewrite Eq2).
    rewrite (C_bind_eq _ _ _ _ _ _ E3), (C_bind_read _ _ _ st (Some i3)) by done.
    rewrite (C_bind_eq _ _ _ _ _ _ E4), (C_bind_read _ _ _ i4 (Some i4)) by done.
    destruct (decide (mIsDispatching i4 = 1%Z)) as [Hd|Hd].
    + rewrite decide_True by done.
      destruct (dispatch_loop rs (Some i4)) as [[[? ?] ?]|]; [|done]. by rewrite !app_assoc.
    + rewrite decide_False by naive_solver. simpl. by rewrite !app_assoc.
  - eapply effect_trans; [exact He1|]. eapply effect_trans; [exact He2|]. by eapply effect_trans.
  - rewrite Hd4, Hd3, Hd2, Hd1. unfold flag_after, round_ops. rewrite existsb_app.
    by destruct (existsb is_stop (r_before r)), (existsb is_stop (r_after r)).
Qed.

Definition stopped (rs : list (round Cb Closure Msg)) : bool :=
  existsb (λ r, existsb is_stop (round_ops r)) rs.

(** The rounds that are executed, up to the one that stops the loop, and
    how many of them are not interrupted. *)
Fixpoint executed (rs : list (round Cb Closure Msg)) : list (round Cb Closure Msg) :=
  match rs with
  | [] => []
  | r :: rs' => r :: if existsb is_stop (round_ops r) then [] else executed rs'
  end.
Definition turns (rs : list (round Cb Closure Msg)) : nat :=
  length (filter (λ r, r_intr r = false) (executed rs)).

Lemma turns_cons r rs :
  turns (r :: rs) = (if r_intr r then 0 else 1) + if existsb is_stop (round_ops r) then 0 else turns rs.
Proof.
  unfold turns. cbn [executed]. rewrite filter_cons.
  destruct (r_intr r); [rewrite decide_False by done|rewrite decide_True by done]; by destruct (existsb _ _).
Qed.

Lemma dispatch_loop_effect rs i es :
  live i es → mIsDispatching i = 1%Z →
  ∃ res i' o es' k, dispatch_loop rs (Some i) = Some (res, Some i', o)
    ∧ effect k i i' es es' o ∧ min (turns rs) (length es) <= k <= turns rs
    ∧ (if stopped rs then res = Some WOMBAT_QUEUE_OK ∨ res = Some WOMBAT_QUEUE_TIMEOUT
       else res = None).
Proof.
  revert i es. induction rs as [|r rs IH]; intros i es Hl Hd.
  - exists None, i, [], es, 0. split_and!; [done|by apply effect_refl|cbn; lia..|done].
  - destruct (round_effect r rs i es Hl) as (st & i' & o & es' & k & Hst & Hk & E & He & Hf).
    pose proof (effect_length _ _ _ _ _ _ He) as Hlen. rewrite E, turns_cons.
    unfold stopped. cbn [existsb]. fold (stopped rs). rewrite Hf, Hd. unfold flag_after.
    destruct (existsb is_stop (round_ops r)) eqn:Es; cbn [orb].
    + rewrite decide_False by done. eexists _, _, _, _, k. split; [reflexivity|]. rewrite app_nil_r.
      split; [done|]. split; [destruct (r_intr r); lia|naive_solver].
    + rewrite decide_True by done.
      assert (mIsDispatching i' = 1%Z) as Hd' by (rewrite Hf; unfold flag_after; by rewrite Es).
      destruct (IH i' es' (ef_live _ _ _ _ _ _ He) Hd') as (res & i2 & o2 & es2 & l & E2 & He2 & Hl2 & Hres).
      rewrite E2. eexists _, _, _, _, (k + l). split; [reflexivity|]. split; [by eapply effect_trans|].
      split; [destruct (r_intr r); lia|done].
Qed.

(** ** Theorems *)


(** Enqueueing an event or a message: a NULL callback is refused; on an
    inactive queue the event is silently dropped; on an active one it is
    appended with the parent as its data, or refused with
    MAMA_STATUS_PLATFORM when the queue is full, and the enqueue callback is
    called in both cases. *)
Theorem enqueue_branches mem i es cb (arg : option Closure + Msg) :
  live i es →
  let closure := match arg with inl c => uClosure c | inr m => uMsg m end in
  let isMsg := match arg with inl _ => 0%Z | inr _ => 1%Z end in
  let run cb := match arg with
                | inl c => zmqBridgeMamaQueue_enqueueEventEx mem cb c (Some i)
                | inr m => zmqBridgeMamaQueue_enqueueMsg mem cb m (Some i)
                end in
  let e := mkEvent (Some cb) (mParent i) isMsg closure in
  if decide (mIsActive i = 1)%Z then
    run None = Some (MAMA_STATUS_NULL_ARG, Some i, []) ∧
    ∃ st q', run (Some cb) = Some (queue_full_status st, Some (set_queue q' i),
                                   oPut e st :: enqueue_cb i)
      ∧ (st = WOMBAT_QUEUE_OK ∧ q_pending q' (es ++ [e])
         ∨ st = WOMBAT_QUEUE_FULL ∧ q_pending q' es)
  else ∀ cb', run cb' = Some (MAMA_STATUS_OK, Some i, []).
Proof.
  intros Hl closure isMsg run e.
  assert (arg_ok closure isMsg) as Harg by (by destruct arg).
  destruct (enqueueInt_run mem i es cb closure isMsg Hl Harg) as (st & q' & E & Hst).
  destruct (decide (mIsActive i = 1)%Z) eqn:Ea.
  - split; [|exists st, q'; split; [etransitivity; [|exact E]|done]]; destruct arg; unfold run, closure, isMsg;
      rewrite ?enqueueEventEx_run, ?enqueueMsg_run, Ea; done.
  - intros cb'. destruct arg; unfold run; rewrite ?enqueueEventEx_run, ?enqueueMsg_run, Ea; done.
Qed.

(** Allocations minus releases of a block in a run. *)
Fixpoint outstanding (b : block) o : Z :=
  match o with
  | [] => 0
  | oAlloc x :: o' => (if decide (x = b) then 1 else 0) + outstanding b o'
  | oFree x :: o' => (if decide (x = b) then -1 else 0) + outstanding b o'
  | _ :: o' => outstanding b o'
  end.

(** zmqBridgeMamaQueue_create either returns MAMA_STATUS_OK with an
    active, empty queue that is not dispatching, or an error with a NULL
    handle and every block it allocated released again. *)
Theorem create_no_leak mem qmem sem cmem parent h :
  ∃ st h' o, zmqBridgeMamaQueue_create true mem qmem sem cmem (Some parent) h = Some (st, h', o)
    ∧ ((st = MAMA_STATUS_OK ∧ (∀ b, outstanding b o = 1%Z)
        ∧ ∃ i, h' = Some i ∧ live i [] ∧ mIsActive i = 1%Z ∧ mIsDispatching i = 0%Z
               ∧ mParent i = Some parent)
       ∨ (st = MAMA_STATUS_NOMEM ∨ st = MAMA_STATUS_PLATFORM) ∧ h' = None
         ∧ ∀ b, outstanding b o = 0%Z).
Proof.
  unfold zmqBridgeMamaQueue_create. rewrite (C_bind_read (cput None) _ _ () None) by done.
  destruct mem; [|do 3 eexists; split; [reflexivity|]; right; auto].
  rewrite (C_bind_eq (emit _) _ None () None [oAlloc bBridge]) by done. cbv zeta.
  destruct (law_allocate qmem) as [E|(q & E & Hc)]; rewrite E.
  { do 3 eexists. split; [reflexivity|]. right. split_and!; [by left|done|by intros []]. }
  rewrite (C_bind_eq (emit _) _ None () None [oAlloc bQueue]) by done.
  destruct (Hc sem cmem) as (st & q' & E' & Hp).
  rewrite (C_bind_read (cpart _) _ _ (st, q') None) by (unfold cpart; by rewrite E').
  destruct (decide (st = WOMBAT_QUEUE_OK)).
  - do 3 eexists. split; [reflexivity|]. left. split_and!; [done|by intros []|].
    eexists. split_and!; try done. exists q'. auto.
  - do 3 eexists. split; [reflexivity|]. right. split_and!; [by right|done|by intros []].
Qed.

(** zmqBridgeMamaQueue_destroy frees the bridge on every path, under the
    dispatch lock destroys the event queue, and reports MAMA_STATUS_PLATFORM
    (the queue's own struct then stays allocated) exactly when the semaphore
    cannot be destroyed. *)
Theorem destroy_releases sem i es :
  live i es →
  ∃ o, zmqBridgeMamaQueue_destroy sem (Some i)
       = Some (if sem then MAMA_STATUS_OK else MAMA_STATUS_PLATFORM, None, o)
    ∧ outstanding bBridge o = (-1)%Z ∧ outstanding bQueue o = (if sem then -1 else 0)%Z.
Proof.
  intros (q & Eq & Hp). unfold zmqBridgeMamaQueue_destroy, CHECK_QUEUE.
  rewrite (C_bind_read _ _ _ (Some i) (Some i)) by done. rewrite Eq.
  rewrite (C_bind_eq (emit _) _ (Some i) () (Some i) [oLock]) by done.
  rewrite (C_bind_read (cpart _) _ _
             (if sem then WOMBAT_QUEUE_OK else WOMBAT_QUEUE_SEM_ERR, sem) (Some i))
    by (unfold cpart; by rewrite (law_destroy q es sem Hp)).
  destruct sem; eexists; (split_and!; [reflexivity|done|done]).
Qed.

End QueueProofs.

(** ** The queue bridge on the queue of uqueue.c *)

Section QueueDemo.

#[local] Instance demo_ops : EventQueue (uQueueImpl nat nat nat nat) nat nat nat nat :=
  uQueue_ops 8 2.

#[local] Instance demo_laws : EventQueueLaws (uQueueImpl nat nat nat nat) nat nat nat nat :=
  uQueue_laws 8 2 ltac:(lia) ltac:(lia).

Definition demo_bridge : zmqQueueBridge (uQueueImpl nat nat nat nat) nat nat nat :=
  mkQueueBridge (Some 2) (Some demo1) None 0 1 0 0 1 None.

Lemma demo_live : live demo_bridge [demo_ev 3].
Proof. exists demo1. split; [done|]. exists (Spec.mkQ [demo_ev 3] 0). split; [apply demo1_represents|done]. Qed.

(** A message arrives, is dispatched, a callback stops the queue. *)
Definition demo_rounds : list (round nat nat nat) :=
  [mkRound [OpEnqueueMsg true 1 9] false []; mkRound [] true []; mkRound [] false [OpStop]].


Lemma enqueue_branches_witness :
  zmqBridgeMamaQueue_enqueueMsg true None 9 (Some demo_bridge)
    = Some (MAMA_STATUS_NULL_ARG, Some demo_bridge, []) ∧
  ∃ st q', zmqBridgeMamaQueue_enqueueMsg true (Some 1) 9 (Some demo_bridge)
      = Some (queue_full_status st, Some (set_queue q' demo_bridge), [oPut (demo_ev 9) st])
    ∧ (st = WOMBAT_QUEUE_OK ∧ q_pending q' ([demo_ev 3] ++ [demo_ev 9])
       ∨ st = WOMBAT_QUEUE_FULL ∧ q_pending q' [demo_ev 3]).
Proof. exact (enqueue_branches true demo_bridge [demo_ev 3] 1 (inr 9) demo_live). Defined.

Lemma create_no_leak_witness :
  ∃ st h' o, zmqBridgeMamaQueue_create (EnqCb := nat) true true true true false (Some 7) None
             = Some (st, h', o)
    ∧ ((st = MAMA_STATUS_OK ∧ (∀ b, outstanding b o = 1%Z)
        ∧ ∃ i, h' = Some i ∧ live i [] ∧ mIsActive i = 1%Z ∧ mIsDispatching i = 0%Z
               ∧ mParent i = Some 7)
       ∨ (st = MAMA_STATUS_NOMEM ∨ st = MAMA_STATUS_PLATFORM) ∧ h' = None
         ∧ ∀ b, outstanding b o = 0%Z).
Proof. exact (create_no_leak (EnqCb := nat) true true true false 7 None). Defined.

Lemma destroy_releases_witness :
  ∃ o, zmqBridgeMamaQueue_destroy true (Some demo_bridge) = Some (MAMA_STATUS_OK, None, o)
    ∧ outstanding bBridge o = (-1)%Z ∧ outstanding bQueue o = (-1)%Z.
Proof. exact (destroy_releases true demo_bridge [demo_ev 3] demo_live). Defined.

End QueueDemo.
