(* ===== verification/Msg.v ===== *)
(** * Bridge messages and their wire format (src/src/msg.c)

    On the wire a message is the subject and its NUL, one byte for the type,
    the reply handle (requests only) and a NUL, and the payload of the MAMA
    message.  The [char] arrays of [zmqBridgeMsgImpl] are only ever written
    by [strcpy] and read as C strings, so a field is the C string it holds;
    a copy that does not fit is undefined behaviour. *)

From S2P Require Import Prelude CLib.

Module ZM.

(** ** Data (src/src/zmqdefs.h) *)

Definition ZMQ_MSG_UNKNOWN : byte := x00.
Definition ZMQ_MSG_PUB_SUB : byte := x01.
Definition ZMQ_MSG_INBOX_REQUEST : byte := x02.
Definition ZMQ_MSG_INBOX_RESPONSE : byte := x03.

Definition UUID_STRING_SIZE : nat := 36.
Definition MAX_SUBJECT_LENGTH : nat := 256.
Definition ZMQ_INBOX_SUBJECT_SIZE : nat := 6 + 1 + UUID_STRING_SIZE.
Definition ZMQ_REPLYHANDLE_INBOXNAME_INDEX : nat := ZMQ_INBOX_SUBJECT_SIZE + 1.
Definition ZMQ_REPLYHANDLE_INBOXNAME_SIZE : nat := 16.
Definition ZMQ_REPLYHANDLE_SIZE : nat :=
  ZMQ_INBOX_SUBJECT_SIZE + 1 + ZMQ_REPLYHANDLE_INBOXNAME_SIZE.

(** [sizeof(impl->mReplyHandle)] and [sizeof(impl->mSendSubject)]. *)
Definition REPLYHANDLE_CAP : nat := ZMQ_REPLYHANDLE_SIZE + 1.
Definition SENDSUBJECT_CAP : nat := MAX_SUBJECT_LENGTH + 1.

Section Msg.

(** [Parent] is [mamaMsg]. *)
Context {Parent : Type}.

Record zmqBridgeMsgImpl := mkMsg {
  mParent : option Parent;
  mMsgType : byte;
  mReplyHandle : list byte;
  mSendSubject : list byte }.

(** A [msgBridge] handle: NULL or a message. *)
Abbreviation msgBridge := (option zmqBridgeMsgImpl).

Definition set_parent (p : option Parent) (m : zmqBridgeMsgImpl) : zmqBridgeMsgImpl :=
  mkMsg p (mMsgType m) (mReplyHandle m) (mSendSubject m).
Definition set_type (t : byte) (m : zmqBridgeMsgImpl) : zmqBridgeMsgImpl :=
  mkMsg (mParent m) t (mReplyHandle m) (mSendSubject m).
Definition set_reply (h : list byte) (m : zmqBridgeMsgImpl) : zmqBridgeMsgImpl :=
  mkMsg (mParent m) (mMsgType m) h (mSendSubject m).
Definition set_subject (s : list byte) (m : zmqBridgeMsgImpl) : zmqBridgeMsgImpl :=
  mkMsg (mParent m) (mMsgType m) (mReplyHandle m) s.

(** ** Creation and accessors *)

Definition zmqBridgeMamaMsgImpl_init (msg : zmqBridgeMsgImpl) : zmqBridgeMsgImpl :=
  mkMsg None ZMQ_MSG_PUB_SUB [] [].

(** The zeroed struct of [calloc]. *)
Definition zero_msg : zmqBridgeMsgImpl := mkMsg None x00 [] [].

(** [msgOk]: the out parameter is not NULL; [mem]: [calloc] succeeds. *)
Definition zmqBridgeMamaMsgImpl_createMsgOnly (msgOk mem : bool) : mama_status * msgBridge :=
  if msgOk then
    if mem then (MAMA_STATUS_OK, Some (zmqBridgeMamaMsgImpl_init zero_msg))
    else (MAMA_STATUS_NOMEM, None)
  else (MAMA_STATUS_NULL_ARG, None).

Definition zmqBridgeMamaMsg_create (msgOk mem : bool) (parent : option Parent)
    : mama_status * msgBridge :=
  match parent with
  | None => (MAMA_STATUS_NULL_ARG, None)
  | Some _ =>
      if msgOk then
        match zmqBridgeMamaMsgImpl_createMsgOnly msgOk mem with
        | (MAMA_STATUS_OK, msg) => (MAMA_STATUS_OK, set_parent parent <$> msg)
        | (s, msg) => (s, msg)
        end
      else (MAMA_STATUS_NULL_ARG, None)
  end.

Definition zmqBridgeMamaMsg_isFromInbox (msg : msgBridge) : Z :=
  match msg with
  | None => 0
  | Some impl =>
      if decide (mMsgType impl = ZMQ_MSG_INBOX_REQUEST) then 1
      else if decide (mReplyHandle impl ≠ []) then 1 else 0
  end.

Definition zmqBridgeMamaMsg_getReplyHandle (msg : msgBridge) : option (list byte) :=
  mReplyHandle <$> msg.

Definition zmqBridgeMamaMsg_copyReplyHandle (src : option (list byte)) (destOk : bool)
    : mama_status * option (list byte) :=
  match src with
  | Some s => if destOk then (MAMA_STATUS_OK, Some s) else (MAMA_STATUS_NULL_ARG, None)
  | None => (MAMA_STATUS_NULL_ARG, None)
  end.

Definition zmqBridgeMamaMsg_duplicateReplyHandle (msg : msgBridge) (handleOk : bool)
    : mama_status * option (list byte) :=
  if handleOk then
    match msg with
    | None => (MAMA_STATUS_NULL_ARG, None)
    | Some _ =>
        match zmqBridgeMamaMsg_getReplyHandle msg with
        | None => (MAMA_STATUS_INVALID_ARG, None)
        | Some h => zmqBridgeMamaMsg_copyReplyHandle (Some h) handleOk
        end
    end
  else (MAMA_STATUS_NULL_ARG, None).

Definition zmqBridgeMamaMsgImpl_setReplyHandle (msg : msgBridge) (handle : option (list byte))
    : option (mama_status * msgBridge) :=
  match msg, handle with
  | Some impl, Some h =>
      h' ← strcpy REPLYHANDLE_CAP h; Some (MAMA_STATUS_OK, Some (set_reply h' impl))
  | _, _ => Some (MAMA_STATUS_NULL_ARG, msg)
  end.

Definition zmqBridgeMamaMsgImpl_setReplyHandleAndIncrement (msg : msgBridge)
    (handle : option (list byte)) : option (mama_status * msgBridge) :=
  zmqBridgeMamaMsgImpl_setReplyHandle msg handle.

Definition zmqBridgeMamaMsgImpl_setMsgType (msg : msgBridge) (type : byte)
    : mama_status * msgBridge :=
  match msg with
  | None => (MAMA_STATUS_NULL_ARG, None)
  | Some impl => (MAMA_STATUS_OK, Some (set_type type impl))
  end.

(** [updateString] is the status of [mamaMsg_updateString]. *)
Definition zmqBridgeMamaMsg_setSendSubject `{WStr}
    (updateString : Parent → list byte → mama_status)
    (msg : msgBridge) (symbol : option (list byte)) : mama_status * msgBridge :=
  match msg, symbol with
  | Some impl, Some s =>
      let '(n, s') := wmStrSizeCpy s SENDSUBJECT_CAP in
      let msg' := Some (set_subject s' impl) in
      if decide (n ≠ length s) then (MAMA_STATUS_PLATFORM, msg')
      else match mParent impl with
           | None => (MAMA_STATUS_OK, msg')
           | Some p => (updateString p s, msg')
           end
  | _, _ => (MAMA_STATUS_NULL_ARG, msg)
  end.

(** ** Serialization *)

(** [serializedSize], computed in [size_t]. *)
Definition serializedSize (impl : zmqBridgeMsgImpl) (payloadSize : nat) : Z :=
  size64 (Z.of_nat (length (mSendSubject impl)) + 1 + 1 + Z.of_nat payloadSize
          + (if decide (mMsgType impl = ZMQ_MSG_INBOX_REQUEST)
             then Z.of_nat (length (mReplyHandle impl)) else 0)
          + 1).

(** [buffer] is the answer of [mamaMsg_getByteBuffer]; [rc] the one of
    [zmq_msg_init_size], whose block has the contents [junk].  The result is
    the status and the message sent. *)
Definition zmqBridgeMamaMsgImpl_serialize (msg : msgBridge)
    (buffer : mama_status * list byte) (rc : Z) (junk : nat → byte)
    : option (mama_status * list byte) :=
  match msg with
  | None => Some (MAMA_STATUS_NULL_ARG, [])
  | Some impl =>
    match buffer with
    | (MAMA_STATUS_OK, payload) =>
      if decide (rc ≠ 0)%Z then Some (MAMA_STATUS_PLATFORM, [])
      else
        let b0 := fresh junk (Z.to_nat (serializedSize impl (length payload))) in
        let subject := mSendSubject impl ++ [NUL] in
        b1 ← poke b0 0 subject;
        let pos := length subject in
        b2 ← poke b1 pos [mMsgType impl];
        let pos := pos + 1 in
        '(b3, pos) ← (if decide (mMsgType impl = ZMQ_MSG_INBOX_REQUEST)
                      then b ← poke b2 pos (mReplyHandle impl);
                           Some (b, pos + length (mReplyHandle impl))
                      else Some (b2, pos));
        b4 ← poke b3 pos [NUL];
        let pos := pos + 1 in
        b5 ← poke b4 pos payload;
        Some (MAMA_STATUS_OK, b5)
    | (s, _) => Some (s, [])
    end
  end.

(** ** Deserialization *)

(** The call of [mamaMsgImpl_setMsgBuffer]: payload, payload type. *)
Definition msgBuffer : Type := list byte * byte.

(** The end of [zmqBridgeMamaMsgImpl_deserialize], with [bufferPos] at
    offset [pos]: check the payload's size and pass it on. *)
Definition deliver_payload (setMsgBuffer : msgBuffer → mama_status) (impl : zmqBridgeMsgImpl)
    (source : list byte) (pos : nat) : option (mama_status * msgBridge * option msgBuffer) :=
  let payloadSize := int32 (Z.of_nat (length source) - Z.of_nat pos) in
  if decide (payloadSize < 0)%Z then Some (MAMA_STATUS_SYSTEM_ERROR, Some impl, None)
  else
    t ← source !! pos;
    let call := (take (Z.to_nat payloadSize) (drop pos source), t) in
    Some (setMsgBuffer call, Some impl, Some call).

(** [setMsgBuffer] is the status of [mamaMsgImpl_setMsgBuffer]; the last
    component of the result is the call that was made. *)
Definition zmqBridgeMamaMsgImpl_deserialize (setMsgBuffer : msgBuffer → mama_status)
    (msg : msgBridge) (source : list byte)
    : option (mama_status * msgBridge * option msgBuffer) :=
  match msg with
  | None => Some (MAMA_STATUS_NULL_ARG, None, None)
  | Some impl =>
      n ← strlen source;
      let pos := n + 1 in
      type ← source !! pos;
      let impl1 := set_type type impl in
      let pos := pos + 1 in
      '(impl2, pos) ←
        (if decide (type = ZMQ_MSG_INBOX_REQUEST) then
           h ← cstring (drop pos source);
           h' ← strcpy REPLYHANDLE_CAP h;
           Some (set_reply h' impl1, pos + length h)
         else if decide (type = ZMQ_MSG_INBOX_RESPONSE) then
           s ← cstring source;
           h' ← strcpy REPLYHANDLE_CAP s;
           Some (set_reply h' impl1, pos)
         else Some (impl1, pos));
      deliver_payload setMsgBuffer impl2 source (pos + 1)
  end.

(** ** Specification *)

(** The fields fit their arrays and are C strings. *)
Definition msg_ok (impl : zmqBridgeMsgImpl) : Prop :=
  is_cstr (mReplyHandle impl) ∧ length (mReplyHandle impl) < REPLYHANDLE_CAP ∧
  is_cstr (mSendSubject impl) ∧ length (mSendSubject impl) < SENDSUBJECT_CAP.

(** The documented wire format. *)
Definition wire (subject : list byte) (type : byte) (reply payload : list byte) : list byte :=
  subject ++ [NUL] ++ [type] ++
  (if decide (type = ZMQ_MSG_INBOX_REQUEST) then reply else []) ++ [NUL] ++ payload.

(** The reply handle a receiver ends up with. *)
Definition reply_of (subject : list byte) (type : byte) (reply old : list byte) : list byte :=
  if decide (type = ZMQ_MSG_INBOX_REQUEST) then reply
  else if decide (type = ZMQ_MSG_INBOX_RESPONSE) then subject else old.

(** The reply handle copied by the receiver fits its array. *)
Definition reply_fits (subject : list byte) (type : byte) (reply : list byte) : Prop :=
  length (reply_of subject type reply []) < REPLYHANDLE_CAP.

(** ** Lemmas *)

Lemma serialize_bytes impl payload junk :
  (Z.of_nat (length (wire (mSendSubject impl) (mMsgType impl) (mReplyHandle impl) payload))
   < 2 ^ 64)%Z →
  zmqBridgeMamaMsgImpl_serialize (Some impl) (MAMA_STATUS_OK, payload) 0 junk
  = Some (MAMA_STATUS_OK, wire (mSendSubject impl) (mMsgType impl) (mReplyHandle impl) payload).
Proof.
  intros Hw. unfold zmqBridgeMamaMsgImpl_serialize. rewrite decide_False by lia. cbv zeta.
  set (n := Z.to_nat _). set (rest := fresh junk n).
  assert (length rest = length (wire (mSendSubject impl) (mMsgType impl) (mReplyHandle impl) payload))
    as Hn.
  { unfold rest. rewrite length_fresh. unfold n, serializedSize. unfold wire in *.
    rewrite !length_app in Hw |- *. simpl in Hw |- *.
    destruct (decide _); simpl in *; rewrite wrapu_id by lia; lia. }
  clearbody rest. unfold wire in *.
  rewrite !length_app in Hn. simpl in Hn.
  pose proof (poke_next [] (mSendSubject impl ++ [NUL]) rest) as P. simpl in P.
  rewrite P by (rewrite length_app; simpl; destruct (decide _); lia). rewrite bind_some.
  rewrite (poke_next _ [mMsgType impl])
    by (rewrite length_drop, length_app; simpl; destruct (decide _); lia).
  rewrite bind_some. set (l := (mSendSubject impl ++ [NUL]) ++ [mMsgType impl]).
  replace (length (mSendSubject impl ++ [NUL]) + 1) with (length l)
    by (unfold l; rewrite !length_app; done).
  destruct (decide (mMsgType impl = ZMQ_MSG_INBOX_REQUEST)).
  - rewrite poke_next, !bind_some; [|rewrite !length_drop, length_app; simpl; lia].
    rewrite <-length_app, poke_next, bind_some;
      [|rewrite !length_drop, length_app; simpl; lia].
    replace (length (l ++ mReplyHandle impl) + 1) with (length ((l ++ mReplyHandle impl) ++ [NUL]))
      by (rewrite length_app; done).
    rewrite poke_next, bind_some; [|rewrite !length_drop, length_app; simpl; lia].
    rewrite drop_ge, app_nil_r; [|rewrite !length_drop, length_app; simpl; lia].
    unfold l. by rewrite <-!app_assoc.
  - rewrite !bind_some, poke_next, bind_some; [|rewrite !length_drop, length_app; simpl; lia].
    replace (length l + 1) with (length (l ++ [NUL])) by (rewrite length_app; done).
    simpl in Hn.
    rewrite poke_next, bind_some; [|rewrite !length_drop, length_app; simpl; lia].
    rewrite drop_ge, app_nil_r; [|rewrite !length_drop, length_app; simpl; lia].
    unfold l. by rewrite <-!app_assoc.
Qed.

(** The body of the message, after the subject and the type: the reply
    handle to store and the number of its bytes in the body. *)
Definition body_reply (impl : zmqBridgeMsgImpl) (subject : list byte) (type : byte)
    (body : list byte) : option (list byte * nat) :=
  if decide (type = ZMQ_MSG_INBOX_REQUEST) then
    h ← cstring body; h' ← strcpy REPLYHANDLE_CAP h; Some (h', length h)
  else if decide (type = ZMQ_MSG_INBOX_RESPONSE) then
    h' ← strcpy REPLYHANDLE_CAP subject; Some (h', 0)
  else Some (mReplyHandle impl, 0).

Lemma deliver_payload_app setMsgBuffer impl l r k :
  deliver_payload setMsgBuffer impl (l ++ r) (length l + k)
  = deliver_payload setMsgBuffer impl r k.
Proof.
  unfold deliver_payload. rewrite drop_app_add, length_app.
  rewrite lookup_app_r by lia. replace (length l + k - length l) with k by lia.
  by replace (Z.of_nat (length l + length r) - Z.of_nat (length l + k))%Z
    with (Z.of_nat (length r) - Z.of_nat k)%Z by lia.
Qed.

Lemma deserialize_split setMsgBuffer impl subject type body :
  is_cstr subject →
  zmqBridgeMamaMsgImpl_deserialize setMsgBuffer (Some impl) (subject ++ NUL :: type :: body)
  = '(h, skip) ← body_reply impl subject type body;
    deliver_payload setMsgBuffer (set_reply h (set_type type impl)) body (skip + 1).
Proof.
  intros Hs. unfold zmqBridgeMamaMsgImpl_deserialize. rewrite strlen_cstr, bind_some by done.
  rewrite (cstring_cstr subject) by done.
  change (subject ++ NUL :: type :: body) with (subject ++ [NUL; type] ++ body).
  rewrite !app_assoc. set (l := subject ++ [NUL; type]).
  assert (length subject + 1 + 1 = length l) as El by (unfold l; rewrite length_app; simpl; lia).
  assert ((l ++ body) !! (length subject + 1) = Some type) as ->.
  { unfold l. rewrite <-app_assoc, lookup_app_r by lia.
    by replace (length subject + 1 - length subject) with 1 by lia. }
  rewrite bind_some, El, drop_app_length. unfold body_reply.
  destruct (decide (type = ZMQ_MSG_INBOX_REQUEST)).
  - destruct (cstring body) as [h|]; [|done]. rewrite !bind_some.
    destruct (strcpy REPLYHANDLE_CAP h) as [h'|]; [|done].
    rewrite !bind_some, <-Nat.add_assoc. apply deliver_payload_app.
  - destruct (decide (type = ZMQ_MSG_INBOX_RESPONSE)).
    + rewrite bind_some. destruct (strcpy REPLYHANDLE_CAP subject) as [h'|]; [|done].
      rewrite !bind_some. apply deliver_payload_app.
    + rewrite !bind_some. destruct impl. apply deliver_payload_app.
Qed.

(** A payload that is present is delivered whole. *)
Lemma deliver_payload_ok setMsgBuffer impl pre t payload :
  (Z.of_nat (length (t :: payload)) < 2 ^ 31)%Z →
  deliver_payload setMsgBuffer impl (pre ++ t :: payload) (length pre)
  = Some (setMsgBuffer (t :: payload, t), Some impl, Some (t :: payload, t)).
Proof.
  intros Hw. rewrite <-(Nat.add_0_r (length pre)), deliver_payload_app. unfold deliver_payload.
  rewrite wraps_id by lia. rewrite decide_False by (simpl; lia). simpl (_ !! 0). rewrite bind_some.
  simpl (drop 0 _). by rewrite take_ge by (simpl; lia).
Qed.

Lemma deserialize_wire setMsgBuffer impl subject type reply t payload :
  is_cstr subject → is_cstr reply → reply_fits subject type reply →
  (Z.of_nat (length (t :: payload)) < 2 ^ 31)%Z →
  zmqBridgeMamaMsgImpl_deserialize setMsgBuffer (Some impl) (wire subject type reply (t :: payload))
  = Some (setMsgBuffer (t :: payload, t),
          Some (set_reply (reply_of subject type reply (mReplyHandle impl)) (set_type type impl)),
          Some (t :: payload, t)).
Proof.
  intros Hs Hr Hf Hw. unfold wire. simpl (_ ++ [NUL] ++ _).
  simpl ([type] ++ _). rewrite deserialize_split by done.
  unfold body_reply, reply_fits, reply_of in *.
  destruct (decide (type = ZMQ_MSG_INBOX_REQUEST)).
  - simpl (reply ++ [NUL] ++ _). rewrite cstring_cstr, bind_some by done.
    rewrite strcpy_fits, !bind_some by done.
    replace (length reply + 1) with (length (reply ++ [NUL])) by (by rewrite length_app).
    change (reply ++ NUL :: t :: payload) with (reply ++ [NUL] ++ t :: payload).
    rewrite app_assoc. by apply deliver_payload_ok.
  - destruct (decide (type = ZMQ_MSG_INBOX_RESPONSE)).
    + rewrite strcpy_fits, !bind_some by done. by apply (deliver_payload_ok _ _ [NUL]).
    + rewrite bind_some. by apply (deliver_payload_ok _ _ [NUL]).
Qed.

(** Blocks that [zmqBridgeMamaMsgImpl_deserialize] reads without leaving
    them: subject and type, then for a request a terminated reply handle
    that fits and a payload, for a response a subject that fits; the rest is
    empty (an error) or the skipped byte and a payload. *)
Inductive readable : list byte → Prop :=
  | readable_request subject reply t payload :
      is_cstr subject → is_cstr reply → length reply < REPLYHANDLE_CAP →
      readable (subject ++ NUL :: ZMQ_MSG_INBOX_REQUEST :: reply ++ NUL :: t :: payload)
  | readable_response subject body :
      is_cstr subject → length subject < REPLYHANDLE_CAP → length body ≠ 1 →
      readable (subject ++ NUL :: ZMQ_MSG_INBOX_RESPONSE :: body)
  | readable_other subject type body :
      is_cstr subject → type ≠ ZMQ_MSG_INBOX_REQUEST → type ≠ ZMQ_MSG_INBOX_RESPONSE →
      length body ≠ 1 →
      readable (subject ++ NUL :: type :: body).

Lemma deliver_payload_defined setMsgBuffer impl body skip :
  (Z.of_nat (length body) < 2 ^ 31)%Z → skip ≤ length body →
  is_Some (deliver_payload setMsgBuffer impl body (skip + 1)) ↔ length body ≠ skip + 1.
Proof.
  intros Hw Hs. unfold deliver_payload. rewrite wraps_id by lia. case_decide.
  - split; [lia|eauto].
  - destruct (body !! (skip + 1)) eqn:E.
    + apply lookup_lt_Some in E. split; [lia|]. intros _. rewrite bind_some. eauto.
    + apply lookup_ge_None in E. split; [by intros []|]. lia.
Qed.

Lemma readable_defined setMsgBuffer impl source :
  (Z.of_nat (length source) < 2 ^ 31)%Z → readable source →
  is_Some (zmqBridgeMamaMsgImpl_deserialize setMsgBuffer (Some impl) source).
Proof.
  intros Hw Hr. destruct Hr as [subject reply t payload Hs Hr Hf|subject body Hs Hf Hb|
    subject type body Hs H1 H2 Hb]; rewrite length_app in Hw; simpl in Hw;
    rewrite deserialize_split by done; unfold body_reply.
  - rewrite decide_True, cstring_cstr, bind_some by done.
    rewrite strcpy_fits, !bind_some by done. apply deliver_payload_defined.
    + lia.
    + rewrite length_app. simpl. lia.
    + rewrite length_app. simpl. lia.
  - rewrite decide_False, decide_True, strcpy_fits, !bind_some by done.
    apply deliver_payload_defined; simpl; lia.
  - rewrite !decide_False, bind_some by done. apply deliver_payload_defined; simpl; lia.
Qed.

Lemma defined_readable setMsgBuffer impl source :
  (Z.of_nat (length source) < 2 ^ 31)%Z →
  is_Some (zmqBridgeMamaMsgImpl_deserialize setMsgBuffer (Some impl) source) → readable source.
Proof.
  intros Hw [res Hres].
  destruct (strlen source) as [n|] eqn:En; [|simpl in Hres; by rewrite En in Hres].
  apply strlen_inv in En as (subject & r & -> & Hs & ->).
  destruct r as [|type body].
  { exfalso. unfold zmqBridgeMamaMsgImpl_deserialize in Hres.
    rewrite strlen_cstr, bind_some, lookup_ge_None_2 in Hres; [done| |done].
    rewrite length_app. simpl. lia. }
  rewrite deserialize_split in Hres by done. rewrite length_app in Hw. simpl in Hw.
  unfold body_reply in Hres. destruct (decide (type = ZMQ_MSG_INBOX_REQUEST)) as [->|].
  - unfold cstring in Hres. destruct (strlen body) as [k|] eqn:Ek; [|done].
    apply strlen_inv in Ek as (reply & r & -> & Hr & ->).
    rewrite !bind_some, take_app_length in Hres.
    destruct (strcpy REPLYHANDLE_CAP reply) as [h'|] eqn:Eh; [|done].
    apply strcpy_Some in Eh as [-> Hf]. rewrite !bind_some in Hres.
    apply mk_is_Some, deliver_payload_defined in Hres;
      [|lia|rewrite length_app; simpl; lia].
    destruct r as [|t payload]; [rewrite length_app in Hres; simpl in Hres; lia|].
    by constructor.
  - destruct (decide (type = ZMQ_MSG_INBOX_RESPONSE)) as [->|].
    + destruct (strcpy REPLYHANDLE_CAP subject) as [h'|] eqn:Eh; [|done].
      apply strcpy_Some in Eh as [-> Hf]. rewrite !bind_some in Hres.
      apply mk_is_Some, deliver_payload_defined in Hres; [|lia..]. by constructor.
    + rewrite bind_some in Hres.
      apply mk_is_Some, deliver_payload_defined in Hres; [|lia..]. by constructor.
Qed.

(** ** Theorems *)

(** zmqBridgeMamaMsgImpl_serialize writes exactly the documented wire
    format: the buffer has the computed size, every copy stays inside it and
    together they overwrite all of it, whatever it contained. *)
Theorem serialize_layout impl payload junk :
  (Z.of_nat (length (wire (mSendSubject impl) (mMsgType impl) (mReplyHandle impl) payload))
   < 2 ^ 64)%Z →
  zmqBridgeMamaMsgImpl_serialize (Some impl) (MAMA_STATUS_OK, payload) 0 junk
  = Some (MAMA_STATUS_OK, wire (mSendSubject impl) (mMsgType impl) (mReplyHandle impl) payload).
Proof. apply serialize_bytes. Qed.

(** C6: A message that was serialized is deserialized to the same payload
    and type; the receiver's reply handle is the sender's for a request, the
    subject for a response, and is left as it was for publish/subscribe. *)
Theorem serialize_deserialize setMsgBuffer sender receiver t payload junk :
  msg_ok sender → reply_fits (mSendSubject sender) (mMsgType sender) (mReplyHandle sender) →
  (Z.of_nat (length (t :: payload)) < 2 ^ 31)%Z →
  ∃ wire_bytes,
    zmqBridgeMamaMsgImpl_serialize (Some sender) (MAMA_STATUS_OK, t :: payload) 0 junk
    = Some (MAMA_STATUS_OK, wire_bytes)
    ∧ zmqBridgeMamaMsgImpl_deserialize setMsgBuffer (Some receiver) wire_bytes
      = Some (setMsgBuffer (t :: payload, t),
              Some (mkMsg (mParent receiver) (mMsgType sender)
                      (reply_of (mSendSubject sender) (mMsgType sender) (mReplyHandle sender)
                         (mReplyHandle receiver))
                      (mSendSubject receiver)),
              Some (t :: payload, t)).
Proof.
  intros (Hr & Hrl & Hs & Hsl) Hf Hw. eexists. split.
  - apply serialize_bytes. unfold wire, REPLYHANDLE_CAP, SENDSUBJECT_CAP in *.
    rewrite !length_app. simpl in *. destruct (decide _); simpl; lia.
  - by rewrite deserialize_wire.
Qed.

(** C14: zmqBridgeMamaMsgImpl_deserialize never leaves the received block nor
    the reply handle array exactly on the blocks described by [readable];
    other blocks (no terminator, an oversized reply handle, an empty payload)
    are read or written out of bounds. *)
Theorem deserialize_safe_iff setMsgBuffer impl source :
  (Z.of_nat (length source) < 2 ^ 31)%Z →
  is_Some (zmqBridgeMamaMsgImpl_deserialize setMsgBuffer (Some impl) source) ↔ readable source.
Proof. intros Hw. split; [by apply defined_readable|by apply readable_defined]. Qed.

(** A message object that has received a request and then receives a
    publish/subscribe message keeps the request's reply handle, so
    zmqBridgeMamaMsg_isFromInbox reports the second message as coming from
    an inbox. *)
Theorem stale_reply_handle setMsgBuffer impl subj reply t p subj' t' p' :
  is_cstr subj → is_cstr reply → reply ≠ [] → length reply < REPLYHANDLE_CAP → is_cstr subj' →
  (Z.of_nat (length (t :: p)) < 2 ^ 31)%Z → (Z.of_nat (length (t' :: p')) < 2 ^ 31)%Z →
  ∃ st1 m1 c1 st2 m2,
    zmqBridgeMamaMsgImpl_deserialize setMsgBuffer (Some impl)
      (wire subj ZMQ_MSG_INBOX_REQUEST reply (t :: p)) = Some (st1, m1, c1)
    ∧ zmqBridgeMamaMsgImpl_deserialize setMsgBuffer m1
        (wire subj' ZMQ_MSG_PUB_SUB [] (t' :: p')) = Some (st2, m2, Some (t' :: p', t'))
    ∧ zmqBridgeMamaMsg_isFromInbox m2 = 1%Z
    ∧ zmqBridgeMamaMsg_getReplyHandle m2 = Some reply.
Proof.
  intros H1 H2 Hne H3 H4 H5 H6. do 5 eexists. split_and!.
  - by apply deserialize_wire.
  - apply deserialize_wire; [done|unfold is_cstr; set_solver|vm_compute; lia|done].
  - simpl. by rewrite decide_True.
  - done.
Qed.

End Msg.

Arguments zmqBridgeMsgImpl : clear implicits.

(** ** Concrete messages *)

Section MsgDemo.

Definition demo_reply : list byte :=
  lit "_INBOX.3669840e-d043-11ea-adc2-fcaa146e6b01.000000000000000a".

Definition demo_msg : zmqBridgeMsgImpl nat :=
  mkMsg (Some 1) ZMQ_MSG_INBOX_REQUEST demo_reply (lit "IBM").

Lemma serialize_layout_witness :
  zmqBridgeMamaMsgImpl_serialize (Some demo_msg) (MAMA_STATUS_OK, lit "Vabc") 0 (λ _, x41)
  = Some (MAMA_STATUS_OK, wire (lit "IBM") ZMQ_MSG_INBOX_REQUEST demo_reply (lit "Vabc")).
Proof. apply (serialize_layout demo_msg (lit "Vabc") (λ _, x41)). vm_compute. done. Defined.

Lemma serialize_deserialize_witness :
  ∃ wire_bytes,
    zmqBridgeMamaMsgImpl_serialize (Some demo_msg) (MAMA_STATUS_OK, lit "Vabc") 0 (λ _, x41)
    = Some (MAMA_STATUS_OK, wire_bytes)
    ∧ zmqBridgeMamaMsgImpl_deserialize (λ _, MAMA_STATUS_OK) (Some (zero_msg (Parent := nat))) wire_bytes
      = Some (MAMA_STATUS_OK,
              Some (mkMsg None ZMQ_MSG_INBOX_REQUEST demo_reply []),
              Some (lit "Vabc", x56)).
Proof.
  apply (serialize_deserialize (λ _, MAMA_STATUS_OK) demo_msg zero_msg x56 (lit "abc") (λ _, x41)).
  - split_and!; by_decide.
  - unfold reply_fits. by_decide.
  - vm_compute. done.
Defined.

Lemma deserialize_safe_iff_witness :
  is_Some (zmqBridgeMamaMsgImpl_deserialize (λ _, MAMA_STATUS_OK) (Some (zero_msg (Parent := nat)))
             [x41; x00; x01]) ↔ readable [x41; x00; x01].
Proof. apply (deserialize_safe_iff (λ _, MAMA_STATUS_OK) zero_msg). vm_compute. done. Defined.

Lemma stale_reply_handle_witness :
  ∃ st1 m1 c1 st2 m2,
    zmqBridgeMamaMsgImpl_deserialize (λ _, MAMA_STATUS_OK) (Some (zero_msg (Parent := nat)))
      (wire (lit "IBM") ZMQ_MSG_INBOX_REQUEST demo_reply (lit "Vabc")) = Some (st1, m1, c1)
    ∧ zmqBridgeMamaMsgImpl_deserialize (λ _, MAMA_STATUS_OK) m1
        (wire (lit "MSFT") ZMQ_MSG_PUB_SUB [] (lit "Vdef")) = Some (st2, m2, Some (lit "Vdef", x56))
    ∧ zmqBridgeMamaMsg_isFromInbox m2 = 1%Z
    ∧ zmqBridgeMamaMsg_getReplyHandle m2 = Some demo_reply.
Proof.
  apply (stale_reply_handle (λ _, MAMA_STATUS_OK) zero_msg (lit "IBM") demo_reply x56 (lit "abc")
           (lit "MSFT") x56 (lit "def"));
    by_decide.
Defined.

End MsgDemo.


End ZM.
