(* ===== verification/MsgTypes.v ===== *)
(** * Messages keep their type (src/src/msg.c)

    The arrays of a message are only written through the functions of
    msg.c.  Whatever sequence of them the bridge runs, whatever blocks it
    receives, the arrays hold C strings that fit ([msg_ok]); a sequence is
    undefined only where an argument or a received block does not fit. *)

From S2P Require Import Prelude CLib Msg.
Import ZM.

Module MsgTypes.

Section Types.

Context {Parent : Type} `{!WStr}.
Context (updateString : Parent → list byte → mama_status) (setMsgBuffer : msgBuffer → mama_status).

(** A function that changes a message, with its arguments. *)
Inductive msg_op :=
  | opSetReplyHandle (handle : option (list byte))
  | opSetReplyHandleAndIncrement (handle : option (list byte))
  | opSetMsgType (type : byte)
  | opSetSendSubject (symbol : option (list byte))
  | opDeserialize (source : list byte).

Definition run_op (o : msg_op) (msg : option (zmqBridgeMsgImpl Parent)) : option (option (zmqBridgeMsgImpl Parent)) :=
  match o with
  | opSetReplyHandle h => snd <$> zmqBridgeMamaMsgImpl_setReplyHandle msg h
  | opSetReplyHandleAndIncrement h => snd <$> zmqBridgeMamaMsgImpl_setReplyHandleAndIncrement msg h
  | opSetMsgType t => Some (snd (zmqBridgeMamaMsgImpl_setMsgType msg t))
  | opSetSendSubject s => Some (snd (zmqBridgeMamaMsg_setSendSubject updateString msg s))
  | opDeserialize source => (λ r, snd (fst r)) <$> zmqBridgeMamaMsgImpl_deserialize setMsgBuffer msg source
  end.

Fixpoint run_ops (os : list msg_op) (msg : option (zmqBridgeMsgImpl Parent)) : option (option (zmqBridgeMsgImpl Parent)) :=
  match os with
  | [] => Some msg
  | o :: os' => msg' ← run_op o msg; run_ops os' msg'
  end.

(** The arguments are C strings, and a block has a size that is an [int]. *)
Definition op_typed (o : msg_op) : Prop :=
  match o with
  | opSetReplyHandle (Some h) | opSetReplyHandleAndIncrement (Some h) => is_cstr h
  | opSetSendSubject (Some s) => is_cstr s
  | opDeserialize source => (Z.of_nat (length source) < 2 ^ 31)%Z
  | _ => True
  end.

(** They fit. *)
Definition op_fits (o : msg_op) : Prop :=
  match o with
  | opSetReplyHandle (Some h) | opSetReplyHandleAndIncrement (Some h) => length h < REPLYHANDLE_CAP
  | opDeserialize source => readable source
  | _ => True
  end.

(** ** Preservation *)

Lemma set_reply_ok (impl : zmqBridgeMsgImpl Parent) h :
  is_cstr h → length h < REPLYHANDLE_CAP → msg_ok impl → msg_ok (set_reply h impl).
Proof. intros Hh Hl (_ & _ & Hs). by split. Qed.

Lemma deliver_same (impl : zmqBridgeMsgImpl Parent) source pos st m c :
  deliver_payload setMsgBuffer impl source pos = Some (st, m, c) → m = Some impl.
Proof. unfold deliver_payload. case_decide; [by intros [= _ <- _]|]. destruct (source !! pos); [|done]. by intros [= _ <- _]. Qed.

Lemma deserialize_ok (impl : zmqBridgeMsgImpl Parent) source st m c :
  msg_ok impl → zmqBridgeMamaMsgImpl_deserialize setMsgBuffer (Some impl) source = Some (st, m, c) →
  ∃ impl', m = Some impl' ∧ msg_ok impl'.
Proof.
  intros Hok E. unfold zmqBridgeMamaMsgImpl_deserialize in E.
  destruct (strlen source) as [n|]; [|done]. rewrite bind_some in E.
  destruct (source !! (n + 1)) as [type|]; [|done]. rewrite bind_some in E.
  assert (msg_ok (set_type type impl)) as Ht by exact Hok. case_decide.
  - destruct (cstring (drop (n + 1 + 1) source)) as [h|] eqn:Eh; [|done]. apply cstring_is_cstr in Eh.
    rewrite bind_some in E. destruct (strcpy REPLYHANDLE_CAP h) as [h'|] eqn:Ec; [|done]. apply strcpy_Some in Ec as [-> Hl].
    rewrite !bind_some in E. apply deliver_same in E as ->. eexists. split; [done|]. by apply set_reply_ok.
  - case_decide.
    + destruct (cstring source) as [h|] eqn:Eh; [|done]. apply cstring_is_cstr in Eh.
      rewrite bind_some in E. destruct (strcpy REPLYHANDLE_CAP h) as [h'|] eqn:Ec; [|done]. apply strcpy_Some in Ec as [-> Hl].
      rewrite !bind_some in E. apply deliver_same in E as ->. eexists. split; [done|]. by apply set_reply_ok.
    + rewrite bind_some in E. apply deliver_same in E as ->. by eexists.
Qed.

Lemma setReplyHandle_run (impl : zmqBridgeMsgImpl Parent) h :
  zmqBridgeMamaMsgImpl_setReplyHandle (Some impl) (Some h)
  = if decide (length h < REPLYHANDLE_CAP) then Some (MAMA_STATUS_OK, Some (set_reply h impl)) else None.
Proof. cbn. unfold strcpy. by case_decide. Qed.

(** One function: it is defined exactly when its argument fits, and keeps
    the type. *)
Lemma run_op_typed (impl : zmqBridgeMsgImpl Parent) o :
  msg_ok impl → op_typed o →
  (is_Some (run_op o (Some impl)) ↔ op_fits o)
  ∧ ∀ m, run_op o (Some impl) = Some m → ∃ impl', m = Some impl' ∧ msg_ok impl'.
Proof.
  intros Hok Ho.
  assert (∀ h, is_cstr h →
    (is_Some (snd <$> zmqBridgeMamaMsgImpl_setReplyHandle (Some impl) (Some h)) ↔ length h < REPLYHANDLE_CAP)
    ∧ ∀ m, snd <$> zmqBridgeMamaMsgImpl_setReplyHandle (Some impl) (Some h) = Some m →
        ∃ impl', m = Some impl' ∧ msg_ok impl') as Hset.
  { intros h Hh. rewrite setReplyHandle_run. case_decide as Hl; cbn.
    - split; [by split|]. intros m [= <-]. eexists. split; [done|]. by apply set_reply_ok.
    - split; [|done]. split; [by intros []|done]. }
  destruct o as [[h|]|[h|]|t|[s|]|source]; cbn [run_op op_fits op_typed] in *.
  - by apply Hset.
  - split; [by split|]. intros m [= <-]. eauto.
  - by apply Hset.
  - split; [by split|]. intros m [= <-]. eauto.
  - split; [by split|]. intros m [= <-]. eexists. split; [done|]. exact Hok.
  - split; [by split|]. intros m. unfold zmqBridgeMamaMsg_setSendSubject. destruct (wmStrSizeCpy s SENDSUBJECT_CAP) as [n s'] eqn:Ew.
    pose proof (wstr_take s SENDSUBJECT_CAP) as Et. rewrite Ew in Et. cbn [snd] in Et.
    assert (msg_ok (set_subject s' impl)) as Hok'.
    { rewrite Et by (unfold SENDSUBJECT_CAP; lia). destruct Hok as (? & ? & _). split_and!; [done|done|by apply is_cstr_take|].
      cbn. rewrite length_take. unfold SENDSUBJECT_CAP. lia. }
    repeat case_match; intros [= <-]; by eexists.
  - split; [by split|]. intros m [= <-]. eauto.
  - split.
    + rewrite fmap_is_Some. split; [by apply defined_readable|by apply readable_defined].
    + intros m. rewrite fmap_Some. intros ([[st m'] c] & E & ->). by eapply deserialize_ok.
Qed.

Lemma run_ops_typed os (impl : zmqBridgeMsgImpl Parent) :
  msg_ok impl → Forall op_typed os →
  (is_Some (run_ops os (Some impl)) ↔ Forall op_fits os)
  ∧ ∀ m, run_ops os (Some impl) = Some m → ∃ impl', m = Some impl' ∧ msg_ok impl'.
Proof.
  intros Hok Hos. revert impl Hok. induction Hos as [|o os Ho Hos IH]; intros impl Hok; cbn [run_ops].
  - split; [by split|]. intros m [= <-]. eauto.
  - destruct (run_op_typed impl o Hok Ho) as [Hd Hp]. rewrite Forall_cons. destruct (run_op o (Some impl)) as [m|] eqn:E.
    + destruct (Hp m eq_refl) as (impl' & -> & Hok'). rewrite bind_some. destruct (IH impl' Hok') as [Hd' Hp'].
      split; [|done]. rewrite Hd'. assert (op_fits o) by by apply Hd. tauto.
    + split; [|done]. split; [by intros []|]. intros [Hf _]. apply Hd in Hf as []. done.
Qed.

(** C15: messages are well typed. From its creation on, whatever functions are
    run on a message and whatever blocks are received into it, they are
    defined exactly when each string and each block fits; then the arrays of
    the message hold C strings within their capacities, and its
    serialization is defined and has the documented format. *)
Theorem msg_typed os impl :
  snd (zmqBridgeMamaMsgImpl_createMsgOnly true true) = Some impl → Forall op_typed os →
  (is_Some (run_ops os (Some impl)) ↔ Forall op_fits os)
  ∧ ∀ m, run_ops os (Some impl) = Some m →
      ∃ impl', m = Some impl' ∧ msg_ok impl'
        ∧ ∀ payload junk, (Z.of_nat (length payload) < 2 ^ 63)%Z →
            zmqBridgeMamaMsgImpl_serialize (Some impl') (MAMA_STATUS_OK, payload) 0 junk
            = Some (MAMA_STATUS_OK, wire (mSendSubject impl') (mMsgType impl') (mReplyHandle impl') payload).
Proof.
  intros [= <-] Hos. assert (msg_ok (zmqBridgeMamaMsgImpl_init (Parent := Parent) zero_msg)) as Hok.
  { unfold msg_ok, is_cstr. cbn. unfold REPLYHANDLE_CAP, SENDSUBJECT_CAP. split_and!; [set_solver|lia|set_solver|lia]. }
  destruct (run_ops_typed os _ Hok Hos) as [Hd Hp]. split; [done|]. intros m E. destruct (Hp m E) as (impl' & -> & Hok').
  exists impl'. split; [done|]. split; [done|]. intros payload junk Hl. apply serialize_bytes.
  destruct Hok' as (_ & Hr & _ & Hs). change REPLYHANDLE_CAP with 61 in Hr. change SENDSUBJECT_CAP with 257 in Hs.
  unfold wire. rewrite !length_app. cbn [length]. destruct (decide _); cbn [length]; rewrite ?length_app; cbn [length]; lia.
Qed.

End Types.

Lemma msg_typed_witness :
  is_Some (run_ops (Parent := nat) (λ _ _, MAMA_STATUS_OK) (λ _, MAMA_STATUS_OK)
    [opSetSendSubject (Some (lit "a/b")); opSetMsgType ZMQ_MSG_INBOX_REQUEST; opSetReplyHandle (Some demo_reply);
     opDeserialize (lit "x" ++ [NUL; ZMQ_MSG_PUB_SUB])] (Some (zmqBridgeMamaMsgImpl_init zero_msg))).
Proof.
  apply (msg_typed (Parent := nat) (λ _ _, MAMA_STATUS_OK) (λ _, MAMA_STATUS_OK)); [done| |].
  - repeat constructor; by_decide.
  - rewrite !Forall_cons; split_and!; try done; [vm_compute; lia|]. apply (readable_other (lit "x") ZMQ_MSG_PUB_SUB []); by_decide.
Defined.

End MsgTypes.
