(* ===== verification/Util.v ===== *)
(** * Identifiers, socket events and log levels (src/src/util.c) *)

From S2P Require Import Prelude CLib Msg.
Import ZM.

Module ZU.

(** ** Serial numbers *)

(** [zmqBridge_generateSerial]: the counter is incremented atomically, the
    result is its 64-bit value in 16 hexadecimal digits (the array [temp]
    has room for exactly these and the terminator).  The new counter is the
    second component. *)
Definition zmqBridge_generateSerial (id : Z) : list byte * Z :=
  let next := wrapu 64 (id + 1) in
  (hexn ZMQ_REPLYHANDLE_INBOXNAME_SIZE next, next).

(** The serials of [n] successive calls. *)
Fixpoint serials (n : nat) (id : Z) : list (list byte) :=
  match n with
  | 0 => []
  | S n' => let '(s, id') := zmqBridge_generateSerial id in s :: serials n' id'
  end.

Lemma serial_ok id :
  is_cstr (fst (zmqBridge_generateSerial id))
  ∧ length (fst (zmqBridge_generateSerial id)) = ZMQ_REPLYHANDLE_INBOXNAME_SIZE.
Proof. split; [apply hexn_is_cstr|apply length_hexn]. Qed.

Lemma wrapu64_range z : (0 <= wrapu 64 z < 16 ^ 16)%Z.
Proof. unfold wrapu. change (16 ^ 16)%Z with (2 ^ 64)%Z. apply Z.mod_pos_bound. lia. Qed.

Lemma elem_of_serials n id s :
  s ∈ serials n id → ∃ k : nat, (1 ≤ k ≤ n) ∧ s = hexn 16 (wrapu 64 (id + Z.of_nat k)).
Proof.
  revert id. induction n as [|n IH]; intros id; cbn [serials].
  - set_solver.
  - unfold zmqBridge_generateSerial. intros [->|Hs]%elem_of_cons.
    + exists 1. split; [lia|done].
    + apply IH in Hs as (k & Hk & ->). exists (S k). split; [lia|]. f_equal.
      unfold wrapu. rewrite Zplus_mod_idemp_l. f_equal. lia.
Qed.

(** Successive calls of zmqBridge_generateSerial on one counter return
    pairwise different identifiers, for up to 2^64 calls from any initial
    value, wrap-around of the counter included. *)
Theorem serials_unique n id :
  (Z.of_nat n <= 2 ^ 64)%Z → NoDup (serials n id).
Proof.
  revert id. induction n as [|n IH]; intros id Hn; cbn [serials]; [apply NoDup_nil_2|].
  unfold zmqBridge_generateSerial at 1. apply NoDup_cons. split; [|apply IH; lia].
  intros (k & Hk & E)%elem_of_serials. change ZMQ_REPLYHANDLE_INBOXNAME_SIZE with 16 in E.
  apply (hexn_inj 16) in E; [|apply wrapu64_range..].
  unfold wrapu in E. rewrite Zplus_mod_idemp_l in E.
  apply (f_equal (λ x, (x - (id + 1)) mod 2 ^ 64)%Z) in E.
  rewrite !Zminus_mod_idemp_l in E.
  replace (id + 1 - (id + 1))%Z with 0%Z in E by lia.
  replace (id + 1 + Z.of_nat k - (id + 1))%Z with (Z.of_nat k) in E by lia.
  rewrite (Z.mod_small (Z.of_nat k)) in E by lia. rewrite Z.mod_0_l in E by lia. lia.
Qed.

Lemma serials_unique_witness : NoDup (serials 3 (2 ^ 64 - 2)).
Proof. apply (serials_unique 3). lia. Defined.

(** ** Socket monitor events *)

Inductive MamaLogLevel :=
  | MAMA_LOG_LEVEL_OFF | MAMA_LOG_LEVEL_SEVERE | MAMA_LOG_LEVEL_ERROR | MAMA_LOG_LEVEL_WARN
  | MAMA_LOG_LEVEL_NORMAL | MAMA_LOG_LEVEL_FINE | MAMA_LOG_LEVEL_FINER | MAMA_LOG_LEVEL_FINEST.

#[export] Instance MamaLogLevel_eq_dec : EqDecision MamaLogLevel.
Proof. solve_decision. Defined.

(** The order of the levels: a message is logged when its level is at most
    the configured one. *)
Definition verbosity (l : MamaLogLevel) : nat :=
  match l with
  | MAMA_LOG_LEVEL_OFF => 0 | MAMA_LOG_LEVEL_SEVERE => 1 | MAMA_LOG_LEVEL_ERROR => 2
  | MAMA_LOG_LEVEL_WARN => 3 | MAMA_LOG_LEVEL_NORMAL => 4 | MAMA_LOG_LEVEL_FINE => 5
  | MAMA_LOG_LEVEL_FINER => 6 | MAMA_LOG_LEVEL_FINEST => 7
  end.

Inductive zmqEvent :=
  | CONNECTED | CONNECT_DELAYED | CONNECT_RETRIED | LISTENING | BIND_FAILED | ACCEPTED
  | ACCEPT_FAILED | CLOSED | CLOSE_FAILED | DISCONNECTED | MONITOR_STOPPED
  | HANDSHAKE_FAILED_NO_DETAIL | HANDSHAKE_SUCCEEDED | HANDSHAKE_FAILED_PROTOCOL
  | HANDSHAKE_FAILED_AUTH.

#[export] Instance zmqEvent_eq_dec : EqDecision zmqEvent.
Proof. solve_decision. Defined.

Definition all_events : list zmqEvent :=
  [CONNECTED; CONNECT_DELAYED; CONNECT_RETRIED; LISTENING; BIND_FAILED; ACCEPTED;
   ACCEPT_FAILED; CLOSED; CLOSE_FAILED; DISCONNECTED; MONITOR_STOPPED;
   HANDSHAKE_FAILED_NO_DETAIL; HANDSHAKE_SUCCEEDED; HANDSHAKE_FAILED_PROTOCOL;
   HANDSHAKE_FAILED_AUTH].

(** The constants ZMQ_EVENT_* of zmq.h: one bit each ([event_bit]), all
    different.  The last four are also defined in util.c. *)
Class EventBits := {
  event_bit : zmqEvent → Z;
  event_bit_range e : (0 <= event_bit e < 64)%Z;
  event_bit_inj e e' : event_bit e = event_bit e' → e = e' }.

Section Events.

Context `{EventBits}.

Definition event_code (e : zmqEvent) : Z := Z.shiftl 1 (event_bit e).

(** The [case] labels of the three switches. *)
Definition event_of (code : Z) : option zmqEvent :=
  List.find (λ e, (event_code e =? code)%Z) all_events.

Definition get_zmqEventName (event : Z) : list byte :=
  match event_of event with
  | Some CONNECTED => lit "CONNECTED"
  | Some CONNECT_DELAYED => lit "CONNECT_DELAYED"
  | Some CONNECT_RETRIED => lit "CONNECT_RETRIED"
  | Some LISTENING => lit "LISTENING"
  | Some BIND_FAILED => lit "BIND_FAILED"
  | Some ACCEPTED => lit "ACCEPTED"
  | Some ACCEPT_FAILED => lit "ACCEPT_FAILED"
  | Some CLOSED => lit "CLOSED"
  | Some CLOSE_FAILED => lit "CLOSE_FAILED"
  | Some DISCONNECTED => lit "DISCONNECTED"
  | Some MONITOR_STOPPED => lit "MONITOR_STOPPED"
  | Some HANDSHAKE_FAILED_NO_DETAIL => lit "HANDSHAKE_FAILED_NO_DETAIL"
  | Some HANDSHAKE_SUCCEEDED => lit "HANDSHAKE_SUCCEEDED"
  | Some HANDSHAKE_FAILED_PROTOCOL => lit "HANDSHAKE_FAILED_PROTOCOL"
  | Some HANDSHAKE_FAILED_AUTH => lit "HANDSHAKE_FAILED_AUTH"
  | None => lit "UNKNOWN"
  end.

Definition get_zmqEventLogLevel (event : Z) : MamaLogLevel :=
  match event_of event with
  | Some CONNECTED => MAMA_LOG_LEVEL_NORMAL
  | Some CONNECT_DELAYED => MAMA_LOG_LEVEL_FINER
  | Some CONNECT_RETRIED => MAMA_LOG_LEVEL_FINE
  | Some LISTENING => MAMA_LOG_LEVEL_NORMAL
  | Some BIND_FAILED => MAMA_LOG_LEVEL_ERROR
  | Some ACCEPTED => MAMA_LOG_LEVEL_NORMAL
  | Some ACCEPT_FAILED => MAMA_LOG_LEVEL_ERROR
  | Some CLOSED => MAMA_LOG_LEVEL_NORMAL
  | Some CLOSE_FAILED => MAMA_LOG_LEVEL_ERROR
  | Some DISCONNECTED => MAMA_LOG_LEVEL_NORMAL
  | Some MONITOR_STOPPED => MAMA_LOG_LEVEL_FINE
  | Some HANDSHAKE_FAILED_NO_DETAIL => MAMA_LOG_LEVEL_ERROR
  | Some HANDSHAKE_SUCCEEDED => MAMA_LOG_LEVEL_NORMAL
  | Some HANDSHAKE_FAILED_PROTOCOL => MAMA_LOG_LEVEL_ERROR
  | Some HANDSHAKE_FAILED_AUTH => MAMA_LOG_LEVEL_ERROR
  | None => MAMA_LOG_LEVEL_ERROR
  end.

(** [eventMask |= e] for the events of a list. *)
Definition or_events (es : list zmqEvent) (m : Z) : Z :=
  fold_left (λ m e, Z.lor m (event_code e)) es m.

(** The [case] groups; control falls through from one to the next. *)
Definition case_error (m : Z) : Z :=
  or_events [BIND_FAILED; ACCEPT_FAILED; CLOSE_FAILED; HANDSHAKE_FAILED_NO_DETAIL;
             HANDSHAKE_FAILED_PROTOCOL; HANDSHAKE_FAILED_AUTH] m.
Definition case_normal (m : Z) : Z :=
  case_error (or_events [CONNECTED; ACCEPTED; DISCONNECTED; HANDSHAKE_SUCCEEDED; LISTENING; CLOSED] m).
Definition case_fine (m : Z) : Z :=
  case_normal (or_events [CONNECT_RETRIED; MONITOR_STOPPED] m).
Definition case_finer (m : Z) : Z := case_fine (or_events [CONNECT_DELAYED] m).

Definition get_zmqEventMask (logLevel : MamaLogLevel) : Z :=
  match logLevel with
  | MAMA_LOG_LEVEL_FINEST => case_finer 0
  | MAMA_LOG_LEVEL_FINER => case_finer 0
  | MAMA_LOG_LEVEL_FINE => case_fine 0
  | MAMA_LOG_LEVEL_NORMAL => case_normal 0
  | MAMA_LOG_LEVEL_ERROR => case_error 0
  | _ => 0
  end.

Lemma event_code_inj e e' : event_code e = event_code e' → e = e'.
Proof.
  unfold event_code. intros E. apply event_bit_inj.
  apply (f_equal (λ z, Z.testbit z (event_bit e'))) in E.
  pose proof (event_bit_range e). pose proof (event_bit_range e').
  rewrite !Z.shiftl_1_l, Z.pow2_bits_true, Z.pow2_bits_eqb in E by lia.
  by apply Z.eqb_eq in E.
Qed.

Lemma event_of_code e : event_of (event_code e) = Some e.
Proof.
  unfold event_of. destruct (List.find _ all_events) as [e'|] eqn:E.
  - apply List.find_some in E as [_ E%Z.eqb_eq]. f_equal. by apply event_code_inj.
  - apply List.find_none with (x := e) in E; [by rewrite Z.eqb_refl in E|].
    destruct e; simpl; tauto.
Qed.

Lemma or_events_bit es m e :
  Z.testbit (or_events es m) (event_bit e) = Z.testbit m (event_bit e) || bool_decide (e ∈ es).
Proof.
  revert m. induction es as [|x es IH]; intros m; simpl.
  - by rewrite orb_false_r.
  - rewrite IH, Z.lor_spec. unfold event_code. pose proof (event_bit_range x).
    rewrite Z.shiftl_1_l, Z.pow2_bits_eqb by lia.
    destruct (decide (e = x)) as [->|Hne].
    + rewrite Z.eqb_refl, orb_true_r. by rewrite (bool_decide_eq_true_2 (x ∈ x :: es)), orb_true_r by set_solver.
    + rewrite (proj2 (Z.eqb_neq (event_bit x) (event_bit e))), orb_false_r
        by (intros ?%event_bit_inj; congruence).
      f_equal. apply bool_decide_ext. set_solver.
Qed.

(** The event mask and the event log levels are synchronized: at every
    log level but WARN the mask asks for exactly the events whose level is
    logged there; at WARN it is empty although the error events are logged. *)
Theorem eventMask_sync l e :
  Z.testbit (get_zmqEventMask l) (event_bit e)
  = bool_decide (l ≠ MAMA_LOG_LEVEL_WARN)
    && (verbosity (get_zmqEventLogLevel (event_code e)) <=? verbosity l).
Proof.
  unfold get_zmqEventLogLevel. rewrite event_of_code.
  unfold get_zmqEventMask, case_finer, case_fine, case_normal, case_error.
  destruct l; rewrite ?or_events_bit, Z.bits_0; by destruct e.
Qed.

End Events.

(** The values of zmq.h. *)
#[export] Instance zmq_event_bits : EventBits.
Proof.
  refine {| event_bit e :=
    match e with
    | CONNECTED => 0 | CONNECT_DELAYED => 1 | CONNECT_RETRIED => 2 | LISTENING => 3
    | BIND_FAILED => 4 | ACCEPTED => 5 | ACCEPT_FAILED => 6 | CLOSED => 7 | CLOSE_FAILED => 8
    | DISCONNECTED => 9 | MONITOR_STOPPED => 10 | HANDSHAKE_FAILED_NO_DETAIL => 11
    | HANDSHAKE_SUCCEEDED => 12 | HANDSHAKE_FAILED_PROTOCOL => 13 | HANDSHAKE_FAILED_AUTH => 14
    end%Z |}; [by intros []|by intros [] []].
Defined.

Lemma eventMask_sync_witness :
  Z.testbit (get_zmqEventMask MAMA_LOG_LEVEL_FINE) 10 = true ∧
  get_zmqEventMask MAMA_LOG_LEVEL_FINE = 0x7ffd%Z.
Proof.
  split; [|reflexivity].
  exact (eventMask_sync (H := zmq_event_bits) MAMA_LOG_LEVEL_FINE MONITOR_STOPPED).
Defined.

(** ** Naming log level and time *)

Definition getNamingLogLevel (log_level_beacon log_level_naming : MamaLogLevel) (mType : byte)
    : MamaLogLevel :=
  if decide (mType = x63) then log_level_beacon else log_level_naming.

(** [tv] is the answer of [gettimeofday]. *)
Definition getMillis (tv : Z * Z) : Z := wrapu 64 (wrapu 64 (fst tv * 1000) + snd tv / 1000).

End ZU.
