(* ===== verification/Subject.v ===== *)
(** * Topic names (src/src/subscription.c)

    The subject key of a subscription or publisher, built with [snprintf] in
    an array on the stack, and the zmq prefix of a wildcard subscription,
    cut out of its regular expression. *)

From S2P Require Import Prelude CLib Msg.
Import ZM.

Module Subj.

(** ** Subject keys *)

(** The array [subject], [subjectPos] as an offset, [bytesRemaining]. *)
Record keybuf := mkKey { kb_buf : list byte; kb_pos : nat; kb_rem : Z }.

(** [snprintf (buf + pos, n, ...)] with the formatted text [s]: at most
    [n - 1] characters and a terminator, nothing when [n] is zero. *)
Definition snprintf (buf : list byte) (pos : nat) (n : Z) (s : list byte) : option (list byte) :=
  if decide (n = 0)%Z then Some buf
  else poke buf pos (take (Z.to_nat (Z.min (n - 1) (Z.of_nat (length s)))) s ++ [NUL]).

(** [written = snprintf (...); subjectPos += written; bytesRemaining -= written]. *)
Definition print (st : keybuf) (s : list byte) : option keybuf :=
  b ← snprintf (kb_buf st) (kb_pos st) (kb_rem st) s;
  Some (mkKey b (kb_pos st + length s) (size64 (kb_rem st - Z.of_nat (length s)))).

(** The text printed for [source] or [topic]: preceded by a period unless
    [subjectPos == subject]. *)
Definition with_period (st : keybuf) (s : list byte) : list byte :=
  if decide (kb_pos st ≠ 0) then x2e :: s else s.

Definition print_opt (st : keybuf) (s : option (list byte)) : option keybuf :=
  match s with None => Some st | Some s => print st (with_period st s) end.

(** The key, with the array's initial contents [junk] ([strdup] succeeds). *)
Definition zmqBridgeMamaSubscriptionImpl_generateSubjectKey (junk : nat → byte)
    (root source topic : option (list byte)) : option (list byte) :=
  let st0 := mkKey (fresh junk (MAX_SUBJECT_LENGTH + 1)) 0 (Z.of_nat MAX_SUBJECT_LENGTH) in
  st1 ← (match root with None => Some st0 | Some r => print st0 r end);
  st2 ← print_opt st1 source;
  b ← (match topic with
       | None => Some (kb_buf st2)
       | Some t => snprintf (kb_buf st2) (kb_pos st2) (kb_rem st2) (with_period st2 t)
       end);
  cstring b.

(** Specification: the parts that are present, joined with periods. *)
Definition join (a : list byte) (s : option (list byte)) : list byte :=
  match s with
  | None => a
  | Some s => match a with [] => s | _ => a ++ x2e :: s end
  end.

(** The array holds (the first 255 characters of) [s]; [started] is whether
    anything was printed. *)
Record shows (st : keybuf) (s : list byte) (started : bool) : Prop := {
  sh_pos : kb_pos st = length s;
  sh_rem : kb_rem st = size64 (Z.of_nat MAX_SUBJECT_LENGTH - Z.of_nat (length s));
  sh_len : length (kb_buf st) = MAX_SUBJECT_LENGTH + 1;
  sh_buf : ∃ rest, kb_buf st = take 255 s ++ rest ∧ (started = true → ∃ r, rest = NUL :: r);
  sh_empty : started = false → s = [] }.

Lemma snprintf_ok st s started t :
  shows st s started → length s ≤ MAX_SUBJECT_LENGTH →
  ∃ b rest, snprintf (kb_buf st) (kb_pos st) (kb_rem st) t = Some b
    ∧ length b = MAX_SUBJECT_LENGTH + 1 ∧ b = take 255 (s ++ t) ++ NUL :: rest.
Proof.
  unfold MAX_SUBJECT_LENGTH. intros [Hp Hr Hl (rest & Hb & Hs) He] Hle.
  unfold MAX_SUBJECT_LENGTH in *. rewrite wrapu_id in Hr by lia. unfold snprintf. rewrite Hr, Hp.
  destruct (decide (Z.of_nat 256 - Z.of_nat (length s) = 0)%Z).
  - destruct started; [|rewrite He in * by done; simpl in *; lia].
    destruct (Hs eq_refl) as [r ->]. exists (kb_buf st), r. split_and!; [done|done|].
    rewrite Hb. by rewrite take_app_le by lia.
  - rewrite (take_ge s) in Hb by lia.
    assert (length (take (Z.to_nat (Z.min (Z.of_nat 256 - Z.of_nat (length s) - 1) (Z.of_nat (length t)))) t)
            = Nat.min (255 - length s) (length t)) as Ht by (rewrite length_take; lia).
    set (t' := take _ t) in *. rewrite Hb. rewrite Hb, length_app in Hl.
    rewrite poke_next by (rewrite length_app; simpl; lia).
    do 2 eexists. split_and!; [reflexivity| |].
    + rewrite !length_app, length_drop, ?length_app. simpl. simpl in Hl. lia.
    + rewrite <-!app_assoc. simpl. rewrite app_assoc. f_equal.
      rewrite take_app, (take_ge s) by lia. f_equal. unfold t'.
      destruct (decide (length t ≤ 255 - length s)).
      * by rewrite !take_ge by lia.
      * f_equal. lia.
Qed.

Lemma snprintf_overrun st s started t :
  shows st s started → MAX_SUBJECT_LENGTH < length s → (Z.of_nat (length s) < 2 ^ 63)%Z →
  snprintf (kb_buf st) (kb_pos st) (kb_rem st) t = None.
Proof.
  intros [Hp Hr Hl _ _] Hlt Hw. unfold MAX_SUBJECT_LENGTH in *.
  assert (kb_rem st = 2 ^ 64 + Z.of_nat 256 - Z.of_nat (length s))%Z as Hr'.
  { rewrite Hr. unfold wrapu. symmetry. apply (Z.mod_unique_pos _ _ (-1)); lia. }
  unfold snprintf. rewrite Hr'. rewrite decide_False by lia.
  unfold poke. rewrite decide_False; [done|]. rewrite Hl, Hp, length_app. simpl. lia.
Qed.

Lemma print_shows st s started t :
  shows st s started → length s ≤ MAX_SUBJECT_LENGTH →
  ∃ st', print st t = Some st' ∧ shows st' (s ++ t) true.
Proof.
  intros Hsh Hle. destruct (snprintf_ok st s started t Hsh Hle) as (b & rest & E & Hl & Hb).
  destruct Hsh as [Hp Hr _ _ _]. unfold print. rewrite E, bind_some. eexists. split; [done|].
  split; simpl.
  - rewrite length_app. lia.
  - rewrite Hr, length_app. unfold wrapu. rewrite Zminus_mod_idemp_l. f_equal. lia.
  - done.
  - exists (NUL :: rest). eauto.
  - done.
Qed.

Lemma join_with_period st s started t :
  shows st s started → s ++ with_period st t = join s (Some t).
Proof.
  intros [Hp _ _ _ _]. unfold with_period. rewrite Hp. by destruct s.
Qed.

Lemma print_opt_shows st s started t :
  shows st s started → length s ≤ MAX_SUBJECT_LENGTH →
  ∃ st', print_opt st t = Some st'
    ∧ shows st' (join s t) (started || bool_decide (is_Some t)).
Proof.
  intros Hsh Hle. destruct t as [t|]; simpl.
  - destruct (print_shows st s started (with_period st t) Hsh Hle) as (st' & E & Hsh').
    exists st'. split; [done|]. rewrite (join_with_period _ _ _ _ Hsh) in Hsh'.
    by rewrite orb_true_r.
  - exists st. split; [done|]. by rewrite orb_false_r.
Qed.

(** What was printed is read back by [strdup]. *)
Lemma shows_key st s : shows st s true → is_cstr s → cstring (kb_buf st) = Some (take 255 s).
Proof.
  intros [_ _ _ (rest & -> & Hs) _] Hc. destruct (Hs eq_refl) as [r ->].
  apply cstring_cstr. by apply is_cstr_take.
Qed.

Definition opt_cstr (s : option (list byte)) : Prop := from_option is_cstr True s.

Lemma join_is_cstr a s : is_cstr a → opt_cstr s → is_cstr (join a s).
Proof.
  destruct s as [s|], a as [|x a]; simpl; try done. intros Ha Hs.
  change (x :: a ++ x2e :: s) with ((x :: a) ++ [x2e] ++ s). rewrite !is_cstr_app.
  split_and!; [done|unfold is_cstr; by rewrite list_elem_of_singleton|done].
Qed.

(** Keys of the callers in the bridge: no root, a source or a topic. *)
Definition subject_parts_ok (source topic : option (list byte)) : Prop :=
  opt_cstr source ∧ opt_cstr topic ∧ (is_Some source ∨ is_Some topic)
  ∧ (Z.of_nat (length (join [] source)) < 2 ^ 63)%Z.

Lemma shows_init junk :
  shows (mkKey (fresh junk (MAX_SUBJECT_LENGTH + 1)) 0 (Z.of_nat MAX_SUBJECT_LENGTH)) [] false.
Proof.
  split; try done; simpl kb_buf. by exists (fresh junk (MAX_SUBJECT_LENGTH + 1)).
Qed.

(** A key is a C string. *)
Lemma subject_key_cstr junk root source topic key :
  zmqBridgeMamaSubscriptionImpl_generateSubjectKey junk root source topic = Some key → is_cstr key.
Proof.
  unfold zmqBridgeMamaSubscriptionImpl_generateSubjectKey.
  destruct (match root with None => _ | Some _ => _ end) as [st1|]; simpl; [|done].
  destruct (print_opt st1 source) as [st2|]; simpl; [|done].
  destruct (match topic with None => _ | Some _ => _ end) as [b|]; simpl; [|done].
  apply cstring_is_cstr.
Qed.

(** C39: zmqBridgeMamaSubscriptionImpl_generateSubjectKey returns the source
    and the topic joined with a period, truncated to 255 characters; when
    the source is longer than 256 characters and there is a topic, the
    unsigned remaining size wraps around and the topic is written outside
    the array. *)
Theorem subject_key_spec junk source topic :
  subject_parts_ok source topic →
  zmqBridgeMamaSubscriptionImpl_generateSubjectKey junk None source topic
  = if decide (is_Some topic ∧ MAX_SUBJECT_LENGTH < length (join [] source))
    then None else Some (take 255 (join (join [] source) topic)).
Proof.
  intros (Hs & Ht & Hsome & Hw). unfold zmqBridgeMamaSubscriptionImpl_generateSubjectKey.
  rewrite bind_some. pose proof (shows_init junk) as H0.
  destruct (print_opt_shows _ _ _ source H0) as (st2 & E & Hsh2); [simpl; lia|].
  rewrite E, bind_some.
  assert (is_cstr (join [] source)) as Hc by (apply join_is_cstr; [unfold is_cstr; set_solver|done]).
  destruct topic as [t|].
  - destruct (decide _) as [[_ Hlt]|Hn].
    + by rewrite (snprintf_overrun _ _ _ _ Hsh2 Hlt Hw).
    + assert (length (join [] source) ≤ MAX_SUBJECT_LENGTH) as Hle.
      { apply not_lt. intros ?. apply Hn. split; [eauto|lia]. }
      destruct (snprintf_ok _ _ _ (with_period st2 t) Hsh2 Hle) as (b & rest & E' & _ & ->).
      rewrite E', bind_some. rewrite (join_with_period _ _ _ _ Hsh2).
      apply cstring_cstr, is_cstr_take. by apply join_is_cstr.
  - destruct Hsome as [Hsome|[? ?]]; [|done]. rewrite bool_decide_eq_true_2 in Hsh2 by done.
    rewrite bind_some. rewrite (shows_key _ _ Hsh2 Hc).
    destruct (decide _) as [[[? ?] _]|_]; done.
Qed.

Lemma subject_key_spec_witness :
  zmqBridgeMamaSubscriptionImpl_generateSubjectKey (λ _, x41) None (Some (lit "NYSE")) (Some (lit "IBM"))
  = Some (lit "NYSE.IBM").
Proof. apply (subject_key_spec (λ _, x41) (Some (lit "NYSE")) (Some (lit "IBM"))).
  split_and!; [by_decide|by_decide|left; eauto|by_decide].
Defined.

(** ** Wildcard prefixes *)

Definition WILD : list byte := lit "[^/]+".
Definition SUPER : list byte := lit "/.*".

(** The part of [zmqBridgeMamaSubscription_createWildCard] that computes
    [prefix] from [mOrigRegex].  [prefix] points into a copy of the regular
    expression, at offset 0 or 1, so [&prefix[l-3]] is the third character
    from the end of the copy: outside it when the expression is shorter. *)
Definition wildcard_prefix (orig : list byte) : option (list byte) :=
  let prefix := match orig with
                | c :: r => if decide (c = x5e) then r else orig
                | [] => orig
                end in
  match strstr prefix WILD with
  | Some n => Some (take n prefix)
  | None =>
      let l := length prefix in
      if decide (length orig < 3) then None
      else if decide (drop (length orig - 3) orig = SUPER) then Some (take (l - 2) prefix)
      else Some prefix
  end.

(** The expressions MAMA generates for wildcard topics: characters that stand
    for themselves, [[^/]+] for a part of a topic, a trailing [/.*]. *)
Inductive token := tChar (c : byte) | tWild.

Definition special : list byte := lit "^.[]$()|*+?{}\".

Record pattern := mkPattern { p_tokens : list token; p_super : bool }.

Fixpoint render_tokens (ts : list token) : list byte :=
  match ts with
  | [] => []
  | tChar c :: ts' => c :: render_tokens ts'
  | tWild :: ts' => WILD ++ render_tokens ts'
  end.

Definition render (p : pattern) : list byte :=
  x5e :: render_tokens (p_tokens p) ++ (if p_super p then SUPER else []).

Definition token_ok (t : token) : Prop :=
  match t with tChar c => c ∉ special | tWild => True end.

Definition pattern_ok (p : pattern) : Prop := Forall token_ok (p_tokens p).

(** The subjects a pattern matches: a prefix of the subject matches the
    expression (there is no end anchor). *)
Inductive matches : list token → bool → list byte → Prop :=
  | m_end s : matches [] false s
  | m_super s : matches [] true (x2f :: s)
  | m_char c ts sup s : matches ts sup s → matches (tChar c :: ts) sup (c :: s)
  | m_wild w ts sup s :
      w ≠ [] → x2f ∉ w → matches ts sup s → matches (tWild :: ts) sup (w ++ s).

Lemma is_prefix_nil_r p : is_prefix p [] = true → p = [].
Proof. by destruct p. Qed.

(** The characters before the first wildcard. *)
Fixpoint literal_prefix (ts : list token) : list byte :=
  match ts with
  | tChar c :: ts' => c :: literal_prefix ts'
  | _ => []
  end.

Fixpoint has_wild (ts : list token) : bool :=
  match ts with [] => false | tWild :: _ => true | tChar _ :: ts' => has_wild ts' end.

Lemma matches_literal ts sup s :
  matches ts sup s → ∃ r, s = literal_prefix ts ++ r ∧
    (has_wild ts = false → sup = true → ∃ r', r = x2f :: r').
Proof.
  induction 1 as [s|s|c ts sup s _ (r & -> & Hr)|w ts sup s Hw Hn _ _]; simpl.
  - by exists s.
  - eexists. split; [done|eauto].
  - exists r. split; [done|]. done.
  - eexists. split; [done|done].
Qed.

Lemma not_special c : c ∉ special → c ≠ x5b ∧ c ≠ x2a ∧ c ≠ x5e.
Proof. intros H. split_and!; intros ->; apply H; by_decide. Qed.

(** [strstr] finds the first wildcard of a rendered pattern. *)
Lemma strstr_render ts (sup : bool) :
  Forall token_ok ts →
  strstr (render_tokens ts ++ (if sup then SUPER else [])) WILD
  = if has_wild ts then Some (length (literal_prefix ts)) else None.
Proof.
  induction 1 as [|t ts' Ht Hts' IH]; [by destruct sup|].
  destruct t as [c|]; [|done]. cbn [render_tokens app has_wild literal_prefix].
  destruct (not_special c Ht) as (Hc & _ & _). cbn [strstr].
  assert (is_prefix WILD (c :: render_tokens ts' ++ (if sup then SUPER else [])) = false) as ->.
  { cbn. by destruct (decide (x5b = c)). }
  rewrite IH. by destruct (has_wild ts').
Qed.

Lemma render_literal ts : ∃ r, render_tokens ts = literal_prefix ts ++ r ∧ (has_wild ts = false → r = []).
Proof.
  induction ts as [|[c|] ts' (r & E & Hr)]; simpl.
  - by exists [].
  - exists r. rewrite E. done.
  - eexists. split; [done|done].
Qed.

Lemma literal_not_special ts c : Forall token_ok ts → c ∈ literal_prefix ts → c ∉ special.
Proof.
  induction 1 as [|t ts' Ht Hts' IH]; simpl; [set_solver|].
  destruct t; [|set_solver]. intros [->|?]%elem_of_cons; auto.
Qed.

(** An expression without wildcards does not end in the super wildcard. *)
Lemma literal_not_super ts :
  Forall token_ok ts →
  drop (length (x5e :: literal_prefix ts) - 3) (x5e :: literal_prefix ts) ≠ SUPER.
Proof.
  intros Hts E. assert (x2a ∈ x5e :: literal_prefix ts) as Hin.
  { rewrite <-(take_drop (length (x5e :: literal_prefix ts) - 3) (x5e :: literal_prefix ts)).
    apply elem_of_app. right. rewrite E. by_decide. }
  apply elem_of_cons in Hin as [Hin|Hin]; [done|].
  apply (literal_not_special _ _ Hts) in Hin. apply Hin. by_decide.
Qed.

(** The prefix of a rendered pattern. *)
Lemma wildcard_prefix_render p :
  pattern_ok p → 3 ≤ length (render p) →
  wildcard_prefix (render p)
  = Some (literal_prefix (p_tokens p)
          ++ (if negb (has_wild (p_tokens p)) && p_super p then [x2f] else [])).
Proof.
  destruct p as [ts sup]. unfold pattern_ok, render. cbn [p_tokens p_super]. intros Hok Hlen.
  destruct (render_literal ts) as (r & Er & Hr).
  unfold wildcard_prefix. rewrite decide_True by done. cbv zeta. rewrite strstr_render by done.
  rewrite Er in *. destruct (has_wild ts); cbn [negb andb].
  { rewrite <-app_assoc, take_app_length. by rewrite app_nil_r. }
  rewrite Hr, app_nil_r in * by done. rewrite decide_False by lia. destruct sup.
  - rewrite decide_True.
    + f_equal. rewrite length_app. simpl. rewrite take_app.
      rewrite take_ge by lia. f_equal.
      by replace (length (literal_prefix ts) + 3 - 2 - length (literal_prefix ts)) with 1 by lia.
    + change (x5e :: literal_prefix ts ++ SUPER) with ((x5e :: literal_prefix ts) ++ SUPER).
      rewrite drop_app_length'; [done|]. rewrite length_app. simpl. lia.
  - rewrite !app_nil_r, decide_False; [done|]. by apply literal_not_super.
Qed.


Definition demo_pattern : pattern :=
  mkPattern [tChar x41; tChar x2f; tWild; tChar x2f; tChar x42] true.


End Subj.
