(* ===== verification/Socket.v ===== *)
(** * Sockets (src/src/transport.c, "zmq socket functions")

    The functions that create, connect, bind and close zmq sockets.  zmq is
    not part of the source: the n-th call of the library answers [rc n call],
    and every call and every lock operation is logged. *)

From S2P Require Import Prelude CLib CMonad Msg.

Module Sock.

(** ** The library *)

(** Socket options set by the bridge. *)
Inductive zopt :=
  | ZMQ_IDENTITY | ZMQ_LINGER | ZMQ_HEARTBEAT_IVL | ZMQ_RECONNECT_IVL | ZMQ_RECONNECT_STOP
  | ZMQ_RCVHWM | ZMQ_SNDHWM | ZMQ_BACKLOG | ZMQ_SUBSCRIBE | ZMQ_UNSUBSCRIBE.

#[export] Instance zopt_eq_dec : EqDecision zopt.
Proof. solve_decision. Defined.

Inductive sockType := ZMQ_PUB | ZMQ_SUB | ZMQ_PUSH | ZMQ_PULL | ZMQ_SERVER | ZMQ_CLIENT.

(** Calls on a socket; a handle is a number, NULL is 0. *)
Inductive zcall :=
  | zmq_socket (type : sockType)
  | zmq_setsockopt (s : Z) (o : zopt) (value : Z)
  | zmq_setsockopt_str (s : Z) (o : zopt) (value : list byte)
  | zmq_monitor (s : Z) (endpoint : option (list byte)) (mask : Z)
  | zmq_connect (s : Z) (uri : list byte)
  | zmq_disconnect (s : Z) (uri : list byte)
  | zmq_bind (s : Z) (uri : list byte)
  | zmq_unbind (s : Z) (uri : list byte)
  | zmq_last_endpoint (s : Z)
  | zmq_events (s : Z)
  | zmq_close (s : Z)
  | zmq_send (s : Z) (data : list byte).

(** The socket a call works on. *)
Definition zcall_socket (c : zcall) : option Z :=
  match c with
  | zmq_socket _ => None
  | zmq_setsockopt s _ _ | zmq_setsockopt_str s _ _ | zmq_monitor s _ _ | zmq_connect s _
  | zmq_disconnect s _ | zmq_bind s _ | zmq_unbind s _ | zmq_last_endpoint s | zmq_events s
  | zmq_close s | zmq_send s _ => Some s
  end.

Inductive zobs :=
  | ELock (l : Z) | EUnlock (l : Z) | EDestroyLock (l : Z)
  | ECall (c : zcall) (r : Z)
  | EMsgClose.

Record zmqSocket := mkSocket { mSocket : Z; mLock : Z; mMonitor : Z }.

(** A state that counts the library calls, and a log that can hold them. *)
Class Zmq (St O : Type) := {
  zcount : St → nat;
  ztick : St → St;
  zlog : zobs → O }.

Section Socket.

Context {St O : Type} `{Zmq St O}.

(** The answers of the library: return codes and the strings read back. *)
Context (rc : nat → zcall → Z) (endpoint_of : nat → list byte).

Definition zmq (c : zcall) : C St O Z :=
  s ← cget;
  cput (ztick s) ;; emit (zlog (ECall c (rc (zcount s) c))) ;; mret (rc (zcount s) c).

Definition wlock_lock (l : Z) : C St O () := emit (zlog (ELock l)).
Definition wlock_unlock (l : Z) : C St O () := emit (zlog (EUnlock l)).
Definition wlock_destroy (l : Z) : C St O () := emit (zlog (EDestroyLock l)).
Definition zmq_msg_close : C St O () := emit (zlog EMsgClose).

(** ** Operations *)

(** [lock] is the new lock of [wlock_create] (which, like the handle, is
    unused elsewhere); [mask] is [get_zmqEventMask(gMamaLogLevel)].  The
    result is the status and the initialized [zmqSocket], if any. *)
Definition zmqBridgeMamaTransportImpl_createSocket (lock mask : Z) (type : sockType)
    (name : option (list byte)) (monitor : Z) : C St O (mama_status * option zmqSocket) :=
  temp ← zmq (zmq_socket type);
  if decide (temp = 0)%Z then mret (MAMA_STATUS_PLATFORM, None)
  else
    let socket := mkSocket temp lock monitor in
    r1 ← match name with
         | Some n => zmq (zmq_setsockopt_str temp ZMQ_IDENTITY (n ++ [NUL]))
         | None => mret 0%Z
         end;
    if decide (r1 < 0)%Z then mret (MAMA_STATUS_PLATFORM, Some socket)
    else
      r2 ← (if decide (monitor ≠ 0)%Z then
              match name with
              | Some n => zmq (zmq_monitor temp (Some (lit "inproc://" ++ n)) mask)
              | None => mret 0%Z
              end
            else mret 0%Z);
      if decide (r2 < 0)%Z then mret (MAMA_STATUS_PLATFORM, Some socket)
      else
        let linger := if decide (name = Some (lit "namingPub")) then 100%Z else 0%Z in
        r3 ← zmq (zmq_setsockopt temp ZMQ_LINGER linger);
        if decide (r3 < 0)%Z then mret (MAMA_STATUS_PLATFORM, Some socket)
        else mret (MAMA_STATUS_OK, Some socket).

Definition zmqBridgeMamaTransportImpl_connectSocket (socket : zmqSocket) (uri : list byte)
    (reconnectInterval heartbeatInterval : Z) : C St O mama_status :=
  wlock_lock (mLock socket) ;;
  r1 ← zmq (zmq_setsockopt (mSocket socket) ZMQ_HEARTBEAT_IVL heartbeatInterval);
  status ←
    (if decide (r1 ≠ 0)%Z then mret MAMA_STATUS_PLATFORM
     else
       r2 ← zmq (zmq_setsockopt (mSocket socket) ZMQ_RECONNECT_IVL reconnectInterval);
       if decide (r2 ≠ 0)%Z then mret MAMA_STATUS_PLATFORM
       else
         r3 ← zmq (zmq_connect (mSocket socket) uri);
         mret (if decide (r3 ≠ 0)%Z then MAMA_STATUS_PLATFORM else MAMA_STATUS_OK));
  wlock_unlock (mLock socket) ;;
  mret status.

(** A single call under the socket's lock. *)
Definition locked_call (socket : zmqSocket) (c : zcall) : C St O mama_status :=
  wlock_lock (mLock socket) ;;
  r ← zmq c;
  wlock_unlock (mLock socket) ;;
  mret (if decide (r ≠ 0)%Z then MAMA_STATUS_PLATFORM else MAMA_STATUS_OK).

Definition zmqBridgeMamaTransportImpl_disconnectSocket (socket : zmqSocket) (uri : list byte)
    : C St O mama_status := locked_call socket (zmq_disconnect (mSocket socket) uri).

Definition zmqBridgeMamaTransportImpl_unbindSocket (socket : zmqSocket) (uri : list byte)
    : C St O mama_status := locked_call socket (zmq_unbind (mSocket socket) uri).

Definition zmqBridgeMamaTransportImpl_stopReconnectOnError (socket : zmqSocket)
    (reconnectOptions : Z) : C St O mama_status :=
  locked_call socket (zmq_setsockopt (mSocket socket) ZMQ_RECONNECT_STOP reconnectOptions).

(** [wantName]: the caller passed a non-NULL [endpointName]; the second
    component of the result is what it is set to. *)
Definition zmqBridgeMamaTransportImpl_bindSocket (socket : zmqSocket) (uri : list byte)
    (wantName : bool) : C St O (mama_status * option (list byte)) :=
  wlock_lock (mLock socket) ;;
  r1 ← zmq (zmq_bind (mSocket socket) uri);
  res ←
    (if decide (r1 ≠ 0)%Z then mret (MAMA_STATUS_PLATFORM, None)
     else if wantName then
       s ← cget;
       r2 ← zmq (zmq_last_endpoint (mSocket socket));
       if decide (r2 ≠ 0)%Z then mret (MAMA_STATUS_PLATFORM, None)
       else mret (MAMA_STATUS_OK, Some (endpoint_of (zcount s)))
     else mret (MAMA_STATUS_OK, None));
  wlock_unlock (mLock socket) ;;
  mret res.

(** [allEvents] is ZMQ_EVENT_ALL_V2. *)
Definition zmqBridgeMamaTransportImpl_destroySocket (allEvents : Z) (socket : zmqSocket)
    : C St O mama_status :=
  wlock_lock (mLock socket) ;;
  status1 ←
    (if decide (mMonitor socket ≠ 0)%Z then
       r ← zmq (zmq_monitor (mSocket socket) None allEvents);
       mret (if decide (r ≠ 0)%Z then MAMA_STATUS_PLATFORM else MAMA_STATUS_OK)
     else mret MAMA_STATUS_OK);
  r ← zmq (zmq_close (mSocket socket));
  let status2 := if decide (r ≠ 0)%Z then MAMA_STATUS_PLATFORM else status1 in
  wlock_unlock (mLock socket) ;;
  wlock_destroy (mLock socket) ;;
  mret status2.

(** One of the three options; an error does not stop the others. *)
Definition set_option (socket : zmqSocket) (o : zopt) (value : Z) (status : mama_status)
    : C St O mama_status :=
  r ← zmq (zmq_setsockopt (mSocket socket) o value);
  mret (if decide (r ≠ 0)%Z then MAMA_STATUS_PLATFORM else status).

Definition zmqBridgeMamaTransportImpl_setCommonSocketOptions (socket : zmqSocket)
    : C St O mama_status :=
  wlock_lock (mLock socket) ;;
  s1 ← set_option socket ZMQ_RCVHWM 0 MAMA_STATUS_OK;
  s2 ← set_option socket ZMQ_SNDHWM 0 s1;
  s3 ← set_option socket ZMQ_BACKLOG 200 s2;
  wlock_unlock (mLock socket) ;;
  mret s3.

(** Direct calls, for the dispatch thread (which holds the lock). *)
Definition zmqBridgeMamaTransportImpl_subscribe (s : Z) (topic : list byte) : C St O mama_status :=
  r ← zmq (zmq_setsockopt_str s ZMQ_SUBSCRIBE topic);
  mret (if decide (r < 0)%Z then MAMA_STATUS_PLATFORM else MAMA_STATUS_OK).

Definition zmqBridgeMamaTransportImpl_unsubscribe (s : Z) (topic : list byte) : C St O mama_status :=
  r ← zmq (zmq_setsockopt_str s ZMQ_UNSUBSCRIBE topic);
  mret (if decide (r < 0)%Z then MAMA_STATUS_PLATFORM else MAMA_STATUS_OK).

(** ** Bind or connect *)

Inductive zmqTransportType :=
  | ZMQ_TPORT_TYPE_TCP | ZMQ_TPORT_TYPE_IPC | ZMQ_TPORT_TYPE_PGM | ZMQ_TPORT_TYPE_EPGM.

Inductive zmqTransportDirection :=
  | ZMQ_TPORT_DIRECTION_UNKNOWN | ZMQ_TPORT_DIRECTION_INCOMING | ZMQ_TPORT_DIRECTION_OUTGOING.

Context `{WStr}.

(** The scheme of the URI: up to the first colon of its first 15 characters. *)
Definition tport_type (uri : list byte) : option zmqTransportType :=
  let str := until_char x3a (snd (wmStrSizeCpy uri 16)) in
  if decide (str = lit "tcp") then Some ZMQ_TPORT_TYPE_TCP
  else if decide (str = lit "epgm") then Some ZMQ_TPORT_TYPE_EPGM
  else if decide (str = lit "pgm") then Some ZMQ_TPORT_TYPE_PGM
  else if decide (str = lit "ipc") then Some ZMQ_TPORT_TYPE_IPC
  else None.

(** The nested switches on direction and type; [None] for a bad direction. *)
Definition is_binding (direction : zmqTransportDirection) (type : zmqTransportType)
    (uri : list byte) : option bool :=
  match direction with
  | ZMQ_TPORT_DIRECTION_INCOMING =>
      Some (match type with
            | ZMQ_TPORT_TYPE_TCP => strchr uri x2a
            | _ => false
            end)
  | ZMQ_TPORT_DIRECTION_OUTGOING =>
      Some (match type with
            | ZMQ_TPORT_TYPE_TCP => strchr uri x2a
            | ZMQ_TPORT_TYPE_IPC => true
            | _ => false
            end)
  | ZMQ_TPORT_DIRECTION_UNKNOWN => None
  end.

Definition zmqBridgeMamaTransportImpl_bindOrConnect (socket : zmqSocket) (uri : list byte)
    (direction : zmqTransportDirection) (reconnectInterval heartbeatInterval : Z)
    : C St O mama_status :=
  match tport_type uri with
  | None => mret MAMA_STATUS_INVALID_ARG
  | Some tportType =>
    match is_binding direction tportType uri with
    | None => mret MAMA_STATUS_INVALID_ARG
    | Some true =>
        r ← zmqBridgeMamaTransportImpl_bindSocket socket uri false; mret (fst r)
    | Some false =>
        zmqBridgeMamaTransportImpl_connectSocket socket uri reconnectInterval heartbeatInterval
    end
  end.

End Socket.

End Sock.
