(* ===== verification/SocketProofs.v ===== *)
(** * Locking and results of the socket functions *)

From S2P Require Import Prelude CLib CMonad Msg Socket.
Import Sock.

(** ** Lock discipline

    Follow a log with [held] levels of the (recursive) lock [l]: calls on the
    socket [sk] need the lock, an unlock needs a lock, the lock is destroyed
    only when it is free.  The result is the level at the end. *)
Fixpoint run_locks (l sk : Z) (held : nat) (tr : list zobs) : option nat :=
  match tr with
  | [] => Some held
  | ELock x :: tr' => run_locks l sk (if decide (x = l) then S held else held) tr'
  | EUnlock x :: tr' =>
      if decide (x = l) then match held with 0 => None | S h => run_locks l sk h tr' end
      else run_locks l sk held tr'
  | EDestroyLock x :: tr' =>
      if decide (x = l) then match held with 0 => run_locks l sk 0 tr' | _ => None end
      else run_locks l sk held tr'
  | EMsgClose :: tr' => run_locks l sk held tr'
  | ECall c _ :: tr' =>
      if decide (zcall_socket c = Some sk)
      then match held with 0 => None | _ => run_locks l sk held tr' end
      else run_locks l sk held tr'
  end.

Lemma run_locks_app l sk h tr1 tr2 h' :
  run_locks l sk h tr1 = Some h' → run_locks l sk h (tr1 ++ tr2) = run_locks l sk h' tr2.
Proof.
  revert h. induction tr1 as [|e tr1 IH]; intros h; simpl; [by intros [= ->]|].
  destruct e; repeat case_decide; destruct h; try done; eauto.
Qed.

Section SocketProofs.

Context {St O : Type} `{Zmq St O} `{!WStr}.
Context (rc : nat → zcall → Z) (endpoint_of : nat → list byte).

(** A computation that logs only library calls and locks, and takes the
    socket's lock from level [h] to [h']. *)
Definition moves {A} (socket : zmqSocket) (h h' : nat) (m : C St O A) : Prop :=
  ∀ s, ∃ a s' tr, m s = Some (a, s', zlog <$> tr)
    ∧ run_locks (mLock socket) (mSocket socket) h tr = Some h'.

Lemma moves_ret {A} socket h (a : A) : moves socket h h (mret a).
Proof. intros s. by exists a, s, []. Qed.

Lemma moves_get socket h : moves socket h h (cget : C St O St).
Proof. intros s. by exists s, s, []. Qed.

Lemma moves_lock socket h : moves socket h (S h) (wlock_lock (mLock socket) : C St O ()).
Proof. intros s. exists (), s, [ELock (mLock socket)]. simpl. by rewrite decide_True. Qed.

Lemma moves_unlock socket h : moves socket (S h) h (wlock_unlock (mLock socket) : C St O ()).
Proof. intros s. exists (), s, [EUnlock (mLock socket)]. simpl. by rewrite decide_True. Qed.

Lemma moves_destroy socket : moves socket 0 0 (wlock_destroy (mLock socket) : C St O ()).
Proof. intros s. exists (), s, [EDestroyLock (mLock socket)]. simpl. by rewrite decide_True. Qed.

Lemma moves_call socket h c :
  zcall_socket c = Some (mSocket socket) → moves socket (S h) (S h) (zmq (St:=St) rc c).
Proof.
  intros Hc s. exists (rc (zcount s) c), (ztick s), [ECall c (rc (zcount s) c)].
  split; [done|]. simpl. by rewrite decide_True.
Qed.

Lemma moves_bind {A B} socket h h1 h2 (m : C St O A) (f : A → C St O B) :
  moves socket h h1 m → (∀ a, moves socket h1 h2 (f a)) → moves socket h h2 (m ≫= f).
Proof.
  intros Hm Hf s. destruct (Hm s) as (a & s1 & tr1 & E1 & H1).
  destruct (Hf a s1) as (b & s2 & tr2 & E2 & H2). exists b, s2, (tr1 ++ tr2). split.
  - rewrite (C_bind_eq _ _ _ _ _ _ E1), E2. by rewrite fmap_app.
  - by rewrite (run_locks_app _ _ _ _ _ _ H1).
Qed.

Ltac moves_tac :=
  repeat first
    [ apply moves_ret | apply moves_get | apply moves_lock | apply moves_unlock
    | apply moves_destroy | apply moves_call; reflexivity
    | eapply moves_bind; [|intros ?] | progress case_decide | case_match ].

(** The operations on a socket: all of the socket functions but
    [createSocket], which returns one. *)
Inductive sockOp :=
  | opConnect (uri : list byte) (reconnectInterval heartbeatInterval : Z)
  | opDisconnect (uri : list byte)
  | opBind (uri : list byte) (wantName : bool)
  | opUnbind (uri : list byte)
  | opStopReconnect (options : Z)
  | opSetOptions
  | opBindOrConnect (uri : list byte) (dir : zmqTransportDirection) (ri hi : Z)
  | opSubscribe (topic : list byte)
  | opUnsubscribe (topic : list byte)
  | opDestroySocket (allEvents : Z).

Definition run_sockop (socket : zmqSocket) (op : sockOp) : C St O mama_status :=
  match op with
  | opConnect uri ri hi => zmqBridgeMamaTransportImpl_connectSocket rc socket uri ri hi
  | opDisconnect uri => zmqBridgeMamaTransportImpl_disconnectSocket rc socket uri
  | opBind uri w => r ← zmqBridgeMamaTransportImpl_bindSocket rc endpoint_of socket uri w; mret (fst r)
  | opUnbind uri => zmqBridgeMamaTransportImpl_unbindSocket rc socket uri
  | opStopReconnect o => zmqBridgeMamaTransportImpl_stopReconnectOnError rc socket o
  | opSetOptions => zmqBridgeMamaTransportImpl_setCommonSocketOptions rc socket
  | opBindOrConnect uri dir ri hi =>
      zmqBridgeMamaTransportImpl_bindOrConnect rc endpoint_of socket uri dir ri hi
  | opSubscribe topic => zmqBridgeMamaTransportImpl_subscribe rc (mSocket socket) topic
  | opUnsubscribe topic => zmqBridgeMamaTransportImpl_unsubscribe rc (mSocket socket) topic
  | opDestroySocket allEvents => zmqBridgeMamaTransportImpl_destroySocket rc allEvents socket
  end.

(** The levels of the lock a caller may hold: the dispatch thread holds it
    when it subscribes, nobody when the lock is destroyed. *)
Definition lock_ok (op : sockOp) (held : nat) : Prop :=
  match op with
  | opSubscribe _ | opUnsubscribe _ => 0 < held
  | opDestroySocket _ => held = 0
  | _ => True
  end.

(** The operations that lock for themselves, whatever the caller holds. *)
Definition self_locking (op : sockOp) : bool :=
  match op with opSubscribe _ | opUnsubscribe _ | opDestroySocket _ => false | _ => true end.

Lemma connect_moves socket h uri ri hi :
  moves socket h h (zmqBridgeMamaTransportImpl_connectSocket rc socket uri ri hi).
Proof. unfold zmqBridgeMamaTransportImpl_connectSocket. moves_tac. Qed.

Lemma bind_moves socket h uri w :
  moves socket h h (zmqBridgeMamaTransportImpl_bindSocket rc endpoint_of socket uri w).
Proof. unfold zmqBridgeMamaTransportImpl_bindSocket. moves_tac. Qed.

Lemma locked_call_moves socket h c :
  zcall_socket c = Some (mSocket socket) → moves socket h h (locked_call rc socket c).
Proof.
  intros Hc. unfold locked_call. eapply moves_bind; [apply moves_lock|intros _].
  eapply moves_bind; [by apply moves_call|intros r]. moves_tac.
Qed.

Lemma sockop_moves socket h op : self_locking op = true → moves socket h h (run_sockop socket op).
Proof.
  intros Hop. destruct op; cbn [run_sockop]; try (by apply locked_call_moves); try discriminate Hop.
  - apply connect_moves.
  - eapply moves_bind; [apply bind_moves|intros; apply moves_ret].
  - unfold zmqBridgeMamaTransportImpl_setCommonSocketOptions, set_option. moves_tac.
  - unfold zmqBridgeMamaTransportImpl_bindOrConnect. destruct (tport_type uri); [|apply moves_ret].
    destruct (is_binding _ _ _) as [[]|]; [| |apply moves_ret].
    + eapply moves_bind; [apply bind_moves|intros; apply moves_ret].
    + apply connect_moves.
Qed.

Lemma destroySocket_run allEvents socket s :
  ∃ status s' tr, zmqBridgeMamaTransportImpl_destroySocket rc allEvents socket s
      = Some (status, s', zlog <$> tr)
    ∧ (∀ h, run_locks (mLock socket) (mSocket socket) h tr = if decide (h = 0) then Some 0 else None)
    ∧ (∃ r, ECall (zmq_close (mSocket socket)) r ∈ tr) ∧ last tr = Some (EDestroyLock (mLock socket)).
Proof.
  unfold zmqBridgeMamaTransportImpl_destroySocket.
  destruct (decide (mMonitor socket ≠ 0)%Z).
  - do 2 eexists. exists [ELock (mLock socket);
      ECall (zmq_monitor (mSocket socket) None allEvents) (rc (zcount s) (zmq_monitor (mSocket socket) None allEvents));
      ECall (zmq_close (mSocket socket)) (rc (zcount (ztick s)) (zmq_close (mSocket socket)));
      EUnlock (mLock socket); EDestroyLock (mLock socket)].
    split_and!; [reflexivity| |eexists; repeat constructor|done].
    intros h. simpl. rewrite !decide_True by done. by destruct h.
  - do 2 eexists. exists [ELock (mLock socket);
      ECall (zmq_close (mSocket socket)) (rc (zcount s) (zmq_close (mSocket socket)));
      EUnlock (mLock socket); EDestroyLock (mLock socket)].
    split_and!; [reflexivity| |eexists; repeat constructor|done].
    intros h. simpl. rewrite !decide_True by done. by destruct h.
Qed.

(** ** Theorems *)

(** C36: The lock discipline of the functions on a socket, whatever the
    library answers: all of them but [createSocket], whose socket nobody else
    has yet, and the send of [stopMonitor], which is not locked.  It touches the socket only while the socket's lock is
    held and leaves the (recursive) lock as it found it, on every path, error
    exits included, exactly when it is called as it must be: [subscribe] and
    [unsubscribe], which take no lock, by a thread that holds it, and
    [destroySocket], which destroys it, when nobody does; all others take the
    lock themselves, whether the caller holds it or not. *)
Theorem sockets_locked socket held op s :
  ∃ status s' tr, run_sockop socket op s = Some (status, s', zlog <$> tr)
    ∧ (run_locks (mLock socket) (mSocket socket) held tr = Some held ↔ lock_ok op held)
    ∧ ∀ allEvents, op = opDestroySocket allEvents →
        (∃ r, ECall (zmq_close (mSocket socket)) r ∈ tr) ∧ last tr = Some (EDestroyLock (mLock socket)).
Proof.
  destruct (self_locking op) eqn:Hop.
  { destruct (sockop_moves socket held op Hop s) as (st & s' & tr & E & Hl). exists st, s', tr.
    split; [done|]. split; [|by intros ? ->]. rewrite Hl. by destruct op. }
  destruct op as [| | | | | | |topic|topic|allEvents]; try discriminate Hop; cbn [run_sockop lock_ok].
  - do 2 eexists. exists [ECall (zmq_setsockopt_str (mSocket socket) ZMQ_SUBSCRIBE topic)
      (rc (zcount s) (zmq_setsockopt_str (mSocket socket) ZMQ_SUBSCRIBE topic))].
    split; [reflexivity|]. split; [|done]. simpl. rewrite decide_True by done. destruct held; [split; [done|lia]|].
    split; [lia|done].
  - do 2 eexists. exists [ECall (zmq_setsockopt_str (mSocket socket) ZMQ_UNSUBSCRIBE topic)
      (rc (zcount s) (zmq_setsockopt_str (mSocket socket) ZMQ_UNSUBSCRIBE topic))].
    split; [reflexivity|]. split; [|done]. simpl. rewrite decide_True by done. destruct held; [split; [done|lia]|].
    split; [lia|done].
  - destruct (destroySocket_run allEvents socket s) as (st & s' & tr & E & Hl & Hc). exists st, s', tr.
    split; [done|]. split; [|by intros]. rewrite Hl. case_decide; subst; by split.
Qed.

(** The scheme and the wildcard of a URI decide how it is used. *)
Inductive uriAction := uBind | uConnect | uInvalid.

Definition scheme_action (scheme : list byte) (wildcard outgoing : bool) : uriAction :=
  if decide (scheme = lit "tcp") then if wildcard then uBind else uConnect
  else if decide (scheme = lit "ipc") then if outgoing then uBind else uConnect
  else if decide (scheme = lit "pgm" ∨ scheme = lit "epgm") then uConnect
  else uInvalid.

Lemma until_char_app c l r : c ∉ l → until_char c (l ++ c :: r) = l.
Proof.
  induction l as [|x l IH]; simpl; intros Hn; [by rewrite decide_True|].
  rewrite decide_False by set_solver. f_equal. apply IH. set_solver.
Qed.

Lemma tport_type_scheme scheme rest :
  x3a ∉ scheme → length scheme < 15 →
  tport_type (scheme ++ x3a :: rest)
  = if decide (scheme = lit "tcp") then Some ZMQ_TPORT_TYPE_TCP
    else if decide (scheme = lit "epgm") then Some ZMQ_TPORT_TYPE_EPGM
    else if decide (scheme = lit "pgm") then Some ZMQ_TPORT_TYPE_PGM
    else if decide (scheme = lit "ipc") then Some ZMQ_TPORT_TYPE_IPC else None.
Proof.
  intros Hc Hl. unfold tport_type. rewrite wstr_take by lia.
  rewrite take_app, take_ge by lia. destruct (16 - 1 - length scheme) eqn:E; [lia|].
  simpl (take (S _) _). by rewrite until_char_app.
Qed.

(** bindOrConnect on a URI [scheme:rest] binds tcp URIs that contain a
    wildcard and outgoing ipc URIs, connects the other tcp, ipc, pgm and
    epgm URIs, and refuses any other scheme without a library call. *)
Theorem bindOrConnect_decision socket scheme rest (outgoing : bool) ri hi s :
  x3a ∉ scheme → length scheme < 15 →
  let uri := scheme ++ x3a :: rest in
  let dir := if outgoing then ZMQ_TPORT_DIRECTION_OUTGOING else ZMQ_TPORT_DIRECTION_INCOMING in
  zmqBridgeMamaTransportImpl_bindOrConnect rc endpoint_of socket uri dir ri hi s
  = match scheme_action scheme (strchr uri x2a) outgoing with
    | uBind => run_sockop socket (opBind uri false) s
    | uConnect => run_sockop socket (opConnect uri ri hi) s
    | uInvalid => Some (MAMA_STATUS_INVALID_ARG, s, [])
    end.
Proof.
  intros Hc Hl uri dir. unfold zmqBridgeMamaTransportImpl_bindOrConnect.
  unfold uri at 1. rewrite tport_type_scheme by done. unfold scheme_action.
  destruct (decide (scheme = lit "tcp")) as [->|];
    [unfold dir; destruct outgoing; cbn [is_binding]; by destruct (strchr uri x2a)|].
  destruct (decide (scheme = lit "epgm")) as [->|]; [by destruct outgoing|].
  destruct (decide (scheme = lit "pgm")) as [->|]; [by destruct outgoing|].
  destruct (decide (scheme = lit "ipc")) as [->|]; [by destruct outgoing|].
  destruct (decide (scheme = lit "pgm" ∨ scheme = lit "epgm")) as [[]|]; done.
Qed.

End SocketProofs.

(** A state that only counts the calls. *)
#[export] Instance zmq_counter : Zmq nat zobs :=
  {| zcount := id; ztick := S; zlog := id |}.

Lemma bindOrConnect_decision_witness :
  zmqBridgeMamaTransportImpl_bindOrConnect (λ _ _, 0%Z) (λ _, []) (mkSocket 1 2 0)
    (lit "tcp://lo:*") ZMQ_TPORT_DIRECTION_INCOMING 0 0 0
  = run_sockop (λ _ _, 0%Z) (λ _, []) (mkSocket 1 2 0) (opBind (lit "tcp://lo:*") false) 0.
Proof.
  apply (bindOrConnect_decision (λ _ _, 0%Z) (λ _, []) (mkSocket 1 2 0) (lit "tcp") (lit "//lo:*")
           false 0 0 0); by_decide.
Defined.
