(* ===== verification/Collections.v ===== *)
(** * The collections of OpenMAMA the transport uses

    wtable (string-keyed hash table), wList and endpointPool are library
    code: they are interfaces with the laws the bridge relies on, and each
    has a simple instance. *)

From S2P Require Import Prelude.

(** ** wtable: keys are C strings, values pointers *)

Class StrTable (T V : Type) := {
  wtable_lookup : T → list byte → option V;
  wtable_insert : T → list byte → V → Z * T;
  wtable_remove : T → list byte → option V * T }.

(** An insertion under a new key succeeds, or fails (a negative result) and
    changes nothing. *)
Class StrTableLaws (T V : Type) `{StrTable T V} := {
  law_insert t k v :
    wtable_lookup t k = None →
    let '(r, t') := wtable_insert t k v in
    ((0 <= r)%Z ∧ ∀ k', wtable_lookup t' k' = if decide (k = k') then Some v else wtable_lookup t k')
    ∨ ((r < 0)%Z ∧ t' = t);
  law_remove t k :
    let '(old, t') := wtable_remove t k in
    old = wtable_lookup t k ∧
    ∀ k', wtable_lookup t' k' = if decide (k = k') then None else wtable_lookup t k' }.

#[export] Instance gmap_table {V} : StrTable (gmap (list byte) V) V := {|
  wtable_lookup t k := t !! k;
  wtable_insert t k v := (0%Z, <[k := v]> t);
  wtable_remove t k := (t !! k, delete k t) |}.

#[export] Instance gmap_table_laws {V} : StrTableLaws (gmap (list byte) V) V.
Proof.
  split; simpl.
  - intros t k v _. left. split; [done|]. intros k'. case_decide; subst.
    + by rewrite lookup_insert_eq.
    + by rewrite lookup_insert_ne.
  - intros t k. split; [done|]. intros k'. case_decide; subst.
    + by rewrite lookup_delete_eq.
    + by rewrite lookup_delete_ne.
Qed.

(** ** wList: iteration is in insertion order *)

Class WList (L A : Type) := {
  list_elems : L → list A;
  list_push_back : L → A → L;
  list_remove_element : L → A → L }.

Class WListLaws (L A : Type) `{WList L A} := {
  law_push l a : list_elems (list_push_back l a) = list_elems l ++ [a];
  law_remove_element l a x :
    NoDup (list_elems l) → x ∈ list_elems (list_remove_element l a) ↔ x ∈ list_elems l ∧ x ≠ a;
  law_remove_nodup l a : NoDup (list_elems l) → NoDup (list_elems (list_remove_element l a)) }.

#[export] Instance list_wlist {A} `{EqDecision A} : WList (list A) A := {|
  list_elems l := l;
  list_push_back l a := l ++ [a];
  list_remove_element l a := filter (λ x, x ≠ a) l |}.

#[export] Instance list_wlist_laws {A} `{EqDecision A} : WListLaws (list A) A.
Proof.
  split; simpl.
  - done.
  - intros l a x _. rewrite list_elem_of_filter. tauto.
  - intros l a. apply NoDup_filter.
Qed.

(** ** endpointPool: endpoints by topic and identifier *)

Class EndpointPool (P V : Type) := {
  endpointPool_register : P → list byte → list byte → V → P;
  endpointPool_unregister : P → list byte → list byte → P;
  endpointPool_getRegistered : P → list byte → mama_status * list V;
  endpointPool_getEndpoint : P → list byte → list byte → option V }.

(** [pool_entries] are the registrations (topic, identifier, endpoint). *)
Class EndpointPoolLaws (P V : Type) `{EndpointPool P V} := {
  pool_entries : P → list (list byte * list byte * V);
  law_register p t i v :
    pool_entries (endpointPool_register p t i v) = pool_entries p ++ [(t, i, v)];
  law_unregister p t i :
    pool_entries (endpointPool_unregister p t i)
    = filter (λ x, x.1 ≠ (t, i)) (pool_entries p);
  law_getRegistered p t :
    endpointPool_getRegistered p t
    = (MAMA_STATUS_OK, snd <$> filter (λ x, x.1.1 = t) (pool_entries p));
  law_getEndpoint p t i v :
    endpointPool_getEndpoint p t i = Some v → (t, i, v) ∈ pool_entries p;
  law_getEndpoint_None p t i :
    endpointPool_getEndpoint p t i = None → ∀ v, (t, i, v) ∉ pool_entries p }.

#[export] Instance list_pool {V} : EndpointPool (list (list byte * list byte * V)) V := {|
  endpointPool_register p t i v := p ++ [(t, i, v)];
  endpointPool_unregister p t i := filter (λ x, x.1 ≠ (t, i)) p;
  endpointPool_getRegistered p t := (MAMA_STATUS_OK, snd <$> filter (λ x, x.1.1 = t) p);
  endpointPool_getEndpoint p t i := snd <$> head (filter (λ x, x.1 = (t, i)) p) |}.

#[export] Instance list_pool_laws {V} : EndpointPoolLaws (list (list byte * list byte * V)) V.
Proof.
  refine {| pool_entries p := p |}; simpl; try done.
  - intros p t i v E. destruct (filter (λ x, x.1 = (t, i)) p) as [|x l] eqn:Ef; [done|].
    simpl in E. injection E as <-.
    assert (x ∈ filter (λ x, x.1 = (t, i)) p) as Hx by (rewrite Ef; set_solver).
    apply list_elem_of_filter in Hx as [Hx Hin]. destruct x as [[? ?] ?]. simpl in *. by simplify_eq.
  - intros p t i E v Hin. destruct (filter (λ x, x.1 = (t, i)) p) as [|x l] eqn:Ef; [|done].
    assert ((t, i, v) ∈ filter (λ x, x.1 = (t, i)) p) as Hx by (by apply list_elem_of_filter).
    rewrite Ef in Hx. set_solver.
Defined.
