(* ===== verification/Routing.v ===== *)
(** * Inboxes, subscriptions and the routing of messages

    inbox.c, subscription.c and the dispatch functions and callbacks of
    transport.c.  Objects live in heaps: the transport's collections hold
    pointers, a pointer to a freed object is undefined behaviour when it is
    followed.  Messages are handed to the queues of queue.c as logged
    [oEnqueue] calls; the callback of a queued message is a separate
    operation, run when the queue dispatches it. *)

From S2P Require Import Prelude CLib CMonad Msg Util Subject Socket Collections.
Import ZM ZU Subj Sock.

Module ZT.

(** ** Data *)

(** Handles of the application (queues, callbacks, closures, parents). *)
Abbreviation handle := nat.
Abbreviation ptr := nat.

Record zmqInboxImpl := mkInbox {
  ib_closure : handle;
  ib_mamaQueue : handle;
  ib_zmqQueue : handle;
  ib_msgCB : option handle;
  ib_errCB : option handle;
  ib_onDestroyed : option handle;
  ib_parent : handle;
  ib_replyHandle : list byte }.

Record zmqSubscription := mkSub {
  sub_onDestroy : option handle;
  sub_subscription : handle;
  sub_mamaQueue : handle;
  sub_zmqQueue : handle;
  sub_closure : handle;
  sub_isNotMuted : Z;
  sub_isValid : Z;
  sub_isTportDisconnected : Z;
  sub_subjectKey : option (list byte);
  sub_endpointIdentifier : option (list byte);
  sub_isWildcard : Z;
  sub_origRegex : option (list byte) }.

(** [zmqTransportMsg]; there is one transport, so its pointer is left out. *)
Record zmqTransportMsg := mkTMsg { tm_endpointIdentifier : list byte; tm_zmsg : list byte }.

(** The callbacks passed to [zmqBridgeMamaQueue_enqueueMsg]. *)
Inductive callback := inboxCallback | subCallback | wcCallback.

Inductive tobs :=
  | oZmq (e : zobs)
  | oEnqueue (queue : handle) (cb : callback) (m : zmqTransportMsg)
  | oInboxMsg (cb : handle) (closure : handle) (payload : msgBuffer)
  | oInboxDestroyed (cb : handle) (parent closure : handle)
  | oProcessMsg (subscription : handle) (payload : msgBuffer)
  | oProcessWildCardMsg (subscription : handle) (subject : list byte) (closure : handle)
      (payload : msgBuffer)
  | oSubDestroyed (cb : handle) (subscription closure : handle)
  | oMsgClose.

Section Routing.

Context {T P L : Type}.

(** The transport, the heaps, the bridge message cached by each MAMA queue
    ([mamaQueueImpl_getMsg]) and the number of zmq calls made. *)
Record transport := mkTransport {
  mInboxSubject : list byte;
  mInboxUid : Z;
  mSubUid : Z;
  mWcsUid : Z;
  mInboxes : T;
  mSubEndpoints : P;
  mWcEndpoints : L;
  mNormalMessages : Z;
  mInboxMessages : Z;
  mSubMessages : Z;
  mZmqControlPub : zmqSocket;
  mSubsLock : Z;
  mWcsLock : Z;
  mInboxesLock : Z;
  h_inboxes : gmap ptr zmqInboxImpl;
  h_subs : gmap ptr zmqSubscription;
  h_next : ptr;
  h_msgs : gmap handle (zmqBridgeMsgImpl handle);
  z_calls : nat }.

Definition upd_inboxes (uid : Z) (t : T) (h : gmap ptr zmqInboxImpl) (n : ptr) (s : transport) :=
  mkTransport (mInboxSubject s) uid (mSubUid s) (mWcsUid s) t (mSubEndpoints s) (mWcEndpoints s)
    (mNormalMessages s) (mInboxMessages s) (mSubMessages s) (mZmqControlPub s)
    (mSubsLock s) (mWcsLock s) (mInboxesLock s) h (h_subs s) n (h_msgs s) (z_calls s).
Definition upd_subs (suid wuid : Z) (p : P) (l : L) (h : gmap ptr zmqSubscription) (n : ptr) (s : transport) :=
  mkTransport (mInboxSubject s) (mInboxUid s) suid wuid (mInboxes s) p l
    (mNormalMessages s) (mInboxMessages s) (mSubMessages s) (mZmqControlPub s)
    (mSubsLock s) (mWcsLock s) (mInboxesLock s) (h_inboxes s) h n (h_msgs s) (z_calls s).
Definition upd_counts (n i u : Z) (s : transport) :=
  mkTransport (mInboxSubject s) (mInboxUid s) (mSubUid s) (mWcsUid s) (mInboxes s) (mSubEndpoints s)
    (mWcEndpoints s) n i u (mZmqControlPub s)
    (mSubsLock s) (mWcsLock s) (mInboxesLock s) (h_inboxes s) (h_subs s) (h_next s) (h_msgs s) (z_calls s).
Definition upd_msgs (m : gmap handle (zmqBridgeMsgImpl handle)) (c : nat) (s : transport) :=
  mkTransport (mInboxSubject s) (mInboxUid s) (mSubUid s) (mWcsUid s) (mInboxes s) (mSubEndpoints s)
    (mWcEndpoints s) (mNormalMessages s) (mInboxMessages s) (mSubMessages s) (mZmqControlPub s)
    (mSubsLock s) (mWcsLock s) (mInboxesLock s) (h_inboxes s) (h_subs s) (h_next s) m c.

Definition set_table (t : T) (s : transport) := upd_inboxes (mInboxUid s) t (h_inboxes s) (h_next s) s.
Definition set_h_inboxes (h : gmap ptr zmqInboxImpl) (s : transport) :=
  upd_inboxes (mInboxUid s) (mInboxes s) h (h_next s) s.
Definition set_pool (p : P) (s : transport) :=
  upd_subs (mSubUid s) (mWcsUid s) p (mWcEndpoints s) (h_subs s) (h_next s) s.
Definition set_wcs (l : L) (s : transport) :=
  upd_subs (mSubUid s) (mWcsUid s) (mSubEndpoints s) l (h_subs s) (h_next s) s.
Definition set_h_subs (h : gmap ptr zmqSubscription) (s : transport) :=
  upd_subs (mSubUid s) (mWcsUid s) (mSubEndpoints s) (mWcEndpoints s) h (h_next s) s.
Definition set_h_msgs (m : gmap handle (zmqBridgeMsgImpl handle)) (s : transport) :=
  upd_msgs m (z_calls s) s.

#[export] Instance transport_zmq : Zmq transport tobs :=
  {| zcount := z_calls; ztick s := upd_msgs (h_msgs s) (S (z_calls s)) s; zlog := oZmq |}.

Context `{StrTable T ptr} `{EndpointPool P ptr} `{WList L ptr} `{!WStr}.

(** The environment: answers of zmq, [regexec] (regular expression and
    subject), [mamaMsgImpl_setMsgBuffer], and the contents of uninitialized
    arrays. *)
Context (rc : nat → zcall → Z).
Context (regexec : list byte → list byte → bool).
Context (setMsgBuffer : msgBuffer → mama_status).
Context (junk : nat → byte).

Local Notation TC := (C transport tobs).

(** Following a pointer. *)
Definition deref_inbox (p : ptr) : TC zmqInboxImpl := s ← cget; cpart (h_inboxes s !! p).
Definition deref_sub (p : ptr) : TC zmqSubscription := s ← cget; cpart (h_subs s !! p).

(** [free]; undefined for a pointer that is not allocated. *)
Definition free_inbox (p : ptr) : TC () :=
  _ ← deref_inbox p; cmodify (λ s, set_h_inboxes (delete p (h_inboxes s)) s).
Definition free_sub (p : ptr) : TC () :=
  _ ← deref_sub p; cmodify (λ s, set_h_subs (delete p (h_subs s)) s).
Definition store_sub (p : ptr) (f : zmqSubscription → zmqSubscription) : TC () :=
  i ← deref_sub p; cmodify (λ s, set_h_subs (<[p := f i]> (h_subs s)) s).

Definition lock_inboxes : TC () := s ← cget; wlock_lock (mInboxesLock s).
Definition unlock_inboxes : TC () := s ← cget; wlock_unlock (mInboxesLock s).
Definition lock_subs : TC () := s ← cget; wlock_lock (mSubsLock s).
Definition unlock_subs : TC () := s ← cget; wlock_unlock (mSubsLock s).
Definition lock_wcs : TC () := s ← cget; wlock_lock (mWcsLock s).
Definition unlock_wcs : TC () := s ← cget; wlock_unlock (mWcsLock s).

(** ** Inboxes *)

(** [&handle[ZMQ_REPLYHANDLE_INBOXNAME_INDEX]], as a C string. *)
Definition inbox_name (h : list byte) : TC (list byte) :=
  if decide (ZMQ_REPLYHANDLE_INBOXNAME_INDEX ≤ length h)
  then mret (drop ZMQ_REPLYHANDLE_INBOXNAME_INDEX h) else ub.

Definition zmqBridgeMamaTransportImpl_registerInbox (p : ptr) : TC mama_status :=
  inbox ← deref_inbox p;
  lock_inboxes ;;
  name ← inbox_name (ib_replyHandle inbox);
  s ← cget;
  let '(r, t) := wtable_insert (mInboxes s) name p in
  cmodify (set_table t) ;;
  unlock_inboxes ;;
  mret (if decide (0 <= r)%Z then MAMA_STATUS_OK else MAMA_STATUS_NOT_FOUND).

Definition zmqBridgeMamaTransportImpl_unregisterInbox (p : ptr) : TC mama_status :=
  inbox ← deref_inbox p;
  lock_inboxes ;;
  name ← inbox_name (ib_replyHandle inbox);
  s ← cget;
  let '(old, t) := wtable_remove (mInboxes s) name in
  cmodify (set_table t) ;;
  unlock_inboxes ;;
  mret (if decide (old = Some p) then MAMA_STATUS_OK else MAMA_STATUS_NOT_FOUND).

(** [sprintf (replyHandle, "%s.%s", inboxSubject, uid)] into its array. *)
Definition make_replyHandle (subject uid : list byte) : option (list byte) :=
  strcpy REPLYHANDLE_CAP (subject ++ x2e :: uid).

(** [argsOk]: bridge, transport, queue and callback are not NULL; [mem]:
    [calloc] succeeds.  The result is the status and [*bridge]. *)
Definition zmqBridgeMamaInbox_createByIndex (argsOk mem : bool) (mamaQueue zmqQueue : handle)
    (msgCB : handle) (errorCB onDestroyed : option handle) (closure parent : handle)
    : TC (mama_status * option ptr) :=
  if argsOk then
    if mem then
      s ← cget;
      let '(uid, n) := zmqBridge_generateSerial (mInboxUid s) in
      replyHandle ← cpart (make_replyHandle (mInboxSubject s) uid);
      let p := h_next s in
      let impl := mkInbox closure mamaQueue zmqQueue (Some msgCB) errorCB onDestroyed parent replyHandle in
      cmodify (λ s, upd_inboxes n (mInboxes s) (<[p := impl]> (h_inboxes s)) (S p) s) ;;
      status ← zmqBridgeMamaTransportImpl_registerInbox p;
      mret (status, if decide (status = MAMA_STATUS_OK) then Some p else None)
    else mret (MAMA_STATUS_NOMEM, None)
  else mret (MAMA_STATUS_NULL_ARG, None).

Definition zmqBridgeMamaInbox_destroy (inbox : option ptr) : TC mama_status :=
  match inbox with
  | None => mret MAMA_STATUS_NULL_ARG
  | Some p =>
      status ← zmqBridgeMamaTransportImpl_unregisterInbox p;
      impl ← deref_inbox p;
      match ib_onDestroyed impl with
      | Some cb => emit (oInboxDestroyed cb (ib_parent impl) (ib_closure impl))
      | None => mret ()
      end ;;
      free_inbox p ;;
      mret status
  end.

(** ** Control messages *)

(** [zmqControlMsg]: a command and a topic in an array of 257 characters,
    the rest of which keeps what was on the stack. *)
Definition control_msg (command : byte) (topic : list byte) : list byte :=
  let arg := snd (wmStrSizeCpy topic (MAX_SUBJECT_LENGTH + 1)) ++ [NUL] in
  command :: arg ++ fresh junk (MAX_SUBJECT_LENGTH + 1 - length arg).

Definition zmqBridgeMamaTransportImpl_sendCommand (msg : list byte) : TC mama_status :=
  s ← cget;
  wlock_lock (mLock (mZmqControlPub s)) ;;
  i ← zmq rc (zmq_send (mSocket (mZmqControlPub s)) msg);
  wlock_unlock (mLock (mZmqControlPub s)) ;;
  mret (if decide (i <= 0)%Z then MAMA_STATUS_PLATFORM else MAMA_STATUS_OK).

Definition zmqBridgeMamaSubscriptionImpl_subscribe (topic : list byte) : TC mama_status :=
  zmqBridgeMamaTransportImpl_sendCommand (control_msg x53 topic).

Definition zmqBridgeMamaSubscriptionImpl_unsubscribe (topic : list byte) : TC mama_status :=
  zmqBridgeMamaTransportImpl_sendCommand (control_msg x55 topic).

(** ** Subscriptions *)

Definition zmqBridgeMamaSubscriptionImpl_allocate (mamaQueue zmqQueue : handle)
    (onDestroy : option handle) (subscription closure : handle) : TC ptr :=
  s ← cget;
  let p := h_next s in
  let impl := mkSub onDestroy subscription mamaQueue zmqQueue closure 1 0 1 None None 0 None in
  cmodify (λ s, upd_subs (mSubUid s) (mWcsUid s) (mSubEndpoints s) (mWcEndpoints s)
                  (<[p := impl]> (h_subs s)) (S p) s) ;;
  mret p.

Definition set_key (key id : list byte) (i : zmqSubscription) : zmqSubscription :=
  mkSub (sub_onDestroy i) (sub_subscription i) (sub_mamaQueue i) (sub_zmqQueue i) (sub_closure i)
    (sub_isNotMuted i) (sub_isValid i) (sub_isTportDisconnected i) (Some key) (Some id)
    (sub_isWildcard i) (sub_origRegex i).
Definition set_valid (i : zmqSubscription) : zmqSubscription :=
  mkSub (sub_onDestroy i) (sub_subscription i) (sub_mamaQueue i) (sub_zmqQueue i) (sub_closure i)
    (sub_isNotMuted i) 1 (sub_isTportDisconnected i) (sub_subjectKey i)
    (sub_endpointIdentifier i) (sub_isWildcard i) (sub_origRegex i).
Definition set_muted (i : zmqSubscription) : zmqSubscription :=
  mkSub (sub_onDestroy i) (sub_subscription i) (sub_mamaQueue i) (sub_zmqQueue i) (sub_closure i)
    0 (sub_isValid i) (sub_isTportDisconnected i) (sub_subjectKey i)
    (sub_endpointIdentifier i) (sub_isWildcard i) (sub_origRegex i).
Definition set_connected (i : zmqSubscription) : zmqSubscription :=
  mkSub (sub_onDestroy i) (sub_subscription i) (sub_mamaQueue i) (sub_zmqQueue i) (sub_closure i)
    (sub_isNotMuted i) (sub_isValid i) 0 (sub_subjectKey i)
    (sub_endpointIdentifier i) (sub_isWildcard i) (sub_origRegex i).
Definition set_regex (r : list byte) (i : zmqSubscription) : zmqSubscription :=
  mkSub (sub_onDestroy i) (sub_subscription i) (sub_mamaQueue i) (sub_zmqQueue i) (sub_closure i)
    (sub_isNotMuted i) (sub_isValid i) (sub_isTportDisconnected i) (sub_subjectKey i)
    (sub_endpointIdentifier i) 1 (Some r).

Definition zmqBridgeMamaSubscriptionImpl_create (p : ptr) (source symbol : option (list byte))
    : TC mama_status :=
  key ← cpart (zmqBridgeMamaSubscriptionImpl_generateSubjectKey junk None source symbol);
  s ← cget;
  let '(id, n) := zmqBridge_generateSerial (mSubUid s) in
  store_sub p (set_key key id) ;;
  cmodify (λ s, upd_subs n (mWcsUid s) (endpointPool_register (mSubEndpoints s) key id p)
                  (mWcEndpoints s) (h_subs s) (h_next s) s) ;;
  status ← zmqBridgeMamaSubscriptionImpl_subscribe key;
  if decide (status = MAMA_STATUS_OK) then store_sub p set_valid ;; mret MAMA_STATUS_OK
  else mret status.

Definition zmqBridgeMamaSubscriptionImpl_createWildcard (p : ptr) (source symbol : option (list byte))
    : TC mama_status :=
  key ← cpart (zmqBridgeMamaSubscriptionImpl_generateSubjectKey junk None source symbol);
  s ← cget;
  let '(id, n) := zmqBridge_generateSerial (mWcsUid s) in
  store_sub p (set_key key id) ;;
  cmodify (λ s, upd_subs (mSubUid s) n (mSubEndpoints s) (list_push_back (mWcEndpoints s) p)
                  (h_subs s) (h_next s) s) ;;
  status ← zmqBridgeMamaSubscriptionImpl_subscribe key;
  if decide (status = MAMA_STATUS_OK) then store_sub p set_valid ;; mret MAMA_STATUS_OK
  else mret status.

(** [argsOk]: subscriber, subscription and transport are not NULL. *)
Definition zmqBridgeMamaSubscription_create (argsOk mem : bool) (source symbol : option (list byte))
    (mamaQueue zmqQueue : handle) (onDestroy : option handle) (subscription closure : handle)
    : TC (mama_status * option ptr) :=
  if argsOk then
    if mem then
      p ← zmqBridgeMamaSubscriptionImpl_allocate mamaQueue zmqQueue onDestroy subscription closure;
      status ← zmqBridgeMamaSubscriptionImpl_create p source symbol;
      mret (status, if decide (status = MAMA_STATUS_OK) then Some p else None)
    else mret (MAMA_STATUS_NULL_ARG, None)
  else mret (MAMA_STATUS_NULL_ARG, None).

(** [memRegex]: the [calloc] of the compiled expression succeeds;
    [compiles]: [regcomp] does. *)
Definition zmqBridgeMamaSubscription_createWildCard (argsOk mem memRegex compiles : bool)
    (source : option (list byte)) (mamaQueue zmqQueue : handle) (onDestroy : option handle)
    (subscription closure : handle) : TC (mama_status * option ptr) :=
  match source with
  | None => mret (MAMA_STATUS_NULL_ARG, None)
  | Some regex =>
    if argsOk then
      if mem then
        p ← zmqBridgeMamaSubscriptionImpl_allocate mamaQueue zmqQueue onDestroy subscription closure;
        store_sub p (set_regex regex) ;;
        prefix ← cpart (wildcard_prefix regex);
        if memRegex then
          if compiles then
            status ← zmqBridgeMamaSubscriptionImpl_createWildcard p None (Some prefix);
            mret (status, if decide (status = MAMA_STATUS_OK) then Some p else None)
          else free_sub p ;; mret (MAMA_STATUS_INVALID_ARG, None)
        else mret (MAMA_STATUS_NOMEM, None)
      else mret (MAMA_STATUS_NULL_ARG, None)
    else mret (MAMA_STATUS_NULL_ARG, None)
  end.

Definition zmqBridgeMamaSubscription_mute (subscriber : option ptr) : TC mama_status :=
  match subscriber with
  | None => mret MAMA_STATUS_NULL_ARG
  | Some p => store_sub p set_muted ;; mret MAMA_STATUS_OK
  end.

(** The element of the list whose subscription has this identifier:
    [zmqBridgeMamaTransportImpl_findWildcard], [..._removeWildcard]. *)
Definition has_identifier (id : list byte) (i : zmqSubscription) : bool :=
  bool_decide (sub_endpointIdentifier i = Some id).

Fixpoint findWildcard_loop (id : list byte) (ps : list ptr) (found : option ptr) : TC (option ptr) :=
  match ps with
  | [] => mret found
  | p :: ps' =>
      i ← deref_sub p;
      findWildcard_loop id ps' (if has_identifier id i then Some p else found)
  end.

Definition zmqBridgeMamaTransportImpl_findWildcard (id : list byte) : TC (option ptr) :=
  s ← cget; findWildcard_loop id (list_elems (mWcEndpoints s)) None.

Fixpoint removeWildcard_loop (id : list byte) (ps : list ptr) : TC () :=
  match ps with
  | [] => mret ()
  | p :: ps' =>
      i ← deref_sub p;
      (if has_identifier id i
       then cmodify (λ s, set_wcs (list_remove_element (mWcEndpoints s) p) s) else mret ()) ;;
      removeWildcard_loop id ps'
  end.

Definition zmqBridgeMamaTransportImpl_unregisterWildcard (id : list byte) : TC () :=
  s ← cget; removeWildcard_loop id (list_elems (mWcEndpoints s)).

Definition zmqBridgeMamaSubscription_destroy (subscriber : option ptr) : TC mama_status :=
  match subscriber with
  | None => mret MAMA_STATUS_NULL_ARG
  | Some p =>
      impl ← deref_sub p;
      (if decide (sub_isWildcard impl = 0)%Z then
         match sub_subjectKey impl, sub_endpointIdentifier impl with
         | Some key, Some id =>
             lock_subs ;;
             cmodify (λ s, set_pool (endpointPool_unregister (mSubEndpoints s) key id) s) ;;
             unlock_subs
         | Some key, None => ub
         | None, _ => mret ()
         end
       else
         match sub_endpointIdentifier impl with
         | Some id =>
             lock_wcs ;;
             zmqBridgeMamaTransportImpl_unregisterWildcard id ;;
             unlock_wcs
         | None => mret ()
         end) ;;
      match sub_onDestroy impl with
      | Some cb => emit (oSubDestroyed cb (sub_subscription impl) (sub_closure impl))
      | None => mret ()
      end ;;
      key ← cpart (sub_subjectKey impl);
      status ← zmqBridgeMamaSubscriptionImpl_unsubscribe key;
      free_sub p ;;
      mret status
  end.

(** ** Dispatching received messages *)

Definition enqueueMsg (queue : handle) (cb : callback) (id zmsg : list byte) : TC () :=
  id' ← cpart (strcpy (ZMQ_REPLYHANDLE_INBOXNAME_SIZE + 1) id);
  emit (oEnqueue queue cb (mkTMsg id' zmsg)).

Definition zmqBridgeMamaTransportImpl_dispatchInboxMsg (zmsg : list byte) : TC mama_status :=
  cmodify (λ s, upd_counts (mNormalMessages s) (mInboxMessages s + 1) (mSubMessages s) s) ;;
  inboxName ← cpart (cstring (drop ZMQ_REPLYHANDLE_INBOXNAME_INDEX zmsg));
  lock_inboxes ;;
  s ← cget;
  match wtable_lookup (mInboxes s) inboxName with
  | None => unlock_inboxes ;; mret MAMA_STATUS_NOT_FOUND
  | Some p =>
      inbox ← deref_inbox p;
      unlock_inboxes ;;
      enqueueMsg (ib_zmqQueue inbox) inboxCallback inboxName zmsg ;;
      mret MAMA_STATUS_OK
  end.

(** One element of the list of wildcard subscriptions. *)
Definition zmqBridgeMamaTransportImpl_matchWildcards (zmsg subject : list byte) (p : ptr) : TC () :=
  i ← deref_sub p;
  key ← cpart (sub_subjectKey i);
  same ← cpart (memcmp_eq key zmsg (length key));
  if (same : bool) then
    regex ← cpart (sub_origRegex i);
    if regexec regex subject then
      id ← cpart (sub_endpointIdentifier i);
      enqueueMsg (sub_zmqQueue i) wcCallback id zmsg
    else mret ()
  else mret ().

(** One regular subscriber. *)
Definition dispatch_subscriber (zmsg : list byte) (p : ptr) : TC () :=
  i ← deref_sub p;
  (if decide (sub_isTportDisconnected i = 1)%Z then store_sub p set_connected else mret ()) ;;
  if decide (sub_isNotMuted i = 1)%Z then
    id ← cpart (sub_endpointIdentifier i);
    enqueueMsg (sub_zmqQueue i) subCallback id zmsg
  else mret ().

Definition zmqBridgeMamaTransportImpl_dispatchSubMsg (zmsg : list byte) : TC mama_status :=
  cmodify (λ s, upd_counts (mNormalMessages s) (mInboxMessages s) (mSubMessages s + 1) s) ;;
  subject ← cpart (cstring zmsg);
  lock_wcs ;;
  s ← cget;
  cforeach (zmqBridgeMamaTransportImpl_matchWildcards zmsg subject) (list_elems (mWcEndpoints s)) ;;
  unlock_wcs ;;
  lock_subs ;;
  s ← cget;
  let '(status, subs) := endpointPool_getRegistered (mSubEndpoints s) subject in
  if decide (status ≠ MAMA_STATUS_OK) then unlock_subs ;; mret MAMA_STATUS_SYSTEM_ERROR
  else if decide (subs = []) then unlock_subs ;; mret MAMA_STATUS_NOT_FOUND
  else
    cforeach (dispatch_subscriber zmsg) subs ;;
    unlock_subs ;;
    mret MAMA_STATUS_OK.

Definition ZMQ_REPLYHANDLE_PREFIX : list byte := lit "_INBOX".

Definition zmqBridgeMamaTransportImpl_dispatchNormalMsg (zmsg : list byte) : TC mama_status :=
  cmodify (λ s, upd_counts (mNormalMessages s + 1) (mInboxMessages s) (mSubMessages s) s) ;;
  inbox ← cpart (memcmp_eq ZMQ_REPLYHANDLE_PREFIX zmsg (length ZMQ_REPLYHANDLE_PREFIX));
  if (inbox : bool) then zmqBridgeMamaTransportImpl_dispatchInboxMsg zmsg
  else zmqBridgeMamaTransportImpl_dispatchSubMsg zmsg.

(** ** Callbacks of queued messages *)

(** Get the queue's cached message and deserialize into it: [None] when an
    error was reported. *)
Definition deserialize_cached (mamaQueue : handle) (zmsg : list byte)
    : TC (option (zmqBridgeMsgImpl handle * msgBuffer)) :=
  s ← cget;
  match h_msgs s !! mamaQueue with
  | None => mret None
  | Some m =>
      r ← cpart (zmqBridgeMamaMsgImpl_deserialize setMsgBuffer (Some m) zmsg);
      match r with
      | (status, Some m', call) =>
          cmodify (λ s, set_h_msgs (<[mamaQueue := m']> (h_msgs s)) s) ;;
          mret (if decide (status = MAMA_STATUS_OK) then (λ c, (m', c)) <$> call else None)
      | _ => ub
      end
  end.

Definition zmqBridgeMamaInboxImpl_onMsg (impl : zmqInboxImpl) (msg : zmqBridgeMsgImpl handle)
    (payload : msgBuffer) : TC () :=
  if decide (mReplyHandle msg = []) then mret ()
  else if decide (ib_replyHandle impl ≠ mReplyHandle msg) then mret ()
  else match ib_msgCB impl with
       | Some cb => emit (oInboxMsg cb (ib_closure impl) payload)
       | None => mret ()
       end.

Definition zmqBridgeMamaTransportImpl_inboxCallback (tmsg : zmqTransportMsg) : TC () :=
  lock_inboxes ;;
  s ← cget;
  unlock_inboxes ;;
  match wtable_lookup (mInboxes s) (tm_endpointIdentifier tmsg) with
  | None => mret ()
  | Some p =>
      inbox ← deref_inbox p;
      r ← deserialize_cached (ib_mamaQueue inbox) (tm_zmsg tmsg);
      match r with
      | None => mret ()
      | Some (m, payload) => zmqBridgeMamaInboxImpl_onMsg inbox m payload
      end
  end ;;
  emit oMsgClose.

Definition zmqBridgeMamaTransportImpl_subCallback (tmsg : zmqTransportMsg) : TC () :=
  subject ← cpart (cstring (tm_zmsg tmsg));
  s ← cget;
  match endpointPool_getEndpoint (mSubEndpoints s) subject (tm_endpointIdentifier tmsg) with
  | None => mret ()
  | Some p =>
      subscription ← deref_sub p;
      if decide (sub_isNotMuted subscription ≠ 1)%Z then mret ()
      else
        r ← deserialize_cached (sub_mamaQueue subscription) (tm_zmsg tmsg);
        match r with
        | None => mret ()
        | Some (m, payload) => emit (oProcessMsg (sub_subscription subscription) payload)
        end
  end ;;
  emit oMsgClose.

Definition zmqBridgeMamaTransportImpl_wcCallback (tmsg : zmqTransportMsg) : TC () :=
  subject ← cpart (cstring (tm_zmsg tmsg));
  found ← zmqBridgeMamaTransportImpl_findWildcard (tm_endpointIdentifier tmsg);
  match found with
  | None => mret ()
  | Some p =>
      subscription ← deref_sub p;
      if decide (sub_isNotMuted subscription ≠ 1)%Z then mret ()
      else
        r ← deserialize_cached (sub_mamaQueue subscription) (tm_zmsg tmsg);
        match r with
        | None => mret ()
        | Some (m, payload) =>
            emit (oProcessWildCardMsg (sub_subscription subscription) subject
                    (sub_closure subscription) payload)
        end
  end ;;
  emit oMsgClose.

Definition run_callback (cb : callback) (tmsg : zmqTransportMsg) : TC () :=
  match cb with
  | inboxCallback => zmqBridgeMamaTransportImpl_inboxCallback tmsg
  | subCallback => zmqBridgeMamaTransportImpl_subCallback tmsg
  | wcCallback => zmqBridgeMamaTransportImpl_wcCallback tmsg
  end.

End Routing.

Arguments transport : clear implicits.

End ZT.
