(* ===== verification/RoutingProofs.v ===== *)
(** * No dangling pointers, correct routing

    The invariant that ties the transport's collections to the heaps, its
    preservation by every operation, and the safety of every interleaving of
    creations, destructions, received messages and queued callbacks. *)

From S2P Require Import Prelude CLib CMonad Msg Util Subject Socket Collections Routing.
Import ZM ZU Subj Sock ZT.

(** The lock operations log and nothing else. *)
Lemma wp_lock {T P L} (m : C (transport T P L) tobs ()) l (Q : _ → _ → list tobs → Prop) s :
  m s = Some ((), s, [oZmq l]) → Q () s [oZmq l] → wp m Q s.
Proof. intros E HQ. unfold wp. by rewrite E. Qed.

Ltac wp_lock_step :=
  lazymatch goal with
  | |- wp lock_inboxes _ _ => eapply wp_lock; [reflexivity|]
  | |- wp unlock_inboxes _ _ => eapply wp_lock; [reflexivity|]
  | |- wp lock_subs _ _ => eapply wp_lock; [reflexivity|]
  | |- wp unlock_subs _ _ => eapply wp_lock; [reflexivity|]
  | |- wp lock_wcs _ _ => eapply wp_lock; [reflexivity|]
  | |- wp unlock_wcs _ _ => eapply wp_lock; [reflexivity|]
  end.
Ltac wp_locks := repeat ((wp_lock_step || wp_step); cbv zeta).

Section RoutingProofs.

Context {T P L : Type}.
Context `{HT : StrTable T ptr} `{!StrTableLaws T ptr}.
Context `{HP : EndpointPool P ptr} `{HPL : !EndpointPoolLaws P ptr}.
Context `{HL : WList L ptr} `{!WListLaws L ptr}.
Context `{!WStr}.
Context (rc : nat → zcall → Z) (regexec : list byte → list byte → bool).
Context (setMsgBuffer : msgBuffer → mama_status) (junk : nat → byte).

Notation TC := (C (transport T P L) tobs).
Implicit Types s : transport T P L.

(** ** The invariant *)

(** The [n]-th serial number. *)
Definition serial (n : Z) : list byte := hexn ZMQ_REPLYHANDLE_INBOXNAME_SIZE n.

Record inv_core (subject : list byte) (uid : Z) (table : T) (pool : P) (wcs : L)
    (hi : gmap ptr zmqInboxImpl) (hs : gmap ptr zmqSubscription) (next : ptr) : Prop := {
  inv_subject : is_cstr subject ∧ length subject = ZMQ_INBOX_SUBJECT_SIZE;
  inv_uid : (0 <= uid < 2 ^ 64)%Z;
  inv_table k p : wtable_lookup table k = Some p →
    ∃ ib, hi !! p = Some ib ∧ ib_replyHandle ib = subject ++ x2e :: k;
  inv_inbox p ib : hi !! p = Some ib →
    ∃ n, (1 <= n <= uid)%Z ∧ ib_replyHandle ib = subject ++ x2e :: serial n;
  inv_inbox_inj p p' ib ib' : hi !! p = Some ib → hi !! p' = Some ib' →
    ib_replyHandle ib = ib_replyHandle ib' → p = p';
  inv_pool t i p : (t, i, p) ∈ pool_entries pool →
    ∃ sb, hs !! p = Some sb ∧ sub_subjectKey sb = Some t ∧ sub_endpointIdentifier sb = Some i
          ∧ length i = ZMQ_REPLYHANDLE_INBOXNAME_SIZE ∧ sub_isWildcard sb = 0%Z;
  inv_wcs_nodup : NoDup (list_elems wcs);
  inv_wcs p : p ∈ list_elems wcs →
    ∃ sb key i, hs !! p = Some sb ∧ sub_subjectKey sb = Some key ∧ is_cstr key
      ∧ sub_endpointIdentifier sb = Some i ∧ length i = ZMQ_REPLYHANDLE_INBOXNAME_SIZE
      ∧ is_Some (sub_origRegex sb) ∧ sub_isWildcard sb ≠ 0%Z;
  inv_sub_id p sb : hs !! p = Some sb →
    is_Some (sub_subjectKey sb) → is_Some (sub_endpointIdentifier sb);
  inv_next p : next ≤ p → hi !! p = None ∧ hs !! p = None }.

Definition inv s : Prop :=
  inv_core (mInboxSubject s) (mInboxUid s) (mInboxes s) (mSubEndpoints s) (mWcEndpoints s)
    (h_inboxes s) (h_subs s) (h_next s).

(** Everything the invariant speaks about. *)
Definition core s :=
  (mInboxSubject s, mInboxUid s, mInboxes s, mSubEndpoints s, mWcEndpoints s,
   h_inboxes s, h_subs s, h_next s, mSubUid s, mWcsUid s).

Lemma inv_core_eq s s' : core s' = core s → inv s → inv s'.
Proof. unfold core, inv. intros [= -> -> -> -> -> -> -> -> _ _]. done. Qed.

(** A transport whose collections are empty. *)
Lemma inv_initial s :
  is_cstr (mInboxSubject s) → length (mInboxSubject s) = ZMQ_INBOX_SUBJECT_SIZE →
  mInboxUid s = 0%Z → (∀ k, wtable_lookup (mInboxes s) k = None) →
  pool_entries (mSubEndpoints s) = [] → list_elems (mWcEndpoints s) = [] →
  h_inboxes s = ∅ → h_subs s = ∅ → inv s.
Proof.
  intros Hc Hl Hu Ht Hp Hw Hi Hs. split.
  - done.
  - lia.
  - intros k p. by rewrite Ht.
  - intros p ib. by rewrite Hi, lookup_empty.
  - intros p p' ib ib'. by rewrite Hi, lookup_empty.
  - intros t i p. rewrite Hp. by intros ?%not_elem_of_nil.
  - rewrite Hw. apply NoDup_nil_2.
  - intros p. rewrite Hw. by intros ?%not_elem_of_nil.
  - intros p sb. by rewrite Hs, lookup_empty.
  - intros p _. by rewrite Hi, Hs, !lookup_empty.
Qed.

(** ** Steps that leave the core alone *)

Lemma wp_deref_inbox p ib (Q : _ → _ → list tobs → Prop) s :
  h_inboxes s !! p = Some ib → Q ib s [] → wp (deref_inbox p) Q s.
Proof. intros E HQ. unfold deref_inbox. wp_steps. by eapply wp_part. Qed.

Lemma wp_deref_sub p sb (Q : _ → _ → list tobs → Prop) s :
  h_subs s !! p = Some sb → Q sb s [] → wp (deref_sub p) Q s.
Proof. intros E HQ. unfold deref_sub. wp_steps. by eapply wp_part. Qed.

(** Sending a command keeps the core. *)
Lemma wp_sendCommand msg s :
  wp (zmqBridgeMamaTransportImpl_sendCommand rc msg) (λ _ s' _, core s' = core s) s.
Proof. unfold zmqBridgeMamaTransportImpl_sendCommand, zmq. wp_steps. done. Qed.

Lemma inbox_name_drop (subject k : list byte) :
  length subject = ZMQ_INBOX_SUBJECT_SIZE →
  drop ZMQ_REPLYHANDLE_INBOXNAME_INDEX (subject ++ x2e :: k) = k.
Proof.
  intros Hl. unfold ZMQ_REPLYHANDLE_INBOXNAME_INDEX. rewrite <-Hl. by rewrite drop_app_add.
Qed.

Lemma wp_inbox_name (subject k : list byte) (Q : _ → _ → list tobs → Prop) s :
  length subject = ZMQ_INBOX_SUBJECT_SIZE → Q k s [] →
  wp (inbox_name (subject ++ x2e :: k)) Q s.
Proof.
  intros Hl HQ. unfold inbox_name. rewrite decide_True.
  - rewrite inbox_name_drop by done. by apply wp_ret.
  - unfold ZMQ_REPLYHANDLE_INBOXNAME_INDEX. rewrite length_app, Hl. cbn [length]. lia.
Qed.

Lemma serial_inj n n' : (0 <= n < 2 ^ 64)%Z → (0 <= n' < 2 ^ 64)%Z → serial n = serial n' → n = n'.
Proof. intros. by apply (hexn_inj 16). Qed.

(** A reply handle determines its inbox name. *)
Lemma handle_inj (subject k k' : list byte) : subject ++ x2e :: k = subject ++ x2e :: k' → k = k'.
Proof. intros E%app_inv_head. by injection E. Qed.

Lemma length_serial n : length (serial n) = ZMQ_REPLYHANDLE_INBOXNAME_SIZE.
Proof. apply length_hexn. Qed.

(** ** Who holds an identifier

    [(t, i, p)]: the subscription at [p] is registered for the subject or
    prefix [t] under the identifier [i], as a regular or as a wildcard
    subscriber. *)
Definition holds s (cb : callback) (x : list byte * list byte * ptr) : Prop :=
  match cb with
  | subCallback => x ∈ pool_entries (mSubEndpoints s)
  | wcCallback => x.2 ∈ list_elems (mWcEndpoints s)
      ∧ ∃ sb, h_subs s !! x.2 = Some sb ∧ sub_subjectKey sb = Some x.1.1
              ∧ sub_endpointIdentifier sb = Some x.1.2
  | inboxCallback => False
  end.

(** The counter the identifiers are made of. *)
Definition uid s (cb : callback) : Z :=
  match cb with subCallback => mSubUid s | wcCallback => mWcsUid s | inboxCallback => 0 end.

(** Nobody new. *)
Definition ids_less s s' : Prop :=
  ∀ cb, uid s' cb = uid s cb ∧ ∀ x, holds s' cb x → holds s cb x.

(** At most [p] is new, with the next identifier. *)
Definition ids_step (p : ptr) s s' : Prop :=
  ∀ cb, (uid s' cb = uid s cb ∧ ∀ x, holds s' cb x → holds s cb x)
    ∨ (uid s' cb = wrapu 64 (uid s cb + 1)
       ∧ ∀ t i p', holds s' cb (t, i, p') → holds s cb (t, i, p') ∨ i = serial (uid s' cb) ∧ p' = p).

Lemma ids_less_step p s s' : ids_less s s' → ids_step p s s'.
Proof. intros Hs cb. left. apply Hs. Qed.

Lemma ids_less_trans s1 s2 s3 : ids_less s1 s2 → ids_less s2 s3 → ids_less s1 s3.
Proof. intros H1 H2 cb. destruct (H1 cb), (H2 cb). split; [congruence|auto]. Qed.

Lemma ids_less_l p s1 s2 s3 : ids_less s1 s2 → ids_step p s2 s3 → ids_step p s1 s3.
Proof.
  intros H1 H2 cb. destruct (H1 cb) as [E1 L1], (H2 cb) as [[E2 L2]|[E2 L2]]; [left|right].
  - split; [congruence|auto].
  - split; [congruence|]. intros t i p' [?|?]%L2; auto.
Qed.

Lemma holds_core s s' cb x : core s' = core s → holds s' cb x ↔ holds s cb x.
Proof. intros [= _ _ _ E4 E5 _ E7 _ _ _]. destruct cb; cbn; by rewrite ?E4, ?E5, ?E7. Qed.

Lemma uid_core s s' cb : core s' = core s → uid s' cb = uid s cb.
Proof. intros [= _ _ _ _ _ _ _ _ E9 E10]. by destruct cb. Qed.

Lemma ids_step_core p s1 s2 s3 : core s3 = core s2 → ids_step p s1 s2 → ids_step p s1 s3.
Proof.
  intros E Hs cb. rewrite (uid_core _ _ cb E). destruct (Hs cb) as [[E2 L2]|[E2 L2]]; [left|right].
  - split; [done|]. intros x. rewrite (holds_core _ _ cb x E). auto.
  - split; [done|]. intros t i p'. rewrite (holds_core _ _ cb _ E). auto.
Qed.

Lemma ids_less_core s s' : core s' = core s → ids_less s s'.
Proof. intros E cb. split; [by apply uid_core|]. intros x. by rewrite (holds_core _ _ cb x E). Qed.

(** The fields the invariant reads. *)
Definition sub_ident (sb : zmqSubscription) :=
  (sub_subjectKey sb, sub_endpointIdentifier sb, sub_isWildcard sb, sub_origRegex sb).

(** The collections only shrink, and the subscriptions in the list keep their
    names. *)
Lemma ids_less_intro s s' :
  mSubUid s' = mSubUid s → mWcsUid s' = mWcsUid s →
  (∀ x, x ∈ pool_entries (mSubEndpoints s') → x ∈ pool_entries (mSubEndpoints s)) →
  (∀ p, p ∈ list_elems (mWcEndpoints s') → p ∈ list_elems (mWcEndpoints s)
     ∧ sub_ident <$> h_subs s' !! p = sub_ident <$> h_subs s !! p) →
  ids_less s s'.
Proof.
  intros E1 E2 Hp Hw cb. split; [by destruct cb|]. intros [[t i] p]. destruct cb; cbn; [done|apply Hp|].
  intros [Hin (sb & Es & Ek & Ei)]. destruct (Hw p Hin) as [Hin' E]. split; [done|].
  rewrite Es in E. destruct (h_subs s !! p) as [sb'|]; [|done]. cbn in E. injection E as ? ? ? ?.
  exists sb'. split; [done|]. split; congruence.
Qed.

(** ** Inboxes *)

(** Add an inbox to the heap, and to the table if the insertion succeeds. *)
Lemma inv_add_inbox subject uid table table' pool wcs hi hs next ib :
  inv_core subject uid table pool wcs hi hs next → (uid + 1 < 2 ^ 64)%Z →
  ib_replyHandle ib = subject ++ x2e :: serial (uid + 1) →
  (∀ k p, wtable_lookup table' k = Some p →
     (k = serial (uid + 1) ∧ p = next) ∨ wtable_lookup table k = Some p) →
  inv_core subject (uid + 1) table' pool wcs (<[next := ib]> hi) hs (S next).
Proof.
  intros [[Hc Hl] Hu Ht Hi Hinj Hp Hwn Hw Hid Hn] Hlt Hib Hins.
  destruct (Hn next (le_n _)) as [Hni Hns].
  assert (∀ p ib', hi !! p = Some ib' → ib_replyHandle ib ≠ ib_replyHandle ib') as Hnew.
  { intros p ib' E Eh. apply Hi in E as (n & ? & Eh'). rewrite Hib, Eh' in Eh.
    apply handle_inj, serial_inj in Eh; lia. }
  split; try done.
  - lia.
  - intros k p [[-> ->]|E']%Hins.
    + rewrite lookup_insert_eq. eauto.
    + apply Ht in E' as (ib' & E' & Eh). exists ib'. split; [|done].
      rewrite lookup_insert_ne; [done|]. intros <-. congruence.
  - intros p ib' [[<- <-]|[Hne E]]%lookup_insert_Some.
    + exists (uid + 1)%Z. split; [lia|done].
    + apply Hi in E as (n & ? & ?). exists n. split; [lia|done].
  - intros p p' ib1 ib2 [[<- <-]|[Hne E]]%lookup_insert_Some [[<- <-]|[Hne' E']]%lookup_insert_Some Eh;
      try done.
    + by destruct (Hnew p' ib2 E').
    + by destruct (Hnew p ib1 E).
    + by eapply Hinj.
  - intros p Hp'. rewrite lookup_insert_ne by lia. apply Hn. lia.
Qed.

(** Free an inbox that the table does not refer to. *)
Lemma inv_drop_inbox subject uid table table' pool wcs hi hs next p :
  inv_core subject uid table pool wcs hi hs next →
  (∀ k p', wtable_lookup table' k = Some p' → wtable_lookup table k = Some p' ∧ p' ≠ p) →
  inv_core subject uid table' pool wcs (delete p hi) hs next.
Proof.
  intros [[Hc Hl] Hu Ht Hi Hinj Hp Hwn Hw Hid Hn] Htab. split; try done.
  - intros k p' [E Hne]%Htab. apply Ht in E as (ib & E & Eh). exists ib.
    by rewrite lookup_delete_ne.
  - intros p' ib [_ E]%lookup_delete_Some. eauto.
  - intros p1 p2 ib1 ib2 [_ E1]%lookup_delete_Some [_ E2]%lookup_delete_Some. eauto.
  - intros p' Hp'. destruct (Hn p' Hp') as [E1 E2]. split; [|done].
    apply lookup_delete_None. by right.
Qed.

Lemma fresh_serial s :
  inv s → (mInboxUid s + 1 < 2 ^ 64)%Z →
  wtable_lookup (mInboxes s) (serial (mInboxUid s + 1)) = None.
Proof.
  intros Hinv Hlt. destruct (wtable_lookup _ _) as [p|] eqn:E; [|done]. exfalso.
  apply (inv_table _ _ _ _ _ _ _ _ Hinv) in E as (ib & E & Eh).
  apply (inv_inbox _ _ _ _ _ _ _ _ Hinv) in E as (n & Hn & Eh'). rewrite Eh in Eh'.
  pose proof (inv_uid _ _ _ _ _ _ _ _ Hinv). apply handle_inj, serial_inj in Eh'; lia.
Qed.

Lemma make_replyHandle_fits s n :
  inv s → make_replyHandle (mInboxSubject s) (serial n) = Some (mInboxSubject s ++ x2e :: serial n).
Proof.
  intros Hinv. apply strcpy_fits. rewrite length_app.
  rewrite (proj2 (inv_subject _ _ _ _ _ _ _ _ Hinv)). cbn [length]. rewrite length_serial.
  vm_compute. lia.
Qed.

(** What a successful creation leaves behind. *)
Definition new_inbox s cl mq zq cb ecb dcb par : zmqInboxImpl :=
  mkInbox cl mq zq (Some cb) ecb dcb par (mInboxSubject s ++ x2e :: serial (mInboxUid s + 1)).

Lemma wp_createInbox mq zq cb ecb dcb cl par s :
  inv s → (mInboxUid s + 1 < 2 ^ 64)%Z →
  wp (zmqBridgeMamaInbox_createByIndex true true mq zq cb ecb dcb cl par)
    (λ r s' _, inv s' ∧ ids_less s s' ∧ ∀ p, r.2 = Some p →
      r.1 = MAMA_STATUS_OK ∧ p = h_next s
      ∧ h_inboxes s' = <[p := new_inbox s cl mq zq cb ecb dcb par]> (h_inboxes s)
      ∧ wtable_lookup (mInboxes s') (serial (mInboxUid s + 1)) = Some p
      ∧ h_msgs s' = h_msgs s ∧ mInboxSubject s' = mInboxSubject s) s.
Proof.
  intros Hinv Hlt. pose proof (inv_uid _ _ _ _ _ _ _ _ Hinv).
  pose proof (inv_subject _ _ _ _ _ _ _ _ Hinv) as [Hc Hl].
  unfold zmqBridgeMamaInbox_createByIndex. wp_steps. unfold zmqBridge_generateSerial.
  rewrite (wrapu_id 64) by lia. change (hexn _ (mInboxUid s + 1)) with (serial (mInboxUid s + 1)).
  wp_steps. eapply wp_part; [by apply make_replyHandle_fits|].
  wp_steps. unfold zmqBridgeMamaTransportImpl_registerInbox. wp_steps.
  eapply wp_deref_inbox; [apply lookup_insert_eq|].
  wp_locks. cbn [ib_replyHandle]. apply wp_inbox_name; [done|]. wp_locks. cbn [mInboxes upd_inboxes].
  pose proof (law_insert _ _ (h_next s) (fresh_serial s Hinv Hlt)) as Hins.
  destruct (wtable_insert (mInboxes s) _ (h_next s)) as [r t']. wp_locks. cbn [fst snd].
  split_and!; [|by apply ids_less_intro|].
  - apply (inv_add_inbox _ _ (mInboxes s)); [exact Hinv|done|done|]. cbn. intros k p E.
    destruct Hins as [[_ Hl']|[_ ->]]; [|by right]. rewrite Hl' in E. case_decide; [left|by right].
    by simplify_eq.
  - intros p Ep. destruct (decide (0 <= r)%Z) as [Hr|]; cbn in Ep; [|done]. injection Ep as <-.
    destruct Hins as [[_ Hl']|[? _]]; [|lia]. split_and!; try done.
    change (wtable_lookup t' (serial (mInboxUid s + 1)) = Some (h_next s)).
    rewrite Hl'. by rewrite decide_True.
Qed.

Lemma wp_destroyInbox p ib s :
  inv s → h_inboxes s !! p = Some ib →
  wp (zmqBridgeMamaInbox_destroy (Some p))
    (λ _ s' _, inv s' ∧ ids_less s s' ∧ h_inboxes s' = delete p (h_inboxes s)
      ∧ (∀ k, ib_replyHandle ib = mInboxSubject s ++ x2e :: k → wtable_lookup (mInboxes s') k = None)) s.
Proof.
  intros Hinv Hp. pose proof (inv_subject _ _ _ _ _ _ _ _ Hinv) as [Hc Hl].
  destruct (inv_inbox _ _ _ _ _ _ _ _ Hinv _ _ Hp) as (n & Hn & Eh).
  unfold zmqBridgeMamaInbox_destroy, zmqBridgeMamaTransportImpl_unregisterInbox.
  wp_steps. eapply wp_deref_inbox; [done|]. wp_locks. rewrite Eh. apply wp_inbox_name; [done|].
  wp_locks. pose proof (law_remove (mInboxes s) (serial n)) as Hrem.
  destruct (wtable_remove (mInboxes s) (serial n)) as [old t']. destruct Hrem as [_ Hl'].
  wp_locks. eapply wp_deref_inbox; [done|].
  wp_steps. destruct (ib_onDestroyed ib); wp_steps; unfold free_inbox; wp_steps;
    (eapply wp_deref_inbox; [done|]); wp_steps;
    (split_and!; [|by apply ids_less_intro|done|intros k Ek; apply handle_inj in Ek as <-; cbn;
                        by rewrite Hl', decide_True]);
    (apply (inv_drop_inbox _ _ (mInboxes s)); [exact Hinv|]; intros k p' Hk;
     cbn in Hk; rewrite Hl' in Hk; case_decide as Hd; [done|]; split; [done|]; intros ->;
     apply (inv_table _ _ _ _ _ _ _ _ Hinv) in Hk as (ib' & E' & Eh'); simplify_eq;
     apply Hd; rewrite Eh in Eh'; by apply handle_inj in Eh').
Qed.

(** ** Subscriptions *)

(** A registration of [p] under the next identifier. *)
Lemma ids_step_register p key s s' :
  p ∉ list_elems (mWcEndpoints s) → mSubUid s' = wrapu 64 (mSubUid s + 1) → mWcsUid s' = mWcsUid s →
  mSubEndpoints s' = endpointPool_register (mSubEndpoints s) key (serial (mSubUid s')) p →
  mWcEndpoints s' = mWcEndpoints s → (∀ q, q ≠ p → h_subs s' !! q = h_subs s !! q) → ids_step p s s'.
Proof.
  intros Hp E1 E2 E3 E4 Eh cb. destruct cb; cbn; [by left| |left].
  - right. split; [done|]. intros t i q. rewrite E3, law_register, elem_of_app, list_elem_of_singleton.
    intros [?|[= -> -> ->]]; auto.
  - split; [done|]. intros [[t i] q]. rewrite E4. cbn. intros [Hin Hsb]. split; [done|].
    rewrite <-Eh; [done|]. by intros ->.
Qed.

Lemma ids_step_push p sb s s' :
  p ∉ list_elems (mWcEndpoints s) → mSubUid s' = mSubUid s → mWcsUid s' = wrapu 64 (mWcsUid s + 1) →
  mSubEndpoints s' = mSubEndpoints s → mWcEndpoints s' = list_push_back (mWcEndpoints s) p →
  (∀ q, q ≠ p → h_subs s' !! q = h_subs s !! q) →
  h_subs s' !! p = Some sb → sub_endpointIdentifier sb = Some (serial (mWcsUid s')) → ids_step p s s'.
Proof.
  intros Hp E1 E2 E3 E4 Eh Es Ei cb. destruct cb; cbn; [by left|left|right].
  - by rewrite E3.
  - split; [done|]. intros t i q. rewrite E4, law_push, elem_of_app, list_elem_of_singleton.
    intros [[Hin| ->] (sb' & Es' & Ek' & Ei')].
    + left. split; [done|]. exists sb'. rewrite <-Eh; [done|]. by intros ->.
    + right. simplify_eq. done.
Qed.

Lemma inv_store_sub subject uid table pool wcs hi hs next p sb sb' :
  inv_core subject uid table pool wcs hi hs next → hs !! p = Some sb →
  sub_ident sb' = sub_ident sb →
  inv_core subject uid table pool wcs hi (<[p := sb']> hs) next.
Proof.
  intros [Hs Hu Ht Hi Hinj Hp Hwn Hw Hid Hn] E [= E1 E2 E3 E4]. split; try done.
  - intros t i p' Hin. destruct (Hp _ _ _ Hin) as (x & Ex & ? & ? & ? & ?).
    destruct (decide (p' = p)) as [->|Hne].
    + rewrite lookup_insert_eq. exists sb'. simplify_eq. split_and!; congruence.
    + rewrite lookup_insert_ne by done. eauto 10.
  - intros p' Hin. destruct (Hw _ Hin) as (x & key & i & Ex & ? & ? & ? & ? & ? & ?).
    destruct (decide (p' = p)) as [->|Hne].
    + rewrite lookup_insert_eq. exists sb', key, i. simplify_eq. split_and!; congruence.
    + rewrite lookup_insert_ne by done. eauto 10.
  - intros p' x [[<- <-]|[_ Ex]]%lookup_insert_Some; [|eauto]. rewrite E1, E2. eauto.
  - intros p' Hp'. destruct (Hn p' Hp') as [? ?]. split; [done|].
    rewrite lookup_insert_ne by congruence. done.
Qed.

Lemma inv_add_sub subject uid table pool pool' wcs wcs' hi hs next sb :
  inv_core subject uid table pool wcs hi hs next →
  (is_Some (sub_subjectKey sb) → is_Some (sub_endpointIdentifier sb)) →
  (∀ t i p, (t, i, p) ∈ pool_entries pool' → (t, i, p) ∈ pool_entries pool ∨
     p = next ∧ sub_subjectKey sb = Some t ∧ sub_endpointIdentifier sb = Some i
     ∧ length i = ZMQ_REPLYHANDLE_INBOXNAME_SIZE ∧ sub_isWildcard sb = 0%Z) →
  NoDup (list_elems wcs') →
  (∀ p, p ∈ list_elems wcs' → p ∈ list_elems wcs ∨
     p = next ∧ ∃ key i, sub_subjectKey sb = Some key ∧ is_cstr key
      ∧ sub_endpointIdentifier sb = Some i ∧ length i = ZMQ_REPLYHANDLE_INBOXNAME_SIZE
      ∧ is_Some (sub_origRegex sb) ∧ sub_isWildcard sb ≠ 0%Z) →
  inv_core subject uid table pool' wcs' hi (<[next := sb]> hs) (S next).
Proof.
  intros [Hs Hu Ht Hi Hinj Hp Hwn Hw Hid Hn] Hk Hpool Hnd Hwcs.
  destruct (Hn next (le_n _)) as [Hni Hns]. split; try done.
  - intros t i p [Hin|(-> & ? & ? & ? & ?)]%Hpool.
    + destruct (Hp _ _ _ Hin) as (x & Ex & ?). exists x. split; [|done].
      rewrite lookup_insert_ne; [done|]. intros <-. congruence.
    + exists sb. by rewrite lookup_insert_eq.
  - intros p [Hin|(-> & key & i & ?)]%Hwcs.
    + destruct (Hw _ Hin) as (x & key & i & Ex & ?). exists x, key, i. split; [|done].
      rewrite lookup_insert_ne; [done|]. intros <-. congruence.
    + exists sb, key, i. by rewrite lookup_insert_eq.
  - intros p x [[<- <-]|[_ Ex]]%lookup_insert_Some; [done|eauto].
  - intros p Hp'. destruct (Hn p) as [? ?]; [lia|]. split; [done|].
    rewrite lookup_insert_ne by lia. done.
Qed.

Lemma inv_drop_sub subject uid table pool pool' wcs wcs' hi hs next p :
  inv_core subject uid table pool wcs hi hs next →
  (∀ t i p', (t, i, p') ∈ pool_entries pool' → (t, i, p') ∈ pool_entries pool ∧ p' ≠ p) →
  NoDup (list_elems wcs') →
  (∀ p', p' ∈ list_elems wcs' → p' ∈ list_elems wcs ∧ p' ≠ p) →
  inv_core subject uid table pool' wcs' hi (delete p hs) next.
Proof.
  intros [Hs Hu Ht Hi Hinj Hp Hwn Hw Hid Hn] Hpool Hnd Hwcs. split; try done.
  - intros t i p' [Hin Hne]%Hpool. destruct (Hp _ _ _ Hin) as (x & Ex & ?). exists x.
    by rewrite lookup_delete_ne.
  - intros p' [Hin Hne]%Hwcs. destruct (Hw _ Hin) as (x & key & i & Ex & ?). exists x, key, i.
    by rewrite lookup_delete_ne.
  - intros p' x [_ Ex]%lookup_delete_Some. eauto.
  - intros p' Hp'. destruct (Hn p' Hp') as [? ?]. split; [done|]. apply lookup_delete_None. by right.
Qed.

Lemma wp_store_sub p sb f (Q : _ → _ → list tobs → Prop) s :
  h_subs s !! p = Some sb → Q () (set_h_subs (<[p := f sb]> (h_subs s)) s) [] →
  wp (store_sub p f) Q s.
Proof. intros E HQ. unfold store_sub. wp_steps. by eapply wp_deref_sub; [done|]. Qed.

(** After a command the core is as before. *)
Lemma wp_subscribe key (Q : _ → _ → list tobs → Prop) s :
  (∀ st s' o, core s' = core s → Q st s' o) →
  wp (zmqBridgeMamaSubscriptionImpl_subscribe rc junk key) Q s.
Proof. intros HQ. eapply wp_mono; [|apply wp_sendCommand]. auto. Qed.

(** The end of both creations: the command, then the flag of a valid
    subscription. *)
Lemma wp_subscribe_valid p sb key (Q : _ → _ → list tobs → Prop) s :
  h_subs s !! p = Some sb →
  (∀ st s' o sb', core s' = core (set_h_subs (<[p := sb']> (h_subs s)) s) →
     sub_ident sb' = sub_ident sb → Q st s' o) →
  wp (status ← zmqBridgeMamaSubscriptionImpl_subscribe rc junk key;
      if decide (status = MAMA_STATUS_OK) then store_sub p set_valid ;; mret MAMA_STATUS_OK
      else mret status) Q s.
Proof.
  intros E HQ. wp_steps. apply wp_subscribe. intros st s1 o1 Hc.
  assert (h_subs s1 = h_subs s) as Eh by (by injection Hc).
  destruct (decide (st = MAMA_STATUS_OK)); wp_steps.
  - eapply wp_store_sub; [by rewrite Eh|]. wp_steps.
    apply (HQ _ _ _ (set_valid sb)); [|done]. unfold core in *. cbn. congruence.
  - apply (HQ _ _ _ sb); [|done]. rewrite Hc. unfold core. cbn. by rewrite insert_id.
Qed.

(** The subscription a creation allocates. *)
Definition new_sub mq zq od sb cl : zmqSubscription :=
  mkSub od sb mq zq cl 1 0 1 None None 0 None.

Lemma generateSerial_ok uid : length (fst (zmqBridge_generateSerial uid)) = ZMQ_REPLYHANDLE_INBOXNAME_SIZE.
Proof. apply length_hexn. Qed.

Lemma fresh_not_wild subject uid table pool wcs hi hs p :
  inv_core subject uid table pool wcs hi (delete p hs) p → p ∉ list_elems wcs.
Proof. intros Hinv Hin. destruct (inv_wcs _ _ _ _ _ _ _ _ Hinv _ Hin) as (x & ? & ? & E & _). by rewrite lookup_delete_eq in E. Qed.

Lemma wp_createImpl p sb source symbol s :
  inv_core (mInboxSubject s) (mInboxUid s) (mInboxes s) (mSubEndpoints s) (mWcEndpoints s)
    (h_inboxes s) (delete p (h_subs s)) p →
  h_next s = S p → h_subs s !! p = Some sb → sub_isWildcard sb = 0%Z →
  is_Some (zmqBridgeMamaSubscriptionImpl_generateSubjectKey junk None source symbol) →
  wp (zmqBridgeMamaSubscriptionImpl_create rc junk p source symbol) (λ _ s' _, inv s' ∧ ids_step p s s') s.
Proof.
  intros Hinv Hnext Hp Hwild [key Hkey]. unfold zmqBridgeMamaSubscriptionImpl_create.
  apply wp_bind. eapply wp_part; [done|]. apply wp_bind, wp_get.
  pose proof (generateSerial_ok (mSubUid s)) as Hlen. pose proof (fresh_not_wild _ _ _ _ _ _ _ _ Hinv) as Hnw.
  destruct (zmqBridge_generateSerial (mSubUid s)) as [id n] eqn:Eg. cbn in Hlen.
  apply wp_bind. eapply wp_store_sub; [done|]. apply wp_bind, wp_modify.
  eapply wp_subscribe_valid; [apply lookup_insert_eq|]. intros st s' o sb' Hc [= E1' E2' E3' E4'].
  split; [eapply inv_core_eq; [exact Hc|]|eapply ids_step_core; [exact Hc|]].
  2: { injection Eg as <- <-. eapply (ids_step_register p key); try done.
       intros q Hq. cbn. by rewrite !lookup_insert_ne. }
  unfold inv. cbn. rewrite Hnext, insert_insert_eq, <-(insert_delete_eq (h_subs s)).
  eapply inv_add_sub; [exact Hinv| | |apply (inv_wcs_nodup _ _ _ _ _ _ _ _ Hinv)|by left].
  - rewrite E2'. eauto.
  - intros t i p'. rewrite law_register, elem_of_app, list_elem_of_singleton.
    intros [?|[= -> -> ->]]; [by left|right]. rewrite E1', E2', E3'. done.
Qed.

Lemma wp_createWildImpl p sb source symbol s :
  inv_core (mInboxSubject s) (mInboxUid s) (mInboxes s) (mSubEndpoints s) (mWcEndpoints s)
    (h_inboxes s) (delete p (h_subs s)) p →
  h_next s = S p → h_subs s !! p = Some sb → sub_isWildcard sb ≠ 0%Z → is_Some (sub_origRegex sb) →
  is_Some (zmqBridgeMamaSubscriptionImpl_generateSubjectKey junk None source symbol) →
  wp (zmqBridgeMamaSubscriptionImpl_createWildcard rc junk p source symbol) (λ _ s' _, inv s' ∧ ids_step p s s') s.
Proof.
  intros Hinv Hnext Hp Hwild Hregex [key Hkey]. unfold zmqBridgeMamaSubscriptionImpl_createWildcard.
  apply wp_bind. eapply wp_part; [done|]. apply wp_bind, wp_get.
  pose proof (generateSerial_ok (mWcsUid s)) as Hlen. pose proof (fresh_not_wild _ _ _ _ _ _ _ _ Hinv) as Hnw.
  destruct (zmqBridge_generateSerial (mWcsUid s)) as [id n] eqn:Eg. cbn in Hlen.
  apply wp_bind. eapply wp_store_sub; [done|]. apply wp_bind, wp_modify.
  eapply wp_subscribe_valid; [apply lookup_insert_eq|]. intros st s' o sb' Hc [= E1' E2' E3' E4'].
  split; [eapply inv_core_eq; [exact Hc|]|eapply ids_step_core; [exact Hc|]].
  2: { injection Eg as <- <-. eapply (ids_step_push p sb'); try done.
       - intros q Hq. cbn. by rewrite !lookup_insert_ne.
       - apply lookup_insert_eq. }
  unfold inv. cbn. rewrite Hnext, insert_insert_eq, <-(insert_delete_eq (h_subs s)).
  eapply inv_add_sub; [exact Hinv| |by left| |].
  - rewrite E2'. eauto.
  - rewrite law_push. apply NoDup_app. split_and!.
    + apply (inv_wcs_nodup _ _ _ _ _ _ _ _ Hinv).
    + intros x Hx ->%list_elem_of_singleton.
      destruct (inv_wcs _ _ _ _ _ _ _ _ Hinv _ Hx) as (y & ? & ? & Ey & _).
      by rewrite lookup_delete_eq in Ey.
    + apply NoDup_singleton.
  - intros p'. rewrite law_push, elem_of_app, list_elem_of_singleton. intros [?| ->]; [by left|right].
    split; [done|]. exists key, id. rewrite E1', E2', E3', E4'.
    split_and!; try done. by eapply subject_key_cstr.
Qed.

(** The state just after an allocation, without the new subscription. *)
Lemma inv_allocated s sb :
  inv s →
  inv_core (mInboxSubject s) (mInboxUid s) (mInboxes s) (mSubEndpoints s) (mWcEndpoints s)
    (h_inboxes s) (delete (h_next s) (<[h_next s := sb]> (h_subs s))) (h_next s).
Proof.
  intros Hinv. rewrite delete_insert_eq, delete_id; [exact Hinv|].
  by destruct (inv_next _ _ _ _ _ _ _ _ Hinv (h_next s) (le_n _)).
Qed.

(** A new subscription, not yet in a collection. *)
Lemma ids_allocated s s' sb :
  inv s → mSubUid s' = mSubUid s → mWcsUid s' = mWcsUid s → mSubEndpoints s' = mSubEndpoints s →
  mWcEndpoints s' = mWcEndpoints s → h_subs s' = <[h_next s := sb]> (h_subs s) → ids_less s s'.
Proof.
  intros Hinv E1 E2 E3 E4 E5. apply ids_less_intro; [done|done|by rewrite E3|].
  rewrite E4, E5. intros p Hp. split; [done|]. rewrite lookup_insert_ne; [done|]. intros <-.
  destruct (inv_wcs _ _ _ _ _ _ _ _ Hinv _ Hp) as (x & ? & ? & Ex & _).
  by rewrite (proj2 (inv_next _ _ _ _ _ _ _ _ Hinv _ (le_n _))) in Ex.
Qed.

Lemma wp_createSub source symbol mq zq od sb cl s :
  inv s → is_Some (zmqBridgeMamaSubscriptionImpl_generateSubjectKey junk None source symbol) →
  wp (zmqBridgeMamaSubscription_create rc junk true true source symbol mq zq od sb cl)
    (λ _ s' _, inv s' ∧ ids_step (h_next s) s s') s.
Proof.
  intros Hinv Hkey. unfold zmqBridgeMamaSubscription_create, zmqBridgeMamaSubscriptionImpl_allocate.
  wp_steps. eapply wp_mono; [|eapply wp_createImpl; [|done|apply lookup_insert_eq|done|done]].
  - intros st s' o [Hs' Hids]. wp_steps. split; [done|]. eapply ids_less_l; [|exact Hids]. by eapply ids_allocated.
  - exact (inv_allocated s _ Hinv).
Qed.

Lemma wp_createWildSub memRegex compiles regex prefix mq zq od sb cl s :
  inv s → wildcard_prefix regex = Some prefix →
  is_Some (zmqBridgeMamaSubscriptionImpl_generateSubjectKey junk None None (Some prefix)) →
  wp (zmqBridgeMamaSubscription_createWildCard rc junk true true memRegex compiles (Some regex) mq zq od sb cl)
    (λ _ s' _, inv s' ∧ ids_step (h_next s) s s') s.
Proof.
  intros Hinv Hpre Hkey.
  unfold zmqBridgeMamaSubscription_createWildCard, zmqBridgeMamaSubscriptionImpl_allocate.
  wp_steps. eapply wp_store_sub; [apply lookup_insert_eq|]. wp_steps. eapply wp_part; [done|].
  pose proof (inv_wcs_nodup _ _ _ _ _ _ _ _ Hinv) as Hnd.
  destruct (inv_next _ _ _ _ _ _ _ _ Hinv (h_next s) (le_n _)) as [Hni Hns].
  destruct memRegex; wp_steps; [destruct compiles; wp_steps|].
  - eapply wp_mono; [|eapply wp_createWildImpl; [|done|apply lookup_insert_eq|done|by eexists|done]].
    + intros st s' o [Hs' Hids]. wp_steps. split; [done|]. eapply ids_less_l; [|exact Hids].
      eapply ids_allocated; try done. by apply insert_insert_eq.
    + cbn. rewrite insert_insert_eq. exact (inv_allocated s _ Hinv).
  - unfold free_sub. wp_steps. eapply wp_deref_sub; [apply lookup_insert_eq|]. wp_steps.
    split; [|apply ids_less_step, ids_less_intro; [done..|]].
    2: { intros p Hp. split; [done|]. cbn. by rewrite insert_insert_eq, delete_insert_eq, delete_id. }
    unfold inv. cbn. rewrite insert_insert_eq, delete_insert_eq, delete_id by done.
    destruct Hinv as [? ? ? ? ? ? ? ? ? Hn]. split; try done. intros p Hp. apply Hn. lia.
  - split; [|eapply ids_less_step, ids_allocated; try done; by apply insert_insert_eq].
    unfold inv. cbn. rewrite insert_insert_eq.
    eapply inv_add_sub; [exact Hinv|by intros []|by left|done|by left].
Qed.

(** Only the list of wildcard subscriptions is changed, to [l]. *)
Lemma wp_removeWildcard id ps s :
  NoDup (list_elems (mWcEndpoints s)) → (∀ p, p ∈ ps → is_Some (h_subs s !! p)) →
  wp (removeWildcard_loop id ps) (λ _ s' o, o = [] ∧ ∃ l, s' = set_wcs l s ∧ NoDup (list_elems l)
    ∧ ∀ x, x ∈ list_elems l → x ∈ list_elems (mWcEndpoints s)
         ∧ ¬ (x ∈ ps ∧ ∃ i, h_subs s !! x = Some i ∧ has_identifier id i = true)) s.
Proof.
  revert s. induction ps as [|p ps IH]; intros s Hnd Hlive; cbn [removeWildcard_loop].
  - wp_steps. split; [done|]. exists (mWcEndpoints s). split_and!; [by destruct s|done|set_solver].
  - destruct (Hlive p) as [i Hi]; [apply elem_of_cons; by left|]. wp_steps. eapply wp_deref_sub; [done|].
    destruct (has_identifier id i) eqn:Eid; wp_steps.
    + eapply wp_mono; [|apply IH; [by apply law_remove_nodup|intros; apply Hlive, elem_of_cons; by right]].
      intros [] s' o (-> & l & -> & Hl & Hx). split; [done|]. exists l. split_and!; [done|done|].
      intros x Hin. apply Hx in Hin as [Hin Hno]. cbn in Hin, Hno.
      apply law_remove_element in Hin as [Hin Hne]; [|done]. split; [done|].
      intros [[?|Hps]%elem_of_cons Hj]; [done|]. by apply Hno.
    + eapply wp_mono; [|apply IH; [done|intros; apply Hlive, elem_of_cons; by right]].
      intros [] s' o (-> & l & -> & Hl & Hx). split; [done|]. exists l. split_and!; [done|done|].
      intros x Hin. apply Hx in Hin as [Hin Hno]. split; [done|].
      intros [Hps (j & Ej & Hj)]. apply elem_of_cons in Hps as [->|Hps]; [congruence|eauto].
Qed.

(** The tail of the destruction, for a subscription that is in no collection. *)
Lemma wp_destroy_tail p sb key pool' wcs' s :
  inv s → h_subs s !! p = Some sb → sub_subjectKey sb = Some key →
  (∀ t i p', (t, i, p') ∈ pool_entries pool' → (t, i, p') ∈ pool_entries (mSubEndpoints s) ∧ p' ≠ p) →
  NoDup (list_elems wcs') →
  (∀ p', p' ∈ list_elems wcs' → p' ∈ list_elems (mWcEndpoints s) ∧ p' ≠ p) →
  wp (match sub_onDestroy sb with
      | Some cb => emit (oSubDestroyed cb (sub_subscription sb) (sub_closure sb))
      | None => mret ()
      end ;;
      key ← cpart (sub_subjectKey sb);
      status ← zmqBridgeMamaSubscriptionImpl_unsubscribe rc junk key;
      free_sub p ;;
      mret status) (λ _ s' _, inv s' ∧ h_subs s' = delete p (h_subs s) ∧ ids_less s s')
    (set_wcs wcs' (set_pool pool' s)).
Proof.
  intros Hinv Hp Hk Hpool Hnd Hwcs. wp_steps.
  assert (∀ s1, core s1 = core (set_wcs wcs' (set_pool pool' s)) →
    wp (free_sub p) (λ _ s' _, inv s' ∧ h_subs s' = delete p (h_subs s) ∧ ids_less s s') s1) as Hfree.
  { intros s1 Hc. assert (h_subs s1 = h_subs s) as Eh by (by injection Hc).
    unfold free_sub. wp_steps. eapply wp_deref_sub; [by rewrite Eh|]. wp_steps.
    split_and!; [|by rewrite <-Eh|].
    2: { unfold core in Hc. cbn in Hc. injection Hc as _ _ _ E4 E5 _ E7 _ E9 E10. apply ids_less_intro; [done|done| |].
         - cbn. rewrite E4. by intros [[t i] p'] [? _]%Hpool.
         - cbn. rewrite E5, E7. intros p' [Hin Hne]%Hwcs. split; [done|]. by rewrite lookup_delete_ne. }
    unfold core in Hc. cbn in Hc. injection Hc as E1 E2 E3 E4 E5 E6 E7 E8 _ _.
    unfold inv. cbn. rewrite E1, E2, E3, E4, E5, E6, E7, E8. by eapply inv_drop_sub. }
  destruct (sub_onDestroy sb); wp_steps; (eapply wp_part; [done|]); wp_steps;
    (eapply wp_mono; [|apply wp_sendCommand]); intros st s1 o1 Hc; wp_steps;
    (eapply wp_mono; [|by apply Hfree]); intros [] s2 o2 (?&?&?); wp_steps; done.
Qed.

Lemma wp_destroySub p sb s :
  inv s → h_subs s !! p = Some sb → is_Some (sub_subjectKey sb) →
  wp (zmqBridgeMamaSubscription_destroy rc junk (Some p))
    (λ _ s' _, inv s' ∧ h_subs s' = delete p (h_subs s) ∧ ids_less s s') s.
Proof.
  intros Hinv Hp [key Hk]. unfold zmqBridgeMamaSubscription_destroy.
  apply wp_bind. eapply wp_deref_sub; [done|]. apply wp_bind.
  destruct (inv_sub_id _ _ _ _ _ _ _ _ Hinv _ _ Hp) as [id Hid]; [by rewrite Hk|].
  pose proof (inv_wcs_nodup _ _ _ _ _ _ _ _ Hinv) as Hnd.
  rewrite Hk, Hid. case_decide as Hw.
  - eapply (wp_mono _ (λ _ s1 _, s1 = set_pool (endpointPool_unregister (mSubEndpoints s) key id) s));
      [|by wp_locks].
    intros [] s1 o1 ->. rewrite <-Hk.
    eapply wp_mono; [|refine (wp_destroy_tail p sb key _ (mWcEndpoints s) s Hinv Hp Hk _ Hnd _)].
    + done.
    + intros t i p'. rewrite law_unregister, list_elem_of_filter. intros [Hne Hin]. split; [done|].
      intros ->. destruct (inv_pool _ _ _ _ _ _ _ _ Hinv _ _ _ Hin) as (x & Ex & ? & ? & _).
      by simplify_eq.
    + intros p' Hin. split; [done|]. intros ->.
      destruct (inv_wcs _ _ _ _ _ _ _ _ Hinv _ Hin) as (x & ? & ? & Ex & ? & ? & ? & ? & ? & ?).
      by simplify_eq.
  - eapply (wp_mono _ (λ _ s1 _, ∃ l, s1 = set_wcs l s ∧ NoDup (list_elems l)
      ∧ ∀ x, x ∈ list_elems l → x ∈ list_elems (mWcEndpoints s) ∧ x ≠ p)).
    2: { wp_locks. unfold zmqBridgeMamaTransportImpl_unregisterWildcard. wp_steps.
         eapply wp_mono; [|apply wp_removeWildcard; [done|]].
         - intros [] s' o (-> & l & -> & Hl & Hx). wp_locks. exists l. split_and!; [done|done|].
           intros x Hin. apply Hx in Hin as [Hin Hno]. split; [done|]. intros ->. apply Hno.
           split; [done|]. exists sb. split; [done|]. by apply bool_decide_eq_true.
         - intros x Hx. destruct (inv_wcs _ _ _ _ _ _ _ _ Hinv _ Hx) as (? & ? & ? & ? & _). eauto. }
    intros [] s1 o1 (l & -> & Hl & Hx). rewrite <-Hk.
    eapply wp_mono; [|refine (wp_destroy_tail p sb key (mSubEndpoints s) l s Hinv Hp Hk _ Hl Hx)].
    + done.
    + intros t i p' Hin. split; [done|]. intros ->.
      destruct (inv_pool _ _ _ _ _ _ _ _ Hinv _ _ _ Hin) as (x & Ex & ? & ? & ? & ?). by simplify_eq.
Qed.

(** ** Dispatching *)

Definition delivery : Type := handle * callback * zmqTransportMsg.

(** The messages handed to queues by a run. *)
Definition enqueued (o : list tobs) : list delivery :=
  omap (λ x, match x with oEnqueue q cb m => Some (q, cb, m) | _ => None end) o.

Lemma enqueued_app o1 o2 : enqueued (o1 ++ o2) = enqueued o1 ++ enqueued o2.
Proof. apply omap_app. Qed.

Lemma wp_enqueueMsg q cb id zmsg (Q : _ → _ → list tobs → Prop) s :
  length id = ZMQ_REPLYHANDLE_INBOXNAME_SIZE → Q () s [oEnqueue q cb (mkTMsg id zmsg)] →
  wp (enqueueMsg q cb id zmsg) Q s.
Proof.
  intros Hl HQ. unfold enqueueMsg. wp_steps. eapply wp_part.
  - apply strcpy_fits. rewrite Hl. lia.
  - by wp_steps.
Qed.

(** What each kind of subscriber should get. *)
Definition wild_delivery (hs : gmap ptr zmqSubscription) (zmsg subject : list byte) (p : ptr)
    : list delivery :=
  match hs !! p with
  | Some i =>
      match sub_subjectKey i, sub_origRegex i, sub_endpointIdentifier i with
      | Some key, Some regex, Some id =>
          if is_prefix key subject && regexec regex subject
          then [(sub_zmqQueue i, wcCallback, mkTMsg id zmsg)] else []
      | _, _, _ => []
      end
  | None => []
  end.

Definition sub_delivery (hs : gmap ptr zmqSubscription) (zmsg : list byte) (p : ptr) : list delivery :=
  match hs !! p with
  | Some i =>
      match sub_endpointIdentifier i with
      | Some id => if decide (sub_isNotMuted i = 1)%Z
                   then [(sub_zmqQueue i, subCallback, mkTMsg id zmsg)] else []
      | None => []
      end
  | None => []
  end.

(** The subscribers registered for exactly this subject. *)
Definition registered s (subject : list byte) : list ptr :=
  snd <$> filter (λ x, x.1.1 = subject) (pool_entries (mSubEndpoints s)).

(** [memcmp] reads as many bytes of the message as the key of the wildcard
    subscription is long, whatever the length of the subject. *)
Definition wildcard_fits (hs : gmap ptr zmqSubscription) (zmsg : list byte) (p : ptr) : Prop :=
  ∀ i key, hs !! p = Some i → sub_subjectKey i = Some key → length key ≤ length zmsg.

Definition wildcards_fit s (zmsg : list byte) : Prop :=
  ∀ p, p ∈ list_elems (mWcEndpoints s) → wildcard_fits (h_subs s) zmsg p.

Lemma wp_matchWildcards p zmsg subject rest s :
  inv s → p ∈ list_elems (mWcEndpoints s) → wildcard_fits (h_subs s) zmsg p → zmsg = subject ++ NUL :: rest →
  wp (zmqBridgeMamaTransportImpl_matchWildcards regexec zmsg subject p)
    (λ _ s' o, s' = s ∧ enqueued o = wild_delivery (h_subs s) zmsg subject p) s.
Proof.
  intros Hinv Hp Hfit Hz.
  destruct (inv_wcs _ _ _ _ _ _ _ _ Hinv _ Hp)
    as (i & key & id & Ei & Ek & Hk & Eid & Hlen & [regex Er] & _).
  specialize (Hfit i key Ei Ek).
  unfold zmqBridgeMamaTransportImpl_matchWildcards, wild_delivery. rewrite Ei, Ek, Er, Eid.
  wp_steps. eapply wp_deref_sub; [done|]. wp_steps. eapply wp_part; [done|]. wp_steps.
  eapply wp_part; [rewrite Hz in *; by apply memcmp_eq_prefix|].
  destruct (is_prefix key subject); cbn [andb]; wp_steps; [|done].
  eapply wp_part; [done|]. destruct (regexec regex subject); wp_steps; [|done].
  eapply wp_part; [done|]. apply wp_enqueueMsg; [done|]. done.
Qed.

(** Two heaps that differ at most in the connection flag. *)
Definition same_subs (hs hs' : gmap ptr zmqSubscription) : Prop :=
  ∀ p, set_connected <$> hs' !! p = set_connected <$> hs !! p.

#[local] Instance same_subs_refl : Reflexive same_subs.
Proof. by intros hs p. Qed.

Lemma same_subs_insert hs hs' p i :
  same_subs hs hs' → hs' !! p = Some i → same_subs hs (<[p := set_connected i]> hs').
Proof.
  intros Hs Hi p'. rewrite <-Hs. destruct (decide (p = p')) as [<-|Hne].
  - by rewrite lookup_insert_eq, Hi.
  - by rewrite lookup_insert_ne.
Qed.

Lemma sub_delivery_same hs hs' zmsg p :
  same_subs hs hs' → sub_delivery hs' zmsg p = sub_delivery hs zmsg p.
Proof.
  intros Hs. specialize (Hs p). unfold sub_delivery.
  destruct (hs' !! p) as [i|], (hs !! p) as [j|]; try done. cbn in Hs.
  injection Hs as E1 E2 E3 E4 E5 E6 E7 E8 E9 E10 E11. by rewrite E4, E6, E9.
Qed.

(** Only the connection flags change. *)
Definition subs_frame s s' : Prop := ∃ hs, s' = set_h_subs hs s ∧ same_subs (h_subs s) hs.

Lemma subs_frame_trans s1 s2 s3 : subs_frame s1 s2 → subs_frame s2 s3 → subs_frame s1 s3.
Proof.
  intros (h2 & -> & H2) (h3 & -> & H3). exists h3. split; [done|]. intros p. by rewrite (H3 p), <-(H2 p).
Qed.

Lemma subs_frame_less n i u s s' : subs_frame (upd_counts n i u s) s' → ids_less s s'.
Proof.
  intros (hs & -> & Hs). apply ids_less_intro; [done..|]. cbn. intros p Hp. split; [done|].
  specialize (Hs p). cbn in Hs. destruct (hs !! p) as [x|], (h_subs s !! p) as [y|]; try done.
  cbn in *. injection Hs as E1 E2 E3 E4 E5 E6 E7 E8 E9 E10 E11. unfold sub_ident. congruence.
Qed.

Lemma wp_dispatch_subscriber zmsg p t id s :
  inv s → (t, id, p) ∈ pool_entries (mSubEndpoints s) →
  wp (dispatch_subscriber zmsg p)
    (λ _ s' o, inv s' ∧ subs_frame s s' ∧ enqueued o = sub_delivery (h_subs s) zmsg p) s.
Proof.
  intros Hinv Hp.
  destruct (inv_pool _ _ _ _ _ _ _ _ Hinv _ _ _ Hp) as (i & Ei & Ek & Eid & Hlen & Hw).
  unfold dispatch_subscriber, sub_delivery. rewrite Ei, Eid. wp_steps. eapply wp_deref_sub; [done|].
  wp_steps.
  eapply (wp_mono _ (λ _ s1 o, o = [] ∧ inv s1 ∧ subs_frame s s1)).
  - intros [] s1 o1 (-> & ? & ?). case_decide; wp_steps; [|done].
    eapply wp_part; [done|]. by apply wp_enqueueMsg.
  - case_decide; wp_steps.
    + eapply wp_store_sub; [done|]. split_and!; [done|unfold inv; cbn; by eapply inv_store_sub|].
      eexists. split; [done|]. by apply same_subs_insert.
    + split_and!; [done|done|]. exists (h_subs s). by destruct s.
Qed.

Lemma flat_map_snoc {A B} (f : A → list B) l x : flat_map f (l ++ [x]) = flat_map f l ++ f x.
Proof. rewrite flat_map_app. simpl. by rewrite app_nil_r. Qed.

Lemma wp_dispatch_subscribers zmsg subject s :
  inv s →
  wp (cforeach (dispatch_subscriber zmsg) (registered s subject))
    (λ _ s' o, inv s' ∧ subs_frame s s'
       ∧ enqueued o = flat_map (sub_delivery (h_subs s) zmsg) (registered s subject)) s.
Proof.
  intros Hinv. apply (wp_foreach _ _ (λ done s' o, inv s' ∧ subs_frame s s'
    ∧ enqueued o = flat_map (sub_delivery (h_subs s) zmsg) done)).
  { split_and!; [done| |done]. exists (h_subs s). by destruct s. }
  intros dn p s1 o1 Hp (Hi1 & Hf & Eo). pose proof Hf as (hs & E1 & Hs).
  assert (mSubEndpoints s1 = mSubEndpoints s) as Ep by (by rewrite E1).
  unfold registered in Hp. apply list_elem_of_fmap in Hp as ([[t id] p'] & -> & Hp).
  apply list_elem_of_filter in Hp as [_ Hp]. rewrite <-Ep in Hp. cbn [snd].
  eapply wp_mono; [|by eapply wp_dispatch_subscriber].
  intros [] s2 o2 (Hi2 & Hf2 & Eo2). split_and!; [done|by eapply subs_frame_trans|].
  rewrite enqueued_app, flat_map_snoc, Eo, Eo2, E1. f_equal. by apply sub_delivery_same.
Qed.

Lemma wp_wildcards zmsg subject rest s :
  inv s → wildcards_fit s zmsg → zmsg = subject ++ NUL :: rest →
  wp (cforeach (zmqBridgeMamaTransportImpl_matchWildcards regexec zmsg subject)
        (list_elems (mWcEndpoints s)))
    (λ _ s' o, s' = s ∧ enqueued o
       = flat_map (wild_delivery (h_subs s) zmsg subject) (list_elems (mWcEndpoints s))) s.
Proof.
  intros Hinv Hfit Hz. apply (wp_foreach _ _ (λ done s' o, s' = s ∧
    enqueued o = flat_map (wild_delivery (h_subs s) zmsg subject) done)); [done|].
  intros dn p s1 o1 Hp (-> & Eo). eapply wp_mono; [|eapply wp_matchWildcards; eauto].
  intros [] s2 o2 (-> & Eo2). split; [done|]. by rewrite enqueued_app, flat_map_snoc, Eo, Eo2.
Qed.

(** All deliveries of a subscription message. *)
Definition sub_deliveries s (zmsg subject : list byte) : list delivery :=
  flat_map (wild_delivery (h_subs s) zmsg subject) (list_elems (mWcEndpoints s))
  ++ flat_map (sub_delivery (h_subs s) zmsg) (registered s subject).

Lemma wp_dispatchSubMsg zmsg subject rest s :
  inv s → is_cstr subject → wildcards_fit s zmsg → zmsg = subject ++ NUL :: rest →
  wp (zmqBridgeMamaTransportImpl_dispatchSubMsg regexec zmsg)
    (λ st s' o, inv s' ∧ (∃ n i u, subs_frame (upd_counts n i u s) s')
       ∧ st = (if decide (registered s subject = []) then MAMA_STATUS_NOT_FOUND else MAMA_STATUS_OK)
       ∧ enqueued o = sub_deliveries s zmsg subject) s.
Proof.
  intros Hinv Hc Hfit Hz. unfold zmqBridgeMamaTransportImpl_dispatchSubMsg. wp_steps.
  eapply wp_part; [rewrite Hz; by apply cstring_cstr|]. wp_locks.
  set (s1 := upd_counts _ _ _ s). assert (inv s1) as Hinv1 by exact Hinv.
  eapply wp_mono; [|by eapply wp_wildcards]. intros [] s2 o2 [-> Eo2]. wp_locks.
  rewrite law_getRegistered. fold (registered s1 subject). rewrite decide_False by (intros ?; done).
  unfold sub_deliveries. change (registered s subject) with (registered s1 subject).
  case_decide as Hr; wp_locks.
  - rewrite Hr. split_and!; [done| |done|].
    { exists (mNormalMessages s), (mInboxMessages s), (mSubMessages s + 1)%Z, (h_subs s). split; [by destruct s|reflexivity]. }
    rewrite !enqueued_app, Eo2. cbn. by rewrite !app_nil_r.
  - eapply wp_mono; [|by apply wp_dispatch_subscribers].
    intros [] s3 o3 (Hi3 & Hf & Eo3). wp_locks. split_and!; [done|by do 3 eexists|done|].
    rewrite !enqueued_app, Eo2, Eo3. cbn. by rewrite !app_nil_r.
Qed.

(** It is defined on no other message. *)
Lemma matchWildcards_fits p zmsg subject s r :
  zmqBridgeMamaTransportImpl_matchWildcards regexec zmsg subject p s = Some r → wildcard_fits (h_subs s) zmsg p.
Proof.
  intros E i key Ei Ek. unfold zmqBridgeMamaTransportImpl_matchWildcards, deref_sub in E. destruct r as [[u s'] o].
  apply C_bind_Some in E as (i' & s1 & ? & ? & E & Em & _).
  apply C_bind_Some in E as (s0 & ? & ? & ? & [= <- <- <-] & E & _). unfold cpart in E. rewrite Ei in E.
  injection E as <- <- <-. apply C_bind_Some in Em as (k & s2 & ? & ? & E & Em & _). unfold cpart in E. rewrite Ek in E.
  injection E as <- <- <-. apply C_bind_Some in Em as (b & s3 & ? & ? & E & _). unfold cpart in E.
  rewrite memcmp_eq_key in E. by destruct (decide (length key ≤ length zmsg)).
Qed.

Lemma wildcards_loop_fits ps zmsg subject rest s r :
  inv s → (∀ p, p ∈ ps → p ∈ list_elems (mWcEndpoints s)) → zmsg = subject ++ NUL :: rest →
  cforeach (zmqBridgeMamaTransportImpl_matchWildcards regexec zmsg subject) ps s = Some r →
  ∀ p, p ∈ ps → wildcard_fits (h_subs s) zmsg p.
Proof.
  intros Hinv Hin Hz. revert r. induction ps as [|q ps IH]; intros [[u s'] o] E p Hp; [by apply not_elem_of_nil in Hp|].
  cbn [cforeach] in E. apply C_bind_Some in E as ([] & s1 & ? & ? & Eq & E & _).
  pose proof (matchWildcards_fits _ _ _ _ _ Eq) as Hq.
  apply elem_of_cons in Hp as [->|Hp]; [done|].
  assert (q ∈ list_elems (mWcEndpoints s)) as Hql by (apply Hin, elem_of_cons; by left).
  pose proof (wp_matchWildcards q zmsg subject rest s Hinv Hql Hq Hz) as Hw. unfold wp in Hw. rewrite Eq in Hw.
  destruct Hw as [-> _]. eapply IH; [|done|done]. intros q2 Hq2. apply Hin, elem_of_cons. by right.
Qed.

Lemma dispatchSubMsg_fits zmsg subject rest s r :
  inv s → is_cstr subject → zmsg = subject ++ NUL :: rest →
  zmqBridgeMamaTransportImpl_dispatchSubMsg regexec zmsg s = Some r → wildcards_fit s zmsg.
Proof.
  intros Hinv Hc Hz E. unfold zmqBridgeMamaTransportImpl_dispatchSubMsg in E. destruct r as [[u s'] o].
  apply C_bind_Some in E as ([] & s1 & ? & ? & [= <- <-] & E & _).
  apply C_bind_Some in E as (t & s2 & ? & ? & Et & E & _). unfold cpart in Et.
  rewrite Hz, cstring_cstr in Et by done. injection Et as <- <- <-.
  apply C_bind_Some in E as ([] & s3 & ? & ? & [= <- <-] & E & _).
  apply C_bind_Some in E as (s4 & s5 & ? & ? & [= <- <- <-] & E & _).
  apply C_bind_Some in E as ([] & s6 & ? & ? & E & _).
  set (s1 := upd_counts _ _ _ s) in E. intros p Hp.
  eapply (wildcards_loop_fits (list_elems (mWcEndpoints s1)) zmsg subject rest s1); [exact Hinv|done|done|exact E|exact Hp].
Qed.

End RoutingProofs.
