(* ===== verification/RoutingSpec.v ===== *)
(** * What the routing guarantees

    Safety of every interleaving of application calls, received messages and
    queued callbacks; exact delivery to inboxes and subscribers. *)

From S2P Require Import Prelude CLib CMonad Msg Util Subject Socket Collections Routing RoutingProofs.
Import ZM ZU Subj Sock ZT.

Section RoutingSpec.

Context {T P L : Type}.
Context `{HT : StrTable T ptr} `{!StrTableLaws T ptr}.
Context `{HP : EndpointPool P ptr} `{HPL : !EndpointPoolLaws P ptr}.
Context `{HL : WList L ptr} `{!WListLaws L ptr}.
Context `{!WStr}.
Context (rc : nat → zcall → Z) (regexec : list byte → list byte → bool).
Context (setMsgBuffer : msgBuffer → mama_status) (junk : nat → byte).

Notation TC := (C (transport T P L) tobs).
Implicit Types s : transport T P L.

(** ** Inbox messages *)

Definition inbox_delivery s (zmsg name : list byte) : list delivery :=
  match wtable_lookup (mInboxes s) name with
  | Some p => match h_inboxes s !! p with
              | Some ib => [(ib_zmqQueue ib, inboxCallback, mkTMsg name zmsg)]
              | None => []
              end
  | None => []
  end.

Lemma wp_dispatchInboxMsg zmsg name s :
  inv s → cstring (drop ZMQ_REPLYHANDLE_INBOXNAME_INDEX zmsg) = Some name →
  wp (zmqBridgeMamaTransportImpl_dispatchInboxMsg zmsg)
    (λ st s' o, core s' = core s ∧ h_msgs s' = h_msgs s
       ∧ st = (if decide (wtable_lookup (mInboxes s) name = None)
               then MAMA_STATUS_NOT_FOUND else MAMA_STATUS_OK)
       ∧ enqueued o = inbox_delivery s zmsg name) s.
Proof.
  intros Hinv Hname. unfold zmqBridgeMamaTransportImpl_dispatchInboxMsg, inbox_delivery.
  wp_steps. eapply wp_part; [done|]. wp_locks. cbn [mInboxes upd_counts].
  destruct (wtable_lookup (mInboxes s) name) as [p|] eqn:E.
  - destruct (inv_table _ _ _ _ _ _ _ _ Hinv _ _ E) as (ib & Ei & Eh). rewrite Ei.
    destruct (inv_inbox _ _ _ _ _ _ _ _ Hinv _ _ Ei) as (n & _ & Eh').
    rewrite Eh in Eh'. apply handle_inj in Eh'.
    wp_steps. eapply wp_deref_inbox; [exact Ei|]. wp_locks.
    apply wp_enqueueMsg; [rewrite Eh'; apply length_serial|]. wp_steps. split_and!; done.
  - wp_locks. split_and!; done.
Qed.

(** A received message whose memory the dispatcher and the callbacks can
    read: see [readable]; an inbox subject also has its name part. *)
Definition message_ok (zmsg : list byte) : Prop :=
  readable zmsg ∧ (Z.of_nat (length zmsg) < 2 ^ 31)%Z ∧
  (is_prefix ZMQ_REPLYHANDLE_PREFIX zmsg = true →
   is_Some (cstring (drop ZMQ_REPLYHANDLE_INBOXNAME_INDEX zmsg))).

Lemma readable_subject zmsg :
  readable zmsg → ∃ subject rest, is_cstr subject ∧ zmsg = subject ++ NUL :: rest.
Proof. intros Hr. destruct Hr; eauto. Qed.

(** The two comparisons of the dispatcher stay inside the message: the one
    with the prefix of the inboxes, and the ones with the keys of the wildcard
    subscriptions, if it gets there. *)
Definition in_bounds s (zmsg : list byte) : Prop :=
  length ZMQ_REPLYHANDLE_PREFIX ≤ length zmsg
  ∧ (is_prefix ZMQ_REPLYHANDLE_PREFIX zmsg = true ∨ wildcards_fit s zmsg).

Lemma prefix_memcmp zmsg :
  length ZMQ_REPLYHANDLE_PREFIX ≤ length zmsg →
  memcmp_eq ZMQ_REPLYHANDLE_PREFIX zmsg (length ZMQ_REPLYHANDLE_PREFIX)
  = Some (is_prefix ZMQ_REPLYHANDLE_PREFIX zmsg).
Proof. intros. by rewrite memcmp_eq_key, decide_True. Qed.

Lemma wp_dispatchNormalMsg zmsg s :
  inv s → message_ok zmsg → in_bounds s zmsg →
  wp (zmqBridgeMamaTransportImpl_dispatchNormalMsg regexec zmsg)
    (λ _ s' o, inv s' ∧ h_msgs s' = h_msgs s ∧ ids_less s s' ∧ mWcEndpoints s' = mWcEndpoints s
       ∧ same_subs (h_subs s) (h_subs s')
       ∧ ∀ q cb m, (q, cb, m) ∈ enqueued o → tm_zmsg m = zmsg) s.
Proof.
  intros Hinv (Hr & Hlen & Hib) [Hb1 Hb2]. unfold zmqBridgeMamaTransportImpl_dispatchNormalMsg.
  wp_steps. eapply wp_part; [by apply prefix_memcmp|].
  set (s1 := upd_counts _ _ _ s). assert (inv s1) as Hinv1 by exact Hinv.
  destruct (is_prefix ZMQ_REPLYHANDLE_PREFIX zmsg).
  - destruct (Hib eq_refl) as [name Hname].
    eapply wp_mono; [|by eapply wp_dispatchInboxMsg]. intros st s2 o (Hc & Hm & _ & Eo).
    assert (mWcEndpoints s2 = mWcEndpoints s ∧ h_subs s2 = h_subs s) as [Ew Eh].
    { unfold core in Hc. cbn in Hc. by injection Hc. }
    split_and!; [by eapply inv_core_eq|done|by apply ids_less_core|done|by rewrite Eh|]. intros q cb m. cbn [app]. rewrite Eo.
    unfold inbox_delivery. repeat case_match; set_solver.
  - destruct Hb2 as [|Hfit]; [done|]. apply readable_subject in Hr as (subject & rest & Hs & Hz).
    eapply wp_mono; [|by eapply wp_dispatchSubMsg].
    intros st s2 o (Hi & (n & i & u & Hf) & _ & Eo).
    split_and!; [done|by destruct Hf as (hs & -> & _)|by eapply (subs_frame_less n i u)
      |by destruct Hf as (hs & -> & _)|by destruct Hf as (hs & -> & Hs')|].
    intros q cb m. cbn [app]. rewrite Eo. unfold sub_deliveries.
    rewrite elem_of_app, !list_elem_of_In, !in_flat_map.
    intros [(p & _ & Hin)|(p & _ & Hin)]; apply list_elem_of_In in Hin;
      unfold wild_delivery, sub_delivery in Hin; repeat case_match; set_solver.
Qed.

Lemma dispatchNormalMsg_defined zmsg s :
  inv s → message_ok zmsg →
  is_Some (zmqBridgeMamaTransportImpl_dispatchNormalMsg regexec zmsg s) ↔ in_bounds s zmsg.
Proof.
  intros Hinv Hm. split.
  - intros [[[st s'] o] E]. unfold zmqBridgeMamaTransportImpl_dispatchNormalMsg in E.
    apply C_bind_Some in E as ([] & s1 & ? & ? & [= <- <-] & E & _).
    apply C_bind_Some in E as (b & s2 & ? & ? & Eb & E & _). unfold cpart in Eb. rewrite memcmp_eq_key in Eb.
    destruct (decide _) as [Hl|]; [|done]. split; [done|]. revert Eb. generalize (is_prefix ZMQ_REPLYHANDLE_PREFIX zmsg).
    intros pf [= <- <- <-]. destruct pf; [by left|right].
    destruct Hm as [(subject & rest & Hs & Hz)%readable_subject _].
    set (s1 := upd_counts _ _ _ s) in E. apply (dispatchSubMsg_fits regexec zmsg subject rest s1 _ Hinv Hs Hz E).
  - intros Hb. pose proof (wp_dispatchNormalMsg zmsg s Hinv Hm Hb) as (? & ? & ? & E & _)%wp_run. eauto.
Qed.

(** A received message, inverted. *)
Lemma dispatchNormalMsg_inv zmsg s st s' o :
  inv s → message_ok zmsg → zmqBridgeMamaTransportImpl_dispatchNormalMsg regexec zmsg s = Some (st, s', o) →
  inv s' ∧ ids_less s s' ∧ ∀ q cb m, (q, cb, m) ∈ enqueued o → tm_zmsg m = zmsg.
Proof.
  intros Hinv Hm E.
  assert (in_bounds s zmsg) as Hb by (apply dispatchNormalMsg_defined; [done|done|by eexists]).
  pose proof (wp_dispatchNormalMsg zmsg s Hinv Hm Hb) as Hw. unfold wp in Hw. rewrite E in Hw. naive_solver.
Qed.

(** ** Callbacks *)

Lemma deserialize_keeps_msg m zmsg st m' call :
  zmqBridgeMamaMsgImpl_deserialize setMsgBuffer (Some m) zmsg = Some (st, m', call) →
  ∃ m'' : zmqBridgeMsgImpl handle, m' = Some m''.
Proof.
  unfold zmqBridgeMamaMsgImpl_deserialize, deliver_payload. intros E.
  repeat match type of E with
  | (?x ≫= _) = _ => destruct x as [|] eqn:?; simpl in E; try done
  | (if ?b then _ else _) = _ => destruct b; try done
  | (let '(_, _) := ?x in _) = _ => destruct x
  end; by simplify_eq; eauto.
Qed.

Lemma wp_deserialize_cached mq zmsg s :
  readable zmsg → (Z.of_nat (length zmsg) < 2 ^ 31)%Z →
  wp (deserialize_cached setMsgBuffer mq zmsg)
    (λ _ s' o, core s' = core s ∧ o = []) s.
Proof.
  intros Hr Hw. unfold deserialize_cached. wp_steps. destruct (h_msgs s !! mq) as [m|]; [|by wp_steps].
  destruct (readable_defined setMsgBuffer m zmsg Hw Hr) as [[[st m'] call] E].
  destruct (deserialize_keeps_msg _ _ _ _ _ E) as [m'' ->].
  wp_steps. eapply wp_part; [done|]. by wp_steps.
Qed.

Lemma findWildcard_safe id ps found s :
  (∀ p, p ∈ ps → is_Some (h_subs s !! p)) →
  wp (findWildcard_loop id ps found)
    (λ r s' o, s' = s ∧ o = [] ∧ ∀ p, r = Some p → p ∈ ps ∨ found = Some p) s.
Proof.
  revert found. induction ps as [|p ps IH]; intros found Hl; cbn [findWildcard_loop].
  - wp_steps. auto.
  - destruct (Hl p) as [i Hi]; [apply elem_of_cons; by left|]. wp_steps. eapply wp_deref_sub; [done|].
    eapply wp_mono; [|apply IH; intros; apply Hl, elem_of_cons; by right].
    intros r s' o (-> & -> & Hr). split_and!; [done|done|]. intros p' Ep.
    rewrite elem_of_cons. destruct (Hr p' Ep) as [?|Hf]; [auto|]. case_match; naive_solver.
Qed.

(** A callback follows only pointers it finds in the collections. *)
Lemma wp_callback cb m s :
  inv s → readable (tm_zmsg m) → (Z.of_nat (length (tm_zmsg m)) < 2 ^ 31)%Z →
  wp (run_callback setMsgBuffer cb m) (λ _ s' o, core s' = core s ∧ enqueued o = []) s.
Proof.
  intros Hinv Hr Hw. destruct (readable_subject _ Hr) as (subject & rest & Hc & Hz).
  destruct cb; cbn [run_callback].
  - unfold zmqBridgeMamaTransportImpl_inboxCallback. wp_locks.
    destruct (wtable_lookup (mInboxes s) (tm_endpointIdentifier m)) as [p|] eqn:E; [|by wp_steps].
    destruct (inv_table _ _ _ _ _ _ _ _ Hinv _ _ E) as (ib & Ei & _).
    wp_steps. eapply wp_deref_inbox; [done|]. wp_steps.
    eapply wp_mono; [|by apply wp_deserialize_cached]. intros r s1 o1 [Hc1 ->].
    destruct r as [[m' pl]|]; [|by wp_steps]. unfold zmqBridgeMamaInboxImpl_onMsg.
    repeat case_decide; [by wp_steps..|]. destruct (ib_msgCB ib); by wp_steps.
  - unfold zmqBridgeMamaTransportImpl_subCallback. wp_steps.
    eapply wp_part; [rewrite Hz; by apply cstring_cstr|]. wp_steps.
    destruct (endpointPool_getEndpoint (mSubEndpoints s) subject (tm_endpointIdentifier m))
      as [p|] eqn:E; [|by wp_steps].
    apply law_getEndpoint in E. destruct (inv_pool _ _ _ _ _ _ _ _ Hinv _ _ _ E) as (sb & Es & _).
    wp_steps. eapply wp_deref_sub; [done|]. case_decide; [by wp_steps|]. wp_steps.
    eapply wp_mono; [|by apply wp_deserialize_cached]. intros r s1 o1 [Hc1 ->].
    destruct r as [[m' pl]|]; by wp_steps.
  - unfold zmqBridgeMamaTransportImpl_wcCallback. wp_steps.
    eapply wp_part; [rewrite Hz; by apply cstring_cstr|]. wp_steps.
    unfold zmqBridgeMamaTransportImpl_findWildcard. wp_steps.
    eapply wp_mono; [|apply findWildcard_safe].
    2: { intros p Hp. destruct (inv_wcs _ _ _ _ _ _ _ _ Hinv _ Hp) as (? & ? & ? & ? & _). eauto. }
    intros r s1 o1 (-> & -> & Hf). destruct r as [p|]; [|by wp_steps].
    destruct (Hf p eq_refl) as [Hp|?]; [|done].
    destruct (inv_wcs _ _ _ _ _ _ _ _ Hinv _ Hp) as (sb & ? & ? & Es & _).
    wp_steps. eapply wp_deref_sub; [done|]. case_decide; [by wp_steps|]. wp_steps.
    eapply wp_mono; [|by apply wp_deserialize_cached]. intros r s1 o1 [Hc1 ->].
    destruct r as [[m' pl]|]; by wp_steps.
Qed.

(** ** Interleavings *)

(** Calls of the application (none of them hands a message to a queue). *)
Inductive top :=
  | TCreateInbox (mq zq cb : handle) (ecb dcb : option handle) (cl par : handle)
  | TDestroyInbox (p : ptr)
  | TCreateSub (source symbol : option (list byte)) (mq zq : handle) (od : option handle) (sb cl : handle)
  | TCreateWild (memRegex compiles : bool) (regex : list byte) (mq zq : handle)
      (od : option handle) (sb cl : handle)
  | TMute (p : ptr)
  | TDestroySub (p : ptr).

Definition run_top (op : top) : TC () :=
  match op with
  | TCreateInbox mq zq cb ecb dcb cl par =>
      zmqBridgeMamaInbox_createByIndex true true mq zq cb ecb dcb cl par ;; mret ()
  | TDestroyInbox p => zmqBridgeMamaInbox_destroy (Some p) ;; mret ()
  | TCreateSub source symbol mq zq od sb cl =>
      zmqBridgeMamaSubscription_create rc junk true true source symbol mq zq od sb cl ;; mret ()
  | TCreateWild mr cp regex mq zq od sb cl =>
      zmqBridgeMamaSubscription_createWildCard rc junk true true mr cp (Some regex) mq zq od sb cl ;;
      mret ()
  | TMute p => zmqBridgeMamaSubscription_mute (Some p) ;; mret ()
  | TDestroySub p => zmqBridgeMamaSubscription_destroy rc junk (Some p) ;; mret ()
  end.

(** The caller's obligations: handles that were created and not yet
    destroyed, topics that fit. *)
Definition allowed (op : top) s : Prop :=
  match op with
  | TCreateInbox _ _ _ _ _ _ _ => (mInboxUid s + 1 < 2 ^ 64)%Z
  | TDestroyInbox p => is_Some (h_inboxes s !! p)
  | TCreateSub source symbol _ _ _ _ _ =>
      is_Some (zmqBridgeMamaSubscriptionImpl_generateSubjectKey junk None source symbol)
  | TCreateWild _ _ regex _ _ _ _ _ =>
      ∃ prefix, wildcard_prefix regex = Some prefix ∧
        is_Some (zmqBridgeMamaSubscriptionImpl_generateSubjectKey junk None None (Some prefix))
  | TMute p => is_Some (h_subs s !! p)
  | TDestroySub p => ∃ sb, h_subs s !! p = Some sb ∧ is_Some (sub_subjectKey sb)
  end.

(** A transport and the messages waiting in the queues. *)
Definition system : Type := transport T P L * list (callback * zmqTransportMsg).

Definition queued (o : list tobs) : list (callback * zmqTransportMsg) :=
  (λ d : delivery, (d.1.2, d.2)) <$> enqueued o.

(** Queues dispatch in any order relative to each other, and may drop. *)
Inductive tstep : system → system → Prop :=
  | ts_op op s s' o fl :
      allowed op s → run_top op s = Some ((), s', o) → tstep (s, fl) (s', fl)
  | ts_receive zmsg st s s' o fl :
      message_ok zmsg → zmqBridgeMamaTransportImpl_dispatchNormalMsg regexec zmsg s = Some (st, s', o) →
      tstep (s, fl) (s', fl ++ queued o)
  | ts_callback cb m s s' o fl1 fl2 :
      run_callback setMsgBuffer cb m s = Some ((), s', o) →
      tstep (s, fl1 ++ (cb, m) :: fl2) (s', fl1 ++ fl2)
  | ts_drop cb m s fl1 fl2 :
      tstep (s, fl1 ++ (cb, m) :: fl2) (s, fl1 ++ fl2).

Definition waiting_ok (x : callback * zmqTransportMsg) : Prop :=
  readable (tm_zmsg x.2) ∧ (Z.of_nat (length (tm_zmsg x.2)) < 2 ^ 31)%Z.

Definition sys_inv (y : system) : Prop := inv y.1 ∧ Forall waiting_ok y.2.

Lemma wp_void {A} (m : TC A) (Q : transport T P L → Prop) s :
  wp m (λ _ s' _, Q s') s → wp (m ;; mret ()) (λ _ s' _, Q s') s.
Proof. intros Hm. wp_steps. eapply wp_mono; [|done]. intros a s' o HQ. by wp_steps. Qed.

Lemma top_safe op s :
  inv s → allowed op s → wp (run_top op) (λ _ s' _, inv s' ∧ ids_step (h_next s) s s') s.
Proof.
  intros Hinv Ha. destruct op; cbn [run_top allowed] in *; apply (wp_void _ (λ s', inv s' ∧ ids_step (h_next s) s s')).
  - eapply wp_mono; [|by apply wp_createInbox]. intros r s' o (? & ? & _). eauto using ids_less_step.
  - destruct Ha as [ib Hib]. eapply wp_mono; [|by eapply wp_destroyInbox].
    intros r s' o (? & ? & _). eauto using ids_less_step.
  - by apply wp_createSub.
  - destruct Ha as (prefix & Hp & Hk). by eapply wp_createWildSub.
  - destruct Ha as [sb Hs]. unfold zmqBridgeMamaSubscription_mute. wp_steps.
    eapply wp_store_sub; [done|]. wp_steps. split; [unfold inv; cbn; by eapply inv_store_sub|].
    apply ids_less_step, ids_less_intro; [done..|]. intros q Hq. split; [done|]. cbn.
    destruct (decide (q = p)) as [->|]; [by rewrite lookup_insert_eq, Hs|by rewrite lookup_insert_ne].
  - destruct Ha as (sb & Hs & Hk). eapply wp_mono; [|by eapply wp_destroySub].
    intros r s' o (? & _ & ?). eauto using ids_less_step.
Qed.

Lemma queued_ok zmsg o :
  message_ok zmsg → (∀ q cb m, (q, cb, m) ∈ enqueued o → tm_zmsg m = zmsg) → Forall waiting_ok (queued o).
Proof.
  intros (Hr & Hw & _) Ho. apply Forall_forall. intros x Hx.
  apply list_elem_of_fmap in Hx as ([[q cb] m] & -> & Hin). apply Ho in Hin.
  unfold waiting_ok. simpl. by rewrite Hin.
Qed.

Lemma tstep_inv y y' : tstep y y' → sys_inv y → sys_inv y'.
Proof.
  intros Hs [Hinv Hfl]. destruct Hs as [op s s' o fl Ha E|zmsg st s s' o fl Hm E|cb m s s' o fl1 fl2 E|cb m s fl1 fl2];
    simpl in *.
  - pose proof (top_safe op s Hinv Ha) as Hw. unfold wp in Hw. rewrite E in Hw. by destruct Hw.
  - apply dispatchNormalMsg_inv in E as (Hi & _ & Ho); [|done..]. split; [done|]. apply Forall_app. split; [done|].
    by eapply queued_ok.
  - apply Forall_app in Hfl as [Hf1 Hf2]. inversion Hf2 as [|? ? [Hr Hw] Hf3]; subst.
    pose proof (wp_callback cb m s Hinv Hr Hw) as Hc. unfold wp in Hc. rewrite E in Hc.
    destruct Hc as [Hc _]. split; simpl; [by eapply inv_core_eq|]. by apply Forall_app.
  - apply Forall_app in Hfl as [Hf1 Hf2]. inversion Hf2; subst. split; [done|]. by apply Forall_app.
Qed.

Lemma treach_inv y y' : rtc tstep y y' → sys_inv y → sys_inv y'.
Proof. induction 1; eauto using tstep_inv. Qed.

(** ** Theorems *)

(** C5: In every interleaving of application calls, received messages and
    queued callbacks, no operation follows a pointer to a freed inbox or
    subscription or overruns an identifier array: each call and each queued
    callback is defined, in particular a callback whose inbox or subscription
    was destroyed while its message was queued.  A received message that is
    readable is dispatched exactly when it is at least as long as what it is
    compared with: the inbox prefix, and the key of every wildcard
    subscription; on a shorter one [memcmp] reads beyond the message. *)
Theorem no_dangling y0 s fl :
  sys_inv y0 → rtc tstep y0 (s, fl) →
  (∀ op, allowed op s → is_Some (run_top op s))
  ∧ (∀ zmsg, message_ok zmsg →
       is_Some (zmqBridgeMamaTransportImpl_dispatchNormalMsg regexec zmsg s) ↔ in_bounds s zmsg)
  ∧ (∀ cb m, (cb, m) ∈ fl → is_Some (run_callback setMsgBuffer cb m s)).
Proof.
  intros H0 Hr. apply treach_inv in Hr as [Hinv Hfl]; [|done]. simpl in *. split_and!.
  - intros op Ha. pose proof (top_safe op s Hinv Ha) as (? & ? & ? & E & _)%wp_run. eauto.
  - intros zmsg Hm. by apply dispatchNormalMsg_defined.
  - intros cb m Hin. apply (proj1 (Forall_forall _ _) Hfl) in Hin as [Hr Hw].
    pose proof (wp_callback cb m s Hinv Hr Hw) as (? & ? & ? & E & _)%wp_run. eauto.
Qed.

(** C8: A published message is handed exactly once to each subscriber of
    exactly its subject that is not muted and to each wildcard subscriber
    whose prefix and regular expression match, wildcard subscribers first,
    each with its own identifier and the unchanged message; the status is
    MAMA_STATUS_NOT_FOUND when no regular subscriber is registered, even if
    wildcard subscribers received it.  This is defined exactly when the
    message is as long as the key of each wildcard subscription. *)
Theorem subscription_delivery s subject rest :
  inv s → is_cstr subject →
  let zmsg := subject ++ NUL :: rest in
  (is_Some (zmqBridgeMamaTransportImpl_dispatchSubMsg regexec zmsg s) ↔ wildcards_fit s zmsg)
  ∧ ∀ st s' o, zmqBridgeMamaTransportImpl_dispatchSubMsg regexec zmsg s = Some (st, s', o) →
      inv s' ∧ enqueued o = sub_deliveries regexec s zmsg subject
      ∧ (st = MAMA_STATUS_NOT_FOUND ↔ registered s subject = []).
Proof.
  intros Hinv Hc zmsg.
  assert (wildcards_fit s zmsg →
    wp (zmqBridgeMamaTransportImpl_dispatchSubMsg regexec zmsg)
      (λ st s' o, inv s' ∧ enqueued o = sub_deliveries regexec s zmsg subject
         ∧ (st = MAMA_STATUS_NOT_FOUND ↔ registered s subject = [])) s) as Hw.
  { intros Hfit. eapply wp_mono; [|by apply (wp_dispatchSubMsg regexec zmsg subject rest)].
    intros st s' o (Hi & _ & -> & Eo). split_and!; [done|done|]. by case_decide. }
  split; [split|].
  - intros [r E]. by eapply dispatchSubMsg_fits.
  - intros (st & s' & o & E & _)%Hw%wp_run. eauto.
  - intros st s' o E. assert (wildcards_fit s zmsg) as Hfit by by eapply dispatchSubMsg_fits.
    apply Hw in Hfit. unfold wp in Hfit. by rewrite E in Hfit.
Qed.

End RoutingSpec.

(** ** A concrete transport *)

Section RoutingDemo.

Definition demo_transport : transport (gmap (list byte) ptr) (list (list byte * list byte * ptr)) (list ptr) :=
  mkTransport (lit "_INBOX.3669840e-d043-11ea-adc2-fcaa146e6b01") 0 0 0 ∅ [] [] 0 0 0
    (mkSocket 1 2 0) 3 4 5 ∅ ∅ 0 (<[7 := zero_msg]> ∅) 0.

Lemma demo_transport_inv : inv demo_transport.
Proof. apply inv_initial; try done. by_decide. Qed.

Definition demo_rc (n : nat) (c : zcall) : Z := 1.
Definition demo_regexec (r s : list byte) : bool := true.
Definition demo_set (b : msgBuffer) : mama_status := MAMA_STATUS_OK.
Definition demo_junk (n : nat) : byte := x41.

(** Final state and log of a run. *)
Definition exec {S O A} (m : C S O A) (s : S) : S := match m s with Some (_, s', _) => s' | None => s end.
Definition log {S O A} (m : C S O A) (s : S) : list O := match m s with Some (_, _, o) => o | None => [] end.

Definition demo_create : top := TCreateInbox 7 8 9 None None 10 11.
Definition demo_msg1 : list byte :=
  wire (lit "_INBOX.3669840e-d043-11ea-adc2-fcaa146e6b01.0000000000000001")
    ZMQ_MSG_INBOX_RESPONSE [] (lit "Vabc").

Definition demo_s1 := exec (run_top demo_rc demo_junk demo_create) demo_transport.
Definition demo_o2 := log (zmqBridgeMamaTransportImpl_dispatchNormalMsg demo_regexec demo_msg1) demo_s1.
Definition demo_s2 := exec (zmqBridgeMamaTransportImpl_dispatchNormalMsg demo_regexec demo_msg1) demo_s1.
Definition demo_s3 := exec (run_top demo_rc demo_junk (TDestroyInbox 0)) demo_s2.

Lemma demo_readable : message_ok demo_msg1.
Proof.
  split_and!.
  - apply (readable_response (lit "_INBOX.3669840e-d043-11ea-adc2-fcaa146e6b01.0000000000000001")
             (NUL :: lit "Vabc")); by_decide.
  - by_decide.
  - intros _. vm_compute. eauto.
Qed.

Lemma demo_in_bounds : in_bounds demo_s1 demo_msg1.
Proof. split; [vm_compute; lia|by left]. Qed.

Lemma demo_inbox_live : is_Some (h_inboxes demo_s2 !! 0).
Proof. vm_compute. eauto. Qed.

(** A safe run ends in [exec] and logs [log]. *)
Lemma exec_run {S O A} (m : C S O A) (Q : A → S → list O → Prop) s :
  wp m Q s → ∃ a, m s = Some (a, exec m s, log m s) ∧ Q a (exec m s) (log m s).
Proof.
  unfold wp, exec, log. destruct (m s) as [[[a s'] o]|]; [|done]. intros HQ. by exists a.
Qed.

(** The inbox is destroyed while a reply to it waits in a queue. *)
Lemma demo_steps :
  rtc (tstep demo_rc demo_regexec demo_set demo_junk) (demo_transport, []) (demo_s3, queued demo_o2).
Proof.
  assert (allowed demo_junk demo_create demo_transport) as Ha by done.
  destruct (exec_run _ _ _ (top_safe demo_rc demo_regexec demo_junk _ _ demo_transport_inv Ha)) as ([] & E1 & Hi1 & _).
  fold demo_s1 in E1, Hi1.
  destruct (exec_run _ _ _ (wp_dispatchNormalMsg demo_rc demo_regexec demo_junk _ _ Hi1 demo_readable demo_in_bounds))
    as (st & E2 & Hi2 & _).
  fold demo_s2 in E2, Hi2. fold demo_o2 in E2.
  assert (allowed demo_junk (TDestroyInbox 0) demo_s2) as Hd by exact demo_inbox_live.
  destruct (exec_run _ _ _ (top_safe demo_rc demo_regexec demo_junk _ _ Hi2 Hd)) as ([] & E3 & Hi3 & _).
  fold demo_s3 in E3.
  eapply rtc_l; [exact (ts_op _ _ _ _ _ _ _ _ [] Ha E1)|].
  eapply rtc_l; [exact (ts_receive _ _ _ _ _ _ _ _ _ [] demo_readable E2)|].
  apply rtc_once. exact (ts_op _ _ _ _ _ _ _ _ (queued demo_o2) Hd E3).
Qed.

Lemma no_dangling_witness :
  (∀ op, allowed demo_junk op demo_s3 → is_Some (run_top demo_rc demo_junk op demo_s3))
  ∧ (∀ zmsg, message_ok zmsg →
       is_Some (zmqBridgeMamaTransportImpl_dispatchNormalMsg demo_regexec zmsg demo_s3) ↔ in_bounds demo_s3 zmsg)
  ∧ (∀ cb m, (cb, m) ∈ queued demo_o2 → is_Some (run_callback demo_set cb m demo_s3)).
Proof.
  apply (no_dangling demo_rc demo_regexec demo_set demo_junk (demo_transport, [])).
  - split; [apply demo_transport_inv|constructor].
  - apply demo_steps.
Defined.

(** Two subscribers of "IBM", one of them muted, and a wildcard subscriber. *)
Definition demo_subscribers : list top :=
  [TCreateSub None (Some (lit "IBM")) 7 20 None 21 22; TCreateSub None (Some (lit "IBM")) 7 30 None 31 32;
   TMute 1; TCreateWild true true (lit "^I[^/]+") 7 40 None 41 42].

Fixpoint run_tops (ops : list top) (s : transport (gmap (list byte) ptr) (list (list byte * list byte * ptr)) (list ptr)) :=
  match ops with
  | [] => s
  | op :: ops' => run_tops ops' (exec (run_top demo_rc demo_junk op) s)
  end.
Definition demo_subscribed_s := run_tops demo_subscribers demo_transport.

Lemma demo_subscribed_inv : inv demo_subscribed_s.
Proof.
  pose proof demo_transport_inv as H0.
  assert (∀ op s, inv s → allowed demo_junk op s → inv (exec (run_top demo_rc demo_junk op) s)) as Hstep.
  { intros op s Hi Ha. by destruct (exec_run _ _ _ (top_safe demo_rc demo_regexec demo_junk op s Hi Ha)) as (? & _ & ? & _). }
  unfold demo_subscribed_s. cbn [run_tops demo_subscribers].
  apply Hstep; [apply Hstep; [apply Hstep; [apply Hstep; [done|]|]|]|].
  - vm_compute. by eexists.
  - vm_compute. by eexists.
  - vm_compute. by eexists.
  - exists (lit "I"). split; [done|]. vm_compute. by eexists.
Qed.

Definition demo_ibm : list byte := lit "IBM" ++ NUL :: [x01; x00; x56].

Lemma subscription_delivery_witness :
  ∃ s' o, zmqBridgeMamaTransportImpl_dispatchSubMsg demo_regexec demo_ibm demo_subscribed_s
      = Some (MAMA_STATUS_OK, s', o)
    ∧ enqueued o = [(40, wcCallback, mkTMsg (serial 1) demo_ibm); (20, subCallback, mkTMsg (serial 1) demo_ibm)].
Proof.
  destruct (subscription_delivery demo_regexec demo_subscribed_s (lit "IBM") [x01; x00; x56]) as [Hd Ho].
  - apply demo_subscribed_inv.
  - by_decide.
  - assert (wildcards_fit demo_subscribed_s demo_ibm) as Hfit.
    { assert (list_elems (mWcEndpoints demo_subscribed_s) = [2]) as E by (vm_compute; reflexivity).
      intros p Hp i key Ei Ek. rewrite E in Hp. apply list_elem_of_singleton in Hp as ->.
      assert (sub_subjectKey <$> h_subs demo_subscribed_s !! 2 = Some (Some (lit "I"))) as E2 by (vm_compute; reflexivity).
      rewrite Ei in E2. cbn in E2. rewrite Ek in E2. injection E2 as ->. vm_compute. lia. }
    apply Hd in Hfit as [[[st s'] o] E]. destruct (Ho st s' o E) as (_ & Eo & Hst). exists s', o.
    assert (registered demo_subscribed_s (lit "IBM") = [0; 1]) as Er by (vm_compute; reflexivity).
    assert (st = MAMA_STATUS_OK) as ->.
    { assert (fst ∘ fst <$> zmqBridgeMamaTransportImpl_dispatchSubMsg demo_regexec demo_ibm demo_subscribed_s = Some MAMA_STATUS_OK)
        as Es by (vm_compute; reflexivity). change (lit "IBM" ++ NUL :: [x01; x00; x56]) with demo_ibm in E.
      rewrite E in Es. cbn in Es. by injection Es. }
    split; [exact E|]. rewrite Eo. vm_compute. reflexivity.
Defined.

End RoutingDemo.
