(* ===== verification/Publisher.v ===== *)
(** * Publishing, and request/reply end to end (src/src/publisher.c)

    A publisher serializes a MAMA message with its subject and sends it on
    the transport's data socket.  With the routing of the receiving side
    this gives the round trip of a request and its reply. *)

From S2P Require Import Prelude CLib CMonad Msg Util Subject Socket SocketProofs Collections Routing RoutingProofs RoutingSpec.
Import ZM ZU Subj Sock ZT.

Module Pub.

Record zmqPublisherBridge := mkPublisher {
  pb_topic : option (list byte);
  pb_source : option (list byte);
  pb_root : option (list byte);
  pb_subject : option (list byte);
  pb_parent : handle;
  pb_onDestroy : option handle;
  pb_closure : handle }.

Section Publisher.

Context {St O : Type} `{Zmq St O} `{!WStr}.
Context (rc : nat → zcall → Z) (junk : nat → byte).
Context (updateString : handle → list byte → mama_status).

(** [impl->mTransport->mZmqDataPub]. *)
Context (mZmqDataPub : zmqSocket).

(** ** Creation *)

Definition zmqBridgeMamaPublisherImpl_buildSendSubject (impl : zmqPublisherBridge)
    : option (list byte) :=
  match pb_root impl with
  | Some root =>
      if decide (root = lit "_MDDD") then
        zmqBridgeMamaSubscriptionImpl_generateSubjectKey junk (pb_root impl) (pb_source impl) (pb_topic impl)
      else
        zmqBridgeMamaSubscriptionImpl_generateSubjectKey junk (pb_root impl) (pb_source impl) None
  | None =>
      zmqBridgeMamaSubscriptionImpl_generateSubjectKey junk None (pb_source impl) (pb_topic impl)
  end.

(** [argsOk]: result, tport and parent are not NULL; [tport]: the bridge
    transport was found; [mem]: [calloc] succeeds. *)
Definition zmqBridgeMamaPublisher_createByIndex (argsOk tport mem : bool)
    (topic source root : option (list byte)) (parent : handle)
    : option (mama_status * option zmqPublisherBridge) :=
  if argsOk then
    if tport then
      if mem then
        let impl := mkPublisher topic source root None parent None 0 in
        subject ← zmqBridgeMamaPublisherImpl_buildSendSubject impl;
        Some (MAMA_STATUS_OK, Some (mkPublisher topic source root (Some subject) parent None 0))
      else Some (MAMA_STATUS_NOMEM, None)
    else Some (MAMA_STATUS_NULL_ARG, None)
  else Some (MAMA_STATUS_NULL_ARG, None).

Definition zmqBridgeMamaPublisher_setUserCallbacks (publisher : option zmqPublisherBridge)
    (cb : option (option handle)) (closure : handle) : mama_status * option zmqPublisherBridge :=
  match publisher, cb with
  | Some impl, Some onDestroy =>
      (MAMA_STATUS_OK,
       Some (mkPublisher (pb_topic impl) (pb_source impl) (pb_root impl) (pb_subject impl)
               (pb_parent impl) onDestroy closure))
  | _, _ => (MAMA_STATUS_NULL_ARG, publisher)
  end.

(** The callback is called after the publisher was freed, with the copies
    taken before: the result is the status and the call. *)
Definition zmqBridgeMamaPublisher_destroy (publisher : option zmqPublisherBridge)
    : mama_status * option (handle * handle * handle) :=
  match publisher with
  | None => (MAMA_STATUS_NULL_ARG, None)
  | Some impl =>
      (MAMA_STATUS_OK, (λ cb, (cb, pb_parent impl, pb_closure impl)) <$> pb_onDestroy impl)
  end.

(** ** Sending *)

(** [mamaMsg] is [None] for NULL, else the answer of [mamaMsg_getByteBuffer];
    [rcInit] the one of [zmq_msg_init_size]. *)
Definition zmqBridgeMamaPublisherImpl_sendSubject (rcInit : Z)
    (publisher : option zmqPublisherBridge) (mamaMsg : option (mama_status * list byte))
    (bridgeMsg : option (zmqBridgeMsgImpl handle)) (subject : option (list byte))
    : C St O mama_status :=
  match publisher, mamaMsg with
  | Some impl, Some buffer =>
      let msg := default (zmqBridgeMamaMsgImpl_init zero_msg) bridgeMsg in
      let msg' := snd (zmqBridgeMamaMsg_setSendSubject updateString (Some msg)
                         (match subject with Some s => Some s | None => pb_subject impl end)) in
      r ← cpart (zmqBridgeMamaMsgImpl_serialize msg' buffer rcInit junk);
      if decide (fst r = MAMA_STATUS_OK) then
        wlock_lock (mLock mZmqDataPub) ;;
        i ← zmq rc (zmq_send (mSocket mZmqDataPub) (snd r));
        wlock_unlock (mLock mZmqDataPub) ;;
        zmq_msg_close ;;
        mret (if decide (i < 0)%Z then MAMA_STATUS_PLATFORM else MAMA_STATUS_OK)
      else mret (fst r)
  | _, _ => mret MAMA_STATUS_NULL_ARG
  end.

Definition zmqBridgeMamaPublisher_send rcInit publisher msg : C St O mama_status :=
  zmqBridgeMamaPublisherImpl_sendSubject rcInit publisher msg None None.

Definition zmqBridgeMamaPublisher_sendSubject rcInit publisher msg subject : C St O mama_status :=
  zmqBridgeMamaPublisherImpl_sendSubject rcInit publisher msg None subject.

Definition zmqBridgeMamaPublisher_sendReplyToInboxHandle (rcInit : Z)
    (publisher : option zmqPublisherBridge) (replyHandle : option (list byte))
    (reply : option (mama_status * list byte)) : C St O mama_status :=
  match publisher, replyHandle, reply with
  | Some _, Some h, Some _ =>
      let m0 := zmqBridgeMamaMsgImpl_init zero_msg in
      let m1 := snd (zmqBridgeMamaMsgImpl_setMsgType (Some m0) ZMQ_MSG_INBOX_RESPONSE) in
      r ← cpart (zmqBridgeMamaMsgImpl_setReplyHandle m1 (Some h));
      if decide (fst r = MAMA_STATUS_OK) then
        zmqBridgeMamaPublisherImpl_sendSubject rcInit publisher reply (snd r) (Some h)
      else mret (fst r)
  | _, _, _ => mret MAMA_STATUS_NULL_ARG
  end.

(** [request]: the bridge message of the request, if the message has one. *)
Definition zmqBridgeMamaPublisher_sendReplyToInbox (rcInit : Z)
    (publisher : option zmqPublisherBridge) (request : option (option (zmqBridgeMsgImpl handle)))
    (reply : option (mama_status * list byte)) : C St O mama_status :=
  match publisher, request, reply with
  | Some _, Some bridgeMsg, Some _ =>
      match zmqBridgeMamaMsg_getReplyHandle bridgeMsg with
      | None => mret MAMA_STATUS_NULL_ARG
      | Some h => zmqBridgeMamaPublisher_sendReplyToInboxHandle rcInit publisher (Some h) reply
      end
  | _, _, _ => mret MAMA_STATUS_NULL_ARG
  end.

(** [inbox]: NULL, or the inbox bridge of the MAMA inbox (which may be NULL). *)
Definition zmqBridgeMamaPublisher_sendFromInboxByIndex (rcInit : Z)
    (publisher : option zmqPublisherBridge) (inbox : option (option zmqInboxImpl))
    (msg : option (mama_status * list byte)) : C St O mama_status :=
  match publisher, inbox, msg with
  | Some _, Some bridge, Some _ =>
      let m0 := zmqBridgeMamaMsgImpl_init zero_msg in
      let m1 := snd (zmqBridgeMamaMsgImpl_setMsgType (Some m0) ZMQ_MSG_INBOX_REQUEST) in
      match bridge with
      | None => mret MAMA_STATUS_NULL_ARG
      | Some ib =>
          r ← cpart (zmqBridgeMamaMsgImpl_setReplyHandle m1 (Some (ib_replyHandle ib)));
          if decide (fst r = MAMA_STATUS_OK) then
            zmqBridgeMamaPublisherImpl_sendSubject rcInit publisher msg (snd r) None
          else mret (fst r)
      end
  | _, _, _ => mret MAMA_STATUS_NULL_ARG
  end.

Definition zmqBridgeMamaPublisher_sendFromInbox rcInit publisher inbox msg : C St O mama_status :=
  zmqBridgeMamaPublisher_sendFromInboxByIndex rcInit publisher inbox msg.

(** ** Lemmas *)

(** The log of sending [data]: one call, inside the socket's lock; then the
    message is closed, whatever the call answered. *)
Definition send_log (s : St) (data : list byte) : list O :=
  zlog <$> [ELock (mLock mZmqDataPub);
            ECall (zmq_send (mSocket mZmqDataPub) data)
              (rc (zcount s) (zmq_send (mSocket mZmqDataPub) data));
            EUnlock (mLock mZmqDataPub); EMsgClose].

Definition send_status (s : St) (data : list byte) : mama_status :=
  if decide (rc (zcount s) (zmq_send (mSocket mZmqDataPub) data) < 0)%Z
  then MAMA_STATUS_PLATFORM else MAMA_STATUS_OK.

(** The bytes of a message with the given subject, cut to its array. *)
Definition sent (subject : list byte) (type : byte) (reply payload : list byte) : list byte :=
  wire (take MAX_SUBJECT_LENGTH subject) type reply payload.

Lemma length_wire_bound subject type reply payload :
  length reply < REPLYHANDLE_CAP → (Z.of_nat (length payload) < 2 ^ 31)%Z →
  (Z.of_nat (length (sent subject type reply payload)) < 2 ^ 64)%Z.
Proof.
  intros Hr Hp. unfold sent, wire. rewrite !length_app. simpl.
  pose proof (length_take_le (take MAX_SUBJECT_LENGTH subject) MAX_SUBJECT_LENGTH).
  assert (length (take MAX_SUBJECT_LENGTH subject) ≤ MAX_SUBJECT_LENGTH) by (rewrite length_take; lia).
  unfold REPLYHANDLE_CAP, MAX_SUBJECT_LENGTH in *. simpl in Hr. destruct (decide _); simpl; lia.
Qed.

Lemma setSendSubject_run msg subject :
  mParent msg = None →
  snd (zmqBridgeMamaMsg_setSendSubject updateString (Some msg) (Some subject))
  = Some (set_subject (take MAX_SUBJECT_LENGTH subject) msg).
Proof.
  intros Hp. unfold zmqBridgeMamaMsg_setSendSubject.
  pose proof (wstr_take subject SENDSUBJECT_CAP ltac:(vm_compute; lia)) as Ht.
  destruct (wmStrSizeCpy subject SENDSUBJECT_CAP) as [n s']. cbn in Ht. subst s'.
  rewrite Hp. by destruct (decide _).
Qed.

Lemma sendSubject_run impl payload msg subject s :
  mParent msg = None → length (mReplyHandle msg) < REPLYHANDLE_CAP →
  (Z.of_nat (length payload) < 2 ^ 31)%Z →
  ∀ target, target = Some subject ∨ target = None ∧ pb_subject impl = Some subject →
  let data := sent subject (mMsgType msg) (mReplyHandle msg) payload in
  zmqBridgeMamaPublisherImpl_sendSubject 0 (Some impl) (Some (MAMA_STATUS_OK, payload)) (Some msg) target s
  = Some (send_status s data, ztick s, send_log s data).
Proof.
  intros Hp Hr Hl target Ht data. unfold zmqBridgeMamaPublisherImpl_sendSubject. cbn [default].
  replace (match target with Some s => Some s | None => pb_subject impl end) with (Some subject)
    by (destruct Ht as [->|[-> ->]]; done).
  cbv zeta. rewrite setSendSubject_run by done.
  rewrite (C_bind_read _ _ _ (MAMA_STATUS_OK, data) s).
  - cbn [fst snd]. rewrite decide_True by done. done.
  - unfold cpart. rewrite serialize_bytes; [done|]. by apply length_wire_bound.
Qed.

Lemma sendReply_run impl payload h s :
  length h < REPLYHANDLE_CAP → (Z.of_nat (length payload) < 2 ^ 31)%Z →
  zmqBridgeMamaPublisher_sendReplyToInboxHandle 0 (Some impl) (Some h) (Some (MAMA_STATUS_OK, payload)) s
  = Some (send_status s (sent h ZMQ_MSG_INBOX_RESPONSE h payload), ztick s,
          send_log s (sent h ZMQ_MSG_INBOX_RESPONSE h payload)).
Proof.
  intros Hh Hl. unfold zmqBridgeMamaPublisher_sendReplyToInboxHandle. cbv zeta.
  cbn [zmqBridgeMamaMsgImpl_setMsgType snd zmqBridgeMamaMsgImpl_setReplyHandle].
  rewrite strcpy_fits by done.
  rewrite (C_bind_read _ _ _ (MAMA_STATUS_OK,
             Some (set_reply h (set_type ZMQ_MSG_INBOX_RESPONSE (zmqBridgeMamaMsgImpl_init zero_msg)))) s)
    by done.
  cbn [fst snd]. rewrite decide_True by done. apply sendSubject_run; auto.
Qed.

Lemma sendFromInbox_run impl subject ib payload s :
  pb_subject impl = Some subject → length (ib_replyHandle ib) < REPLYHANDLE_CAP →
  (Z.of_nat (length payload) < 2 ^ 31)%Z →
  zmqBridgeMamaPublisher_sendFromInbox 0 (Some impl) (Some (Some ib)) (Some (MAMA_STATUS_OK, payload)) s
  = Some (send_status s (sent subject ZMQ_MSG_INBOX_REQUEST (ib_replyHandle ib) payload), ztick s,
          send_log s (sent subject ZMQ_MSG_INBOX_REQUEST (ib_replyHandle ib) payload)).
Proof.
  intros Hs Hh Hl. unfold zmqBridgeMamaPublisher_sendFromInbox, zmqBridgeMamaPublisher_sendFromInboxByIndex.
  cbv zeta. cbn [zmqBridgeMamaMsgImpl_setMsgType snd zmqBridgeMamaMsgImpl_setReplyHandle].
  rewrite strcpy_fits by done.
  rewrite (C_bind_read _ _ _ (MAMA_STATUS_OK,
             Some (set_reply (ib_replyHandle ib)
                     (set_type ZMQ_MSG_INBOX_REQUEST (zmqBridgeMamaMsgImpl_init zero_msg)))) s)
    by done.
  cbn [fst snd]. rewrite decide_True by done. apply sendSubject_run; auto.
Qed.

(** ** Theorem *)

(** Publishing sends exactly one zmq message, under the data socket's
    lock: the publisher's subject (or the one given) cut to 256 characters,
    the type, the reply handle of a request and the payload; the status is
    MAMA_STATUS_PLATFORM exactly when zmq refuses it. *)
Lemma publish_sends impl payload subject target s :
  (Z.of_nat (length payload) < 2 ^ 31)%Z →
  target = Some subject ∨ target = None ∧ pb_subject impl = Some subject →
  let data := sent subject ZMQ_MSG_PUB_SUB [] payload in
  zmqBridgeMamaPublisher_sendSubject 0 (Some impl) (Some (MAMA_STATUS_OK, payload)) target s
  = Some (send_status s data, ztick s, send_log s data).
Proof.
  intros Hl Ht. unfold zmqBridgeMamaPublisher_sendSubject.
  change (zmqBridgeMamaPublisherImpl_sendSubject 0 (Some impl) (Some (MAMA_STATUS_OK, payload)) None target s)
    with (zmqBridgeMamaPublisherImpl_sendSubject 0 (Some impl) (Some (MAMA_STATUS_OK, payload))
            (Some (zmqBridgeMamaMsgImpl_init zero_msg)) target s).
  apply sendSubject_run; [done|vm_compute; lia|done|done].
Qed.

End Publisher.

(** ** Request and reply *)

Section RequestReply.

Context {T P L : Type}.
Context `{HT : StrTable T ptr} `{!StrTableLaws T ptr}.
Context `{HP : EndpointPool P ptr} `{HPL : !EndpointPoolLaws P ptr}.
Context `{HL : WList L ptr} `{!WListLaws L ptr}.
Context `{!WStr}.
Context (regexec : list byte → list byte → bool).
Context (setMsgBuffer : msgBuffer → mama_status).

Implicit Types s : transport T P L.

(** [sprintf (temp, "%s.%s", ZMQ_REPLYHANDLE_PREFIX, impl->mUuid)] in
    zmqBridgeMamaTransport_create. *)
Definition make_inboxSubject (uuid : list byte) : list byte :=
  ZMQ_REPLYHANDLE_PREFIX ++ x2e :: uuid.

(** An inbox of this transport that is registered under its name. *)
Record open_inbox s (p : ptr) (ib : zmqInboxImpl) (k : list byte) : Prop := {
  oi_heap : h_inboxes s !! p = Some ib;
  oi_table : wtable_lookup (mInboxes s) k = Some p;
  oi_handle : ib_replyHandle ib = mInboxSubject s ++ x2e :: k }.

Lemma open_inbox_handle s p ib k :
  inv s → open_inbox s p ib k → is_cstr (ib_replyHandle ib) ∧ is_cstr k
    ∧ length (ib_replyHandle ib) = ZMQ_REPLYHANDLE_SIZE.
Proof.
  intros Hinv [Hh Ht Ehandle].
  destruct (inv_subject _ _ _ _ _ _ _ _ Hinv) as [Hc Hl].
  destruct (inv_inbox _ _ _ _ _ _ _ _ Hinv _ _ Hh) as (n & _ & Eh).
  rewrite Eh in Ehandle. apply handle_inj in Ehandle as <-. rewrite Eh.
  assert (is_cstr (serial n)) as Hs by apply hexn_is_cstr. split_and!; [|done|].
  - change (mInboxSubject s ++ x2e :: serial n) with (mInboxSubject s ++ [x2e] ++ serial n).
    rewrite !is_cstr_app. split_and!; [done|by_decide|done].
  - rewrite length_app, Hl. cbn [length]. by rewrite length_serial.
Qed.

(** The reply to an inbox: its subject is the reply handle. *)
Definition reply_data (h : list byte) (payload : list byte) : list byte :=
  wire h ZMQ_MSG_INBOX_RESPONSE h payload.

Lemma sent_reply h type reply payload :
  length h ≤ MAX_SUBJECT_LENGTH → sent h type reply payload = wire h type reply payload.
Proof. intros Hl. unfold sent. by rewrite take_ge. Qed.

Lemma reply_name s p ib k payload :
  inv s → open_inbox s p ib k →
  cstring (drop ZMQ_REPLYHANDLE_INBOXNAME_INDEX (reply_data (ib_replyHandle ib) payload)) = Some k.
Proof.
  intros Hinv Ho. destruct (open_inbox_handle _ _ _ _ Hinv Ho) as (_ & Hk & _).
  destruct (inv_subject _ _ _ _ _ _ _ _ Hinv) as [Hc Hl].
  unfold reply_data, wire. rewrite (oi_handle _ _ _ _ Ho), <-app_assoc.
  unfold ZMQ_REPLYHANDLE_INBOXNAME_INDEX. rewrite <-Hl, drop_app_add. simpl (drop 1 _).
  by apply cstring_cstr.
Qed.

(** A reply reaches the queue of its inbox. *)
Lemma reply_dispatched s p ib k uuid payload :
  inv s → open_inbox s p ib k → mInboxSubject s = make_inboxSubject uuid →
  wp (zmqBridgeMamaTransportImpl_dispatchNormalMsg regexec (reply_data (ib_replyHandle ib) payload))
    (λ st s' o, st = MAMA_STATUS_OK ∧ core s' = core s ∧ h_msgs s' = h_msgs s
       ∧ enqueued o = [(ib_zmqQueue ib, inboxCallback,
                        mkTMsg k (reply_data (ib_replyHandle ib) payload))]) s.
Proof.
  intros Hinv Ho Hu. unfold zmqBridgeMamaTransportImpl_dispatchNormalMsg. wp_steps. eapply wp_part.
  { unfold reply_data, wire. rewrite (oi_handle _ _ _ _ Ho), Hu. unfold make_inboxSubject.
    rewrite <-!app_assoc. apply memcmp_eq_refl. }
  set (s1 := upd_counts _ _ _ s). assert (inv s1) as Hinv1 by exact Hinv.
  eapply wp_mono; [|exact (wp_dispatchInboxMsg _ k s1 Hinv1 (reply_name s p ib k payload Hinv Ho))].
  intros st s2 o (Hc & Hm & -> & Eo). cbn [app]. unfold inbox_delivery in Eo. cbn in Eo.
  rewrite (oi_table _ _ _ _ Ho), (oi_heap _ _ _ _ Ho) in Eo.
  rewrite decide_False by (change (wtable_lookup (mInboxes s) k ≠ None);
                           by rewrite (oi_table _ _ _ _ Ho)).
  split_and!; done.
Qed.

(** The queued reply calls the inbox's callback with the payload. *)
Lemma reply_delivered s p ib k cb t payload m :
  inv s → open_inbox s p ib k → ib_msgCB ib = Some cb →
  h_msgs s !! ib_mamaQueue ib = Some m → setMsgBuffer (t :: payload, t) = MAMA_STATUS_OK →
  (Z.of_nat (length (t :: payload)) < 2 ^ 31)%Z →
  wp (zmqBridgeMamaTransportImpl_inboxCallback setMsgBuffer
        (mkTMsg k (reply_data (ib_replyHandle ib) (t :: payload))))
    (λ _ s' o, core s' = core s
       ∧ o = [oZmq (ELock (mInboxesLock s)); oZmq (EUnlock (mInboxesLock s));
              oInboxMsg cb (ib_closure ib) (t :: payload, t); oMsgClose]) s.
Proof.
  intros Hinv Ho Hcb Hm Hset Hw.
  destruct (open_inbox_handle _ _ _ _ Hinv Ho) as (Hc & _ & Hl).
  unfold zmqBridgeMamaTransportImpl_inboxCallback. wp_locks.
  cbn [tm_endpointIdentifier tm_zmsg]. rewrite (oi_table _ _ _ _ Ho).
  wp_steps. eapply wp_deref_inbox; [apply (oi_heap _ _ _ _ Ho)|]. wp_steps.
  unfold deserialize_cached. wp_steps. rewrite Hm. wp_steps.
  eapply wp_part.
  { apply deserialize_wire; [done|done| |done]. unfold reply_fits, reply_of, REPLYHANDLE_CAP. simpl.
    rewrite Hl. vm_compute. lia. }
  wp_steps. rewrite Hset, decide_True by done. cbn [fmap option_fmap option_map].
  unfold zmqBridgeMamaInboxImpl_onMsg. cbn [mReplyHandle set_reply].
  change (reply_of (ib_replyHandle ib) ZMQ_MSG_INBOX_RESPONSE (ib_replyHandle ib) (mReplyHandle m))
    with (ib_replyHandle ib).
  rewrite decide_False by (intros E; rewrite E in Hl; done).
  rewrite decide_False by tauto. rewrite Hcb. wp_steps. done.
Qed.

(** C2: Request and reply, end to end.  A request sent from an open inbox
    carries the inbox's reply handle; the replier, whatever its message
    object held before, answers to that handle; the requester's dispatcher
    hands the reply to the queue of exactly that inbox, and when the queue
    dispatches it the inbox's callback is called once, with the reply's
    payload. *)
Theorem request_reply {St O : Type} `{Zmq St O} rc junk updateString (dataPubA dataPubB : zmqSocket)
    s uuid p ib k cb m pubA topic pubB msgB tq request tr reply stA stB :
  inv s → open_inbox s p ib k → mInboxSubject s = make_inboxSubject uuid →
  ib_msgCB ib = Some cb → h_msgs s !! ib_mamaQueue ib = Some m →
  pb_subject pubA = Some topic → is_cstr topic →
  (∀ b, setMsgBuffer b = MAMA_STATUS_OK) →
  (Z.of_nat (length (tq :: request)) < 2 ^ 31)%Z → (Z.of_nat (length (tr :: reply)) < 2 ^ 31)%Z →
  ∃ req rep msgB' s' o1 o2,
    zmqBridgeMamaPublisher_sendFromInbox rc junk updateString dataPubA 0 (Some pubA) (Some (Some ib))
      (Some (MAMA_STATUS_OK, tq :: request)) stA
    = Some (send_status rc dataPubA stA req, ztick stA, send_log rc dataPubA stA req)
    ∧ zmqBridgeMamaMsgImpl_deserialize setMsgBuffer (Some msgB) req
      = Some (MAMA_STATUS_OK, Some msgB', Some (tq :: request, tq))
    ∧ zmqBridgeMamaPublisher_sendReplyToInbox rc junk updateString dataPubB 0 (Some pubB)
        (Some (Some msgB')) (Some (MAMA_STATUS_OK, tr :: reply)) stB
      = Some (send_status rc dataPubB stB rep, ztick stB, send_log rc dataPubB stB rep)
    ∧ zmqBridgeMamaTransportImpl_dispatchNormalMsg regexec rep s = Some (MAMA_STATUS_OK, s', o1)
    ∧ enqueued o1 = [(ib_zmqQueue ib, inboxCallback, mkTMsg k rep)]
    ∧ (∃ s'', zmqBridgeMamaTransportImpl_inboxCallback setMsgBuffer (mkTMsg k rep) s' = Some ((), s'', o2))
    ∧ omap (λ x, match x with oInboxMsg cb cl b => Some (cb, cl, b) | _ => None end) o2
      = [(cb, ib_closure ib, (tr :: reply, tr))].
Proof.
  intros Hinv Ho Hu Hcb Hm Ht Htc Hset Hq Hr.
  destruct (open_inbox_handle _ _ _ _ Hinv Ho) as (Hc & _ & Hl).
  assert (length (ib_replyHandle ib) < REPLYHANDLE_CAP) as Hfit by (rewrite Hl; vm_compute; lia).
  pose proof (reply_dispatched s p ib k uuid (tr :: reply) Hinv Ho Hu)
    as (st & s' & o1 & E1 & -> & Hcore & Hmsgs & Eo1)%wp_run.
  assert (inv s') as Hinv' by (by eapply inv_core_eq).
  assert (open_inbox s' p ib k) as Ho'.
  { unfold core in Hcore. injection Hcore as E11 E12 E13 E14 E15 E16 E17 E18 _ _.
    destruct Ho as [H1 H2 H3]. split; congruence. }
  pose proof (reply_delivered s' p ib k cb tr reply m Hinv' Ho' Hcb ltac:(by rewrite Hmsgs)
                (Hset _) Hr) as ([] & s'' & o2 & E2 & _ & Eo2)%wp_run.
  exists (sent topic ZMQ_MSG_INBOX_REQUEST (ib_replyHandle ib) (tq :: request)),
    (reply_data (ib_replyHandle ib) (tr :: reply)),
    (set_reply (ib_replyHandle ib) (set_type ZMQ_MSG_INBOX_REQUEST msgB)), s', o1, o2.
  split_and!; [| | |done|done|by exists s''|by rewrite Eo2].
  - by apply sendFromInbox_run.
  - unfold sent. rewrite deserialize_wire; [by rewrite Hset|by apply is_cstr_take|done| |done].
    done.
  - unfold zmqBridgeMamaPublisher_sendReplyToInbox. cbn [zmqBridgeMamaMsg_getReplyHandle fmap option_fmap
      option_map mReplyHandle set_reply]. rewrite sendReply_run by done.
    rewrite sent_reply by (rewrite Hl; vm_compute; lia). done.
Qed.

End RequestReply.

End Pub.

Section PublisherDemo.

Import Pub.

Definition demo_pub : zmqPublisherBridge := mkPublisher None None None (Some (lit "IBM")) 1 None 0.

Definition demo_ib : zmqInboxImpl := new_inbox demo_transport 10 7 8 9 None None 11.

Lemma demo_open : open_inbox demo_s1 0 demo_ib (serial 1).
Proof.
  assert (allowed demo_junk demo_create demo_transport) as Ha by done.
  pose proof (wp_createInbox 7 8 9 None None 10 11 demo_transport demo_transport_inv Ha) as Hw.
  split; [vm_compute; reflexivity..].
Qed.

Lemma demo_s1_inv : inv demo_s1.
Proof.
  assert (allowed demo_junk demo_create demo_transport) as Ha by done.
  by destruct (exec_run _ _ _ (top_safe demo_rc demo_regexec demo_junk _ _ demo_transport_inv Ha))
    as (_ & _ & ? & _).
Qed.

Lemma request_reply_witness :
  ∃ req rep msgB' s' o1 o2,
    zmqBridgeMamaPublisher_sendFromInbox demo_rc demo_junk (λ _ _, MAMA_STATUS_OK) (mkSocket 5 6 0) 0
      (Some demo_pub) (Some (Some demo_ib)) (Some (MAMA_STATUS_OK, lit "Vq")) 0
    = Some (send_status demo_rc (mkSocket 5 6 0) 0 req, 1, send_log demo_rc (mkSocket 5 6 0) 0 req)
    ∧ zmqBridgeMamaMsgImpl_deserialize demo_set (Some zero_msg) req
      = Some (MAMA_STATUS_OK, Some msgB', Some (lit "Vq", x56))
    ∧ zmqBridgeMamaPublisher_sendReplyToInbox demo_rc demo_junk (λ _ _, MAMA_STATUS_OK) (mkSocket 15 16 0) 0
        (Some demo_pub) (Some (Some msgB')) (Some (MAMA_STATUS_OK, lit "Vr")) 0
      = Some (send_status demo_rc (mkSocket 15 16 0) 0 rep, 1, send_log demo_rc (mkSocket 15 16 0) 0 rep)
    ∧ zmqBridgeMamaTransportImpl_dispatchNormalMsg demo_regexec rep demo_s1 = Some (MAMA_STATUS_OK, s', o1)
    ∧ enqueued o1 = [(8, inboxCallback, mkTMsg (serial 1) rep)]
    ∧ (∃ s'', zmqBridgeMamaTransportImpl_inboxCallback demo_set (mkTMsg (serial 1) rep) s'
              = Some ((), s'', o2))
    ∧ omap (λ x, match x with oInboxMsg cb cl b => Some (cb, cl, b) | _ => None end) o2
      = [(9, 10, (lit "Vr", x56))].
Proof.
  exact (request_reply demo_regexec demo_set demo_rc demo_junk (λ _ _, MAMA_STATUS_OK)
           (mkSocket 5 6 0) (mkSocket 15 16 0) demo_s1 (lit "3669840e-d043-11ea-adc2-fcaa146e6b01")
           0 demo_ib (serial 1) 9 zero_msg demo_pub (lit "IBM") demo_pub zero_msg
           x56 (lit "q") x56 (lit "r") 0 0
           demo_s1_inv demo_open eq_refl eq_refl eq_refl eq_refl ltac:(by_decide)
           (λ b, eq_refl) ltac:(by_decide) ltac:(by_decide)).
Defined.

End PublisherDemo.
