(* ===== verification/PubSub.v ===== *)
(** * Publish and subscribe, end to end

    What a publisher sends, the dispatcher of a receiving transport, and the
    callbacks of its queues, whatever its application does in between.
    Identifiers are unique and never given out again ([ids_ok], [ids_old]), so
    a callback finds the subscription the message was queued for or none. *)

From S2P Require Import Prelude CLib CMonad Msg Util Subject Socket SocketProofs Collections Routing RoutingProofs RoutingSpec Publisher.
Import ZM ZU Subj Sock ZT Pub.

Section PubSub.

Context {T P L : Type}.
Context `{HT : StrTable T ptr} `{!StrTableLaws T ptr}.
Context `{HP : EndpointPool P ptr} `{HPL : !EndpointPoolLaws P ptr}.
Context `{HL : WList L ptr} `{!WListLaws L ptr}.
Context `{!WStr}.
Context (rc : nat → zcall → Z) (regexec : list byte → list byte → bool).
Context (setMsgBuffer : msgBuffer → mama_status) (junk : nat → byte).

Implicit Types s : transport T P L.

(** ** Identifiers *)

Definition ids_ok s : Prop := ∀ cb,
  (0 <= uid s cb < 2 ^ 64)%Z
  ∧ (∀ t i p, holds s cb (t, i, p) → ∃ n, (1 <= n <= uid s cb)%Z ∧ i = serial n)
  ∧ (∀ t i p t' p', holds s cb (t, i, p) → holds s cb (t', i, p') → p = p').

(** Who holds an identifier of [s] later on held it in [s]. *)
Definition ids_old s s' : Prop := ∀ cb,
  (uid s cb <= uid s' cb)%Z
  ∧ ∀ t n p, (1 <= n <= uid s cb)%Z → holds s' cb (t, serial n, p) → holds s cb (t, serial n, p).

(** Fewer than 2^64 subscriptions were made. *)
Definition room s : Prop := ∀ cb, (uid s cb + 1 < 2 ^ 64)%Z.

#[local] Instance ids_old_refl : Reflexive ids_old.
Proof. intros s cb. split; [lia|auto]. Qed.

#[local] Instance ids_old_trans : Transitive ids_old.
Proof.
  intros s1 s2 s3 H1 H2 cb. destruct (H1 cb) as [L1 O1], (H2 cb) as [L2 O2]. split; [lia|].
  intros t n p Hn Hh. apply O1; [done|]. apply O2; [lia|done].
Qed.

Lemma ids_step_ok p s s' : ids_ok s → room s → ids_step p s s' → ids_ok s' ∧ ids_old s s'.
Proof.
  intros Hok Hroom Hstep. split; intros cb; destruct (Hok cb) as (Hr & Hs & Hu); specialize (Hroom cb);
    (destruct (Hstep cb) as [[E Hl]|[E Hl]]; rewrite E; [|rewrite (wrapu_id 64) in * by lia]).
  - split_and!; [lia|lia|by eauto|by eauto].
  - split_and!; [lia|lia| |].
    + intros t i q [Hh|[-> _]]%Hl; [|eexists; split; [|done]; lia].
      destruct (Hs _ _ _ Hh) as (n & ? & ->). exists n. split; [lia|done].
    + intros t i q t' q' H1 H2. apply Hl in H1, H2.
      destruct H1 as [H1|[E1 ->]], H2 as [H2|[E2 ->]]; [by eauto|exfalso|exfalso|done].
      * destruct (Hs _ _ _ H1) as (n & ? & ->). apply serial_inj in E2; lia.
      * destruct (Hs _ _ _ H2) as (n & ? & ->). apply serial_inj in E1; lia.
  - split; [lia|]. intros t n q _. apply Hl.
  - split; [lia|]. intros t n q Hn [?|[En _]]%Hl; [done|]. apply serial_inj in En; lia.
Qed.

Lemma ids_less_ok s s' : ids_ok s → ids_less s s' → ids_ok s'.
Proof. intros Hok Hl cb. destruct (Hok cb) as (? & ? & ?), (Hl cb) as [E ?]. rewrite E. split_and!; [lia|lia|by eauto|by eauto]. Qed.

(** ** Interleavings *)

Definition pstep (y y' : system) : Prop := tstep rc regexec setMsgBuffer junk y y' ∧ room y.1.

Lemma tstep_ids y y' :
  sys_inv y → tstep rc regexec setMsgBuffer junk y y' → ∃ p : ptr, ids_step p y.1 y'.1.
Proof.
  intros [Hinv Hfl] Hs.
  destruct Hs as [op s s' o fl Ha E|zmsg st s s' o fl Hm E|cb m s s' o fl1 fl2 E|cb m s fl1 fl2]; cbn in *.
  - pose proof (top_safe rc regexec junk op s Hinv Ha) as Hw. unfold wp in Hw. rewrite E in Hw.
    destruct Hw as [_ Hw]. by eexists.
  - apply (dispatchNormalMsg_inv rc regexec junk) in E as (_ & Hl & _); [|done..].
    exists 0. by apply ids_less_step.
  - apply Forall_app in Hfl as [_ Hf]. inversion Hf as [|? ? [Hr Hw] _]; subst.
    pose proof (wp_callback rc regexec setMsgBuffer junk cb m s Hinv Hr Hw) as Hc. unfold wp in Hc. rewrite E in Hc.
    exists 0. by apply ids_less_step, ids_less_core, Hc.
  - exists 0. by apply ids_less_step.
Qed.

Lemma preach_ok y y' :
  rtc pstep y y' → sys_inv y → ids_ok y.1 → sys_inv y' ∧ ids_ok y'.1 ∧ ids_old y.1 y'.1.
Proof.
  induction 1 as [y|y y1 y' [Hs Hr] _ IH]; intros Hi Hok; [done|].
  destruct (tstep_ids y y1 Hi Hs) as [p Hp]. apply ids_step_ok in Hp as [Hok1 Ho1]; [|done..].
  destruct IH as (Hi' & Hok' & Ho'); [by eapply tstep_inv|done|]. split_and!; [done..|by etransitivity].
Qed.

(** ** What a subscriber is told *)

Definition told (o : list tobs) : list tobs :=
  omap (λ x, match x with oProcessMsg _ _ | oProcessWildCardMsg _ _ _ _ => Some x | _ => None end) o.

(** The subscription at [p] holds [id] and gets messages on the subject. *)
Definition recipient s (cb : callback) (subject id : list byte) (p : ptr) : Prop :=
  ∃ t, holds s cb (t, id, p) ∧ (cb = subCallback → t = subject).

(** What it is told while it is not muted, if its queue has a message object. *)
Definition hears s (cb : callback) (subject : list byte) (payload : msgBuffer) (p : ptr) : list tobs :=
  match h_subs s !! p with
  | Some i =>
      if decide (sub_isNotMuted i = 1%Z ∧ is_Some (h_msgs s !! sub_mamaQueue i)) then
        match cb with
        | subCallback => [oProcessMsg (sub_subscription i) payload]
        | wcCallback => [oProcessWildCardMsg (sub_subscription i) subject (sub_closure i) payload]
        | inboxCallback => []
        end
      else []
  | None => []
  end.

(** A published message, as it is received. *)
Definition published (subject payload : list byte) : list byte := wire subject ZMQ_MSG_PUB_SUB [] payload.

Lemma published_readable subject t payload : is_cstr subject → readable (published subject (t :: payload)).
Proof.
  intros Hs. apply (readable_other subject ZMQ_MSG_PUB_SUB (NUL :: t :: payload)); [done|by_decide|by_decide|cbn; lia].
Qed.

Lemma published_ok subject t payload :
  is_cstr subject → is_prefix ZMQ_REPLYHANDLE_PREFIX subject = false →
  (Z.of_nat (length (published subject (t :: payload))) < 2 ^ 31)%Z → message_ok (published subject (t :: payload)).
Proof.
  intros Hs Hp Hl. pose proof (published_readable subject t payload Hs) as Hr. split_and!; [done|done|].
  assert (is_prefix ZMQ_REPLYHANDLE_PREFIX (published subject (t :: payload)) = false) as ->; [|done].
  rewrite <-Hp. apply is_prefix_cstr. by_decide.
Qed.

Lemma wp_deserialize_published mq subject t payload s :
  is_cstr subject → (Z.of_nat (length (t :: payload)) < 2 ^ 31)%Z →
  setMsgBuffer (t :: payload, t) = MAMA_STATUS_OK →
  wp (deserialize_cached setMsgBuffer mq (published subject (t :: payload)))
    (λ r _ o, o = [] ∧ snd <$> r = (if decide (is_Some (h_msgs s !! mq)) then Some (t :: payload, t) else None)) s.
Proof.
  intros Hs Hl Hset. unfold deserialize_cached. wp_steps. destruct (h_msgs s !! mq) as [m|].
  - rewrite (decide_True (P := is_Some (Some m))) by by eexists. wp_steps. eapply wp_part.
    { apply deserialize_wire; [done|by_decide|unfold reply_fits; vm_compute; lia|done]. }
    wp_steps. rewrite Hset, decide_True by done. done.
  - rewrite decide_False by by intros []. by wp_steps.
Qed.

(** The end of both callbacks. *)
Lemma wp_told cb p i subject t payload (f : zmqBridgeMsgImpl handle → msgBuffer → tobs) s :
  is_cstr subject → (Z.of_nat (length (t :: payload)) < 2 ^ 31)%Z →
  setMsgBuffer (t :: payload, t) = MAMA_STATUS_OK → h_subs s !! p = Some i →
  (∀ m b, told [f m b] = match cb with
     | subCallback => [oProcessMsg (sub_subscription i) b]
     | wcCallback => [oProcessWildCardMsg (sub_subscription i) subject (sub_closure i) b]
     | inboxCallback => [] end) →
  wp (if decide (sub_isNotMuted i ≠ 1)%Z then mret ()
      else r ← deserialize_cached setMsgBuffer (sub_mamaQueue i) (published subject (t :: payload));
           match r with None => mret () | Some (m, b) => emit (f m b) end)
    (λ _ _ o, told o = hears s cb subject (t :: payload, t) p) s.
Proof.
  intros Hs Hl Hset Ei Hf. unfold hears. rewrite Ei.
  case_decide as Hm.
  - wp_steps. by rewrite decide_False by tauto.
  - wp_steps. eapply wp_mono; [|by apply wp_deserialize_published]. intros r s1 o [-> Er].
    destruct (decide (is_Some (h_msgs s !! sub_mamaQueue i))).
    + destruct r as [[m b]|]; [|done]. injection Er as ->. wp_steps. rewrite decide_True by (split; [lia|done]).
      apply Hf.
    + destruct r; [done|]. wp_steps. by rewrite decide_False by tauto.
Qed.

Lemma findWildcard_spec id ps found s :
  (∀ p, p ∈ ps → is_Some (h_subs s !! p)) →
  wp (findWildcard_loop id ps found)
    (λ r s' o, s' = s ∧ o = [] ∧
       match r with
       | Some p => (p ∈ ps ∧ sub_endpointIdentifier <$> h_subs s !! p = Some (Some id)) ∨ found = Some p
       | None => found = None ∧ ∀ p, p ∈ ps → sub_endpointIdentifier <$> h_subs s !! p ≠ Some (Some id)
       end) s.
Proof.
  revert found. induction ps as [|p ps IH]; intros found Hl; cbn [findWildcard_loop].
  - wp_steps. split_and!; [done|done|]. destruct found; [by right|]. split; [done|]. by intros p ?%not_elem_of_nil.
  - destruct (Hl p) as [i Hi]; [apply elem_of_cons; by left|]. wp_steps. eapply wp_deref_sub; [done|].
    eapply wp_mono; [|apply IH; intros; apply Hl, elem_of_cons; by right].
    intros r s' o (-> & -> & Hr). split_and!; [done|done|]. unfold has_identifier in Hr.
    case_bool_decide as Hd; destruct r as [q|].
    + destruct Hr as [[? ?]|[= <-]]; left; (split; [set_solver|]); [done|]. rewrite Hi. cbn. by rewrite Hd.
    + by destruct Hr.
    + destruct Hr as [[? ?]|Hf]; [left; split; [set_solver|done]|by right].
    + destruct Hr as [Hf Hno]. split; [done|]. intros q [->|Hq]%elem_of_cons; [|by apply Hno].
      rewrite Hi. cbn. congruence.
Qed.

Lemma told_close o : told (o ++ [oMsgClose]) = told o.
Proof. unfold told. rewrite omap_app. cbn. apply app_nil_r. Qed.

Lemma wp_recipient cb id subject t payload s :
  inv s → ids_ok s → is_cstr subject → (Z.of_nat (length (t :: payload)) < 2 ^ 31)%Z →
  setMsgBuffer (t :: payload, t) = MAMA_STATUS_OK → cb ≠ inboxCallback →
  wp (run_callback setMsgBuffer cb (mkTMsg id (published subject (t :: payload))))
    (λ _ _ o, (∀ p, recipient s cb subject id p → told o = hears s cb subject (t :: payload, t) p)
       ∧ ((∀ p, ¬ recipient s cb subject id p) → told o = [])) s.
Proof.
  intros Hinv Hok Hs Hl Hset Hcb.
  assert (∀ p q, recipient s cb subject id p → recipient s cb subject id q → p = q) as Huniq.
  { intros p q (t1 & H1 & _) (t2 & H2 & _). destruct (Hok cb) as (_ & _ & Hu). by eapply Hu. }
  assert (cstring (published subject (t :: payload)) = Some subject) as Ec by by apply cstring_cstr.
  assert (∀ p o, recipient s cb subject id p → told o = hears s cb subject (t :: payload, t) p →
    (∀ q, recipient s cb subject id q → told (o ++ [oMsgClose]) = hears s cb subject (t :: payload, t) q)
    ∧ ((∀ q, ¬ recipient s cb subject id q) → told (o ++ [oMsgClose]) = [])) as Hend.
  { intros p o Hp Ho. rewrite told_close. split; [|by intros Hno; destruct (Hno p)].
    intros q Hq. by rewrite (Huniq q p Hq Hp). }
  destruct cb; cbn [run_callback]; [done|..].
  - unfold zmqBridgeMamaTransportImpl_subCallback. cbn [tm_zmsg tm_endpointIdentifier].
    apply wp_bind. eapply wp_part; [exact Ec|]. apply wp_bind, wp_get.
    destruct (endpointPool_getEndpoint (mSubEndpoints s) subject id) as [p|] eqn:E.
    + apply law_getEndpoint in E. destruct (inv_pool _ _ _ _ _ _ _ _ Hinv _ _ _ E) as (i & Ei & _).
      apply wp_bind, wp_bind. eapply wp_deref_sub; [done|].
      eapply wp_mono; [|by apply (wp_told subCallback p i subject t payload (λ _ b, oProcessMsg (sub_subscription i) b))].
      intros [] s1 o Ho. apply wp_emit. apply (Hend p); [by exists subject|done].
    + wp_steps. cbn. split; [|done]. intros p (t' & Hh & Ht). rewrite Ht in Hh by done.
      by destruct (law_getEndpoint_None _ _ _ E p).
  - unfold zmqBridgeMamaTransportImpl_wcCallback, zmqBridgeMamaTransportImpl_findWildcard. cbn [tm_zmsg tm_endpointIdentifier].
    apply wp_bind. eapply wp_part; [exact Ec|]. wp_steps.
    pose proof (inv_wcs _ _ _ _ _ _ _ _ Hinv) as Hw.
    eapply wp_mono; [|apply findWildcard_spec].
    2: { intros p Hp. destruct (Hw _ Hp) as (? & ? & ? & ? & _). eauto. }
    intros r s1 o1 (-> & -> & Hr). destruct r as [p|].
    + destruct Hr as [[Hp Hid]|?]; [|done]. destruct (Hw _ Hp) as (i & key & id' & Ei & Ek & _ & Eid & _).
      rewrite Ei in Hid. cbn in Hid. do 2 apply wp_bind. eapply wp_deref_sub; [done|]. cbn [app].
      eapply wp_mono; [|by apply (wp_told wcCallback p i subject t payload
        (λ _ b, oProcessWildCardMsg (sub_subscription i) subject (sub_closure i) b))].
      intros [] s1 o Ho. apply wp_emit. apply (Hend p); [|done]. exists key. split; [|done]. split; [done|].
      exists i. split_and!; [done|done|]. cbn; congruence.
    + wp_steps. cbn. split; [|done]. intros p (t' & [Hp (i & Ei & _ & Eid)] & _). cbn in *.
      destruct Hr as [_ Hno]. destruct (Hno p Hp). by rewrite Ei, <-Eid.
Qed.

(** Every message that is queued has a recipient. *)
Lemma delivery_recipient s subject data q cb m :
  inv s → (q, cb, m) ∈ sub_deliveries regexec s data subject →
  cb ≠ inboxCallback ∧ tm_zmsg m = data ∧ ∃ p, recipient s cb subject (tm_endpointIdentifier m) p.
Proof.
  intros Hinv. unfold sub_deliveries. rewrite elem_of_app, !list_elem_of_In, !in_flat_map.
  intros [(p & Hp%list_elem_of_In & Hin)|(p & Hp%list_elem_of_In & Hin)]; apply list_elem_of_In in Hin.
  - unfold wild_delivery in Hin. destruct (h_subs s !! p) as [i|] eqn:Ei; [|set_solver].
    destruct (sub_subjectKey i) as [key|] eqn:Ek; [|set_solver]. destruct (sub_origRegex i); [|set_solver].
    destruct (sub_endpointIdentifier i) as [id|] eqn:Eid; [|set_solver]. case_match; [|set_solver].
    apply list_elem_of_singleton in Hin as [= -> -> ->]. split_and!; [done|done|].
    exists p, key. split; [|done]. split; [done|]. by exists i.
  - unfold registered in Hp. apply list_elem_of_fmap in Hp as ([[t id] p'] & -> & Hp).
    apply list_elem_of_filter in Hp as [Et Hp]. cbn in Et. subst t. cbn [snd] in Hin.
    destruct (inv_pool _ _ _ _ _ _ _ _ Hinv _ _ _ Hp) as (i & Ei & _ & Eid & _).
    unfold sub_delivery in Hin. rewrite Ei, Eid in Hin. case_decide; [|set_solver].
    apply list_elem_of_singleton in Hin as [= -> -> ->]. split_and!; [done|done|]. by exists p', subject.
Qed.

(** Nobody takes over an identifier. *)
Lemma recipient_old s s1 s2 cb subject id p q :
  ids_ok s → ids_less s s1 → ids_old s1 s2 →
  recipient s cb subject id p → recipient s2 cb subject id q → q = p.
Proof.
  intros Hok Hless Hold (t1 & H1 & _) (t2 & H2 & _). destruct (Hok cb) as (_ & Hs & Hu).
  destruct (Hs _ _ _ H1) as (n & Hn & ->). destruct (Hless cb) as [E Hl], (Hold cb) as [_ Ho].
  eapply Hu; [apply Hl, Ho; [by rewrite E|exact H2]|exact H1].
Qed.

(** The dispatcher on a published message, when it is defined. *)
Lemma dispatch_published subject t payload s st s' o :
  inv s → is_cstr subject → is_prefix ZMQ_REPLYHANDLE_PREFIX subject = false →
  let data := published subject (t :: payload) in
  zmqBridgeMamaTransportImpl_dispatchNormalMsg regexec data s = Some (st, s', o) →
  inv s' ∧ ids_less s s' ∧ enqueued o = sub_deliveries regexec s data subject.
Proof.
  intros Hinv Hs Hp data E.
  assert (is_prefix ZMQ_REPLYHANDLE_PREFIX data = false) as Hpd by (rewrite <-Hp; apply is_prefix_cstr; by_decide).
  unfold zmqBridgeMamaTransportImpl_dispatchNormalMsg in E.
  apply C_bind_Some in E as ([] & s1 & ? & o1 & [= <- <-] & E & ->).
  apply C_bind_Some in E as (b & s2 & ? & o2 & Eb & E & ->). unfold cpart in Eb. rewrite memcmp_eq_key, Hpd in Eb.
  destruct (decide _); [|done]. injection Eb as <- <- <-. set (s1 := upd_counts _ _ _ s) in E.
  assert (inv s1) as Hinv1 by exact Hinv.
  assert (wildcards_fit s1 data) as Hfit by by eapply dispatchSubMsg_fits.
  pose proof (wp_dispatchSubMsg regexec data subject _ s1 Hinv1 Hs Hfit eq_refl) as Hw. unfold wp in Hw. rewrite E in Hw.
  destruct Hw as (Hi & (n & i & u & Hf) & _ & Eo). split_and!; [done|exact (subs_frame_less n i u s1 s' Hf)|exact Eo].
Qed.

(** ** Theorem *)

(** C1: publish and subscribe, end to end. A publisher sends one message, its
    subject cut to 256 characters. A transport that receives it, after
    whatever its application did before, hands it once to the queue of each
    subscription that matches. When a queue dispatches it, after whatever was
    created, destroyed, muted, received and dispatched in the meantime, the
    subscription it was queued for is told the payload, if it is still there
    and not muted; nobody else is told anything, not even a new subscription
    to the same subject.  The message is dispatched exactly when it is as long
    as the key of each wildcard subscription ([in_bounds]). *)
Theorem publish_subscribe {St O : Type} `{Zmq St O} rcA updateString (dataPub : zmqSocket) pub topic t payload st0
    y0 s fl :
  sys_inv y0 → ids_ok y0.1 → rtc pstep y0 (s, fl) →
  pb_subject pub = Some topic → is_cstr topic → setMsgBuffer (t :: payload, t) = MAMA_STATUS_OK →
  let subject := take MAX_SUBJECT_LENGTH topic in
  let data := published subject (t :: payload) in
  is_prefix ZMQ_REPLYHANDLE_PREFIX subject = false → (Z.of_nat (length data) < 2 ^ 31)%Z →
  zmqBridgeMamaPublisher_send rcA junk updateString dataPub 0 (Some pub) (Some (MAMA_STATUS_OK, t :: payload)) st0
    = Some (send_status rcA dataPub st0 data, ztick st0, send_log rcA dataPub st0 data)
  ∧ (is_Some (zmqBridgeMamaTransportImpl_dispatchNormalMsg regexec data s) ↔ in_bounds s data)
  ∧ ∀ st s1 o, zmqBridgeMamaTransportImpl_dispatchNormalMsg regexec data s = Some (st, s1, o) →
    enqueued o = sub_deliveries regexec s data subject
    ∧ ∀ s2 fl2 q cb m, rtc pstep (s1, fl ++ queued o) (s2, fl2) → (q, cb, m) ∈ enqueued o →
        ∃ p s3 o3, (∀ p', recipient s cb subject (tm_endpointIdentifier m) p' ↔ p' = p)
          ∧ run_callback setMsgBuffer cb m s2 = Some ((), s3, o3)
          ∧ (recipient s2 cb subject (tm_endpointIdentifier m) p → told o3 = hears s2 cb subject (t :: payload, t) p)
          ∧ (¬ recipient s2 cb subject (tm_endpointIdentifier m) p → told o3 = []).
Proof.
  intros Hy Hids Hr Hpub Htc Hset subject data Hp Hlen.
  apply preach_ok in Hr as ([Hinv Hfl] & Hok & _); [|done..]. cbn in Hinv, Hfl, Hok.
  assert (is_cstr subject) as Hs by by apply is_cstr_take.
  assert (Z.of_nat (length (t :: payload)) < 2 ^ 31)%Z as Hl.
  { revert Hlen. unfold data, published, wire. rewrite !length_app. lia. }
  split; [by apply publish_sends; [|right]|].
  split; [by apply (dispatchNormalMsg_defined rc regexec junk); [|apply published_ok]|].
  intros st s1 o E. apply dispatch_published in E as (Hi1 & Hless & Eo); [|done..].
  split; [done|]. intros s2 fl2 q cb m Hr Hin. rewrite Eo in Hin.
  destruct (delivery_recipient _ _ _ _ _ _ Hinv Hin) as (Hcb & Em & p & Hrec).
  destruct m as [id zmsg]. cbn in Em. subst zmsg. cbn [tm_endpointIdentifier] in *.
  apply preach_ok in Hr as ([Hi2 _] & Hok2 & Hold); cbn in *.
  - exists p. pose proof (wp_recipient cb id subject t payload s2 Hi2 Hok2 Hs Hl Hset Hcb)
      as ([] & s3 & o3 & E3 & Ht & Hn)%wp_run.
    exists s3, o3. split_and!; [|done|apply Ht|].
    { intros p'. split; [|by intros ->]. intros (t1 & H1 & _). destruct Hrec as (t2 & H2 & _).
      destruct (Hok cb) as (_ & _ & Hu). by eapply Hu. }
    intros Hno. apply Hn. intros q' Hq'.
    by rewrite (recipient_old s s1 s2 cb subject id p q') in Hq'.
  - split; [done|]. apply Forall_app. split; [done|]. apply (queued_ok data).
    + by apply published_ok.
    + intros q' cb' m' Hin'. rewrite Eo in Hin'. by apply (delivery_recipient _ _ _ _ _ _ Hinv) in Hin' as (_ & ? & _).
  - by eapply ids_less_ok.
Qed.

End PubSub.

(** ** A run *)

Section PubSubDemo.

Definition demo_subscribe : top := TCreateSub None (Some (lit "IBM")) 7 8 None 9 10.
Definition demo_sub := exec (run_top demo_rc demo_junk demo_subscribe) demo_transport.
Definition demo_tick : list byte := published (lit "IBM") (lit "Vabc").
Definition demo_dispatched := zmqBridgeMamaTransportImpl_dispatchNormalMsg demo_regexec demo_tick.

Lemma demo_ids : ids_ok demo_transport.
Proof.
  intros cb. split_and!; [by destruct cb|by destruct cb|..].
  - intros t i p. destruct cb; cbn; [done|by intros ?%not_elem_of_nil|by intros [?%not_elem_of_nil _]].
  - intros t i p t' p'. destruct cb; cbn; [done|by intros ?%not_elem_of_nil|by intros [?%not_elem_of_nil _]].
Qed.

Lemma demo_subscribed :
  rtc (pstep demo_rc demo_regexec demo_set demo_junk) (demo_transport, []) (demo_sub, []).
Proof.
  assert (allowed demo_junk demo_subscribe demo_transport) as Ha by (vm_compute; by eexists).
  destruct (exec_run _ _ _ (top_safe demo_rc demo_regexec demo_junk _ _ demo_transport_inv Ha)) as ([] & E & _).
  apply rtc_once. split; [by eapply (ts_op _ _ _ _ demo_subscribe)|]. by intros [].
Qed.

Lemma demo_registered (s : transport (gmap (list byte) ptr) (list (list byte * list byte * ptr)) (list ptr)) l :
  pool_entries (mSubEndpoints s) = (lit "IBM", serial 1, 0) :: l → holds s subCallback (lit "IBM", serial 1, 0).
Proof. intros E. cbn [holds]. rewrite E. apply elem_of_cons. by left. Qed.

(** The subscriber and where it is found. *)
Lemma demo_recipient s1 : s1 = exec demo_dispatched demo_sub →
  recipient demo_sub subCallback (lit "IBM") (serial 1) 0 ∧ recipient s1 subCallback (lit "IBM") (serial 1) 0
  ∧ hears s1 subCallback (lit "IBM") (lit "Vabc", x56) 0 = [oProcessMsg 9 (lit "Vabc", x56)]
  ∧ (8, subCallback, mkTMsg (serial 1) demo_tick) ∈ enqueued (log demo_dispatched demo_sub).
Proof.
  intros ->. split_and!; [| |vm_compute; reflexivity|].
  1-2: exists (lit "IBM"); split; [|done]; apply (demo_registered _ []); vm_compute; reflexivity.
  - enough (enqueued (log demo_dispatched demo_sub) = [(8, subCallback, mkTMsg (serial 1) demo_tick)]) as ->
      by by apply list_elem_of_singleton. vm_compute. reflexivity.
Qed.

Lemma publish_subscribe_witness :
  zmqBridgeMamaPublisher_send demo_rc demo_junk (λ _ _, MAMA_STATUS_OK) (mkSocket 5 6 0) 0
    (Some demo_pub) (Some (MAMA_STATUS_OK, lit "Vabc")) 0
  = Some (MAMA_STATUS_OK, 1, [ELock 6; ECall (zmq_send 5 demo_tick) 1; EUnlock 6; EMsgClose])
  ∧ ∃ st s1 o s3 o3, demo_dispatched demo_sub = Some (st, s1, o)
      ∧ run_callback demo_set subCallback (mkTMsg (serial 1) demo_tick) s1 = Some ((), s3, o3)
      ∧ told o3 = [oProcessMsg 9 (lit "Vabc", x56)].
Proof.
  destruct (publish_subscribe demo_rc demo_regexec demo_set demo_junk demo_rc (λ _ _, MAMA_STATUS_OK)
    (mkSocket 5 6 0) demo_pub (lit "IBM") x56 (lit "abc") 0 (demo_transport, []) demo_sub [])
    as (Hsend & Hdef & Hrun).
  - split; [apply demo_transport_inv|constructor].
  - apply demo_ids.
  - apply demo_subscribed.
  - reflexivity.
  - by_decide.
  - reflexivity.
  - by_decide.
  - by_decide.
  - split; [exact Hsend|].
    assert (in_bounds demo_sub demo_tick) as Hb.
    { split; [vm_compute; lia|right]. intros p Hp.
      assert (list_elems (mWcEndpoints demo_sub) = []) as Ew by (vm_compute; reflexivity).
      rewrite Ew in Hp. by apply not_elem_of_nil in Hp. }
    apply Hdef in Hb as [[[st s1] o] E]. destruct (Hrun st s1 o E) as [_ Hcb].
    assert (s1 = exec demo_dispatched demo_sub ∧ o = log demo_dispatched demo_sub) as [E1 ->].
    { change (demo_dispatched demo_sub = Some (st, s1, o)) in E. unfold exec, log. by rewrite E. }
    destruct (demo_recipient s1 E1) as (Hr0 & Hr & Hh & Hin).
    destruct (Hcb s1 _ 8 subCallback _ (rtc_refl _ _) Hin) as (p & s3 & o3 & Hp & E3 & Ht & _).
    apply Hp in Hr0 as <-. specialize (Ht Hr). exists st, s1, (log demo_dispatched demo_sub), s3, o3.
    split; [exact E|]. split; [exact E3|]. by rewrite Ht, <-Hh.
Defined.

End PubSubDemo.
