(* ===== verification/Naming.v ===== *)
(** * Discovery (src/src/transport.c, "naming msgs")

    Naming transports find each other through a proxy that forwards every
    naming message to all subscribers: the layout of the message, the
    dispatcher that maintains the table of peers and connects to them, and
    the threads that publish a transport's endpoint. *)

From S2P Require Import Prelude CLib CMonad Msg Socket Collections.
Import ZM Sock.

Module ZN.

(** ** The message

    A packed struct of [char] arrays, cleared before it is filled. *)
Record zmqNamingMsg := mkNaming {
  nm_topic : list byte;
  nm_type : byte;
  nm_progName : list byte;
  nm_host : list byte;
  nm_pid : Z;
  nm_uuid : list byte;
  nm_endPointAddr : list byte }.

Definition ZMQ_NAMING_PREFIX : list byte := lit "_NAMING".
Definition ZMQ_MAX_ENDPOINT_LENGTH : nat := 256.

(** A cleared array of [n] characters that holds [s]. *)
Definition pad (n : nat) (s : list byte) : list byte := s ++ replicate (n - length s) NUL.

(** A [long], little-endian. *)
Fixpoint le_bytes (n : nat) (z : Z) : list byte :=
  match n with
  | 0 => []
  | S n' => byte_of (z mod 256) :: le_bytes n' (z / 256)
  end.

Section Layout.

(** MAXHOSTNAMELEN of the platform. *)
Context (MAXHOSTNAMELEN : nat).

Definition TOPIC_CAP : nat := MAX_SUBJECT_LENGTH + 1.
Definition PROG_CAP : nat := 256 + 1.
Definition HOST_CAP : nat := MAXHOSTNAMELEN + 1.
Definition UUID_CAP : nat := UUID_STRING_SIZE + 1.
Definition ENDPOINT_CAP : nat := ZMQ_MAX_ENDPOINT_LENGTH + 1.

(** Offsets of the fields and the size of the struct. *)
Definition TYPE_OFF : nat := TOPIC_CAP.
Definition UUID_OFF : nat := TOPIC_CAP + 1 + PROG_CAP + HOST_CAP + 8.
Definition ENDPOINT_OFF : nat := UUID_OFF + UUID_CAP.
Definition NAMING_SIZE : nat := ENDPOINT_OFF + ENDPOINT_CAP.

(** The bytes of the struct. *)
Definition naming_bytes (m : zmqNamingMsg) : list byte :=
  pad TOPIC_CAP (nm_topic m) ++ [nm_type m] ++ pad PROG_CAP (nm_progName m)
  ++ pad HOST_CAP (nm_host m) ++ le_bytes 8 (nm_pid m) ++ pad UUID_CAP (nm_uuid m)
  ++ pad ENDPOINT_CAP (nm_endPointAddr m).

(** [pMsg->mType], [pMsg->mUuid], [pMsg->mEndPointAddr] of a received block. *)
Definition pMsg_type (data : list byte) : option byte := data !! TYPE_OFF.
Definition pMsg_uuid (data : list byte) : option (list byte) := cstring (drop UUID_OFF data).
Definition pMsg_endpoint (data : list byte) : option (list byte) := cstring (drop ENDPOINT_OFF data).

(** ** The transport *)

Section Naming.

Context {T : Type} `{StrTable T (list byte)} `{!WStr}.

(** The fields the naming functions use; [n_peers] maps uuids to copies of
    naming messages. *)
Record naming := mkN {
  n_uuid : list byte;
  n_pubEndpoint : option (list byte);
  n_peers : T;
  n_connected : Z;
  n_isDispatching : Z;
  n_namingMessages : Z;
  n_dataSub : zmqSocket;
  n_dataPub : zmqSocket;
  n_namingPub : zmqSocket;
  n_reconnect : Z;
  n_heartbeat : Z;
  n_calls : nat }.

Inductive nobs :=
  | nZmq (e : zobs)
  | nThread (rc : Z)
  | nSleep.

Definition set_peers (t : T) (s : naming) : naming :=
  mkN (n_uuid s) (n_pubEndpoint s) t (n_connected s) (n_isDispatching s) (n_namingMessages s)
    (n_dataSub s) (n_dataPub s) (n_namingPub s) (n_reconnect s) (n_heartbeat s) (n_calls s).
Definition set_connected (c : Z) (s : naming) : naming :=
  mkN (n_uuid s) (n_pubEndpoint s) (n_peers s) c (n_isDispatching s) (n_namingMessages s)
    (n_dataSub s) (n_dataPub s) (n_namingPub s) (n_reconnect s) (n_heartbeat s) (n_calls s).
Definition count_message (s : naming) : naming :=
  mkN (n_uuid s) (n_pubEndpoint s) (n_peers s) (n_connected s) (n_isDispatching s)
    (n_namingMessages s + 1)
    (n_dataSub s) (n_dataPub s) (n_namingPub s) (n_reconnect s) (n_heartbeat s) (n_calls s).
Definition set_calls (n : nat) (s : naming) : naming :=
  mkN (n_uuid s) (n_pubEndpoint s) (n_peers s) (n_connected s) (n_isDispatching s)
    (n_namingMessages s) (n_dataSub s) (n_dataPub s) (n_namingPub s) (n_reconnect s)
    (n_heartbeat s) n.

#[export] Instance naming_zmq : Zmq naming nobs :=
  {| zcount := n_calls; ztick s := set_calls (S (n_calls s)) s; zlog := nZmq |}.

(** Answers of zmq and of the system: program name, host name, process id,
    [malloc], [wthread_create]. *)
Context (rc : nat → zcall → Z).
Context (progName hostName : list byte) (pid : Z).

Local Notation NC := (C naming nobs).

(** [msg] as it is filled by [sendEndpointsMsg]; [None] when a copy
    overflows or the endpoint is NULL. *)
Definition endpointsMsg (s : naming) (command : byte) : option zmqNamingMsg :=
  topic ← strcpy TOPIC_CAP ZMQ_NAMING_PREFIX;
  uuid ← strcpy UUID_CAP (n_uuid s);
  ep ← n_pubEndpoint s;
  endpoint ← strcpy ENDPOINT_CAP ep;
  Some (mkNaming topic command (snd (wmStrSizeCpy progName PROG_CAP)) (take HOST_CAP hostName) pid uuid
    endpoint).

Definition zmqBridgeMamaTransportImpl_sendEndpointsMsg (command : byte) : NC mama_status :=
  s ← cget;
  msg ← cpart (endpointsMsg s command);
  wlock_lock (mLock (n_namingPub s)) ;;
  i ← zmq rc (zmq_send (mSocket (n_namingPub s)) (naming_bytes msg));
  wlock_unlock (mLock (n_namingPub s)) ;;
  mret (if decide (i ≠ Z.of_nat NAMING_SIZE) then MAMA_STATUS_PLATFORM else MAMA_STATUS_OK).

(** The branch of a peer that is not in the table. *)
Definition new_peer (mem : bool) (data uuid : list byte) : NC mama_status :=
  s ← cget;
  ep ← cpart (pMsg_endpoint data);
  st1 ← zmqBridgeMamaTransportImpl_connectSocket rc (n_dataSub s) ep (n_reconnect s) (n_heartbeat s);
  if decide (st1 ≠ MAMA_STATUS_OK) then mret st1
  else
    st2 ← zmqBridgeMamaTransportImpl_sendEndpointsMsg x43;
    if decide (st2 ≠ MAMA_STATUS_OK) then mret st2
    else if mem then
      copy ← cpart (peek data 0 NAMING_SIZE);
      cmodify (λ s, set_peers (snd (wtable_insert (n_peers s) uuid copy)) s) ;;
      mret MAMA_STATUS_OK
    else mret MAMA_STATUS_NOMEM.

Definition dispatch_connect (mem : bool) (data : list byte) : NC mama_status :=
  s ← cget;
  uuid ← cpart (pMsg_uuid data);
  status ← match wtable_lookup (n_peers s) uuid with
           | None => new_peer mem data uuid
           | Some _ => mret MAMA_STATUS_OK
           end;
  if decide (status ≠ MAMA_STATUS_OK) then mret status
  else
    s ← cget;
    (if decide (n_connected s ≠ 1%Z ∧ uuid = n_uuid s)
     then cmodify (set_connected 1) else mret ()) ;;
    mret MAMA_STATUS_OK.

(** The status of the disconnect is ignored; reading ZMQ_EVENTS lets the
    publishing socket clean up. *)
Definition dispatch_disconnect (data : list byte) : NC mama_status :=
  s ← cget;
  uuid ← cpart (pMsg_uuid data);
  cmodify (set_peers (snd (wtable_remove (n_peers s) uuid))) ;;
  ep ← cpart (pMsg_endpoint data);
  _ ← zmqBridgeMamaTransportImpl_disconnectSocket rc (n_dataSub s) ep;
  wlock_lock (mLock (n_dataPub s)) ;;
  _ ← zmq rc (zmq_events (mSocket (n_dataPub s)));
  wlock_unlock (mLock (n_dataPub s)) ;;
  mret MAMA_STATUS_OK.

Definition dispatch_welcome (thread : Z) (data : list byte) : NC mama_status :=
  s ← cget;
  ep ← cpart (pMsg_endpoint data);
  status ← zmqBridgeMamaTransportImpl_connectSocket rc (n_namingPub s) ep (n_reconnect s) (n_heartbeat s);
  if decide (status ≠ MAMA_STATUS_OK) then mret MAMA_STATUS_PLATFORM
  else
    emit (nThread thread) ;;
    mret (if decide (thread ≠ 0)%Z then MAMA_STATUS_PLATFORM else MAMA_STATUS_OK).

Definition zmqBridgeMamaTransportImpl_dispatchNamingMsg (mem : bool) (thread : Z)
    (data : list byte) : NC mama_status :=
  cmodify count_message ;;
  type ← cpart (pMsg_type data);
  if decide (type = x43 ∨ type = x63) then dispatch_connect mem data
  else if decide (type = x44) then dispatch_disconnect data
  else if decide (type = x57) then dispatch_welcome thread data
  else mret MAMA_STATUS_PLATFORM.

(** ** Publishing and waiting

    [mNamingConnected] and [mIsDispatching] are changed by other threads:
    the n-th read of each answers [conn n], [disp n]. *)

(** The loop of [publishEndpoints] with [--retries > 0], [retries] already
    decremented; [n] counts the iterations. *)
Fixpoint publish_loop (conn disp : nat → Z) (retries : nat) (n : nat) : NC () :=
  match retries with
  | 0 => mret ()
  | S r =>
      if decide (disp n = 1)%Z then
        _ ← zmqBridgeMamaTransportImpl_sendEndpointsMsg x43;
        if decide (conn n = 1)%Z then mret ()
        else emit nSleep ;; publish_loop conn disp r (S n)
      else mret ()
  end.

Definition zmqBridgeMamaTransportImpl_publishEndpoints (connectRetries : Z) (conn disp : nat → Z)
    : NC () :=
  cmodify (set_connected 0) ;;
  publish_loop conn disp (Z.to_nat (connectRetries - 1)) 0.

(** The wait of [zmqBridgeMamaTransportImpl_start]: the number of reads of
    [mNamingConnected] and of sleeps; [n] counts the iterations. *)
Fixpoint wait_loop (conn : nat → Z) (retries n : nat) : nat * nat :=
  match retries with
  | 0 => (n, n)
  | S r => if decide (conn n ≠ 1)%Z then wait_loop conn r (S n) else (S n, n)
  end.

Definition zmqBridgeMamaTransportImpl_start (thread isNaming waitForConnect connectRetries : Z)
    (conn : nat → Z) : mama_status * nat :=
  if decide (thread ≠ 0)%Z then (MAMA_STATUS_PLATFORM, 0)
  else if decide (isNaming = 1 ∧ waitForConnect = 1)%Z then
    let '(reads, sleeps) := wait_loop conn (Z.to_nat (connectRetries - 1)) 0 in
    if decide (conn reads ≠ 1)%Z then (MAMA_STATUS_TIMEOUT, sleeps) else (MAMA_STATUS_OK, sleeps)
  else (MAMA_STATUS_OK, 0).

End Naming.

End Layout.

Arguments naming : clear implicits.

End ZN.
