(* ===== verification/NamingProofs.v ===== *)
(** * Discovery: the wire format and the dispatcher

    What a received naming message reads as, and what the dispatcher does
    with it on every answer of zmq. *)

From S2P Require Import Prelude CLib CMonad Msg Socket Collections Naming.
Import ZM Sock ZN.

(** ** The layout *)

Lemma length_pad n s : length s ≤ n → length (pad n s) = n.
Proof. intros. unfold pad. rewrite length_app, length_replicate. lia. Qed.

Lemma length_le_bytes n z : length (le_bytes n z) = n.
Proof. revert z. induction n as [|n IH]; intros z; simpl; [done|by rewrite IH]. Qed.

(** A field that holds a terminated string reads back as the string. *)
Lemma cstring_pad n s rest : is_cstr s → length s < n → cstring (pad n s ++ rest) = Some s.
Proof.
  intros Hs Hl. unfold pad. destruct (n - length s) as [|k] eqn:E; [lia|].
  cbn [replicate]. rewrite <-app_assoc. cbn [app]. by apply cstring_cstr.
Qed.

(** A message whose texts fit their fields; the uuid and the endpoint are
    terminated strings. *)
Record msg_fits (MAXHOSTNAMELEN : nat) (m : zmqNamingMsg) : Prop := {
  mf_topic : length (nm_topic m) < TOPIC_CAP;
  mf_prog : length (nm_progName m) ≤ PROG_CAP;
  mf_host : length (nm_host m) ≤ HOST_CAP MAXHOSTNAMELEN;
  mf_uuid : is_cstr (nm_uuid m) ∧ length (nm_uuid m) < UUID_CAP;
  mf_ep : is_cstr (nm_endPointAddr m) ∧ length (nm_endPointAddr m) < ENDPOINT_CAP }.

Section Layout.

Context (H : nat) (m : zmqNamingMsg) (Hm : msg_fits H m).

Let front : list byte := pad TOPIC_CAP (nm_topic m).
Let middle : list byte :=
  pad PROG_CAP (nm_progName m) ++ pad (HOST_CAP H) (nm_host m) ++ le_bytes 8 (nm_pid m).

Local Lemma bytes_split :
  naming_bytes H m
  = front ++ [nm_type m] ++ middle ++ pad UUID_CAP (nm_uuid m) ++ pad ENDPOINT_CAP (nm_endPointAddr m).
Proof. unfold naming_bytes, front, middle. by rewrite <-!app_assoc. Qed.

Local Lemma length_front : length front = TOPIC_CAP.
Proof. apply length_pad. pose proof (mf_topic _ _ Hm). lia. Qed.

Local Lemma length_middle : length middle = PROG_CAP + HOST_CAP H + 8.
Proof.
  unfold middle. rewrite !length_app, length_le_bytes.
  rewrite !length_pad by apply Hm. lia.
Qed.

Local Lemma length_uuid : length (pad UUID_CAP (nm_uuid m)) = UUID_CAP.
Proof. apply length_pad. destruct (mf_uuid _ _ Hm). lia. Qed.

Local Lemma length_endpoint : length (pad ENDPOINT_CAP (nm_endPointAddr m)) = ENDPOINT_CAP.
Proof. apply length_pad. destruct (mf_ep _ _ Hm). lia. Qed.

Lemma length_naming_bytes : length (naming_bytes H m) = NAMING_SIZE H.
Proof.
  rewrite bytes_split, !length_app, length_front, length_middle, length_uuid, length_endpoint.
  unfold NAMING_SIZE, ENDPOINT_OFF, UUID_OFF. cbn [length]. lia.
Qed.

Lemma naming_type : pMsg_type (naming_bytes H m) = Some (nm_type m).
Proof.
  unfold pMsg_type, TYPE_OFF. rewrite bytes_split, lookup_app_r by (rewrite length_front; lia).
  by rewrite length_front, Nat.sub_diag.
Qed.

Lemma naming_uuid : pMsg_uuid H (naming_bytes H m) = Some (nm_uuid m).
Proof.
  unfold pMsg_uuid. rewrite bytes_split, !app_assoc, <-(app_assoc _ (pad UUID_CAP _)).
  rewrite drop_app_exact.
  - destruct (mf_uuid _ _ Hm). by apply cstring_pad.
  - rewrite !length_app, length_front, length_middle. unfold UUID_OFF. cbn [length]. lia.
Qed.

Lemma naming_endpoint : pMsg_endpoint H (naming_bytes H m) = Some (nm_endPointAddr m).
Proof.
  unfold pMsg_endpoint. rewrite bytes_split, !app_assoc.
  rewrite drop_app_exact.
  - rewrite <-(app_nil_r (pad ENDPOINT_CAP _)). destruct (mf_ep _ _ Hm). by apply cstring_pad.
  - rewrite !length_app, length_front, length_middle, length_uuid.
    unfold ENDPOINT_OFF, UUID_OFF. cbn [length]. lia.
Qed.

(** The copy that is stored is the whole message. *)
Lemma naming_copy : peek (naming_bytes H m) 0 (NAMING_SIZE H) = Some (naming_bytes H m).
Proof.
  unfold peek. rewrite decide_True by (rewrite length_naming_bytes; lia).
  rewrite drop_0, take_ge by (rewrite length_naming_bytes; lia). done.
Qed.

End Layout.

(** ** What a run does to the outside *)

(** Successful connects and sends: socket, and URI or data. *)
Definition connects (log : list nobs) : list (Z * list byte) :=
  omap (λ o, match o with
             | nZmq (ECall (zmq_connect s u) 0) => Some (s, u)
             | _ => None end) log.

Definition sends (log : list nobs) : list (Z * list byte) :=
  omap (λ o, match o with
             | nZmq (ECall (zmq_send s d) r) => if decide (r = Z.of_nat (length d)) then Some (s, d) else None
             | _ => None end) log.

Lemma connects_app l1 l2 : connects (l1 ++ l2) = connects l1 ++ connects l2.
Proof. apply omap_app. Qed.
Lemma sends_app l1 l2 : sends (l1 ++ l2) = sends l1 ++ sends l2.
Proof. apply omap_app. Qed.

(** Answers of a library for which every call succeeds. *)
Definition ok_answer (c : zcall) : Z :=
  match c with zmq_send _ d => Z.of_nat (length d) | _ => 0 end.

Section Dispatch.

Context (H : nat) {T : Type} `{Htab : StrTable T (list byte)} `{!StrTableLaws T (list byte)} `{!WStr}.
Context (rc : nat → zcall → Z) (progName hostName : list byte) (pid : Z).

Local Notation NC := (C (naming T) nobs).

(** Every answer is a success. *)
Definition zmq_ok : Prop := ∀ n c, rc n c = ok_answer c.

Lemma zmq_wp (c : zcall) (s : naming T) :
  wp (zmq rc c) (λ r s' log, r = rc (n_calls s) c ∧ s' = set_calls (S (n_calls s)) s
                             ∧ log = [nZmq (ECall c r)]) s.
Proof. done. Qed.

(** The state up to the count of library calls. *)
Definition only_calls (s s' : naming T) : Prop := ∃ n, s' = set_calls n s.

Lemma only_calls_refl s : only_calls s s.
Proof. exists (n_calls s). by destruct s. Qed.

Lemma only_calls_trans s1 s2 s3 : only_calls s1 s2 → only_calls s2 s3 → only_calls s1 s3.
Proof. intros [n ->] [k ->]. by exists k. Qed.

Ltac wp_zmq := eapply wp_mono; [|apply zmq_wp]; intros ? ? ? (-> & -> & ->); cbn beta.
Ltac wp_lock := apply wp_bind, wp_emit.

Lemma connect_wp socket uri ri hi (s : naming T) :
  wp (zmqBridgeMamaTransportImpl_connectSocket rc socket uri ri hi)
    (λ st s' log, only_calls s s' ∧ sends log = [] ∧ (zmq_ok → st = MAMA_STATUS_OK)
       ∧ connects log = if decide (st = MAMA_STATUS_OK) then [(mSocket socket, uri)] else []) s.
Proof.
  unfold zmqBridgeMamaTransportImpl_connectSocket. wp_lock. apply wp_bind. wp_zmq.
  apply wp_bind. case_decide as E1.
  { apply wp_ret. wp_lock. apply wp_ret. simpl. repeat split; [by eexists|].
    intros Hok. by rewrite Hok in E1. }
  apply wp_bind. wp_zmq. case_decide as E2.
  { apply wp_ret. wp_lock. apply wp_ret. simpl. repeat split; [by eexists|].
    intros Hok. by rewrite Hok in E2. }
  apply wp_bind. wp_zmq. apply wp_ret. wp_lock. apply wp_ret. simpl.
  repeat split; [by eexists| |].
  - intros Hok. rewrite decide_False; [done|]. rewrite Hok. simpl. lia.
  - by destruct (rc (S (S (n_calls s))) (zmq_connect (mSocket socket) uri)).
Qed.

(** A node that can describe itself. *)
Record valid_node (s : naming T) (ep : list byte) : Prop := {
  vn_ep : n_pubEndpoint s = Some ep;
  vn_ep_fits : is_cstr ep ∧ length ep < ENDPOINT_CAP;
  vn_uuid : is_cstr (n_uuid s) ∧ length (n_uuid s) < UUID_CAP }.

(** The message [s] sends about itself. *)
Definition own_msg (s : naming T) (ep : list byte) (command : byte) : zmqNamingMsg :=
  mkNaming ZMQ_NAMING_PREFIX command (take (PROG_CAP - 1) progName)
    (take (HOST_CAP H) hostName) pid (n_uuid s) ep.

Lemma own_msg_eq s ep command :
  valid_node s ep → endpointsMsg H progName hostName pid s command = Some (own_msg s ep command).
Proof.
  intros [Eep [_ Hep] [_ Hu]]. unfold endpointsMsg.
  rewrite (strcpy_fits TOPIC_CAP) by (vm_compute; lia). cbn [mbind option_bind].
  rewrite (strcpy_fits UUID_CAP) by done. cbn [mbind option_bind]. rewrite Eep.
  cbn [mbind option_bind]. rewrite strcpy_fits by done. cbn [mbind option_bind].
  rewrite wstr_take; [done|]. unfold PROG_CAP. lia.
Qed.

Lemma own_msg_fits s ep command : valid_node s ep → msg_fits H (own_msg s ep command).
Proof.
  intros [Eep Hep Hu]. split; cbn [own_msg nm_topic nm_progName nm_host nm_uuid nm_endPointAddr];
    try done.
  - vm_compute. lia.
  - rewrite length_take. unfold PROG_CAP. lia.
  - rewrite length_take. lia.
Qed.

Lemma send_wp command (s : naming T) ep :
  valid_node s ep →
  wp (zmqBridgeMamaTransportImpl_sendEndpointsMsg H rc progName hostName pid command)
    (λ st s' log, only_calls s s' ∧ connects log = [] ∧ (zmq_ok → st = MAMA_STATUS_OK)
       ∧ sends log = if decide (st = MAMA_STATUS_OK)
                     then [(mSocket (n_namingPub s), naming_bytes H (own_msg s ep command))] else []) s.
Proof.
  intros Hv. unfold zmqBridgeMamaTransportImpl_sendEndpointsMsg.
  apply wp_bind, wp_get, wp_bind. eapply wp_part; [by apply own_msg_eq|].
  pose proof (length_naming_bytes H _ (own_msg_fits s ep command Hv)) as Hlen.
  wp_lock. apply wp_bind. wp_zmq. wp_lock. apply wp_ret. cbn [app]. repeat split.
  - by eexists.
  - intros Hok. rewrite decide_False; [done|]. rewrite Hok. cbn [ok_answer]. rewrite Hlen. lia.
  - unfold sends. cbn [omap list_omap zlog naming_zmq]. rewrite Hlen.
    destruct (decide (rc _ _ = _)) as [->|E]; [by rewrite (decide_False (P := _ ≠ _)) by tauto|].
    by rewrite (decide_True (P := _ ≠ _)) by done.
Qed.

(** ** The dispatcher *)

(** What the dispatcher never changes. *)
Definition same_self (s s' : naming T) : Prop :=
  n_uuid s' = n_uuid s ∧ n_pubEndpoint s' = n_pubEndpoint s ∧ n_dataSub s' = n_dataSub s
  ∧ n_dataPub s' = n_dataPub s ∧ n_namingPub s' = n_namingPub s.

(** The table of [s'] is that of [s] with [data] under [u]. *)
Definition learned (s s' : naming T) (u data : list byte) : Prop :=
  ∀ k, wtable_lookup (n_peers s') k = if decide (u = k) then Some data else wtable_lookup (n_peers s) k.

(** The peer is recorded, unless [wtable_insert] fails: its result is ignored. *)
Definition recorded (s s' : naming T) (u data : list byte) : Prop :=
  if decide (fst (wtable_insert (n_peers s) u data) < 0)%Z then n_peers s' = n_peers s else learned s s' u data.

Lemma insert_recorded (s s' : naming T) u data :
  wtable_lookup (n_peers s) u = None → n_peers s' = snd (wtable_insert (n_peers s) u data) →
  recorded s s' u data.
Proof using StrTableLaws0.
  intros Hk E. unfold recorded, learned. rewrite E. pose proof (law_insert (n_peers s) u data Hk) as Hl.
  destruct (wtable_insert (n_peers s) u data) as [r t']. cbn [fst snd].
  destruct Hl as [[Hr Hl]|[Hr ->]]; [rewrite decide_False by lia; exact Hl|by rewrite decide_True].
Qed.

Lemma new_peer_wp mem (s : naming T) ep m :
  valid_node s ep → msg_fits H m → wtable_lookup (n_peers s) (nm_uuid m) = None →
  wp (new_peer H rc progName hostName pid mem (naming_bytes H m) (nm_uuid m))
    (λ st s' log, same_self s s' ∧ n_connected s' = n_connected s
       ∧ n_namingMessages s' = n_namingMessages s
       ∧ (zmq_ok → mem = true → st = MAMA_STATUS_OK)
       ∧ (st = MAMA_STATUS_OK →
            connects log = [(mSocket (n_dataSub s), nm_endPointAddr m)]
            ∧ sends log = [(mSocket (n_namingPub s), naming_bytes H (own_msg s ep x43))]
            ∧ recorded s s' (nm_uuid m) (naming_bytes H m))
       ∧ (st ≠ MAMA_STATUS_OK → n_peers s' = n_peers s)) s.
Proof using StrTableLaws0.
  intros Hv Hm Hnew. unfold new_peer. apply wp_bind, wp_get, wp_bind.
  eapply wp_part; [by apply naming_endpoint|]. apply wp_bind.
  eapply wp_mono; [|apply connect_wp]. cbn beta. intros st1 s1 log1 ([n1 ->] & Hs1 & Hok1 & Hc1).
  destruct (decide (st1 ≠ _)) as [E1|E1]; [apply wp_ret; repeat split; tauto|]. apply dec_stable in E1.
  rewrite decide_True in Hc1 by done. apply wp_bind.
  eapply wp_mono; [|apply (send_wp x43 _ ep)]; [|by destruct Hv].
  cbn beta. intros st2 s2 log2 ([n2 ->] & Hc2 & Hok2 & Hs2).
  destruct (decide (st2 ≠ _)) as [E2|E2]; [apply wp_ret; repeat split; tauto|]. apply dec_stable in E2.
  rewrite decide_True in Hs2 by done.
  destruct mem; [|apply wp_ret; by repeat split].
  apply wp_bind. eapply wp_part; [by apply naming_copy|].
  apply wp_bind, wp_modify, wp_ret. repeat split; try done.
  - rewrite ?app_nil_r, ?app_nil_l, !connects_app, Hc1, Hc2. done.
  - rewrite ?app_nil_r, ?app_nil_l, !sends_app, Hs1, Hs2. done.
  - by apply insert_recorded.
Qed.

Lemma dispatch_connect_wp mem thread (s : naming T) ep m :
  valid_node s ep → msg_fits H m → nm_type m = x43 ∨ nm_type m = x63 →
  wp (zmqBridgeMamaTransportImpl_dispatchNamingMsg H rc progName hostName pid mem thread
        (naming_bytes H m))
    (λ st s' log, same_self s s' ∧ n_namingMessages s' = (n_namingMessages s + 1)%Z
       ∧ n_connected s' = (if decide (st = MAMA_STATUS_OK ∧ n_connected s ≠ 1%Z ∧ nm_uuid m = n_uuid s)
                           then 1%Z else n_connected s)
       ∧ match wtable_lookup (n_peers s) (nm_uuid m) with
         | Some _ => st = MAMA_STATUS_OK ∧ log = [] ∧ n_peers s' = n_peers s
         | None =>
             (zmq_ok → mem = true → st = MAMA_STATUS_OK)
             ∧ (st = MAMA_STATUS_OK →
                  connects log = [(mSocket (n_dataSub s), nm_endPointAddr m)]
                  ∧ sends log = [(mSocket (n_namingPub s), naming_bytes H (own_msg s ep x43))]
                  ∧ recorded s s' (nm_uuid m) (naming_bytes H m))
             ∧ (st ≠ MAMA_STATUS_OK → n_peers s' = n_peers s)
         end) s.
Proof using StrTableLaws0.
  intros Hv Hm Hty. unfold zmqBridgeMamaTransportImpl_dispatchNamingMsg.
  apply wp_bind, wp_modify, wp_bind. eapply wp_part; [by apply naming_type|].
  rewrite decide_True by done. unfold dispatch_connect. apply wp_bind, wp_get, wp_bind.
  eapply wp_part; [by apply naming_uuid|]. apply wp_bind. cbn [n_peers count_message].
  destruct (wtable_lookup (n_peers s) (nm_uuid m)) as [old|] eqn:Eold.
  - apply wp_ret. rewrite decide_False by (intros Hne; by apply Hne). apply wp_bind, wp_get, wp_bind.
    destruct (decide (n_connected (count_message s) ≠ 1%Z ∧ _)) as [Hc|Hc];
      [apply wp_modify|apply wp_ret]; apply wp_ret; repeat split.
    + by rewrite decide_True.
    + rewrite decide_False; [done|]. intros [_ ?]. done.
  - eapply wp_mono; [|apply (new_peer_wp mem (count_message s) ep m)]; [|by destruct Hv|done|done].
    cbn beta. intros st s1 log ((Hu1 & Hrest) & Hc1 & Hn1 & Hok & Hgood & Hbad).
    case_decide as Est.
    { apply wp_ret. rewrite (decide_False (P := _ ∧ _)) by tauto.
      split_and!; try done; exact (conj Hu1 Hrest). }
    apply wp_bind, wp_get, wp_bind. rewrite Hc1, Hu1.
    destruct (decide (n_connected (count_message s) ≠ 1%Z ∧ _)) as [Hc|Hc];
      [apply wp_modify|apply wp_ret]; apply wp_ret; cbn [app]; rewrite app_nil_r.
    + rewrite decide_True by done. split_and!; try done; first [exact (conj Hu1 Hrest)|intros _; exact (Hgood Est)].
    + rewrite decide_False by (intros [_ ?]; done). split_and!; try done; first [exact (conj Hu1 Hrest)|intros _; exact (Hgood Est)].
Qed.

(** the naming message a transport sends about itself is a full struct
    that every receiver reads back as its uuid, its endpoint and the command. *)
Theorem naming_roundtrip (s : naming T) ep command :
  valid_node s ep →
  ∃ m, endpointsMsg H progName hostName pid s command = Some m
    ∧ length (naming_bytes H m) = NAMING_SIZE H
    ∧ pMsg_type (naming_bytes H m) = Some command
    ∧ pMsg_uuid H (naming_bytes H m) = Some (n_uuid s)
    ∧ pMsg_endpoint H (naming_bytes H m) = Some ep.
Proof using Type.
  intros Hv. pose proof (own_msg_fits s ep command Hv) as Hf.
  exists (own_msg s ep command). split_and!.
  - by apply own_msg_eq.
  - by apply length_naming_bytes.
  - by apply naming_type.
  - by apply naming_uuid.
  - by apply naming_endpoint.
Qed.

(** Whatever the type of a message, the dispatcher is defined on it and
    changes nothing of the node's identity. *)
Lemma dispatch_naming_safe mem thread (s : naming T) ep m :
  valid_node s ep → msg_fits H m →
  wp (zmqBridgeMamaTransportImpl_dispatchNamingMsg H rc progName hostName pid mem thread
        (naming_bytes H m)) (λ _ s' _, same_self s s') s.
Proof using StrTableLaws0.
  intros Hv Hm. destruct (decide (nm_type m = x43 ∨ nm_type m = x63)) as [Hc|Hc].
  { eapply wp_mono; [|by eapply dispatch_connect_wp]. by intros st s' log (? & _). }
  unfold zmqBridgeMamaTransportImpl_dispatchNamingMsg.
  apply wp_bind, wp_modify, wp_bind. eapply wp_part; [by apply naming_type|]. rewrite decide_False by done.
  case_decide.
  { unfold dispatch_disconnect. apply wp_bind, wp_get, wp_bind.
    eapply wp_part; [by apply naming_uuid|]. apply wp_bind, wp_modify, wp_bind.
    eapply wp_part; [by apply naming_endpoint|]. done. }
  case_decide; [|by apply wp_ret].
  unfold dispatch_welcome. apply wp_bind, wp_get, wp_bind.
  eapply wp_part; [by apply naming_endpoint|]. apply wp_bind.
  eapply wp_mono; [|apply connect_wp]. cbn beta. intros st s' log ([n ->] & _).
  destruct (decide (st ≠ _)); [by apply wp_ret|]. by apply wp_bind, wp_emit, wp_ret.
Qed.

Lemma same_self_valid (s s' : naming T) ep : same_self s s' → valid_node s ep → valid_node s' ep.
Proof using Type. intros (E1 & E2 & _) [He Hf Hu]. split; [by rewrite E2|done|by rewrite E1]. Qed.

(** C11: discovery of a peer, on every answer of zmq and of the peer table.
    A connect message or beacon from a known peer causes no call at all.  From
    an unknown peer, the data socket connects to its endpoint, one connect
    message of our own goes out, and the peer is inserted into the table -- all
    three, or else the status is an error and the table is unchanged.  The
    result of the insertion is ignored: when it fails the status is still OK
    although the peer is not recorded, and, as after an error, its next message
    is a discovery again.  Our own uuid, successfully processed, sets
    [mNamingConnected]. *)
Theorem peer_discovery mem thread (s : naming T) ep m :
  valid_node s ep → msg_fits H m → nm_type m = x43 ∨ nm_type m = x63 →
  ∃ st s' log,
    zmqBridgeMamaTransportImpl_dispatchNamingMsg H rc progName hostName pid mem thread
      (naming_bytes H m) s = Some (st, s', log)
    ∧ n_connected s' = (if decide (st = MAMA_STATUS_OK ∧ n_connected s ≠ 1%Z ∧ nm_uuid m = n_uuid s)
                        then 1%Z else n_connected s)
    ∧ match wtable_lookup (n_peers s) (nm_uuid m) with
      | Some _ => st = MAMA_STATUS_OK ∧ log = [] ∧ n_peers s' = n_peers s
      | None =>
          (zmq_ok → mem = true → st = MAMA_STATUS_OK)
          ∧ (st = MAMA_STATUS_OK →
               connects log = [(mSocket (n_dataSub s), nm_endPointAddr m)]
               ∧ sends log = [(mSocket (n_namingPub s), naming_bytes H (own_msg s ep x43))]
               ∧ recorded s s' (nm_uuid m) (naming_bytes H m))
          ∧ (st ≠ MAMA_STATUS_OK → n_peers s' = n_peers s)
      end.
Proof using StrTableLaws0.
  intros Hv Hm Hty.
  destruct (proj1 (wp_run _ _ _) (dispatch_connect_wp mem thread s ep m Hv Hm Hty))
    as (st & s' & log & E & _ & _ & Hc & Hrest).
  by exists st, s', log.
Qed.

(** C37: a disconnect message removes the peer from the table, whatever zmq
    answers to the disconnect of the data socket that follows, so that a
    later connect message of the same peer is a discovery again. *)
Theorem peer_departure mem thread (s : naming T) m :
  msg_fits H m → nm_type m = x44 →
  ∃ s' r1 r2,
    zmqBridgeMamaTransportImpl_dispatchNamingMsg H rc progName hostName pid mem thread
      (naming_bytes H m) s
    = Some (MAMA_STATUS_OK, s', nZmq <$>
        [ELock (mLock (n_dataSub s));
         ECall (zmq_disconnect (mSocket (n_dataSub s)) (nm_endPointAddr m)) r1;
         EUnlock (mLock (n_dataSub s));
         ELock (mLock (n_dataPub s)); ECall (zmq_events (mSocket (n_dataPub s))) r2;
         EUnlock (mLock (n_dataPub s))])
    ∧ ∀ k, wtable_lookup (n_peers s') k
           = if decide (nm_uuid m = k) then None else wtable_lookup (n_peers s) k.
Proof using StrTableLaws0.
  intros Hm Hty. unfold zmqBridgeMamaTransportImpl_dispatchNamingMsg.
  setoid_rewrite (C_bind_eq _ _ _ _ _ _ (eq_refl : cmodify count_message s = _)).
  rewrite (C_bind_read _ _ _ (nm_type m) _) by (unfold cpart; by rewrite (naming_type _ _ Hm)).
  rewrite decide_False by (rewrite Hty; by intros []). rewrite decide_True by done.
  unfold dispatch_disconnect. rewrite (C_bind_read _ _ _ _ _ eq_refl).
  rewrite (C_bind_read _ _ _ (nm_uuid m) _) by (unfold cpart; by rewrite (naming_uuid _ _ Hm)).
  rewrite (C_bind_eq _ _ _ _ _ _ eq_refl).
  rewrite (C_bind_read _ _ _ (nm_endPointAddr m) _) by (unfold cpart; by rewrite (naming_endpoint _ _ Hm)).
  eexists _, _, _. split; [reflexivity|].
  intros k. pose proof (law_remove (n_peers s) (nm_uuid m)) as Hl.
  cbn [n_peers set_calls set_peers count_message].
  destruct (wtable_remove (n_peers s) (nm_uuid m)) as [old t]. apply Hl.
Qed.

(** ** Announcing and waiting *)

(** Calls of zmq_send. *)
Definition send_attempts (log : list nobs) : nat :=
  length (omap (λ o, match o with nZmq (ECall (zmq_send _ _) _) => Some () | _ => None end) log).

Lemma send_attempts_app l1 l2 : send_attempts (l1 ++ l2) = send_attempts l1 + send_attempts l2.
Proof using Type. unfold send_attempts. by rewrite omap_app, length_app. Qed.

Lemma send_once command (s : naming T) ep :
  valid_node s ep →
  wp (zmqBridgeMamaTransportImpl_sendEndpointsMsg H rc progName hostName pid command)
    (λ _ s' log, only_calls s s' ∧ send_attempts log = 1) s.
Proof using Type.
  intros Hv. unfold zmqBridgeMamaTransportImpl_sendEndpointsMsg.
  apply wp_bind, wp_get, wp_bind. eapply wp_part; [by apply own_msg_eq|].
  wp_lock. apply wp_bind. wp_zmq. wp_lock. apply wp_ret. split; [by eexists|done].
Qed.

(** [k] sends, all answered by silence but the last, and a reason to stop. *)
Lemma publish_loop_wp conn disp retries n (s : naming T) ep :
  valid_node s ep →
  wp (publish_loop H rc progName hostName pid conn disp retries n)
    (λ _ s' log, only_calls s s' ∧ ∃ k, send_attempts log = k ∧ k ≤ retries
       ∧ (∀ i, n ≤ i → S i < n + k → conn i ≠ 1%Z)
       ∧ (k < retries → disp (n + k) ≠ 1%Z ∨ 0 < k ∧ conn (n + k - 1) = 1%Z)) s.
Proof using Type.
  revert n s. induction retries as [|r IH]; intros n s Hv; cbn [publish_loop].
  { apply wp_ret. split; [apply only_calls_refl|]. exists 0. repeat split; lia. }
  case_decide as Hd.
  2: { apply wp_ret. split; [apply only_calls_refl|]. exists 0.
       repeat split; [lia|lia|]. intros _. left. by rewrite Nat.add_0_r. }
  apply wp_bind. eapply wp_mono; [|by apply (send_once _ _ ep)]. cbn beta.
  intros _ s1 log1 [[n1 ->] Hl1]. case_decide as Hc.
  { apply wp_ret. rewrite app_nil_r. split; [by eexists|]. exists 1.
    repeat split; [done|lia|lia|]. intros _. right. split; [lia|]. by replace (n + 1 - 1) with n by lia. }
  apply wp_bind, wp_emit. eapply wp_mono; [|apply (IH (S n)); by destruct Hv].
  cbn beta. intros _ s2 log2 (Hs & k & Hk & Hkr & Hsil & Hstop). split.
  - eapply only_calls_trans; [by eexists|done].
  - exists (S k). rewrite !send_attempts_app, Hl1, Hk. repeat split; [lia| |].
    + intros i Hi1 Hi2. destruct (decide (i = n)) as [->|]; [done|]. apply Hsil; lia.
    + intros Hlt. destruct (Hstop ltac:(lia)) as [?|[? E]]; [left|right; split; [lia|]].
      * by replace (n + S k) with (S n + k) by lia.
      * by replace (n + S k - 1) with (S n + k - 1) by lia.
Qed.

(** A transport announces itself at most [connect_retries - 1] times; it
    keeps announcing until its own message has come back or the dispatch
    thread has stopped, and not after that. *)
Theorem announcements connectRetries conn disp (s : naming T) ep :
  valid_node s ep →
  ∃ s' log k,
    zmqBridgeMamaTransportImpl_publishEndpoints H rc progName hostName pid connectRetries conn disp s
    = Some ((), s', log)
    ∧ n_connected s' = 0%Z
    ∧ send_attempts log = k ∧ (Z.of_nat k <= Z.max 0 (connectRetries - 1))%Z
    ∧ (∀ i, S i < k → conn i ≠ 1%Z)
    ∧ ((Z.of_nat k < connectRetries - 1)%Z → disp k ≠ 1%Z ∨ 0 < k ∧ conn (k - 1) = 1%Z).
Proof using Type.
  intros Hv.
  assert (valid_node (set_connected 0 s) ep) as Hv' by (by destruct Hv).
  destruct (proj1 (wp_run _ _ _)
    (publish_loop_wp conn disp (Z.to_nat (connectRetries - 1)) 0 _ ep Hv'))
    as (a & s' & log & E & [n ->] & k & Hk & Hkr & Hsil & Hstop).
  exists (set_calls n (set_connected 0 s)), log, k. destruct a.
  unfold zmqBridgeMamaTransportImpl_publishEndpoints.
  rewrite (C_bind_eq _ _ _ _ _ _ eq_refl), E. repeat split; [done|lia|..].
  - intros i Hi. apply Hsil; lia.
  - intros Hlt. apply Hstop. lia.
Qed.

End Dispatch.

Lemma wait_loop_spec conn retries n :
  let '(reads, sleeps) := wait_loop conn retries n in
  (∀ i, n ≤ i → i < sleeps → conn i ≠ 1%Z)
  ∧ ((reads = n + retries ∧ sleeps = n + retries)
     ∨ (reads = S sleeps ∧ n ≤ sleeps < n + retries ∧ conn sleeps = 1%Z)).
Proof.
  revert n. induction retries as [|r IH]; intros n; cbn [wait_loop]; [split; [lia|left; lia]|].
  case_decide as Hc.
  - specialize (IH (S n)). destruct (wait_loop conn r (S n)) as [reads sleeps].
    destruct IH as [Hs Hr]. split.
    + intros i Hi1 Hi2. destruct (decide (i = n)) as [->|]; [done|]. apply Hs; lia.
    + destruct Hr as [Hr|Hr]; [left; lia|right; split_and!; try lia; apply Hr].
  - split; [lia|right; split_and!; [done|lia|lia|done]].
Qed.

(** starting a naming transport that waits for its proxy returns, after
    at most [connect_retries - 1] sleeps; once connected the flag stays set,
    and then the start succeeds exactly when one of the first
    [connect_retries] reads sees it, and times out only after all the sleeps. *)
Theorem start_waits connectRetries (conn : nat → Z) :
  (1 <= connectRetries)%Z →
  (∀ n, conn n = 1%Z → conn (S n) = 1%Z) →
  let '(status, sleeps) := zmqBridgeMamaTransportImpl_start 0 1 1 connectRetries conn in
  (Z.of_nat sleeps <= connectRetries - 1)%Z
  ∧ (status = MAMA_STATUS_OK ∨ status = MAMA_STATUS_TIMEOUT)
  ∧ (status = MAMA_STATUS_OK ↔ ∃ n, (Z.of_nat n < connectRetries)%Z ∧ conn n = 1%Z)
  ∧ (status = MAMA_STATUS_TIMEOUT → Z.of_nat sleeps = (connectRetries - 1)%Z).
Proof.
  intros Hr Hmono. unfold zmqBridgeMamaTransportImpl_start.
  rewrite decide_False by lia. rewrite decide_True by done.
  pose proof (wait_loop_spec conn (Z.to_nat (connectRetries - 1)) 0) as Hw.
  destruct (wait_loop _ _ _) as [reads sleeps]. destruct Hw as [Hsil [[-> ->]|(-> & Hb & Hone)]].
  - case_decide as Hc; cbn [fst snd]; (split_and!; [lia|auto| |by lia]).
    + split; [done|]. intros (n & Hn & E). exfalso.
      destruct (decide (n < Z.to_nat (connectRetries - 1))) as [Hlt|Hge].
      * by apply (Hsil n ltac:(lia)).
      * apply Hc. rewrite <-E. f_equal. lia.
    + split; [|done]. intros _. exists (0 + Z.to_nat (connectRetries - 1)). split; [lia|done].
  - rewrite decide_False by (intros Hne; apply Hne, Hmono, Hone).
    split_and!; [lia|by left| |done]. split; [|done]. intros _. exists sleeps. split; [lia|done].
Qed.

(** ** A transport, and the theorems at it *)

Definition uuid_a : list byte := lit "3669840e-d043-11ea-adc2-fcaa146e6b01".
Definition uuid_b : list byte := lit "3669840e-d043-11ea-adc2-fcaa146e6b02".
Definition ep_a : list byte := lit "tcp://10.0.0.1:5001".
Definition ep_b : list byte := lit "tcp://10.0.0.2:5002".

Definition demo_node (uuid ep : list byte) : naming (gmap (list byte) (list byte)) :=
  mkN uuid (Some ep) ∅ 0 1 0 (mkSocket 1 101 0) (mkSocket 2 102 0) (mkSocket 3 103 0) 10000 10000 0.

Lemma demo_valid_a : valid_node (demo_node uuid_a ep_a) ep_a.
Proof. split; [done|by_decide|by_decide]. Qed.

Lemma demo_valid_b : valid_node (demo_node uuid_b ep_b) ep_b.
Proof. split; [done|by_decide|by_decide]. Qed.

Definition MAXHOST : nat := 64.
Definition demo_msg (command : byte) : zmqNamingMsg :=
  own_msg MAXHOST (lit "prog") (lit "host") 42 (demo_node uuid_b ep_b) ep_b command.

Lemma demo_msg_fits command : msg_fits MAXHOST (demo_msg command).
Proof. apply own_msg_fits, demo_valid_b. Qed.

Lemma naming_roundtrip_witness :
  ∃ m, endpointsMsg MAXHOST (lit "prog") (lit "host") 42 (demo_node uuid_a ep_a) x43 = Some m
    ∧ length (naming_bytes MAXHOST m) = NAMING_SIZE MAXHOST
    ∧ pMsg_type (naming_bytes MAXHOST m) = Some x43
    ∧ pMsg_uuid MAXHOST (naming_bytes MAXHOST m) = Some uuid_a
    ∧ pMsg_endpoint MAXHOST (naming_bytes MAXHOST m) = Some ep_a.
Proof. exact (naming_roundtrip MAXHOST (lit "prog") (lit "host") 42 _ ep_a x43 demo_valid_a). Defined.

(** A node that hears of another one connects to it and answers. *)
Lemma peer_discovery_witness :
  ∃ s' log,
    zmqBridgeMamaTransportImpl_dispatchNamingMsg MAXHOST (λ _, ok_answer) (lit "prog") (lit "host") 42
      true 0 (naming_bytes MAXHOST (demo_msg x43)) (demo_node uuid_a ep_a)
    = Some (MAMA_STATUS_OK, s', log)
    ∧ connects log = [(1%Z, ep_b)] ∧ length (sends log) = 1
    ∧ wtable_lookup (n_peers s') uuid_b = Some (naming_bytes MAXHOST (demo_msg x43)).
Proof.
  destruct (peer_discovery MAXHOST (λ _, ok_answer) (lit "prog") (lit "host") 42 true 0
    (demo_node uuid_a ep_a) ep_a (demo_msg x43) demo_valid_a (demo_msg_fits x43) (or_introl eq_refl))
    as (st & s' & log & E & _ & Hok & Hgood & _).
  assert (st = MAMA_STATUS_OK) as -> by (by apply Hok).
  destruct (Hgood eq_refl) as (Hc & Hs & Hl). exists s', log.
  split; [exact E|]. split; [exact Hc|]. split; [by rewrite Hs|].
  rewrite (Hl uuid_b). by rewrite decide_True.
Defined.

Lemma peer_departure_witness :
  ∃ s' log,
    zmqBridgeMamaTransportImpl_dispatchNamingMsg MAXHOST (λ _, ok_answer) (lit "prog") (lit "host") 42
      true 0 (naming_bytes MAXHOST (demo_msg x44)) (demo_node uuid_a ep_a)
    = Some (MAMA_STATUS_OK, s', log)
    ∧ wtable_lookup (n_peers s') uuid_b = None.
Proof.
  destruct (peer_departure MAXHOST (λ _, ok_answer) (lit "prog") (lit "host") 42 true 0
    (demo_node uuid_a ep_a) (demo_msg x44) (demo_msg_fits x44) eq_refl)
    as (s' & r1 & r2 & E & Hl).
  eexists s', _. split; [exact E|]. rewrite (Hl uuid_b). by rewrite decide_True.
Defined.

(** The third message gets through. *)
Lemma announcements_witness :
  ∃ s' log,
    zmqBridgeMamaTransportImpl_publishEndpoints MAXHOST (λ _, ok_answer) (lit "prog") (lit "host") 42
      100 (λ n, if decide (n < 2) then 0%Z else 1%Z) (λ _, 1%Z) (demo_node uuid_a ep_a)
    = Some ((), s', log)
    ∧ send_attempts log = 3.
Proof.
  destruct (announcements MAXHOST (λ _, ok_answer) (lit "prog") (lit "host") 42 100
    (λ n, if decide (n < 2) then 0%Z else 1%Z) (λ _, 1%Z) (demo_node uuid_a ep_a) ep_a demo_valid_a)
    as (s' & log & k & E & _ & Hk & Hb & Hsil & Hstop).
  exists s', log. split; [exact E|]. rewrite Hk.
  assert (k < 4) as Hlt.
  { destruct (decide (k < 4)); [done|]. exfalso. apply (Hsil 2); [lia|done]. }
  destruct (Hstop ltac:(lia)) as [?|[Hpos H1]]; [done|].
  destruct (decide (k - 1 < 2)) as [Hx|Hx] in H1; [done|lia].
Defined.

Lemma start_waits_witness :
  let conn := λ n, if decide (n < 5) then 0%Z else 1%Z in
  let '(status, sleeps) := zmqBridgeMamaTransportImpl_start 0 1 1 100 conn in
  (Z.of_nat sleeps <= 99)%Z ∧ status = MAMA_STATUS_OK.
Proof.
  intros conn. pose proof (start_waits 100 conn) as Hst.
  destruct (zmqBridgeMamaTransportImpl_start 0 1 1 100 conn) as [status sleeps].
  destruct Hst as (Hb & _ & Hok & _).
  - lia.
  - unfold conn. intros n Hn. destruct (decide (n < 5)); [done|]. by rewrite decide_False by lia.
  - split; [lia|]. apply Hok. exists 5. split; [lia|done].
Defined.
