(* ===== verification/CNum.v ===== *)
(** * Decimal numbers of the C library: [sprintf("%d")], [atoi], [atoll] *)

From S2P Require Import Prelude CLib.

Local Open Scope Z_scope.

(** ** Printing *)

Definition digit (d : Z) : byte := byte_of (48 + d).

(** The decimal digits of [z]; [n] is at least their number. *)
Fixpoint udec (n : nat) (z : Z) : list byte :=
  match n with
  | O => []
  | S n' => if decide (z < 10) then [digit z] else udec n' (z / 10) ++ [digit (z mod 10)]
  end.

(** [sprintf("%d", z)], and [%lld]: 20 digits are enough for 64 bits. *)
Definition dec (z : Z) : list byte :=
  if decide (z < 0) then x2d :: udec 20 (- z) else udec 20 z.

(** ** Reading *)

Definition isspace (b : byte) : bool := bool_decide (b = x20) || bool_decide (9 <= byte_val b <= 13).
Definition digit_val (b : byte) : option Z :=
  if decide (48 <= byte_val b <= 57) then Some (byte_val b - 48) else None.

Fixpoint skip_spaces (s : list byte) : list byte :=
  match s with
  | b :: s' => if isspace b then skip_spaces s' else s
  | [] => []
  end.

(** The value of the digits at the front of [s]. *)
Fixpoint read_digits (acc : Z) (s : list byte) : Z :=
  match s with
  | b :: s' => match digit_val b with
               | Some d => read_digits (acc * 10 + d) s'
               | None => acc
               end
  | [] => acc
  end.

Definition read_number (s : list byte) : Z :=
  match skip_spaces s with
  | b :: s' => if decide (b = x2d) then - read_digits 0 s'
               else if decide (b = x2b) then read_digits 0 s'
               else read_digits 0 (b :: s')
  | [] => 0
  end.

(** Values out of the range of the type are undefined behaviour. *)
Definition in_range (w z : Z) : bool := bool_decide (- 2 ^ (w - 1) <= z < 2 ^ (w - 1)).
Definition atoi (s : list byte) : option Z :=
  let z := read_number s in if in_range 32 z then Some z else None.
Definition atoll (s : list byte) : option Z :=
  let z := read_number s in if in_range 64 z then Some z else None.

(** ** Round trip *)

Lemma digit_val_digit d : 0 <= d < 10 → digit_val (digit d) = Some d.
Proof.
  intros Hd. unfold digit_val, digit. rewrite byte_val_of, Z.mod_small by lia.
  rewrite decide_True by lia. f_equal. lia.
Qed.

Lemma udec_nonempty n z : (0 < n)%nat → udec n z ≠ [].
Proof. destruct n; [lia|]. cbn [udec]. case_decide; [done|]. by destruct (udec n (z / 10)). Qed.

Lemma udec_digits n z : 0 <= z → Forall (λ b, ∃ d, 0 <= d < 10 ∧ b = digit d) (udec n z).
Proof.
  revert z. induction n as [|n IH]; intros z Hz; cbn [udec]; [constructor|].
  case_decide; [repeat constructor; exists z; split; [lia|done]|].
  apply Forall_app. split; [apply IH; by apply Z.div_pos|].
  repeat constructor. exists (z mod 10). split; [|done]. by apply Z.mod_pos_bound.
Qed.

Lemma read_udec n acc z rest :
  0 <= z < 10 ^ Z.of_nat n →
  read_digits acc (udec n z ++ rest) = read_digits (acc * 10 ^ Z.of_nat (length (udec n z)) + z) rest.
Proof.
  revert acc z rest. induction n as [|n IH]; intros acc z rest Hz; cbn [udec].
  { simpl in *. f_equal. lia. }
  case_decide as Hd.
  - cbn [app read_digits length]. rewrite digit_val_digit by lia. done.
  - rewrite <-app_assoc, IH.
    2: { rewrite Nat2Z.inj_succ, Z.pow_succ_r in Hz by lia. split; [apply Z.div_pos; lia|].
         apply Z.div_lt_upper_bound; lia. }
    cbn [app read_digits]. rewrite digit_val_digit by (by apply Z.mod_pos_bound).
    f_equal. rewrite length_app. cbn [length]. rewrite Nat.add_1_r, Nat2Z.inj_succ, Z.pow_succ_r by lia.
    pose proof (Z_div_mod_eq_full z 10). lia.
Qed.

(** The first character is a digit. *)
Lemma udec_head n z rest :
  0 <= z → (0 < n)%nat →
  ∃ d s', udec n z ++ rest = digit d :: s' ∧ 0 <= d < 10.
Proof.
  intros Hz Hn. pose proof (udec_digits n z Hz) as Hall. pose proof (udec_nonempty n z Hn) as Hne.
  destruct (udec n z) as [|b s']; [done|]. apply Forall_cons in Hall as [(d & Hd & ->) _].
  by exists d, (s' ++ rest).
Qed.

Lemma digit_cases d b : 0 <= d < 10 → byte_val b < 48 → digit d ≠ b.
Proof. intros Hd Hb <-. unfold digit in Hb. rewrite byte_val_of, Z.mod_small in Hb; lia. Qed.

Lemma isspace_digit d : 0 <= d < 10 → isspace (digit d) = false.
Proof.
  intros Hd. unfold isspace. rewrite bool_decide_eq_false_2 by (apply digit_cases; [done|by vm_compute]).
  unfold digit. rewrite byte_val_of, Z.mod_small by lia. apply bool_decide_eq_false_2. lia.
Qed.

Lemma read_number_dec z : - 10 ^ 20 < z < 10 ^ 20 → read_number (dec z) = z.
Proof.
  intros Hz. unfold dec. case_decide as Hneg.
  - unfold read_number. rewrite (eq_refl : skip_spaces (x2d :: udec 20 (- z)) = x2d :: udec 20 (- z)). rewrite decide_True by done.
    rewrite <-(app_nil_r (udec 20 (- z))), read_udec by lia. cbn [read_digits]. lia.
  - destruct (udec_head 20 z [] ltac:(lia) ltac:(lia)) as (d & s' & E & Hd).
    rewrite app_nil_r in E. unfold read_number. rewrite E. cbn [skip_spaces].
    rewrite isspace_digit by done.
    rewrite decide_False by (apply digit_cases; [done|by vm_compute]).
    rewrite decide_False by (apply digit_cases; [done|by vm_compute]).
    rewrite <-E, <-(app_nil_r (udec 20 z)), read_udec by lia. cbn [read_digits]. lia.
Qed.

Lemma atoi_dec z : in_range 32 z = true → atoi (dec z) = Some z.
Proof.
  intros Hr. unfold atoi. assert (- 2 ^ (32 - 1) <= z < 2 ^ (32 - 1)) as Hb
    by (by apply bool_decide_eq_true in Hr).
  rewrite read_number_dec by lia. by rewrite Hr.
Qed.

Lemma atoll_dec z : in_range 64 z = true → atoll (dec z) = Some z.
Proof.
  intros Hr. unfold atoll. assert (- 2 ^ (64 - 1) <= z < 2 ^ (64 - 1)) as Hb
    by (by apply bool_decide_eq_true in Hr).
  rewrite read_number_dec by lia. by rewrite Hr.
Qed.

Lemma dec_is_cstr z : is_cstr (dec z).
Proof.
  assert (∀ x, 0 <= x → is_cstr (udec 20 x)) as Hu.
  { intros x Hx Hin. pose proof (udec_digits 20 x Hx) as Hall. rewrite Forall_forall in Hall.
    destruct (Hall NUL Hin) as (d & Hd & E). unfold NUL, digit in E. apply (f_equal byte_val) in E.
    rewrite byte_val_of, Z.mod_small in E by lia. vm_compute in E. destruct d; lia. }
  unfold dec. case_decide.
  - intros [?|Hin]%elem_of_cons; [done|]. by apply (Hu (- z)); [lia|].
  - apply Hu. lia.
Qed.

Lemma length_udec n z : (length (udec n z) ≤ n)%nat.
Proof.
  revert z. induction n as [|n IH]; intros z; cbn [udec]; [done|]. case_decide; cbn [length]; [lia|].
  rewrite length_app. cbn [length]. specialize (IH (z / 10)). lia.
Qed.

Lemma length_dec z : (length (dec z) ≤ 21)%nat.
Proof.
  unfold dec. case_decide; cbn [length]; pose proof (length_udec 20 z); pose proof (length_udec 20 (- z)); lia.
Qed.
