(* ===== verification/Nsd.v ===== *)
(** * The naming service daemon (src/src/nsd.c)

    The proxy of the naming messages: it parses its arguments, binds a
    frontend for publishers and a backend for subscribers, and has the
    backend greet every new subscriber with the address of the frontend. *)

From S2P Require Import Prelude CLib CNum CMonad Msg Naming NamingProofs.
Import ZM ZN.

Module Nsd.

(** ** Arguments *)

Definition lower (b : byte) : byte :=
  if decide (65 <= byte_val b <= 90)%Z then byte_of (byte_val b + 32) else b.
Definition strcasecmp_eq (a b : list byte) : bool := bool_decide (lower <$> a = lower <$> b).

(** [argv[i]]: [argv[argc]] is NULL, and nothing is beyond it. *)
Definition argv_at (argv : list (list byte)) (i : nat) : option (option (list byte)) :=
  if decide (i < length argv) then Some (argv !! i)
  else if decide (i = length argv) then Some None
  else None.

(** [strcasecmp(flag, argv[i]) == 0]: not defined on NULL. *)
Definition is_flag (argv : list (list byte)) (flag : list byte) (i : nat) : option bool :=
  a ← argv_at argv i; s ← a; Some (strcasecmp_eq flag s).

(** The loop, from [i]; [fuel] bounds the iterations. *)
Fixpoint parse_args (fuel : nat) (argv : list (list byte)) (i : nat)
    (interface : option (list byte)) (port : Z) : option (option (list byte) * Z) :=
  match fuel with
  | 0 => Some (interface, port)
  | S fuel' =>
      if decide (i < length argv) then
        isI ← is_flag argv (lit "-i") i;
        '(i1, interface1) ← (if isI : bool then a ← argv_at argv (S i); Some (S i, a)
                             else Some (i, interface));
        isP ← is_flag argv (lit "-p") i1;
        '(i2, port1) ← (if isP : bool then a ← argv_at argv (S i1); s ← a; p ← atoi s; Some (S i1, p)
                        else Some (i1, port));
        parse_args fuel' argv (S i2) interface1 port1
      else Some (interface, port)
  end.

(** Every iteration advances [i]: [argc] of them are enough. *)
Definition get_params (argv : list (list byte)) : option (option (list byte) * Z) :=
  parse_args (length argv) argv 1 None 0.

(** ** The proxy *)

Inductive xtype := ZMQ_XSUB | ZMQ_XPUB.

Inductive ncall :=
  | ctx_new
  | socket (t : xtype)
  | bind (s : Z) (uri : list byte)
  | get_last_endpoint (s : Z)
  | set_welcome (s : Z) (msg : list byte)
  | proxy (frontend backend : Z)
  | close (s : Z)
  | ctx_destroy.

Section Main.

Context (MAXHOSTNAMELEN : nat) `{!WStr}.
(** The answers of zmq and the system. *)
Context (rc : nat → ncall → Z) (last_endpoint : list byte) (progName hostName : list byte) (pid : Z).

Local Notation N := (C nat (ncall * Z)).

Definition call (c : ncall) : N Z :=
  n ← cget; cput (S n) ;; emit (c, rc n c) ;; mret (rc n c).

(** [welcomeMsg] as main fills it. *)
Definition welcomeMsg (subEndpoint : list byte) : zmqNamingMsg :=
  mkNaming ZMQ_NAMING_PREFIX x57 (snd (wmStrSizeCpy progName PROG_CAP))
    (take (HOST_CAP MAXHOSTNAMELEN) hostName) pid []
    (snd (wmStrSizeCpy subEndpoint ENDPOINT_CAP)).

(** The exit code of [main]; parameters of the command line. *)
Definition main (argv : list (list byte)) : N Z :=
  '(interface, port) ← cpart (get_params argv);
  match interface with
  | None => mret 1%Z
  | Some ifc =>
    if decide (port = 0)%Z then mret 1%Z
    else
      context ← call ctx_new;
      if decide (context = 0)%Z then mret 2%Z
      else
        subEndpoint ← cpart (strcpy ZMQ_MAX_ENDPOINT_LENGTH (lit "tcp://" ++ ifc ++ lit ":*"));
        frontend ← call (socket ZMQ_XSUB);
        if decide (frontend = 0)%Z then mret 3%Z
        else
          r ← call (bind frontend subEndpoint);
          if decide (r ≠ 0)%Z then mret 4%Z
          else
            r ← call (get_last_endpoint frontend);
            if decide (r ≠ 0)%Z then mret 5%Z
            else
              backend ← call (socket ZMQ_XPUB);
              if decide (backend = 0)%Z then mret 6%Z
              else
                pubEndpoint ← cpart (strcpy 1024 (lit "tcp://" ++ ifc ++ lit ":" ++ dec port));
                r ← call (set_welcome backend (naming_bytes MAXHOSTNAMELEN (welcomeMsg last_endpoint)));
                if decide (r ≠ 0)%Z then mret 7%Z
                else
                  r ← call (bind backend pubEndpoint);
                  if decide (r ≠ 0)%Z then mret 8%Z
                  else
                    _ ← call (proxy frontend backend);
                    _ ← call (close frontend);
                    _ ← call (close backend);
                    _ ← call ctx_destroy;
                    mret 0%Z
  end.

End Main.

(** ** Properties *)

Lemma is_flag_at argv flag i s :
  argv !! i = Some s → is_flag argv flag i = Some (strcasecmp_eq flag s).
Proof.
  intros E. unfold is_flag, argv_at. rewrite decide_True by (by eapply lookup_lt_Some).
  by rewrite bind_some, E.
Qed.

Lemma parse_end fuel argv i ifc p :
  length argv ≤ i → parse_args fuel argv i ifc p = Some (ifc, p).
Proof. intros. destruct fuel; cbn [parse_args]; [done|]. by rewrite decide_False by lia. Qed.

Lemma parse_i fuel argv i s v ifc p :
  argv !! i = Some s → strcasecmp_eq (lit "-i") s = true →
  argv !! S i = Some v → strcasecmp_eq (lit "-p") v = false →
  parse_args (S fuel) argv i ifc p = parse_args fuel argv (S (S i)) (Some v) p.
Proof.
  intros Es Hs Ev Hv. cbn [parse_args].
  rewrite decide_True by (by eapply lookup_lt_Some). rewrite (is_flag_at _ _ i s), bind_some, Hs by done.
  unfold argv_at. rewrite decide_True by (by eapply lookup_lt_Some). rewrite Ev, !bind_some.
  by rewrite (is_flag_at _ _ (S i) v), bind_some, Hv by done.
Qed.

Lemma parse_p fuel argv i s v ifc p p' :
  argv !! i = Some s → strcasecmp_eq (lit "-i") s = false → strcasecmp_eq (lit "-p") s = true →
  argv !! S i = Some v → atoi v = Some p' →
  parse_args (S fuel) argv i ifc p = parse_args fuel argv (S (S i)) ifc p'.
Proof.
  intros Es Hi Hs Ev Hv. cbn [parse_args].
  rewrite decide_True by (by eapply lookup_lt_Some).
  rewrite (is_flag_at _ _ i s), bind_some, Hi, bind_some by done.
  rewrite (is_flag_at _ _ i s), bind_some, Hs by done.
  unfold argv_at. rewrite decide_True by (by eapply lookup_lt_Some).
  by rewrite Ev, !bind_some, Hv.
Qed.

(** the daemon takes its interface and port in either order, the flags
    in either case; a flag at the end of the command line reads beyond the
    arguments instead of reporting an error. *)
Theorem nsd_arguments (prog fi fp ifc port : list byte) (p : Z) :
  strcasecmp_eq (lit "-i") fi = true → strcasecmp_eq (lit "-p") fp = true →
  strcasecmp_eq (lit "-p") ifc = false → atoi port = Some p →
  get_params [prog; fi; ifc; fp; port] = Some (Some ifc, p)
  ∧ get_params [prog; fp; port; fi; ifc] = Some (Some ifc, p)
  ∧ get_params [prog; fi] = None
  ∧ get_params [prog; fp] = None.
Proof.
  intros Hi Hp Hifc Eport.
  assert (strcasecmp_eq (lit "-p") fi = false) as Hpi.
  { apply bool_decide_eq_true in Hi. unfold strcasecmp_eq. rewrite <-Hi. by vm_compute. }
  assert (strcasecmp_eq (lit "-i") fp = false) as Hip.
  { apply bool_decide_eq_true in Hp. unfold strcasecmp_eq. rewrite <-Hp. by vm_compute. }
  unfold get_params. cbn [length]. split_and!.
  - rewrite (parse_i _ _ 1 fi ifc) by done. rewrite (parse_p _ _ 3 fp port _ _ p) by done.
    by rewrite parse_end.
  - rewrite (parse_p _ _ 1 fp port _ _ p) by done. rewrite (parse_i _ _ 3 fi ifc) by done.
    by rewrite parse_end.
  - cbn [parse_args]. rewrite decide_True by (simpl; lia).
    rewrite (is_flag_at _ _ 1 fi), bind_some, Hi by done. done.
  - cbn [parse_args]. rewrite decide_True by (simpl; lia).
    rewrite (is_flag_at _ _ 1 fp), bind_some, Hip, bind_some by done.
    by rewrite (is_flag_at _ _ 1 fp), bind_some, Hp by done.
Qed.

Lemma nsd_arguments_witness :
  get_params [lit "nsd"; lit "-I"; lit "10.0.0.9"; lit "-p"; lit "5756"]
  = Some (Some (lit "10.0.0.9"), 5756%Z).
Proof.
  destruct (nsd_arguments (lit "nsd") (lit "-I") (lit "-p") (lit "10.0.0.9") (lit "5756") 5756
    eq_refl eq_refl eq_refl eq_refl) as (H & _). exact H.
Defined.

Section Serve.

Context (MAXHOSTNAMELEN : nat) `{!WStr}.
Context (rc : nat → ncall → Z) (last_endpoint : list byte) (progName hostName : list byte) (pid : Z).

(** Everything main does, in order. *)
Definition serve_calls (frontend backend : Z) (ifc : list byte) (port : Z) : list ncall :=
  [ctx_new; socket ZMQ_XSUB; bind frontend (lit "tcp://" ++ ifc ++ lit ":*");
   get_last_endpoint frontend; socket ZMQ_XPUB;
   set_welcome backend (naming_bytes MAXHOSTNAMELEN
     (welcomeMsg MAXHOSTNAMELEN progName hostName pid last_endpoint));
   bind backend (lit "tcp://" ++ ifc ++ lit ":" ++ dec port);
   proxy frontend backend; close frontend; close backend; ctx_destroy].

Lemma call_wp (c : ncall) (n : nat) :
  wp (call rc c) (λ r n' log, r = rc n c ∧ n' = S n ∧ log = [(c, r)]) n.
Proof. done. Qed.

Ltac nsd_call := apply wp_bind; eapply wp_mono; [|apply call_wp]; intros ? ? ? (-> & -> & ->).
Ltac nsd_exit k := case_decide; [apply wp_ret; exists k; split; [done|right; lia]|].

Lemma main_wp argv ifc port :
  get_params argv = Some (Some ifc, port) → port ≠ 0%Z → length ifc < 240 →
  wp (main MAXHOSTNAMELEN rc last_endpoint progName hostName pid argv)
    (λ code _ log, ∃ k,
       fst <$> log = take k (serve_calls (rc 1 (socket ZMQ_XSUB)) (rc 4 (socket ZMQ_XPUB)) ifc port)
       ∧ ((code = 0%Z ∧ k = 11) ∨ ((2 <= code <= 8) ∧ Z.of_nat k = code - 1)%Z)) 0.
Proof.
  intros Ea Hp Hl. unfold main. rewrite Ea. apply wp_bind, (wp_part _ _ _ _ eq_refl).
  rewrite decide_False by done.
  assert (strcpy ZMQ_MAX_ENDPOINT_LENGTH (lit "tcp://" ++ ifc ++ lit ":*")
          = Some (lit "tcp://" ++ ifc ++ lit ":*")) as Es1.
  { apply strcpy_fits. rewrite !length_app. unfold ZMQ_MAX_ENDPOINT_LENGTH. simpl. lia. }
  assert (strcpy 1024 (lit "tcp://" ++ ifc ++ lit ":" ++ dec port)
          = Some (lit "tcp://" ++ ifc ++ lit ":" ++ dec port)) as Es2.
  { apply strcpy_fits. rewrite !length_app. pose proof (length_dec port). simpl. lia. }
  nsd_call. nsd_exit 1. rewrite Es1. apply wp_bind, (wp_part _ _ _ _ eq_refl).
  nsd_call. nsd_exit 2. nsd_call. nsd_exit 3. nsd_call. nsd_exit 4. nsd_call. nsd_exit 5.
  rewrite Es2. apply wp_bind, (wp_part _ _ _ _ eq_refl).
  nsd_call. nsd_exit 6. nsd_call. nsd_exit 7.
  do 4 nsd_call. apply wp_ret. exists 11. split; [done|by left].
Qed.

(** The daemon's start, on every answer of zmq: the calls are a prefix
    of the whole sequence, in which the welcome message is set before
    subscribers can connect; a failure exits with the code of the call that
    failed and never runs the proxy, and the exit code is 0 exactly when
    everything was done. *)
Theorem nsd_serves argv ifc port :
  get_params argv = Some (Some ifc, port) → port ≠ 0%Z → length ifc < 240 →
  ∃ code n log k,
    main MAXHOSTNAMELEN rc last_endpoint progName hostName pid argv 0 = Some (code, n, log)
    ∧ fst <$> log = take k (serve_calls (rc 1 (socket ZMQ_XSUB)) (rc 4 (socket ZMQ_XPUB)) ifc port)
    ∧ ((code = 0%Z ∧ k = 11) ∨ ((2 <= code <= 8) ∧ Z.of_nat k = code - 1)%Z).
Proof.
  intros Ea Hp Hl.
  destruct (proj1 (wp_run _ _ _) (main_wp argv ifc port Ea Hp Hl)) as (code & n & log & E & k & Hk).
  by exists code, n, log, k.
Qed.

End Serve.

(** The welcome message tells a subscriber where the frontend is. *)
Lemma welcome_fits MAXHOSTNAMELEN `{WStr} progName hostName pid ep :
  is_cstr ep →
  msg_fits MAXHOSTNAMELEN (welcomeMsg MAXHOSTNAMELEN progName hostName pid ep).
Proof.
  intros Hep. split; unfold welcomeMsg; cbn [nm_topic nm_progName nm_host nm_uuid nm_endPointAddr].
  - vm_compute. lia.
  - rewrite wstr_take, length_take by (unfold PROG_CAP; lia). unfold PROG_CAP. lia.
  - rewrite length_take. lia.
  - split; [by_decide|]. vm_compute. lia.
  - rewrite wstr_take by (vm_compute; lia). split; [by apply is_cstr_take|].
    rewrite length_take. unfold ENDPOINT_CAP, ZMQ_MAX_ENDPOINT_LENGTH. lia.
Qed.

Lemma nsd_serves_witness :
  ∃ code n log k,
    main 64 (λ _ c, match c with ctx_new => 1 | socket ZMQ_XSUB => 2 | socket ZMQ_XPUB => 3 | _ => 0 end)%Z
      (lit "tcp://10.0.0.9:4999") (lit "nsd") (lit "host") 7
      [lit "nsd"; lit "-i"; lit "10.0.0.9"; lit "-p"; lit "5756"] 0 = Some (code, n, log)
    ∧ k ≤ 11
    ∧ fst <$> log = take k (serve_calls 64 (lit "tcp://10.0.0.9:4999") (lit "nsd") (lit "host") 7
                              2 3 (lit "10.0.0.9") 5756).
Proof.
  destruct (nsd_serves 64 (λ _ c, match c with ctx_new => 1 | socket ZMQ_XSUB => 2 | socket ZMQ_XPUB => 3 | _ => 0 end)%Z
    (lit "tcp://10.0.0.9:4999") (lit "nsd") (lit "host") 7
    [lit "nsd"; lit "-i"; lit "10.0.0.9"; lit "-p"; lit "5756"] (lit "10.0.0.9") 5756)
    as (code & n & log & k & E & Hl & Hk).
  - reflexivity.
  - lia.
  - simpl. lia.
  - exists code, n, log, k. split; [exact E|]. split; [lia|exact Hl].
Defined.

End Nsd.
