(* ===== verification/Mesh.v ===== *)
(** * The mesh of peers

    Transports that run the dispatcher of transport.c against a proxy that
    forwards every naming message to all its subscribers (nsd.c).  The
    dispatcher answers a message of an unknown peer with a message of its
    own: this is enough for everybody to connect to everybody, exactly once,
    whatever the order in which transports start, and it comes to rest. *)

From S2P Require Import Prelude CLib CMonad Msg Socket Collections Naming NamingProofs Nsd.
Import ZM Sock ZN.

(** ** The network *)

Section Mesh.

Context (H : nat) {T : Type} `{Htab : StrTable T (list byte)} `{!StrTableLaws T (list byte)} `{!WStr}.

(** [N] transports: their identities and programs, the answers of zmq to
    each, and the sockets they use (handles mean nothing across processes). *)
Context (N : nat) (uuid ep prog host : nat → list byte) (pid : nat → Z).
Context (rc : nat → nat → zcall → Z) (dataSub namingPub : zmqSocket) (welcome : zmqNamingMsg).

(** The proxy: messages on their way to each subscriber; who has subscribed,
    whose publishing socket has reached the proxy ([linked]), and who was
    heard since.  [conns] are the successful connects of each transport. *)
Record mesh := mkMesh {
  node : nat → naming T;
  queue : nat → list (list byte);
  joined : nat → bool;
  linked : nat → bool;
  heard : nat → bool;
  conns : nat → list (Z * list byte) }.

Definition upd {A} (f : nat → A) (i : nat) (x : A) : nat → A :=
  λ j, if decide (i = j) then x else f j.

(** What [i] sends on its publishing socket reaches all subscribers, or,
    before the socket is linked, nobody. *)
Definition deliver (i : nat) (log : list nobs) (m : mesh) : mesh :=
  let ds := snd <$> filter (λ x, x.1 = mSocket namingPub) (sends log) in
  if linked m i then
    mkMesh (node m) (λ j, if joined m j then queue m j ++ ds else queue m j) (joined m) (linked m)
      (match ds with [] => heard m | _ => upd (heard m) i true end) (conns m)
  else m.

(** [i] has run a function of the bridge: its new state and what it did. *)
Definition ran (i : nat) (s' : naming T) (log : list nobs) (m : mesh) : mesh :=
  deliver i log (mkMesh (upd (node m) i s') (queue m) (joined m) (linked m) (heard m)
                   (upd (conns m) i (conns m i ++ connects log))).

Definition pop (i : nat) (rest : list (list byte)) (m : mesh) : mesh :=
  mkMesh (node m) (upd (queue m) i rest) (joined m) (linked m) (heard m) (conns m).

(** A transport receives the next message. *)
Inductive receive : mesh → mesh → Prop :=
  | do_receive m i data rest st s' log :
      i < N → queue m i = data :: rest →
      zmqBridgeMamaTransportImpl_dispatchNamingMsg H (rc i) (prog i) (host i) (pid i) true 0 data
        (node m i) = Some (st, s', log) →
      receive m (ran i s' log (pop i rest m)).

(** A transport subscribes and is welcomed; its publishing socket reaches
    the proxy; it announces itself (publishing thread) or sends a beacon;
    it receives. *)
Inductive step : mesh → mesh → Prop :=
  | do_join m i :
      i < N → joined m i = false →
      step m (mkMesh (node m) (upd (queue m) i [naming_bytes H welcome]) (upd (joined m) i true)
                (linked m) (heard m) (conns m))
  | do_link m i :
      i < N → joined m i = true →
      step m (mkMesh (node m) (queue m) (joined m) (upd (linked m) i true) (heard m) (conns m))
  | do_announce m i command st s' log :
      i < N → command = x43 ∨ command = x63 →
      zmqBridgeMamaTransportImpl_sendEndpointsMsg H (rc i) (prog i) (host i) (pid i) command
        (node m i) = Some (st, s', log) →
      step m (ran i s' log m)
  | do_recv m m' : receive m m' → step m m'.

(** Nothing has happened; every node knows itself and has an empty table. *)
Record initial (m : mesh) : Prop := {
  in_self i : i < N → n_uuid (node m i) = uuid i ∧ n_pubEndpoint (node m i) = Some (ep i)
                      ∧ n_dataSub (node m i) = dataSub ∧ n_namingPub (node m i) = namingPub;
  in_peers i k : i < N → wtable_lookup (n_peers (node m i)) k = None;
  in_empty i : queue m i = [] ∧ joined m i = false ∧ linked m i = false ∧ heard m i = false
               ∧ conns m i = [] }.

Definition reachable (m : mesh) : Prop := ∃ m0, initial m0 ∧ rtc step m0 m.

(** No naming message is on its way. *)
Definition quiescent (m : mesh) : Prop := ∀ i, i < N → queue m i = [].

(** The endpoints [i] has connected its data socket to. *)
Definition data_connects (m : mesh) (i : nat) : list (list byte) :=
  snd <$> filter (λ x, x.1 = mSocket dataSub) (conns m i).

(** ** Assumptions

    Distinct identities that fit their fields; two sockets; a welcome
    message; a zmq and an allocator whose calls succeed. *)
Record mesh_ok : Prop := {
  mo_uuid i : i < N → is_cstr (uuid i) ∧ length (uuid i) < UUID_CAP;
  mo_ep i : i < N → is_cstr (ep i) ∧ length (ep i) < ENDPOINT_CAP;
  mo_inj i j : i < N → j < N → uuid i = uuid j → i = j;
  mo_socks : mSocket dataSub ≠ mSocket namingPub;
  mo_welcome : msg_fits H welcome ∧ nm_type welcome = x57;
  mo_rc i : zmq_ok (rc i);
  mo_insert (t : T) k v : wtable_lookup t k = None → (0 <= fst (wtable_insert t k v))%Z }.

Context (Hok : mesh_ok).

(** What [j] says about itself. *)
Definition peer_msg (j : nat) (command : byte) : zmqNamingMsg :=
  mkNaming ZMQ_NAMING_PREFIX command (take (PROG_CAP - 1) (prog j)) (take (HOST_CAP H) (host j))
    (pid j) (uuid j) (ep j).
Definition peer_bytes (j : nat) (command : byte) : list byte := naming_bytes H (peer_msg j command).

Definition hello (command : byte) : Prop := command = x43 ∨ command = x63.

Definition known (m : mesh) (i j : nat) : Prop := is_Some (wtable_lookup (n_peers (node m i)) (uuid j)).
Definition flight (m : mesh) (i j : nat) : Prop := ∃ c, hello c ∧ peer_bytes j c ∈ queue m i.

(** ** The messages *)

Lemma peer_fits j c : j < N → msg_fits H (peer_msg j c).
Proof using Hok.
  intros Hj. split; cbn [peer_msg nm_topic nm_progName nm_host nm_uuid nm_endPointAddr].
  - vm_compute. lia.
  - rewrite length_take. unfold PROG_CAP. lia.
  - rewrite length_take. lia.
  - by apply (mo_uuid Hok).
  - by apply (mo_ep Hok).
Qed.

Lemma peer_bytes_inj j k c c' :
  j < N → k < N → peer_bytes j c = peer_bytes k c' → j = k.
Proof using Hok.
  intros Hj Hk E. apply (f_equal (pMsg_uuid H)) in E. unfold peer_bytes in E.
  rewrite !naming_uuid in E by (by apply peer_fits). simplify_eq/=. by apply (mo_inj Hok).
Qed.

Lemma peer_not_welcome j c : j < N → hello c → peer_bytes j c ≠ naming_bytes H welcome.
Proof using Hok.
  intros Hj Hc E. apply (f_equal pMsg_type) in E. destruct (mo_welcome Hok) as [Hw Hty].
  unfold peer_bytes in E. rewrite !(naming_type H) in E by (try apply peer_fits; done).
  injection E as E. rewrite Hty in E. cbn in E. by destruct Hc; subst.
Qed.

(** ** One transport *)

(** The node of [i] in every reachable state. *)
Definition self (i : nat) (s : naming T) : Prop :=
  n_uuid s = uuid i ∧ n_pubEndpoint s = Some (ep i) ∧ n_dataSub s = dataSub
  ∧ n_namingPub s = namingPub.

Lemma self_valid i s : i < N → self i s → valid_node s (ep i).
Proof using Hok.
  intros Hi (Hu & He & _). split; [done|by apply (mo_ep Hok)|]. rewrite Hu. by apply (mo_uuid Hok).
Qed.

Lemma self_own i s c : self i s → own_msg H (prog i) (host i) (pid i) s (ep i) c = peer_msg i c.
Proof using Type. intros (Hu & _). unfold own_msg, peer_msg. by rewrite Hu. Qed.

Lemma self_same i s s' : self i s → same_self s s' → self i s'.
Proof using Type. unfold self, same_self. intros (-> & -> & -> & ->) (-> & -> & -> & _ & ->). done. Qed.

Lemma wp_elim {A} (f : C (naming T) nobs A) Q s a s' log :
  wp f Q s → f s = Some (a, s', log) → Q a s' log.
Proof using Type. unfold wp. intros Hw E. by rewrite E in Hw. Qed.

(** An announcement. *)
Lemma announce_run i s c st s' log :
  i < N → self i s →
  zmqBridgeMamaTransportImpl_sendEndpointsMsg H (rc i) (prog i) (host i) (pid i) c s = Some (st, s', log) →
  only_calls s s' ∧ connects log = [] ∧ sends log = [(mSocket namingPub, peer_bytes i c)].
Proof using Hok.
  intros Hi Hs Hrun.
  pose proof (wp_elim _ _ _ _ _ _ (send_wp H (rc i) (prog i) (host i) (pid i) c s (ep i)
    (self_valid i s Hi Hs)) Hrun) as (Ho & Hc & Hst & Hsend).
  rewrite Hst in Hsend by apply (mo_rc Hok). rewrite decide_True in Hsend by done.
  rewrite (self_own i s c Hs) in Hsend. destruct Hs as (_ & _ & _ & E). by rewrite E in Hsend.
Qed.

(** A message of [j]: nothing when [j] is known, otherwise a connect, an
    answer and an entry of the table. *)
Lemma peer_run i j s c st s' log :
  i < N → j < N → hello c → self i s →
  zmqBridgeMamaTransportImpl_dispatchNamingMsg H (rc i) (prog i) (host i) (pid i) true 0
    (peer_bytes j c) s = Some (st, s', log) →
  self i s'
  ∧ (j = i ∨ n_connected s = 1%Z → n_connected s' = 1%Z)
  ∧ ((is_Some (wtable_lookup (n_peers s) (uuid j)) ∧ log = [] ∧ n_peers s' = n_peers s)
     ∨ (wtable_lookup (n_peers s) (uuid j) = None
        ∧ connects log = [(mSocket dataSub, ep j)]
        ∧ sends log = [(mSocket namingPub, peer_bytes i x43)]
        ∧ learned s s' (uuid j) (peer_bytes j c))).
Proof using Hok StrTableLaws0.
  intros Hi Hj Hc Hs Hrun.
  pose proof (wp_elim _ _ _ _ _ _ (dispatch_connect_wp H (rc i) (prog i) (host i) (pid i)
    true 0 s (ep i) (peer_msg j c) (self_valid i s Hi Hs) (peer_fits j c Hj) Hc) Hrun)
    as (Hself & _ & Hconn & Hrest).
  assert (st = MAMA_STATUS_OK) as ->.
  { destruct (wtable_lookup _ _) in Hrest; [by destruct Hrest as [-> _]|].
    destruct Hrest as (Hst & _). by apply Hst; [apply (mo_rc Hok)|]. }
  cbn [peer_msg nm_uuid nm_endPointAddr] in *.
  split; [by eapply self_same|]. split.
  { intros Hcase. rewrite Hconn. case_decide as Hd; [done|]. destruct Hcase as [->|?]; [|done].
    destruct (decide (n_connected s = 1%Z)); [done|]. exfalso. apply Hd. destruct Hs as (-> & _). done. }
  destruct (wtable_lookup (n_peers s) (uuid j)) as [v|] eqn:Ev; [left|right; split; [done|]].
  - destruct Hrest as (_ & -> & ->). by eauto.
  - destruct Hrest as (_ & Hgood & _). destruct (Hgood eq_refl) as (Hc1 & Hs1 & Hl).
    rewrite (self_own i s x43 Hs) in Hs1. destruct Hs as (_ & _ & Hds & Hnp).
    assert (learned s s' (uuid j) (peer_bytes j c)) as Hl'.
    { unfold recorded in Hl. rewrite decide_False in Hl; [exact Hl|]. pose proof (mo_insert Hok (n_peers s) (uuid j) (naming_bytes H (peer_msg j c)) Ev). lia. }
    by rewrite Hds in Hc1; rewrite Hnp in Hs1.
Qed.

(** The welcome message: the publishing socket connects to the proxy. *)
Lemma welcome_wp i s :
  wp (zmqBridgeMamaTransportImpl_dispatchNamingMsg H (rc i) (prog i) (host i) (pid i) true 0
        (naming_bytes H welcome))
    (λ _ s' log, same_self s s' ∧ n_peers s' = n_peers s ∧ n_connected s' = n_connected s
       ∧ connects log = [(mSocket (n_namingPub s), nm_endPointAddr welcome)] ∧ sends log = []) s.
Proof using Hok.
  destruct (mo_welcome Hok) as [Hw Hty].
  unfold zmqBridgeMamaTransportImpl_dispatchNamingMsg.
  apply wp_bind, wp_modify, wp_bind. eapply wp_part; [by apply naming_type|].
  rewrite Hty, !decide_False, decide_True by (done || by intros [?|?]).
  unfold dispatch_welcome. apply wp_bind, wp_get, wp_bind.
  eapply wp_part; [by apply naming_endpoint|]. apply wp_bind.
  eapply wp_mono; [|apply connect_wp]. cbn beta. intros st1 s1 log1 ([n ->] & Hs & Hst & Hc).
  rewrite Hst in * by apply (mo_rc Hok). rewrite decide_False by (intros Hne; by apply Hne).
  rewrite decide_True in Hc by done. apply wp_bind, wp_emit, wp_ret. cbn [app].
  split_and!; try done; [by rewrite connects_app, Hc|by rewrite sends_app, Hs].
Qed.

(** ** The invariant *)

Definition paired (m : mesh) (i j : nat) : Prop :=
  known m i j ∨ flight m i j ∨ (¬ known m j i ∧ flight m j i).

Record inv (m : mesh) : Prop := {
  iv_self i : i < N → self i (node m i);
  iv_msgs i d : i < N → d ∈ queue m i →
    d = naming_bytes H welcome ∨ ∃ j c, j < N ∧ hello c ∧ heard m j = true ∧ d = peer_bytes j c;
  iv_joined i : linked m i = true → joined m i = true;
  iv_heard i : heard m i = true → linked m i = true;
  iv_known i k : i < N → is_Some (wtable_lookup (n_peers (node m i)) k) →
    ∃ j, j < N ∧ heard m j = true ∧ k = uuid j;
  iv_pair i j : i < N → j < N → heard m i = true → heard m j = true → paired m i j;
  iv_conns i : i < N →
    ∃ l, NoDup l ∧ (∀ j, j ∈ l ↔ j < N ∧ known m i j) ∧ data_connects m i = ep <$> l;
  iv_own i : i < N → heard m i = true → n_connected (node m i) = 1%Z ∨ flight m i i }.

(** A run at [i]: [rest] is left of its queue, which lost [head]; [ds] is
    what it sends to the proxy. *)
Record turn (m : mesh) (i : nat) (rest : list (list byte)) (s' : naming T) (log : list nobs)
    (head : option nat) (ds : list (list byte)) : Prop := {
  tu_self : self i s';
  tu_rest d : d ∈ rest → d ∈ queue m i;
  tu_queue d : d ∈ queue m i →
    d ∈ rest ∨ d = naming_bytes H welcome ∨ ∃ j c, head = Some j ∧ d = peer_bytes j c;
  tu_head j : head = Some j → j < N ∧ heard m j = true ∧ is_Some (wtable_lookup (n_peers s') (uuid j));
  tu_known k : is_Some (wtable_lookup (n_peers s') k) →
    is_Some (wtable_lookup (n_peers (node m i)) k) ∨ ∃ j, head = Some j ∧ k = uuid j;
  tu_keep k : is_Some (wtable_lookup (n_peers (node m i)) k) → is_Some (wtable_lookup (n_peers s') k);
  tu_sent : snd <$> filter (λ x, x.1 = mSocket namingPub) (sends log) = ds;
  tu_ds : ds = [] ∨ ∃ c, hello c ∧ ds = [peer_bytes i c];
  tu_answer j : head = Some j → ¬ known m i j → ds ≠ [];
  tu_conns : (snd <$> filter (λ x, x.1 = mSocket dataSub) (connects log) = []
              ∧ ∀ k, is_Some (wtable_lookup (n_peers s') k) → is_Some (wtable_lookup (n_peers (node m i)) k))
             ∨ ∃ j, head = Some j ∧ ¬ known m i j
                    ∧ snd <$> filter (λ x, x.1 = mSocket dataSub) (connects log) = [ep j];
  tu_own : head = Some i ∨ n_connected (node m i) = 1%Z → n_connected s' = 1%Z }.

Lemma announce_turn m i c st s' log :
  inv m → i < N → hello c →
  zmqBridgeMamaTransportImpl_sendEndpointsMsg H (rc i) (prog i) (host i) (pid i) c (node m i)
  = Some (st, s', log) →
  turn m i (queue m i) s' log None [peer_bytes i c].
Proof using Hok.
  intros Hinv Hi Hc Hrun.
  destruct (announce_run i _ c st s' log Hi (iv_self m Hinv i Hi) Hrun) as ([n ->] & Hcn & Hsn).
  split; try (by auto); cbn [n_peers n_connected set_calls].
  - apply (iv_self m Hinv i Hi).
  - rewrite Hsn. by rewrite filter_cons_True.
  - right. by exists c.
  - left. by rewrite Hcn.
  - intros [?|?]; done.
Qed.

Lemma receive_turn m i data rest st s' log :
  inv m → i < N → queue m i = data :: rest →
  zmqBridgeMamaTransportImpl_dispatchNamingMsg H (rc i) (prog i) (host i) (pid i) true 0 data (node m i)
  = Some (st, s', log) →
  ∃ head ds, turn m i rest s' log head ds ∧ (ds = [] ∨ ∃ j, head = Some j ∧ ¬ known m i j).
Proof using Hok StrTableLaws0.
  intros Hinv Hi Hq Hrun.
  assert (∀ d, d ∈ rest → d ∈ queue m i) as Hrest by (intros d; rewrite Hq; by right).
  destruct (iv_msgs m Hinv i data Hi) as [->|(j & c & Hj & Hc & Hh & ->)]; [rewrite Hq; by left| |].
  - destruct (wp_elim _ _ _ _ _ _ (welcome_wp i _) Hrun) as (Hs & Hp & Hn & Hcn & Hsn).
    exists None, []. split; [|by left]. split; try (by auto); rewrite ?Hp, ?Hn; try (by auto).
    + by eapply self_same; [apply (iv_self m Hinv)|].
    + intros d. rewrite Hq. intros [->|?]%elem_of_cons; auto.
    + by rewrite Hsn.
    + left. rewrite Hcn. destruct (iv_self m Hinv i Hi) as (_ & _ & _ & ->).
      rewrite filter_cons_False; [done|]. intros E. by apply (mo_socks Hok).
    + intros [?|?]; done.
  - destruct (peer_run i j _ c st s' log Hi Hj Hc (iv_self m Hinv i Hi) Hrun) as (Hs & Hn & Hcase).
    assert (∀ d, d ∈ queue m i →
      d ∈ rest ∨ d = naming_bytes H welcome ∨ ∃ j0 c0, Some j = Some j0 ∧ d = peer_bytes j0 c0) as Hqq.
    { intros d. rewrite Hq. intros [->|?]%elem_of_cons; [right; right; by exists j, c|by left]. }
    destruct Hcase as [(Hk & -> & Hp)|(Hk & Hcn & Hsn & Hl)].
    + exists (Some j), []. split; [|by left]. split; try (by auto); rewrite ?Hp; try (by auto).
      * intros j0 [= <-]. done.
      * intros j0 [= <-] Hnk. by destruct Hnk.
      * intros [[= <-]|?]; apply Hn; auto.
    + assert (¬ known m i j) as Hnk by (unfold known; rewrite Hk; by intros [? ?]).
      exists (Some j), [peer_bytes i x43]. split; [|right; by exists j]. split; try (by auto).
      * intros j0 [= <-]. split_and!; [done|done|]. rewrite (Hl (uuid j)), decide_True by done. by eexists.
      * intros k. rewrite (Hl k). case_decide as E; [|by left]. intros _. right. by exists j.
      * intros k. rewrite (Hl k). case_decide; [by eexists|done].
      * rewrite Hsn. by rewrite filter_cons_True.
      * right. exists x43. split; [by left|done].
      * right. exists j. split_and!; [done|done|]. rewrite Hcn. by rewrite filter_cons_True.
      * intros [[= <-]|?]; apply Hn; auto.
Qed.

(** The state after a turn, field by field. *)
Record after (m : mesh) (i : nat) (rest : list (list byte)) (s' : naming T) (log : list nobs)
    (ds : list (list byte)) (m' : mesh) : Prop := {
  af_node j : node m' j = if decide (i = j) then s' else node m j;
  af_queue j d : d ∈ queue m' j ↔
    d ∈ (if decide (i = j) then rest else queue m j)
    ∨ (linked m i = true ∧ joined m j = true ∧ d ∈ ds);
  af_joined : joined m' = joined m;
  af_linked : linked m' = linked m;
  af_heard j : heard m' j = true ↔ heard m j = true ∨ (j = i ∧ linked m i = true ∧ ds ≠ []);
  af_conns j : conns m' j = if decide (i = j) then conns m i ++ connects log else conns m j }.

Lemma ran_after m m1 i rest s' log head ds :
  turn m i rest s' log head ds →
  node m1 = node m → joined m1 = joined m → linked m1 = linked m → heard m1 = heard m →
  conns m1 = conns m → (∀ j, queue m1 j = if decide (i = j) then rest else queue m j) →
  after m i rest s' log ds (ran i s' log m1).
Proof using Type.
  intros Ht En Ej El Eh Ec Eq. unfold ran, deliver. rewrite (tu_sent _ _ _ _ _ _ _ Ht).
  cbn [linked]. rewrite El. destruct (linked m i) eqn:Eli.
  - split; cbn [node queue joined linked heard conns]; rewrite ?En, ?Ej, ?Ec; unfold upd; try done.
    + intros j d. rewrite Eq. destruct (joined m j) eqn:Ejj.
      * rewrite elem_of_app. tauto.
      * split; [by left|intros [?|(_ & ? & _)]; done].
    + intros j. rewrite Eh. destruct ds as [|d ds].
      * split; [by left|intros [?|(_ & _ & ?)]; done].
      * case_decide; subst; [|split; [by left|intros [?|(-> & _)]; done]]. split; [|done].
        intros _. by right.
  - split; cbn [node queue joined linked heard conns]; rewrite ?En, ?Ej, ?El, ?Eh, ?Ec; unfold upd; try done.
    + intros j d. rewrite Eq, Eli. split; [by left|intros [?|(? & _)]; done].
    + intros j. rewrite Eli. split; [by left|intros [?|(_ & ? & _)]; done].
Qed.

(** Who is known and what is in flight after a turn. *)
Section Turn.

Context (m m' : mesh) (i : nat) (rest : list (list byte)) (s' : naming T) (log : list nobs)
  (head : option nat) (ds : list (list byte)).
Context (Hinv : inv m) (Hi : i < N) (Ht : turn m i rest s' log head ds) (Ha : after m i rest s' log ds m').

Lemma known_after_keep a b : known m a b → known m' a b.
Proof using Hok Hinv Hi Ht Ha.
  unfold known. rewrite (af_node _ _ _ _ _ _ _ Ha). case_decide; [subst|done].
  apply (tu_keep _ _ _ _ _ _ _ Ht).
Qed.

Lemma known_after_head b : head = Some b → known m' i b.
Proof using Hok Hinv Hi Ht Ha.
  intros E. unfold known. rewrite (af_node _ _ _ _ _ _ _ Ha), decide_True by done.
  by apply (tu_head _ _ _ _ _ _ _ Ht).
Qed.

Lemma known_after a b : b < N → known m' a b → known m a b ∨ (a = i ∧ head = Some b).
Proof using Hok Hinv Hi Ht Ha.
  intros Hb. unfold known. rewrite (af_node _ _ _ _ _ _ _ Ha). case_decide; [subst a|by left].
  intros Hk. destruct (tu_known _ _ _ _ _ _ _ Ht _ Hk) as [?|(j & E & Eu)]; [by left|right].
  split; [done|]. rewrite (mo_inj Hok b j Hb); [done| |done]. by apply (tu_head _ _ _ _ _ _ _ Ht).
Qed.

Lemma flight_after a b :
  b < N → flight m a b → flight m' a b ∨ (a = i ∧ head = Some b).
Proof using Hok Hinv Hi Ht Ha.
  intros Hb (c & Hc & Hin). destruct (decide (i = a)) as [<-|Hne].
  - destruct (tu_queue _ _ _ _ _ _ _ Ht _ Hin) as [Hr|[Hw|(j & c' & E & Ed)]].
    + left. exists c. split; [done|]. apply (af_queue _ _ _ _ _ _ _ Ha). left. by rewrite decide_True.
    + by apply peer_not_welcome in Hw.
    + right. split; [done|]. rewrite (peer_bytes_inj b j c c' Hb); [done| |done].
      by apply (tu_head _ _ _ _ _ _ _ Ht).
  - left. exists c. split; [done|]. apply (af_queue _ _ _ _ _ _ _ Ha). left. by rewrite decide_False.
Qed.

(** What [i] sends reaches every subscriber. *)
Lemma flight_sent a : ds ≠ [] → linked m i = true → joined m a = true → flight m' a i.
Proof using Hok Hinv Hi Ht Ha.
  intros Hne Hl Hj. destruct (tu_ds _ _ _ _ _ _ _ Ht) as [?|(c & Hc & ->)]; [done|].
  exists c. split; [done|]. apply (af_queue _ _ _ _ _ _ _ Ha). right. split_and!; [done|done|by left].
Qed.

Lemma unheard_unknown a b : a < N → b < N → heard m b = false → ¬ known m a b.
Proof using Hok Hinv Hi Ht Ha.
  intros Ha' Hb Hh Hk. destruct (iv_known m Hinv a _ Ha' Hk) as (j & Hj & Hhj & E).
  apply (mo_inj Hok) in E; [|done|done]. by subst; rewrite Hh in Hhj.
Qed.

Lemma heard_joined a : heard m a = true → joined m a = true.
Proof using Hok Hinv Hi Ht Ha. intros. by apply (iv_joined m Hinv), (iv_heard m Hinv). Qed.

(** The heart of the argument: two transports that were heard find each
    other, or a message that will make them is still on its way. *)
Lemma pair_after a b :
  a < N → b < N → heard m' a = true → heard m' b = true → paired m' a b.
Proof using Hok Hinv Hi Ht Ha.
  intros HaN HbN Hha Hhb. unfold paired.
  apply (af_heard _ _ _ _ _ _ _ Ha) in Hha. apply (af_heard _ _ _ _ _ _ _ Ha) in Hhb.
  assert (heard m a = true → joined m a = true) as Hja by apply heard_joined.
  (* b heard for the first time: its message reaches a *)
  destruct Hhb as [Hhb|(-> & Hl & Hne)].
  2: { right; left. apply flight_sent; [done|done|]. destruct Hha as [?|(-> & _)]; [auto|].
       by apply (iv_joined m Hinv). }
  destruct (heard m a) eqn:Eha.
  - destruct (iv_pair m Hinv a b HaN HbN Eha Hhb) as [Hk|[Hf|[Hnk Hf]]].
    + left. by apply known_after_keep.
    + destruct (flight_after a b HbN Hf) as [?|[-> ?]]; [by right; left|].
      left. by apply known_after_head.
    + (* b may now learn a, and then answers *)
      destruct (decide (b = i ∧ head = Some a)) as [[-> Eh]|Hnot].
      * right; left. apply flight_sent; [|by apply (iv_heard m Hinv)|auto].
        by apply (tu_answer _ _ _ _ _ _ _ Ht a).
      * right; right. split.
        -- intros Hk. destruct (known_after b a HaN Hk) as [?|[-> ?]]; [done|]. by apply Hnot.
        -- destruct (flight_after b a HaN Hf) as [?|[-> ?]]; [done|]. exfalso. by apply Hnot.
  - (* a heard for the first time: b will hear it, and does not know it yet *)
    destruct Hha as [?|(-> & Hl & Hne)]; [done|]. right; right. split.
    + intros Hk. destruct (known_after b i HaN Hk) as [Hk'|[-> _]].
      * by apply (unheard_unknown b i).
      * by rewrite Hhb in Eha.
    + apply flight_sent; [done|done|]. by apply heard_joined.
Qed.

(** New connects go to newly known peers. *)
Lemma conns_after a :
  a < N → ∃ l, NoDup l ∧ (∀ j, j ∈ l ↔ j < N ∧ known m' a j) ∧ data_connects m' a = ep <$> l.
Proof using Hok Hinv Hi Ht Ha.
  intros HaN. destruct (iv_conns m Hinv a HaN) as (l & Hnd & Hl & Hc).
  unfold data_connects in *. rewrite (af_conns _ _ _ _ _ _ _ Ha).
  destruct (decide (i = a)) as [<-|Hne].
  2: { exists l. split_and!; [done| |done]. intros j. rewrite Hl. unfold known.
       by rewrite (af_node _ _ _ _ _ _ _ Ha), decide_False. }
  rewrite filter_app, fmap_app, Hc.
  destruct (tu_conns _ _ _ _ _ _ _ Ht) as [[-> Hback]|(j & Eh & Hnk & ->)].
  - exists l. rewrite app_nil_r. split_and!; [done| |done]. intros j. rewrite Hl. split.
    + intros [? ?]. split; [done|]. by apply known_after_keep.
    + intros [? Hk]. split; [done|]. unfold known in Hk.
      rewrite (af_node _ _ _ _ _ _ _ Ha), decide_True in Hk by done. by apply Hback.
  - exists (l ++ [j]). rewrite fmap_app. split_and!; [| |done].
    + apply NoDup_app. split_and!; [done| |apply NoDup_singleton].
      intros x Hx ->%list_elem_of_singleton. apply Hnk. by apply Hl.
    + intros x. rewrite elem_of_app, list_elem_of_singleton, Hl. split.
      * intros [[? ?]| ->]; [split; [done|by apply known_after_keep]|].
        split; [by apply (tu_head _ _ _ _ _ _ _ Ht)|by apply known_after_head].
      * intros [Hx Hk]. destruct (known_after i x Hx Hk) as [?|[_ ?]]; [by left|right]. congruence.
Qed.

Lemma inv_after : inv m'.
Proof using Hok Hinv Hi Ht Ha.
  split.
  - intros a HaN. rewrite (af_node _ _ _ _ _ _ _ Ha). case_decide; [subst|by apply (iv_self m Hinv)].
    apply (tu_self _ _ _ _ _ _ _ Ht).
  - intros a d HaN Hd. apply (af_queue _ _ _ _ _ _ _ Ha) in Hd.
    assert (∀ j, heard m j = true → heard m' j = true) as Hmono
      by (intros; apply (af_heard _ _ _ _ _ _ _ Ha); by left).
    assert (d ∈ queue m a ∨ (linked m i = true ∧ d ∈ ds)) as [Hin|[Hl Hin]].
    { destruct Hd as [Hd|(? & _ & ?)]; [left|by right]. case_decide; [subst|done].
      by apply (tu_rest _ _ _ _ _ _ _ Ht). }
    + destruct (iv_msgs m Hinv a d HaN Hin) as [?|(j & c & ? & ? & ? & ?)]; [by left|right].
      exists j, c. auto.
    + right. destruct (tu_ds _ _ _ _ _ _ _ Ht) as [E|(c & Hc & E)]; [by rewrite E in Hin; apply elem_of_nil in Hin|].
      rewrite E in Hin. apply list_elem_of_singleton in Hin. exists i, c. split_and!; [done|done| |done].
      apply (af_heard _ _ _ _ _ _ _ Ha). right. by rewrite E.
  - intros a. rewrite (af_joined _ _ _ _ _ _ _ Ha), (af_linked _ _ _ _ _ _ _ Ha). apply (iv_joined m Hinv).
  - intros a. rewrite (af_linked _ _ _ _ _ _ _ Ha). intros Hh. apply (af_heard _ _ _ _ _ _ _ Ha) in Hh.
    destruct Hh as [?|(-> & ? & _)]; [by apply (iv_heard m Hinv)|done].
  - intros a k HaN Hk. rewrite (af_node _ _ _ _ _ _ _ Ha) in Hk.
    assert (∃ j, j < N ∧ heard m j = true ∧ k = uuid j) as (j & ? & ? & ?).
    { case_decide; [subst a|by apply (iv_known m Hinv a)].
      destruct (tu_known _ _ _ _ _ _ _ Ht k Hk) as [?|(j & E & ->)]; [by apply (iv_known m Hinv i)|].
      exists j. split_and!; [..|done]; by apply (tu_head _ _ _ _ _ _ _ Ht). }
    exists j. split_and!; [done| |done]. apply (af_heard _ _ _ _ _ _ _ Ha). by left.
  - apply pair_after.
  - apply conns_after.
  - intros a HaN Hh. apply (af_heard _ _ _ _ _ _ _ Ha) in Hh. rewrite (af_node _ _ _ _ _ _ _ Ha).
    destruct Hh as [Hh|(-> & Hl & Hne)].
    2: { right. apply flight_sent; [done|done|]. by apply (iv_joined m Hinv). }
    destruct (iv_own m Hinv a HaN Hh) as [Hc|Hf].
    + left. case_decide; [subst|done]. apply (tu_own _ _ _ _ _ _ _ Ht). by right.
    + destruct (flight_after a a HaN Hf) as [?|[-> Eh]]; [by right|left].
      rewrite decide_True by done. apply (tu_own _ _ _ _ _ _ _ Ht). by left.
Qed.

End Turn.

Lemma receive_inv m m' : inv m → receive m m' → inv m'.
Proof using Hok StrTableLaws0.
  intros Hinv Hr. destruct Hr as [m i data rest st s' log Hi Hq Hrun].
  destruct (receive_turn m i data rest st s' log Hinv Hi Hq Hrun) as (head & ds & Ht & _).
  eapply inv_after; [done|done|exact Ht|]. eapply ran_after; [exact Ht|done..].
Qed.

(** A state that differs in who has subscribed or is linked. *)
Lemma step_inv m m' : inv m → step m m' → inv m'.
Proof using Hok StrTableLaws0.
  intros Hinv Hs. destruct Hs as [m i Hi Hj|m i Hi Hj|m i c st s' log Hi Hc Hrun|m m' Hr].
  - assert (linked m i = false) as Hnl.
    { destruct (linked m i) eqn:E; [|done]. by rewrite (iv_joined m Hinv i E) in Hj. }
    assert (∀ a b, b < N → heard m a = true → flight m a b →
      flight (mkMesh (node m) (upd (queue m) i [naming_bytes H welcome]) (upd (joined m) i true)
                (linked m) (heard m) (conns m)) a b) as Hfl.
    { intros a b Hb Hh (c & Hc & Hin). exists c. split; [done|]. cbn [queue]. unfold upd.
      rewrite decide_False; [done|]. intros <-. by rewrite (iv_heard m Hinv i Hh) in Hnl. }
    split; cbn [node queue joined linked heard conns]; try (by apply Hinv).
    + intros a d Ha. unfold upd. case_decide; [|by apply (iv_msgs m Hinv)].
      intros ->%list_elem_of_singleton. by left.
    + intros a Hl. unfold upd. case_decide; [done|]. by apply (iv_joined m Hinv).
    + intros a b Ha Hb Hha Hhb. destruct (iv_pair m Hinv a b Ha Hb Hha Hhb) as [?|[?|[? ?]]].
      * by left.
      * right; left. by apply Hfl.
      * right; right. split; [done|]. by apply Hfl.
    + intros a Ha Hh. destruct (iv_own m Hinv a Ha Hh) as [?|?]; [by left|right]. by apply Hfl.
  - split; cbn [node queue joined linked heard conns]; try (by apply Hinv).
    + intros a. unfold upd. case_decide; [by subst|]. apply (iv_joined m Hinv).
    + intros a Hh. unfold upd. case_decide; [done|]. by apply (iv_heard m Hinv).
  - pose proof (announce_turn m i c st s' log Hinv Hi Hc Hrun) as Ht.
    eapply inv_after; [done|done|exact Ht|]. eapply ran_after; [exact Ht|done..|].
    intros j. by case_decide; subst.
  - by eapply receive_inv.
Qed.

Lemma initial_inv m : initial m → inv m.
Proof using Type.
  intros Hm.
  assert (∀ i, heard m i = true → False) as Hh.
  { intros i. destruct (in_empty m Hm i) as (_ & _ & _ & -> & _). done. }
  split.
  - intros i Hi. by apply (in_self m Hm).
  - intros i d _. destruct (in_empty m Hm i) as (-> & _). by intros ?%elem_of_nil.
  - intros i. destruct (in_empty m Hm i) as (_ & _ & -> & _). done.
  - intros i ?%Hh. done.
  - intros i k Hi. rewrite (in_peers m Hm i k Hi). by intros [? ?].
  - intros i j _ _ ?%Hh. done.
  - intros i Hi. exists []. split_and!; [constructor| |].
    + intros j. split; [by intros ?%elem_of_nil|]. intros [_ Hk]. unfold known in Hk.
      rewrite (in_peers m Hm i _ Hi) in Hk. by destruct Hk.
    + unfold data_connects. destruct (in_empty m Hm i) as (_ & _ & _ & _ & ->). done.
  - intros i _ ?%Hh. done.
Qed.

Lemma reachable_inv m : reachable m → inv m.
Proof using Hok StrTableLaws0.
  intros (m0 & H0' & Hs). apply initial_inv in H0'. induction Hs; [done|].
  apply IHHs. by eapply step_inv.
Qed.

(** ** Coming to rest *)

(** Transports [i] does not know yet. *)
Definition unknown (m : mesh) (i : nat) : list nat :=
  filter (λ j, wtable_lookup (n_peers (node m i)) (uuid j) = None) (seq 0 N).

(** A bound of the messages that can still be received. *)
Definition load (m : mesh) (i : nat) : nat := length (queue m i) + (N + 1) * length (unknown m i).
Definition work (m : mesh) : nat := sum_list (load m <$> seq 0 N).

Lemma receive_work m m' : inv m → receive m m' → work m' < work m.
Proof using Hok StrTableLaws0.
  intros Hinv Hr. destruct Hr as [m i data rest st s' log Hi Hq Hrun].
  destruct (receive_turn m i data rest st s' log Hinv Hi Hq Hrun) as (head & ds & Ht & Hnew).
  pose proof (ran_after m (pop i rest m) i rest s' log head ds Ht eq_refl eq_refl eq_refl eq_refl
    eq_refl (λ j, eq_refl)) as Ha.
  set (m' := ran i s' log (pop i rest m)) in *.
  assert (∀ j, length (queue m' j) ≤ length (if decide (i = j) then rest else queue m j) + length ds) as Hlen.
  { intros j. subst m'. unfold ran, deliver. rewrite (tu_sent _ _ _ _ _ _ _ Ht). cbn [linked pop queue joined].
    destruct (linked m i); cbn [queue joined]; unfold upd; [|lia].
    destruct (joined m j); [rewrite length_app|]; lia. }
  assert (∀ j k, k ∈ seq 0 N → wtable_lookup (n_peers (node m' j)) (uuid k) = None →
    wtable_lookup (n_peers (node m j)) (uuid k) = None) as Hback.
  { intros j k _ Hn. destruct (wtable_lookup (n_peers (node m j)) (uuid k)) eqn:E; [|done].
    assert (known m' j k) as Hk.
    { eapply known_after_keep; [done|exact Hi|exact Ht|exact Ha|]. unfold known. rewrite E. by eexists. }
    unfold known in Hk. rewrite Hn in Hk. by destruct Hk. }
  assert (i ∈ seq 0 N) as Hin by (apply elem_of_seq; lia).
  destruct Hnew as [->|(j & Eh & Hnk)].
  - (* nothing sent *)
    enough (work m' + 1 ≤ work m + 0 * length (seq 0 N)) by (unfold work in *; lia).
    apply (sum_list_drop _ _ _ i); [|done|]; unfold load.
    + intros x _. specialize (Hlen x). cbn [length] in Hlen.
      assert (length (unknown m' x) ≤ length (unknown m x)) by (apply length_filter_le; auto).
      case_decide; subst; rewrite ?Hq in *; cbn [length] in *; nia.
    + specialize (Hlen i). rewrite decide_True in Hlen by done. rewrite Hq. cbn [length] in *.
      assert (length (unknown m' i) ≤ length (unknown m i)) by (apply length_filter_le; auto). nia.
  - (* a new peer *)
    assert (length ds ≤ 1) as Hds.
    { destruct (tu_ds _ _ _ _ _ _ _ Ht) as [->|(c & _ & ->)]; simpl; lia. }
    enough (work m' + (N + 2) ≤ work m + 1 * length (seq 0 N)) as Hw
      by (rewrite length_seq in Hw; unfold work in *; lia).
    apply (sum_list_drop _ _ _ i); [|done|]; unfold load.
    + intros x _. specialize (Hlen x).
      assert (length (unknown m' x) ≤ length (unknown m x)) by (apply length_filter_le; auto).
      case_decide; subst; rewrite ?Hq in *; cbn [length] in *; nia.
    + specialize (Hlen i). rewrite decide_True in Hlen by done. rewrite Hq. cbn [length] in *.
      destruct (tu_head _ _ _ _ _ _ _ Ht j Eh) as (Hj & _ & Hkj).
      assert (length (unknown m' i) < length (unknown m i)).
      { apply (length_filter_less _ _ _ j); [auto|apply elem_of_seq; lia| |].
        - unfold known in Hnk. by apply eq_None_not_Some.
        - pose proof (known_after_head m m' i rest s' log head ds Hinv Hi Ht Ha j Eh) as Hk.
          unfold known in Hk. intros E. rewrite E in Hk. by destruct Hk. }
      nia.
Qed.

(** A message that has arrived can be received. *)
Lemma receive_progress m i data rest :
  inv m → i < N → queue m i = data :: rest → ∃ m', receive m m'.
Proof using Hok StrTableLaws0.
  intros Hinv Hi Hq.
  enough (∃ st s' log,
    zmqBridgeMamaTransportImpl_dispatchNamingMsg H (rc i) (prog i) (host i) (pid i) true 0 data (node m i)
    = Some (st, s', log)) as (st & s' & log & Hrun) by (eexists; by eapply do_receive).
  destruct (iv_msgs m Hinv i data Hi) as [->|(j & c & Hj & Hc & _ & ->)]; [rewrite Hq; by left| |].
  - destruct (proj1 (wp_run _ _ _) (welcome_wp i (node m i))) as (st & s' & log & E & _).
    by exists st, s', log.
  - destruct (proj1 (wp_run _ _ _) (dispatch_connect_wp H (rc i) (prog i) (host i) (pid i)
      true 0 (node m i) (ep i) (peer_msg j c)
      (self_valid i _ Hi (iv_self m Hinv i Hi)) (peer_fits j c Hj) Hc)) as (st & s' & log & E & _).
    by exists st, s', log.
Qed.

Lemma quiescent_or m : quiescent m ∨ ∃ i data rest, i < N ∧ queue m i = data :: rest.
Proof using Type.
  destruct (decide (Forall (λ i, queue m i = []) (seq 0 N))) as [Hall|Hnot].
  - left. intros i Hi. rewrite Forall_forall in Hall. apply Hall, elem_of_seq. lia.
  - right. apply not_Forall_Exists, Exists_exists in Hnot as (i & Hin & Hq); [|apply _].
    apply elem_of_seq in Hin. destruct (queue m i) as [|data rest] eqn:E; [done|].
    exists i, data, rest. split; [lia|done].
Qed.

Lemma settle m : inv m → ∃ m', rtc receive m m' ∧ quiescent m'.
Proof using Hok StrTableLaws0.
  remember (work m) as w eqn:Ew. revert m Ew.
  induction w as [w IH] using lt_wf_ind. intros m Ew Hinv.
  destruct (quiescent_or m) as [?|(i & data & rest & Hi & Hq)]; [by exists m|].
  destruct (receive_progress m i data rest Hinv Hi Hq) as (m1 & Hr).
  destruct (IH (work m1)) with (m := m1) as (m' & Hm' & Hquiet).
  - subst w. by apply receive_work.
  - done.
  - by eapply receive_inv.
  - exists m'. split; [by eapply rtc_l|done].
Qed.

Lemma receive_bounded m m' k : inv m → nsteps receive k m m' → k + work m' ≤ work m.
Proof using Hok StrTableLaws0.
  intros Hinv Hk. induction Hk as [m|k m m1 m' Hr Hk IH]; [lia|].
  pose proof (receive_work m m1 Hinv Hr). specialize (IH (receive_inv m m1 Hinv Hr)). lia.
Qed.

(** Transports that start one after the other, and then are all heard. *)
Lemma announce_progress m i c :
  inv m → i < N → hello c → linked m i = true →
  ∃ m', step m m' ∧ joined m' = joined m ∧ linked m' = linked m
    ∧ (∀ j, heard m' j = true ↔ heard m j = true ∨ j = i).
Proof using Hok.
  intros Hinv Hi Hc Hl.
  destruct (proj1 (wp_run _ _ _) (send_wp H (rc i) (prog i) (host i) (pid i) c (node m i) (ep i)
    (self_valid i _ Hi (iv_self m Hinv i Hi)))) as (st & s' & log & Hrun & _).
  exists (ran i s' log m). split; [by eapply do_announce|].
  pose proof (announce_turn m i c st s' log Hinv Hi Hc Hrun) as Ht.
  assert (after m i (queue m i) s' log [peer_bytes i c] (ran i s' log m)) as Ha.
  { eapply ran_after; [exact Ht|done..|]. intros j. by case_decide; subst. }
  split_and!; [apply Ha..|]. intros j. rewrite (af_heard _ _ _ _ _ _ _ Ha). rewrite Hl.
  split; [intros [?|(? & _)]; auto|]. intros [?|?]; auto.
Qed.

Lemma start_all m0 k :
  initial m0 → k ≤ N →
  ∃ m, rtc step m0 m ∧ (∀ i, i < k → heard m i = true) ∧ (∀ i, k ≤ i → joined m i = false).
Proof using Hok StrTableLaws0.
  intros H0'. induction k as [|k IH]; intros Hk.
  { exists m0. split_and!; [done|lia|]. intros i _. apply (in_empty m0 H0' i). }
  destruct IH as (m & Hs & Hh & Hj); [lia|].
  pose proof (do_join m k ltac:(lia) (Hj k ltac:(lia))) as Hs1.
  set (m1 := mkMesh _ _ _ _ _ _) in Hs1.
  assert (joined m1 k = true) as Hj1 by (subst m1; cbn; unfold upd; by rewrite decide_True).
  pose proof (do_link m1 k ltac:(lia) Hj1) as Hs2. set (m2 := mkMesh _ _ _ _ _ _) in Hs2.
  assert (rtc step m0 m2) as Hr2 by (eapply rtc_r; [eapply rtc_r; [exact Hs|exact Hs1]|exact Hs2]).
  assert (inv m2) as Hinv2 by (apply reachable_inv; by exists m0).
  destruct (announce_progress m2 k x43 Hinv2) as (m3 & Hs3 & Ej & _ & Eh); [lia|by left| |].
  { subst m2. cbn. unfold upd. by rewrite decide_True. }
  exists m3. split_and!; [by eapply rtc_r| |].
  - intros i Hi. apply Eh. destruct (decide (i = k)) as [|Hne]; [by right|left].
    subst m2 m1. cbn. apply Hh. lia.
  - intros i Hi. rewrite Ej. subst m2 m1. cbn. unfold upd. rewrite decide_False by lia. apply Hj. lia.
Qed.

Lemma receive_heard m m' i : inv m → receive m m' → heard m i = true → heard m' i = true.
Proof using Hok StrTableLaws0.
  intros Hinv Hr Hh. destruct Hr as [m a data rest st s' log Ha Hq Hrun].
  destruct (receive_turn m a data rest st s' log Hinv Ha Hq Hrun) as (head & ds & Ht & _).
  apply (af_heard m a rest s' log ds); [|by left]. eapply ran_after; [exact Ht|done..].
Qed.

Lemma all_meet m0 :
  initial m0 → ∃ m, reachable m ∧ quiescent m ∧ ∀ i, i < N → heard m i = true.
Proof using Hok StrTableLaws0.
  intros H0'. destruct (start_all m0 N H0' ltac:(lia)) as (m & Hs & Hh & _).
  assert (inv m) as Hinv by (apply reachable_inv; by exists m0).
  destruct (settle m Hinv) as (m' & Hr & Hq). exists m'.
  enough (rtc step m m' ∧ (∀ i, i < N → heard m' i = true)) as [Hs' Hh'].
  { split; [exists m0; split; [done|by etrans]|done]. }
  clear Hq Hs. induction Hr as [m|m m1 m' Hr1 Hr IH]; [by split|].
  destruct IH as [Hs2 Hh2].
  - intros i Hi. eapply receive_heard; eauto.
  - by eapply receive_inv.
  - split; [eapply rtc_l; [by apply do_recv|done]|done].
Qed.

(** C3: the full mesh.  Whatever the order in which transports subscribe,
    reach the proxy, announce themselves and receive, when every transport
    has been heard and no naming message is on its way, every transport has
    connected its data socket to the endpoint of every transport, itself
    included, exactly once, and knows that it is connected to the proxy. *)
Theorem full_mesh m :
  reachable m → quiescent m → (∀ i, i < N → heard m i = true) →
  ∀ i, i < N → data_connects m i ≡ₚ ep <$> seq 0 N ∧ n_connected (node m i) = 1%Z.
Proof using Hok StrTableLaws0.
  intros Hr Hq Hall i Hi. apply reachable_inv in Hr as Hinv.
  assert (∀ a b, a < N → ¬ flight m a b) as Hnf.
  { intros a b Ha (c & _ & Hin). rewrite (Hq a Ha) in Hin. by apply elem_of_nil in Hin. }
  split.
  - destruct (iv_conns m Hinv i Hi) as (l & Hnd & Hl & ->). apply fmap_Permutation.
    apply NoDup_Permutation; [done|apply NoDup_seq|]. intros j. rewrite Hl, elem_of_seq.
    split; [lia|]. intros Hj. split; [lia|].
    destruct (iv_pair m Hinv i j Hi ltac:(lia) (Hall i Hi) (Hall j ltac:(lia))) as [?|[Hf|[_ Hf]]];
      [done|by apply Hnf in Hf|apply Hnf in Hf; [done|lia]].
  - destruct (iv_own m Hinv i Hi (Hall i Hi)) as [?|Hf]; [done|]. by apply Hnf in Hf.
Qed.

(** C10: discovery comes to rest.  From every reachable state, receiving the
    messages on their way, and the answers they cause, takes a bounded
    number of steps, after which nothing is on its way. *)
Theorem discovery_settles m :
  reachable m →
  (∃ m', rtc receive m m' ∧ quiescent m')
  ∧ (∀ k m', nsteps receive k m m' → k ≤ work m).
Proof using Hok StrTableLaws0.
  intros Hr%reachable_inv. split; [by apply settle|].
  intros k m' Hk. pose proof (receive_bounded m m' k Hr Hk). lia.
Qed.

End Mesh.

(** ** Two transports and their proxy *)

Definition demo_uuid (i : nat) : list byte := match i with 0 => uuid_a | _ => uuid_b end.
Definition demo_ep (i : nat) : list byte := match i with 0 => ep_a | _ => ep_b end.
Definition demo_welcome : zmqNamingMsg :=
  Nsd.welcomeMsg MAXHOST (lit "nsd") (lit "host") 7 (lit "tcp://10.0.0.9:4999").
Definition demo_mesh : mesh (T := gmap (list byte) (list byte)) :=
  mkMesh (λ i, demo_node (demo_uuid i) (demo_ep i)) (λ _, []) (λ _, false) (λ _, false) (λ _, false) (λ _, []).

Lemma demo_mesh_ok :
  mesh_ok (T := gmap (list byte) (list byte)) MAXHOST 2 demo_uuid demo_ep (λ _ _, ok_answer)
    (mkSocket 1 101 0) (mkSocket 3 103 0) demo_welcome.
Proof.
  split.
  - intros [|[|i]] Hi; [by_decide|by_decide|lia].
  - intros [|[|i]] Hi; [by_decide|by_decide|lia].
  - intros [|[|i]] [|[|j]] Hi Hj E; try lia; by vm_compute in E.
  - done.
  - split; [|done]. apply Nsd.welcome_fits. by_decide.
  - by intros i n c.
  - done.
Qed.

Lemma demo_mesh_initial :
  initial (T := gmap (list byte) (list byte)) 2 demo_uuid demo_ep (mkSocket 1 101 0) (mkSocket 3 103 0)
    demo_mesh.
Proof. split; done. Qed.

Lemma full_mesh_witness :
  ∃ m, reachable (T := gmap (list byte) (list byte)) MAXHOST 2 demo_uuid demo_ep (λ _, lit "prog")
         (λ _, lit "host") (λ _, 42%Z) (λ _ _, ok_answer) (mkSocket 1 101 0) (mkSocket 3 103 0)
         demo_welcome m
    ∧ data_connects (mkSocket 1 101 0) m 0 ≡ₚ [ep_a; ep_b]
    ∧ data_connects (mkSocket 1 101 0) m 1 ≡ₚ [ep_a; ep_b].
Proof.
  destruct (all_meet MAXHOST 2 demo_uuid demo_ep (λ _, lit "prog") (λ _, lit "host") (λ _, 42%Z)
    (λ _ _, ok_answer) _ _ demo_welcome demo_mesh_ok demo_mesh demo_mesh_initial) as (m & Hr & Hq & Hh).
  exists m. split; [exact Hr|].
  pose proof (full_mesh MAXHOST 2 demo_uuid demo_ep (λ _, lit "prog") (λ _, lit "host") (λ _, 42%Z)
    (λ _ _, ok_answer) _ _ demo_welcome demo_mesh_ok m Hr Hq Hh) as Hall.
  split; [apply (Hall 0); lia|apply (Hall 1); lia].
Defined.

Lemma discovery_settles_witness :
  ∃ m, rtc (receive (T := gmap (list byte) (list byte)) MAXHOST 2 (λ _, lit "prog") (λ _, lit "host")
              (λ _, 42%Z) (λ _ _, ok_answer) (mkSocket 3 103 0)) demo_mesh m
    ∧ quiescent 2 m.
Proof.
  apply (discovery_settles MAXHOST 2 demo_uuid demo_ep (λ _, lit "prog") (λ _, lit "host") (λ _, 42%Z)
    (λ _ _, ok_answer) _ _ demo_welcome demo_mesh_ok demo_mesh).
  exists demo_mesh. split; [exact demo_mesh_initial|constructor].
Defined.
