(* ===== verification/CDouble.v ===== *)
(** * Doubles of C: binary64, [atof], [sprintf("%f")], conversion to integers

    Values are those of the Standard Library's executable specification of
    IEEE 754 binary64.  [atof] reads decimal numbers (digits, fraction,
    exponent) with correct rounding; [None] stands for the other syntaxes of
    [strtod] (hexadecimal, infinities, NaN). *)

From Stdlib Require Import SpecFloat.
From S2P Require Import Prelude CLib CNum.

Local Open Scope Z_scope.

Definition double : Type := spec_float.

Definition dmul (x y : double) : double := SFmul 53 1024 x y.
Definition dsub (x y : double) : double := SFsub 53 1024 x y.
Definition dlt (x y : double) : bool := SFltb x y.

(** The double nearest to [m * 10^k], with the sign [neg] for zero. *)
Definition of_decimal (neg : bool) (m : Z) (k : Z) : double :=
  match m with
  | Zpos p =>
      if decide (0 <= k) then binary_round 53 1024 neg (p * Z.to_pos (10 ^ k)) 0
      else SFdiv 53 1024 (S754_finite neg p 0) (S754_finite false (Z.to_pos (10 ^ (- k))) 0)
  | _ => S754_zero neg
  end.

(** An integer constant of the program. *)
Definition dint (z : Z) : double := of_decimal (bool_decide (z < 0)) (Z.abs z) 0.

(** ** Reading *)

Fixpoint span_digits (s : list byte) : list byte * list byte :=
  match s with
  | b :: s' => match digit_val b with
               | Some _ => let '(ds, rest) := span_digits s' in (b :: ds, rest)
               | None => ([], s)
               end
  | [] => ([], [])
  end.

(** An optional exponent. *)
Definition read_exponent (s : list byte) : Z :=
  match s with
  | b :: s' =>
      if decide (b = x65 ∨ b = x45) then
        match s' with
        | c :: s'' =>
            if decide (c = x2d) then - read_digits 0 s''
            else if decide (c = x2b) then read_digits 0 s'' else read_digits 0 s'
        | [] => 0
        end
      else 0
  | [] => 0
  end.

(** Digits, fraction and exponent. *)
Definition read_decimal (neg : bool) (s : list byte) : double :=
  let '(ip, r1) := span_digits s in
  let '(fp, r2) := match r1 with
                   | b :: r => if decide (b = x2e) then span_digits r else ([], r1)
                   | [] => ([], [])
                   end in
  if decide (ip ++ fp = []) then S754_zero false
  else of_decimal neg (read_digits 0 (ip ++ fp)) (read_exponent r2 - Z.of_nat (length fp)).

(** Whether [s] starts one of the syntaxes left out. *)
Definition other_syntax (s : list byte) : bool :=
  match s with
  | b :: c :: _ => bool_decide (b ∈ lit "iInN") || (bool_decide (b = x30) && bool_decide (c ∈ lit "xX"))
  | _ => false
  end.

Definition atof (s : list byte) : option double :=
  match skip_spaces s with
  | b :: s' =>
      let neg := bool_decide (b = x2d) in
      let body := if neg || bool_decide (b = x2b) then s' else b :: s' in
      if other_syntax body then None else Some (read_decimal neg body)
  | [] => Some (S754_zero false)
  end.

(** ** Printing with six decimals, rounding half to even *)

Definition round_half_even (n d : Z) : Z :=
  let q := n / d in
  match Z.compare (2 * (n mod d)) d with
  | Lt => q
  | Gt => q + 1
  | Eq => if Z.even q then q else q + 1
  end.

Definition zero_pad (n : nat) (s : list byte) : list byte := replicate (n - length s) x30 ++ s.

Definition sprintf_f (x : double) : option (list byte) :=
  let show neg n :=
    (if neg : bool then [x2d] else []) ++ udec 320 (n / 1000000) ++ x2e :: zero_pad 6 (udec 6 (n mod 1000000)) in
  match x with
  | S754_zero neg => Some (show neg 0)
  | S754_finite neg m e =>
      let n := if decide (0 <= e) then Zpos m * 2 ^ e * 1000000
               else round_half_even (Zpos m * 1000000) (2 ^ (- e)) in
      Some (show neg n)
  | _ => None
  end.

(** ** Conversion to an integer type of [w] bits: truncation *)

Definition trunc (x : double) : option Z :=
  match x with
  | S754_zero _ => Some 0
  | S754_finite neg m e =>
      let n := if decide (0 <= e) then Zpos m * 2 ^ e else Zpos m / 2 ^ (- e) in
      Some (if neg : bool then - n else n)
  | _ => None
  end.

(** Undefined when the value is out of range. *)
Definition to_int32 (x : double) : option Z :=
  z ← trunc x; if in_range 32 z then Some z else None.
Definition to_int64 (x : double) : option Z :=
  z ← trunc x; if in_range 64 z then Some z else None.
Definition to_uint32 (x : double) : option Z :=
  z ← trunc x; if decide (0 <= z < 2 ^ 32) then Some z else None.

(** A comparison is never true of equal finite numbers. *)
Lemma dlt_irrefl x : dlt x x = false.
Proof.
  unfold dlt, SFltb, SFcompare. destruct x as [s|s| |s m e]; try done.
  - by destruct s.
  - destruct s; rewrite Z.compare_refl, Pos.compare_refl; done.
Qed.
