(* ===== verification/Params.v ===== *)
(** * Configuration (src/src/params.c)

    The parameters of a transport come from OpenMAMA's property store, a
    function from names to values; values are parsed with the C library's
    [atoi], [atoll] and [atof], clamped, and converted. *)

From S2P Require Import Prelude CLib CNum CDouble Util.
Import ZU.

Module Params.

Section Params.

(** [properties_Get] of mama.properties. *)
Context (properties_Get : list byte → option (list byte)).

(** ** Lookup *)

Definition PARAM_NAME_MAX_LENGTH : nat := 1024.
Definition TPORT_PARAM_PREFIX : list byte := lit "mama.zmq.transport".
Definition TPORT_PARAM_OUTGOING_URL : list byte := lit "outgoing_url".
Definition TPORT_PARAM_INCOMING_URL : list byte := lit "incoming_url".

(** The formatted name is cut to the array ([vsnprintf]). *)
Definition zmqBridgeMamaTransportImpl_getParameterWithVaList (defaultVal : option (list byte))
    (name : list byte) : option (list byte) :=
  match properties_Get (take (PARAM_NAME_MAX_LENGTH - 1) name) with
  | None => defaultVal
  | Some v => Some v
  end.

Definition zmqBridgeMamaTransportImpl_getParameter (defaultVal : option (list byte))
    (name : list byte) : option (list byte) :=
  zmqBridgeMamaTransportImpl_getParameterWithVaList defaultVal name.

(** ["%s.%s.%s"]. *)
Definition param_name (name property : list byte) : list byte :=
  TPORT_PARAM_PREFIX ++ lit "." ++ name ++ lit "." ++ property.

(** Numbers; [None] where the conversion is undefined. *)
Definition getInt (name property : list byte) (defaultValue minValue : Z) : option Z :=
  result ← zmqBridgeMamaTransportImpl_getParameter (Some (dec defaultValue)) (param_name name property);
  temp ← atoi result;
  let temp := if decide (0 <= minValue ∧ temp < 0)%Z then 0%Z else temp in
  Some (if decide (0 < temp ∧ temp < minValue)%Z then minValue else temp).

Definition getLong (name property : list byte) (defaultValue minValue : Z) : option Z :=
  result ← zmqBridgeMamaTransportImpl_getParameter (Some (dec defaultValue)) (param_name name property);
  temp ← atoll result;
  let temp := if decide (0 <= minValue ∧ temp < 0)%Z then 0%Z else temp in
  Some (if decide (temp < minValue)%Z then minValue else temp).

Definition getFloat (name property : list byte) (defaultValue minValue : double) : option double :=
  val ← sprintf_f defaultValue;
  result ← zmqBridgeMamaTransportImpl_getParameter (Some val) (param_name name property);
  temp ← atof result;
  let temp := if negb (dlt minValue (dint 0)) && dlt temp (dint 0) then dint 0 else temp in
  Some (if dlt temp minValue then minValue else temp).

Definition getStr (name property : list byte) (defaultValue : option (list byte)) : option (list byte) :=
  zmqBridgeMamaTransportImpl_getParameter defaultValue (param_name name property).

(** ** Parameters of all transports *)

Record commonParams := mkCommon {
  mReconnectInterval : Z;
  mHeartbeatInterval : Z;
  mSocketMonitor : Z;
  mIsNaming : Z;
  mPublishAddress : option (list byte);
  mDisableRefresh : Z;
  mReconnectOptions : Z;
  log_level_beacon : Z;
  log_level_naming : Z;
  log_level_inbox : Z }.

(** Numeric log levels of OpenMAMA, and ZMQ_RECONNECT_STOP_CONN_REFUSED. *)
Context (level : MamaLogLevel → Z) (stop_conn_refused : Z).

Definition zmqBridgeMamaTransportImpl_parseCommonParams (name : list byte) : option commonParams :=
  ri ← getFloat name (lit "reconnect_interval") (dint 10) (dint 0);
  ri ← to_int32 (dmul ri (dint 1000));
  hi ← getFloat name (lit "heartbeat_interval") (dint 10) (dint 0);
  hi ← to_int32 (dmul hi (dint 1000));
  sm ← getInt name (lit "socket_monitor") 1 0;
  naming ← getInt name (lit "is_naming") 1 0;
  let addr := getStr name (lit "publish_address") (Some (lit "127.0.0.1")) in
  dr ← getInt name (lit "disable_refresh") 1 0;
  ro ← getInt name (lit "reconnect_stop") stop_conn_refused 0;
  lb ← getInt name (lit "log_level_beacon") (level MAMA_LOG_LEVEL_FINER) (level MAMA_LOG_LEVEL_OFF);
  ln ← getInt name (lit "log_level_naming") (level MAMA_LOG_LEVEL_NORMAL) (level MAMA_LOG_LEVEL_OFF);
  li ← getInt name (lit "log_level_inbox") (level MAMA_LOG_LEVEL_FINER) (level MAMA_LOG_LEVEL_OFF);
  Some (mkCommon ri hi sm naming addr dr ro lb ln li).

(** ** Naming transports *)

Definition ZMQ_MAX_NAMING_URIS : nat := 8.
Definition ENDPOINT_SIZE : nat := 256 + 1.

Record namingParams := mkNamingParams {
  mNamingWaitForConnect : Z;
  mNamingConnectInterval : Z;
  mNamingConnectRetries : Z;
  mBeaconInterval : Z;
  mNamingAddress : list (option (list byte)) }.

(** The constant [.1] of the source. *)
Definition point_one : double := of_decimal false 1 (-1).

(** [sprintf(endpoint, "tcp://%s:%d", address, port)]. *)
Definition naming_endpoint (address : list byte) (port : Z) : option (list byte) :=
  strcpy ENDPOINT_SIZE (lit "tcp://" ++ address ++ lit ":" ++ dec port).

(** [subscribe_address_n] and [subscribe_port_n], without defaults: the
    outer [None] is undefined behaviour. *)
Definition naming_address_n (name n : list byte) : option (option (list byte)) :=
  match getStr name (lit "naming.subscribe_address_" ++ n) None with
  | None => Some None
  | Some address =>
      port ← getInt name (lit "naming.subscribe_port_" ++ n) 0 0;
      if decide (0 < port)%Z then e ← naming_endpoint address port; Some (Some e) else Some None
  end.

Definition naming_address_0 (name : list byte) : option (list byte) :=
  address ← match getStr name (lit "naming.subscribe_address") None with
            | Some a => Some a
            | None => getStr name (lit "naming.subscribe_address_0") (Some (lit "127.0.0.1"))
            end;
  port ← getInt name (lit "naming.subscribe_port") 0 0;
  port ← (if decide (port = 0)%Z then getInt name (lit "naming.subscribe_port_0") 5756 0 else Some port);
  naming_endpoint address port.

Definition zmqBridgeMamaTransportImpl_parseNamingParams (name : list byte) : option namingParams :=
  wait ← getInt name (lit "naming.wait_for_connect") 1 0;
  ci ← getFloat name (lit "naming.connect_interval") point_one point_one;
  ci ← to_int32 (dmul ci (dint 1000000));
  retries ← getInt name (lit "naming.connect_retries") 100 10;
  bi ← getFloat name (lit "naming.beacon_interval") (dint 1) (dint 0);
  bi ← to_uint32 (dmul bi (dint 1000));
  a0 ← naming_address_0 name;
  a1 ← naming_address_n name (lit "1");
  a2 ← naming_address_n name (lit "2");
  Some (mkNamingParams wait ci retries bi ([Some a0; a1; a2] ++ replicate (ZMQ_MAX_NAMING_URIS - 3) None)).

(** ** Other transports *)

Definition ZMQ_MAX_URIS : nat := 512.

Definition DEFAULT_SUB_OUTGOING_URL : list byte := lit "tcp://*:5557".
Definition DEFAULT_SUB_INCOMING_URL : list byte := lit "tcp://127.0.0.1:5556".
Definition DEFAULT_PUB_OUTGOING_URL : list byte := lit "tcp://*:5556".
Definition DEFAULT_PUB_INCOMING_URL : list byte := lit "tcp://127.0.0.1:5557".

(** ["%s.%s.%s_%d"]. *)
Definition uri_n (name url : list byte) (n : nat) : option (list byte) :=
  zmqBridgeMamaTransportImpl_getParameter None
    (param_name name (url ++ lit "_" ++ dec (Z.of_nat n))).

(** The loop over [_0], [_1], ...: a store beyond the array is undefined.
    [fuel] bounds the iterations. *)
Fixpoint parse_uris (fuel : nat) (name url : list byte) (n : nat) (arr : list (option (list byte)))
    : option (list (option (list byte))) :=
  match uri_n name url n with
  | None => Some arr
  | Some uri =>
      match fuel with
      | 0 => None
      | S f => if decide (n < length arr) then parse_uris f name url (S n) (<[n := Some uri]> arr) else None
      end
  end.

(** One of the two arrays, zeroed by [calloc] before. *)
Definition parse_urls (name url defaultVal : list byte) : option (list (option (list byte))) :=
  let bare := zmqBridgeMamaTransportImpl_getParameter (Some defaultVal) (param_name name url) in
  parse_uris (S ZMQ_MAX_URIS) name url 0 (bare :: replicate (ZMQ_MAX_URIS - 1) None).

(** Incoming and outgoing addresses. *)
Definition zmqBridgeMamaTransportImpl_parseNonNamingParams (name : list byte)
    : option (list (option (list byte)) * list (option (list byte))) :=
  let '(mDefIncoming, mDefOutgoing) :=
    if decide (name = lit "pub") then (DEFAULT_PUB_INCOMING_URL, DEFAULT_PUB_OUTGOING_URL)
    else (DEFAULT_SUB_INCOMING_URL, DEFAULT_SUB_OUTGOING_URL) in
  incoming ← parse_urls name TPORT_PARAM_INCOMING_URL mDefIncoming;
  outgoing ← parse_urls name TPORT_PARAM_OUTGOING_URL mDefOutgoing;
  Some (incoming, outgoing).

(** The loops of init visit the addresses up to the first NULL. *)
Fixpoint used_addresses (arr : list (option (list byte))) : list (list byte) :=
  match arr with
  | Some a :: arr' => a :: used_addresses arr'
  | _ => []
  end.

(** ** Properties *)

(** The value of an integer parameter: what is configured, or the default. *)
Definition setting (name property : list byte) (defaultValue t : Z) : Prop :=
  match properties_Get (take (PARAM_NAME_MAX_LENGTH - 1) (param_name name property)) with
  | Some v => atoi v = Some t
  | None => t = defaultValue ∧ in_range 32 t = true
  end.

Lemma in_range_64 z : in_range 32 z = true → in_range 64 z = true.
Proof. unfold in_range. rewrite !bool_decide_eq_true. lia. Qed.

Lemma atoi_atoll v t : atoi v = Some t → atoll v = Some t.
Proof.
  unfold atoi, atoll. destruct (in_range 32 (read_number v)) eqn:E; [|done]. intros [= <-].
  by rewrite in_range_64.
Qed.

Lemma setting_value name property d t :
  setting name property d t →
  ∃ v, zmqBridgeMamaTransportImpl_getParameter (Some (dec d)) (param_name name property) = Some v
    ∧ atoi v = Some t ∧ atoll v = Some t.
Proof.
  unfold setting, zmqBridgeMamaTransportImpl_getParameter, zmqBridgeMamaTransportImpl_getParameterWithVaList.
  destruct (properties_Get _) as [v|].
  - intros E. exists v. split_and!; [done|done|by apply atoi_atoll].
  - intros [-> Hr]. exists (dec d). split_and!; [done|by apply atoi_dec|].
    by apply atoll_dec, in_range_64.
Qed.

Lemma getInt_value name property d mn t :
  (0 <= mn)%Z → setting name property d t →
  getInt name property d mn = Some (if decide (t <= 0)%Z then 0%Z else Z.max t mn).
Proof.
  intros Hmn (v & E & Ei & _)%setting_value. unfold getInt. rewrite E, bind_some, Ei, bind_some.
  f_equal. repeat case_decide; lia.
Qed.

Lemma getFloat_default name property v d :
  properties_Get (take (PARAM_NAME_MAX_LENGTH - 1) (param_name name property)) = None →
  sprintf_f d = Some v → atof v = Some d → dlt d (dint 0) = false →
  ∀ mn, dlt d mn = false → getFloat name property d mn = Some d.
Proof.
  intros E Ep Ea H0 mn Hmn. unfold getFloat. rewrite Ep, bind_some.
  unfold zmqBridgeMamaTransportImpl_getParameter, zmqBridgeMamaTransportImpl_getParameterWithVaList.
  by rewrite E, bind_some, Ea, bind_some, H0, andb_false_r, Hmn.
Qed.

(** integer parameters, configured or defaulted, are clamped: getInt
    turns negative values into 0, lets 0 through even below the minimum, and
    raises other values to the minimum; getLong raises 0 as well. *)
Theorem integer_clamping name property d mn t :
  (0 <= mn)%Z → setting name property d t →
  getInt name property d mn = Some (if decide (t <= 0)%Z then 0%Z else Z.max t mn)
  ∧ getLong name property d mn = Some (Z.max t mn).
Proof.
  intros Hmn Hs. split; [by apply getInt_value|]. destruct (setting_value _ _ _ _ Hs) as (v & E & _ & El).
  unfold getLong. rewrite E, bind_some, El, bind_some. f_equal. repeat case_decide; lia.
Qed.

(** a floating-point parameter is never below its minimum. *)
Theorem float_floor name property d mn r :
  getFloat name property d mn = Some r → dlt r mn = false.
Proof.
  unfold getFloat. destruct (sprintf_f d) as [v|]; [|done]. rewrite bind_some.
  destruct (zmqBridgeMamaTransportImpl_getParameter _ _) as [w|]; [|done]. rewrite bind_some.
  destruct (atof w) as [t|]; [|done]. rewrite bind_some. intros [= <-].
  match goal with |- dlt (if dlt ?x mn then _ else _) mn = false => destruct (dlt x mn) eqn:E end;
    [apply dlt_irrefl|done].
Qed.

(** without configuration a transport is a naming transport that
    reconnects and sends heartbeats every 10 s, waits for the naming service
    at 127.0.0.1:5756 with 100 attempts of 100 ms, and beacons every second. *)
Theorem default_configuration name :
  (∀ n, properties_Get n = None) →
  (level MAMA_LOG_LEVEL_OFF = 0 ∧ 0 < level MAMA_LOG_LEVEL_FINER < 2 ^ 31
   ∧ 0 < level MAMA_LOG_LEVEL_NORMAL < 2 ^ 31 ∧ 0 < stop_conn_refused < 2 ^ 31)%Z →
  zmqBridgeMamaTransportImpl_parseCommonParams name
  = Some (mkCommon 10000 10000 1 1 (Some (lit "127.0.0.1")) 1 stop_conn_refused
            (level MAMA_LOG_LEVEL_FINER) (level MAMA_LOG_LEVEL_NORMAL) (level MAMA_LOG_LEVEL_FINER))
  ∧ zmqBridgeMamaTransportImpl_parseNamingParams name
    = Some (mkNamingParams 1 100000 100 1000 (Some (lit "tcp://127.0.0.1:5756") :: replicate 7 None)).
Proof.
  intros Hnone (Hoff & Hfiner & Hnormal & Hstop).
  assert (∀ property d mn, (0 <= mn)%Z → (0 <= d < 2 ^ 31)%Z → (d = 0 ∨ mn <= d)%Z →
    getInt name property d mn = Some d) as Hint.
  { intros property d mn Hmn Hd Hle. rewrite (getInt_value name property d mn d); [|done|].
    - f_equal. case_decide; lia.
    - unfold setting. rewrite Hnone. split; [done|]. apply bool_decide_eq_true. lia. }
  assert (∀ property d, getStr name property d = d) as Hstr.
  { intros. unfold getStr, zmqBridgeMamaTransportImpl_getParameter,
      zmqBridgeMamaTransportImpl_getParameterWithVaList. by rewrite Hnone. }
  assert (∀ property, getFloat name property (dint 10) (dint 0) = Some (dint 10)) as Hf10.
  { intros. by apply (getFloat_default _ _ (lit "10.000000")). }
  assert (∀ property, getFloat name property (dint 1) (dint 0) = Some (dint 1)) as Hf1.
  { intros. by apply (getFloat_default _ _ (lit "1.000000")). }
  assert (∀ property, getFloat name property point_one point_one = Some point_one) as Hf01.
  { intros. by apply (getFloat_default _ _ (lit "0.100000")). }
  split.
  - unfold zmqBridgeMamaTransportImpl_parseCommonParams. rewrite !Hf10, !bind_some.
    replace (to_int32 (dmul (dint 10) (dint 1000))) with (Some 10000%Z) by (by vm_compute).
    rewrite !bind_some, !Hstr. rewrite Hoff.
    repeat (rewrite Hint by lia). done.
  - unfold zmqBridgeMamaTransportImpl_parseNamingParams. repeat (rewrite Hint by lia).
    rewrite bind_some, Hf01, bind_some.
    replace (to_int32 (dmul point_one (dint 1000000))) with (Some 100000%Z) by (by vm_compute).
    rewrite !bind_some, Hf1, bind_some.
    replace (to_uint32 (dmul (dint 1) (dint 1000))) with (Some 1000%Z) by (by vm_compute).
    rewrite bind_some. unfold naming_address_0, naming_address_n. rewrite !Hstr, bind_some.
    repeat (rewrite Hint by lia). by vm_compute.
Qed.

(** the naming addresses a transport connects to: the first is always
    there, a full "tcp://address:port" of at most 256 characters; the second
    and third follow when address and port are configured, the third only
    after the second. *)
Theorem naming_addresses name p :
  zmqBridgeMamaTransportImpl_parseNamingParams name = Some p →
  ∃ a0 a1 a2,
    naming_address_0 name = Some a0 ∧ naming_address_n name (lit "1") = Some a1
    ∧ naming_address_n name (lit "2") = Some a2
    ∧ used_addresses (mNamingAddress p)
      = a0 :: match a1 with
              | Some e1 => e1 :: match a2 with Some e2 => [e2] | None => [] end
              | None => []
              end
    ∧ Forall (λ e, is_prefix (lit "tcp://") e = true ∧ length e ≤ 256) (used_addresses (mNamingAddress p)).
Proof.
  assert (∀ a port e, naming_endpoint a port = Some e → is_prefix (lit "tcp://") e = true ∧ length e ≤ 256) as Hep.
  { intros a port e E. apply strcpy_Some in E as [-> Hl]. split; [|unfold ENDPOINT_SIZE in Hl; lia].
    apply is_prefix_app. by eexists. }
  assert (∀ a0, naming_address_0 name = Some a0 → is_prefix (lit "tcp://") a0 = true ∧ length a0 ≤ 256) as H0.
  { intros a0. unfold naming_address_0. intros (a & _ & E)%bind_Some.
    apply bind_Some in E as (port & _ & E). apply bind_Some in E as (port' & _ & E). eauto. }
  assert (∀ n e, naming_address_n name n = Some (Some e) → is_prefix (lit "tcp://") e = true ∧ length e ≤ 256) as Hn.
  { intros n e. unfold naming_address_n. destruct (getStr _ _ _) as [a|]; [|done].
    intros (port & _ & E)%bind_Some. case_decide; [|done].
    apply bind_Some in E as (e' & E & [= <-]). eauto. }
  unfold zmqBridgeMamaTransportImpl_parseNamingParams.
  do 6 (match goal with |- (?x ≫= _) = _ → _ => destruct x; [rewrite bind_some|intros [=]] end).
  destruct (naming_address_0 name) as [a0|] eqn:E0; [rewrite bind_some|intros [=]].
  destruct (naming_address_n name (lit "1")) as [a1|] eqn:E1; [rewrite bind_some|intros [=]].
  destruct (naming_address_n name (lit "2")) as [a2|] eqn:E2; [rewrite bind_some|intros [=]].
  intros [= <-].
  exists a0, a1, a2. split_and!; [done|done|done| |].
  - cbn. by destruct a1, a2.
  - specialize (H0 a0 eq_refl). destruct a1 as [e1|], a2 as [e2|]; cbn [mNamingAddress app used_addresses];
      repeat apply Forall_cons_2; try apply Forall_nil_2; eauto.
Qed.

Lemma parse_uris_spec url name k n arr fuel :
  (∀ i, n ≤ i < k → is_Some (uri_n name url i)) → uri_n name url k = None → n ≤ k → k - n < fuel →
  k ≤ length arr →
  ∃ arr', parse_uris fuel name url n arr = Some arr' ∧ length arr' = length arr
    ∧ (∀ i, arr' !! i = if decide (n ≤ i < k) then Some (uri_n name url i) else arr !! i).
Proof.
  intros Hset Hk. revert n arr Hset. induction fuel as [|fuel IH]; intros n arr Hset Hle Hf Hl; [lia|].
  cbn [parse_uris]. destruct (decide (n = k)) as [->|Hne].
  - rewrite Hk. exists arr. split_and!; [done|done|]. intros i. by rewrite decide_False by lia.
  - destruct (Hset n ltac:(lia)) as [u Eu]. rewrite Eu, decide_True by lia.
    destruct (IH (S n) (<[n := Some u]> arr)) as (arr' & E & Hlen & Hget).
    { intros i Hi. apply Hset. lia. } { lia. } { lia. } { by rewrite length_insert. }
    exists arr'. rewrite length_insert in Hlen. split_and!; [done|done|]. intros i. rewrite Hget.
    destruct (decide (i = n)) as [->|Hin].
    + rewrite decide_False, decide_True by lia. rewrite list_lookup_insert_eq by lia. by rewrite Eu.
    + rewrite list_lookup_insert_ne by lia. repeat case_decide; try lia; done.
Qed.

Lemma parse_uris_overflow url name n arr fuel :
  (∀ i, n ≤ i ≤ length arr → is_Some (uri_n name url i)) → n ≤ length arr →
  parse_uris fuel name url n arr = None.
Proof.
  revert n arr. induction fuel as [|fuel IH]; intros n arr Hset Hle; cbn [parse_uris];
    destruct (Hset n ltac:(lia)) as [u Eu]; rewrite Eu; [done|].
  case_decide; [|done]. apply IH; rewrite length_insert; [|lia]. intros i Hi. apply Hset. lia.
Qed.

(** [k] addresses followed by NULL or by the end of the array. *)
Lemma used_addresses_spec arr k :
  (∀ i, i < k → ∃ u, arr !! i = Some (Some u)) → (k < length arr → arr !! k = Some None) →
  length (used_addresses arr) = k ∧ ∀ i, i < k → arr !! i = Some (used_addresses arr !! i).
Proof.
  revert k. induction arr as [|[a|] arr IH]; intros k Hset Hend; cbn [used_addresses].
  - destruct k as [|k]; [split; [done|lia]|]. by destruct (Hset 0 ltac:(lia)).
  - destruct k as [|k]; [by specialize (Hend ltac:(simpl; lia))|].
    destruct (IH k) as [Hl Hg].
    + intros i Hi. apply (Hset (S i)). lia.
    + intros Hk. apply Hend. simpl. lia.
    + split; [simpl; by rewrite Hl|]. intros [|i] Hi; [done|]. apply Hg. lia.
  - destruct k as [|k]; [split; [done|lia]|]. by destruct (Hset 0 ltac:(lia)).
Qed.

(** The addresses of a non-naming transport: the URLs _0, _1, ... up to
    the first that is not configured, or else the bare URL, or else the
    default; more than 512 URLs are written beyond the array. *)
Theorem non_naming_urls name url defaultVal k :
  (∀ i, i < k → is_Some (uri_n name url i)) → uri_n name url k = None →
  match parse_urls name url defaultVal with
  | Some arr =>
      k ≤ ZMQ_MAX_URIS ∧ length arr = ZMQ_MAX_URIS
      ∧ (0 < k → ∀ i, i < k → used_addresses arr !! i = uri_n name url i)
      ∧ (0 < k → length (used_addresses arr) = k)
      ∧ (k = 0 → used_addresses arr
           = [default defaultVal (zmqBridgeMamaTransportImpl_getParameter None (param_name name url))])
  | None => ZMQ_MAX_URIS < k
  end.
Proof.
  intros Hset Hnone. unfold parse_urls.
  set (bare := zmqBridgeMamaTransportImpl_getParameter (Some defaultVal) (param_name name url)).
  set (arr0 := bare :: replicate (ZMQ_MAX_URIS - 1) None).
  assert (length arr0 = ZMQ_MAX_URIS) as Hl0 by (subst arr0; cbn [length]; rewrite length_replicate; done).
  destruct (decide (ZMQ_MAX_URIS < k)) as [Hgt|Hle].
  { rewrite parse_uris_overflow; [done| |lia]. intros i Hi. apply Hset. lia. }
  destruct (parse_uris_spec url name k 0 arr0 (S ZMQ_MAX_URIS)) as (arr & E & Hlen & Hget);
    [intros; apply Hset; lia|done|lia|lia|lia|].
  rewrite E.
  assert (∀ i, i < k → ∃ u, arr !! i = Some (Some u) ∧ uri_n name url i = Some u) as Hu.
  { intros i Hi. destruct (Hset i Hi) as [u Eu]. exists u. rewrite Hget, decide_True by lia. by rewrite Eu. }
  assert (∀ i, 0 < i → k ≤ i → i < ZMQ_MAX_URIS → arr !! i = Some None) as Hrest.
  { intros i Hi Hki Hlt. rewrite Hget, decide_False by lia. subst arr0. destruct i as [|i]; [lia|].
    apply lookup_replicate. split; [done|]. unfold ZMQ_MAX_URIS in *. lia. }
  split_and!; [lia|lia| | |].
  - intros Hpos i Hi. destruct (used_addresses_spec arr k) as [_ Hg].
    + intros i' Hi'. destruct (Hu i' Hi') as (u & ? & _). by exists u.
    + intros Hk. apply Hrest; lia.
    + destruct (Hu i Hi) as (u & Eu & ->). rewrite (Hg i Hi) in Eu. by injection Eu.
  - intros Hpos. apply used_addresses_spec.
    + intros i' Hi'. destruct (Hu i' Hi') as (u & ? & _). by exists u.
    + intros Hk. apply Hrest; lia.
  - intros ->. destruct (used_addresses_spec arr 1) as [Hl1 Hg1].
    + intros i Hi. assert (i = 0) as -> by lia. rewrite Hget, decide_False by lia. subst arr0 bare.
      unfold zmqBridgeMamaTransportImpl_getParameter, zmqBridgeMamaTransportImpl_getParameterWithVaList.
      cbn. destruct (properties_Get _); eauto.
    + intros _. apply Hrest; unfold ZMQ_MAX_URIS; lia.
    + destruct (used_addresses arr) as [|a [|]] eqn:Ea; try done. f_equal.
      specialize (Hg1 0 ltac:(lia)). rewrite Hget, decide_False in Hg1 by lia. subst arr0 bare.
      cbn in Hg1. unfold zmqBridgeMamaTransportImpl_getParameter,
        zmqBridgeMamaTransportImpl_getParameterWithVaList in *.
      destruct (properties_Get _); by injection Hg1.
Qed.

End Params.

(** ** Configurations *)

(** A property store that holds one list of settings. *)
Definition store (l : list (list byte * list byte)) (n : list byte) : option (list byte) :=
  snd <$> head (filter (λ x, x.1 = n) l).

Definition demo_store : list byte → option (list byte) :=
  store [(lit "mama.zmq.transport.oz.naming.connect_retries", lit "3");
         (lit "mama.zmq.transport.oz.naming.connect_interval", lit "0.05");
         (lit "mama.zmq.transport.oz.naming.subscribe_address_0", lit "10.0.0.1");
         (lit "mama.zmq.transport.oz.naming.subscribe_address_2", lit "10.0.0.3");
         (lit "mama.zmq.transport.oz.naming.subscribe_port_2", lit "5758");
         (lit "mama.zmq.transport.oz.incoming_url_0", lit "tcp://a:1");
         (lit "mama.zmq.transport.oz.incoming_url_1", lit "tcp://b:2")].

Lemma integer_clamping_witness :
  getInt demo_store (lit "oz") (lit "naming.connect_retries") 100 10 = Some 10%Z
  ∧ getLong demo_store (lit "oz") (lit "naming.connect_retries") 100 10 = Some 10%Z.
Proof. exact (integer_clamping demo_store (lit "oz") (lit "naming.connect_retries") 100 10 3 ltac:(lia) eq_refl). Defined.

Lemma float_floor_witness :
  ∃ r, getFloat demo_store (lit "oz") (lit "naming.connect_interval") point_one point_one = Some r
    ∧ dlt r point_one = false.
Proof.
  eexists. split; [by vm_compute|].
  apply (float_floor demo_store (lit "oz") (lit "naming.connect_interval") point_one). by vm_compute.
Defined.

Lemma default_configuration_witness :
  zmqBridgeMamaTransportImpl_parseNamingParams (λ _, None) (lit "oz")
  = Some (mkNamingParams 1 100000 100 1000 (Some (lit "tcp://127.0.0.1:5756") :: replicate 7 None)).
Proof.
  apply (default_configuration (λ _, None)
    (λ l, match l with MAMA_LOG_LEVEL_OFF => 0 | MAMA_LOG_LEVEL_FINER => 6 | _ => 4 end)%Z 1 (lit "oz")).
  - done.
  - lia.
Defined.

(** The third address is configured, but not the second. *)
Lemma naming_addresses_witness :
  ∃ p, zmqBridgeMamaTransportImpl_parseNamingParams demo_store (lit "oz") = Some p
    ∧ used_addresses (mNamingAddress p) = [lit "tcp://10.0.0.1:5756"].
Proof.
  assert (is_Some (zmqBridgeMamaTransportImpl_parseNamingParams demo_store (lit "oz"))) as [p Ep].
  { eexists. vm_compute. reflexivity. }
  exists p. split; [exact Ep|].
  destruct (naming_addresses demo_store (lit "oz") p Ep) as (a0 & a1 & a2 & E0 & E1 & _ & -> & _).
  vm_compute in E0, E1. injection E0 as <-. injection E1 as <-. reflexivity.
Defined.

Lemma non_naming_urls_witness :
  ∃ arr, parse_urls demo_store (lit "oz") TPORT_PARAM_INCOMING_URL DEFAULT_SUB_INCOMING_URL = Some arr
    ∧ used_addresses arr !! 1 = Some (lit "tcp://b:2") ∧ length (used_addresses arr) = 2.
Proof.
  pose proof (non_naming_urls demo_store (lit "oz") TPORT_PARAM_INCOMING_URL DEFAULT_SUB_INCOMING_URL 2) as Hu.
  destruct (parse_urls demo_store (lit "oz") TPORT_PARAM_INCOMING_URL DEFAULT_SUB_INCOMING_URL) as [arr|].
  - destruct Hu as (_ & _ & Hg & Hl & _).
    + intros [|[|i]] Hi; [by eexists|by eexists|lia].
    + by vm_compute.
    + exists arr. split; [done|]. split; [rewrite (Hg ltac:(lia) 1 ltac:(lia)); by vm_compute|apply Hl; lia].
  - exfalso. unfold ZMQ_MAX_URIS in Hu.
    assert (512 < 2) as Hbad by (apply Hu; [intros [|[|i]] Hi; [by eexists|by eexists|lia]|by vm_compute]).
    lia.
Defined.

End Params.
