(* ===== verification/Transport.v ===== *)
(** * The dispatch thread (src/src/transport.c, "dispatch functions")

    The thread that reads the transport's sockets: it polls, sends a beacon
    when it is time, and drains the control, naming and data sockets in this
    order, handing each message to its dispatcher. *)

From S2P Require Import Prelude CLib CMonad Msg Util Socket Collections Routing Naming.
Import ZM ZU Sock.

Module ZL.

#[local] Existing Instances ZT.transport_zmq ZN.naming_zmq.

Section Loop.

Context {T P L N : Type}.

(** The transport: the part that routes, the part that finds peers, and the
    fields of the loop. *)
Record tport := mkTport {
  tp_routing : ZT.transport T P L;
  tp_naming : ZN.naming N;
  tp_isNaming : Z;
  tp_isDispatching : Z;
  tp_controlMessages : Z;
  tp_polls : Z;
  tp_dispatchStatus : option mama_status }.

Inductive lobs :=
  | lRouting (o : ZT.tobs)
  | lNaming (o : ZN.nobs)
  | lReady
  | lPoll (timeout : Z)
  | lBeacon (now : Z)
  | lClose.

Definition set_routing (r : ZT.transport T P L) (s : tport) : tport :=
  mkTport r (tp_naming s) (tp_isNaming s) (tp_isDispatching s) (tp_controlMessages s) (tp_polls s)
    (tp_dispatchStatus s).
Definition set_naming (n : ZN.naming N) (s : tport) : tport :=
  mkTport (tp_routing s) n (tp_isNaming s) (tp_isDispatching s) (tp_controlMessages s) (tp_polls s)
    (tp_dispatchStatus s).
Definition set_dispatching (d : Z) (s : tport) : tport :=
  mkTport (tp_routing s) (tp_naming s) (tp_isNaming s) d (tp_controlMessages s) (tp_polls s)
    (tp_dispatchStatus s).
Definition count_control (s : tport) : tport :=
  mkTport (tp_routing s) (tp_naming s) (tp_isNaming s) (tp_isDispatching s) (tp_controlMessages s + 1)
    (tp_polls s) (tp_dispatchStatus s).
Definition count_poll (s : tport) : tport :=
  mkTport (tp_routing s) (tp_naming s) (tp_isNaming s) (tp_isDispatching s) (tp_controlMessages s)
    (tp_polls s + 1) (tp_dispatchStatus s).
Definition set_status (st : mama_status) (s : tport) : tport :=
  mkTport (tp_routing s) (tp_naming s) (tp_isNaming s) (tp_isDispatching s) (tp_controlMessages s)
    (tp_polls s) (Some st).

Context `{StrTable T ZT.ptr} `{EndpointPool P ZT.ptr} `{WList L ZT.ptr} `{StrTable N (list byte)} `{!WStr}.

(** The environment of the dispatchers. *)
Context (MAXHOSTNAMELEN : nat) (rcR rcN : nat → zcall → Z) (regexec : list byte → list byte → bool).
Context (progName hostName : list byte) (pid : Z) (mem : bool) (thread : Z).
(** The data and naming subscribers of the transport. *)
Context (dataSub namingSub : zmqSocket).

Local Notation LC := (C tport lobs).

Definition on_routing {A} (m : C (ZT.transport T P L) ZT.tobs A) : LC A := zoom tp_routing set_routing lRouting m.
Definition on_naming {A} (m : C (ZN.naming N) ZN.nobs A) : LC A := zoom tp_naming set_naming lNaming m.

(** ** Control messages *)

(** [pMsg->command] and [pMsg->arg1] of a received block. *)
Definition pMsg_command (data : list byte) : option byte := data !! 0.
Definition pMsg_arg1 (data : list byte) : option (list byte) := cstring (drop 1 data).

Definition zmqBridgeMamaTransportImpl_dispatchControlMsg (data : list byte) : LC mama_status :=
  cmodify count_control ;;
  command ← cpart (pMsg_command data);
  if decide (command = x53) then
    topic ← cpart (pMsg_arg1 data);
    on_routing (zmqBridgeMamaTransportImpl_subscribe rcR (mSocket dataSub) topic)
  else if decide (command = x55) then
    topic ← cpart (pMsg_arg1 data);
    on_routing (zmqBridgeMamaTransportImpl_unsubscribe rcR (mSocket dataSub) topic)
  else if decide (command = x58) then cmodify (set_dispatching 0) ;; mret MAMA_STATUS_OK
  else mret MAMA_STATUS_OK.

Definition dispatchNaming (data : list byte) : LC () :=
  on_naming (ZN.zmqBridgeMamaTransportImpl_dispatchNamingMsg MAXHOSTNAMELEN rcN progName hostName pid
               mem thread data) ;; mret ().
Definition dispatchNormal (data : list byte) : LC () :=
  on_routing (ZT.zmqBridgeMamaTransportImpl_dispatchNormalMsg regexec data) ;; mret ().
Definition dispatchControl (data : list byte) : LC () :=
  zmqBridgeMamaTransportImpl_dispatchControlMsg data ;; mret ().

(** ** The loop *)

(** One iteration as the outside makes it: the reads of [mBeaconInterval],
    the answer of [zmq_poll], the time, and for each socket, when it is
    readable, what is received until it would block. *)
Record poll := mkPoll {
  p_interval1 : Z;
  p_rc : Z;
  p_eintr : bool;
  p_interval2 : Z;
  p_now : Z;
  p_control : list (list byte);
  p_naming : list (list byte);
  p_data : list (list byte) }.

(** Drain one socket: an empty message ends it like an empty socket. *)
Fixpoint drain (dispatch : list byte → LC ()) (msgs : list (list byte)) : LC () :=
  match msgs with
  | [] | [] :: _ => mret ()
  | data :: msgs' => dispatch data ;; drain dispatch msgs'
  end.

(** [lastBeacon] and [nextBeacon], 64-bit times in milliseconds. *)
Definition beacon (p : poll) (lastBeacon nextBeacon : Z) : LC (Z * Z) :=
  if decide (0 < nextBeacon)%Z then
    if decide (0 < p_interval2 p)%Z then
      if decide (nextBeacon <= p_now p)%Z then
        emit (lBeacon (p_now p)) ;;
        _ ← on_naming (ZN.zmqBridgeMamaTransportImpl_sendEndpointsMsg MAXHOSTNAMELEN rcN progName
                         hostName pid x63);
        mret (p_now p, size64 (p_now p + p_interval2 p))
      else mret (lastBeacon, nextBeacon)
    else mret (lastBeacon, nextBeacon)
  else mret (lastBeacon, nextBeacon).

(** The timeout of the poll: a [long]. *)
Definition poll_timeout (p : poll) (lastBeacon nextBeacon : Z) : Z :=
  if decide (0 < p_interval1 p)%Z then wraps 64 (size64 (nextBeacon - lastBeacon)) else (-1)%Z.

(** The rest of an iteration after a successful or interrupted poll. *)
Definition iteration (p : poll) (lastBeacon nextBeacon : Z) : LC (Z * Z) :=
  cmodify count_poll ;;
  times ← beacon p lastBeacon nextBeacon;
  s ← cget;
  drain dispatchControl (p_control p) ;;
  (if decide (tp_isNaming s = 1)%Z then drain dispatchNaming (p_naming p) else mret ()) ;;
  drain dispatchNormal (p_data p) ;;
  mret times.

(** [true] when the loop has ended, [false] when it still runs after the
    given iterations. *)
Fixpoint dispatch_loop (ps : list poll) (lastBeacon nextBeacon : Z) : LC bool :=
  s ← cget;
  if decide (tp_isDispatching s ≠ 1)%Z then mret true
  else
    match ps with
    | [] => mret false
    | p :: ps' =>
        emit (lPoll (poll_timeout p lastBeacon nextBeacon)) ;;
        if decide (p_rc p < 0 ∧ p_eintr p = false)%Z then dispatch_loop ps' lastBeacon nextBeacon
        else
          '(lastBeacon', nextBeacon') ← iteration p lastBeacon nextBeacon;
          dispatch_loop ps' lastBeacon' nextBeacon'
    end.

(** The thread: [start] is the time at its start, [interval0] the beacon
    interval then. *)
Definition zmqBridgeMamaTransportImpl_dispatchThread (start interval0 : Z) (ps : list poll) : LC bool :=
  cmodify (set_dispatching 1) ;;
  emit lReady ;;
  on_routing (wlock_lock (mLock dataSub)) ;;
  s ← cget;
  (if decide (tp_isNaming s = 1)%Z then on_naming (wlock_lock (mLock namingSub)) else mret ()) ;;
  let nextBeacon := if decide (0 < interval0)%Z then size64 (start + interval0) else 0%Z in
  ended ← dispatch_loop ps 0 nextBeacon;
  if ended : bool then
    emit lClose ;;
    on_routing (wlock_unlock (mLock dataSub)) ;;
    (if decide (tp_isNaming s = 1)%Z then on_naming (wlock_unlock (mLock namingSub)) else mret ()) ;;
    cmodify (set_status MAMA_STATUS_OK) ;;
    mret true
  else mret false.

End Loop.

Arguments tport : clear implicits.

End ZL.
