(* ===== verification/TransportProofs.v ===== *)
(** * The dispatch thread: safety, exit and timing *)

From S2P Require Import Prelude CLib CMonad Msg Util Socket Collections Routing RoutingProofs RoutingSpec Naming NamingProofs Transport.
Import ZM ZU Sock ZL.

(** ** Well-formed input *)

(** An exit command. *)
Definition is_exit (data : list byte) : bool := bool_decide (head data = Some x58).

(** What is received from a socket before it would block. *)
Fixpoint received (msgs : list (list byte)) : list (list byte) :=
  match msgs with
  | [] | [] :: _ => []
  | data :: msgs' => data :: received msgs'
  end.

(** A control message: (un)subscriptions have a terminated topic. *)
Definition control_ok (data : list byte) : Prop :=
  ∀ c rest, data = c :: rest → c = x53 ∨ c = x55 → is_Some (cstring rest).

Definition failed_poll (p : poll) : bool := bool_decide (p_rc p < 0)%Z && negb (p_eintr p).

(** The iterations the thread runs: up to the one that receives an exit. *)
Definition exits (p : poll) : bool := negb (failed_poll p) && existsb is_exit (received (p_control p)).

(** ** Timing

    Poll timeouts are -1 or the distance of the next beacon from the last;
    a beacon is sent when the next one is due, and the one after that is due
    [I] later. *)
Fixpoint pace (I next last : Z) (log : list lobs) : Prop :=
  match log with
  | [] => True
  | lPoll t :: l => (t = -1 ∨ t = next - last)%Z ∧ pace I next last l
  | lBeacon now :: l => (0 < next <= now)%Z ∧ pace I (now + I)%Z now l
  | _ :: l => pace I next last l
  end.

Definition quiet (o : lobs) : Prop := match o with lPoll _ | lBeacon _ => False | _ => True end.

Lemma pace_quiet I next last l1 l2 :
  Forall quiet l1 → pace I next last (l1 ++ l2) ↔ pace I next last l2.
Proof. induction 1 as [|o l1 Ho _ IH]; simpl; [done|]. by destruct o. Qed.

Lemma quiet_fmap {A} (f : A → lobs) l : (∀ x, quiet (f x)) → Forall quiet (f <$> l).
Proof. intros Hf. apply Forall_fmap, Forall_true. exact Hf. Qed.

#[local] Existing Instances ZT.transport_zmq ZN.naming_zmq.

Section TransportProofs.

Context {T P L N : Type}.
Context `{HT : StrTable T ZT.ptr} `{!StrTableLaws T ZT.ptr}.
Context `{HP : EndpointPool P ZT.ptr} `{HPL : !EndpointPoolLaws P ZT.ptr}.
Context `{HL : WList L ZT.ptr} `{!WListLaws L ZT.ptr}.
Context `{HN : StrTable N (list byte)} `{!StrTableLaws N (list byte)} `{!WStr}.
Context (hostlen : nat) (rcR rcN : nat → zcall → Z) (regexec : list byte → list byte → bool).
Context (progName hostName : list byte) (pid : Z) (mem : bool) (thread : Z).
Context (dataSub namingSub : zmqSocket) (ep : list byte).

Local Notation tport := (tport T P L N).
Implicit Types s : tport.

(** A bound of the lengths of the keys of the wildcard subscriptions, which
    the dispatcher compares received messages with. *)
Context (K : nat).

Definition keys_bounded (r : ZT.transport T P L) : Prop :=
  ∀ p i key, p ∈ list_elems (ZT.mWcEndpoints r) → ZT.h_subs r !! p = Some i → ZT.sub_subjectKey i = Some key →
    length key ≤ K.

(** The invariants of the parts. *)
Definition tinv s : Prop :=
  (RoutingProofs.inv (tp_routing s) ∧ keys_bounded (tp_routing s)) ∧ valid_node (tp_naming s) ep.

(** A data message that is readable and as long as what it is compared with. *)
Definition data_ok (data : list byte) : Prop :=
  message_ok data ∧ length ZT.ZMQ_REPLYHANDLE_PREFIX ≤ length data ∧ K ≤ length data.

Lemma data_in_bounds r data : keys_bounded r → data_ok data → in_bounds r data.
Proof.
  intros Hk (_ & Hp & HK). split; [done|right]. intros p Hin i key Ei Ek. specialize (Hk p i key Hin Ei Ek). lia.
Qed.

Lemma keys_bounded_same r r' :
  ZT.mWcEndpoints r' = ZT.mWcEndpoints r → same_subs (ZT.h_subs r) (ZT.h_subs r') → keys_bounded r → keys_bounded r'.
Proof.
  intros Ew Hs Hk p i key Hin Ei Ek. rewrite Ew in Hin. specialize (Hs p). rewrite Ei in Hs.
  destruct (ZT.h_subs r !! p) as [j|] eqn:Ej; [|done]. cbn in Hs. injection Hs as E1 E2 E3 E4 E5 E6 E7 E8 E9 E10 E11.
  apply (Hk p j key Hin Ej). congruence.
Qed.

(** Data messages, naming messages, and all that an iteration receives. *)
Definition naming_ok (data : list byte) : Prop := ∃ m, msg_fits hostlen m ∧ data = ZN.naming_bytes hostlen m.
Record poll_ok (p : poll) : Prop := {
  po_control : Forall control_ok (p_control p);
  po_naming : Forall naming_ok (received (p_naming p));
  po_data : Forall data_ok (received (p_data p)) }.

(** ** The dispatchers *)

Lemma quiet_routing s {A} (m : C (ZT.transport T P L) ZT.tobs A) (Q : A → tport → Prop) :
  wp m (λ a r _, Q a (set_routing r s)) (tp_routing s) →
  wp (on_routing m) (λ a s' o, Q a s' ∧ Forall quiet o) s.
Proof.
  intros Hw. apply wp_zoom. eapply wp_mono; [|exact Hw]. intros a r o Ha. split; [done|]. by apply quiet_fmap.
Qed.

Lemma quiet_naming s {A} (m : C (ZN.naming N) ZN.nobs A) (Q : A → tport → Prop) :
  wp m (λ a n _, Q a (set_naming n s)) (tp_naming s) →
  wp (on_naming m) (λ a s' o, Q a s' ∧ Forall quiet o) s.
Proof.
  intros Hw. apply wp_zoom. eapply wp_mono; [|exact Hw]. intros a r o Ha. split; [done|]. by apply quiet_fmap.
Qed.

(** A message that changes neither flag. *)
Definition keeps s s' : Prop :=
  tinv s' ∧ tp_isNaming s' = tp_isNaming s ∧ tp_isDispatching s' = tp_isDispatching s.

Lemma setsockopt_keeps s sk (o : zopt) topic :
  tinv s →
  wp (on_routing (zmq rcR (zmq_setsockopt_str sk o topic))) (λ _ s' o, keeps s s' ∧ Forall quiet o) s.
Proof. intros Hi. by apply (quiet_routing s _ (λ _ s', keeps s s')). Qed.

Lemma control_wp data s :
  data ≠ [] → control_ok data → tinv s →
  wp (dispatchControl rcR dataSub data)
    (λ _ s' o, tinv s' ∧ tp_isNaming s' = tp_isNaming s
       ∧ tp_isDispatching s' = (if is_exit data then 0%Z else tp_isDispatching s)
       ∧ Forall quiet o) s.
Proof.
  intros Hne Hok Hi. destruct data as [|c rest]; [done|]. unfold dispatchControl, is_exit. cbn [head].
  apply wp_bind. unfold zmqBridgeMamaTransportImpl_dispatchControlMsg.
  apply wp_bind, wp_modify, wp_bind. eapply wp_part; [done|].
  destruct (decide (c = x53)) as [->|Hs].
  { destruct (Hok x53 rest eq_refl) as [topic Et]; [by left|].
    apply wp_bind. eapply wp_part; [exact Et|].
    eapply wp_mono; [|apply (quiet_routing _ _ (λ _ s', keeps s s'))]; [|done].
    intros st s1 o [(? & ? & ?) ?]. apply wp_ret. rewrite app_nil_r. done. }
  destruct (decide (c = x55)) as [->|Hu].
  { destruct (Hok x55 rest eq_refl) as [topic Et]; [by right|].
    apply wp_bind. eapply wp_part; [exact Et|].
    eapply wp_mono; [|apply (quiet_routing _ _ (λ _ s', keeps s s'))]; [|done].
    intros st s1 o [(? & ? & ?) ?]. apply wp_ret. rewrite app_nil_r. done. }
  destruct (decide (c = x58)) as [->|Hx].
  - apply wp_bind, wp_modify, wp_ret, wp_ret. by split_and!.
  - apply wp_ret, wp_ret. rewrite bool_decide_eq_false_2 by naive_solver. by split_and!.
Qed.

Lemma naming_wp data s :
  naming_ok data → tinv s →
  wp (dispatchNaming hostlen rcN progName hostName pid mem thread data)
    (λ _ s' o, keeps s s' ∧ Forall quiet o) s.
Proof using StrTableLaws1.
  intros (m & Hm & ->) [Hr Hv]. unfold dispatchNaming. apply wp_bind.
  eapply wp_mono; [|apply (quiet_naming _ _ (λ _ s', keeps s s'))].
  - intros st s1 o [? ?]. apply wp_ret. by rewrite app_nil_r.
  - eapply wp_mono; [|by eapply dispatch_naming_safe]. intros st n o Hs. split; [|done].
    split; [exact Hr|]. eapply same_self_valid; [exact Hs|exact Hv].
Qed.

Lemma normal_wp data s :
  data_ok data → tinv s →
  wp (dispatchNormal regexec data) (λ _ s' o, keeps s s' ∧ Forall quiet o) s.
Proof using StrTableLaws0 WListLaws0.
  intros Hm [[Hr Hk] Hv]. unfold dispatchNormal. apply wp_bind.
  eapply wp_mono; [|apply (quiet_routing _ _ (λ _ s', keeps s s'))].
  - intros st s1 o [? ?]. apply wp_ret. by rewrite app_nil_r.
  - eapply wp_mono; [|apply (wp_dispatchNormalMsg (λ _ _, 0%Z) regexec (λ _, x00));
      [exact Hr|apply Hm|by apply data_in_bounds]].
    intros st r o (Hi & _ & _ & Ew & Hs & _). split; [|done].
    split; [split; [exact Hi|by eapply keys_bounded_same]|exact Hv].
Qed.

Lemma drain_wp dispatch msgs (J : list byte → Prop) s :
  (∀ data s0, J data → tinv s0 → wp (dispatch data) (λ _ s' o, keeps s0 s' ∧ Forall quiet o) s0) →
  Forall J (received msgs) → tinv s →
  wp (drain (T:=T) (P:=P) (L:=L) (N:=N) dispatch msgs) (λ _ s' o, keeps s s' ∧ Forall quiet o) s.
Proof.
  intros Hd. revert s. induction msgs as [|[|b data] msgs IH]; intros s HJ Hi; cbn [drain received] in *;
    [by apply wp_ret|by apply wp_ret|].
  apply Forall_cons in HJ as [HJ HJs]. apply wp_bind. eapply wp_mono; [|by apply Hd].
  intros _ s1 o1 [(Hi1 & En1 & Ed1) Hq1]. eapply wp_mono; [|by apply IH].
  intros _ s2 o2 [(Hi2 & En2 & Ed2) Hq2]. split; [|by apply Forall_app].
  split_and!; [done|congruence|congruence].
Qed.

Lemma drain_control_wp msgs s :
  Forall control_ok msgs → tinv s →
  wp (drain (dispatchControl rcR dataSub) msgs)
    (λ _ s' o, tinv s' ∧ tp_isNaming s' = tp_isNaming s
       ∧ tp_isDispatching s' = (if existsb is_exit (received msgs) then 0%Z else tp_isDispatching s)
       ∧ Forall quiet o) s.
Proof.
  revert s. induction msgs as [|[|b data] msgs IH]; intros s HJ Hi; cbn [drain received existsb];
    [by apply wp_ret|by apply wp_ret|].
  apply Forall_cons in HJ as [HJ HJs]. apply wp_bind. eapply wp_mono; [|by apply control_wp].
  intros _ s1 o1 (Hi1 & En1 & Ed1 & Hq1). eapply wp_mono; [|by apply IH].
  intros _ s2 o2 (Hi2 & En2 & Ed2 & Hq2). split_and!; [done|congruence| |by apply Forall_app].
  rewrite Ed2, Ed1. by destruct (is_exit _), (existsb _ _).
Qed.

(** ** The loop *)

(** Reads of the beacon interval: [I], or 0 once the transport stops; times
    far from the end of the 64-bit clock. *)
Definition clock_ok (I : Z) (p : poll) : Prop :=
  (p_interval1 p = 0 ∨ p_interval1 p = I)%Z ∧ (p_interval2 p = 0 ∨ p_interval2 p = I)%Z
  ∧ (0 <= p_now p < 2 ^ 62)%Z.

(** [lastBeacon] and [nextBeacon]. *)
Definition times_ok (last next : Z) : Prop := (0 <= last <= next ∧ next < 2 ^ 63)%Z.

Lemma beacon_wp I p last next s :
  tinv s → (0 <= I < 2 ^ 32)%Z → clock_ok I p → times_ok last next →
  wp (beacon hostlen rcN progName hostName pid p last next)
    (λ '(last', next') s' o, keeps s s' ∧ times_ok last' next'
       ∧ ∀ l, pace I next' last' l → pace I next last (o ++ l)) s.
Proof using Type.
  intros Hi HI (Hi1 & Hi2 & Hnow) Hti.
  assert (wp (mret (last, next) : C tport lobs (Z * Z))
    (λ '(last', next') s' o, keeps s s' ∧ times_ok last' next'
       ∧ ∀ l, pace I next' last' l → pace I next last (o ++ l)) s) as Hsame by (apply wp_ret; by split_and!).
  unfold beacon. case_decide as H1; [|done]. case_decide as H2; [|done]. case_decide as H3; [|done].
  destruct Hi2 as [Hi2|Hi2]; [lia|]. destruct Hi as [Hr Hv].
  apply wp_bind, wp_emit, wp_bind.
  eapply wp_mono; [|apply (quiet_naming _ _ (λ _ s', keeps s s'))].
  - intros st s1 o [Hk Hq]. apply wp_ret. rewrite Hi2.
    assert (size64 (p_now p + I) = p_now p + I)%Z as Es.
    { apply wrapu_id. split; [lia|]. assert (2 ^ 62 + 2 ^ 32 < 2 ^ 64)%Z by lia. lia. }
    rewrite Es. split_and!; [done|unfold times_ok; lia|].
    intros l Hl. rewrite app_nil_r. cbn [app pace]. split; [lia|]. by apply pace_quiet.
  - eapply wp_mono; [|by eapply send_wp]. intros st n o ([k ->] & _). split; [|done].
    split; [exact Hr|]. cbn [tp_naming set_naming]. by destruct Hv.
Qed.

Lemma iteration_wp I p last next s :
  tinv s → poll_ok p → (0 <= I < 2 ^ 32)%Z → clock_ok I p → times_ok last next →
  wp (iteration hostlen rcR rcN regexec progName hostName pid mem thread dataSub p last next)
    (λ '(last', next') s' o, tinv s' ∧ tp_isNaming s' = tp_isNaming s
       ∧ tp_isDispatching s' = (if existsb is_exit (received (p_control p)) then 0%Z else tp_isDispatching s)
       ∧ times_ok last' next' ∧ ∀ l, pace I next' last' l → pace I next last (o ++ l)) s.
Proof using StrTableLaws0 WListLaws0 StrTableLaws1.
  intros Hi [Hpc Hpn Hpd] HI Hclock Hti. unfold iteration. apply wp_bind, wp_modify, wp_bind.
  eapply wp_mono; [|by apply (beacon_wp I)]. intros [last' next'] s1 o1 ((Hi1 & En1 & Ed1) & Ht1 & Hp1).
  apply wp_bind, wp_get, wp_bind. eapply wp_mono; [|by apply drain_control_wp].
  intros _ s2 o2 (Hi2 & En2 & Ed2 & Hq2). apply wp_bind.
  eapply (wp_mono _ (λ _ s' o, keeps s2 s' ∧ Forall quiet o)).
  2: { case_decide; [|by apply wp_ret; split_and!]. apply (drain_wp _ _ naming_ok); [|done|done].
       intros data s0 Hd Hs0. by apply naming_wp. }
  intros _ s3 o3 [(Hi3 & En3 & Ed3) Hq3]. apply wp_bind.
  eapply wp_mono; [|apply (drain_wp _ _ data_ok); [|exact Hpd|exact Hi3]].
  2: { intros data s0 Hd Hs0. by apply normal_wp. }
  intros _ s4 o4 [(Hi4 & En4 & Ed4) Hq4]. apply wp_ret. rewrite app_nil_r.
  split_and!; [done|rewrite En4, En3, En2, En1; done| |done|].
  - rewrite Ed4, Ed3, Ed2, Ed1. done.
  - intros l Hl. cbn [app]. rewrite <-!app_assoc. apply Hp1.
    rewrite (app_assoc o2), (app_assoc (o2 ++ o3)). apply pace_quiet; [|done].
    by rewrite !Forall_app.
Qed.

(** The polls made up to an exit. *)
Fixpoint polls_made (ps : list poll) : nat :=
  match ps with
  | [] => 0
  | p :: ps' => if exits p then 1 else S (polls_made ps')
  end.

Definition count_polls (o : list lobs) : nat :=
  length (omap (λ x, match x with lPoll _ => Some () | _ => None end) o).

Lemma loop_wp I ps last next s :
  tinv s → tp_isDispatching s = 1%Z → Forall poll_ok ps → (0 <= I < 2 ^ 32)%Z → Forall (clock_ok I) ps →
  times_ok last next →
  wp (dispatch_loop hostlen rcR rcN regexec progName hostName pid mem thread dataSub ps last next)
    (λ ended s' o, tinv s' ∧ tp_isNaming s' = tp_isNaming s ∧ ended = existsb exits ps
       ∧ (tp_isDispatching s' = if ended then 0%Z else 1%Z) ∧ pace I next last o) s.
Proof using StrTableLaws0 WListLaws0 StrTableLaws1.
  intros Hi Hd Hps HI Hcl Hti. revert last next s Hi Hd Hti.
  induction ps as [|p ps IH]; intros last next s Hi Hd Hti; cbn [dispatch_loop].
  { apply wp_bind, wp_get. rewrite decide_False by (rewrite Hd; by intros []). apply wp_ret. by split_and!. }
  apply Forall_cons in Hps as [Hp Hps]. apply Forall_cons in Hcl as [Hc Hcl].
  specialize (IH Hps Hcl). apply wp_bind, wp_get. rewrite decide_False by (rewrite Hd; by intros []).
  apply wp_bind, wp_emit.
  assert (poll_timeout p last next = -1 ∨ poll_timeout p last next = next - last)%Z as Hto.
  { unfold poll_timeout, times_ok in *. case_decide; [right|by left].
    rewrite wrapu_id by lia. apply wraps_id; lia. }
  destruct (failed_poll p) eqn:Ef.
  - assert (exits p = false) as Ex by (unfold exits; by rewrite Ef).
    unfold failed_poll in Ef. apply andb_true_iff in Ef as [Ef1 Ef2].
    apply bool_decide_eq_true in Ef1. apply negb_true_iff in Ef2. rewrite decide_True by done.
    eapply wp_mono; [|by apply IH]. intros ended s' o (? & ? & -> & ? & ?). cbn [existsb].
    rewrite Ex. cbn [app pace orb]. by split_and!.
  - rewrite decide_False.
    2: { intros [Hrc Hei]. unfold failed_poll in Ef. rewrite Hei in Ef.
         by rewrite bool_decide_eq_true_2 in Ef. }
    apply wp_bind. eapply wp_mono; [|by apply (iteration_wp I)].
    intros [last' next'] s1 o1 (Hi1 & En1 & Ed1 & Ht1 & Hp1).
    assert (exits p = existsb is_exit (received (p_control p))) as Ex by (unfold exits; by rewrite Ef).
    cbn [existsb]. rewrite Ex. destruct (existsb is_exit (received (p_control p))).
    + destruct ps as [|p' ps]; cbn [dispatch_loop]; apply wp_bind, wp_get;
        rewrite decide_True by (by rewrite Ed1); apply wp_ret; rewrite app_nil_r; cbn [orb app pace];
        split_and!; try done; specialize (Hp1 [] Logic.I); by rewrite app_nil_r in Hp1.
    + rewrite Hd in Ed1. eapply wp_mono; [|by apply IH].
      intros ended s' o (? & ? & -> & ? & Hpo). cbn [orb app pace]. split_and!; [done|congruence|done|done|done|].
      by apply Hp1.
Qed.

(** ** The thread *)

(** What the thread does before and after its loop. *)
Definition entry_log (isNaming : Z) : list lobs :=
  [lReady; lRouting (ZT.oZmq (ELock (mLock dataSub)))]
  ++ (if decide (isNaming = 1)%Z then [lNaming (ZN.nZmq (ELock (mLock namingSub)))] else []).
Definition exit_log (isNaming : Z) : list lobs :=
  [lClose; lRouting (ZT.oZmq (EUnlock (mLock dataSub)))]
  ++ (if decide (isNaming = 1)%Z then [lNaming (ZN.nZmq (EUnlock (mLock namingSub)))] else []).

Lemma thread_wp I ps start s :
  tinv s → Forall poll_ok ps → (0 <= I < 2 ^ 32)%Z → Forall (clock_ok I) ps → (0 <= start < 2 ^ 62)%Z →
  wp (zmqBridgeMamaTransportImpl_dispatchThread hostlen rcR rcN regexec progName hostName pid mem thread
        dataSub namingSub start I ps)
    (λ ended s' o, tinv s' ∧ ended = existsb exits ps
       ∧ ∃ mid, o = entry_log (tp_isNaming s) ++ mid ++ (if ended then exit_log (tp_isNaming s) else [])
           ∧ pace I (if decide (0 < I)%Z then start + I else 0)%Z 0 mid
           ∧ (if ended then tp_isDispatching s' = 0%Z ∧ tp_dispatchStatus s' = Some MAMA_STATUS_OK
              else tp_isDispatching s' = 1%Z)) s.
Proof using StrTableLaws0 WListLaws0 StrTableLaws1.
  intros Hi Hps HI Hcl Hst. unfold zmqBridgeMamaTransportImpl_dispatchThread.
  apply wp_bind, wp_modify, wp_bind, wp_emit, wp_bind, wp_zoom, wp_emit, wp_bind, wp_get. cbn [app].
  set (s1 := set_routing _ _). assert (tinv s1) as Hi1 by exact Hi.
  assert (tp_isNaming s1 = tp_isNaming s) as En1 by done. rewrite En1.
  assert ((if decide (0 < I)%Z then size64 (start + I) else 0%Z)
          = (if decide (0 < I)%Z then (start + I)%Z else 0%Z)) as En.
  { case_decide; [|done]. apply wrapu_id. lia. }
  rewrite En. apply wp_bind.
  eapply (wp_mono _ (λ _ s2 o2, tinv s2 ∧ tp_isNaming s2 = tp_isNaming s ∧ tp_isDispatching s2 = 1%Z
    ∧ o2 = if decide (tp_isNaming s = 1)%Z then [lNaming (ZN.nZmq (ELock (mLock namingSub)))] else [])).
  2: { destruct (decide (tp_isNaming s = 1)%Z); [|apply wp_ret; by split_and!]. apply wp_zoom, wp_emit. by split_and!. }
  intros _ s2 o2 (Hi2 & En2 & Ed2 & ->). apply wp_bind.
  eapply wp_mono; [|apply (loop_wp I); [done|done|done|done|done|]].
  2: { unfold times_ok. case_decide; lia. }
  intros ended s3 o3 (Hi3 & En3 & -> & Ed3 & Hp). destruct (existsb exits ps).
  - apply wp_bind, wp_emit, wp_bind, wp_zoom, wp_emit, wp_bind.
    set (s4 := set_routing _ _). assert (tinv s4) as Hi4 by exact Hi3.
    eapply (wp_mono _ (λ _ s5 o5, tinv s5 ∧ tp_isDispatching s5 = 0%Z
      ∧ o5 = if decide (tp_isNaming s = 1)%Z then [lNaming (ZN.nZmq (EUnlock (mLock namingSub)))] else [])).
    2: { destruct (decide (tp_isNaming s = 1)%Z); [|apply wp_ret; by split_and!]. apply wp_zoom, wp_emit. by split_and!. }
    intros _ s5 o5 (Hi5 & Ed5 & ->). apply wp_bind, wp_modify, wp_ret. split_and!; [exact Hi5|done|].
    exists o3. split_and!; [|done|done|done].
    rewrite app_nil_r. unfold entry_log, exit_log. by destruct (decide (tp_isNaming s = 1)%Z).
  - apply wp_ret. split_and!; [done|done|]. exists o3. split_and!; [|done|done].
    rewrite !app_nil_r. unfold entry_log, exit_log. by destruct (decide (tp_isNaming s = 1)%Z).
Qed.

(** C9: the dispatch thread, whatever zmq answers, on input that is well
    formed: control messages as the bridge sends them, naming messages whose
    fields fit, data messages that are readable and no shorter than the inbox
    prefix and [K], which bounds the keys of the wildcard subscriptions
    ([data_ok]).  It is never undefined and keeps the invariants of routing
    and discovery; it ends in the iteration that receives an exit command, and
    only then; the sockets it reads stay locked from its start to its end. *)
Theorem dispatch_thread_safe I ps start s :
  tinv s → Forall poll_ok ps → (0 <= I < 2 ^ 32)%Z → Forall (clock_ok I) ps → (0 <= start < 2 ^ 62)%Z →
  ∃ ended s' o,
    zmqBridgeMamaTransportImpl_dispatchThread hostlen rcR rcN regexec progName hostName pid mem thread
      dataSub namingSub start I ps s = Some (ended, s', o)
    ∧ tinv s' ∧ ended = existsb exits ps
    ∧ (∃ mid, o = entry_log (tp_isNaming s) ++ mid ++ if ended then exit_log (tp_isNaming s) else [])
    ∧ (ended = true → tp_isDispatching s' = 0%Z ∧ tp_dispatchStatus s' = Some MAMA_STATUS_OK).
Proof using StrTableLaws0 WListLaws0 StrTableLaws1.
  intros Hi Hps HI Hcl Hst.
  destruct (proj1 (wp_run _ _ _) (thread_wp I ps start s Hi Hps HI Hcl Hst))
    as (ended & s' & o & E & Hi' & Hen & mid & Ho & _ & Hfin).
  exists ended, s', o. split_and!; [done|done|done|by exists mid|]. intros ->. done.
Qed.

(** C38: beacons.  The first beacon is due one interval after the start of
    the thread, and consecutive beacons are at least one interval apart,
    however the clock and the traffic interleave.  Polls wait for the
    distance between the next and the last beacon; before the first beacon,
    the last is at time 0 and the timeout is the absolute time of the next:
    an idle transport sends no beacon. *)
Theorem beacon_timing I ps start s :
  tinv s → Forall poll_ok ps → (0 < I < 2 ^ 32)%Z → Forall (clock_ok I) ps → (0 <= start < 2 ^ 62)%Z →
  ∃ (ended : bool) s' mid,
    zmqBridgeMamaTransportImpl_dispatchThread hostlen rcR rcN regexec progName hostName pid mem thread
      dataSub namingSub start I ps s
    = Some (ended, s', entry_log (tp_isNaming s) ++ mid ++ if ended then exit_log (tp_isNaming s) else [])
    ∧ pace I (start + I) 0 mid.
Proof using StrTableLaws0 WListLaws0 StrTableLaws1.
  intros Hi Hps HI Hcl Hst.
  destruct (proj1 (wp_run _ _ _) (thread_wp I ps start s Hi Hps ltac:(lia) Hcl Hst))
    as (ended & s' & o & E & Hi' & Hen & mid & -> & Hp & _).
  rewrite decide_True in Hp by lia. by exists ended, s', mid.
Qed.

(** The control message of a subscription, received by the dispatch
    thread, subscribes the data socket to the first 256 characters of the
    topic, and that of its removal unsubscribes from exactly the same. *)
Theorem control_roundtrip junk topic (s : tport) :
  is_cstr topic →
  ∃ r1 s1 r2 s2,
    zmqBridgeMamaTransportImpl_dispatchControlMsg rcR dataSub (ZT.control_msg junk x53 topic) s
    = Some (if decide (r1 < 0)%Z then MAMA_STATUS_PLATFORM else MAMA_STATUS_OK, s1,
            [lRouting (ZT.oZmq (ECall (zmq_setsockopt_str (mSocket dataSub) ZMQ_SUBSCRIBE
                                         (take MAX_SUBJECT_LENGTH topic)) r1))])
    ∧ zmqBridgeMamaTransportImpl_dispatchControlMsg rcR dataSub (ZT.control_msg junk x55 topic) s1
      = Some (if decide (r2 < 0)%Z then MAMA_STATUS_PLATFORM else MAMA_STATUS_OK, s2,
              [lRouting (ZT.oZmq (ECall (zmq_setsockopt_str (mSocket dataSub) ZMQ_UNSUBSCRIBE
                                           (take MAX_SUBJECT_LENGTH topic)) r2))])
    ∧ tp_isDispatching s2 = tp_isDispatching s ∧ tp_controlMessages s2 = (tp_controlMessages s + 2)%Z.
Proof using Type.
  intros Ht.
  assert (∀ c, pMsg_command (ZT.control_msg junk c topic) = Some c) as Hc by done.
  assert (∀ c, pMsg_arg1 (ZT.control_msg junk c topic) = Some (take MAX_SUBJECT_LENGTH topic)) as Ha.
  { intros c. unfold pMsg_arg1, ZT.control_msg. cbn [drop]. rewrite wstr_take by lia.
    rewrite Nat.add_sub, <-app_assoc. cbn [app]. apply cstring_cstr. by apply is_cstr_take. }
  assert (∀ c s0, c = x53 ∨ c = x55 → ∃ r s1,
    zmqBridgeMamaTransportImpl_dispatchControlMsg rcR dataSub (ZT.control_msg junk c topic) s0
    = Some (if decide (r < 0)%Z then MAMA_STATUS_PLATFORM else MAMA_STATUS_OK, s1,
            [lRouting (ZT.oZmq (ECall (zmq_setsockopt_str (mSocket dataSub)
               (if decide (c = x53) then ZMQ_SUBSCRIBE else ZMQ_UNSUBSCRIBE)
               (take MAX_SUBJECT_LENGTH topic)) r))])
    ∧ tp_isDispatching s1 = tp_isDispatching s0
    ∧ tp_controlMessages s1 = (tp_controlMessages s0 + 1)%Z) as Hone.
  { intros c s0 Hcase. unfold zmqBridgeMamaTransportImpl_dispatchControlMsg.
    rewrite (C_bind_eq _ _ _ _ _ _ eq_refl).
    rewrite (C_bind_read _ _ _ c (count_control s0)) by (unfold cpart; by rewrite Hc).
    destruct Hcase as [-> | ->].
    - rewrite !decide_True by done.
      rewrite (C_bind_read _ _ _ (take MAX_SUBJECT_LENGTH topic) (count_control s0))
        by (unfold cpart; by rewrite Ha).
      eexists _, _. split_and!; [reflexivity|done|done].
    - rewrite !(decide_False (P := x55 = x53)), (decide_True (P := x55 = x55)) by done.
      rewrite (C_bind_read _ _ _ (take MAX_SUBJECT_LENGTH topic) (count_control s0))
        by (unfold cpart; by rewrite Ha).
      eexists _, _. split_and!; [reflexivity|done|done]. }
  destruct (Hone x53 s ltac:(by left)) as (r1 & s1 & E1 & Ed1 & Ec1).
  destruct (Hone x55 s1 ltac:(by right)) as (r2 & s2 & E2 & Ed2 & Ec2).
  exists r1, s1, r2, s2. split_and!; [exact E1|exact E2|congruence|lia].
Qed.

(** ** Publishing threads

    Welcome messages start threads; only a naming transport receives them. *)

Definition thread_start (o : lobs) : option Z :=
  match o with lNaming (ZN.nThread r) => Some r | _ => None end.

(** The answers to [wthread_create] in a log. *)
Definition thread_starts (o : list lobs) : list Z := omap thread_start o.

(** [m] starts no thread, and keeps the kind of the transport. *)
Definition starts_none {A} (m : C tport lobs A) : Prop := ∀ s a s' o,
  m s = Some (a, s', o) → tp_isNaming s' = tp_isNaming s ∧ thread_starts o = [].

Lemma starts_none_bind {A B} (m : C tport lobs A) (k : A → C tport lobs B) :
  starts_none m → (∀ a, starts_none (k a)) → starts_none (m ≫= k).
Proof using Type.
  intros Hm Hk s b s2 o (a & s1 & o1 & o2 & E1 & E2 & ->)%C_bind_Some.
  apply Hm in E1 as [<- E1]. apply Hk in E2 as [<- E2]. unfold thread_starts in *. by rewrite omap_app, E1, E2.
Qed.

Lemma starts_none_ret {A} (a : A) : starts_none (mret a).
Proof using Type. by intros s a' s' o [= <- <- <-]. Qed.

Lemma starts_none_modify f : (∀ s : tport, tp_isNaming (f s) = tp_isNaming s) → starts_none (cmodify f).
Proof using Type. intros Hf s a' s' o [= <- <- <-]. by rewrite Hf. Qed.

Lemma starts_none_emit x : thread_start x = None → starts_none (emit x).
Proof using Type. intros Hx s a' s' o [= <- <- <-]. split; [done|]. unfold thread_starts. cbn. by rewrite Hx. Qed.

Lemma starts_none_part {A} (x : option A) : starts_none (cpart x).
Proof using Type. intros s a' s' o E. unfold cpart in E. destruct x; [|done]. by injection E as <- <- <-. Qed.

Lemma starts_none_routing {A} (m : C (ZT.transport T P L) ZT.tobs A) : starts_none (on_routing m).
Proof using Type.
  intros s a s' o E. unfold on_routing, zoom in E. destruct (m (tp_routing s)) as [[[a' r] o']|]; [|done].
  injection E as <- <- <-. split; [done|]. unfold thread_starts. induction o' as [|x o' IH]; [done|]. exact IH.
Qed.

(** The messages a transport sends about itself. *)
Lemma starts_none_send command :
  starts_none (on_naming (ZN.zmqBridgeMamaTransportImpl_sendEndpointsMsg hostlen rcN progName hostName pid command)).
Proof using Type.
  intros s a s' o E. unfold on_naming, zoom in E. destruct (ZN.zmqBridgeMamaTransportImpl_sendEndpointsMsg _ _ _ _ _ _ _)
    as [[[a' n] o']|] eqn:Em; [|done]. injection E as <- <- <-. split; [done|].
  unfold ZN.zmqBridgeMamaTransportImpl_sendEndpointsMsg in Em.
  apply C_bind_Some in Em as (n1 & n2 & ? & o2 & [= <- <- <-] & Em & ->).
  apply C_bind_Some in Em as (msg & n3 & ? & o3 & Ep & Em & ->). unfold cpart in Ep.
  destruct (ZN.endpointsMsg _ _ _ _ _ _); [|done]. injection Ep as <- <- <-. by injection Em as <- <- <-.
Qed.

Lemma starts_none_lock l : starts_none (on_naming (wlock_lock l)).
Proof using Type. by intros s a' s' o [= <- <- <-]. Qed.

Lemma starts_none_unlock l : starts_none (on_naming (wlock_unlock l)).
Proof using Type. by intros s a' s' o [= <- <- <-]. Qed.

Lemma starts_none_drain dispatch msgs :
  (∀ data, starts_none (dispatch data)) → starts_none (drain (T:=T) (P:=P) (L:=L) (N:=N) dispatch msgs).
Proof using Type.
  intros Hd. induction msgs as [|[|b data] msgs IH]; cbn [drain];
    [apply starts_none_ret..|]. by apply starts_none_bind; [|intros _].
Qed.

Lemma starts_none_control data : starts_none (dispatchControl rcR dataSub data).
Proof using Type.
  unfold dispatchControl, zmqBridgeMamaTransportImpl_dispatchControlMsg.
  apply starts_none_bind; [|intros; apply starts_none_ret].
  apply starts_none_bind; [by apply starts_none_modify|intros _].
  apply starts_none_bind; [apply starts_none_part|intros c].
  repeat case_decide; [..|apply starts_none_ret].
  1-2: apply starts_none_bind; [apply starts_none_part|intros topic; apply starts_none_routing].
  apply starts_none_bind; [by apply starts_none_modify|intros; apply starts_none_ret].
Qed.

Lemma starts_none_beacon p last next : starts_none (beacon hostlen rcN progName hostName pid p last next).
Proof using Type.
  unfold beacon. repeat case_decide; try apply starts_none_ret.
  apply starts_none_bind; [by apply starts_none_emit|intros _].
  apply starts_none_bind; [apply starts_none_send|intros; apply starts_none_ret].
Qed.

(** Reading the state, when it only decides about naming sockets. *)
Lemma not_naming_get {A} (k : tport → C tport lobs A) s a s' o :
  (cget ≫= k) s = Some (a, s', o) → k s s = Some (a, s', o).
Proof using Type. intros (? & ? & ? & ? & [= <- <- <-] & E & ->)%C_bind_Some. exact E. Qed.

Lemma not_naming_iteration p last next s a s' o :
  tp_isNaming s ≠ 1%Z →
  iteration hostlen rcR rcN regexec progName hostName pid mem thread dataSub p last next s = Some (a, s', o) →
  tp_isNaming s' = tp_isNaming s ∧ thread_starts o = [].
Proof using Type.
  intros Hn E. unfold iteration in E.
  apply C_bind_Some in E as ([] & s1 & o1 & o2 & [= <- <-] & E & ->).
  apply C_bind_Some in E as (times & s2 & o3 & o4 & Eb & E & ->). apply starts_none_beacon in Eb as [En Eb].
  apply not_naming_get in E. rewrite decide_False in E by (rewrite En; exact Hn).
  assert (starts_none (drain (dispatchControl rcR dataSub) (p_control p) ;; (mret () : C tport lobs ()) ;;
    drain (dispatchNormal regexec) (p_data p) ;; (mret times : C tport lobs (Z * Z)))) as Hrest.
  { apply starts_none_bind; [apply starts_none_drain, starts_none_control|intros _].
    apply starts_none_bind; [apply starts_none_ret|intros _].
    apply starts_none_bind; [apply starts_none_drain|intros _; apply starts_none_ret].
    intros data. unfold dispatchNormal. apply starts_none_bind; [apply starts_none_routing|intros; apply starts_none_ret]. }
  apply Hrest in E as [En2 E]. unfold thread_starts in *. rewrite !omap_app, Eb, E. by rewrite En2, En.
Qed.

Lemma not_naming_loop ps last next s a s' o :
  tp_isNaming s ≠ 1%Z →
  dispatch_loop hostlen rcR rcN regexec progName hostName pid mem thread dataSub ps last next s = Some (a, s', o) →
  tp_isNaming s' = tp_isNaming s ∧ thread_starts o = [].
Proof using Type.
  revert last next s a s' o. induction ps as [|p ps IH]; intros last next s a s' o Hn E; cbn [dispatch_loop] in E;
    apply not_naming_get in E; (case_decide; [by apply starts_none_ret in E|]); [by apply starts_none_ret in E|].
  apply C_bind_Some in E as ([] & s1 & o1 & o2 & [= <- <-] & E & ->). case_decide; [by apply IH in E|].
  apply C_bind_Some in E as ([l' n'] & s2 & o3 & o4 & Ei & E & ->).
  apply not_naming_iteration in Ei as [En Ei]; [|done]. apply IH in E as [En2 E]; [|by rewrite En].
  unfold thread_starts in *. cbn [app omap list_omap thread_start]. by rewrite omap_app, Ei, E, En2, En.
Qed.

(** The dispatch thread of a transport that is not a naming one. *)
Lemma not_naming_thread start I ps s a s' o :
  tp_isNaming s ≠ 1%Z →
  zmqBridgeMamaTransportImpl_dispatchThread hostlen rcR rcN regexec progName hostName pid mem thread
    dataSub namingSub start I ps s = Some (a, s', o) → thread_starts o = [].
Proof using Type.
  intros Hn E. unfold zmqBridgeMamaTransportImpl_dispatchThread in E.
  apply C_bind_Some in E as ([] & s1 & o1 & o2 & [= <- <-] & E & ->).
  apply C_bind_Some in E as ([] & s2 & o3 & o4 & [= <- <-] & E & ->).
  apply C_bind_Some in E as ([] & s3 & o5 & o6 & El & E & ->). apply starts_none_routing in El as [En El].
  apply not_naming_get in E.
  apply C_bind_Some in E as ([] & s4 & o7 & o8 & Er & E & ->).
  rewrite decide_False in Er by (rewrite En; exact Hn).
  change (Some ((), s3, []) = Some ((), s4, o7)) in Er. injection Er as <- <-.
  apply C_bind_Some in E as (ended & s5 & o9 & o10 & Eloop & E & ->).
  apply not_naming_loop in Eloop as [En5 Eloop]; [|rewrite En; exact Hn].
  assert (thread_starts o10 = []) as Eend.
  { destruct ended; [|by apply starts_none_ret in E as [_ E]].
    assert (starts_none (emit lClose ;; on_routing (wlock_unlock (mLock dataSub)) ;;
      (if decide (tp_isNaming s3 = 1)%Z then on_naming (wlock_unlock (mLock namingSub)) else mret ()) ;;
      cmodify (set_status MAMA_STATUS_OK) ;; (mret true : C tport lobs bool))) as Hrest.
    { apply starts_none_bind; [by apply starts_none_emit|intros _].
      apply starts_none_bind; [apply starts_none_routing|intros _].
      apply starts_none_bind; [case_decide; [apply starts_none_unlock|apply starts_none_ret]|intros _].
      apply starts_none_bind; [by apply starts_none_modify|intros _; apply starts_none_ret]. }
    by apply Hrest in E as [_ E]. }
  unfold thread_starts in *. by rewrite !omap_app, El, Eloop, Eend.
Qed.

End TransportProofs.

(** ** A thread that runs, and the theorems at it *)

Definition demo_tport : tport (gmap (list byte) ZT.ptr) (list (list byte * list byte * ZT.ptr)) (list ZT.ptr)
    (gmap (list byte) (list byte)) :=
  mkTport demo_transport (demo_node uuid_a ep_a) 1 0 0 0 None.

Lemma demo_tport_inv : tinv ep_a 6 demo_tport.
Proof.
  split; [split; [apply demo_transport_inv|]|apply demo_valid_a]. by intros p i key ?%not_elem_of_nil.
Qed.

(** Woken up by an unsubscribe, a peer's beacon, and the exit command. *)
Definition demo_polls : list poll :=
  [mkPoll 1000 1 false 1000 1000500 [ZT.control_msg (λ _, x00) x55 (lit "IBM")] [] [];
   mkPoll 1000 1 false 1000 1001200 [] [ZN.naming_bytes MAXHOST (NamingProofs.demo_msg x63)] [demo_msg1];
   mkPoll 0 1 false 0 1001300 [ZT.control_msg (λ _, x00) x58 []] [] []].

Lemma demo_polls_ok : Forall (poll_ok MAXHOST 6) demo_polls ∧ Forall (clock_ok 1000) demo_polls.
Proof.
  split.
  - repeat apply Forall_cons_2; try apply Forall_nil_2; split;
      repeat apply Forall_cons_2; try apply Forall_nil_2.
    + intros c rest [= <- <-] _. by eexists.
    + exists (NamingProofs.demo_msg x63). split; [apply demo_msg_fits|done].
    + split; [apply demo_readable|]. vm_compute. lia.
    + intros c rest [= <- <-] [?|?]; done.
  - repeat apply Forall_cons_2; try apply Forall_nil_2; unfold clock_ok; cbn; lia.
Qed.

Definition demo_thread :=
  zmqBridgeMamaTransportImpl_dispatchThread MAXHOST demo_rc (λ _, ok_answer) demo_regexec (lit "prog")
    (lit "host") 42 true 0 (mkSocket 1 101 0) (mkSocket 4 104 0) 1000000 1000 demo_polls.

Lemma dispatch_thread_safe_witness :
  ∃ s' o, demo_thread demo_tport = Some (true, s', o) ∧ tinv ep_a 6 s' ∧ tp_isDispatching s' = 0%Z.
Proof.
  destruct (dispatch_thread_safe MAXHOST demo_rc (λ _, ok_answer) demo_regexec (lit "prog") (lit "host") 42
    true 0 (mkSocket 1 101 0) (mkSocket 4 104 0) ep_a 6 1000 demo_polls 1000000 demo_tport
    demo_tport_inv (proj1 demo_polls_ok) ltac:(lia) (proj2 demo_polls_ok) ltac:(lia))
    as (ended & s' & o & E & Hi & Hen & _ & Hd).
  assert (ended = true) as -> by (rewrite Hen; reflexivity).
  exists s', o. split_and!; [exact E|exact Hi|by apply Hd].
Defined.

Lemma beacon_timing_witness :
  ∃ (ended : bool) s' mid,
    demo_thread demo_tport
    = Some (ended, s', entry_log (mkSocket 1 101 0) (mkSocket 4 104 0) 1 ++ mid
        ++ if ended then exit_log (mkSocket 1 101 0) (mkSocket 4 104 0) 1 else [])
    ∧ pace 1000 1001000 0 mid.
Proof.
  exact (beacon_timing MAXHOST demo_rc (λ _, ok_answer) demo_regexec (lit "prog") (lit "host") 42
    true 0 (mkSocket 1 101 0) (mkSocket 4 104 0) ep_a 6 1000 demo_polls 1000000 demo_tport
    demo_tport_inv (proj1 demo_polls_ok) ltac:(lia) (proj2 demo_polls_ok) ltac:(lia)).
Defined.

Lemma control_roundtrip_witness :
  ∃ r1 s1,
    zmqBridgeMamaTransportImpl_dispatchControlMsg demo_rc (mkSocket 1 101 0)
      (ZT.control_msg (λ _, x41) x53 (lit "IBM")) demo_tport
    = Some (if decide (r1 < 0)%Z then MAMA_STATUS_PLATFORM else MAMA_STATUS_OK, s1,
            [lRouting (ZT.oZmq (ECall (zmq_setsockopt_str 1 ZMQ_SUBSCRIBE (lit "IBM")) r1))]).
Proof.
  destruct (control_roundtrip demo_rc (mkSocket 1 101 0) (λ _, x41) (lit "IBM") demo_tport)
    as (r1 & s1 & r2 & s2 & E & _); [by_decide|]. by exists r1, s1.
Defined.
