(* ===== verification/Lifecycle.v ===== *)
(** * Life cycle of a transport (src/src/transport.c, "startup/shutdown")

    Creation, initialization, start, stop and destruction of a transport,
    and its monitor: the order of the calls, the early returns of
    [CALL_MAMA_FUNC], and what is acquired and released.  The running parts
    (dispatchers, discovery, dispatch thread) are those of [Routing],
    [Naming] and [Transport]; [routing_of], [naming_of] and [tport_of] are
    their views of the bridge. *)

From S2P Require Import Prelude CLib CMonad CNum CDouble Util Params Msg Socket Collections Routing Naming Transport.
Import ZM ZU Sock.

Module Life.

#[local] Existing Instances ZT.transport_zmq ZN.naming_zmq.

(** ** Data *)

(** The eight sockets of the bridge. *)
Inductive sock :=
  | ControlSub | ControlPub | DataPub | DataSub | NamingPub | NamingSub | MonitorPub | MonitorSub.

#[export] Instance sock_eq_dec : EqDecision sock.
Proof. solve_decision. Defined.

Inductive thread := tDispatch | tMonitor | tPublish.

(** What the bridge owns. *)
Inductive resource :=
  | rImpl | rReady | rWcEndpoints | rPeers | rInboxes | rSubEndpoints | rUuid | rInboxSubject
  | rPubEndpoint | rNamingAddress (address : list byte)
  | rContext | rSocket (s : Z) | rLock (l : Z) | rThread (t : thread).

(** Events: library calls and locks, allocations and releases, threads. *)
Inductive event :=
  | eZmq (e : zobs)
  | eRouting (e : ZT.tobs)
  | eNaming (e : ZN.nobs)
  | eAcquire (r : resource)
  | eRelease (r : resource)
  | eThread (t : thread) (rc : Z)
  | eJoin (t : thread) (rc : Z)
  | eWaitReady
  | eSleep (micros : Z)
  | eShutdown
  | eDisableRefresh (v : Z)
  | eEnableLogging (level : Z)
  | eResult.

(** The configuration of [params.c]. *)
Record config := mkConfig {
  c_name : list byte;
  c_common : Params.commonParams;
  c_naming : Params.namingParams;
  c_incoming : list (option (list byte));
  c_outgoing : list (option (list byte)) }.

(** What [calloc] leaves there. *)
Definition zero_config : config :=
  mkConfig [] (Params.mkCommon 0 0 0 0 None 0 0 0 0 0)
    (Params.mkNamingParams 0 0 0 0 (replicate Params.ZMQ_MAX_NAMING_URIS None))
    (replicate Params.ZMQ_MAX_URIS None) (replicate Params.ZMQ_MAX_URIS None).

(** ** The bridge *)

Section Life.

Context {T P L N : Type}.

(** The fields of [zmqTransportBridge] that the life cycle touches (the
    collections are [None] while they are NULL), with the number of library
    calls and the next lock. *)
Record bridge := mkBridge {
  b_cfg : config;
  b_ctx : Z;
  b_sock : sock → zmqSocket;
  b_pubEndpoint : option (list byte);
  b_beacon : Z;
  b_monitoring : Z;
  b_connected : Z;
  b_uuid : list byte;
  b_inboxSubject : list byte;
  b_wcs : option L;
  b_peers : option N;
  b_inboxes : option T;
  b_pool : option P;
  b_wcsLock : Z;
  b_inboxesLock : Z;
  b_subsLock : Z;
  b_isValid : Z;
  b_calls : nat;
  b_next : Z }.

Definition set_cfg c s := mkBridge c (b_ctx s) (b_sock s) (b_pubEndpoint s) (b_beacon s) (b_monitoring s) (b_connected s) (b_uuid s) (b_inboxSubject s) (b_wcs s) (b_peers s) (b_inboxes s) (b_pool s) (b_wcsLock s) (b_inboxesLock s) (b_subsLock s) (b_isValid s) (b_calls s) (b_next s).
Definition set_ctx c s := mkBridge (b_cfg s) c (b_sock s) (b_pubEndpoint s) (b_beacon s) (b_monitoring s) (b_connected s) (b_uuid s) (b_inboxSubject s) (b_wcs s) (b_peers s) (b_inboxes s) (b_pool s) (b_wcsLock s) (b_inboxesLock s) (b_subsLock s) (b_isValid s) (b_calls s) (b_next s).
Definition set_sock k v s := mkBridge (b_cfg s) (b_ctx s) (λ k', if decide (k' = k) then v else b_sock s k') (b_pubEndpoint s) (b_beacon s) (b_monitoring s) (b_connected s) (b_uuid s) (b_inboxSubject s) (b_wcs s) (b_peers s) (b_inboxes s) (b_pool s) (b_wcsLock s) (b_inboxesLock s) (b_subsLock s) (b_isValid s) (b_calls s) (b_next s).
Definition set_endpoint e s := mkBridge (b_cfg s) (b_ctx s) (b_sock s) e (b_beacon s) (b_monitoring s) (b_connected s) (b_uuid s) (b_inboxSubject s) (b_wcs s) (b_peers s) (b_inboxes s) (b_pool s) (b_wcsLock s) (b_inboxesLock s) (b_subsLock s) (b_isValid s) (b_calls s) (b_next s).
Definition set_beacon v s := mkBridge (b_cfg s) (b_ctx s) (b_sock s) (b_pubEndpoint s) v (b_monitoring s) (b_connected s) (b_uuid s) (b_inboxSubject s) (b_wcs s) (b_peers s) (b_inboxes s) (b_pool s) (b_wcsLock s) (b_inboxesLock s) (b_subsLock s) (b_isValid s) (b_calls s) (b_next s).
Definition set_monitoring v s := mkBridge (b_cfg s) (b_ctx s) (b_sock s) (b_pubEndpoint s) (b_beacon s) v (b_connected s) (b_uuid s) (b_inboxSubject s) (b_wcs s) (b_peers s) (b_inboxes s) (b_pool s) (b_wcsLock s) (b_inboxesLock s) (b_subsLock s) (b_isValid s) (b_calls s) (b_next s).
Definition set_ids u i s := mkBridge (b_cfg s) (b_ctx s) (b_sock s) (b_pubEndpoint s) (b_beacon s) (b_monitoring s) (b_connected s) u i (b_wcs s) (b_peers s) (b_inboxes s) (b_pool s) (b_wcsLock s) (b_inboxesLock s) (b_subsLock s) (b_isValid s) (b_calls s) (b_next s).
Definition set_wcs w l s := mkBridge (b_cfg s) (b_ctx s) (b_sock s) (b_pubEndpoint s) (b_beacon s) (b_monitoring s) (b_connected s) (b_uuid s) (b_inboxSubject s) w (b_peers s) (b_inboxes s) (b_pool s) l (b_inboxesLock s) (b_subsLock s) (b_isValid s) (b_calls s) (b_next s).
Definition set_peers p s := mkBridge (b_cfg s) (b_ctx s) (b_sock s) (b_pubEndpoint s) (b_beacon s) (b_monitoring s) (b_connected s) (b_uuid s) (b_inboxSubject s) (b_wcs s) p (b_inboxes s) (b_pool s) (b_wcsLock s) (b_inboxesLock s) (b_subsLock s) (b_isValid s) (b_calls s) (b_next s).
Definition set_inboxes t l s := mkBridge (b_cfg s) (b_ctx s) (b_sock s) (b_pubEndpoint s) (b_beacon s) (b_monitoring s) (b_connected s) (b_uuid s) (b_inboxSubject s) (b_wcs s) (b_peers s) t (b_pool s) (b_wcsLock s) l (b_subsLock s) (b_isValid s) (b_calls s) (b_next s).
Definition set_pool p l s := mkBridge (b_cfg s) (b_ctx s) (b_sock s) (b_pubEndpoint s) (b_beacon s) (b_monitoring s) (b_connected s) (b_uuid s) (b_inboxSubject s) (b_wcs s) (b_peers s) (b_inboxes s) p (b_wcsLock s) (b_inboxesLock s) l (b_isValid s) (b_calls s) (b_next s).
Definition set_valid v s := mkBridge (b_cfg s) (b_ctx s) (b_sock s) (b_pubEndpoint s) (b_beacon s) (b_monitoring s) (b_connected s) (b_uuid s) (b_inboxSubject s) (b_wcs s) (b_peers s) (b_inboxes s) (b_pool s) (b_wcsLock s) (b_inboxesLock s) (b_subsLock s) v (b_calls s) (b_next s).
Definition set_calls n s := mkBridge (b_cfg s) (b_ctx s) (b_sock s) (b_pubEndpoint s) (b_beacon s) (b_monitoring s) (b_connected s) (b_uuid s) (b_inboxSubject s) (b_wcs s) (b_peers s) (b_inboxes s) (b_pool s) (b_wcsLock s) (b_inboxesLock s) (b_subsLock s) (b_isValid s) n (b_next s).
Definition set_next n s := mkBridge (b_cfg s) (b_ctx s) (b_sock s) (b_pubEndpoint s) (b_beacon s) (b_monitoring s) (b_connected s) (b_uuid s) (b_inboxSubject s) (b_wcs s) (b_peers s) (b_inboxes s) (b_pool s) (b_wcsLock s) (b_inboxesLock s) (b_subsLock s) (b_isValid s) (b_calls s) n.

(** [calloc]: everything zero; the counters belong to the outside. *)
Definition calloc (s : bridge) : bridge :=
  mkBridge zero_config 0 (λ _, mkSocket 0 0 0) None 0 0 0 [] [] None None None None 0 0 0 0 (b_calls s) (b_next s).

#[export] Instance bridge_zmq : Zmq bridge event :=
  {| zcount := b_calls; ztick s := set_calls (S (b_calls s)) s; zlog := eZmq |}.

Local Notation BC := (C bridge event).

(** Empty collections, as they are created. *)
Context (noT : T) (noP : P) (noL : L) (noN : N).

(** The view of [Routing]: the inboxes and subscriptions it allocates are
    none at the start. *)
Definition routing_of (s : bridge) : ZT.transport T P L :=
  ZT.mkTransport (b_inboxSubject s) 0 0 0 (default noT (b_inboxes s)) (default noP (b_pool s))
    (default noL (b_wcs s)) 0 0 0 (b_sock s ControlPub) (b_subsLock s) (b_wcsLock s) (b_inboxesLock s)
    ∅ ∅ 0 ∅ (b_calls s).

(** The view of [Naming]. *)
Definition naming_of (s : bridge) : ZN.naming N :=
  ZN.mkN (b_uuid s) (b_pubEndpoint s) (default noN (b_peers s)) (b_connected s) 0 0
    (b_sock s DataSub) (b_sock s DataPub) (b_sock s NamingPub)
    (Params.mReconnectInterval (c_common (b_cfg s))) (Params.mHeartbeatInterval (c_common (b_cfg s)))
    (b_calls s).

(** The view of the dispatch thread. *)
Definition tport_of (s : bridge) : ZL.tport T P L N :=
  ZL.mkTport (routing_of s) (naming_of s) (Params.mIsNaming (c_common (b_cfg s))) 0 0 0 (Some MAMA_STATUS_OK).

Definition on_routing {A} (m : C (ZT.transport T P L) ZT.tobs A) : BC A :=
  zoom routing_of (λ r, set_calls (ZT.z_calls r)) eRouting m.
Definition on_naming {A} (m : C (ZN.naming N) ZN.nobs A) : BC A :=
  zoom naming_of (λ n, set_calls (ZN.n_calls n)) eNaming m.

(** ** The environment *)

Context `{!WStr}.
(** zmq: return codes, strings read back, [zmq_ctx_new], the event masks. *)
Context (rc : nat → zcall → Z) (endpoint_of : nat → list byte) (rcCtx mask allEvents : Z).
(** Threads: [wthread_create] and [wthread_join]. *)
Context (rcThread rcJoin : thread → Z).
(** The naming message. *)
Context (MAXHOSTNAMELEN : nat) (progName hostName : list byte) (pid : Z).

(** [CALL_MAMA_FUNC (x); k] *)
Definition CALL_MAMA_FUNC (x k : BC mama_status) : BC mama_status :=
  s ← x;
  if decide (s ≠ MAMA_STATUS_OK) then mret s else k.

(** The socket functions on a socket of the bridge; a socket that was
    created, even with an error later, is stored with its new lock. *)
Definition createSocket (k : sock) (type : sockType) (name : list byte) (monitor : Z) : BC mama_status :=
  s ← cget;
  '(status, sk) ← zmqBridgeMamaTransportImpl_createSocket rc (b_next s) mask type (Some name) monitor;
  match sk with
  | Some sk =>
      emit (eAcquire (rLock (b_next s))) ;;
      cmodify (λ s, set_next (b_next s + 1) (set_sock k sk s))
  | None => mret ()
  end ;;
  mret status.
Definition bindSocket (k : sock) (uri : list byte) : BC mama_status :=
  s ← cget;
  r ← zmqBridgeMamaTransportImpl_bindSocket rc endpoint_of (b_sock s k) uri false;
  mret (fst r).
Definition connectSocket (k : sock) (uri : list byte) (reconnectInterval heartbeatInterval : Z) : BC mama_status :=
  s ← cget;
  zmqBridgeMamaTransportImpl_connectSocket rc (b_sock s k) uri reconnectInterval heartbeatInterval.
Definition setCommonSocketOptions (k : sock) : BC mama_status :=
  s ← cget; zmqBridgeMamaTransportImpl_setCommonSocketOptions rc (b_sock s k).
Definition stopReconnectOnError (k : sock) (options : Z) : BC mama_status :=
  s ← cget; zmqBridgeMamaTransportImpl_stopReconnectOnError rc (b_sock s k) options.
Definition subscribe (k : sock) (topic : list byte) : BC mama_status :=
  s ← cget; zmqBridgeMamaTransportImpl_subscribe rc (mSocket (b_sock s k)) topic.
Definition destroySocket (k : sock) : BC mama_status :=
  s ← cget; zmqBridgeMamaTransportImpl_destroySocket rc allEvents (b_sock s k).

(** ** The monitor *)

Definition ZMQ_CONTROL_ENDPOINT : list byte := lit "inproc://control".
Definition ZMQ_MONITOR_ENDPOINT : list byte := lit "inproc://monitor".

(** The zeroed [zmqControlMsg] with command 'X'. *)
Definition exit_msg : list byte := x58 :: replicate (MAX_SUBJECT_LENGTH + 1) NUL.

Definition zmqBridgeMamaTransportImpl_startMonitor : BC mama_status :=
  CALL_MAMA_FUNC (createSocket MonitorSub ZMQ_SERVER (lit "monitorSub") 0) (
  CALL_MAMA_FUNC (bindSocket MonitorSub ZMQ_MONITOR_ENDPOINT) (
  CALL_MAMA_FUNC (createSocket MonitorPub ZMQ_CLIENT (lit "monitorPub") 0) (
  CALL_MAMA_FUNC (connectSocket MonitorPub ZMQ_MONITOR_ENDPOINT 0 0) (
  cmodify (set_monitoring 1) ;;
  emit (eThread tMonitor (rcThread tMonitor)) ;;
  mret (if decide (rcThread tMonitor ≠ 0)%Z then MAMA_STATUS_PLATFORM else MAMA_STATUS_OK))))).

(** A failed send or join is only logged; the send is not locked. *)
Definition zmqBridgeMamaTransportImpl_stopMonitor : BC mama_status :=
  cmodify (set_monitoring 0) ;;
  s ← cget;
  _ ← zmq rc (zmq_send (mSocket (b_sock s MonitorPub)) exit_msg);
  emit (eJoin tMonitor (rcJoin tMonitor)) ;;
  CALL_MAMA_FUNC (zmqBridgeMamaTransportImpl_disconnectSocket rc (b_sock s MonitorPub) ZMQ_MONITOR_ENDPOINT) (
  CALL_MAMA_FUNC (destroySocket MonitorPub) (
  CALL_MAMA_FUNC (zmqBridgeMamaTransportImpl_unbindSocket rc (b_sock s MonitorSub) ZMQ_MONITOR_ENDPOINT) (
  CALL_MAMA_FUNC (destroySocket MonitorSub) (
  mret MAMA_STATUS_OK)))).

(** ** Initialization *)

(** The loops over the addresses, with their early return. *)
Fixpoint call_all (f : list byte → BC mama_status) (addresses : list (list byte)) (k : BC mama_status)
    : BC mama_status :=
  match addresses with
  | [] => k
  | a :: addresses' => CALL_MAMA_FUNC (f a) (call_all f addresses' k)
  end.

(** [sprintf (endpointAddress, "tcp://%s:*", mPublishAddress)]. *)
Definition publish_uri (c : config) : option (list byte) :=
  a ← Params.mPublishAddress (c_common c);
  strcpy Params.ENDPOINT_SIZE (lit "tcp://" ++ a ++ lit ":*").

(** The bind of the data publisher, which keeps the endpoint. *)
Definition bind_dataPub : BC mama_status :=
  s ← cget;
  uri ← cpart (publish_uri (b_cfg s));
  r ← zmqBridgeMamaTransportImpl_bindSocket rc endpoint_of (b_sock s DataPub) uri true;
  match r.2 with
  | Some e => emit (eAcquire rPubEndpoint) ;; cmodify (set_endpoint (Some e))
  | None => mret ()
  end ;;
  mret (fst r).

Definition bindOrConnect (k : sock) (direction : zmqTransportDirection) (ri hi : Z) (uri : list byte)
    : BC mama_status :=
  s ← cget; zmqBridgeMamaTransportImpl_bindOrConnect rc endpoint_of (b_sock s k) uri direction ri hi.

(** The control sockets, the data sockets, and the inbox subscription. *)
Definition init_sockets (monitor : Z) (inboxSubject : list byte) (k : BC mama_status) : BC mama_status :=
  CALL_MAMA_FUNC (createSocket ControlSub ZMQ_PULL (lit "controlSub") 0) (
  CALL_MAMA_FUNC (bindSocket ControlSub ZMQ_CONTROL_ENDPOINT) (
  CALL_MAMA_FUNC (createSocket ControlPub ZMQ_PUSH (lit "controlPub") 0) (
  CALL_MAMA_FUNC (connectSocket ControlPub ZMQ_CONTROL_ENDPOINT (-1) 0) (
  CALL_MAMA_FUNC (createSocket DataPub ZMQ_PUB (lit "dataPub") monitor) (
  CALL_MAMA_FUNC (createSocket DataSub ZMQ_SUB (lit "dataSub") monitor) (
  CALL_MAMA_FUNC (setCommonSocketOptions DataPub) (
  CALL_MAMA_FUNC (setCommonSocketOptions DataSub) (
  CALL_MAMA_FUNC (subscribe DataSub inboxSubject) k)))))))).

Definition init_naming (monitor options : Z) (k : BC mama_status) : BC mama_status :=
  CALL_MAMA_FUNC (stopReconnectOnError DataSub options) (
  CALL_MAMA_FUNC (createSocket NamingPub ZMQ_PUB (lit "namingPub") monitor) (
  CALL_MAMA_FUNC (stopReconnectOnError NamingPub options) (
  CALL_MAMA_FUNC (createSocket NamingSub ZMQ_SUB (lit "namingSub") monitor) (
  CALL_MAMA_FUNC (subscribe NamingSub ZN.ZMQ_NAMING_PREFIX) k)))).

Definition init_endpoints (c : config) : BC mama_status :=
  let ri := Params.mReconnectInterval (c_common c) in
  let hi := Params.mHeartbeatInterval (c_common c) in
  if decide (Params.mIsNaming (c_common c) = 1)%Z then
    CALL_MAMA_FUNC bind_dataPub (
    call_all (λ a, connectSocket NamingSub a ri hi)
      (Params.used_addresses (Params.mNamingAddress (c_naming c))) (mret MAMA_STATUS_OK))
  else
    call_all (bindOrConnect DataPub ZMQ_TPORT_DIRECTION_OUTGOING ri hi)
      (Params.used_addresses (c_outgoing c)) (
    call_all (bindOrConnect DataSub ZMQ_TPORT_DIRECTION_INCOMING ri hi)
      (Params.used_addresses (c_incoming c)) (mret MAMA_STATUS_OK)).

Definition zmqBridgeMamaTransportImpl_init : BC mama_status :=
  if decide (rcCtx = 0)%Z then cmodify (set_ctx rcCtx) ;; mret MAMA_STATUS_PLATFORM
  else
    cmodify (set_ctx rcCtx) ;;
    emit (eAcquire rContext) ;;
    s ← cget;
    let c := b_cfg s in
    let monitor := Params.mSocketMonitor (c_common c) in
    init_sockets monitor (b_inboxSubject s) (
    (if decide (Params.mIsNaming (c_common c) = 1)%Z
     then init_naming monitor (Params.mReconnectOptions (c_common c))
     else λ k, k) (
    (if decide (monitor ≠ 0)%Z then CALL_MAMA_FUNC zmqBridgeMamaTransportImpl_startMonitor
     else λ k, k) (
    init_endpoints c))).

(** ** Start and stop *)

(** [conn]: the reads of [mNamingConnected] while it waits. *)
Definition zmqBridgeMamaTransportImpl_start (conn : nat → Z) : BC mama_status :=
  s ← cget;
  let c := b_cfg s in
  emit (eThread tDispatch (rcThread tDispatch)) ;;
  let '(status, sleeps) :=
    ZN.zmqBridgeMamaTransportImpl_start (rcThread tDispatch) (Params.mIsNaming (c_common c))
      (Params.mNamingWaitForConnect (c_naming c)) (Params.mNamingConnectRetries (c_naming c)) conn in
  cforeach emit (replicate sleeps (eSleep (Params.mNamingConnectInterval (c_naming c)))) ;;
  mret status.

Definition zmqBridgeMamaTransportImpl_stop : BC mama_status :=
  cmodify (set_beacon 0) ;;
  emit eWaitReady ;;
  s ← cget;
  (if decide (Params.mIsNaming (c_common (b_cfg s)) = 1)%Z then
     CALL_MAMA_FUNC (on_naming (ZN.zmqBridgeMamaTransportImpl_sendEndpointsMsg MAXHOSTNAMELEN rc
                                  progName hostName pid x44))
   else λ k, k) (
  CALL_MAMA_FUNC (on_routing (ZT.zmqBridgeMamaTransportImpl_sendCommand rc exit_msg)) (
  emit (eJoin tDispatch (rcJoin tDispatch)) ;;
  mret (if decide (rcJoin tDispatch ≠ 0)%Z then MAMA_STATUS_PLATFORM else MAMA_STATUS_OK))).

(** ** Creation *)

(** [zmqBridge_generateUuid]: the text of a new uuid, unless the system
    fails to generate one; the outer [None] is a text that does not fit. *)
Definition zmqBridge_generateUuid (uuid : option (list byte)) : option (option (list byte)) :=
  match uuid with
  | None => Some None
  | Some text => Some <$> strcpy (UUID_STRING_SIZE + 1) text
  end.

(** The answers of memory, OpenMAMA's collections and the system. *)
Record createEnv := mkCreateEnv {
  e_args : bool;
  e_mem : bool;
  e_logging : option (list byte);
  e_list : option L;
  e_peers : option N;
  e_inboxes : option T;
  e_pool : mama_status * option P;
  e_uuid : option (list byte);
  e_conn : nat → Z }.

Context (properties_Get : list byte → option (list byte)) (level : MamaLogLevel → Z) (stop_conn_refused : Z).

(** The parameters; the addresses of naming transports are duplicated. *)
Definition parse_config (name : list byte) : option config :=
  common ← Params.zmqBridgeMamaTransportImpl_parseCommonParams properties_Get level stop_conn_refused name;
  let zero := zero_config in
  if decide (Params.mIsNaming common = 1)%Z then
    naming ← Params.zmqBridgeMamaTransportImpl_parseNamingParams properties_Get name;
    Some (mkConfig name common naming (c_incoming zero) (c_outgoing zero))
  else
    '(incoming, outgoing) ← Params.zmqBridgeMamaTransportImpl_parseNonNamingParams properties_Get name;
    Some (mkConfig name common (c_naming zero) incoming outgoing).

(** A new lock. *)
Definition wlock_create : BC Z :=
  s ← cget;
  emit (eAcquire (rLock (b_next s))) ;;
  cmodify (set_next (b_next s + 1)) ;;
  mret (b_next s).

(** [free(impl); return status;] *)
Definition fail (status : mama_status) : BC mama_status := emit (eRelease rImpl) ;; mret status.

(** The collections of the transport, in the order of the code. *)
Definition create_collections (env : createEnv) (k : BC mama_status) : BC mama_status :=
  match e_list env with
  | None => fail MAMA_STATUS_NOMEM
  | Some wcs =>
    emit (eAcquire rWcEndpoints) ;;
    l ← wlock_create;
    cmodify (set_wcs (Some wcs) l) ;;
    match e_peers env with
    | None => fail MAMA_STATUS_NOMEM
    | Some peers =>
      emit (eAcquire rPeers) ;;
      cmodify (set_peers (Some peers)) ;;
      match e_inboxes env with
      | None => fail MAMA_STATUS_NOMEM
      | Some inboxes =>
        emit (eAcquire rInboxes) ;;
        l ← wlock_create;
        cmodify (set_inboxes (Some inboxes) l) ;;
        if decide (fst (e_pool env) ≠ MAMA_STATUS_OK) then fail (fst (e_pool env))
        else
          emit (eAcquire rSubEndpoints) ;;
          l ← wlock_create;
          cmodify (set_pool (snd (e_pool env)) l) ;;
          k
      end
    end
  end.

(** The uuid and the inbox subject. *)
Definition create_ids (env : createEnv) (k : BC mama_status) : BC mama_status :=
  uuid ← cpart (zmqBridge_generateUuid (e_uuid env));
  match uuid with
  | None => fail MAMA_STATUS_SYSTEM_ERROR
  | Some uuid =>
      emit (eAcquire rUuid) ;;
      subject ← cpart (strcpy (ZMQ_INBOX_SUBJECT_SIZE + 1) (ZT.ZMQ_REPLYHANDLE_PREFIX ++ lit "." ++ uuid));
      emit (eAcquire rInboxSubject) ;;
      cmodify (set_ids uuid subject) ;;
      k
  end.

(** [eResult]: the bridge is passed to the caller. *)
Definition zmqBridgeMamaTransport_create (env : createEnv) (name : list byte) : BC mama_status :=
  if negb (e_args env) then mret MAMA_STATUS_NULL_ARG
  else if negb (e_mem env) then mret MAMA_STATUS_NOMEM
  else
    emit (eAcquire rImpl) ;;
    cmodify calloc ;;
    emit (eAcquire rReady) ;;
    match e_logging env with
    | Some v => level ← cpart (atoi v); emit (eEnableLogging level)
    | None => mret ()
    end ;;
    c ← cpart (parse_config name);
    cmodify (set_cfg c) ;;
    cmodify (set_beacon (Params.mBeaconInterval (c_naming c))) ;;
    cforeach (λ a, emit (eAcquire (rNamingAddress a))) (omap id (Params.mNamingAddress (c_naming c))) ;;
    emit (eDisableRefresh (wrapu 8 (Params.mDisableRefresh (c_common c)))) ;;
    create_collections env (
    create_ids env (
    CALL_MAMA_FUNC zmqBridgeMamaTransportImpl_init (
    CALL_MAMA_FUNC (zmqBridgeMamaTransportImpl_start (e_conn env)) (
    emit eResult ;;
    cmodify (set_valid 1) ;;
    mret MAMA_STATUS_OK)))).

(** ** Destruction *)

Definition destroy_sockets (isNaming : Z) : BC () :=
  _ ← destroySocket DataSub;
  _ ← destroySocket DataPub;
  _ ← destroySocket ControlSub;
  _ ← destroySocket ControlPub;
  if decide (isNaming = 1)%Z then
    _ ← destroySocket NamingSub;
    _ ← destroySocket NamingPub;
    mret ()
  else mret ().

(** The last part: zmq, the collections and the memory. *)
Definition destroy_memory : BC () :=
  s ← cget;
  emit eShutdown ;;
  emit (eRelease rContext) ;;
  emit (eZmq (EDestroyLock (b_subsLock s))) ;;
  emit (eRelease rSubEndpoints) ;;
  emit (eZmq (EDestroyLock (b_inboxesLock s))) ;;
  emit (eRelease rInboxes) ;;
  emit (eZmq (EDestroyLock (b_wcsLock s))) ;;
  emit (eRelease rWcEndpoints) ;;
  emit (eRelease rUuid) ;;
  emit (eRelease rInboxSubject) ;;
  match b_pubEndpoint s with Some _ => emit (eRelease rPubEndpoint) | None => mret () end ;;
  cforeach (λ a, emit (eRelease (rNamingAddress a))) (omap id (Params.mNamingAddress (c_naming (b_cfg s)))) ;;
  emit (eRelease rPeers) ;;
  emit (eRelease rImpl).

(** The product of two [int]s: an overflow is undefined. *)
Definition times_2 (z : Z) : option Z := if in_range 32 (z * 2) then Some (z * 2)%Z else None.

Definition zmqBridgeMamaTransport_destroy (transport : bool) : BC mama_status :=
  if negb transport then mret MAMA_STATUS_NULL_ARG
  else
    status ← zmqBridgeMamaTransportImpl_stop;
    emit (eRelease rReady) ;;
    s ← cget;
    let c := b_cfg s in
    (if decide (Params.mIsNaming (c_common c) = 1 ∧ b_connected s = 0)%Z
     then micros ← cpart (times_2 (Params.mNamingConnectInterval (c_naming c))); emit (eSleep micros)
     else mret ()) ;;
    emit (eJoin tPublish (rcJoin tPublish)) ;;
    destroy_sockets (Params.mIsNaming (c_common c)) ;;
    (if decide (Params.mSocketMonitor (c_common c) ≠ 0)%Z
     then CALL_MAMA_FUNC zmqBridgeMamaTransportImpl_stopMonitor else λ k, k) (
    destroy_memory ;;
    mret status).

(** ** Accessors *)

Definition zmqBridgeMamaTransport_isValid (transport : option bridge) : Z :=
  match transport with Some impl => b_isValid impl | None => 0 end.

Definition zmqBridgeMamaTransport_getNativeTransport (transport : option bridge) (resultOk : bool)
    : mama_status * option bridge :=
  match transport, resultOk with
  | Some impl, true => (MAMA_STATUS_OK, Some impl)
  | _, _ => (MAMA_STATUS_NULL_ARG, None)
  end.

(** [getBridge] is the answer of [mamaTransport_getBridgeTransport]. *)
Definition zmqBridgeMamaTransportImpl_getTransportBridge (getBridge : mama_status * option bridge)
    : option bridge :=
  if decide (fst getBridge ≠ MAMA_STATUS_OK) then None else snd getBridge.

Definition zmqBridgeMamaTransportImpl_getInboxSubject (impl : option bridge) (inboxSubject : bool)
    : mama_status * option (list byte) :=
  match impl, inboxSubject with
  | Some i, true => (MAMA_STATUS_OK, Some (b_inboxSubject i))
  | _, _ => (MAMA_STATUS_NULL_ARG, None)
  end.

End Life.

Arguments bridge : clear implicits.

End Life.
