(* ===== verification/LifecycleProofs.v ===== *)
(** * The life cycle: order of the calls, what is acquired and released *)

From S2P Require Import Prelude CLib CMonad CNum Util Params Msg Socket Collections Routing RoutingProofs Naming NamingProofs Transport Lifecycle.
Import ZM ZU Sock Life.

(** ** Ledger

    An event acquires or releases a resource; [ledger held o held'] follows a
    log from the resources held before it: a release needs the resource.
    Resources are counted: lists up to permutation. *)

Inductive change := Acquires (r : resource) | Releases (r : resource) | Neutral.

Definition zchange (e : zobs) : change :=
  match e with
  | ECall (zmq_socket _) r => if decide (r = 0)%Z then Neutral else Acquires (rSocket r)
  | ECall (zmq_close s) _ => Releases (rSocket s)
  | EDestroyLock l => Releases (rLock l)
  | _ => Neutral
  end.

Definition zobs_of (e : event) : option zobs :=
  match e with
  | eZmq e | eRouting (ZT.oZmq e) | eNaming (ZN.nZmq e) => Some e
  | _ => None
  end.

Definition changes (e : event) : change :=
  match e with
  | eAcquire r => Acquires r
  | eRelease r => Releases r
  | eThread t rc => if decide (rc = 0)%Z then Acquires (rThread t) else Neutral
  | eJoin t rc => if decide (rc = 0)%Z then Releases (rThread t) else Neutral
  | _ => match zobs_of e with Some z => zchange z | None => Neutral end
  end.

Fixpoint ledger (held : list resource) (o : list event) (held' : list resource) : Prop :=
  match o with
  | [] => held ≡ₚ held'
  | e :: o' =>
      match changes e with
      | Acquires r => ledger (r :: held) o' held'
      | Releases r => ∃ rest, held ≡ₚ r :: rest ∧ ledger rest o' held'
      | Neutral => ledger held o' held'
      end
  end.

(** What a log acquires and releases, and its library calls. *)
Definition acquired : list event → list resource :=
  omap (λ e, match changes e with Acquires r => Some r | _ => None end).
Definition released : list event → list resource :=
  omap (λ e, match changes e with Releases r => Some r | _ => None end).
Definition zcalls : list event → list zcall :=
  omap (λ e, match zobs_of e with Some (ECall c _) => Some c | _ => None end).

#[export] Instance ledger_proper : Proper ((≡ₚ) ==> (=) ==> (≡ₚ) ==> iff) ledger.
Proof.
  intros h1 h1' E1 o o' <- h2 h2' E2. revert h1 h1' E1 h2 h2' E2.
  induction o as [|e o IH]; intros h1 h1' E1 h2 h2' E2; simpl.
  - by rewrite E1, E2.
  - destruct (changes e) as [r|r|].
    + apply IH; [by rewrite E1|done].
    + split; intros (rest & E & Hl); exists rest; (split; [by rewrite <-E, E1 || by rewrite E1, E|]).
      * by apply (IH rest rest ltac:(done) h2 h2' E2).
      * by apply (IH rest rest ltac:(done) h2 h2' E2).
    + by apply IH.
Qed.

Lemma ledger_app h1 o1 h2 o2 h3 : ledger h1 o1 h2 → ledger h2 o2 h3 → ledger h1 (o1 ++ o2) h3.
Proof.
  revert h1. induction o1 as [|e o1 IH]; intros h1; simpl.
  - by intros ->.
  - destruct (changes e) as [r|r|]; [by eauto| |by eauto].
    intros (rest & E & Hl) H2. exists rest. eauto.
Qed.

Lemma acquired_app o1 o2 : acquired (o1 ++ o2) = acquired o1 ++ acquired o2.
Proof. apply omap_app. Qed.
Lemma released_app o1 o2 : released (o1 ++ o2) = released o1 ++ released o2.
Proof. apply omap_app. Qed.
Lemma zcalls_app o1 o2 : zcalls (o1 ++ o2) = zcalls o1 ++ zcalls o2.
Proof. apply omap_app. Qed.

#[export] Hint Rewrite acquired_app released_app zcalls_app @app_nil_r : logs.

(** A log that releases nothing adds what it acquires. *)
Lemma ledger_acquired o held : released o = [] → ledger held o (acquired o ++ held).
Proof.
  revert held. unfold released, acquired.
  induction o as [|e o IH]; intros held; simpl; [done|].
  destruct (changes e) as [r|r|]; simpl; intros Hr; [|done|by apply IH].
  specialize (IH (r :: held) Hr). by rewrite <-Permutation_middle in IH.
Qed.

(** A log that acquires nothing takes what it releases from what is held. *)
Lemma ledger_released o held : acquired o = [] → ledger (released o ++ held) o held.
Proof.
  revert held. unfold released, acquired.
  induction o as [|e o IH]; intros held; simpl; [done|].
  destruct (changes e) as [r|r|]; simpl; intros Hr; [done| |by apply IH].
  exists (released o ++ held). split; [done|by apply IH].
Qed.

(** No thread is joined in a short log. *)
Ltac not_joined := intros ?? Hj; repeat (apply elem_of_cons in Hj as [Hj|Hj]; [done|]); by apply elem_of_nil in Hj.

(** ** The operations on sockets *)

Section Operations.

Context {T P L N : Type} (noT : T) (noP : P) (noL : L) (noN : N) `{!WStr}.
Context (rc : nat → zcall → Z) (endpoint_of : nat → list byte) (rcCtx mask allEvents : Z).
Context (rcThread rcJoin : thread → Z).

Notation bridge := (bridge T P L N).
Implicit Types s : bridge.

(** A state that differs in the number of library calls only, and a log
    that acquires and releases nothing; on success its calls are [cs]. *)
Definition silent (cs : list zcall) s (st : mama_status) s' (o : list event) : Prop :=
  (∃ n, s' = set_calls n s) ∧ acquired o = [] ∧ released o = []
  ∧ (st = MAMA_STATUS_OK → zcalls o = cs).

Lemma wp_zmq c (Q : Z → bridge → list event → Prop) s :
  Q (rc (b_calls s) c) (set_calls (S (b_calls s)) s) [eZmq (ECall c (rc (b_calls s) c))] →
  wp (zmq rc c) Q s.
Proof. done. Qed.

Lemma wp_CALL x k (Q : mama_status → bridge → list event → Prop) s :
  wp x (λ st s1 o1, if decide (st = MAMA_STATUS_OK) then wp k (λ st2 s2 o2, Q st2 s2 (o1 ++ o2)) s1
                    else Q st s1 o1) s →
  wp (CALL_MAMA_FUNC x k) Q s.
Proof.
  intros Hx. apply wp_bind. eapply wp_mono; [|exact Hx]. intros st s1 o1. cbv beta.
  destruct (decide (st = MAMA_STATUS_OK)) as [->|Hst].
  - by rewrite decide_False by (intros []; done).
  - rewrite decide_True by done. intros HQ. apply wp_ret. by rewrite app_nil_r.
Qed.

(** Run a socket function to its end, whatever zmq answers. *)
Ltac silent_run :=
  repeat first
    [ apply wp_zmq | wp_step; cbv zeta
    | progress unfold wlock_lock, wlock_unlock, wlock_destroy, locked_call, set_option | progress cbv beta | case_match | case_decide ].
Ltac silent_done :=
  split_and!; [by eexists|by rewrite ?acquired_app|by rewrite ?released_app|try done].

Definition connect_calls (sk : zmqSocket) uri (ri hi : Z) : list zcall :=
  [zmq_setsockopt (mSocket sk) ZMQ_HEARTBEAT_IVL hi; zmq_setsockopt (mSocket sk) ZMQ_RECONNECT_IVL ri;
   zmq_connect (mSocket sk) uri].
Definition option_calls (sk : zmqSocket) : list zcall :=
  [zmq_setsockopt (mSocket sk) ZMQ_RCVHWM 0; zmq_setsockopt (mSocket sk) ZMQ_SNDHWM 0;
   zmq_setsockopt (mSocket sk) ZMQ_BACKLOG 200].
Definition bindOrConnect_calls (sk : zmqSocket) uri dir (ri hi : Z) : list zcall :=
  match tport_type uri with
  | Some type =>
      match is_binding dir type uri with
      | Some true => [zmq_bind (mSocket sk) uri]
      | Some false => connect_calls sk uri ri hi
      | None => []
      end
  | None => []
  end.
Definition create_calls (sk : zmqSocket) (type : sockType) (name : list byte) (monitor : Z) : list zcall :=
  [zmq_socket type; zmq_setsockopt_str (mSocket sk) ZMQ_IDENTITY (name ++ [NUL])]
  ++ (if decide (monitor ≠ 0)%Z then [zmq_monitor (mSocket sk) (Some (lit "inproc://" ++ name)) mask] else [])
  ++ [zmq_setsockopt (mSocket sk) ZMQ_LINGER (if decide (name = lit "namingPub") then 100 else 0)%Z].

Lemma silent_fail cs st s : st ≠ MAMA_STATUS_OK → silent cs s st s [].
Proof. intros Hst. split_and!; [by exists (b_calls s); destruct s|done|done|done]. Qed.

Lemma connectImpl_wp sk uri ri hi s :
  wp (zmqBridgeMamaTransportImpl_connectSocket rc sk uri ri hi) (silent (connect_calls sk uri ri hi) s) s.
Proof. unfold zmqBridgeMamaTransportImpl_connectSocket. silent_run; silent_done. Qed.

Lemma bindImpl_wp sk uri w s :
  wp (zmqBridgeMamaTransportImpl_bindSocket rc endpoint_of sk uri w)
    (λ r s' o, silent (zmq_bind (mSocket sk) uri :: if w then [zmq_last_endpoint (mSocket sk)] else []) s r.1 s' o
       ∧ (r.2 ≠ None ↔ r.1 = MAMA_STATUS_OK ∧ w = true) ∧ (∀ e, r.2 = Some e → ∃ n, e = endpoint_of n)) s.
Proof.
  unfold zmqBridgeMamaTransportImpl_bindSocket. silent_run.
  all: split; [silent_done|split; [naive_solver|naive_solver]].
Qed.

(** ** Stages of the initialization

    The fields no socket function touches. *)
Definition rest s :=
  (b_cfg s, b_ctx s, b_pubEndpoint s, b_beacon s, b_connected s, b_uuid s, b_inboxSubject s,
   (b_wcs s, b_peers s, b_inboxes s, b_pool s, b_wcsLock s, b_inboxesLock s, b_subsLock s, b_isValid s)).

Notation socks := (sock → zmqSocket).

(** From [s] to [s']: the sockets [ks] are new, the log makes the calls [f]
    and acquires [g], both given by the sockets, and releases nothing. *)
Record stage (ks : list sock) (f : socks → list zcall) (g : socks → list resource) s s' (o : list event) : Prop := {
  sg_rest : rest s' = rest s;
  sg_socks k : k ∉ ks → b_sock s' k = b_sock s k;
  sg_calls : zcalls o = f (b_sock s');
  sg_acquired : acquired o = g (b_sock s');
  sg_released : released o = [] }.

(** [f] looks at no socket of [ks]. *)
Definition avoids {A} (ks : list sock) (f : socks → A) : Prop :=
  ∀ b b', (∀ k, k ∉ ks → b' k = b k) → f b' = f b.

Lemma stage_app ks f g s s1 o ks1 f1 g1 s2 o1 :
  stage ks f g s s1 o → stage ks1 f1 g1 s1 s2 o1 → avoids ks1 f → avoids ks1 g →
  stage (ks ++ ks1) (λ b, f b ++ f1 b) (λ b, g b ++ g1 b) s s2 (o ++ o1).
Proof.
  intros [Hr Hk Hf Hg Hx] [Hr1 Hk1 Hf1 Hg1 Hx1] Af Ag. split.
  - congruence.
  - intros k Hn. rewrite not_elem_of_app in Hn. destruct Hn. by rewrite Hk1, Hk.
  - by rewrite zcalls_app, Hf, Hf1, (Af (b_sock s1) (b_sock s2)).
  - by rewrite acquired_app, Hg, Hg1, (Ag (b_sock s1) (b_sock s2)).
  - by rewrite released_app, Hx, Hx1.
Qed.

(** A call that is a stage when it succeeds. *)
Definition does (x : C bridge event mama_status) ks f g : Prop :=
  ∀ s, wp x (λ st s' o, released o = [] ∧ (st = MAMA_STATUS_OK → stage ks f g s s' o)) s.

(** The rest [k] of a run that has logged [o]. *)
Definition after (o : list event) (k : C bridge event mama_status)
    (Q : mama_status → bridge → list event → Prop) s : Prop :=
  wp k (λ st s2 o2, Q st s2 (o ++ o2)) s.

Lemma wp_after k Q s : after [] k Q s → wp k Q s.
Proof. done. Qed.

Lemma stage_start s : stage [] (λ _, []) (λ _, []) s s [].
Proof. done. Qed.

(** One more call after the stages so far. *)
Lemma does_CALL ks f g s0 s o x ks1 f1 g1 k (Q : mama_status → bridge → list event → Prop) :
  stage ks f g s0 s o → does x ks1 f1 g1 → avoids ks1 f → avoids ks1 g →
  (∀ st s' o', st ≠ MAMA_STATUS_OK → released o' = [] → Q st s' o') →
  (∀ s' o', stage (ks ++ ks1) (λ b, f b ++ f1 b) (λ b, g b ++ g1 b) s0 s' o' →
     after o' k Q s') →
  after o (CALL_MAMA_FUNC x k) Q s.
Proof.
  intros Hs Hx Af Ag Hfail Hk. apply wp_CALL. eapply wp_mono; [|apply Hx].
  intros st s1 o1 [Hr Hst]. destruct (decide (st = MAMA_STATUS_OK)) as [E|E].
  - eapply wp_mono; [|apply (Hk s1 (o ++ o1))]; [|by eapply stage_app; eauto].
    intros st2 s2 o2. cbv beta. by rewrite <-app_assoc.
  - apply Hfail; [done|]. by rewrite released_app, (sg_released _ _ _ _ _ _ Hs), Hr.
Qed.

Lemma silent_does k (x : zmqSocket → C bridge event mama_status) f :
  (∀ sk s, wp (x sk) (silent (f sk) s) s) →
  does (s ← cget; x (b_sock s k)) [] (λ b, f (b k)) (λ _, []).
Proof.
  intros Hx s. apply wp_bind, wp_get. cbn [app]. eapply wp_mono; [|apply Hx].
  intros st s' o ([n ->] & Ha & Hr & Hc). split; [done|]. intros Hst. split; try done. by apply Hc.
Qed.

Lemma connect_does k uri ri hi :
  does (connectSocket rc k uri ri hi) [] (λ b, connect_calls (b k) uri ri hi) (λ _, []).
Proof.
  refine (silent_does k (λ sk, zmqBridgeMamaTransportImpl_connectSocket rc sk uri ri hi)
            (λ sk, connect_calls sk uri ri hi) _). intros. apply connectImpl_wp.
Qed.

Lemma options_does k : does (setCommonSocketOptions rc k) [] (λ b, option_calls (b k)) (λ _, []).
Proof.
  refine (silent_does k (zmqBridgeMamaTransportImpl_setCommonSocketOptions rc) option_calls _).
  intros sk s. unfold zmqBridgeMamaTransportImpl_setCommonSocketOptions.
  silent_run; silent_done.
Qed.

Lemma stopReconnect_does k options :
  does (stopReconnectOnError rc k options) []
    (λ b, [zmq_setsockopt (mSocket (b k)) ZMQ_RECONNECT_STOP options]) (λ _, []).
Proof.
  refine (silent_does k (λ sk, zmqBridgeMamaTransportImpl_stopReconnectOnError rc sk options)
            (λ sk, [zmq_setsockopt (mSocket sk) ZMQ_RECONNECT_STOP options]) _).
  intros sk s. unfold zmqBridgeMamaTransportImpl_stopReconnectOnError.
  silent_run; silent_done.
Qed.

Lemma subscribe_does k topic :
  does (subscribe rc k topic) [] (λ b, [zmq_setsockopt_str (mSocket (b k)) ZMQ_SUBSCRIBE topic]) (λ _, []).
Proof.
  refine (silent_does k (λ sk, zmqBridgeMamaTransportImpl_subscribe rc (mSocket sk) topic)
            (λ sk, [zmq_setsockopt_str (mSocket sk) ZMQ_SUBSCRIBE topic]) _).
  intros sk s. unfold zmqBridgeMamaTransportImpl_subscribe.
  silent_run; silent_done.
Qed.

Lemma bind_does k uri :
  does (bindSocket rc endpoint_of k uri) [] (λ b, [zmq_bind (mSocket (b k)) uri]) (λ _, []).
Proof.
  refine (silent_does k
            (λ sk, r ← zmqBridgeMamaTransportImpl_bindSocket rc endpoint_of sk uri false; mret (fst r))
            (λ sk, [zmq_bind (mSocket sk) uri]) _).
  intros sk s. apply wp_bind. eapply wp_mono; [|apply bindImpl_wp].
  intros r s' o [Hs _]. apply wp_ret. by rewrite app_nil_r.
Qed.

Lemma bindOrConnect_does k dir ri hi uri :
  does (bindOrConnect rc endpoint_of k dir ri hi uri) [] (λ b, bindOrConnect_calls (b k) uri dir ri hi) (λ _, []).
Proof.
  refine (silent_does k (λ sk, zmqBridgeMamaTransportImpl_bindOrConnect rc endpoint_of sk uri dir ri hi)
            (λ sk, bindOrConnect_calls sk uri dir ri hi) _).
  intros sk s. unfold zmqBridgeMamaTransportImpl_bindOrConnect, bindOrConnect_calls.
  destruct (tport_type uri) as [type|]; [|by apply wp_ret, silent_fail].
  destruct (is_binding dir type uri) as [[]|].
  - apply wp_bind. eapply wp_mono; [|apply bindImpl_wp].
    intros r s' o [Hs _]. apply wp_ret. by rewrite app_nil_r.
  - apply connectImpl_wp.
  - by apply wp_ret, silent_fail.
Qed.

Definition sock_resources (sk : zmqSocket) : list resource := [rSocket (mSocket sk); rLock (mLock sk)].

Lemma createImpl_wp lock type name monitor s :
  wp (zmqBridgeMamaTransportImpl_createSocket rc lock mask type (Some name) monitor)
    (λ r s' o, (∃ n, s' = set_calls n s) ∧ released o = []
       ∧ match r.2 with
         | None => r.1 ≠ MAMA_STATUS_OK
         | Some sk => acquired o = [rSocket (mSocket sk)] ∧ mLock sk = lock
             ∧ (r.1 = MAMA_STATUS_OK → zcalls o = create_calls sk type name monitor)
         end) s.
Proof.
  unfold zmqBridgeMamaTransportImpl_createSocket. apply wp_bind, wp_zmq.
  set (t := rc _ _). destruct (decide (t = 0)%Z) as [Ht|Ht].
  { apply wp_ret. split_and!; [by eexists| |done]. cbn. by rewrite decide_True. }
  cbv zeta. apply wp_bind, wp_zmq. destruct (decide _).
  { apply wp_ret. split_and!; [by eexists|..]; cbn; by rewrite ?(decide_False (P := t = 0%Z)) by done. }
  apply wp_bind. unfold create_calls. destruct (decide (monitor ≠ 0)%Z); [apply wp_zmq|apply wp_ret].
  all: cbn [app]; destruct (decide (_ < 0)%Z); [apply wp_ret; split_and!; [by eexists|..]; cbn; by rewrite ?(decide_False (P := t = 0%Z)) by done|].
  all: apply wp_bind, wp_zmq; destruct (decide (_ < 0)%Z); apply wp_ret.
  all: split_and!; [by eexists|..]; cbn; rewrite ?(decide_False (P := t = 0%Z)) by done; try done.
  all: split_and!; try done; intros _; repeat case_decide; congruence.
Qed.

Lemma create_does k type name monitor :
  does (createSocket rc mask k type name monitor) [k]
    (λ b, create_calls (b k) type name monitor) (λ b, sock_resources (b k)).
Proof.
  intros s. unfold createSocket. apply wp_bind, wp_get, wp_bind. eapply wp_mono; [|apply createImpl_wp].
  intros [st [sk|]] s1 o ([n ->] & Hr & Hsk); cbn [fst snd] in Hsk.
  - destruct Hsk as (Ha & <- & Hc). apply wp_bind, wp_bind, wp_emit, wp_modify, wp_ret.
    cbn [app]. rewrite released_app, Hr. split; [done|]. intros Hst.
    set (s2 := set_next _ _).
    assert (b_sock s2 k = sk) as Esk by (cbn; by rewrite decide_True).
    split.
    + done.
    + intros k' Hk. cbn. rewrite decide_False; [done|]. intros ->. apply Hk. by left.
    + by rewrite Esk, zcalls_app, (Hc Hst), app_nil_r.
    + by rewrite Esk, acquired_app, Ha.
    + by rewrite released_app, Hr.
  - apply wp_bind, wp_ret, wp_ret. cbn [app]. rewrite app_nil_r. by split.
Qed.

(** ** The monitor and the initialization *)

Create HintDb does.
#[local] Hint Resolve connect_does options_does stopReconnect_does subscribe_does bind_does
  bindOrConnect_does create_does : does.

Ltac avoids_tac :=
  intros b b' Hb; cbv beta; rewrite ?app_nil_l; rewrite ?Hb by by_decide; reflexivity.

(** The next CALL_MAMA_FUNC: success is one stage more. *)
Ltac next_call :=
  eapply does_CALL; [eassumption|solve [eauto with does]|avoids_tac|avoids_tac| |intros ???].

Definition monitor_calls (b : socks) : list zcall :=
  create_calls (b MonitorSub) ZMQ_SERVER (lit "monitorSub") 0
  ++ [zmq_bind (mSocket (b MonitorSub)) ZMQ_MONITOR_ENDPOINT]
  ++ create_calls (b MonitorPub) ZMQ_CLIENT (lit "monitorPub") 0
  ++ connect_calls (b MonitorPub) ZMQ_MONITOR_ENDPOINT 0 0.

Lemma startMonitor_does :
  does (zmqBridgeMamaTransportImpl_startMonitor rc endpoint_of mask rcThread) [MonitorSub; MonitorPub]
    monitor_calls
    (λ b, sock_resources (b MonitorSub) ++ sock_resources (b MonitorPub) ++ [rThread tMonitor]).
Proof.
  intros s. unfold zmqBridgeMamaTransportImpl_startMonitor. apply wp_after.
  pose proof (stage_start s) as Hst.
  do 4 (next_call; [by intros|]).
  apply wp_bind, wp_modify, wp_bind, wp_emit, wp_ret. cbn [app].
  match goal with H : stage _ _ _ _ ?s4 ?o4 |- context [set_monitoring _ ?s4] => destruct H as [Hr Hk Hc Ha Hx] end.
  destruct (decide (rcThread tMonitor ≠ 0)%Z) as [Ht|Ht].
  - rewrite released_app, Hx. split; [|done]. cbn. by rewrite decide_False by (intros E; by apply Ht).
  - assert (rcThread tMonitor = 0%Z) as -> by (by apply dec_stable).
    rewrite released_app, Hx. split; [done|]. intros _. split.
    + by rewrite <-Hr.
    + intros k Hn. cbn. apply Hk. set_solver.
    + by rewrite zcalls_app, Hc, app_nil_r.
    + by rewrite acquired_app, Ha, <-!app_assoc.
    + by rewrite released_app, Hx.
Qed.

(** A function with a continuation: a stage before the continuation, or an
    error before which nothing is released. *)
Definition fails_to (Q : mama_status → bridge → list event → Prop) : Prop :=
  ∀ st s o, st ≠ MAMA_STATUS_OK → released o = [] → Q st s o.

Definition does_then (X : C bridge event mama_status → C bridge event mama_status) ks f g : Prop :=
  ∀ k Q s, fails_to Q → (∀ s' o', stage ks f g s s' o' → after o' k Q s') → wp (X k) Q s.

Lemma does_then_CALL x ks f g : does x ks f g → does_then (CALL_MAMA_FUNC x) ks f g.
Proof.
  intros Hx k Q s HQ Hk. apply wp_after. eapply (does_CALL [] (λ _, []) (λ _, []) s); try done.
Qed.

Lemma does_then_id : does_then (λ k, k) [] (λ _, []) (λ _, []).
Proof. intros k Q s HQ Hk. apply wp_after, Hk, stage_start. Qed.

Lemma then_after X ks f g s0 s o ks1 f1 g1 k Q :
  stage ks f g s0 s o → does_then X ks1 f1 g1 → avoids ks1 f → avoids ks1 g → fails_to Q →
  (∀ s' o', stage (ks ++ ks1) (λ b, f b ++ f1 b) (λ b, g b ++ g1 b) s0 s' o' → after o' k Q s') →
  after o (X k) Q s.
Proof.
  intros Hs Hx Af Ag HQ Hk. unfold after. apply Hx.
  - intros st s1 o1 Hst Hr. apply HQ; [done|]. by rewrite released_app, (sg_released _ _ _ _ _ _ Hs), Hr.
  - intros s1 o1 Hs1. unfold after. eapply wp_mono; [|apply (Hk s1 (o ++ o1)); by eapply stage_app; eauto].
    intros st2 s2 o2. cbv beta. by rewrite <-app_assoc.
Qed.

Lemma stage_ext ks f g s s' o ks' f' g' :
  stage ks f g s s' o → ks = ks' → (∀ b, f b = f' b) → (∀ b, g b = g' b) → stage ks' f' g' s s' o.
Proof. intros [Hr Hk Hf Hg Hx] <- Ef Eg. split; [done|done|by rewrite <-Ef|by rewrite <-Eg|done]. Qed.

Lemma call_all_does h c addresses :
  (∀ a, does (h a) [] (c a) (λ _, [])) → (∀ a, avoids [] (c a)) →
  does_then (call_all h addresses) [] (λ b, flat_map (λ a, c a b) addresses) (λ _, []).
Proof.
  intros Hh Hc. induction addresses as [|a addresses IH]; [exact does_then_id|].
  intros k Q s HQ Hk. cbn [call_all flat_map]. apply does_then_CALL with (1 := Hh a); [done|].
  intros s1 o1 Hs1. eapply then_after; [exact Hs1|exact IH|apply Hc|done|done|].
  intros s2 o2 Hs2. apply Hk. eapply stage_ext; [exact Hs2|done..].
Qed.

Definition socket_calls (monitor : Z) (subject : list byte) (b : socks) : list zcall :=
  create_calls (b ControlSub) ZMQ_PULL (lit "controlSub") 0
  ++ [zmq_bind (mSocket (b ControlSub)) ZMQ_CONTROL_ENDPOINT]
  ++ create_calls (b ControlPub) ZMQ_PUSH (lit "controlPub") 0
  ++ connect_calls (b ControlPub) ZMQ_CONTROL_ENDPOINT (-1) 0
  ++ create_calls (b DataPub) ZMQ_PUB (lit "dataPub") monitor
  ++ create_calls (b DataSub) ZMQ_SUB (lit "dataSub") monitor
  ++ option_calls (b DataPub) ++ option_calls (b DataSub)
  ++ [zmq_setsockopt_str (mSocket (b DataSub)) ZMQ_SUBSCRIBE subject].

Lemma init_sockets_does monitor subject :
  does_then (init_sockets rc endpoint_of mask monitor subject) [ControlSub; ControlPub; DataPub; DataSub]
    (socket_calls monitor subject)
    (λ b, flat_map (λ k, sock_resources (b k)) [ControlSub; ControlPub; DataPub; DataSub]).
Proof.
  intros k Q s HQ Hk. unfold init_sockets. apply wp_after.
  pose proof (stage_start s) as Hst.
  do 9 (next_call; [by apply HQ|]).
  apply Hk. eapply stage_ext; [eassumption|done|..]; intros b; unfold socket_calls; cbv beta;
    rewrite ?app_nil_r, <-?app_assoc; done.
Qed.

Definition naming_calls (monitor options : Z) (b : socks) : list zcall :=
  [zmq_setsockopt (mSocket (b DataSub)) ZMQ_RECONNECT_STOP options]
  ++ create_calls (b NamingPub) ZMQ_PUB (lit "namingPub") monitor
  ++ [zmq_setsockopt (mSocket (b NamingPub)) ZMQ_RECONNECT_STOP options]
  ++ create_calls (b NamingSub) ZMQ_SUB (lit "namingSub") monitor
  ++ [zmq_setsockopt_str (mSocket (b NamingSub)) ZMQ_SUBSCRIBE ZN.ZMQ_NAMING_PREFIX].

Lemma init_naming_does monitor options :
  does_then (init_naming rc mask monitor options) [NamingPub; NamingSub]
    (naming_calls monitor options) (λ b, flat_map (λ k, sock_resources (b k)) [NamingPub; NamingSub]).
Proof.
  intros k Q s HQ Hk. unfold init_naming. apply wp_after.
  pose proof (stage_start s) as Hst.
  do 5 (next_call; [by apply HQ|]).
  apply Hk. eapply stage_ext; [eassumption|done|..]; intros b; unfold naming_calls; cbv beta;
    rewrite ?app_nil_r, <-?app_assoc; done.
Qed.

(** The calls and resources of a start with configuration [c]; which
    sockets it creates. *)
Definition is_naming (c : config) : bool := bool_decide (Params.mIsNaming (c_common c) = 1)%Z.
Definition is_monitored (c : config) : bool := bool_decide (Params.mSocketMonitor (c_common c) ≠ 0)%Z.

Definition data_sockets (c : config) : list sock :=
  [ControlSub; ControlPub; DataPub; DataSub] ++ if is_naming c then [NamingPub; NamingSub] else [].

Definition endpoint_calls (c : config) (b : socks) : list zcall :=
  let ri := Params.mReconnectInterval (c_common c) in
  let hi := Params.mHeartbeatInterval (c_common c) in
  if is_naming c then
    [zmq_bind (mSocket (b DataPub)) (default [] (publish_uri c)); zmq_last_endpoint (mSocket (b DataPub))]
    ++ flat_map (λ a, connect_calls (b NamingSub) a ri hi)
         (Params.used_addresses (Params.mNamingAddress (c_naming c)))
  else
    flat_map (λ a, bindOrConnect_calls (b DataPub) a ZMQ_TPORT_DIRECTION_OUTGOING ri hi)
      (Params.used_addresses (c_outgoing c))
    ++ flat_map (λ a, bindOrConnect_calls (b DataSub) a ZMQ_TPORT_DIRECTION_INCOMING ri hi)
         (Params.used_addresses (c_incoming c)).

(** The sockets and their options, the subscriptions, the monitor, and only
    then the endpoints of data and naming messages. *)
Definition startup_calls (c : config) (subject : list byte) (b : socks) : list zcall :=
  socket_calls (Params.mSocketMonitor (c_common c)) subject b
  ++ (if is_naming c
      then naming_calls (Params.mSocketMonitor (c_common c)) (Params.mReconnectOptions (c_common c)) b else [])
  ++ (if is_monitored c then monitor_calls b else [])
  ++ endpoint_calls c b.

Definition monitor_resources (b : socks) : list resource :=
  flat_map (λ k, sock_resources (b k)) [MonitorSub; MonitorPub] ++ [rThread tMonitor].

Definition startup_resources (c : config) (b : socks) : list resource :=
  rContext :: flat_map (λ k, sock_resources (b k)) (data_sockets c)
  ++ (if is_monitored c then monitor_resources b else [])
  ++ (if is_naming c then [rPubEndpoint] else []).

Definition initialized (c : config) s s' (o : list event) : Prop :=
  ∃ e, rest s' = rest (set_endpoint e (set_ctx rcCtx s))
    ∧ (if is_naming c then ∃ n, e = Some (endpoint_of n) else e = b_pubEndpoint s)
    ∧ zcalls o = startup_calls c (b_inboxSubject s) (b_sock s')
    ∧ acquired o = startup_resources c (b_sock s') ∧ released o = [].

Lemma bind_dataPub_wp s uri :
  publish_uri (b_cfg s) = Some uri →
  wp (bind_dataPub rc endpoint_of)
    (λ st s' o, released o = [] ∧ (st = MAMA_STATUS_OK → ∃ n k, s' = set_endpoint (Some (endpoint_of n)) (set_calls k s)
       ∧ zcalls o = [zmq_bind (mSocket (b_sock s DataPub)) uri; zmq_last_endpoint (mSocket (b_sock s DataPub))]
       ∧ acquired o = [rPubEndpoint])) s.
Proof.
  intros Hu. unfold bind_dataPub. apply wp_bind, wp_get, wp_bind. eapply wp_part; [exact Hu|].
  apply wp_bind. eapply wp_mono; [|apply bindImpl_wp].
  intros [st [e|]] s1 o1 (([k ->] & Ha & Hr & Hc) & Hs & He); cbn [fst snd] in *.
  - destruct (He e eq_refl) as [n ->]. apply wp_bind, wp_bind, wp_emit, wp_modify, wp_ret. cbn [app].
    rewrite released_app, Hr. split; [done|]. intros Hst. exists n, k.
    split; [done|]. by rewrite zcalls_app, acquired_app, (Hc Hst), Ha.
  - apply wp_bind, wp_ret, wp_ret. cbn [app]. rewrite app_nil_r. split; [done|].
    intros Hst. exfalso. by apply Hs.
Qed.

Lemma rest_endpoint e s s0 : rest s = rest s0 → rest (set_endpoint e s) = rest (set_endpoint e s0).
Proof. unfold rest. cbn. intros [=]. congruence. Qed.

Lemma init_endpoints_after c s0 s o ks f g Q :
  (is_naming c = true → is_Some (publish_uri c)) → b_cfg s = c →
  stage ks f g s0 s o → avoids [] f → avoids [] g → fails_to Q →
  (∀ s' e o', (if is_naming c then ∃ n, e = Some (endpoint_of n) else e = b_pubEndpoint s0) →
     rest s' = rest (set_endpoint e s0) →
     zcalls o' = f (b_sock s') ++ endpoint_calls c (b_sock s') →
     acquired o' = g (b_sock s') ++ (if is_naming c then [rPubEndpoint] else []) → released o' = [] →
     Q MAMA_STATUS_OK s' o') →
  after o (init_endpoints rc endpoint_of c) Q s.
Proof.
  intros Hu Ec Hs Af Ag HQ Hk. unfold init_endpoints, endpoint_calls, is_naming in *.
  set (ri := Params.mReconnectInterval _) in *. set (hi := Params.mHeartbeatInterval _) in *.
  destruct (decide (Params.mIsNaming (c_common c) = 1)%Z) as [Hn|Hn];
    [rewrite bool_decide_true in * by done|rewrite bool_decide_false in * by done].
  - destruct (Hu eq_refl) as [uri Eu]. unfold after.
    apply wp_CALL. eapply wp_mono; [|apply bind_dataPub_wp; rewrite Ec; exact Eu].
    intros st s1 o1 [Hr H1]. destruct (decide (st = MAMA_STATUS_OK)) as [E|E].
    2: { apply HQ; [done|]. by rewrite released_app, (sg_released _ _ _ _ _ _ Hs), Hr. }
    destruct (H1 E) as (n & k & -> & Hc & Ha). set (s1 := set_endpoint _ _).
    apply (call_all_does _ (λ a b, connect_calls (b NamingSub) a ri hi)
             (Params.used_addresses (Params.mNamingAddress (c_naming c)))).
    { intros a. apply connect_does. }
    { intros a b b' Hb. by rewrite Hb by by_decide. }
    { intros st2 s2 o2 Hst Hr2. apply HQ; [done|].
      by rewrite !released_app, (sg_released _ _ _ _ _ _ Hs), Hr, Hr2. }
    intros s2 o2 H2. apply wp_ret. rewrite app_nil_r. destruct Hs as [Sr Sk Sc Sa Sx], H2 as [Tr Tk Tc Ta Tx].
    assert (∀ k, b_sock s2 k = b_sock s k) as Ek by (intros k'; by rewrite Tk by apply not_elem_of_nil).
    apply (Hk s2 (Some (endpoint_of n))); [by exists n|..].
    + rewrite Tr. apply rest_endpoint. by rewrite <-Sr.
    + rewrite !zcalls_app, Sc, Hc, Tc, Eu, !Ek. rewrite (Af (b_sock s) (b_sock s2)); done.
    + rewrite !acquired_app, Sa, Ha, Ta. by rewrite (Ag (b_sock s) (b_sock s2)).
    + by rewrite !released_app, Sx, Hr, Tx.
  - eapply then_after; [exact Hs|apply call_all_does; [intros a; apply bindOrConnect_does|]|done|done|done|].
    { intros a b b' Hb. by rewrite Hb by by_decide. }
    intros s1 o1 H1.
    eapply then_after; [exact H1|apply call_all_does; [intros a; apply bindOrConnect_does|]|..|done|].
    { intros a b b' Hb. by rewrite Hb by by_decide. }
    { intros b b' Hb. rewrite (Af b b' Hb). f_equal. apply flat_map_ext. intros a. by rewrite Hb by by_decide. }
    { intros b b' Hb. by rewrite (Ag b b' Hb). }
    intros s2 o2 [Tr Tk Tc Ta Tx]. apply wp_ret. rewrite app_nil_r.
    apply (Hk s2 (b_pubEndpoint s0)); [done|by rewrite Tr| |by rewrite Ta, !app_nil_r|done].
    by rewrite Tc, <-app_assoc.
Qed.

Ltac avoids_all :=
  intros b b' Hb; unfold socket_calls, naming_calls, monitor_calls, monitor_resources;
  cbv beta; cbn [flat_map]; rewrite ?Hb by by_decide; reflexivity.

Lemma init_wp c s :
  b_cfg s = c → (is_naming c = true → is_Some (publish_uri c)) →
  wp (zmqBridgeMamaTransportImpl_init rc endpoint_of rcCtx mask rcThread)
    (λ st s' o, released o = [] ∧ (st = MAMA_STATUS_OK → initialized c s s' o)) s.
Proof.
  intros Ec Hu. unfold zmqBridgeMamaTransportImpl_init.
  destruct (decide (rcCtx = 0)%Z); [by apply wp_bind, wp_modify, wp_ret|].
  apply wp_bind, wp_modify, wp_bind, wp_emit, wp_bind, wp_get. cbn [app]. cbv zeta.
  set (s0 := set_ctx rcCtx s). assert (b_cfg s0 = c) as -> by done.
  set (Q := λ st s' o, _). apply (init_sockets_does _ _ _ Q s0).
  { intros st s1 o1 Hst Hr. split; [exact Hr|done]. }
  intros s1 o1 H1.
  assert (fails_to Q) as HQ by (intros st s2 o2 Hst Hr; split; [exact Hr|done]).
  eapply (then_after _ _ _ _ _ _ _
            (if is_naming c then [NamingPub; NamingSub] else [])
            (λ b, if is_naming c then naming_calls (Params.mSocketMonitor (c_common c)) (Params.mReconnectOptions (c_common c)) b else [])
            (λ b, flat_map (λ k, sock_resources (b k)) (if is_naming c then [NamingPub; NamingSub] else [])));
    [exact H1| |..|exact HQ|].
  { unfold is_naming. destruct (decide _) as [Hn|Hn];
      [rewrite bool_decide_true by done; apply init_naming_does|rewrite bool_decide_false by done; apply does_then_id]. }
  1, 2: destruct (is_naming c); avoids_all.
  clear H1. intros s2 o2 H2.
  eapply (then_after _ _ _ _ _ _ _
            (if is_monitored c then [MonitorSub; MonitorPub] else [])
            (λ b, if is_monitored c then monitor_calls b else [])
            (λ b, if is_monitored c then monitor_resources b else []));
    [exact H2| |..|exact HQ|].
  { unfold is_monitored. destruct (decide _) as [Hn|Hn];
      [rewrite bool_decide_true by done; apply does_then_CALL, startMonitor_does
      |rewrite bool_decide_false by done; apply does_then_id]. }
  1, 2: destruct (is_monitored c), (is_naming c); avoids_all.
  clear H2. intros s3 o3 H3. eapply (init_endpoints_after c s0); [exact Hu|..|exact HQ|].
  { pose proof (sg_rest _ _ _ _ _ _ H3) as [=]. congruence. }
  { eapply stage_ext; [exact H3|reflexivity|..]; intros b; reflexivity. }
  1, 2: destruct (is_monitored c), (is_naming c); avoids_all.
  intros s4 e o4 He Hr Hc Ha Hx. split; [done|]. intros _. exists e. split_and!; [exact Hr|exact He|..|done].
  - change (zcalls (eAcquire rContext :: o4)) with (zcalls o4). rewrite Hc. unfold startup_calls.
    by rewrite <-!app_assoc.
  - change (acquired (eAcquire rContext :: o4)) with (rContext :: acquired o4). rewrite Ha.
    unfold startup_resources, data_sockets. by rewrite flat_map_app, <-!app_assoc.
Qed.

(** ** Start, creation *)

Lemma omap_replicate_None {A B} (f : A → option B) n x : f x = None → omap f (replicate n x) = [].
Proof. intros E. induction n as [|n IH]; [done|]. cbn. by rewrite E. Qed.

Lemma start_wp conn s :
  wp (zmqBridgeMamaTransportImpl_start rcThread conn)
    (λ st s' o, s' = s ∧ released o = [] ∧ zcalls o = []
       ∧ (st = MAMA_STATUS_OK → acquired o = [rThread tDispatch])) s.
Proof.
  unfold zmqBridgeMamaTransportImpl_start. apply wp_bind, wp_get, wp_bind, wp_emit.
  destruct (ZN.zmqBridgeMamaTransportImpl_start _ _ _ _ _) as [st sleeps] eqn:E.
  apply wp_bind, wp_emit_all, wp_ret. cbn [app]. rewrite app_nil_r.
  set (sl := eSleep _). change (eThread tDispatch ?r :: ?l) with ([eThread tDispatch r] ++ l).
  rewrite released_app, zcalls_app, acquired_app. unfold released, zcalls, acquired.
  rewrite !(omap_replicate_None _ _ sl) by done. rewrite !app_nil_r. split_and!; [done| |done|].
  - cbn. by case_decide.
  - intros ->. unfold ZN.zmqBridgeMamaTransportImpl_start in E. cbn.
    destruct (decide (rcThread tDispatch ≠ 0)%Z) as [|Hz]; [done|].
    by rewrite decide_True by (by apply dec_stable).
Qed.

(** A failed creation leaves everything it acquired, but perhaps the bridge
    itself. *)
Definition leaks (o : list event) : Prop :=
  ∃ left, ledger [] o left ∧ (left ≡ₚ acquired o ∨ rImpl :: left ≡ₚ acquired o).

Lemma leaks_all o : released o = [] → leaks o.
Proof.
  intros Hr. exists (acquired o). split; [|by left].
  pose proof (ledger_acquired o [] Hr) as Hl. by rewrite app_nil_r in Hl.
Qed.

Lemma leaks_freed o : released o = [] → rImpl ∈ acquired o → leaks (o ++ [eRelease rImpl]).
Proof.
  intros Hr [rest Hrest]%elem_of_Permutation. exists rest. split.
  - eapply ledger_app; [apply (ledger_acquired o [] Hr)|]. rewrite app_nil_r.
    exists rest. split; [done|]. apply Permutation_refl.
  - right. rewrite acquired_app, app_nil_r. by symmetry.
Qed.

(** What a transport owns once it runs. *)
Definition owned s : list resource :=
  let c := b_cfg s in
  [rImpl; rReady] ++ (rNamingAddress <$> omap id (Params.mNamingAddress (c_naming c)))
  ++ [rWcEndpoints; rLock (b_wcsLock s); rPeers; rInboxes; rLock (b_inboxesLock s); rSubEndpoints;
      rLock (b_subsLock s); rUuid; rInboxSubject]
  ++ startup_resources c (b_sock s) ++ [rThread tDispatch].

(** The environment of a creation: parameters that parse, a uuid of 36
    characters. *)
Context (properties_Get : list byte → option (list byte)) (level : MamaLogLevel → Z) (stop_conn_refused : Z).

Notation createEnv := (@createEnv T P L N).

Record create_ok (env : createEnv) (name : list byte) (c : config) : Prop := {
  ce_config : parse_config properties_Get level stop_conn_refused name = Some c;
  ce_publish : is_naming c = true → is_Some (publish_uri c);
  ce_logging v : e_logging env = Some v → is_Some (atoi v);
  ce_uuid u : e_uuid env = Some u → is_cstr u ∧ length u = UUID_STRING_SIZE }.

(** A transport that runs, as [zmqBridgeMamaTransport_create] leaves it. *)
Record created (env : createEnv) (c : config) s (o : list event) : Prop := {
  cr_config : b_cfg s = c;
  cr_valid : b_isValid s = 1%Z;
  cr_uuid : e_uuid env = Some (b_uuid s) ∧ b_inboxSubject s = ZT.ZMQ_REPLYHANDLE_PREFIX ++ lit "." ++ b_uuid s;
  cr_tables : b_wcs s = e_list env ∧ b_peers s = e_peers env ∧ b_inboxes s = e_inboxes env
              ∧ b_pool s = snd (e_pool env);
  cr_endpoint : if is_naming c then ∃ n, b_pubEndpoint s = Some (endpoint_of n) else b_pubEndpoint s = None;
  cr_calls : zcalls o = startup_calls c (b_inboxSubject s) (b_sock s);
  cr_owned : acquired o = owned s;
  cr_released : released o = [] }.

Lemma after_bind {A} (m : C bridge event A) k o Q s :
  wp m (λ a s1 o1, after (o ++ o1) (k a) Q s1) s → after o (m ≫= k) Q s.
Proof.
  intros Hm. apply wp_bind. eapply wp_mono; [|exact Hm]. intros a s1 o1 Hk.
  eapply wp_mono; [|exact Hk]. intros st s2 o2. cbv beta. by rewrite app_assoc.
Qed.

Lemma after_emit o e k Q s : after (o ++ [e]) k Q s → after o (emit e ;; k) Q s.
Proof. intros Hk. by apply after_bind, wp_emit. Qed.

Lemma after_modify o (f : bridge → bridge) k Q s : after o k Q (f s) → after o (cmodify f ;; k) Q s.
Proof. intros Hk. apply after_bind, wp_modify. by rewrite app_nil_r. Qed.

Lemma after_lock o k Q s :
  after (o ++ [eAcquire (rLock (b_next s))]) (k (b_next s)) Q (set_next (b_next s + 1) s) →
  after o (wlock_create ≫= k) Q s.
Proof. intros Hk. by apply after_bind. Qed.

Lemma after_ret o (Q : mama_status → bridge → list event → Prop) st s : Q st s o → after o (mret st) Q s.
Proof. intros HQ. apply wp_ret. by rewrite app_nil_r. Qed.

Lemma after_CALL o x k Q s :
  wp x (λ st s1 o1, if decide (st = MAMA_STATUS_OK) then after (o ++ o1) k Q s1 else Q st s1 (o ++ o1)) s →
  after o (CALL_MAMA_FUNC x k) Q s.
Proof.
  intros Hx. apply wp_CALL. eapply wp_mono; [|exact Hx]. intros st s1 o1. cbv beta.
  destruct (decide (st = MAMA_STATUS_OK)) as [E|E]; [|done].
  intros Hk. eapply wp_mono; [|exact Hk]. intros st2 s2 o2. cbv beta. by rewrite app_assoc.
Qed.

Definition create_post env c : mama_status → bridge → list event → Prop :=
  λ st s' o, (st = MAMA_STATUS_OK → created env c s' o) ∧ (st ≠ MAMA_STATUS_OK → leaks o).

Lemma after_fail env c o st s :
  st ≠ MAMA_STATUS_OK → released o = [] → rImpl ∈ acquired o → after o (fail st) (create_post env c) s.
Proof.
  intros Hst Hr Ha. apply after_emit, after_ret. split; [done|]. intros _. by apply leaks_freed.
Qed.

Lemma addresses_log l :
  let o := (λ a, eAcquire (rNamingAddress a)) <$> l in
  acquired o = rNamingAddress <$> l ∧ released o = [] ∧ zcalls o = [].
Proof.
  induction l as [|a l IH]; [done|]. destruct IH as (Ea & Er & Ez).
  split_and!; [cbn; by f_equal|exact Er|exact Ez].
Qed.

(** A creation under way: the configuration is read and the collections
    exist; [A] was acquired before them. *)
Record collected (env : createEnv) (c : config) (A : list resource) s (o : list event) : Prop := {
  co_state : b_cfg s = c ∧ b_pubEndpoint s = None;
  co_tables : is_Some (b_wcs s) ∧ b_wcs s = e_list env ∧ b_peers s = e_peers env ∧ b_inboxes s = e_inboxes env
              ∧ b_pool s = snd (e_pool env);
  co_acquired : acquired o = rImpl :: A ++ [rWcEndpoints; rLock (b_wcsLock s); rPeers; rInboxes;
                  rLock (b_inboxesLock s); rSubEndpoints; rLock (b_subsLock s)];
  co_quiet : released o = [] ∧ zcalls o = [] }.

(** The transport has its uuid and its inbox subject as well. *)
Record identified (env : createEnv) (c : config) (A : list resource) s (o : list event) : Prop := {
  id_collected : ∃ o1, collected env c A s o1 ∧ o = o1 ++ [eAcquire rUuid; eAcquire rInboxSubject];
  id_uuid : e_uuid env = Some (b_uuid s);
  id_subject : b_inboxSubject s = ZT.ZMQ_REPLYHANDLE_PREFIX ++ lit "." ++ b_uuid s }.

Lemma collections_wp env c A k o s :
  b_cfg s = c → b_pubEndpoint s = None → acquired o = rImpl :: A → released o = [] → zcalls o = [] →
  (∀ s2 o2, collected env c A s2 o2 → after o2 k (create_post env c) s2) →
  after o (create_collections env k) (create_post env c) s.
Proof.
  intros Hs Hp Ha Hr Hz Hk. unfold create_collections.
  assert (∀ st o', st ≠ MAMA_STATUS_OK → released o' = [] → ∀ s', after (o ++ o') (fail st) (create_post env c) s')
    as Hfail.
  { intros st o' Hst Hr' s'. apply after_fail; [done|by rewrite released_app, Hr, Hr'|].
    rewrite acquired_app, Ha. by left. }
  destruct (e_list env) as [wcs|] eqn:El; [|rewrite <-(app_nil_r o); by apply Hfail].
  apply after_emit, after_lock, after_modify.
  destruct (e_peers env) as [peers|] eqn:Ep; [|rewrite <-app_assoc; by apply Hfail].
  apply after_emit, after_modify.
  destruct (e_inboxes env) as [inboxes|] eqn:Ei; [|rewrite <-!app_assoc; by apply Hfail].
  apply after_emit, after_lock, after_modify.
  case_decide; [rewrite <-!app_assoc; by apply Hfail|].
  apply after_emit, after_lock, after_modify, Hk. rewrite <-!app_assoc.
  split; [done|cbn; by rewrite El, Ep, Ei|by rewrite acquired_app, Ha|by rewrite released_app, zcalls_app, Hr, Hz].
Qed.

Lemma ids_wp env c A name k o s :
  create_ok env name c → collected env c A s o →
  (∀ s2 o2, identified env c A s2 o2 → after o2 k (create_post env c) s2) →
  after o (create_ids env k) (create_post env c) s.
Proof.
  intros [_ _ _ Hu] [Hs Ht Ha [Hr Hz]] Hk. unfold create_ids. apply after_bind.
  destruct (e_uuid env) as [uuid|] eqn:Eu.
  2: { eapply wp_part; [done|]. rewrite app_nil_r. apply after_fail; [done|done|]. rewrite Ha. by left. }
  destruct (Hu uuid eq_refl) as [Huc Hul].
  eapply wp_part; [cbn [zmqBridge_generateUuid]; rewrite strcpy_fits by (rewrite ?Hul; lia); reflexivity|].
  rewrite app_nil_r. apply after_emit, after_bind. eapply wp_part.
  { apply strcpy_fits. rewrite !length_app, Hul. vm_compute. lia. }
  rewrite app_nil_r. apply after_emit, after_modify, Hk. rewrite <-app_assoc. by split; [exists o|..].
Qed.

(** From there the creation fails, and leaks, or the transport runs. *)
Lemma init_start_wp env c A o s :
  (is_naming c = true → is_Some (publish_uri c)) →
  A = rReady :: ((λ a, rNamingAddress a) <$> omap id (Params.mNamingAddress (c_naming c))) →
  identified env c A s o →
  after o (CALL_MAMA_FUNC (zmqBridgeMamaTransportImpl_init rc endpoint_of rcCtx mask rcThread)
    (CALL_MAMA_FUNC (zmqBridgeMamaTransportImpl_start rcThread (e_conn env))
    (emit eResult ;; cmodify (set_valid 1) ;; mret MAMA_STATUS_OK))) (create_post env c) s.
Proof.
  intros Hp -> [(o1 & [[Hs Hpub] (Hw & Ht) Ha [Hr Hz]] & ->) Hu Hi].
  set (o2 := o1 ++ _). assert (released o2 = []) as Hr2 by (by unfold o2; rewrite released_app, Hr).
  assert (zcalls o2 = []) as Hz2 by (by unfold o2; rewrite zcalls_app, Hz).
  assert (acquired o2 = [rImpl; rReady] ++ (rNamingAddress <$> omap id (Params.mNamingAddress (c_naming c))) ++
    [rWcEndpoints; rLock (b_wcsLock s); rPeers; rInboxes; rLock (b_inboxesLock s); rSubEndpoints;
     rLock (b_subsLock s); rUuid; rInboxSubject]) as Ha2.
  { unfold o2. rewrite acquired_app, Ha. cbn. f_equal. f_equal. by rewrite <-!app_assoc. }
  clearbody o2. apply after_CALL. eapply wp_mono; [|apply (init_wp c); done].
  intros st s3 o3 [Hr3 H3]. destruct (decide (st = MAMA_STATUS_OK)) as [E|E].
  2: { split; [done|]. intros _. apply leaks_all. by rewrite released_app, Hr2, Hr3. }
  destruct (H3 E) as (e & Er & He & Hc3 & Ha3 & _). apply after_CALL.
  eapply wp_mono; [|apply start_wp]. intros st' s4 o4 (-> & Hr4 & Hc4 & Ha4).
  destruct (decide (st' = MAMA_STATUS_OK)) as [E'|E'].
  2: { split; [done|]. intros _. apply leaks_all. by rewrite !released_app, Hr2, Hr3, Hr4. }
  apply after_emit, after_modify, after_ret. split; [|done]. intros _.
  unfold rest in Er. cbn in Er. injection Er as F1 F2 F3 F4 F5 F6 F7 F8 F9 F10 F11 F12 F13 F14 F15.
  split; cbn [set_valid b_cfg b_isValid b_uuid b_inboxSubject b_wcs b_peers b_inboxes b_pool b_pubEndpoint b_sock];
    rewrite ?F1, ?F6, ?F7, ?F8, ?F9, ?F10, ?F11; try done.
  - rewrite F3. destruct (is_naming c); congruence.
  - rewrite !zcalls_app, Hz2, Hc3, Hc4. change (zcalls [eResult]) with (@nil zcall). by rewrite !app_nil_r.
  - unfold owned. cbn [set_valid b_cfg b_sock b_wcsLock b_inboxesLock b_subsLock].
    rewrite F1, F12, F13, F14, Hs, !acquired_app, Ha2, Ha3, (Ha4 E'), <-!app_assoc. done.
  - by rewrite !released_app, Hr2, Hr3, Hr4.
Qed.

Lemma create_wp env name c s :
  create_ok env name c →
  wp (zmqBridgeMamaTransport_create rc endpoint_of rcCtx mask rcThread properties_Get level stop_conn_refused env name)
    (create_post env c) s.
Proof.
  intros Hok. pose proof Hok as [Ec Hp Hl _]. unfold zmqBridgeMamaTransport_create.
  destruct (e_args env); [|apply wp_ret; split; [done|intros _; by apply leaks_all]].
  destruct (e_mem env); [|apply wp_ret; split; [done|intros _; by apply leaks_all]]. cbn [negb].
  apply wp_after, after_emit, after_modify, after_emit, after_bind.
  eapply (wp_mono _ (λ _ s1 o1, s1 = calloc s ∧ acquired o1 = [] ∧ released o1 = [] ∧ zcalls o1 = [])).
  2: { destruct (e_logging env) as [v|]; [|by apply wp_ret].
       destruct (Hl v eq_refl) as [n En]. apply wp_bind. eapply wp_part; [exact En|]. by apply wp_emit. }
  intros _ s1 o1 (-> & Ha1 & Hr1 & Hc1). apply after_bind. eapply wp_part; [exact Ec|]. rewrite app_nil_r.
  apply after_modify, after_modify, after_bind, wp_emit_map, after_emit.
  destruct (addresses_log (omap id (Params.mNamingAddress (c_naming c)))) as (Ea & Er & Ez).
  eapply collections_wp; [done|done| |by rewrite !released_app, Hr1, Er|by rewrite !zcalls_app, Hc1, Ez|].
  { rewrite !acquired_app, Ha1, Ea. cbn. by rewrite app_nil_r. }
  intros s2 o2 H2. eapply ids_wp; [done|done|]. intros s3 o3 H3. by eapply init_start_wp.
Qed.

(** ** Stop and destruction *)

Context (MAXHOST : nat) (progName hostName : list byte) (pid : Z).

Lemma destroySocket_wp k s :
  wp (destroySocket rc allEvents k)
    (λ _ s' o, (∃ n, s' = set_calls n s) ∧ acquired o = [] ∧ released o = sock_resources (b_sock s k)) s.
Proof.
  unfold destroySocket, zmqBridgeMamaTransportImpl_destroySocket, wlock_lock, wlock_unlock, wlock_destroy.
  apply wp_bind, wp_get, wp_bind, wp_emit, wp_bind.
  eapply (wp_mono _ (λ _ s1 o1, (∃ n, s1 = set_calls n s) ∧ acquired o1 = [] ∧ released o1 = [])).
  - intros st s1 o1 ([n ->] & Ha & Hr). apply wp_bind, wp_zmq, wp_bind, wp_emit, wp_bind, wp_emit, wp_ret.
    split_and!; [by eexists|by rewrite !acquired_app, Ha|by rewrite !released_app, Hr].
  - destruct (decide (mMonitor (b_sock s k) ≠ 0)%Z).
    + apply wp_bind, wp_zmq, wp_ret. by split_and!; [eexists|..].
    + apply wp_ret. split_and!; [|done|done]. exists (b_calls s). by destruct s.
Qed.

(** The bytes of the disconnect message and the calls of a stop. *)
Definition stop_calls s (ep : list byte) : list zcall :=
  (if is_naming (b_cfg s)
   then [zmq_send (mSocket (b_sock s NamingPub))
           (ZN.naming_bytes MAXHOST (own_msg MAXHOST progName hostName pid (naming_of noN s) ep x44))]
   else []) ++ [zmq_send (mSocket (b_sock s ControlPub)) exit_msg].

(** A send: one call, no thread is joined. *)
Definition sent_once (c : zcall) s s' (o : list event) : Prop :=
  (∃ n, s' = set_calls n s) ∧ acquired o = [] ∧ released o = [] ∧ zcalls o = [c]
  ∧ (∀ t r, eJoin t r ∉ o).

Lemma send_exit_wp s :
  wp (on_routing noT noP noL (ZT.zmqBridgeMamaTransportImpl_sendCommand rc exit_msg))
    (λ _ s' o, sent_once (zmq_send (mSocket (b_sock s ControlPub)) exit_msg) s s' o) s.
Proof.
  apply wp_zoom. unfold ZT.zmqBridgeMamaTransportImpl_sendCommand, wlock_lock, wlock_unlock, zmq.
  wp_steps. split_and!; [by eexists|done..|not_joined].
Qed.

Lemma send_leave_wp ep s :
  valid_node (naming_of noN s) ep →
  wp (on_naming noN (ZN.zmqBridgeMamaTransportImpl_sendEndpointsMsg MAXHOST rc progName hostName pid x44))
    (λ _ s' o, sent_once (zmq_send (mSocket (b_sock s NamingPub))
       (ZN.naming_bytes MAXHOST (own_msg MAXHOST progName hostName pid (naming_of noN s) ep x44))) s s' o) s.
Proof.
  intros Hv. apply wp_zoom. unfold ZN.zmqBridgeMamaTransportImpl_sendEndpointsMsg, wlock_lock, wlock_unlock, zmq.
  apply wp_bind, wp_get, wp_bind. eapply wp_part; [by apply own_msg_eq|].
  wp_steps. split_and!; [by eexists|done..|not_joined].
Qed.

(** The outcome of a stop: the dispatch thread is joined after all the
    sends, or not at all. *)
Record stopped ep s st s' (o : list event) : Prop := {
  sp_state : ∃ n, s' = set_calls n (set_beacon 0 s);
  sp_acquired : acquired o = [];
  sp_released : released o = if decide (st = MAMA_STATUS_OK) then [rThread tDispatch] else [];
  sp_calls : ∃ k, zcalls o = take k (stop_calls s ep);
  sp_joined r : eJoin tDispatch r ∈ o → zcalls o = stop_calls s ep ∧ last o = Some (eJoin tDispatch r);
  sp_ready : head o = Some eWaitReady }.

(** A log before the join, with its first event. *)
Definition stopping ep s (o : list event) : Prop :=
  acquired o = [] ∧ released o = [] ∧ (∃ k, zcalls o = take k (stop_calls s ep))
  ∧ (∀ t r, eJoin t r ∉ o) ∧ head o = Some eWaitReady.

Lemma stopping_send ep s s1 s2 o o1 c k :
  stopping ep s o → zcalls o = take k (stop_calls s ep) → stop_calls s ep !! k = Some c → sent_once c s1 s2 o1 →
  stopping ep s (o ++ o1) ∧ zcalls (o ++ o1) = take (S k) (stop_calls s ep).
Proof.
  intros (Ha & Hr & _ & Hj & Hh) Hk Hc (_ & Ha1 & Hr1 & Hc1 & Hj1).
  assert (zcalls (o ++ o1) = take (S k) (stop_calls s ep)) as E.
  { rewrite zcalls_app, Hk, Hc1. symmetry. by apply take_S_r. }
  split; [|done]. split_and!.
  - by rewrite acquired_app, Ha, Ha1.
  - by rewrite released_app, Hr, Hr1.
  - by exists (S k).
  - intros t r [?|?]%elem_of_app; [by eapply Hj|by eapply Hj1].
  - destruct o; [done|exact Hh].
Qed.

Lemma stopped_early ep s st n o :
  stopping ep s o → st ≠ MAMA_STATUS_OK → stopped ep s st (set_calls n (set_beacon 0 s)) o.
Proof.
  intros (Ha & Hr & Hc & Hj & Hh) Hst. split; try done; [by exists n|by rewrite decide_False|].
  intros r Hin. by apply Hj in Hin.
Qed.

Lemma stopped_joined ep s n o :
  stopping ep s o → zcalls o = stop_calls s ep →
  stopped ep s (if decide (rcJoin tDispatch ≠ 0)%Z then MAMA_STATUS_PLATFORM else MAMA_STATUS_OK)
    (set_calls n (set_beacon 0 s)) (o ++ [eJoin tDispatch (rcJoin tDispatch)]).
Proof.
  intros (Ha & Hr & _ & Hj & Hh) Hc.
  assert (zcalls (o ++ [eJoin tDispatch (rcJoin tDispatch)]) = stop_calls s ep) as E
    by (by rewrite zcalls_app, Hc, app_nil_r).
  split.
  - by exists n.
  - rewrite acquired_app, Ha. cbn. by case_decide.
  - rewrite released_app, Hr. cbn. destruct (decide (rcJoin tDispatch ≠ 0)%Z) as [Hz|Hz].
    + rewrite decide_False by done. by rewrite decide_False.
    + rewrite decide_True by (by apply dec_stable). by rewrite decide_True.
  - exists (length (stop_calls s ep)). by rewrite firstn_all.
  - intros r [Hin|Hin]%elem_of_app; [by apply Hj in Hin|]. apply list_elem_of_singleton in Hin as ->.
    split; [done|by apply last_snoc].
  - destruct o; [done|exact Hh].
Qed.

Lemma stop_wp ep s :
  (is_naming (b_cfg s) = true → valid_node (naming_of noN s) ep) →
  wp (zmqBridgeMamaTransportImpl_stop noT noP noL noN rc rcJoin MAXHOST progName hostName pid) (stopped ep s) s.
Proof.
  intros Hv. unfold zmqBridgeMamaTransportImpl_stop.
  apply wp_after, after_modify, after_emit, after_bind, wp_get. cbn [app]. set (s0 := set_beacon 0 s).
  assert (stopping ep s [eWaitReady]) as Hstart.
  { split_and!; try done; [by exists 0|]. intros t r Hin. by apply list_elem_of_singleton in Hin. }
  assert (∀ o1 n k, stopping ep s o1 → zcalls o1 = take k (stop_calls s ep) → S k = length (stop_calls s ep) →
    stop_calls s ep !! k = Some (zmq_send (mSocket (b_sock s ControlPub)) exit_msg) →
    after o1 (CALL_MAMA_FUNC (on_routing noT noP noL (ZT.zmqBridgeMamaTransportImpl_sendCommand rc exit_msg)) (
        emit (eJoin tDispatch (rcJoin tDispatch)) ;;
        mret (if decide (rcJoin tDispatch ≠ 0)%Z then MAMA_STATUS_PLATFORM else MAMA_STATUS_OK))) (stopped ep s)
      (set_calls n s0)) as Hexit.
  { intros o1 n k Hs Hk Hl Hc. apply after_CALL. eapply wp_mono; [|apply send_exit_wp].
    intros st s2 o2 Hsent. destruct (stopping_send _ _ _ _ _ _ _ _ Hs Hk Hc Hsent) as [Hs2 Hk2].
    destruct Hsent as [[n2 ->] _]. destruct (decide (st = MAMA_STATUS_OK)) as [E|E].
    - apply after_emit, after_ret. apply (stopped_joined _ _ n2); [done|]. by rewrite Hk2, Hl, firstn_all.
    - by apply (stopped_early _ _ _ n2). }
  change (b_cfg s0) with (b_cfg s). unfold is_naming in Hv.
  destruct (decide (Params.mIsNaming (c_common (b_cfg s)) = 1)%Z) as [Hn|Hn].
  - rewrite bool_decide_true in Hv by done. specialize (Hv eq_refl).
    apply after_CALL. eapply wp_mono; [|apply (send_leave_wp ep); by destruct Hv].
    intros st s2 o2 Hsent.
    destruct (stopping_send ep s s0 s2 [eWaitReady] o2
      (zmq_send (mSocket (b_sock s NamingPub))
           (ZN.naming_bytes MAXHOST (own_msg MAXHOST progName hostName pid (naming_of noN s) ep x44))) 0 Hstart eq_refl)
      as [Hs2 Hk2]; [|exact Hsent|].
    { unfold stop_calls, is_naming. by rewrite bool_decide_true by done. }
    destruct Hsent as [[n2 ->] _]. destruct (decide (st = MAMA_STATUS_OK)) as [E|E].
    + apply (Hexit _ n2 1); [done|done|..]; unfold stop_calls, is_naming; by rewrite bool_decide_true by done.
    + by apply (stopped_early _ _ _ n2).
  - assert (s0 = set_calls (b_calls s0) s0) as -> by (by destruct s).
    apply (Hexit _ _ 0); [done|done|..]; unfold stop_calls, is_naming; by rewrite bool_decide_false by done.
Qed.

Lemma destroy_sockets_wp s :
  wp (destroy_sockets rc allEvents (Params.mIsNaming (c_common (b_cfg s))))
    (λ _ s' o, (∃ n, s' = set_calls n s) ∧ acquired o = []
       ∧ released o ≡ₚ flat_map (λ k, sock_resources (b_sock s k)) (data_sockets (b_cfg s))) s.
Proof.
  unfold destroy_sockets, data_sockets, is_naming.
  do 4 (apply wp_bind; eapply wp_mono; [|apply destroySocket_wp]; intros ?? ? ([? ->] & ? & ?)).
  cbn [set_calls b_sock] in *.
  destruct (decide _) as [Hn|Hn]; [rewrite bool_decide_true by done|rewrite bool_decide_false by done].
  - do 2 (apply wp_bind; eapply wp_mono; [|apply destroySocket_wp]; intros ?? ? ([? ->] & ? & ?)).
    cbn [set_calls b_sock] in *. apply wp_ret. split; [by eexists|]. rewrite !acquired_app, !released_app.
    repeat match goal with H : acquired _ = [] |- _ => rewrite H; clear H end.
    repeat match goal with H : released _ = _ |- _ => rewrite H; clear H end.
    split; [done|]. cbn. solve_Permutation.
  - apply wp_ret. split; [by eexists|]. rewrite !acquired_app, !released_app.
    repeat match goal with H : acquired _ = [] |- _ => rewrite H; clear H end.
    repeat match goal with H : released _ = _ |- _ => rewrite H; clear H end.
    split; [done|]. cbn. solve_Permutation.
Qed.

Lemma locked_call_wp sk c s :
  (∀ r, zchange (ECall c r) = Neutral) →
  wp (locked_call rc sk c)
    (λ _ s' o, (∃ n, s' = set_calls n s) ∧ acquired o = [] ∧ released o = []) s.
Proof.
  intros Hc. unfold locked_call, wlock_lock, wlock_unlock.
  apply wp_bind, wp_emit, wp_bind, wp_zmq, wp_bind, wp_emit, wp_ret. set (r := rc _ _).
  assert (changes (eZmq (ECall c r)) = Neutral) as E by apply Hc.
  split_and!; [by eexists|..]; unfold acquired, released; cbn -[changes]; by rewrite E.
Qed.

Ltac monitor_tac :=
  match goal with H : released _ ++ _ = [rThread tMonitor] |- _ => rewrite <-H end; solve_Permutation.

(** Stopping the monitor: what it does not release is left when a call on
    its sockets fails. *)
Lemma stopMonitor_wp s :
  wp (zmqBridgeMamaTransportImpl_stopMonitor rc allEvents rcJoin)
    (λ st s' o, (∃ n, s' = set_calls n (set_monitoring 0 s)) ∧ acquired o = []
       ∧ ∃ left, monitor_resources (b_sock s) ≡ₚ released o ++ left
           ∧ (st = MAMA_STATUS_OK → rcJoin tMonitor = 0%Z → left = [])) s.
Proof.
  unfold zmqBridgeMamaTransportImpl_stopMonitor.
  apply wp_after, after_modify, after_bind, wp_get, after_bind, wp_zmq, after_emit. cbn [app].
  set (o0 := [_; _]). set (s0 := set_monitoring 0 s).
  set (th := if decide (rcJoin tMonitor = 0)%Z then [] else [rThread tMonitor]).
  assert (acquired o0 = [] ∧ released o0 ++ th = [rThread tMonitor]) as [Ha0 Hr0].
  { unfold o0, th. cbn. by case_decide. }
  assert (rcJoin tMonitor = 0%Z → th = []) as Hth by (unfold th; intros ->; done).
  clearbody o0 th. assert (∃ n, set_calls (S (b_calls s0)) s0 = set_calls n s0) as [n0 ->] by (by eexists).
  unfold zmqBridgeMamaTransportImpl_disconnectSocket, zmqBridgeMamaTransportImpl_unbindSocket, monitor_resources.
  cbn [flat_map app].
  apply after_CALL. eapply wp_mono; [|by apply locked_call_wp; intros r]. intros st1 s1 o1 ([n1 ->] & Ha1 & Hr1).
  destruct (decide (st1 = MAMA_STATUS_OK)) as [E1|E1].
  2: { split_and!; [by eexists|by rewrite acquired_app, Ha0, Ha1|].
       exists (th ++ sock_resources (b_sock s MonitorSub) ++ sock_resources (b_sock s MonitorPub)).
       rewrite released_app, Hr1. split; [|done]. monitor_tac. }
  apply after_CALL. eapply wp_mono; [|apply destroySocket_wp]. intros st2 s2 o2 ([n2 ->] & Ha2 & Hr2).
  cbn [set_calls b_sock] in Hr2.
  destruct (decide (st2 = MAMA_STATUS_OK)) as [E2|E2].
  2: { split_and!; [by eexists|by rewrite !acquired_app, Ha0, Ha1, Ha2|].
       exists (th ++ sock_resources (b_sock s MonitorSub)).
       rewrite !released_app, Hr1, Hr2. split; [|done]. monitor_tac. }
  apply after_CALL. eapply wp_mono; [|by apply locked_call_wp; intros r]. intros st3 s3 o3 ([n3 ->] & Ha3 & Hr3).
  destruct (decide (st3 = MAMA_STATUS_OK)) as [E3|E3].
  2: { split_and!; [by eexists|by rewrite !acquired_app, Ha0, Ha1, Ha2, Ha3|].
       exists (th ++ sock_resources (b_sock s MonitorSub)).
       rewrite !released_app, Hr1, Hr2, Hr3. split; [|done]. monitor_tac. }
  apply after_CALL. eapply wp_mono; [|apply destroySocket_wp]. intros st4 s4 o4 ([n4 ->] & Ha4 & Hr4).
  cbn [set_calls b_sock] in Hr4.
  destruct (decide (st4 = MAMA_STATUS_OK)) as [E4|E4]; [apply after_ret|];
    (split_and!; [by eexists|by rewrite !acquired_app, Ha0, Ha1, Ha2, Ha3, Ha4|]); exists th;
    rewrite !released_app, Hr1, Hr2, Hr3, Hr4; (split; [monitor_tac|by auto]).
Qed.

(** What the end of a destruction releases. *)
Definition memory s : list resource :=
  [rContext; rLock (b_subsLock s); rSubEndpoints; rLock (b_inboxesLock s); rInboxes; rLock (b_wcsLock s);
   rWcEndpoints; rUuid; rInboxSubject]
  ++ (match b_pubEndpoint s with Some _ => [rPubEndpoint] | None => [] end)
  ++ (rNamingAddress <$> omap id (Params.mNamingAddress (c_naming (b_cfg s)))) ++ [rPeers; rImpl].

Lemma release_addresses_log l :
  let o := (λ a, eRelease (rNamingAddress a)) <$> l in
  released o = rNamingAddress <$> l ∧ acquired o = [].
Proof.
  induction l as [|a l IH]; [done|]. destruct IH as (Er & Ea).
  split_and!; [cbn; by f_equal|exact Ea].
Qed.

Lemma destroy_memory_wp s :
  wp destroy_memory (λ _ s' o, s' = s ∧ acquired o = [] ∧ released o = memory s) s.
Proof.
  unfold destroy_memory. apply wp_bind, wp_get.
  do 10 (apply wp_bind, wp_emit). apply wp_bind.
  eapply (wp_mono _ (λ _ s1 o1, s1 = s ∧ acquired o1 = []
            ∧ released o1 = match b_pubEndpoint s with Some _ => [rPubEndpoint] | None => [] end)).
  2: { by destruct (b_pubEndpoint s). }
  intros _ s1 o1 (-> & Ha & Hr). apply wp_bind, wp_emit_map, wp_bind, wp_emit, wp_emit.
  destruct (release_addresses_log (omap id (Params.mNamingAddress (c_naming (b_cfg s))))) as [Er Ea].
  split; [done|]. rewrite !acquired_app, !released_app, Ha, Hr, Er, Ea. by split.
Qed.

(** A transport that runs: it owns its endpoint exactly when it names
    itself; the pause of a destruction is a number. *)
Definition running ep s : Prop :=
  (if is_naming (b_cfg s) then valid_node (naming_of noN s) ep else b_pubEndpoint s = None)
  ∧ is_Some (times_2 (Params.mNamingConnectInterval (c_naming (b_cfg s)))).

Definition monitored s : list resource := if is_monitored (b_cfg s) then monitor_resources (b_sock s) else [].

(** What the join of the publishing thread releases, whether there is one or
    not. *)
Definition publish_joined : list resource := if decide (rcJoin tPublish = 0)%Z then [rThread tPublish] else [].

(** A destruction frees [all], or keeps a part of it when a call of it
    failed; the thread it joined in any case is released. *)
Definition frees (all : list resource) : mama_status → bridge → list event → Prop :=
  λ st _ o, acquired o = [] ∧ publish_joined ⊆ released o ∧ ∃ left, all ≡ₚ released o ++ left
    ∧ (st = MAMA_STATUS_OK → rcJoin tMonitor = 0%Z → left = []).

Lemma memory_wp all o s kept st :
  acquired o = [] → publish_joined ⊆ released o → all ≡ₚ released o ++ kept ++ memory s →
  (st = MAMA_STATUS_OK → rcJoin tMonitor = 0%Z → kept = []) →
  after o (destroy_memory ;; mret st) (frees all) s.
Proof.
  intros Ha Hj Hall Hk. apply after_bind. eapply wp_mono; [|apply destroy_memory_wp].
  intros _ s6 o6 (-> & Ha6 & Hr6). apply after_ret.
  split_and!; [by rewrite acquired_app, Ha|rewrite released_app; by apply list_subseteq_app_l|].
  exists kept. split; [|done]. rewrite Hall, released_app, Hr6. solve_Permutation.
Qed.

(** The monitor's sockets and the memory; [kept] was not freed before. *)
Lemma destroy_rest_wp all o s kept st :
  acquired o = [] → publish_joined ⊆ released o → all ≡ₚ released o ++ kept ++ monitored s ++ memory s →
  (st = MAMA_STATUS_OK → kept = []) →
  after o ((if decide (Params.mSocketMonitor (c_common (b_cfg s)) ≠ 0)%Z
            then CALL_MAMA_FUNC (zmqBridgeMamaTransportImpl_stopMonitor rc allEvents rcJoin) else λ k, k)
           (destroy_memory ;; mret st)) (frees all) s.
Proof.
  unfold monitored, is_monitored. intros Ha Hj Hall Hk.
  destruct (decide (Params.mSocketMonitor (c_common (b_cfg s)) ≠ 0)%Z) as [Hmon|Hmon].
  2: { rewrite bool_decide_false in Hall by done. apply memory_wp with kept; auto. }
  rewrite bool_decide_true in Hall by done. apply after_CALL. eapply wp_mono; [|apply stopMonitor_wp].
  intros st5 s5 o5 ([n5 ->] & Ha5 & left5 & Hr5 & Hl5). rewrite Hr5 in Hall.
  assert (acquired (o ++ o5) = []) as Ha' by (by rewrite acquired_app, Ha).
  assert (publish_joined ⊆ released (o ++ o5)) as Hj' by (rewrite released_app; by apply list_subseteq_app_l).
  destruct (decide (st5 = MAMA_STATUS_OK)) as [E5|E5].
  - apply memory_wp with (kept ++ left5); [done|done| |].
    + change (memory (set_calls _ _)) with (memory s). rewrite Hall, released_app. solve_Permutation.
    + intros E Em. by rewrite Hk, Hl5.
  - split_and!; [done|done|]. exists (kept ++ left5 ++ memory s). split; [|done]. rewrite Hall, released_app. solve_Permutation.
Qed.

(** What a running transport owns: the dispatch thread, its state and its
    sockets, then what [destroy_rest_wp] frees. *)
Lemma owned_parts ep s :
  (if is_naming (b_cfg s) then valid_node (naming_of noN s) ep else b_pubEndpoint s = None) →
  owned s ≡ₚ rThread tDispatch :: rReady
    :: flat_map (λ k, sock_resources (b_sock s k)) (data_sockets (b_cfg s)) ++ monitored s ++ memory s.
Proof.
  intros Hv. unfold monitored, owned, memory, startup_resources. unfold is_naming in *. case_bool_decide.
  - pose proof (vn_ep _ _ Hv) as Ep. cbn in Ep. rewrite Ep. solve_Permutation.
  - rewrite Hv. solve_Permutation.
Qed.

Lemma destroy_wp ep s :
  running ep s →
  wp (zmqBridgeMamaTransport_destroy noT noP noL noN rc allEvents rcJoin MAXHOST progName hostName pid true)
    (frees (publish_joined ++ owned s)) s.
Proof.
  intros [Hv [micros Hm]]. unfold zmqBridgeMamaTransport_destroy. cbn [negb].
  apply wp_after, after_bind. eapply wp_mono; [|apply (stop_wp ep)].
  2: { intros E. by rewrite E in Hv. }
  intros st s1 o1 [[n1 ->] Ha1 Hr1 _ _ _]. apply after_emit, after_bind, wp_get, after_bind.
  eapply (wp_mono _ (λ _ s1 o2, s1 = set_calls n1 (set_beacon 0 s) ∧ acquired o2 = [] ∧ released o2 = [])).
  2: { match goal with |- wp (if decide ?P then _ else _) _ _ => destruct (decide P) end; [|by apply wp_ret].
       apply wp_bind. eapply wp_part; [exact Hm|]. by apply wp_emit. }
  intros _ s2 o2 (-> & Ha2 & Hr2). apply after_emit, after_bind.
  eapply wp_mono; [|apply destroy_sockets_wp]. intros _ s3 o3 ([n3 ->] & Ha3 & Hr3).
  cbn [set_calls set_beacon b_cfg b_sock] in Hr3 |- *. rewrite app_nil_r. cbn [app].
  apply (destroy_rest_wp _ _ (set_calls n3 (set_calls n1 (set_beacon 0 s)))
    (if decide (st = MAMA_STATUS_OK) then [] else [rThread tDispatch])).
  - rewrite !acquired_app, Ha1, Ha2, Ha3. cbn. by destruct (decide (rcJoin tPublish = 0)%Z).
  - rewrite !released_app. unfold publish_joined. cbn.
    destruct (decide (rcJoin tPublish = 0)%Z); [|by intros r ?%not_elem_of_nil]. intros r Hr. apply list_elem_of_singleton in Hr as ->.
    rewrite !elem_of_app. left. right. by left.
  - rewrite (owned_parts ep s Hv), !released_app, Hr1, Hr2, Hr3. cbn [set_calls set_beacon].
    change (monitored (set_calls _ _)) with (monitored s). change (memory (set_calls _ _)) with (memory s).
    unfold publish_joined. cbn.
    destruct (decide (st = MAMA_STATUS_OK)), (decide (rcJoin tPublish = 0)%Z); solve_Permutation.
  - intros ->. by rewrite decide_True.
Qed.

(** The publishing thread is none of what a creation acquires. *)
Lemma publish_not_owned s : rThread tPublish ∉ owned s.
Proof.
  unfold owned, startup_resources, monitor_resources, sock_resources. intros Hin.
  repeat first
    [ apply elem_of_app in Hin as [Hin|Hin] | apply elem_of_cons in Hin as [Hin|Hin]; [done|]
    | by apply not_elem_of_nil in Hin
    | apply list_elem_of_fmap in Hin as (? & Hin & _); done
    | match type of Hin with _ ∈ (if ?b then _ else _) => destruct b end
    | apply list_elem_of_In, in_flat_map in Hin as (? & _ & Hin%list_elem_of_In) ].
Qed.

(** Nothing gets lost in a ledger. *)
Lemma ledger_sum held o held' : ledger held o held' → acquired o ++ held ≡ₚ released o ++ held'.
Proof.
  revert held. unfold acquired, released. induction o as [|e o IH]; intros held; simpl; [done|].
  destruct (changes e) as [r|r|]; simpl; [| |apply IH].
  - intros Hl%IH. by rewrite <-Hl, Permutation_middle.
  - intros (rest & E & Hl%IH). by rewrite E, <-Hl, Permutation_middle.
Qed.

End Operations.
