(* ===== verification/LifecycleSpec.v ===== *)
(** * What the life cycle of a transport guarantees

    Creation, the stop of the dispatch thread, the balance of a whole life
    (with the log of a run of the dispatch thread in the middle), and the
    invariants the dispatch thread starts from. *)

From S2P Require Import Prelude CLib CMonad CNum Util Params Msg Socket Collections Routing RoutingProofs Naming NamingProofs Transport TransportProofs Lifecycle LifecycleProofs.
Import ZM ZU Sock Life.

Section LifecycleSpec.

Context {T P L N : Type}.
Context `{HT : StrTable T ZT.ptr} `{HP : EndpointPool P ZT.ptr} `{HPL : !EndpointPoolLaws P ZT.ptr} `{HL : WList L ZT.ptr} `{HN : StrTable N (list byte)}.
Context (noT : T) (noP : P) (noL : L) (noN : N) `{!WStr}.
Context (rc : nat → zcall → Z) (endpoint_of : nat → list byte) (rcCtx mask allEvents : Z).
Context (rcThread rcJoin : thread → Z).
Context (hostlen : nat) (progName hostName : list byte) (pid : Z).
Context (properties_Get : list byte → option (list byte)) (level : MamaLogLevel → Z) (stop_conn_refused : Z).
(** zmq writes an endpoint into the buffer it is given. *)
Context (endpoint_fits : ∀ n, is_cstr (endpoint_of n) ∧ length (endpoint_of n) < ZN.ENDPOINT_CAP).

Notation create := (zmqBridgeMamaTransport_create (T:=T) (P:=P) (L:=L) (N:=N) rc endpoint_of rcCtx mask rcThread
  properties_Get level stop_conn_refused).
Notation destroy := (zmqBridgeMamaTransport_destroy noT noP noL noN rc allEvents rcJoin hostlen progName hostName pid true).
Notation stop := (zmqBridgeMamaTransportImpl_stop noT noP noL noN rc rcJoin hostlen progName hostName pid).
Notation create_ok := (create_ok (T:=T) (P:=P) (L:=L) (N:=N) properties_Get level stop_conn_refused).

(** The life between creation and destruction changes the contents of the
    collections, the counters and the flags, but no resource. *)
Record lived (s s' : bridge T P L N) : Prop := {
  lv_config : b_cfg s' = b_cfg s;
  lv_sockets : b_sock s' = b_sock s;
  lv_endpoint : b_pubEndpoint s' = b_pubEndpoint s;
  lv_uuid : b_uuid s' = b_uuid s;
  lv_locks : b_wcsLock s' = b_wcsLock s ∧ b_inboxesLock s' = b_inboxesLock s ∧ b_subsLock s' = b_subsLock s }.

Lemma lived_owned s s' : lived s s' → owned s' = owned s.
Proof. intros [Ec Es _ _ (E1 & E2 & E3)]. unfold owned. by rewrite Ec, Es, E1, E2, E3. Qed.

Lemma lived_running env name c s s' o :
  create_ok env name c → created endpoint_of mask env c s o → lived s s' →
  is_Some (times_2 (Params.mNamingConnectInterval (c_naming c))) → ∃ ep, running noN ep s'.
Proof using endpoint_fits.
  intros Hok Hc Hl Ht. assert (b_cfg s' = c) as Ec by (rewrite (lv_config _ _ Hl); apply Hc).
  pose proof (cr_endpoint _ _ _ _ _ _ Hc) as He. rewrite <-(lv_endpoint _ _ Hl) in He.
  unfold running. rewrite Ec. destruct (is_naming c); [|by exists []].
  destruct He as [n En]. exists (endpoint_of n). split; [|done].
  destruct (ce_uuid _ _ _ _ _ _ Hok _ (proj1 (cr_uuid _ _ _ _ _ _ Hc))) as [Huc Hul].
  split; [exact En|apply endpoint_fits|]. cbn. rewrite (lv_uuid _ _ Hl), Hul. split; [done|vm_compute; lia].
Qed.

(** The threads that announce the transport, as its dispatch thread starts
    them: one for each welcome message. *)
Definition publish_events (ot : list ZL.lobs) : list event := eThread tPublish <$> thread_starts ot.
Definition publishers (ot : list ZL.lobs) : nat := length (filter (λ r, r = 0%Z) (thread_starts ot)).

Lemma publish_acquired ot :
  acquired (publish_events ot) = replicate (publishers ot) (rThread tPublish) ∧ released (publish_events ot) = [].
Proof using Type.
  unfold publish_events, publishers, acquired, released. induction (thread_starts ot) as [|r l [IHa IHr]]; [done|].
  rewrite filter_cons. cbn. case_decide; cbn; [by rewrite IHa, IHr|done].
Qed.

(** C16: the whole life of a transport: it is created, its dispatch thread
    runs, and it is destroyed, whatever zmq answers.  The destruction is
    defined.  When the dispatch thread has started the announcing thread,
    nothing is released that is not held, nor anything twice; when the
    destruction succeeds and its threads are joined, every allocation, lock,
    socket, context and thread that was acquired has been released, except the
    announcing threads but one: each further welcome message started another,
    and only the last is joined.  When none was started, as for every transport
    that is not a naming one, the same holds if the join of the thread that
    never was fails, and if it succeeds something was released that nobody
    held. *)
Theorem life_cycle_balanced env name c s0 s1 o1 rcR rcN regexec mem start interval ps ended tp ot s2 :
  create_ok env name c → is_Some (times_2 (Params.mNamingConnectInterval (c_naming c))) →
  create env name s0 = Some (MAMA_STATUS_OK, s1, o1) →
  ZL.zmqBridgeMamaTransportImpl_dispatchThread hostlen rcR rcN regexec progName hostName pid mem (rcThread tPublish)
    (b_sock s1 DataSub) (b_sock s1 NamingSub) start interval ps (tport_of noT noP noL noN s1) = Some (ended, tp, ot) →
  lived s1 s2 →
  ∃ st s3 o2, destroy s2 = Some (st, s3, o2) ∧
    let log := o1 ++ publish_events ot ++ o2 in
    (is_naming c = false → publishers ot = 0)
    ∧ match publishers ot with
      | 0 => if decide (rcJoin tPublish = 0)%Z then ∀ left, ¬ ledger [] log left
             else ∃ left, ledger [] log left ∧ (st = MAMA_STATUS_OK → rcJoin tMonitor = 0%Z → left = [])
      | S k => ∃ left, ledger [] log left
             ∧ (st = MAMA_STATUS_OK → rcJoin tMonitor = 0%Z → rcJoin tPublish = 0%Z →
                left = replicate k (rThread tPublish))
      end.
Proof using endpoint_fits.
  intros Hok Ht Ecreate Ethread Hlived.
  pose proof (create_wp rc endpoint_of rcCtx mask rcThread _ _ _ env name c s0 Hok) as Hc.
  unfold wp in Hc. rewrite Ecreate in Hc. destruct Hc as [Hc _]. specialize (Hc eq_refl).
  destruct (lived_running _ _ _ _ _ _ Hok Hc Hlived Ht) as [ep Hrun].
  pose proof (destroy_wp noT noP noL noN rc allEvents rcJoin hostlen progName hostName pid ep s2 Hrun) as Hd.
  apply wp_run in Hd as (st & s3 & o2 & Ed & Ha & Hjo & left & Hp & Hleft).
  exists st, s3, o2. split; [exact Ed|]. cbv zeta.
  rewrite (lived_owned _ _ Hlived), <-(cr_owned _ _ _ _ _ _ Hc) in Hp.
  destruct (publish_acquired ot) as [Hpa Hpr].
  assert (∀ l, replicate (publishers ot) (rThread tPublish) ++ acquired o1 ≡ₚ released o2 ++ l →
    ledger [] (o1 ++ publish_events ot ++ o2) l) as Hledger.
  { intros l Hl. eapply ledger_app; [apply ledger_acquired, Hc|]. rewrite app_nil_r.
    eapply ledger_app; [by apply ledger_acquired|]. rewrite Hpa, Hl. by apply ledger_released. }
  split.
  { intros Hn. unfold publishers. erewrite not_naming_thread; [done| |exact Ethread].
    cbn. rewrite (cr_config _ _ _ _ _ _ Hc). by apply bool_decide_eq_false in Hn. }
  unfold publish_joined in Hp. destruct (publishers ot) as [|k]; cbn [replicate app] in Hledger.
  - case_decide as Hj.
    + intros l Hl%ledger_sum. rewrite !acquired_app, !released_app, Hpa, Hpr, Ha, (cr_released _ _ _ _ _ _ Hc) in Hl.
      cbn [replicate app] in Hl. rewrite !app_nil_r in Hl. apply (publish_not_owned s1).
      rewrite <-(cr_owned _ _ _ _ _ _ Hc), Hl. apply elem_of_app. left.
      apply Hjo. unfold publish_joined. rewrite decide_True by done. by left.
    + exists left. split; [by apply Hledger|done].
  - case_decide as Hj.
    + exists (left ++ replicate k (rThread tPublish)). split.
      * apply Hledger. cbn in Hp |- *. rewrite (app_assoc (released o2)), <-Hp. solve_Permutation.
      * intros Hst Hm _. by rewrite Hleft.
    + exists (left ++ replicate (S k) (rThread tPublish)). split.
      * apply Hledger. cbn [app] in Hp. rewrite Hp. cbn. solve_Permutation.
      * done.
Qed.

(** C17: creation. It is defined on every answer of zmq; success leaves a
    transport that is valid, owns exactly what it acquired, and has made the
    calls of its configuration in this order: control sockets, data sockets
    and their options, the inbox subscription, naming sockets, the monitor,
    and only then the endpoints that connect it to others. *)
Theorem create_starts env name c s0 :
  create_ok env name c →
  ∃ st s1 o1, create env name s0 = Some (st, s1, o1)
    ∧ (st = MAMA_STATUS_OK →
         zcalls o1 = startup_calls mask c (b_inboxSubject s1) (b_sock s1)
         ∧ acquired o1 = owned s1 ∧ b_isValid s1 = 1%Z ∧ b_cfg s1 = c
         ∧ (is_naming c = true → is_Some (b_pubEndpoint s1))).
Proof using Type.
  intros Hok. pose proof (create_wp rc endpoint_of rcCtx mask rcThread _ _ _ env name c s0 Hok) as Hc.
  apply wp_run in Hc as (st & s1 & o1 & E & Hc & _). exists st, s1, o1. split; [exact E|].
  intros Hst. destruct (Hc Hst) as [E1 E2 _ _ E5 E6 E7 _]. split_and!; try done.
  intros Hn. rewrite Hn in E5. destruct E5 as [n ->]. by eexists.
Qed.

(** a failed creation releases nothing of what it acquired, but, when
    the failure comes before the sockets, the bridge struct itself: lists,
    tables, locks, the context, sockets and threads stay. *)
Theorem create_leaks env name c s0 st s1 o1 :
  create_ok env name c → create env name s0 = Some (st, s1, o1) → st ≠ MAMA_STATUS_OK →
  ∃ left, ledger [] o1 left ∧ (left ≡ₚ acquired o1 ∨ rImpl :: left ≡ₚ acquired o1).
Proof using Type.
  intros Hok E Hst. pose proof (create_wp rc endpoint_of rcCtx mask rcThread _ _ _ env name c s0 Hok) as Hc.
  unfold wp in Hc. rewrite E in Hc. by apply Hc.
Qed.

(** C28: a created transport satisfies what its dispatch thread relies on:
    the invariants of routing and, for a naming transport, of discovery. *)
Theorem create_establishes env name c s0 s1 o1 :
  create_ok env name c → create env name s0 = Some (MAMA_STATUS_OK, s1, o1) → is_naming c = true →
  (∀ t, e_inboxes env = Some t → ∀ k, wtable_lookup t k = None) →
  (∀ p, snd (e_pool env) = Some p → pool_entries p = []) → (∀ l, e_list env = Some l → list_elems l = []) →
  is_Some (e_inboxes env) → is_Some (snd (e_pool env)) → is_Some (e_list env) →
  ∃ ep, ∀ K, tinv ep K (tport_of noT noP noL noN s1).
Proof using endpoint_fits.
  intros Hok Ec Hn Ht Hp Hl [t Et] [p Ep] [l El].
  pose proof (create_wp rc endpoint_of rcCtx mask rcThread _ _ _ env name c s0 Hok) as Hc.
  unfold wp in Hc. rewrite Ec in Hc. destruct Hc as [Hc _]. destruct (Hc eq_refl) as [E1 _ [Eu Es] (Ew & _ & Ei & Epo) Ee _ _ _].
  destruct (ce_uuid _ _ _ _ _ _ Hok _ Eu) as [Huc Hul]. rewrite Hn in Ee. destruct Ee as [n En].
  exists (endpoint_of n). intros K. split; [split|].
  - apply inv_initial; cbn.
    + rewrite Es. apply is_cstr_app. split; [by_decide|]. apply is_cstr_app. by split; [by_decide|].
    + rewrite Es, !length_app, Hul. by vm_compute.
    + done.
    + rewrite Ei, Et. cbn. by apply Ht.
    + rewrite Epo, Ep. cbn. by apply Hp.
    + rewrite Ew, El. cbn. by apply Hl.
    + done.
    + done.
  - intros p' i key. cbn. rewrite Ew, El. cbn. rewrite (Hl l El). by intros ?%not_elem_of_nil.
  - split; [exact En|apply endpoint_fits|]. cbn. rewrite Hul. split; [done|vm_compute; lia].
Qed.

(** C23: stopping. The beacon is switched off first and the thread's start is
    awaited; the messages sent are a prefix of the farewell to the peers (of
    a naming transport) and the exit command; the dispatch thread is joined
    after both were sent, as the last step, or not at all, and success means
    that it was. *)
Theorem stop_joins ep s :
  (is_naming (b_cfg s) = true → valid_node (naming_of noN s) ep) →
  ∃ st s' o, stop s = Some (st, s', o)
    ∧ b_beacon s' = 0%Z ∧ head o = Some eWaitReady
    ∧ (∃ k, zcalls o = take k (stop_calls noN hostlen progName hostName pid s ep))
    ∧ (∀ r, eJoin tDispatch r ∈ o → zcalls o = stop_calls noN hostlen progName hostName pid s ep
          ∧ last o = Some (eJoin tDispatch r))
    ∧ (st = MAMA_STATUS_OK → released o = [rThread tDispatch]).
Proof using Type.
  intros Hv. pose proof (stop_wp noT noP noL noN rc rcJoin hostlen progName hostName pid ep s Hv) as Hs.
  apply wp_run in Hs as (st & s' & o & E & [[n ->] _ Hr Hk Hj Hh]). exists st, (set_calls n (set_beacon 0 s)), o.
  split_and!; try done. intros ->. rewrite Hr. by rewrite decide_True.
Qed.

(** When zmq refuses the farewell message, stopping gives up: no exit
    command is sent and the dispatch thread is not joined. A destruction
    ignores this; its next step on the sockets is to take the lock of the
    data socket, which the thread holds until it exits. *)
Theorem stop_interrupted ep s :
  is_naming (b_cfg s) = true → valid_node (naming_of noN s) ep →
  rc (b_calls s) (zmq_send (mSocket (b_sock s NamingPub))
    (ZN.naming_bytes hostlen (own_msg hostlen progName hostName pid (naming_of noN s) ep x44))) ≠ Z.of_nat (ZN.NAMING_SIZE hostlen) →
  ∃ s' o, stop s = Some (MAMA_STATUS_PLATFORM, s', o)
    ∧ length (zcalls o) = 1 ∧ (∀ t r, eJoin t r ∉ o)
    ∧ ∃ st2 s2 o2, destroySocket rc allEvents DataSub s' = Some (st2, s2, eZmq (ELock (mLock (b_sock s DataSub))) :: o2).
Proof using Type.
  intros Hn Hv Hrc. apply bool_decide_eq_true in Hn.
  assert (wp stop (λ st s' o, st = MAMA_STATUS_PLATFORM ∧ length (zcalls o) = 1 ∧ (∀ t r, eJoin t r ∉ o)
    ∧ b_sock s' = b_sock s) s) as Hw.
  { unfold zmqBridgeMamaTransportImpl_stop. apply wp_after, after_modify, after_emit, after_bind, wp_get.
    cbn [app]. change (b_cfg (set_beacon 0 s)) with (b_cfg s). rewrite decide_True by done.
    apply after_CALL, wp_zoom. unfold ZN.zmqBridgeMamaTransportImpl_sendEndpointsMsg, wlock_lock, wlock_unlock, zmq.
    apply wp_bind, wp_get, wp_bind. eapply wp_part; [apply own_msg_eq; by destruct Hv|]. wp_steps.
    rewrite (decide_True (P := _ ≠ Z.of_nat _)) by exact Hrc. rewrite decide_False by done.
    split_and!; [done|done|not_joined|done]. }
  apply wp_run in Hw as (st & s' & o & E & -> & Hl & Hj & Es). exists s', o. split_and!; [exact E|exact Hl|exact Hj|].
  unfold destroySocket, zmqBridgeMamaTransportImpl_destroySocket, wlock_lock.
  assert (wp (destroySocket rc allEvents DataSub) (λ _ _ o, ∃ o', o = eZmq (ELock (mLock (b_sock s DataSub))) :: o') s') as Hd.
  { unfold destroySocket, zmqBridgeMamaTransportImpl_destroySocket, wlock_lock, wlock_unlock, wlock_destroy.
    apply wp_bind, wp_get, wp_bind, wp_emit. rewrite Es.
    destruct (decide (mMonitor (b_sock s DataSub) ≠ 0)%Z); repeat first [apply wp_zmq|wp_step]; by eexists. }
  apply wp_run in Hd as (st2 & s2 & o2 & E2 & o' & ->). by exists st2, s2, o'.
Qed.

End LifecycleSpec.

(** ** A transport with the default configuration *)

Notation demo_T := (gmap (list byte) ZT.ptr).
Notation demo_P := (list (list byte * list byte * ZT.ptr)).
Notation demo_L := (list ZT.ptr).
Notation demo_N := (gmap (list byte) (list byte)).

(** zmq answers with new handles and accepts everything. *)
Definition demo_zmq (n : nat) (c : zcall) : Z :=
  match c with
  | zmq_socket _ => Z.of_nat n + 1
  | zmq_send _ data => Z.of_nat (length data)
  | _ => 0
  end.
Definition demo_endpoint (n : nat) : list byte := lit "tcp://127.0.0.1:40001".
Definition demo_level (l : MamaLogLevel) : Z :=
  match l with MAMA_LOG_LEVEL_OFF => 0 | MAMA_LOG_LEVEL_FINER => 6 | _ => 4 end.
Definition demo_env (conn : Z) : @createEnv demo_T demo_P demo_L demo_N :=
  mkCreateEnv true true None (Some []) (Some ∅) (Some ∅) (MAMA_STATUS_OK, Some []) (Some uuid_a) (λ _, conn).
Definition demo_before : bridge demo_T demo_P demo_L demo_N :=
  mkBridge zero_config 0 (λ _, mkSocket 0 0 0) None 0 0 0 [] [] None None None None 0 0 0 0 0 100.
Notation demo_run conn :=
  (zmqBridgeMamaTransport_create (T:=demo_T) (P:=demo_P) (L:=demo_L) (N:=demo_N) demo_zmq demo_endpoint 1 0
     (λ _, 0%Z) (λ _, None) demo_level 1 (demo_env conn) (lit "oz") demo_before).
Definition demo_config : config := default zero_config (parse_config (λ _, None) demo_level 1 (lit "oz")).

Lemma demo_config_parses : parse_config (λ _, None) demo_level 1 (lit "oz") = Some demo_config.
Proof.
  unfold demo_config.
  assert (match parse_config (λ _, None) demo_level 1 (lit "oz") with Some _ => true | None => false end = true) as E
    by (vm_compute; reflexivity).
  by destruct (parse_config _ _ _ _).
Qed.

Lemma demo_create_ok conn : create_ok (λ _, None) demo_level 1 (demo_env conn) (lit "oz") demo_config.
Proof.
  split.
  - apply demo_config_parses.
  - intros _. assert (match publish_uri demo_config with Some _ => true | None => false end = true) as E
      by (vm_compute; reflexivity).
    destruct (publish_uri demo_config) as [u|]; [by exists u|discriminate E].
  - intros v [=].
  - intros u [= <-]. by split; [by_decide|].
Qed.

Lemma demo_endpoint_fits n : is_cstr (demo_endpoint n) ∧ length (demo_endpoint n) < ZN.ENDPOINT_CAP.
Proof. split; [by_decide|vm_compute; lia]. Qed.

(** What a run that is defined returns. *)
Definition outcome (r : option (mama_status * bridge demo_T demo_P demo_L demo_N * list event)) : option mama_status :=
  match r with Some (st, _, _) => Some st | None => None end.

Lemma outcome_run r st : outcome r = Some st → ∃ s o, r = Some (st, s, o).
Proof. destruct r as [[[st' s] o]|]; [|done]. intros [= ->]. by eexists _, _. Qed.

Lemma run_det {A B C} (r : option (A * B * C)) a b c a' b' c' :
  r = Some (a, b, c) → r = Some (a', b', c') → a = a' ∧ b = b' ∧ c = c'.
Proof. by intros -> [= -> -> ->]. Qed.

Lemma demo_running : ∃ s o, demo_run 1 = Some (MAMA_STATUS_OK, s, o).
Proof. apply outcome_run. vm_compute. reflexivity. Qed.

Lemma lived_refl {T P L N} (s : bridge T P L N) : lived s s.
Proof. done. Qed.

Lemma demo_pause : is_Some (times_2 (Params.mNamingConnectInterval (c_naming demo_config))).
Proof.
  assert (times_2 (Params.mNamingConnectInterval (c_naming demo_config)) = Some 200000%Z) as E
    by (vm_compute; reflexivity).
  rewrite E. by eexists.
Qed.

(** The dispatch thread of this transport, after the proxy has welcomed it
    twice, and the announcing threads that it started. *)
Definition demo_welcomed : list ZL.poll :=
  [ZL.mkPoll 1000 1 false 1000 1000500 []
     [ZN.naming_bytes MAXHOST (NamingProofs.demo_msg x57); ZN.naming_bytes MAXHOST (NamingProofs.demo_msg x57)] [];
   ZL.mkPoll 0 1 false 0 1001300 [ZT.control_msg (λ _, x00) x58 []] [] []].
Notation demo_life s1 :=
  (ZL.zmqBridgeMamaTransportImpl_dispatchThread MAXHOST demo_zmq demo_zmq (λ _ _, false) (lit "prog") (lit "host")
     42 true 0 (b_sock s1 DataSub) (b_sock s1 NamingSub) 1000000 1000 demo_welcomed (tport_of ∅ [] [] ∅ s1)).
Definition started (r : option (bool * ZL.tport demo_T demo_P demo_L demo_N * list ZL.lobs)) : option nat :=
  match r with Some (_, _, ot) => Some (publishers ot) | None => None end.
Definition demo_threads (r : option (mama_status * bridge demo_T demo_P demo_L demo_N * list event)) : option nat :=
  match r with Some (MAMA_STATUS_OK, s1, _) => started (demo_life s1) | _ => None end.

Lemma started_run r k : started r = Some k → ∃ ended tp ot, r = Some (ended, tp, ot) ∧ publishers ot = k.
Proof. destruct r as [[[ended tp] ot]|]; [|done]. intros [= <-]. by eexists _, _, _. Qed.

Lemma demo_threads_run r k :
  demo_threads r = Some k → ∃ s1 o1, r = Some (MAMA_STATUS_OK, s1, o1) ∧ started (demo_life s1) = Some k.
Proof. destruct r as [[[[] s1] o1]|]; try discriminate. intros E. exists s1, o1. exact (conj eq_refl E). Qed.

Lemma demo_threads_two : demo_threads (demo_run 1) = Some 2.
Proof. vm_compute. reflexivity. Qed.

Lemma demo_lived :
  ∃ s1 o1 ended tp ot, demo_run 1 = Some (MAMA_STATUS_OK, s1, o1) ∧ demo_life s1 = Some (ended, tp, ot)
    ∧ publishers ot = 2.
Proof.
  destruct (demo_threads_run _ _ demo_threads_two) as (s1 & o1 & E & Hn).
  destruct (started_run _ _ Hn) as (ended & tp & ot & Et & Hk).
  exists s1, o1, ended, tp, ot. exact (conj E (conj Et Hk)).
Qed.

(** The second announcing thread is joined, the first is not. *)
Lemma life_cycle_balanced_witness :
  ∃ s1 o1 ended tp ot st s3 o2 left, demo_run 1 = Some (MAMA_STATUS_OK, s1, o1) ∧ demo_life s1 = Some (ended, tp, ot)
    ∧ zmqBridgeMamaTransport_destroy ∅ [] [] ∅ demo_zmq 0 (λ _, 0%Z) MAXHOST (lit "prog") (lit "host") 42 true s1
      = Some (st, s3, o2)
    ∧ ledger [] (o1 ++ publish_events ot ++ o2) left ∧ (st = MAMA_STATUS_OK → left = [rThread tPublish]).
Proof.
  destruct demo_lived as (s1 & o1 & ended & tp & ot & E & Et & Hn).
  destruct (life_cycle_balanced (T:=demo_T) (P:=demo_P) (L:=demo_L) (N:=demo_N) ∅ [] [] ∅ demo_zmq demo_endpoint 1 0 0
    (λ _, 0%Z) (λ _, 0%Z) MAXHOST (lit "prog") (lit "host") 42 (λ _, None) demo_level 1 demo_endpoint_fits
    (demo_env 1) (lit "oz") demo_config demo_before s1 o1 demo_zmq demo_zmq (λ _ _, false) true 1000000 1000
    demo_welcomed ended tp ot s1 (demo_create_ok 1) demo_pause E Et (lived_refl s1))
    as (st & s3 & o2 & Ed & _ & Hl). rewrite Hn in Hl. destruct Hl as (left & Hl & Hleft).
  exists s1, o1, ended, tp, ot, st, s3, o2, left. 
  exact (conj E (conj Et (conj Ed (conj Hl (λ Hst, Hleft Hst eq_refl eq_refl))))).
Defined.

Lemma create_starts_witness :
  ∃ s1 o1, demo_run 1 = Some (MAMA_STATUS_OK, s1, o1)
    ∧ zcalls o1 = startup_calls 0 demo_config (b_inboxSubject s1) (b_sock s1) ∧ acquired o1 = owned s1.
Proof.
  destruct demo_running as (s & o & E).
  destruct (create_starts (T:=demo_T) (P:=demo_P) (L:=demo_L) (N:=demo_N) demo_zmq demo_endpoint 1 0
    (λ _, 0%Z) (λ _, None) demo_level 1 (demo_env 1) (lit "oz") demo_config demo_before (demo_create_ok 1))
    as (st & s1 & o1 & E1 & Hok).
  destruct (run_det _ _ _ _ _ _ _ E1 E) as (-> & -> & ->). exists s, o. destruct (Hok eq_refl) as (Hc & Ho & _).
  exact (conj E (conj Hc Ho)).
Defined.

(** The proxy is never reached: the creation times out, and keeps all. *)
Lemma create_leaks_witness :
  ∃ s1 o1 left, demo_run 0 = Some (MAMA_STATUS_TIMEOUT, s1, o1)
    ∧ ledger [] o1 left ∧ (left ≡ₚ acquired o1 ∨ rImpl :: left ≡ₚ acquired o1).
Proof.
  destruct (outcome_run (demo_run 0) MAMA_STATUS_TIMEOUT ltac:(vm_compute; reflexivity)) as (s1 & o1 & E).
  destruct (create_leaks (T:=demo_T) (P:=demo_P) (L:=demo_L) (N:=demo_N) demo_zmq demo_endpoint 1 0
    (λ _, 0%Z) (λ _, None) demo_level 1 (demo_env 0) (lit "oz") demo_config demo_before MAMA_STATUS_TIMEOUT s1 o1
    (demo_create_ok 0) E ltac:(done)) as (left & Hl & Hp).
  exists s1, o1, left. exact (conj E (conj Hl Hp)).
Defined.

Lemma create_establishes_witness :
  ∃ s1 o1 ep, demo_run 1 = Some (MAMA_STATUS_OK, s1, o1) ∧ tinv ep 6 (tport_of ∅ [] [] ∅ s1).
Proof.
  destruct demo_running as (s1 & o1 & E).
  destruct (create_establishes (T:=demo_T) (P:=demo_P) (L:=demo_L) (N:=demo_N) ∅ [] [] ∅ demo_zmq demo_endpoint 1 0
    (λ _, 0%Z) (λ _, None) demo_level 1 demo_endpoint_fits (demo_env 1) (lit "oz") demo_config demo_before s1 o1
    (demo_create_ok 1) E) as (ep & Hi).
  - vm_compute. reflexivity.
  - intros t [= <-] k. apply lookup_empty.
  - intros p [= <-]. done.
  - intros l [= <-]. done.
  - by eexists.
  - by eexists.
  - by eexists.
  - exists s1, o1, ep. exact (conj E (Hi 6)).
Defined.

(** The bridge of [demo_node]. *)
Definition demo_bridge_a : bridge demo_T demo_P demo_L demo_N :=
  mkBridge (mkConfig (lit "oz") (Params.mkCommon 10000 10000 1 1 None 1 0 0 0 0) (c_naming zero_config)
              (c_incoming zero_config) (c_outgoing zero_config)) 1 (λ _, mkSocket 7 8 0) (Some ep_a) 0 0 1 uuid_a
    (lit "") (Some []) (Some ∅) (Some ∅) (Some []) 1 2 3 1 0 100.

Lemma demo_bridge_valid : valid_node (naming_of (∅ : demo_N) demo_bridge_a) ep_a.
Proof. split; [done|split; [by_decide|vm_compute; lia]|split; [by_decide|vm_compute; lia]]. Qed.

Lemma stop_joins_witness :
  ∃ st s' o, zmqBridgeMamaTransportImpl_stop ∅ [] [] ∅ demo_zmq (λ _, 0%Z) MAXHOST (lit "prog") (lit "host") 42
      demo_bridge_a = Some (st, s', o)
    ∧ b_beacon s' = 0%Z ∧ head o = Some eWaitReady ∧ (st = MAMA_STATUS_OK → released o = [rThread tDispatch]).
Proof.
  destruct (stop_joins (T:=demo_T) (P:=demo_P) (L:=demo_L) (N:=demo_N) ∅ [] [] ∅ demo_zmq (λ _, 0%Z) MAXHOST
    (lit "prog") (lit "host") 42 ep_a demo_bridge_a (λ _, demo_bridge_valid))
    as (st & s' & o & E & Hb & Hh & _ & _ & Hr).
  exists st, s', o. exact (conj E (conj Hb (conj Hh Hr))).
Defined.

(** zmq refuses to send. *)
Lemma stop_interrupted_witness :
  ∃ s' o, zmqBridgeMamaTransportImpl_stop ∅ [] [] ∅ (λ _ _, (-1)%Z) (λ _, 0%Z) MAXHOST (lit "prog") (lit "host") 42
      demo_bridge_a = Some (MAMA_STATUS_PLATFORM, s', o) ∧ length (zcalls o) = 1 ∧ (∀ t r, eJoin t r ∉ o).
Proof.
  destruct (stop_interrupted (T:=demo_T) (P:=demo_P) (L:=demo_L) (N:=demo_N) ∅ [] [] ∅ (λ _ _, (-1)%Z) 0 (λ _, 0%Z)
    MAXHOST (lit "prog") (lit "host") 42 ep_a demo_bridge_a eq_refl demo_bridge_valid ltac:(lia))
    as (s' & o & E & Hl & Hj & _).
  exists s', o. exact (conj E (conj Hl Hj)).
Defined.
