(* ===== verification/Threads.v ===== *)
(** * Threads: programs of atomic actions, interleaved

    A C function that other threads can interrupt is a program: a tree of
    atomic actions on the shared state, each with an answer the rest depends
    on.  [rg] is a weakest precondition with interference: before every
    action the other threads may change the state within [rely], and every
    action of the thread itself stays within what they rely on. *)

From S2P Require Import Prelude.

Section Programs.

Context {Act : Type → Type}.

Inductive prog (A : Type) : Type :=
  | Ret (a : A)
  | Do {R : Type} (act : Act R) (k : R → prog A).

#[global] Arguments Ret {A} a.
#[global] Arguments Do {A R} act k.

(** One action. *)
Definition call {R} (act : Act R) : prog R := Do act Ret.

Fixpoint pbind {A B} (f : A → prog B) (p : prog A) : prog B :=
  match p with
  | Ret a => f a
  | Do act k => Do act (λ r, pbind f (k r))
  end.

#[global] Instance prog_ret : MRet prog := λ A a, Ret a.
#[global] Instance prog_bind : MBind prog := λ A B f p, pbind f p.

(** The outcome of an action: undefined behaviour, waiting for a lock, or an
    answer and a new state. *)
Inductive outcome (R : Type) : Type :=
  | Fault
  | Blocked
  | Next (r : R).

#[global] Arguments Fault {R}.
#[global] Arguments Blocked {R}.
#[global] Arguments Next {R} r.

Context {S : Type} (exec : ∀ R, Act R → S → outcome (R * S)).

(** ** Interference

    [rely]: what the other threads may do between two actions; [guar]: what
    this thread does; [G]: an invariant all threads keep; [waits]: the states
    in which this thread may be blocked. *)

Context (rely guar : S → S → Prop) (G waits : S → Prop).

Fixpoint rg {A} (p : prog A) (Q : A → S → Prop) (s : S) : Prop :=
  ∀ s', rely s s' → G s' →
  match p with
  | Ret a => Q a s'
  | Do act k =>
      match exec _ act s' with
      | Fault => False
      | Blocked => waits s'
      | Next (r, s'') => guar s' s'' ∧ G s'' ∧ rg (k r) Q s''
      end
  end.

Context `{!PreOrder rely}.

(** The other threads preserve it. *)
Lemma rg_stable {A} (p : prog A) Q s s' : rg p Q s → rely s s' → rg p Q s'.
Proof.
  intros Hp Hr. destruct p as [a|R act k]; cbn in *; intros s2 H2 HG; apply Hp; try done;
    by etransitivity.
Qed.

Lemma rg_now {A} (p : prog A) Q s : G s → rg p Q s →
  match p with
  | Ret a => Q a s
  | Do act k =>
      match exec _ act s with
      | Fault => False
      | Blocked => waits s
      | Next (r, s') => guar s s' ∧ G s' ∧ rg (k r) Q s'
      end
  end.
Proof. intros HG Hp. destruct p as [a|R act k]; cbn in Hp; by apply Hp. Qed.

Lemma rg_mono {A} (p : prog A) (Q Q' : A → S → Prop) s :
  (∀ a s', G s' → Q a s' → Q' a s') → rg p Q s → rg p Q' s.
Proof.
  intros HQ. revert s. induction p as [a|R act k IH]; intros s Hp; cbn in *; intros s' Hr HG;
    specialize (Hp s' Hr HG).
  - by apply HQ.
  - destruct (exec _ act s') as [| |[r s'']]; [done|done|].
    destruct Hp as (Hg & HG' & Hk). split_and!; [done|done|]. by apply IH.
Qed.

Lemma rg_bind {A B} (p : prog A) (f : A → prog B) Q s :
  rg p (λ a s', rg (f a) Q s') s → rg (p ≫= f) Q s.
Proof.
  revert s. induction p as [a|R act k IH]; intros s Hp.
  - change (rg (f a) Q s). cbn in Hp.
    assert (∀ s', rely s s' → G s' → rg (f a) Q s') as Hf by exact Hp.
    destruct (f a) as [b|R act k]; cbn in *; intros s' Hr HG; apply (Hf s' Hr HG); by try reflexivity.
  - cbn in *. intros s' Hr HG. specialize (Hp s' Hr HG).
    destruct (exec _ act s') as [| |[r s'']]; [done|done|].
    destruct Hp as (Hg & HG' & Hk). split_and!; [done|done|]. by apply IH.
Qed.

(** One action, in a state known up to interference. *)
Lemma rg_call {R} (act : Act R) (Q : R → S → Prop) s :
  (∀ s', rely s s' → G s' →
     match exec _ act s' with
     | Fault => False
     | Blocked => waits s'
     | Next (r, s'') => guar s' s'' ∧ G s'' ∧ (∀ s3, rely s'' s3 → G s3 → Q r s3)
     end) → rg (call act) Q s.
Proof.
  intros H s' Hr HG. specialize (H s' Hr HG). by destruct (exec _ act s') as [| |[r s'']].
Qed.

Lemma rg_ret {A} (a : A) (Q : A → S → Prop) s :
  (∀ s', rely s s' → G s' → Q a s') → rg (mret a) Q s.
Proof. done. Qed.

End Programs.

Arguments prog : clear implicits.
#[global] Arguments rg : simpl never.

(** Bring the next action of a program to its head. *)
Ltac rg_head :=
  lazymatch goal with
  | |- rg _ _ _ _ _ ?p _ _ => let p' := eval hnf in p in change p with p'
  end.
