(* ===== verification/Timer.v ===== *)
(** * Timers (src/src/timer.c)

    A timer is shared by two threads: the dispatch thread of OpenMAMA's
    timer heap, which calls [timerCallback] when its element is due, and the
    thread of the timer's queue, which runs the queued callbacks and the
    application's calls.  Every access to the timer's memory, the heap and
    the queue is one atomic action; the functions are programs of actions
    ([Threads]), and [next] interleaves the two threads.  *)

From S2P Require Import Prelude CLib CMonad CDouble UQueue Queue Threads.

Module Timer.

(** ** Data *)

Inductive tid := tHeap | tQueue.

#[export] Instance tid_eq_dec : EqDecision tid.
Proof. solve_decision. Defined.

(** What a timer enqueues. *)
Inductive tevent := evQueueCallback | evDestroyCallback.

(** What the application observes, the release of the memory, and the moment
    from which a timer counts as destroyed. *)
Inductive tlog := lDestroying | lAction | lOnTimerDestroyed | lFree.

(** [struct timeval]. *)
Notation timeval := (Z * Z)%type (only parsing).

(** The fields of [zmqTimerImpl] that change, the heap and the queue:
    [alive] while the memory is allocated, [elems] the allocated timer
    elements with their timeouts, [armed] those the heap will fire, [lock]
    the owner of the heap's recursive lock and the number of times it locked
    it. *)
Record timer := mkTimer {
  alive : bool;
  mTimerElement : option nat;
  mInterval : double;
  mDestroying : Z;
  mAction : bool;
  elems : gmap nat timeval;
  armed : gset nat;
  creates : nat;
  destroys : nat;
  lock : option (tid * nat);
  events : list tevent;
  enqueues : nat;
  log : list tlog }.

Definition set_element e s := mkTimer (alive s) e (mInterval s) (mDestroying s) (mAction s) (elems s) (armed s) (creates s) (destroys s) (lock s) (events s) (enqueues s) (log s).
Definition set_interval i s := mkTimer (alive s) (mTimerElement s) i (mDestroying s) (mAction s) (elems s) (armed s) (creates s) (destroys s) (lock s) (events s) (enqueues s) (log s).
Definition set_destroying d s := mkTimer (alive s) (mTimerElement s) (mInterval s) d (mAction s) (elems s) (armed s) (creates s) (destroys s) (lock s) (events s) (enqueues s) (log s).
Definition set_action a s := mkTimer (alive s) (mTimerElement s) (mInterval s) (mDestroying s) a (elems s) (armed s) (creates s) (destroys s) (lock s) (events s) (enqueues s) (log s).
Definition set_heap e a s := mkTimer (alive s) (mTimerElement s) (mInterval s) (mDestroying s) (mAction s) e a (creates s) (destroys s) (lock s) (events s) (enqueues s) (log s).
Definition set_counts c d s := mkTimer (alive s) (mTimerElement s) (mInterval s) (mDestroying s) (mAction s) (elems s) (armed s) c d (lock s) (events s) (enqueues s) (log s).
Definition set_lock l s := mkTimer (alive s) (mTimerElement s) (mInterval s) (mDestroying s) (mAction s) (elems s) (armed s) (creates s) (destroys s) l (events s) (enqueues s) (log s).
Definition set_events ev n s := mkTimer (alive s) (mTimerElement s) (mInterval s) (mDestroying s) (mAction s) (elems s) (armed s) (creates s) (destroys s) (lock s) ev n (log s).
Definition set_alive b s := mkTimer b (mTimerElement s) (mInterval s) (mDestroying s) (mAction s) (elems s) (armed s) (creates s) (destroys s) (lock s) (events s) (enqueues s) (log s).
Definition add_log l s := mkTimer (alive s) (mTimerElement s) (mInterval s) (mDestroying s) (mAction s) (elems s) (armed s) (creates s) (destroys s) (lock s) (events s) (enqueues s) (log s ++ [l]).

(** ** Actions *)

Inductive act : Type → Type :=
  | aAlloc (action : bool) (interval : double) : act ()
  | aReadConst : act ()
  | aReadDestroying : act Z
  | aSetDestroying (v : Z) : act ()
  | aReadAction : act bool
  | aClearAction : act ()
  | aReadInterval : act double
  | aSetInterval (i : double) : act ()
  | aReadElement : act (option nat)
  | aClearElement : act ()
  | aLock : act ()
  | aUnlock : act ()
  | aDestroyTimer (e : option nat) : act Z
  | aCreateTimer (timeout : timeval) : act Z
  | aEnqueue (e : tevent) : act ()
  | aCallAction : act ()
  | aCallDestroyed : act ()
  | aFree : act ()
  | aUndefined {R} : act R.

Notation P := (prog act).

(** The timeout of an interval, when the conversions are defined. *)
Definition timeout_of (interval : double) : option timeval :=
  tv_sec ← to_int64 interval;
  tv_usec ← to_int64 (dmul (dsub interval (dint tv_sec)) (dint 1000000));
  Some (tv_sec, tv_usec).

Definition part {A} (x : option A) : P A :=
  match x with Some a => mret a | None => call aUndefined end.

(** ** The functions *)

(** It reads the parent of the timer, which never changes. *)
Definition zmqBridgeMamaTimerImpl_getBridgeClosure : P () := call aReadConst.

Definition zmqBridgeMamaTimerImpl_reset (interval : double) : P mama_status :=
  d ← call aReadDestroying;
  if decide (d = 1)%Z then mret MAMA_STATUS_OK
  else
    zmqBridgeMamaTimerImpl_getBridgeClosure ;;
    call aLock ;;
    call (aSetInterval interval) ;;
    e ← call aReadElement;
    match e with
    | Some e => _ ← call (aDestroyTimer (Some e)); mret ()
    | None => mret ()
    end ;;
    i ← call aReadInterval;
    timeout ← part (timeout_of i);
    timerResult ← call (aCreateTimer timeout);
    call aUnlock ;;
    mret (if decide (timerResult ≠ 0)%Z then MAMA_STATUS_PLATFORM else MAMA_STATUS_OK).

(** [true] stands for a timer that is not NULL. *)
Definition zmqBridgeMamaTimer_reset (timer : bool) : P mama_status :=
  if negb timer then mret MAMA_STATUS_NULL_ARG
  else i ← call aReadInterval; zmqBridgeMamaTimerImpl_reset i.

Definition zmqBridgeMamaTimer_setInterval (timer : bool) (interval : double) : P mama_status :=
  if dlt interval (dint 0) then mret MAMA_STATUS_INVALID_ARG
  else if negb timer then mret MAMA_STATUS_NULL_ARG
  else zmqBridgeMamaTimerImpl_reset interval.

Definition zmqBridgeMamaTimer_getInterval (timer interval : bool) : P (mama_status * option double) :=
  if negb timer || negb interval then mret (MAMA_STATUS_NULL_ARG, None)
  else i ← call aReadInterval; mret (MAMA_STATUS_OK, Some i).

(** [args]: result, queue, action and parent are not NULL; [mem]: the
    allocation succeeds.  The second result tells whether a timer is
    returned. *)
Definition zmqBridgeMamaTimer_create (args mem : bool) (interval : double) : P (mama_status * bool) :=
  if negb args then mret (MAMA_STATUS_NULL_ARG, false)
  else if negb mem then mret (MAMA_STATUS_NOMEM, false)
  else
    call (aAlloc true interval) ;;
    call (aSetDestroying 0) ;;
    timeout ← part (timeout_of interval);
    zmqBridgeMamaTimerImpl_getBridgeClosure ;;
    timerResult ← call (aCreateTimer timeout);
    mret (if decide (timerResult ≠ 0)%Z then MAMA_STATUS_PLATFORM else MAMA_STATUS_OK, true).

Definition zmqBridgeMamaTimer_destroy (timer : bool) : P mama_status :=
  if negb timer then mret MAMA_STATUS_NULL_ARG
  else
    call (aSetDestroying 1) ;;
    call aClearAction ;;
    zmqBridgeMamaTimerImpl_getBridgeClosure ;;
    call aLock ;;
    e ← call aReadElement;
    timerResult ← call (aDestroyTimer e);
    call aClearElement ;;
    call aUnlock ;;
    call (aEnqueue evDestroyCallback) ;;
    mret (if decide (timerResult ≠ 0)%Z then MAMA_STATUS_PLATFORM else MAMA_STATUS_OK).

Definition zmqBridgeMamaTimerImpl_destroyCallback (closure : bool) : P () :=
  if negb closure then mret ()
  else call aCallDestroyed ;; call aFree.

Definition zmqBridgeMamaTimerImpl_queueCallback (closure : bool) : P () :=
  if negb closure then mret ()
  else a ← call aReadAction; if a : bool then call aCallAction else mret ().

Definition zmqBridgeMamaTimerImpl_timerCallback (closure : bool) : P () :=
  if negb closure then mret ()
  else
    d ← call aReadDestroying;
    if decide (d = 0)%Z then
      _ ← zmqBridgeMamaTimer_reset closure;
      call (aEnqueue evQueueCallback)
    else mret ().

(** ** What the actions do

    Library code: [create_rc] and [destroy_rc] are the answers of the heap
    to the n-th call, [accepts] those of the queue, [has_destroyed] whether
    the application gave a destroy callback.  Failed calls change nothing;
    elements are numbered by the calls that created them. *)

Section Exec.

Context (create_rc destroy_rc : nat → Z) (null_rc : Z) (accepts : nat → bool) (has_destroyed : bool).

(** An access to the memory of the timer. *)
Definition access {R} (s : timer) (x : outcome (R * timer)) : outcome (R * timer) :=
  if alive s then x else Fault.

Definition lock_heap (t : tid) (s : timer) : outcome (() * timer) :=
  match lock s with
  | None => Next ((), set_lock (Some (t, 1)) s)
  | Some (o, n) => if decide (o = t) then Next ((), set_lock (Some (o, S n)) s) else Blocked
  end.

Definition unlock_heap (t : tid) (s : timer) : outcome (() * timer) :=
  match lock s with
  | Some (o, S (S n)) => if decide (o = t) then Next ((), set_lock (Some (o, S n)) s) else Fault
  | Some (o, _) => if decide (o = t) then Next ((), set_lock None s) else Fault
  | None => Fault
  end.

(** Destroying an element that is not allocated is undefined. *)
Definition destroyTimer (e : option nat) (s : timer) : outcome (Z * timer) :=
  match e with
  | None => Next (null_rc, s)
  | Some e =>
      match elems s !! e with
      | None => Fault
      | Some _ =>
          let rc := destroy_rc (destroys s) in
          let s1 := set_counts (creates s) (S (destroys s)) s in
          Next (rc, if decide (rc = 0)%Z then set_heap (delete e (elems s)) (armed s ∖ {[e]}) s1 else s1)
      end
  end.

(** The new element is stored in [mTimerElement]. *)
Definition createTimer (timeout : timeval) (s : timer) : outcome (Z * timer) :=
  let rc := create_rc (creates s) in
  let s1 := set_counts (S (creates s)) (destroys s) s in
  Next (rc, if decide (rc = 0)%Z
            then set_element (Some (creates s))
                   (set_heap (<[creates s := timeout]> (elems s)) ({[creates s]} ∪ armed s) s1)
            else s1).

Definition exec (t : tid) (R : Type) (a : act R) (s : timer) : outcome (R * timer) :=
  match a with
  | aAlloc action interval =>
      Next ((), mkTimer true None interval 0 action (elems s) (armed s) (creates s) (destroys s)
                  (lock s) (events s) (enqueues s) (log s))
  | aReadConst => access s (Next ((), s))
  | aReadDestroying => access s (Next (mDestroying s, s))
  | aSetDestroying v =>
      access s (Next ((), let s1 := set_destroying v s in if decide (v = 1)%Z then add_log lDestroying s1 else s1))
  | aReadAction => access s (Next (mAction s, s))
  | aClearAction => access s (Next ((), set_action false s))
  | aReadInterval => access s (Next (mInterval s, s))
  | aSetInterval i => access s (Next ((), set_interval i s))
  | aReadElement => access s (Next (mTimerElement s, s))
  | aClearElement => access s (Next ((), set_element None s))
  | aLock => lock_heap t s
  | aUnlock => unlock_heap t s
  | aDestroyTimer e => destroyTimer e s
  | aCreateTimer timeout => access s (createTimer timeout s)
  | aEnqueue e =>
      access s (Next ((), set_events (if accepts (enqueues s) then events s ++ [e] else events s)
                            (S (enqueues s)) s))
  | aCallAction => access s (if mAction s then Next ((), add_log lAction s) else Fault)
  | aCallDestroyed => access s (if has_destroyed then Next ((), add_log lOnTimerDestroyed s) else Fault)
  | aFree => access s (Next ((), set_alive false (add_log lFree s)))
  | aUndefined => Fault
  end.

(** ** The two threads

    [cb_locked]: the heap calls its callbacks with its lock held.  The queue
    thread runs the queued callbacks in order and, between and inside them,
    the calls of the application; these end when it destroys the timer. *)

Context (cb_locked : bool).

Inductive phase := Fresh | Active | Destroyed | Failed.

#[export] Instance phase_eq_dec : EqDecision phase.
Proof. solve_decision. Defined.

Inductive op := opReset | opSetInterval (i : double) | opGetInterval | opDestroy.

Record config := mkConfig {
  shared : timer;
  heap_thread : option (P ());
  queue_thread : option (P phase);
  q_phase : phase }.

(** The choices of the schedule: an element is due, a thread makes a step,
    the queue dispatches, the application calls. *)
Inductive choice := cFire (e : nat) | cHeap | cQueue | cDispatch | cCreate (i : double) | cCall (o : op).

(** The dispatch thread of the heap, for one element. *)
Definition fire (e : nat) (s : timer) : outcome (P () * timer) :=
  if decide (e ∈ armed s) then
    let s1 := set_heap (elems s) (armed s ∖ {[e]}) s in
    if cb_locked then
      match lock s with
      | None => Next (zmqBridgeMamaTimerImpl_timerCallback true ;; call aUnlock, set_lock (Some (tHeap, 1)) s1)
      | Some _ => Blocked
      end
    else Next (zmqBridgeMamaTimerImpl_timerCallback true, s1)
  else Blocked.

Definition callback (e : tevent) : P () :=
  match e with
  | evQueueCallback => zmqBridgeMamaTimerImpl_queueCallback true
  | evDestroyCallback => zmqBridgeMamaTimerImpl_destroyCallback true
  end.

Definition call_op (o : op) : P phase :=
  match o with
  | opReset => _ ← zmqBridgeMamaTimer_reset true; mret Active
  | opSetInterval i => _ ← zmqBridgeMamaTimer_setInterval true i; mret Active
  | opGetInterval => _ ← zmqBridgeMamaTimer_getInterval true true; mret Active
  | opDestroy => _ ← zmqBridgeMamaTimer_destroy true; mret Destroyed
  end.

Definition call_create (i : double) : P phase :=
  r ← zmqBridgeMamaTimer_create true true i;
  mret (if decide (fst r = MAMA_STATUS_OK) then Active else Failed).

(** One step of a thread that runs a program. *)
Definition step_prog {A} (t : tid) (p : P A) (s : timer) : outcome (P A * timer) :=
  match p with
  | Ret a => Next (Ret a, s)
  | Do a k =>
      match exec t _ a s with
      | Fault => Fault
      | Blocked => Blocked
      | Next (r, s') => Next (k r, s')
      end
  end.

Definition next (ch : choice) (c : config) : outcome config :=
  let s := shared c in
  match ch with
  | cFire e =>
      match heap_thread c with
      | Some _ => Blocked
      | None =>
          match fire e s with
          | Next (p, s') => Next (mkConfig s' (Some p) (queue_thread c) (q_phase c))
          | Fault => Fault
          | Blocked => Blocked
          end
      end
  | cHeap =>
      match heap_thread c with
      | None => Blocked
      | Some (Ret _) => Next (mkConfig s None (queue_thread c) (q_phase c))
      | Some p =>
          match step_prog tHeap p s with
          | Next (p', s') => Next (mkConfig s' (Some p') (queue_thread c) (q_phase c))
          | Fault => Fault
          | Blocked => Blocked
          end
      end
  | cQueue =>
      match queue_thread c with
      | None => Blocked
      | Some (Ret ph) => Next (mkConfig s (heap_thread c) None ph)
      | Some p =>
          match step_prog tQueue p s with
          | Next (p', s') => Next (mkConfig s' (heap_thread c) (Some p') (q_phase c))
          | Fault => Fault
          | Blocked => Blocked
          end
      end
  | cDispatch =>
      match queue_thread c, events s with
      | None, e :: rest =>
          Next (mkConfig (set_events rest (enqueues s) s) (heap_thread c)
                  (Some (callback e ;; mret (q_phase c))) (q_phase c))
      | _, _ => Blocked
      end
  | cCreate i =>
      match queue_thread c with
      | None => if decide (q_phase c = Fresh)
                then Next (mkConfig s (heap_thread c) (Some (call_create i)) (q_phase c)) else Blocked
      | Some _ => Blocked
      end
  | cCall o =>
      match queue_thread c with
      | None => if decide (q_phase c = Active)
                then Next (mkConfig s (heap_thread c) (Some (call_op o)) (q_phase c)) else Blocked
      | Some _ => Blocked
      end
  end.

Definition initial : config :=
  mkConfig (mkTimer false None (dint 0) 0 false ∅ ∅ 0 0 None [] 0 []) None None Fresh.

(** A schedule is followed as far as its choices are possible. *)
Fixpoint run (l : list choice) (c : config) : outcome config :=
  match l with
  | [] => Next c
  | ch :: l' => match next ch c with Next c' => run l' c' | Fault => Fault | Blocked => Blocked end
  end.

End Exec.

End Timer.
