(* ===== verification/TimerProofs.v ===== *)
(** * Timers: safety in every interleaving

    Rely and guarantee: while the heap's thread owns the lock the queue's
    thread touches neither the heap nor the timer's memory; while nothing is
    armed and the lock is free or the queue's, the heap's thread does
    nothing.  The lock invariant [heap_ok] describes the heap whenever the
    lock is free. *)

From S2P Require Import Prelude CLib CMonad CDouble UQueue Queue Threads Timer.
Import Timer.

Section Safety.

Context (create_rc destroy_rc : nat → Z) (null_rc : Z) (accepts : nat → bool).
Context (create_ok : ∀ n, create_rc n = 0%Z) (destroy_ok : ∀ n, destroy_rc n = 0%Z).

Notation exec := (exec create_rc destroy_rc null_rc accepts true).
Notation next := (next create_rc destroy_rc null_rc accepts true true).

(** ** Invariants and interference *)

(** The element of the timer is the only one, its timeout is that of the
    interval; without an element nothing is allocated. *)
Definition heap_ok (s : timer) : Prop :=
  match mTimerElement s with
  | Some e => alive s = true ∧ (∃ tv, timeout_of (mInterval s) = Some tv ∧ elems s = {[e := tv]}) ∧ armed s ⊆ {[e]}
  | None => elems s = ∅ ∧ armed s = ∅ ∧ (creates s = 0 ∨ mDestroying s = 1%Z)
  end.

(** The application sees actions, then the destruction, once. *)
Definition ending : list tlog := [lDestroying; lOnTimerDestroyed; lFree].
Definition log_ok (s : timer) : Prop := ∃ n k, log s = replicate n lAction ++ take k ending.

Definition G (s : timer) : Prop := (lock s = None → heap_ok s) ∧ log_ok s.

Definition owned_by (t : tid) (s : timer) : Prop := ∃ n, lock s = Some (t, n).

(** What the heap's thread may rely on. *)
Definition rely_heap (s s' : timer) : Prop :=
  (¬ owned_by tHeap s → ¬ owned_by tHeap s') ∧
  (owned_by tHeap s → lock s' = lock s ∧ alive s' = alive s ∧ mTimerElement s' = mTimerElement s
    ∧ mInterval s' = mInterval s ∧ elems s' = elems s ∧ armed s' = armed s
    ∧ creates s' = creates s ∧ destroys s' = destroys s).

(** Nothing will fire. *)
Definition frozen (s : timer) : Prop := owned_by tQueue s ∨ (armed s = ∅ ∧ lock s = None).

(** What the queue's thread may rely on. *)
Definition rely_queue (s s' : timer) : Prop :=
  s' = s ∨
  (¬ frozen s ∧ ¬ owned_by tQueue s' ∧ alive s' = alive s ∧ mInterval s' = mInterval s
   ∧ mDestroying s' = mDestroying s ∧ mAction s' = mAction s ∧ log s' = log s
   ∧ creates s ≤ creates s' ∧ ∃ k, events s' = events s ++ replicate k evQueueCallback).

#[export] Instance rely_heap_preorder : PreOrder rely_heap.
Proof.
  split.
  - intros s. split; [done|]. by repeat split.
  - intros s1 s2 s3 [A1 B1] [A2 B2]. split; [by auto|]. intros Ho.
    destruct (B1 Ho) as (El & ? & ? & ? & ? & ? & ? & ?).
    destruct B2 as (El2 & ? & ? & ? & ? & ? & ? & ?); [destruct Ho as [n Hn]; exists n; congruence|].
    split_and!; congruence.
Qed.

#[export] Instance rely_queue_preorder : PreOrder rely_queue.
Proof.
  split.
  - intros s. by left.
  - intros s1 s2 s3 [->|(F1 & O1 & A1 & I1 & D1 & C1 & L1 & N1 & k1 & E1)] [->|(F2 & O2 & A2 & I2 & D2 & C2 & L2 & N2 & k2 & E2)];
      [by left|right..]; split_and!; try congruence; try lia; eauto.
    exists (k1 + k2). by rewrite E2, E1, <-app_assoc, <-replicate_add.
Qed.

Notation rg_heap := (rg (exec tHeap) rely_heap rely_queue G (λ _, False)).
Notation rg_queue := (rg (exec tQueue) rely_queue rely_heap G (owned_by tHeap)).

(** ** The heap's thread *)

(** It owns the lock, and this is what it sees. *)
Definition holds (n : nat) (e : option nat) (i : double) (els : gmap nat (Z * Z)) (arm : gset nat) (s : timer) : Prop :=
  lock s = Some (tHeap, n) ∧ alive s = true ∧ mTimerElement s = e ∧ mInterval s = i ∧ elems s = els ∧ armed s = arm.

Lemma holds_stable n e i els arm s s' : holds n e i els arm s → rely_heap s s' → holds n e i els arm s'.
Proof.
  intros (Hl & Ha & He & Hi & Hs & Hr) [_ B].
  destruct B as (? & ? & ? & ? & ? & ? & _); [by exists n|]. split_and!; congruence.
Qed.

(** A step of the owner. *)
Lemma guar_owner n m e i els arm s e' els' arm' s' k :
  G s → holds n e i els arm s → holds m e' i els' arm' s' →
  mDestroying s' = mDestroying s → mAction s' = mAction s → log s' = log s → creates s ≤ creates s' →
  events s' = events s ++ replicate k evQueueCallback → rely_queue s s' ∧ G s'.
Proof.
  intros [_ HL] (Hl & Ha & _ & Hi & _) (Hl' & Ha' & _ & Hi' & _) Hd Hc Hlg Hn Hev. split.
  - right. split_and!; try congruence; try lia; eauto.
    + intros [[? ?]|[_ ?]]; congruence.
    + intros [? ?]. congruence.
  - split; [intros ?; congruence|]. unfold log_ok. by rewrite Hlg.
Qed.

(** What a step of the heap's thread leaves to the queue's. *)
Definition quiet (s s' : timer) : Prop :=
  mDestroying s' = mDestroying s ∧ mAction s' = mAction s ∧ log s' = log s ∧ creates s ≤ creates s'
  ∧ ∃ k, events s' = events s ++ replicate k evQueueCallback.

Ltac rg_cbn := cbn [pbind mbind prog_bind mret prog_ret call part].

Ltac st_cbn :=
  cbn [set_element set_interval set_destroying set_action set_heap set_counts set_lock set_events set_alive add_log
       alive mTimerElement mInterval mDestroying mAction elems armed creates destroys lock events enqueues log].

(** One action of the owner. *)
Lemma heap_do {R A} (a : act R) (k : R → prog act A) Q n e i els arm s :
  holds n e i els arm s →
  (∀ s1, holds n e i els arm s1 →
     ∃ r s2 m e' els' arm', exec tHeap _ a s1 = Next (r, s2) ∧ quiet s1 s2
       ∧ holds m e' i els' arm' s2 ∧ (∀ s3, holds m e' i els' arm' s3 → rg_heap (k r) Q s3)) →
  rg_heap (Do a k) Q s.
Proof.
  intros Hh Hk s1 Hr HG. pose proof (holds_stable _ _ _ _ _ _ _ Hh Hr) as H1.
  destruct (Hk s1 H1) as (r & s2 & m & e' & els' & arm' & -> & (? & ? & ? & ? & j & ?) & H2 & Hk').
  destruct (guar_owner _ _ _ _ _ _ _ _ _ _ _ j HG H1 H2) as [? ?]; auto.
Qed.

Lemma destroyTimer_ok e tv s : elems s !! e = Some tv →
  destroyTimer destroy_rc null_rc (Some e) s
  = Next (0%Z, set_heap (delete e (elems s)) (armed s ∖ {[e]}) (set_counts (creates s) (S (destroys s)) s)).
Proof using destroy_ok. unfold destroyTimer. intros ->. rewrite destroy_ok. by destruct (decide _). Qed.

Lemma createTimer_ok tv s :
  createTimer create_rc tv s
  = Next (0%Z, set_element (Some (creates s)) (set_heap (<[creates s := tv]> (elems s)) ({[creates s]} ∪ armed s)
      (set_counts (S (creates s)) (destroys s) s))).
Proof using create_ok. unfold createTimer. rewrite create_ok. by destruct (decide _). Qed.

(** A step whose effect is computed. *)
Ltac quiet_tac :=
  split_and!; [reflexivity|reflexivity|reflexivity|cbn; try lia|];
  first [exists 0; cbn; by rewrite app_nil_r 
        | cbn; case_match; [by exists 1|exists 0; by rewrite app_nil_r]].
Ltac lib_tac :=
  cbn [Timer.exec access alive]; first [eapply destroyTimer_ok; cbn; apply lookup_singleton_eq | apply createTimer_ok | cbn; reflexivity].
Ltac heap_step :=
  rg_head; eapply heap_do; [eassumption|];
  lazymatch goal with H : holds _ _ _ _ _ _ |- _ => clear H end;
  let s1 := fresh "s" in let H := fresh "H" in
  intros s1 H; destruct s1; destruct H as (? & ? & ? & ? & ? & ?); cbn in * |-; subst;
  do 6 eexists; split; [lib_tac|]; split; [quiet_tac|];
  split; [repeat split; reflexivity|];
  let s3 := fresh "s" in let H3 := fresh "H" in
  intros s3 H3; cbn in H3; rg_cbn.

Lemma heap_reset i e arm tv s :
  timeout_of i = Some tv → holds 1 (Some e) i {[e := tv]} arm s → arm ⊆ {[e]} →
  rg_heap (zmqBridgeMamaTimerImpl_reset i)
    (λ _ s', ∃ e' arm', holds 1 (Some e') i {[e' := tv]} arm' s' ∧ arm' ⊆ {[e']}) s.
Proof using create_ok destroy_ok.
  intros Ht Hh Harm.
  heap_step. destruct (decide (mDestroying0 = 1%Z)).
  { apply rg_ret. intros s' Hr _. exists e, arm. split; [|done]. by eapply holds_stable. }
  do 4 heap_step.
  do 2 heap_step. rewrite Ht. cbn. do 2 heap_step.
  apply rg_ret. intros s' Hr _.
  match goal with H : holds _ _ _ _ _ _ |- _ => pose proof (holds_stable _ _ _ _ _ _ _ H Hr) as Hs' end.
  rewrite delete_singleton_eq, insert_empty in Hs'. do 2 eexists. split; [exact Hs'|]. set_solver.
Qed.

(** The last unlock gives back the heap. *)
Lemma heap_unlock i e arm tv s :
  timeout_of i = Some tv → holds 1 (Some e) i {[e := tv]} arm s → arm ⊆ {[e]} →
  rg_heap (call aUnlock) (λ _ s', ¬ owned_by tHeap s') s.
Proof using Type.
  intros Ht Hh Harm. apply rg_call. intros s1 Hr [_ HL].
  pose proof (holds_stable _ _ _ _ _ _ _ Hh Hr) as H1.
  destruct s1, H1 as (? & ? & ? & ? & ? & ?). cbn in *. subst. split_and!.
  - right. cbn. split_and!; try done; [..|exists 0; by rewrite app_nil_r].
    + intros [[? ?]|[_ ?]]; done.
    + by intros [? ?].
  - split; [|exact HL]. intros _. cbn. split_and!; [done|by exists tv|done].
  - intros s3 [Hn _] _. apply Hn. by intros [? ?].
Qed.

(** The callback of an element, under the lock. *)
Lemma heap_callback i e arm tv s :
  timeout_of i = Some tv → holds 1 (Some e) i {[e := tv]} arm s → arm ⊆ {[e]} →
  rg_heap (zmqBridgeMamaTimerImpl_timerCallback true ;; call aUnlock) (λ _ s', ¬ owned_by tHeap s') s.
Proof using create_ok destroy_ok.
  intros Ht Hh Harm.
  apply rg_bind; [exact _|]. heap_step.
  destruct (decide (mDestroying0 = 0%Z)).
  - apply rg_bind; [exact _|]. heap_step.
    eapply rg_mono; [|by eapply heap_reset]. clear H0. intros st s' _ (e' & arm' & H' & Harm').
    heap_step. apply rg_ret. intros s4 Hr _. eapply heap_unlock; [done| |done]. by eapply holds_stable.
  - apply rg_ret. intros s' Hr _. eapply heap_unlock; [done| |done]. by eapply holds_stable.
Qed.

(** ** The queue's thread *)

(** What it sees outside its critical sections. *)
Definition sees (i : double) (d : Z) (a : bool) (l : list tlog) (s : timer) : Prop :=
  alive s = true ∧ mInterval s = i ∧ mDestroying s = d ∧ mAction s = a ∧ log s = l ∧ creates s ≠ 0
  ∧ ¬ owned_by tQueue s ∧ ∃ k, events s = replicate k evQueueCallback.

Lemma sees_stable i d a l s s' : sees i d a l s → rely_queue s s' → sees i d a l s'.
Proof.
  intros (Ha & Hi & Hd & Hc & Hl & Hn & Ho & k & Hk) [->|(_ & ? & ? & ? & ? & ? & ? & ? & k' & E)].
  - split_and!; eauto.
  - split_and!; try congruence; try lia. exists (k + k'). by rewrite E, Hk, replicate_add.
Qed.

Lemma frozen_stable s s' : frozen s → rely_queue s s' → s' = s.
Proof. by intros Hf [->|[? _]]. Qed.

Lemma frozen_heap s : frozen s → ¬ owned_by tHeap s.
Proof. intros [[n Hn]|[_ Hn]] [m Hm]; congruence. Qed.

(** Outside: an action that leaves the heap alone. *)
Lemma queue_do {R A} (a : act R) (k : R → prog act A) Q i d ac l s :
  sees i d ac l s →
  (∀ s1, sees i d ac l s1 → G s1 →
     ∃ r s2 d' ac' l', exec tQueue _ a s1 = Next (r, s2) ∧ rely_heap s1 s2 ∧ G s2
       ∧ sees i d' ac' l' s2 ∧ (∀ s3, sees i d' ac' l' s3 → rg_queue (k r) Q s3)) →
  rg_queue (Do a k) Q s.
Proof.
  intros Hs Hk s1 Hr HG. pose proof (sees_stable _ _ _ _ _ _ Hs Hr) as H1.
  destruct (Hk s1 H1 HG) as (r & s2 & d' & ac' & l' & -> & Hg & HG2 & H2 & Hk'). auto.
Qed.

(** An action that only reads. *)
Lemma queue_read {R A} (a : act R) (k : R → prog act A) Q i d ac l s r :
  sees i d ac l s → (∀ s1, sees i d ac l s1 → exec tQueue _ a s1 = Next (r, s1)) →
  (∀ s1, sees i d ac l s1 → rg_queue (k r) Q s1) → rg_queue (Do a k) Q s.
Proof.
  intros Hs He Hk. eapply queue_do; [exact Hs|]. intros s1 H1 HG.
  exists r, s1, d, ac, l. split_and!; auto. split; [done|]. by repeat split.
Qed.
Ltac read_step :=
  rg_head; eapply queue_read; [eassumption|
    let s1 := fresh "s" in let H := fresh "H" in
    intros s1 H; destruct s1; destruct H as (? & ? & ? & ? & ?); cbn in * |-; subst; cbn; reflexivity|];
  lazymatch goal with H : sees _ _ _ _ _ |- _ => clear H end;
  let s1 := fresh "s" in let H := fresh "H" in intros s1 H; rg_cbn.

(** What it knows in a critical section, where nothing else moves. *)
Definition crit (e : option nat) (i : double) (d : Z) (ac : bool) (l : list tlog)
    (els : gmap nat (Z * Z)) (arm : gset nat) (c q : nat) (ev : list tevent) (s : timer) : Prop :=
  lock s = Some (tQueue, 1) ∧ alive s = true ∧ mTimerElement s = e ∧ mInterval s = i ∧ mDestroying s = d
  ∧ mAction s = ac ∧ log s = l ∧ elems s = els ∧ armed s = arm ∧ creates s = c ∧ enqueues s = q ∧ events s = ev.

(** Taking the lock. *)
Lemma queue_lock {A} (k : () → prog act A) Q i d ac l s :
  sees i d ac l s →
  (∀ e els arm c q n s1, heap_ok (mkTimer true e i d ac els arm (S c) 0 None [] 0 l) →
     (∃ m j, l = replicate m lAction ++ take j ending) →
     crit e i d ac l els arm (S c) q (replicate n evQueueCallback) s1 → rg_queue (k ()) Q s1) →
  rg_queue (Do aLock k) Q s.
Proof.
  intros Hs Hk s1 Hr [HG HL]. pose proof (sees_stable _ _ _ _ _ _ Hs Hr) as H1.
  cbn. unfold lock_heap. destruct (lock s1) as [[[] n]|] eqn:El.
  - destruct (decide (tHeap = tQueue)); [done|]. by exists n.
  - destruct H1 as (_ & _ & _ & _ & _ & _ & Ho & _). destruct Ho. by exists n.
  - split_and!.
    + split; [intros _ [? ?]; done|]. intros [n Hn]. congruence.
    + split; [done|exact HL].
    + specialize (HG eq_refl). destruct s1, H1 as (? & ? & ? & ? & ? & Hc & ? & n & ?). cbn in * |-. subst.
      destruct creates0 as [|c]; [done|]. eapply Hk; [exact HG|exact HL|by repeat split].
Qed.

Lemma crit_do {R A} (a : act R) (k : R → prog act A) Q e i d ac l els arm c q ev s :
  crit e i d ac l els arm c q ev s →
  (∀ s1, crit e i d ac l els arm c q ev s1 →
     ∃ r s2 e' i' els' arm' c', exec tQueue _ a s1 = Next (r, s2) ∧ crit e' i' d ac l els' arm' c' q ev s2
       ∧ (∀ s3, crit e' i' d ac l els' arm' c' q ev s3 → rg_queue (k r) Q s3)) →
  rg_queue (Do a k) Q s.
Proof.
  intros Hc Hk s1 Hr HG.
  assert (s1 = s) as ->. { apply (frozen_stable _ _ (or_introl (ex_intro _ 1 (proj1 Hc))) Hr). }
  destruct (Hk s Hc) as (r & s2 & e' & i' & els' & arm' & c' & -> & Hc' & Hk').
  assert (lock s = Some (tQueue, 1)) as El by apply Hc. assert (lock s2 = Some (tQueue, 1)) as El2 by apply Hc'.
  assert (log s2 = log s) as Elog. { transitivity l; [apply Hc'|symmetry; apply Hc]. }
  split_and!; [| |by apply Hk'].
  - split; [intros _ [? ?]|intros [? ?]]; congruence.
  - split; [intros ?; congruence|]. unfold log_ok. rewrite Elog. apply HG.
Qed.
Ltac crit_step :=
  rg_head; eapply crit_do; [eassumption|];
  lazymatch goal with H : crit _ _ _ _ _ _ _ _ _ _ _ |- _ => clear H end;
  let s1 := fresh "s" in let H := fresh "H" in
  intros s1 H; destruct s1; destruct H as (? & ? & ? & ? & ? & ? & ? & ? & ? & ? & ? & ?); cbn in * |-; subst;
  do 7 eexists; split; [lib_tac|]; split; [repeat split; reflexivity|];
  let s3 := fresh "s" in let H3 := fresh "H" in
  intros s3 H3; cbn in H3; rg_cbn.

(** Giving the lock back. *)
Lemma queue_unlock {A} (k : () → prog act A) Q e i d ac l els arm c q n s :
  crit e i d ac l els arm (S c) q (replicate n evQueueCallback) s →
  heap_ok (mkTimer true e i d ac els arm (S c) 0 None [] 0 l) →
  (∀ s1, G s1 → sees i d ac l s1 → lock s1 = None → mTimerElement s1 = e → elems s1 = els → armed s1 = arm →
     enqueues s1 = q → rg_queue (k ()) Q s1) →
  rg_queue (Do aUnlock k) Q s.
Proof.
  intros Hc Hok Hk s1 Hr [_ HL].
  assert (s1 = s) as ->. { apply (frozen_stable _ _ (or_introl (ex_intro _ 1 (proj1 Hc))) Hr). }
  destruct s, Hc as (? & ? & ? & ? & ? & ? & ? & ? & ? & ? & ? & ?). cbn in * |-. subst.
  assert (G (mkTimer true e i d ac els arm (S c) destroys0 None (replicate n evQueueCallback) q l)) as HG.
  { split; [intros _; exact Hok|exact HL]. }
  cbn. split_and!; [|exact HG|].
  - split; [intros _ [? ?]; done|]. by intros [? ?].
  - apply Hk; try done. split_and!; try done; [by intros [? ?]|by exists n].
Qed.

(** Once the timer is dead. *)
Lemma frozen_do {R A} (a : act R) (k : R → prog act A) Q s r s2 :
  frozen s → exec tQueue _ a s = Next (r, s2) → ¬ owned_by tHeap s2 → G s2 →
  rg_queue (k r) Q s2 → rg_queue (Do a k) Q s.
Proof.
  intros Hf He Ho HG Hk s1 Hr _. rewrite (frozen_stable _ _ Hf Hr), He.
  split_and!; [|done|done]. split; [done|]. intros Hh. by apply frozen_heap in Hf.
Qed.

(** What the application may ask for. *)
Definition valid (i : double) : Prop := is_Some (timeout_of i).

Lemma queue_reset i i' l s :
  valid i' → sees i 0 true l s →
  rg_queue (zmqBridgeMamaTimerImpl_reset i') (λ _ s', sees i' 0 true l s') s.
Proof using create_ok destroy_ok.
  intros [tv Ht] Hs. read_step. destruct (decide (0 = 1)%Z); [done|]. read_step.
  rg_head. eapply queue_lock; [eassumption|].
  clear -create_ok destroy_ok Ht. intros e els arm c q n s1 Hok HL Hc.
  destruct e as [e|]; [|by destruct Hok as (_ & _ & [?|?])].
  destruct Hok as (_ & (tv0 & Ht0 & ?) & Harm). cbn in *. subst.
  do 4 crit_step. rewrite Ht. rewrite delete_singleton_eq in *. rg_cbn. crit_step.
  rewrite insert_empty in *. rg_head. eapply queue_unlock; [eassumption| |].
  - split_and!; [done|by exists tv|set_solver].
  - intros s' _ H2 _ _ _ _ _. apply rg_ret. intros s'' Hr _. by eapply sees_stable.
Qed.

(** What the destruction leaves to the callback: its own event is the last
    one it tried to enqueue. *)
Definition destroy_accepted (s : timer) : bool := accepts (pred (enqueues s)).
Definition condemned (l : nat) (s : timer) : Prop :=
  alive s = true ∧ mAction s = false ∧ mTimerElement s = None ∧ elems s = ∅ ∧ armed s = ∅ ∧ lock s = None
  ∧ mDestroying s = 1%Z ∧ log s = replicate l lAction ++ [lDestroying]
  ∧ ∃ k rest, events s = replicate k evQueueCallback ++ rest
      ∧ rest = if destroy_accepted s then [evDestroyCallback] else [].

Lemma condemned_frozen l s : condemned l s → frozen s.
Proof. intros (_ & _ & _ & _ & ? & ? & _). by right. Qed.

Lemma set_destroying_step i l s :
  sees i 0 true (replicate l lAction) s → G s →
  ∃ s2, exec tQueue _ (aSetDestroying 1) s = Next (tt, s2) ∧ rely_heap s s2 ∧ G s2
    ∧ sees i 1 true (replicate l lAction ++ [lDestroying]) s2.
Proof.
  intros H1 [HG HL]. exists (add_log lDestroying (set_destroying 1 s)).
  destruct s, H1 as (? & ? & ? & ? & ? & ? & ? & k & ?). cbn in * |-. subst.
  split_and!; [done|split; [done|by repeat split]|split|].
  - intros El. specialize (HG El). unfold heap_ok in *. cbn in *. case_match; [done|]. naive_solver.
  - by exists l, 1.
  - split_and!; try done. by exists k.
Qed.

Lemma clear_action_step i l s :
  sees i 1 true l s → G s →
  ∃ s2, exec tQueue _ aClearAction s = Next (tt, s2) ∧ rely_heap s s2 ∧ G s2 ∧ sees i 1 false l s2.
Proof.
  intros H1 [HG HL]. exists (set_action false s).
  destruct s, H1 as (? & ? & ? & ? & ? & ? & ? & k & ?). cbn in * |-. subst.
  split_and!; [done|split; [done|by repeat split]|split; [exact HG|exact HL]|].
  split_and!; try done. by exists k.
Qed.

Lemma queue_destroy i l s :
  sees i 0 true (replicate l lAction) s →
  rg_queue (zmqBridgeMamaTimer_destroy true) (λ _ s', condemned l s') s.
Proof using destroy_ok.
  intros Hs. rg_head. eapply queue_do; [exact Hs|]. clear s Hs. intros s H1 HG.
  destruct (set_destroying_step _ _ _ H1 HG) as (s2 & E & Hg & HG2 & H2).
  exists tt, s2, 1%Z, true, (replicate l lAction ++ [lDestroying]). split_and!; auto.
  clear -destroy_ok. intros s H1. rg_cbn. rg_head. eapply queue_do; [exact H1|]. clear s H1. intros s H1 HG.
  destruct (clear_action_step _ _ _ H1 HG) as (s2 & E & Hg & HG2 & H2).
  exists tt, s2, 1%Z, false, (replicate l lAction ++ [lDestroying]). split_and!; auto.
  clear -destroy_ok. intros s H1. rg_cbn. read_step.
  rg_head. eapply queue_lock; [eassumption|]. clear -destroy_ok. intros e els arm c q n s1 Hok HL Hc.
  crit_step. set (R := λ _ : mama_status, condemned l).
  match goal with |- rg_queue (Do (aDestroyTimer e) ?k) _ _ =>
    assert (∀ r e' s, crit e' i 1 false (replicate l lAction ++ [lDestroying]) ∅ ∅ (S c) q
      (replicate n evQueueCallback) s → rg_queue (k r) R s) as Hrest end.
  { clear -destroy_ok. intros r e s Hc. rg_cbn. crit_step. rg_head.
    eapply queue_unlock; [eassumption|split_and!; auto|]. clear. intros s HG Hs El Ee Eels Earm Eq. rg_cbn.
    rg_head. eapply frozen_do; [by right|by destruct Hs as (Ha & _); cbn; unfold access; rewrite Ha| | |].
    { intros [m Hm]. cbn in Hm. congruence. }
    { exact HG. }
    apply rg_ret. intros s' Hr _. apply frozen_stable in Hr; [subst s'|by right].
    destruct s, Hs as (? & ? & ? & ? & ? & ? & ? & k & ?). cbn in *. subst.
    split_and!; try done. cbn. unfold destroy_accepted. cbn. eexists k, _. split; [|done].
    destruct (accepts _); [done|by rewrite app_nil_r]. }
  destruct e as [e|].
  - destruct Hok as (_ & (tv & _ & ?) & Harm). cbn in *. subst. crit_step.
    rewrite delete_singleton_eq in *. replace (arm ∖ {[e]}) with (∅ : gset nat) in * by set_solver.
    eapply Hrest. eassumption.
  - destruct Hok as (? & ? & _). cbn in *. subst. crit_step. eapply Hrest. eassumption.
Qed.

End Safety.
