(* ===== verification/TimerSpec.v ===== *)
(** * Timers: what holds in every interleaving

    While the heap's calls succeed: safety, the order of the callbacks, and
    the release after a destruction, which depends on whether the queue
    accepted the destroy event.  Then what a failing creation leads to, and,
    for comparison, a heap that runs its callbacks without its lock. *)

From S2P Require Import Prelude CLib CMonad CDouble UQueue Queue Threads Timer TimerProofs.
Import Timer.

Section Spec.

Context (create_rc destroy_rc : nat → Z) (null_rc : Z) (accepts : nat → bool).
Context (create_ok : ∀ n, create_rc n = 0%Z) (destroy_ok : ∀ n, destroy_rc n = 0%Z).

Notation exec := (exec create_rc destroy_rc null_rc accepts true).
Notation next := (next create_rc destroy_rc null_rc accepts true true).
Notation run := (run create_rc destroy_rc null_rc accepts true true).
Notation condemned := (condemned accepts).
Notation rg_heap := (rg (exec tHeap) rely_heap rely_queue G (λ _, False)).
Notation rg_queue := (rg (exec tQueue) rely_queue rely_heap G (owned_by tHeap)).

(** The memory was released, and nothing is left in the heap or the queue. *)
Definition gone (l : nat) (s : timer) : Prop :=
  alive s = false ∧ mTimerElement s = None ∧ elems s = ∅ ∧ armed s = ∅ ∧ lock s = None ∧ mDestroying s = 1%Z
  ∧ log s = replicate l lAction ++ ending ∧ events s = [] ∧ destroy_accepted accepts s = true.

(** Between two callbacks or calls of the queue's thread. *)
Definition idle (ph : phase) (s : timer) : Prop :=
  match ph with
  | Fresh => s = shared initial
  | Active => ∃ i n, valid i ∧ sees i 0 true (replicate n lAction) s
  | Destroyed => ∃ l, condemned l s ∨ gone l s
  | Failed => False
  end.

Lemma gone_frozen l s : gone l s → frozen s.
Proof. intros (_ & _ & _ & ? & ? & _). by right. Qed.

Lemma idle_stable ph s s' : idle ph s → rely_queue s s' → idle ph s'.
Proof.
  destruct ph; intros Hi Hr; cbn in *.
  - subst s. eapply frozen_stable in Hr; [done|by right].
  - destruct Hi as (i & n & Hv & Hs). exists i, n. split; [done|]. by eapply sees_stable.
  - destruct Hi as (l & H). exists l.
    apply frozen_stable in Hr as ->; [done|]. destruct H; [by eapply condemned_frozen|by eapply gone_frozen].
  - done.
Qed.

Lemma rg_idle ph s : idle ph s → rg_queue (mret ph) idle s.
Proof. intros Hi. apply rg_ret. intros s' Hr _. by eapply idle_stable. Qed.

(** ** Calls *)

Lemma call_op_idle o s :
  match o with opSetInterval i => valid i | _ => True end → idle Active s → rg_queue (call_op o) idle s.
Proof using create_ok destroy_ok.
  intros Ho (i & n & Hv & Hs).
  assert (∀ i' s', valid i' → sees i' 0 true (replicate n lAction) s' → rg_queue (mret Active) idle s') as Hret.
  { intros i' s' Hv' Hs'. apply rg_idle. by exists i', n. }
  destruct o as [|i'| |]; cbn [call_op].
  - apply rg_bind; [exact _|]. unfold zmqBridgeMamaTimer_reset. cbn [negb]. apply rg_bind; [exact _|].
    eapply queue_read; [exact Hs| |].
    { intros s1 H1. cbn. unfold access. destruct H1 as (-> & -> & _). done. }
    intros s1 H1. apply rg_ret. intros s2 Hr _.
    eapply rg_mono; [|eapply queue_reset; [done|done|exact Hv|]; by eapply sees_stable]. eauto.
  - apply rg_bind; [exact _|]. unfold zmqBridgeMamaTimer_setInterval. cbn [negb]. destruct (dlt i' (dint 0)).
    + apply rg_ret. intros s1 Hr _. eapply Hret; [exact Hv|]. by eapply sees_stable.
    + eapply rg_mono; [|eapply queue_reset; [done|done|exact Ho|exact Hs]]. eauto.
  - apply rg_bind; [exact _|]. unfold zmqBridgeMamaTimer_getInterval. cbn [negb orb]. apply rg_bind; [exact _|].
    eapply queue_read; [exact Hs| |].
    { intros s1 H1. cbn. unfold access. destruct H1 as (-> & -> & _). done. }
    intros s1 H1. apply rg_ret. intros s2 Hr _. apply rg_ret. intros s3 Hr3 _. eapply Hret; [exact Hv|].
    eapply sees_stable; [eapply sees_stable; [exact H1|exact Hr]|exact Hr3].
  - apply rg_bind; [exact _|]. eapply rg_mono; [|eapply queue_destroy; [done|exact Hs]].
    intros st s' _ Hc. apply rg_idle. exists n. by left.
Qed.

(** ** Callbacks *)

Lemma callback_active s e rest :
  idle Active s → events s = e :: rest →
  rg_queue (callback e ;; mret Active) idle (set_events rest (enqueues s) s).
Proof using Type.
  intros (i & n & Hv & Hs) He.
  assert (e = evQueueCallback ∧ sees i 0 true (replicate n lAction) (set_events rest (enqueues s) s)) as [-> H1].
  { destruct Hs as (? & ? & ? & ? & ? & ? & ? & k & Hk). rewrite He in Hk. destruct k as [|k]; [done|].
    injection Hk as -> ->. split; [done|]. split_and!; try done. by exists k. }
  clear Hs He. apply rg_bind; [exact _|]. cbn [callback].
  unfold zmqBridgeMamaTimerImpl_queueCallback. cbn [negb]. apply rg_bind; [exact _|].
  eapply queue_read; [exact H1| |].
  { intros s1 (Ha & _ & _ & Hac & _). cbn. unfold access. by rewrite Ha, Hac. }
  intros s1 H2. apply rg_ret. intros s2 Hr _.
  eapply queue_do; [eapply sees_stable; [exact H2|exact Hr]|]. intros s3 H3 [HG HL].
  exists tt, (add_log lAction s3), 0%Z, true, (replicate (S n) lAction).
  assert (log s3 ++ [lAction] = replicate (S n) lAction) as Elog.
  { destruct H3 as (_ & _ & _ & _ & -> & _). by rewrite replicate_S_end. }
  split_and!.
  - cbn. unfold access. by destruct H3 as (-> & _ & _ & -> & _).
  - split; [done|]. by repeat split.
  - split; [exact HG|]. exists (S n), 0. cbn. by rewrite app_nil_r, Elog.
  - destruct H3 as (? & ? & ? & ? & ? & ? & ? & k & ?). split_and!; try done. by exists k.
  - clear -Hv. intros s H. apply rg_ret. intros s' Hr _. apply rg_idle. exists i, (S n). split; [done|]. by eapply sees_stable.
Qed.

Lemma callback_destroyed s e rest :
  idle Destroyed s → events s = e :: rest →
  rg_queue (callback e ;; mret Destroyed) idle (set_events rest (enqueues s) s).
Proof using Type.
  intros (l & [H|H]) He; [|by destruct H as (_ & _ & _ & _ & _ & _ & _ & ? & _); congruence].
  destruct s, H as (? & ? & ? & ? & ? & ? & ? & ? & k & tl & ? & Htl). unfold destroy_accepted in Htl. cbn in *. subst.
  apply rg_bind; [exact _|].
  assert (∀ s1 s2 (r : ()), frozen s1 → rely_queue s1 s2 → idle Destroyed s1 →
    rg_queue (mret r) (λ _ s', rg_queue (mret Destroyed) idle s') s2) as Hret.
  { intros s1 s2 r Hf Hr Hi. apply frozen_stable in Hr as ->; [|done]. apply rg_ret. intros s3 Hr _.
    apply rg_idle. by eapply idle_stable. }
  destruct k as [|k]; cbn in He.
  - destruct (accepts _) eqn:Eacc; [|done]. injection He as <- <-. cbn [callback].
    unfold zmqBridgeMamaTimerImpl_destroyCallback. cbn [negb]. apply rg_bind; [exact _|].
    eapply frozen_do; [by right|reflexivity|by intros [? ?]| |].
    { split; [by repeat split; auto|]. exists l, 2. cbn. by rewrite <-app_assoc. }
    apply rg_ret. intros s' Hr _. apply frozen_stable in Hr; [subst s'|by right].
    eapply frozen_do; [by right|reflexivity|by intros [? ?]| |].
    { split; [by repeat split; auto|]. exists l, 3. cbn. by rewrite <-!app_assoc. }
    eapply Hret; [|reflexivity|]; [by right|]. exists l. right. split_and!; try done. cbn. by rewrite <-!app_assoc.
  - injection He as <- <-. cbn [callback].
    unfold zmqBridgeMamaTimerImpl_queueCallback. cbn [negb]. apply rg_bind; [exact _|].
    eapply frozen_do; [by right|reflexivity|by intros [? ?]| |].
    { split; [by repeat split; auto|]. by exists l, 1. }
    apply rg_ret. intros s' Hr _. apply frozen_stable in Hr; [subst s'|by right].
    eapply Hret; [|reflexivity|]; [by right|]. exists l. left. split_and!; try done. by eexists k, _.
Qed.

(** ** Creation *)

Lemma create_idle i : valid i → rg_queue (call_create i) idle (shared initial).
Proof using create_ok.
  intros [tv Ht]. apply rg_bind; [exact _|]. unfold zmqBridgeMamaTimer_create. cbn [negb].
  rewrite Ht. rg_head.
  eapply frozen_do; [by right|reflexivity|by intros [? ?]| |].
  { split; [by repeat split; auto|]. by exists 0, 0. }
  rg_head. eapply frozen_do; [by right|reflexivity|by intros [? ?]| |].
  { split; [by repeat split; auto|]. by exists 0, 0. }
  rg_head. eapply frozen_do; [by right|reflexivity|by intros [? ?]| |].
  { split; [by repeat split; auto|]. by exists 0, 0. }
  rg_head. eapply frozen_do;
    [by right|cbn [Timer.exec access alive]; apply createTimer_ok, create_ok|by intros [? ?]| |].
  { split; [|by exists 0, 0]. intros _. split_and!; [done|exists tv; split; [done|apply insert_empty]|cbn; set_solver]. }
  apply rg_ret. intros s' Hr _. apply rg_idle. eapply (idle_stable Active); [|exact Hr].
  exists i, 0. split; [by exists tv|]. split_and!; try done; [by intros [? ?]|by exists 0].
Qed.

(** ** The system *)

(** The intervals the application gives can be converted. *)
Definition allowed (ch : choice) : Prop :=
  match ch with cCreate i | cCall (opSetInterval i) => valid i | _ => True end.

Definition step (c c' : config) : Prop := ∃ ch, allowed ch ∧ next ch c = Next c'.
Definition reachable : config → Prop := rtc step initial.

Record cinv (c : config) : Prop := mkCinv {
  ci_G : G (shared c);
  ci_heap : match heap_thread c with
            | None => ¬ owned_by tHeap (shared c)
            | Some p => rg_heap p (λ _ s, ¬ owned_by tHeap s) (shared c)
            end;
  ci_queue : match queue_thread c with
             | None => idle (q_phase c) (shared c)
             | Some p => rg_queue p idle (shared c)
             end }.

Lemma cinv_initial : cinv initial.
Proof.
  split; [split; [intros _; split_and!; auto|by exists 0, 0]|by intros [? ?]|done].
Qed.

(** The other thread's part survives a step. *)
Lemma queue_part q ph s s' : rely_queue s s' →
  match q with None => idle ph s | Some p => rg_queue p idle s end →
  match q with None => idle ph s' | Some p => rg_queue p idle s' end.
Proof. intros Hr. destruct q; intros H; [eapply rg_stable; [exact _|exact H|exact Hr]|by eapply idle_stable]. Qed.

Lemma heap_part (h : option (prog act ())) s s' : rely_heap s s' →
  match h with None => ¬ owned_by tHeap s | Some p => rg_heap p (λ _ s, ¬ owned_by tHeap s) s end →
  match h with None => ¬ owned_by tHeap s' | Some p => rg_heap p (λ _ s, ¬ owned_by tHeap s) s' end.
Proof. intros Hr. destruct h; intros H; [eapply rg_stable; [exact _|exact H|exact Hr]|by apply Hr]. Qed.

(** One step: never undefined, and the invariant is kept. *)
Definition good (o : outcome config) : Prop :=
  match o with Fault => False | Blocked => True | Next c => cinv c end.

Lemma fire_good e c : cinv c → good (next (cFire e) c).
Proof using create_ok destroy_ok.
  destruct c as [s h q ph]. intros [[HG HL] Hh Hq]. cbn in *. destruct h; [done|].
  unfold fire. destruct (decide (e ∈ armed s)) as [He|]; [|done].
  destruct (lock s) eqn:El; [done|]. specialize (HG eq_refl). unfold heap_ok in HG.
  destruct (mTimerElement s) as [e0|] eqn:Ee; [|by destruct HG as (_ & Harm & _); set_solver].
  destruct HG as (Ha & (tv & Ht & Eel) & Harm). cbn. split; cbn.
  - split; [done|exact HL].
  - eapply heap_callback; [done|done|exact Ht|by repeat split|set_solver].
  - eapply queue_part; [|exact Hq]. right. cbn. split_and!; try done; [|by intros [? ?]|exists 0; by rewrite app_nil_r].
    intros [[n Hn]|[Hn _]]; [congruence|set_solver].
Qed.

Lemma heap_good c : cinv c → good (next cHeap c).
Proof using Type.
  destruct c as [s h q ph]. intros [HG Hh Hq]. cbn in *. destruct h as [p|]; [|done].
  apply rg_now in Hh; [|exact _|done]. destruct p as [a|R a k]; cbn.
  - by split.
  - destruct (exec tHeap R a s) as [| |[r s']]; [done|done|]. destruct Hh as (Hr & HG' & Hk).
    split; [done|done|]. by eapply queue_part.
Qed.

Lemma queue_good c : cinv c → good (next cQueue c).
Proof using Type.
  destruct c as [s h q ph]. intros [HG Hh Hq]. cbn in *. destruct q as [p|]; [|done].
  apply rg_now in Hq; [|exact _|done]. destruct p as [a|R a k]; cbn.
  - by split.
  - destruct (exec tQueue R a s) as [| |[r s']]; [done|done|]. destruct Hq as (Hr & HG' & Hk).
    split; [done| |done]. by eapply heap_part.
Qed.

Lemma dispatch_good c : cinv c → good (next cDispatch c).
Proof using Type.
  destruct c as [s h q ph]. intros [[HG HL] Hh Hq]. cbn in *. destruct q as [p|]; [done|].
  destruct (events s) as [|e rest] eqn:Ee; [done|]. split; cbn.
  - by split.
  - eapply heap_part; [|exact Hh]. split; [done|]. by repeat split.
  - destruct ph; cbn in Hq; [by rewrite Hq in Ee|by apply callback_active|by apply callback_destroyed|done].
Qed.

Lemma next_good ch c : allowed ch → cinv c → good (next ch c).
Proof using create_ok destroy_ok.
  intros Ha Hc. destruct ch as [e| | | |i|o].
  - by apply fire_good.
  - by apply heap_good.
  - by apply queue_good.
  - by apply dispatch_good.
  - destruct c as [s h q ph], Hc as [HG Hh Hq]. cbn in *. destruct q; [done|].
    destruct (decide (ph = Fresh)) as [->|]; [|done]. cbn in Hq. subst s. split; [done|done|]. by apply create_idle.
  - destruct c as [s h q ph], Hc as [HG Hh Hq]. cbn in *. destruct q; [done|].
    destruct (decide (ph = Active)) as [->|]; [|done]. split; [done|done|]. by apply call_op_idle.
Qed.

Lemma steps_cinv c c' : rtc step c c' → cinv c → cinv c'.
Proof using create_ok destroy_ok.
  induction 1 as [|c1 c2 c3 (ch & Ha & E) _ IH]; [done|]. intros H1. apply IH.
  pose proof (next_good ch c1 Ha H1) as Hg. by rewrite E in Hg.
Qed.

Lemma reachable_cinv c : reachable c → cinv c.
Proof using create_ok destroy_ok. intros Hr. exact (steps_cinv _ _ Hr cinv_initial). Qed.

(** C18: timers are safe. When the heap runs its callbacks under its lock and
    its calls succeed, then in every interleaving of the two threads no freed
    timer or timer element is used and no lock is misused; and while the
    timer is alive and nobody holds the lock, exactly one timer element is
    allocated, with the timeout of the current interval. *)
Theorem timer_safe c :
  reachable c →
  (∀ ch, allowed ch → next ch c ≠ Fault)
  ∧ (q_phase c = Active → queue_thread c = None → lock (shared c) = None →
     ∃ e tv, mTimerElement (shared c) = Some e ∧ timeout_of (mInterval (shared c)) = Some tv
       ∧ elems (shared c) = {[e := tv]} ∧ armed (shared c) ⊆ {[e]}).
Proof using create_ok destroy_ok.
  intros Hc%reachable_cinv. split.
  - intros ch Ha E. pose proof (next_good ch c Ha Hc) as Hg. by rewrite E in Hg.
  - intros Ep Eq El. destruct Hc as [[HG _] _ Hq]. rewrite Eq, Ep in Hq. destruct Hq as (i & n & Hv & Hs).
    specialize (HG El). unfold heap_ok in HG. destruct (mTimerElement (shared c)) as [e|].
    + destruct HG as (_ & (tv & ? & ?) & ?). by exists e, tv.
    + destruct Hs as (_ & _ & Hd & _ & _ & Hn & _). destruct HG as (_ & _ & [?|?]); congruence.
Qed.

(** No deadlock: while a thread is inside a callback or a call, one of
    the two can make a step. *)
Theorem timer_progress c :
  reachable c → heap_thread c ≠ None ∨ queue_thread c ≠ None →
  ∃ ch c', (ch = cHeap ∨ ch = cQueue) ∧ next ch c = Next c'.
Proof using create_ok destroy_ok.
  intros Hc%reachable_cinv Hrun. destruct c as [s h q ph], Hc as [HG Hh Hq]. cbn in *.
  destruct h as [[a|R a k]|].
  - exists cHeap. eexists. split; [by left|done].
  - apply rg_now in Hh; [|exact _|done]. exists cHeap. cbn.
    destruct (exec tHeap R a s) as [| |[r s']]; [done|done|]. eexists. split; [by left|done].
  - destruct q as [[a|R a k]|]; [| |by destruct Hrun].
    + exists cQueue. eexists. split; [by right|done].
    + apply rg_now in Hq; [|exact _|done]. exists cQueue. cbn.
      destruct (exec tQueue R a s) as [| |[r s']]; [done|done|]. eexists. split; [by right|done].
Qed.

(** C24: what the application observes: actions only while the timer lives;
    from the start of its destruction on, at most one call of the destroy
    callback, and the release of the memory as the very last thing. *)
Theorem timer_callbacks c :
  reachable c →
  ∃ n k, log (shared c) = replicate n lAction ++ take k [lDestroying; lOnTimerDestroyed; lFree].
Proof using create_ok destroy_ok. intros Hc%reachable_cinv. exact (proj2 (ci_G c Hc)). Qed.

Lemma condemned_runs l s h : destroy_accepted accepts s = true → condemned l s →
  ∃ sched c', Forall (λ ch, ch = cDispatch ∨ ch = cQueue) sched ∧ run sched (mkConfig s h None Destroyed) = Next c'
    ∧ alive (shared c') = false ∧ elems (shared c') = ∅ ∧ armed (shared c') = ∅ ∧ events (shared c') = [].
Proof using Type.
  intros Hacc (Ha & Hac & He & Hel & Harm & Hl & Hd & Hlog & k & rest & Ev & Er). rewrite Hacc in Er. subst rest.
  clear Hacc. revert s Ha Hac He Hel Harm Hl Hd Hlog Ev. induction k as [|k IH]; intros s; destruct s; cbn; intros; subst.
  - exists [cDispatch; cQueue; cQueue; cQueue]. eexists. split; [repeat (constructor; auto)|]. done.
  - edestruct IH as (sched & c' & Hf & Hrun & Hc'); [..|exists (cDispatch :: cQueue :: cQueue :: sched), c';
      split; [repeat (constructor; auto)|split; [exact Hrun|exact Hc']]]; done.
Qed.

(** A condemned timer whose destroy event was refused: the queue's thread is
    between two callbacks or in one that finds no action. *)
Record lost (c : config) : Prop := {
  lo_inv : cinv c;
  lo_phase : q_phase c = Destroyed;
  lo_state : ∃ l, condemned l (shared c);
  lo_refused : destroy_accepted accepts (shared c) = false;
  lo_thread : queue_thread c = None ∨ queue_thread c = Some (callback evQueueCallback ;; mret Destroyed)
              ∨ queue_thread c = Some (mret Destroyed) }.

Lemma lost_step c c' : step c c' → lost c → lost c'.
Proof using create_ok destroy_ok.
  intros (ch & Ha & E) [Hi Hp (l & Hc) Hr Ht]. pose proof (next_good ch c Ha Hi) as Hi'. rewrite E in Hi'. cbn in Hi'.
  pose proof (condemned_frozen _ _ _ Hc) as Hf.
  destruct c as [s h q ph], ch as [e| | | |i|o]; cbn in *.
  - destruct h; [done|]. unfold fire in E. destruct Hc as (_ & _ & _ & _ & Harm & _). rewrite Harm in E.
    rewrite decide_False in E by set_solver. done.
  - destruct h as [p|]; [|done]. destruct Hi as [HG Hh _]. cbn in Hh. apply rg_now in Hh; [|exact _|done].
    destruct p as [a|R a k]; cbn in E.
    + injection E as <-. split; try done. by exists l.
    + destruct (exec tHeap R a s) as [| |[r s']]; [done|done|]. injection E as <-.
      destruct Hh as (Hq & _). apply frozen_stable in Hq as ->; [|done]. split; try done. by exists l.
  - destruct Ht as [->|[->| ->]]; [done|..].
    + destruct s, Hc as (? & ? & Hrest). cbn in *. subst. injection E as <-.
      split; try done; [|by auto]. by exists l.
    + injection E as <-. split; try done; [|by left]. by exists l.
  - destruct Ht as [->|[->| ->]]; [|done..]. destruct s, Hc as (? & ? & ? & ? & ? & ? & ? & ? & k & rest & Ev & Er).
    unfold destroy_accepted in *.
    cbn in *. rewrite Hr in Er. subst. rewrite app_nil_r in E. destruct k as [|k]; [done|]. injection E as <-.
    split; try done; [|by auto]. exists l. split_and!; try done. exists k, []. unfold destroy_accepted. cbn.
    by rewrite Hr, app_nil_r.
  - destruct q; [done|]. by rewrite decide_False in E by (rewrite Hp; done).
  - destruct q; [done|]. by rewrite decide_False in E by (rewrite Hp; done).
Qed.

(** C19: the end of a destruction, while the heap's calls succeed. Once the
    application has destroyed the timer, all depends on whether its queue accepted the destroy event (the
    last one enqueued; its status is ignored). If so, the queue's thread
    alone, by dispatching what is queued, reaches the state in which the
    memory and every timer element are released, whatever the heap's thread
    did before. If the queue was full, no continuation ever calls the destroy
    callback or releases the timer. *)
Theorem timer_released c :
  reachable c → q_phase c = Destroyed → queue_thread c = None →
  if accepts (pred (enqueues (shared c))) then
    ∃ sched c', Forall (λ ch, ch = cDispatch ∨ ch = cQueue) sched ∧ run sched c = Next c'
      ∧ alive (shared c') = false ∧ elems (shared c') = ∅ ∧ armed (shared c') = ∅ ∧ events (shared c') = []
  else
    ∀ c', rtc step c c' →
      alive (shared c') = true ∧ (∃ n, log (shared c') = replicate n lAction ++ [lDestroying])
      ∧ elems (shared c') = ∅ ∧ armed (shared c') = ∅.
Proof using create_ok destroy_ok.
  intros Hc%reachable_cinv Ep Eq. pose proof Hc as [_ _ Hq]. rewrite Eq, Ep in Hq.
  destruct (accepts _) eqn:Eacc; destruct Hq as (l & [Hs|Hs]).
  - destruct c as [s h q ph]. cbn in *. subst ph q. by eapply condemned_runs.
  - exists [], c. split; [constructor|]. split; [done|]. by destruct Hs as (? & ? & ? & ? & ? & ? & ? & ? & ?).
  - assert (lost c) as Hl by (split; eauto).
    intros c' Hrtc. assert (lost c') as [_ _ (n & ? & _ & _ & ? & ? & _ & _ & ? & _) _ _].
    { clear -create_ok destroy_ok Hl Hrtc. induction Hrtc; eauto using lost_step. }
    split_and!; eauto.
  - exfalso. destruct Hs as (_ & _ & _ & _ & _ & _ & _ & _ & Hs). unfold destroy_accepted in Hs. congruence.
Qed.

End Spec.

(** ** What safety depends on *)

Notation q n := (replicate n cQueue) (only parsing).
Notation h n := (replicate n cHeap) (only parsing).

Definition allowedb (ch : choice) : bool :=
  match ch with
  | cCreate i | cCall (opSetInterval i) => if timeout_of i is Some _ then true else false
  | _ => true
  end.

Lemma allowed_all sched : forallb allowedb sched = true → Forall allowed sched.
Proof.
  intros H. apply Forall_forall. intros ch Hch. rewrite forallb_forall in H.
  apply list_elem_of_In, H in Hch. destruct ch as [| | | |i|[|i| |]]; cbn in *; try done.
  - destruct (timeout_of i) eqn:E; [|done]. unfold valid. rewrite E. by eexists.
  - destruct (timeout_of i) eqn:E; [|done]. unfold valid. rewrite E. by eexists.
Qed.

Section Faults.

Context (create_rc' destroy_rc : nat → Z) (null_rc : Z) (accepts : nat → bool).
Context (destroy_ok : ∀ n, destroy_rc n = 0%Z).

Notation run := (run create_rc' destroy_rc null_rc accepts true true).
Notation next := (next create_rc' destroy_rc null_rc accepts true true).

Lemma run_next ch l c c1 o : next ch c = Next c1 → run l c1 = o → run (ch :: l) c = o.
Proof using Type. intros E <-. cbn. by rewrite E. Qed.

Lemma next_queue {R} (a : act R) (k : R → prog act phase) r s s' h ph :
  exec create_rc' destroy_rc null_rc accepts true tQueue R a s = Next (r, s') →
  next cQueue (mkConfig s h (Some (Do a k)) ph) = Next (mkConfig s' h (Some (k r)) ph).
Proof using Type. cbn. by intros ->. Qed.

Lemma createTimer_fails timeout s : create_rc' (creates s) ≠ 0%Z →
  createTimer create_rc' timeout s = Next (create_rc' (creates s), set_counts (S (creates s)) (destroys s) s).
Proof using Type. intros Hc. unfold createTimer. by rewrite decide_False. Qed.

(** The queue's thread runs its program. *)
Ltac queue_head :=
  lazymatch goal with
  | |- Timer.next _ _ _ _ _ _ cQueue (mkConfig _ _ (Some ?p) _) = _ => let p' := eval hnf in p in change p with p'
  end.
Ltac queue_run :=
  eapply run_next;
  [ queue_head; first [apply next_queue; cbn [Timer.exec access alive];
      first [eapply destroyTimer_ok; [done|apply lookup_singleton_eq] | by apply createTimer_fails | cbn; reflexivity] | reflexivity]
  |].

(** What a reset leaves when its element cannot be created. *)
Definition dangling (e : nat) (c : config) : Prop :=
  alive (shared c) = true ∧ mDestroying (shared c) = 0%Z ∧ mTimerElement (shared c) = Some e ∧ elems (shared c) = ∅
  ∧ armed (shared c) = ∅ ∧ lock (shared c) = None ∧ heap_thread c = None ∧ queue_thread c = None ∧ q_phase c = Active.

Lemma failed_reset e i tv s :
  alive s = true → mDestroying s = 0%Z → mTimerElement s = Some e → mInterval s = i → timeout_of i = Some tv →
  elems s = {[e := tv]} → armed s ⊆ {[e]} → lock s = None → create_rc' (creates s) ≠ 0%Z →
  ∃ c', run (cCall opReset :: replicate 11 cQueue) (mkConfig s None None Active) = Next c' ∧ dangling e c'.
Proof using destroy_ok.
  destruct s. cbn [alive mDestroying mTimerElement mInterval elems armed lock creates]. intros -> -> -> -> Ht -> Harm -> Hc.
  eexists. split.
  { eapply run_next; [reflexivity|]. cbn [replicate]. do 8 queue_run. cbn [mbind prog_bind pbind part]. rewrite Ht.
    do 3 queue_run. reflexivity. }
  split_and!; try done; cbn; [apply delete_singleton_eq|set_solver].
Qed.

(** The queue's thread is about to destroy the element [e] in the heap,
    which is not allocated. *)
Definition frees_again (e : nat) (c : config) : Prop :=
  elems (shared c) !! e = None ∧ (∃ k, queue_thread c = Some (Do (aDestroyTimer (Some e)) k)) ∧ next cQueue c = Fault.

Lemma dangling_freed e c o : dangling e c → o = opReset ∨ o = opDestroy →
  ∃ c', run (cCall o :: replicate (if o is opReset then 6 else 5) cQueue) c = Next c' ∧ frees_again e c'.
Proof using Type.
  destruct c as [s h q ph], s. unfold dangling. cbn [alive mDestroying mTimerElement elems armed lock shared heap_thread queue_thread q_phase].
  intros (-> & -> & -> & -> & -> & -> & -> & -> & ->) [-> | ->]; eexists;
    (split; [eapply run_next; [reflexivity|]; cbn [replicate]; repeat queue_run; reflexivity|]);
    (split_and!; [apply lookup_empty|eexists; reflexivity|reflexivity]).
Qed.

Context (create_rc : nat → Z) (create_ok : ∀ n, create_rc n = 0%Z).

(** C25: when the heap fails to create the element in a reset, timer.c keeps
    the element it has just destroyed.  From every reachable state with an
    active timer and both threads idle, if the next creation fails, then after
    a reset the timer points to an element that is not allocated and will
    never fire; and if the application then resets or destroys the timer, that
    very element is destroyed in the heap a second time. *)
Theorem timer_faults c :
  reachable create_rc destroy_rc null_rc accepts c →
  q_phase c = Active → queue_thread c = None → heap_thread c = None → create_rc' (creates (shared c)) ≠ 0%Z →
  ∃ e c1, mTimerElement (shared c) = Some e ∧ run (cCall opReset :: replicate 11 cQueue) c = Next c1 ∧ dangling e c1
    ∧ ∀ o, o = opReset ∨ o = opDestroy →
        ∃ n c2, run (cCall o :: replicate n cQueue) c1 = Next c2 ∧ frees_again e c2.
Proof using create_ok destroy_ok.
  intros Hc%reachable_cinv Ep Eq Eh Hrc; [|done|done].
  destruct c as [s h q ph], Hc as [[HG _] Hh Hq]. cbn in *. subst. destruct Hq as (i & n & Hv & Hs).
  assert (lock s = None) as El.
  { destruct (lock s) as [[[] m]|] eqn:E; [by destruct Hh; exists m| |done].
    destruct Hs as (_ & _ & _ & _ & _ & _ & Ho & _). destruct Ho. by exists m. }
  specialize (HG El). unfold heap_ok in HG. pose proof Hs as (_ & Ei & Hd & _ & _ & Hn & _).
  destruct (mTimerElement s) as [e|] eqn:Ee; [|by destruct HG as (_ & _ & [?|?]); congruence].
  destruct HG as (Ha & (tv & Ht & Eel) & Harm).
  destruct (failed_reset e (mInterval s) tv s) as (c1 & E1 & Hc1); try done.
  exists e, c1. split_and!; [done|exact E1|exact Hc1|]. intros o Ho.
  destruct (dangling_freed e c1 o Hc1 Ho) as (c2 & E2 & H2). eauto.
Qed.

End Faults.

(** Safety also needs the heap to call its callbacks under its lock: otherwise
    a timer destroyed while its callback runs would be used after its release. *)
Example unlocked_heap_faults :
  ∃ sched, Forall allowed sched ∧ run (λ _, 0%Z) (λ _, 0%Z) 0 (λ _, true) true false sched initial = Fault.
Proof.
  exists (cCreate (dint 1) :: q 5 ++ [cFire 0] ++ h 1 ++ [cCall opDestroy] ++ q 10 ++ [cDispatch] ++ q 2 ++ h 1).
  split; [|by vm_compute]. apply allowed_all. by vm_compute.
Qed.

(** ** Witnesses *)

Notation run_with accepts := (run (λ _, 0%Z) (λ _, 0%Z) 0 accepts true true).
Notation demo_run := (run_with (λ _, true)).

Lemma run_reachable accepts sched c c' :
  Forall allowed sched → run_with accepts sched c = Next c' → rtc (step (λ _, 0%Z) (λ _, 0%Z) 0 accepts) c c'.
Proof.
  revert c. induction sched as [|ch sched IH]; intros c Hf Hr; cbn in Hr.
  - injection Hr as ->. done.
  - apply Forall_cons in Hf as [Ha Hf].
    destruct (next (λ _, 0%Z) (λ _, 0%Z) 0 accepts true true ch c) as [| |c1] eqn:E; [done|done|].
    eapply rtc_l; [by exists ch|]. by apply IH.
Qed.

(** A timer of one second that fired once, and one that was destroyed while
    the callback of the heap was running. *)
Notation demo_fired := (cCreate (dint 1) :: q 5 ++ [cFire 0] ++ h 3).
Notation demo_destroyed :=
  (cCreate (dint 1) :: q 5 ++ [cFire 0] ++ h 3 ++ [cCall opDestroy] ++ q 3 ++ h 11 ++ q 7).

Definition outcome_config (o : outcome config) : config :=
  match o with Next c => c | _ => initial end.

Lemma demo_reachable_with accepts sched :
  Forall allowed sched → (if run_with accepts sched initial is Next _ then true else false) = true →
  reachable (λ _, 0%Z) (λ _, 0%Z) 0 accepts (outcome_config (run_with accepts sched initial)).
Proof.
  intros Hf Hr. apply (run_reachable accepts sched); [done|]. by destruct (run_with accepts sched initial).
Qed.
Notation demo_reachable := (demo_reachable_with (λ _, true)).

Lemma demo_allowed_fired : Forall allowed demo_fired.
Proof. apply allowed_all. by vm_compute. Qed.

Lemma demo_allowed_destroyed : Forall allowed demo_destroyed.
Proof. apply allowed_all. by vm_compute. Qed.

Notation zero_rc := (λ _ : nat, 0%Z) (only parsing).
Notation demo_config sched := (outcome_config (demo_run sched initial)).

Lemma demo_rc_ok : ∀ n : nat, zero_rc n = 0%Z.
Proof. done. Qed.

Lemma busy_heap c : (if heap_thread c is Some _ then true else false) = true → heap_thread c ≠ None.
Proof. by destruct (heap_thread c). Qed.

Lemma timer_safe_witness :
  (if heap_thread (demo_config demo_fired) is Some _ then true else false) = true
  ∧ ∀ ch, allowed ch → next zero_rc zero_rc 0 (λ _, true) true true ch (demo_config demo_fired) ≠ Fault.
Proof.
  split; [vm_compute; reflexivity|].
  exact (proj1 (timer_safe zero_rc zero_rc 0 (λ _, true) demo_rc_ok demo_rc_ok (demo_config demo_fired)
    (demo_reachable demo_fired demo_allowed_fired ltac:(vm_compute; reflexivity)))).
Defined.

Lemma timer_progress_witness :
  ∃ ch c', (ch = cHeap ∨ ch = cQueue)
    ∧ next zero_rc zero_rc 0 (λ _, true) true true ch (demo_config demo_fired) = Next c'.
Proof.
  apply (timer_progress zero_rc zero_rc 0 (λ _, true) demo_rc_ok demo_rc_ok (demo_config demo_fired)
    (demo_reachable demo_fired demo_allowed_fired ltac:(vm_compute; reflexivity))).
  left. apply busy_heap. vm_compute. reflexivity.
Defined.

Lemma timer_callbacks_witness :
  ∃ n k, log (shared (demo_config demo_destroyed)) = replicate n lAction ++ take k [lDestroying; lOnTimerDestroyed; lFree].
Proof.
  exact (timer_callbacks zero_rc zero_rc 0 (λ _, true) demo_rc_ok demo_rc_ok (demo_config demo_destroyed)
    (demo_reachable demo_destroyed demo_allowed_destroyed ltac:(vm_compute; reflexivity))).
Defined.

(** A queue that has room for one event. *)
Notation demo_full := (λ n, n =? 0) (only parsing).
Notation demo_refused := (outcome_config (run_with demo_full demo_destroyed initial)).

Lemma demo_refused_reachable : reachable zero_rc zero_rc 0 demo_full demo_refused.
Proof. apply (demo_reachable_with demo_full); [apply demo_allowed_destroyed|vm_compute; reflexivity]. Qed.

Lemma timer_released_witness :
  (∃ sched c', Forall (λ ch, ch = cDispatch ∨ ch = cQueue) sched
    ∧ demo_run sched (demo_config demo_destroyed) = Next c'
    ∧ alive (shared c') = false ∧ elems (shared c') = ∅ ∧ armed (shared c') = ∅ ∧ events (shared c') = [])
  ∧ (∀ c', rtc (step zero_rc zero_rc 0 demo_full) demo_refused c' → alive (shared c') = true).
Proof.
  split.
  - apply (timer_released zero_rc zero_rc 0 (λ _, true) demo_rc_ok demo_rc_ok (demo_config demo_destroyed)
      (demo_reachable demo_destroyed demo_allowed_destroyed ltac:(vm_compute; reflexivity))); vm_compute; reflexivity.
  - intros c' Hr. pose proof (timer_released zero_rc zero_rc 0 demo_full demo_rc_ok demo_rc_ok demo_refused
      demo_refused_reachable ltac:(vm_compute; reflexivity) ltac:(vm_compute; reflexivity)) as H.
    assert (enqueues (shared demo_refused) = 2) as E by (vm_compute; reflexivity). rewrite E in H.
    exact (proj1 (H c' Hr)).
Defined.

(** The second element cannot be created. *)
Lemma timer_faults_witness :
  ∃ c1 n c2, dangling 0 c1
    ∧ run (λ n, if decide (n = 1) then (-1)%Z else 0%Z) zero_rc 0 (λ _, true) true true
        (cCall opDestroy :: replicate n cQueue) c1 = Next c2
    ∧ frees_again (λ n, if decide (n = 1) then (-1)%Z else 0%Z) zero_rc 0 (λ _, true) 0 c2.
Proof.
  destruct (timer_faults (λ n, if decide (n = 1) then (-1)%Z else 0%Z) zero_rc 0 (λ _, true) demo_rc_ok zero_rc demo_rc_ok
    (demo_config (cCreate (dint 1) :: q 5))
    (demo_reachable (cCreate (dint 1) :: q 5) ltac:(apply allowed_all; by vm_compute) ltac:(vm_compute; reflexivity))
    ltac:(vm_compute; reflexivity) ltac:(vm_compute; reflexivity) ltac:(vm_compute; reflexivity)
    ltac:(vm_compute; discriminate)) as (e & c1 & E0 & _ & Hd & Hf).
  assert (mTimerElement (shared (demo_config (cCreate (dint 1) :: q 5))) = Some 0) as E by (vm_compute; reflexivity).
  rewrite E in E0. injection E0 as <-.
  destruct (Hf opDestroy (or_intror eq_refl)) as (n & c2 & E2 & H2).
  exists c1, n, c2. exact (conj Hd (conj E2 H2)).
Defined.
