(* ===== verification/Monitor.v ===== *)
(** * The socket monitor (src/src/transport.c, "socket monitor")

    [monitorEvent_v2] reads one event of a monitored socket, a message of
    several frames, and logs it; [monitorThread] does so for the four
    monitored sockets until [mIsMonitoring] is reset ([startMonitor] and
    [stopMonitor] are in [Lifecycle]). *)

From S2P Require Import Prelude CLib CMonad Msg Util Naming NamingProofs.
Import ZM ZU.

Module Monitor.

(** ** Reading integers *)

Fixpoint of_le (l : list byte) : Z :=
  match l with [] => 0 | b :: l' => (byte_val b + 256 * of_le l')%Z end.

Lemma of_le_bytes n z : (0 <= z < 256 ^ Z.of_nat n)%Z → of_le (ZN.le_bytes n z) = z.
Proof.
  revert z. induction n as [|n IH]; intros z Hz; cbn [ZN.le_bytes of_le].
  - change (256 ^ Z.of_nat 0)%Z with 1%Z in Hz. lia.
  - rewrite IH.
    + unfold byte_of, byte_val.
      pose proof (Z.mod_pos_bound z 256 ltac:(lia)) as Hm.
      rewrite Z.mod_mod by lia.
      destruct (Byte.of_N (Z.to_N (z mod 256))) as [b|] eqn:E; cbn.
      * apply Byte.to_of_N in E. rewrite E, Z2N.id by lia. pose proof (Z.div_mod z 256 ltac:(lia)). lia.
      * apply Byte.of_N_None_iff in E. lia.
    + rewrite Nat2Z.inj_succ, Z.pow_succ_r in Hz by lia. split; [apply Z.div_pos; lia|].
      apply Z.div_lt_upper_bound; lia.
Qed.

(** ** The functions *)

(** What they do to zmq, and the log. *)
Inductive mobs :=
  | mSocketNew (s : Z)
  | mConnect (s : Z) (endpoint : list byte)
  | mPoll
  | mInit
  | mRecv (s : Z)
  | mMsgClose
  | mLog (level : MamaLogLevel) (name event : list byte) (value : Z) (local remote : list byte)
  | mClose (s : Z).

Section Monitor.

(** The frames zmq delivers on each socket, in order; [None] is a call that
    fails.  [logs]: the levels that are logged.  The state counts the calls
    on each socket. *)
Context (recv : Z → nat → option (list byte)) (logs : MamaLogLevel → bool).

Notation MC := (C (Z → nat) mobs).

Definition INTERRUPTED : Z := wrapu 64 (-1).

Definition zmq_msg_recv (s : Z) : MC (option (list byte)) :=
  emit (mRecv s) ;;
  c ← cget;
  cput (λ s', if decide (s' = s) then S (c s) else c s') ;;
  mret (recv s (c s)).

(** A frame, or the early return. *)
Definition frame (s : Z) (k : list byte → MC Z) : MC Z :=
  emit mInit ;;
  r ← zmq_msg_recv s;
  match r with None => mret INTERRUPTED | Some data => k data end.

(** [memcpy] of eight bytes out of the frame. *)
Definition read64 (data : list byte) : option Z := of_le <$> peek data 0 8.

Fixpoint values (s : Z) (count : nat) (value : Z) (k : Z → MC Z) : MC Z :=
  match count with
  | 0 => k value
  | S count' =>
      frame s (λ data,
        value ← cpart (read64 data);
        emit mMsgClose ;;
        values s count' value k)
  end.

(** The zeroed array of [ZMQ_MAX_ENDPOINT_LENGTH + 1] bytes the frame is
    copied to, whatever its size. *)
Definition copy_address (data : list byte) : option (list byte) :=
  poke (replicate (ZN.ZMQ_MAX_ENDPOINT_LENGTH + 1) NUL) 0 data.

Definition zmqBridgeMamaTransportImpl_monitorEvent_v2 (s : Z) (socketName : list byte) : MC Z :=
  frame s (λ data,
  event ← cpart (read64 data);
  emit mMsgClose ;;
  frame s (λ data,
  value_count ← cpart (read64 data);
  emit mMsgClose ;;
  values s (Z.to_nat value_count) 0 (λ value,
  frame s (λ data,
  local_address ← cpart (copy_address data);
  emit mMsgClose ;;
  frame s (λ data,
  remote_address ← cpart (copy_address data);
  emit mMsgClose ;;
  (let logLevel := get_zmqEventLogLevel event in
   if logs logLevel then
     l ← cpart (cstring local_address);
     r ← cpart (cstring remote_address);
     emit (mLog logLevel socketName (get_zmqEventName event) value l r)
   else mret ()) ;;
  mret 0%Z))))).

(** ** The thread *)

(** One iteration as the outside makes it: the read of [mIsMonitoring], the
    answer of [zmq_poll] and the sockets it reports. *)
Record poll := mkPoll {
  p_monitoring : Z;
  p_rc : Z;
  p_eintr : bool;
  p_ready : nat → bool }.

(** [socks i]: the answer of the i-th [zmq_socket]. *)
Context (socks : nat → Z).

Definition monitor_item (p : poll) (i : nat) (name : list byte) : MC () :=
  if p_ready p i then _ ← zmqBridgeMamaTransportImpl_monitorEvent_v2 (socks i) name; mret () else mret ().

(** [true] when the loop has ended. *)
Fixpoint monitor_loop (ps : list poll) : MC bool :=
  match ps with
  | [] => mret false
  | p :: ps' =>
      if decide (p_monitoring p ≠ 1)%Z then mret true
      else
        emit mPoll ;;
        (if decide (p_rc p < 0 ∧ p_eintr p = false)%Z then mret ()
         else
           monitor_item p 0 (lit "dataPub") ;;
           monitor_item p 1 (lit "dataSub") ;;
           monitor_item p 2 (lit "namingPub") ;;
           monitor_item p 3 (lit "namingSub")) ;;
        monitor_loop ps'
  end.

Definition zmqBridgeMamaTransportImpl_monitorThread (ps : list poll) : MC bool :=
  emit (mSocketNew (socks 0)) ;; emit (mConnect (socks 0) (lit "inproc://dataPub")) ;;
  emit (mSocketNew (socks 1)) ;; emit (mConnect (socks 1) (lit "inproc://dataSub")) ;;
  emit (mSocketNew (socks 2)) ;; emit (mConnect (socks 2) (lit "inproc://namingPub")) ;;
  emit (mSocketNew (socks 3)) ;; emit (mConnect (socks 3) (lit "inproc://namingSub")) ;;
  ended ← monitor_loop ps;
  if ended : bool then
    cforeach (λ i, emit (mClose (socks i))) [0; 1; 2; 3] ;;
    mret true
  else mret false.

(** ** One event *)

(** The frames of an event, as zmq documents version 2 of its events. *)
Definition event_frames (event : Z) (vals : list Z) (local remote : list byte) : list (list byte) :=
  [ZN.le_bytes 8 event; ZN.le_bytes 8 (Z.of_nat (length vals))] ++ (ZN.le_bytes 8 <$> vals) ++ [local; remote].

Definition u64 (z : Z) : Prop := (0 <= z < 2 ^ 64)%Z.
Definition address_ok (a : list byte) : Prop := is_cstr a ∧ length a <= ZN.ZMQ_MAX_ENDPOINT_LENGTH.

(** What a frame leaves in the log. *)
Definition frame_read (s : Z) : list mobs := [mInit; mRecv s; mMsgClose].

Lemma read64_le z : u64 z → read64 (ZN.le_bytes 8 z) = Some z.
Proof.
  intros Hz. unfold read64. rewrite <-(app_nil_r (ZN.le_bytes 8 z)).
  pose proof (peek_app [] (ZN.le_bytes 8 z) []) as Hp. rewrite length_le_bytes in Hp. cbn [app length] in Hp.
  rewrite Hp. cbn. f_equal. by apply (of_le_bytes 8).
Qed.

Lemma copy_address_ok a : address_ok a → ∃ m, copy_address a = Some m ∧ cstring m = Some a.
Proof.
  intros [Hc Hl]. unfold copy_address, poke. rewrite length_replicate, decide_True by lia.
  eexists. split; [done|]. cbn [take app]. rewrite drop_replicate.
  replace (ZN.ZMQ_MAX_ENDPOINT_LENGTH + 1 - (0 + length a)) with (S (ZN.ZMQ_MAX_ENDPOINT_LENGTH - length a)) by lia.
  by apply cstring_cstr.
Qed.

(** zmq delivers the first [m] of these frames; then a call fails. *)
Record delivers (s : Z) (c : Z → nat) (fs : list (list byte)) (m : nat) : Prop := mkDelivers {
  dv_le : m ≤ length fs;
  dv_some i f : i < m → fs !! i = Some f → recv s (c s + i) = Some f;
  dv_none : m < length fs → recv s (c s + m) = None }.

(** The result of reading [len] frames of which [m] are delivered: the
    counters, and what was done, [tail] at the end. *)
Definition read (s : Z) (tail : list mobs) (c : Z → nat) (len m : nat) (a : Z) (c' : Z → nat) (o : list mobs) : Prop :=
  (∀ s', s' ≠ s → c' s' = c s') ∧
  if decide (m < len)
  then a = INTERRUPTED ∧ c' s = c s + m + 1 ∧ o = concat (replicate m (frame_read s)) ++ [mInit; mRecv s]
  else a = 0%Z ∧ c' s = c s + len ∧ o = concat (replicate len (frame_read s)) ++ tail.

Lemma frame_wp s k f fs m c tail :
  delivers s c (f :: fs) m →
  (∀ m' c', delivers s c' fs m' →
     wp (k f) (λ a c2 o, ∃ o', o = mMsgClose :: o' ∧ read s tail c' (length fs) m' a c2 o') c') →
  wp (frame s k) (read s tail c (S (length fs)) m) c.
Proof.
  intros Hd Hk. unfold frame, zmq_msg_recv. wp_steps. destruct m as [|m].
  - rewrite <-(Nat.add_0_r (c s)), (dv_none _ _ _ _ Hd) by (cbn; lia). wp_steps. split.
    + intros s' Hs. by rewrite decide_False.
    + rewrite decide_True by lia. split_and!; [done|rewrite decide_True by done; lia|done].
  - pose proof (dv_some _ _ _ _ Hd 0 f ltac:(lia) eq_refl) as Hf. rewrite Nat.add_0_r in Hf. rewrite Hf.
    eapply wp_mono; [|apply (Hk m)].
    + intros a c2 o (o' & -> & Hoth & Hr). split.
      * intros s' Hs. rewrite Hoth by done. by rewrite decide_False.
      * case_decide; [rewrite decide_True by lia|rewrite decide_False by lia];
          rewrite decide_True in Hr by done; destruct Hr as (-> & -> & ->);
          (split_and!; [done|lia|done]).
    + destruct Hd as [Hle Hs Hn]. split; rewrite ?decide_True by done.
      * cbn in Hle. lia.
      * intros i g Hi Hg. rewrite Nat.add_succ_comm. apply (Hs (S i)); [lia|done].
      * intros Hm. rewrite Nat.add_succ_comm. apply Hn. cbn. lia.
Qed.

Lemma values_wp s vals : ∀ c m v k fs tail,
  Forall u64 vals → delivers s c ((ZN.le_bytes 8 <$> vals) ++ fs) m →
  (∀ m' c', delivers s c' fs m' → wp (k (default v (last vals))) (read s tail c' (length fs) m') c') →
  wp (values s (length vals) v k) (read s tail c (length vals + length fs) m) c.
Proof.
  induction vals as [|x vals IH]; intros c m v k fs tail Hu Hd Hk; [by apply Hk|].
  apply Forall_cons in Hu as [Hx Hu]. cbn [values length Nat.add].
  assert (length vals + length fs = length ((ZN.le_bytes 8 <$> vals) ++ fs)) as El
    by by rewrite length_app, length_fmap.
  rewrite El. eapply frame_wp; [exact Hd|]. intros m' c' Hd'. rewrite (read64_le x Hx). wp_steps.
  eapply wp_part; [done|]. wp_steps. eapply wp_mono; [|eapply (IH c' m' x k fs tail Hu Hd')].
  - intros a c2 o Hr. eexists. split; [done|]. by rewrite <-El.
  - intros m2 c2 Hd2. specialize (Hk m2 c2 Hd2). destruct vals as [|y vals]; [done|].
    rewrite last_cons_cons in Hk. destruct (last (y :: vals)) eqn:El2; [done|].
    by apply last_None in El2.
Qed.

(** The entry in the log. *)
Definition logged (name : list byte) (event : Z) (vals : list Z) (local remote : list byte) : list mobs :=
  let level := get_zmqEventLogLevel event in
  if logs level then [mLog level name (get_zmqEventName event) (default 0%Z (last vals)) local remote] else [].

Lemma event_wp s name event vals local remote c m :
  u64 event → Forall u64 vals → u64 (Z.of_nat (length vals)) → address_ok local → address_ok remote →
  delivers s c (event_frames event vals local remote) m →
  wp (zmqBridgeMamaTransportImpl_monitorEvent_v2 s name)
    (read s (logged name event vals local remote) c (4 + length vals) m) c.
Proof.
  intros He Hv Hn Hl Hr Hd.
  destruct (copy_address_ok local Hl) as (lm & El & Elc). destruct (copy_address_ok remote Hr) as (rm & Er & Erc).
  assert (∀ s' (c' : Z → nat) f k fs n tail m, n = S (length fs) → delivers s' c' (f :: fs) m →
    (∀ m' c2, delivers s' c2 fs m' →
       wp (k f) (λ a c3 o, ∃ o', o = mMsgClose :: o' ∧ read s' tail c2 (length fs) m' a c3 o') c2) →
    wp (frame s' k) (read s' tail c' n m) c') as Hf by (intros; subst; by eapply frame_wp).
  assert (length ((ZN.le_bytes 8 <$> vals) ++ [local; remote]) = length vals + 2) as Elen
    by by rewrite length_app, length_fmap.
  eapply Hf; [|exact Hd|]; [cbn -[ZN.le_bytes]; rewrite Elen; lia|]. intros m1 c1 Hd1.
  rewrite read64_le by done. wp_steps. eapply wp_part; [done|]. wp_steps.
  eapply wp_mono; [intros a c3 o H; eexists; split; [done|exact H]|].
  eapply Hf; [|exact Hd1|]; [done|]. intros m2 c2 Hd2.
  rewrite read64_le by done. wp_steps. eapply wp_part; [done|]. wp_steps.
  eapply wp_mono; [intros a c3 o H; eexists; split; [done|exact H]|].
  rewrite Elen, Nat2Z.id. eapply (values_wp s vals c2 m2 0 _ [local; remote]); [exact Hv|exact Hd2|]. intros m3 c3 Hd3.
  eapply Hf; [|exact Hd3|]; [done|]. intros m4 c4 Hd4. rewrite El. wp_steps. eapply wp_part; [done|]. wp_steps.
  eapply wp_mono; [intros a c5 o H; eexists; split; [done|exact H]|].
  eapply Hf; [|exact Hd4|]; [done|]. intros m5 c5 Hd5. rewrite Er. wp_steps. eapply wp_part; [done|]. wp_steps.
  eapply wp_mono; [intros a c6 o H; eexists; split; [done|exact H]|].
  pose proof (dv_le _ _ _ _ Hd5) as Hm5. unfold logged.
  destruct (logs _); [rewrite Elc; wp_steps; eapply wp_part; [done|]; rewrite Erc; wp_steps; eapply wp_part; [done|]|];
    wp_steps; (split; [done|]); rewrite decide_False by (cbn in *; lia); cbn; auto.
Qed.

(** C26: reading an event. When zmq delivers all frames of an event, they are
    read, each frame is closed, and the event is logged at its level with its
    name, its last value and both addresses; when a receive fails on the way,
    the call returns -1 with nothing logged, that frame not closed and the
    rest of the event left for the next call. *)
Theorem monitor_event s name event vals local remote c m :
  u64 event → Forall u64 vals → u64 (Z.of_nat (length vals)) → address_ok local → address_ok remote →
  delivers s c (event_frames event vals local remote) m →
  ∃ a c' o, zmqBridgeMamaTransportImpl_monitorEvent_v2 s name c = Some (a, c', o)
    ∧ (∀ s', s' ≠ s → c' s' = c s')
    ∧ (m < 4 + length vals → a = INTERRUPTED ∧ c' s = c s + m + 1
         ∧ o = concat (replicate m (frame_read s)) ++ [mInit; mRecv s])
    ∧ (m = 4 + length vals → a = 0%Z ∧ c' s = c s + m
         ∧ o = concat (replicate m (frame_read s)) ++ logged name event vals local remote).
Proof.
  intros He Hv Hn Hl Hr Hd.
  pose proof (event_wp s name event vals local remote c m He Hv Hn Hl Hr Hd) as Hw.
  apply wp_run in Hw as (a & c' & o & E & Ho & Hc). exists a, c', o. split; [exact E|]. split; [exact Ho|].
  split; intros Hm; [by rewrite decide_True in Hc by lia|]. subst m. by rewrite decide_False in Hc by lia.
Qed.

(** ** The thread *)

Definition opened (o : list mobs) : list Z := omap (λ e, match e with mSocketNew s => Some s | _ => None end) o.
Definition closed (o : list mobs) : list Z := omap (λ e, match e with mClose s => Some s | _ => None end) o.
Definition polled (o : list mobs) : nat := length (omap (λ e, match e with mPoll => Some () | _ => None end) o).

Lemma opened_app o1 o2 : opened (o1 ++ o2) = opened o1 ++ opened o2.
Proof. apply omap_app. Qed.
Lemma closed_app o1 o2 : closed (o1 ++ o2) = closed o1 ++ closed o2.
Proof. apply omap_app. Qed.
Lemma polled_app o1 o2 : polled (o1 ++ o2) = polled o1 + polled o2.
Proof. unfold polled. by rewrite omap_app, length_app. Qed.

(** A run that neither opens nor closes sockets, nor polls. *)
Definition plain {A} (m : MC A) : Prop :=
  ∀ c a c' o, m c = Some (a, c', o) → opened o = [] ∧ closed o = [] ∧ polled o = 0.

Lemma plain_bind {A B} (m : MC A) (f : A → MC B) : plain m → (∀ a, plain (f a)) → plain (m ≫= f).
Proof.
  intros Hm Hf c b c' o (a & c1 & o1 & o2 & E1 & E2 & ->)%C_bind_Some.
  destruct (Hm _ _ _ _ E1) as (O1 & C1 & P1), (Hf _ _ _ _ _ E2) as (O2 & C2 & P2).
  by rewrite opened_app, closed_app, polled_app, O1, O2, C1, C2, P1, P2.
Qed.
Lemma plain_ret {A} (a : A) : plain (mret a).
Proof. by intros c b c' o [= _ _ <-]. Qed.
Lemma plain_get : plain cget.
Proof. by intros c b c' o [= _ _ <-]. Qed.
Lemma plain_put c0 : plain (cput c0).
Proof. by intros c b c' o [= _ _ <-]. Qed.
Lemma plain_part {A} (x : option A) : plain (cpart x).
Proof. intros c b c' o. unfold cpart. destruct x; [|done]. by intros [= _ _ <-]. Qed.
Lemma plain_emit e : opened [e] = [] → closed [e] = [] → polled [e] = 0 → plain (emit e).
Proof. by intros ? ? ? c b c' o [= _ _ <-]. Qed.

Ltac plain_tac :=
  repeat first [apply plain_ret | apply plain_get | apply plain_put | apply plain_part
    | apply plain_emit; reflexivity | apply plain_bind; [|intros ?] | case_match].

Lemma plain_frame s k : (∀ data, plain (k data)) → plain (frame s k).
Proof. intros Hk. unfold frame, zmq_msg_recv. plain_tac. apply Hk. Qed.

Lemma plain_values s n : ∀ v k, (∀ v', plain (k v')) → plain (values s n v k).
Proof.
  induction n as [|n IH]; intros v k Hk; cbn [values]; [apply Hk|].
  apply plain_frame. intros data. plain_tac. by apply IH.
Qed.

Lemma plain_event s name : plain (zmqBridgeMamaTransportImpl_monitorEvent_v2 s name).
Proof.
  apply plain_frame. intros d1. plain_tac. apply plain_values. intros v. plain_tac.
  cbv zeta. plain_tac.
Qed.

(** The polls of the loop: those before the flag is seen reset. *)
Fixpoint polls_of (ps : list poll) : nat :=
  match ps with
  | p :: ps' => if decide (p_monitoring p ≠ 1)%Z then 0 else S (polls_of ps')
  | [] => 0
  end.

(** Every event can be read. *)
Definition readable : Prop := ∀ s name c, is_Some (zmqBridgeMamaTransportImpl_monitorEvent_v2 s name c).

Lemma item_wp p i name (Q : () → (Z → nat) → list mobs → Prop) c :
  readable → (∀ c' o, opened o = [] → closed o = [] → polled o = 0 → Q () c' o) → wp (monitor_item p i name) Q c.
Proof.
  intros Hread HQ. unfold monitor_item. destruct (p_ready p i); [|by apply wp_ret, HQ].
  apply wp_bind, wp_run. destruct (Hread (socks i) name c) as [[[a c'] o] E]. exists a, c', o. split; [done|].
  destruct (plain_event _ _ _ _ _ _ E) as (? & ? & ?). apply wp_ret, HQ; by rewrite app_nil_r.
Qed.

Definition loop_post (ps : list poll) (b : bool) (o : list mobs) : Prop :=
  opened o = [] ∧ closed o = [] ∧ polled o = polls_of ps
  ∧ (b = true ↔ ∃ p, p ∈ ps ∧ p_monitoring p ≠ 1%Z).

Lemma monitor_loop_wp ps c : readable → wp (monitor_loop ps) (λ b _ o, loop_post ps b o) c.
Proof.
  intros Hread. revert c. induction ps as [|p ps IH]; intros c; cbn [monitor_loop].
  - apply wp_ret. split_and!; try done. set_solver.
  - unfold loop_post. cbn [polls_of]. destruct (decide (p_monitoring p ≠ 1%Z)) as [Hp|Hp].
    + apply wp_ret. split_and!; try done. set_solver.
    + wp_steps.
      assert (∀ o (b : bool) o2, opened o = [] → closed o = [] → polled o = 0 → loop_post ps b o2 →
        opened (mPoll :: o ++ o2) = [] ∧ closed (mPoll :: o ++ o2) = [] ∧ polled (mPoll :: o ++ o2) = S (polls_of ps)
        ∧ (b = true ↔ ∃ p', p' ∈ p :: ps ∧ p_monitoring p' ≠ 1%Z)) as Hstep.
      { intros o b o2 O1 C1 P1 (O2 & C2 & P2 & Hb).
        change (mPoll :: o ++ o2) with ([mPoll] ++ o ++ o2).
        rewrite !opened_app, !closed_app, !polled_app, O1, O2, C1, C2, P1, P2.
        split_and!; try done. rewrite Hb. set_solver. }
      destruct (decide _) as [_|_].
      * wp_steps. eapply wp_mono; [|apply IH]. intros b c' o2 H. by eapply (Hstep []).
      * wp_steps. apply item_wp; [done|]. intros c1 o1 ? ? ?. wp_steps.
        apply item_wp; [done|]. intros c2 o2 ? ? ?. wp_steps.
        apply item_wp; [done|]. intros c3 o3 ? ? ?. wp_steps.
        apply item_wp; [done|]. intros c4 o4 ? ? ?.
        eapply wp_mono; [|apply IH]. intros b c' o5 Hl. cbn [app].
        apply (Hstep (o1 ++ o2 ++ o3 ++ o4)); [..|exact Hl];
          rewrite ?opened_app, ?closed_app, ?polled_app; by repeat (match goal with H : _ = [] |- _ => rewrite H; clear H | H : _ = 0 |- _ => rewrite H; clear H end).
Qed.

(** The monitor thread. It creates four sockets, polls until it reads
    the flag reset, and ends then: at the first such read, after one poll for
    each read before, having closed exactly the sockets it created. *)
Theorem monitor_ends ps c :
  readable →
  ∃ ended c' o, zmqBridgeMamaTransportImpl_monitorThread ps c = Some (ended, c', o)
    ∧ opened o = [socks 0; socks 1; socks 2; socks 3] ∧ polled o = polls_of ps
    ∧ (ended = true ↔ ∃ p, p ∈ ps ∧ p_monitoring p ≠ 1%Z)
    ∧ closed o = (if ended then opened o else []).
Proof.
  intros Hread.
  assert (wp (zmqBridgeMamaTransportImpl_monitorThread ps) (λ b _ o,
    opened o = [socks 0; socks 1; socks 2; socks 3] ∧ polled o = polls_of ps
    ∧ (b = true ↔ ∃ p, p ∈ ps ∧ p_monitoring p ≠ 1%Z)
    ∧ closed o = (if b then opened o else [])) c) as Hw.
  { unfold zmqBridgeMamaTransportImpl_monitorThread. wp_steps.
    eapply wp_mono; [|apply monitor_loop_wp, Hread]. intros b c' o (O & C & P & Hb).
    destruct b; [apply wp_bind, (wp_emit_map (λ i, mClose (socks i)))|]; wp_steps;
      (split_and!; [| |exact Hb|]); cbn [app]; rewrite ?app_nil_r;
      repeat match goal with |- context [?f (?e :: ?l)] =>
        lazymatch l with [] => fail | _ => change (f (e :: l)) with (f ([e] ++ l)) end end;
      rewrite ?opened_app, ?closed_app, ?polled_app, ?O, ?C, ?P; cbn; try done; lia. }
  apply wp_run in Hw as (b & c' & o & E & H). by exists b, c', o.
Qed.

End Monitor.

(** ** Witnesses *)

(** A CONNECTED event whose value is a file descriptor. *)
Definition demo_frames : list (list byte) := event_frames 1 [7%Z] (lit "tcp://10.0.0.1:5000") (lit "tcp://10.0.0.2:41000").

Lemma u64_small z : (0 <= z < 256)%Z → u64 z.
Proof. unfold u64. lia. Qed.

Lemma demo_address_ok a : forallb (λ b, negb (bool_decide (b = NUL))) a = true → length a ≤ 256 → address_ok a.
Proof.
  intros Ha Hl. split; [|exact Hl]. intros Hin. rewrite forallb_forall in Ha.
  apply list_elem_of_In, Ha in Hin. by rewrite bool_decide_true in Hin.
Qed.

(** Its five frames are delivered, or only the first three. *)
Definition demo_recv (k : nat) (s : Z) (n : nat) : option (list byte) := if decide (n < k) then demo_frames !! n else None.

Lemma demo_delivers k : k ≤ 5 → delivers (demo_recv k) 1 (λ _, 0) demo_frames k.
Proof.
  intros Hk. split; [done| |].
  - intros i f Hi Hf. unfold demo_recv. by rewrite decide_True by (cbn; lia).
  - intros _. unfold demo_recv. by rewrite decide_False by (cbn; lia).
Qed.

Lemma monitor_event_witness :
  (∃ a c' o, zmqBridgeMamaTransportImpl_monitorEvent_v2 (demo_recv 5) (λ _, true) 1 (lit "dataPub") (λ _, 0) = Some (a, c', o)
     ∧ (∀ s', s' ≠ 1%Z → c' s' = 0)
     ∧ (5 < 4 + 1 → a = INTERRUPTED ∧ c' 1%Z = 0 + 5 + 1
         ∧ o = concat (replicate 5 (frame_read 1)) ++ [mInit; mRecv 1])
     ∧ (5 = 4 + 1 → a = 0%Z ∧ c' 1%Z = 0 + 5
         ∧ o = concat (replicate 5 (frame_read 1))
               ++ logged (λ _, true) (lit "dataPub") 1 [7%Z] (lit "tcp://10.0.0.1:5000") (lit "tcp://10.0.0.2:41000"))).
Proof.
  apply (monitor_event (demo_recv 5) (λ _, true) 1 (lit "dataPub") 1 [7%Z] (lit "tcp://10.0.0.1:5000")
    (lit "tcp://10.0.0.2:41000") (λ _, 0) 5).
  - by apply u64_small.
  - repeat constructor; by apply u64_small.
  - by apply u64_small.
  - by apply demo_address_ok; [vm_compute|cbn; lia].
  - by apply demo_address_ok; [vm_compute|cbn; lia].
  - by apply demo_delivers.
Defined.

(** An address that is too long for its array. *)
Example monitor_overflow :
  zmqBridgeMamaTransportImpl_monitorEvent_v2
    (λ _ n, event_frames 1 [7%Z] (replicate 258 x61) [] !! n) (λ _, true) 1 (lit "dataPub") (λ _, 0) = None.
Proof. vm_compute. reflexivity. Qed.

Definition zero_frame : list byte := replicate 8 NUL.

Lemma zero_readable : readable (λ _ _, Some zero_frame) (λ _, true).
Proof. intros s name c. eexists. vm_compute. reflexivity. Qed.

Definition demo_polls : list poll :=
  [mkPoll 1 1 false (λ i, bool_decide (i = 0)); mkPoll 1 (-1) true (λ _, false); mkPoll 0 0 false (λ _, false)].

Lemma monitor_ends_witness :
  ∃ ended c' o, zmqBridgeMamaTransportImpl_monitorThread (λ _ _, Some zero_frame) (λ _, true) (λ i, 1 + Z.of_nat i)%Z
      demo_polls (λ _, 0) = Some (ended, c', o)
    ∧ opened o = [1; 2; 3; 4]%Z ∧ polled o = 2
    ∧ (ended = true ↔ ∃ p, p ∈ demo_polls ∧ p_monitoring p ≠ 1%Z)
    ∧ closed o = (if ended then opened o else []).
Proof. exact (monitor_ends _ _ (λ i, 1 + Z.of_nat i)%Z demo_polls (λ _, 0) zero_readable). Defined.

End Monitor.
