(* ===== verification/Bridge.v ===== *)
(** * Opening and closing the bridge (src/src/bridge.c)

    The closure of the bridge, its default queue and the timer heap with its
    thread: what is acquired when the bridge is opened, and released when it
    is closed. *)

From S2P Require Import Prelude CLib CMonad CNum.

Module Bridge.

(** ** Data *)

Inductive bresource := bClosure | bQueue | bHeap | bTimerThread.

#[export] Instance bresource_eq_dec : EqDecision bresource.
Proof. solve_decision. Defined.

Inductive bobs :=
  | oSetVersion (name : list byte)
  | oSetReadOnlyProperty (value : list byte)
  | oSocketStartup
  | oAcquire (r : bresource)
  | oRelease (r : bresource)
  | oSetClosure (present : bool)
  | oSetDefaultQueue
  | oSetQueueName (name : list byte)
  | oDestroyHeap (rc : Z)
  | oJoinTimerThread
  | oDestroyQueueTimed (timeout : Z).

(** [zmqBridgeClosure]: whether its heap is not NULL. *)
Record zmqBridgeClosure := mkClosure { mTimerHeap : bool }.

(** The closure of the bridge implementation and its default queue. *)
Record bridgeImpl := mkBridgeImpl {
  bi_closure : option zmqBridgeClosure;
  bi_queue : bool }.

Definition set_closure c (s : bridgeImpl) := mkBridgeImpl c (bi_queue s).
Definition set_queue q (s : bridgeImpl) := mkBridgeImpl (bi_closure s) q.

Notation BC := (C bridgeImpl bobs).

Definition ZMQ_BRIDGE_NAME : list byte := lit "zmq".
Definition ZMQ_BRIDGE_VERSION : list byte := lit "2.0".
Definition ZMQ_DEFAULT_QUEUE_NAME : list byte := lit "ZMQ_DEFAULT_MAMA_QUEUE".
Definition ZMQ_SHUTDOWN_TIMEOUT : Z := 5000.
Definition PAYLOAD_NAMES : list (option (list byte)) := [Some (lit "omnmmsg"); None].
Definition PAYLOAD_IDS : list byte := [x4f; NUL].

(** ** Initialization, open and close *)

(** The compile-time version and the property that says that the bridge
    extends the base bridge. *)
Definition zmqBridge_init : BC mama_status :=
  emit (oSetVersion ZMQ_BRIDGE_NAME) ;;
  emit (oSetReadOnlyProperty (lit "true")) ;;
  mret MAMA_STATUS_OK.

(** The answers of memory, of [mamaQueue_create], of [createTimerHeap] and of
    [startDispatchTimerHeap]. *)
Record openEnv := mkOpenEnv { oe_mem : bool; oe_queue : mama_status; oe_heap : Z; oe_start : Z }.

Definition zmqBridge_open (bridge : bool) (env : openEnv) : BC mama_status :=
  emit oSocketStartup ;;
  if negb bridge then mret MAMA_STATUS_NULL_ARG
  else if negb (oe_mem env) then mret MAMA_STATUS_NOMEM
  else
    emit (oAcquire bClosure) ;;
    cmodify (set_closure (Some (mkClosure false))) ;;
    emit (oSetClosure true) ;;
    if decide (oe_queue env ≠ MAMA_STATUS_OK) then mret (oe_queue env)
    else
      emit (oAcquire bQueue) ;;
      cmodify (set_queue true) ;;
      emit oSetDefaultQueue ;;
      emit (oSetQueueName ZMQ_DEFAULT_QUEUE_NAME) ;;
      if decide (oe_heap env ≠ 0)%Z then mret MAMA_STATUS_PLATFORM
      else
        emit (oAcquire bHeap) ;;
        cmodify (set_closure (Some (mkClosure true))) ;;
        if decide (oe_start env ≠ 0)%Z then mret MAMA_STATUS_PLATFORM
        else emit (oAcquire bTimerThread) ;; mret MAMA_STATUS_OK.

(** [heap_rc]: the answer of [destroyHeap]; [wait]: that of
    [mamaQueue_destroyTimedWait], which the code ignores: the queue is
    released when it succeeds.  A closure that is NULL is dereferenced. *)
Definition zmqBridge_close (bridge : bool) (heap_rc : Z) (wait : mama_status) : BC mama_status :=
  if negb bridge then mret MAMA_STATUS_NULL_ARG
  else
    s ← cget;
    closure ← cpart (bi_closure s);
    status ← (if mTimerHeap closure then
                emit (oDestroyHeap heap_rc) ;;
                (if decide (heap_rc = 0)%Z then emit (oRelease bHeap) else mret ()) ;;
                emit oJoinTimerThread ;;
                emit (oRelease bTimerThread) ;;
                mret (if decide (heap_rc ≠ 0)%Z then MAMA_STATUS_PLATFORM else MAMA_STATUS_OK)
              else mret MAMA_STATUS_OK);
    cmodify (set_closure None) ;;
    emit (oSetClosure false) ;;
    emit (oRelease bClosure) ;;
    s ← cget;
    (if bi_queue s then
       emit (oDestroyQueueTimed ZMQ_SHUTDOWN_TIMEOUT) ;;
       (if decide (wait = MAMA_STATUS_OK) then emit (oRelease bQueue) ;; cmodify (set_queue false) else mret ())
     else mret ()) ;;
    mret status.

(** ** Start, stop and the constants *)

(** [dispatch] and [stopDispatch]: the answers of [mamaQueue_dispatch] and
    [mamaQueue_stopDispatch]. *)
Definition zmqBridge_start (defaultEventQueue : bool) (dispatch : mama_status) : mama_status :=
  if negb defaultEventQueue then MAMA_STATUS_NULL_ARG else dispatch.
Definition zmqBridge_stop (defaultEventQueue : bool) (stopDispatch : mama_status) : mama_status :=
  if negb defaultEventQueue then MAMA_STATUS_NULL_ARG else stopDispatch.

Definition zmqBridge_getName : list byte := ZMQ_BRIDGE_NAME.

(** [None]: the text does not fit its array. *)
Definition zmqBridge_getVersion (major minor patch : Z) : option (list byte) :=
  strcpy 1024 (zmqBridge_getName ++ lit " version " ++ ZMQ_BRIDGE_VERSION ++ lit " using libzmq version "
               ++ dec major ++ lit "." ++ dec minor ++ lit "." ++ dec patch).

Definition zmqBridge_getDefaultPayloadId (name id : bool)
    : mama_status * option (list (option (list byte)) * list byte) :=
  if negb name || negb id then (MAMA_STATUS_NULL_ARG, None) else (MAMA_STATUS_OK, Some (PAYLOAD_NAMES, PAYLOAD_IDS)).

(** ** What is acquired and released *)

Definition acquired : list bobs → list bresource :=
  omap (λ e, match e with oAcquire r => Some r | _ => None end).
Definition released : list bobs → list bresource :=
  omap (λ e, match e with oRelease r => Some r | _ => None end).

(** The bridge before it is opened. *)
Definition unopened : bridgeImpl := mkBridgeImpl None false.

(** What closing does to each state. *)
Lemma close_run c q heap_rc wait :
  zmqBridge_close true heap_rc wait (mkBridgeImpl (Some c) q)
  = Some (if mTimerHeap c then if decide (heap_rc = 0)%Z then MAMA_STATUS_OK else MAMA_STATUS_PLATFORM else MAMA_STATUS_OK,
          mkBridgeImpl None (q && negb (bool_decide (wait = MAMA_STATUS_OK))),
          (if mTimerHeap c then
             [oDestroyHeap heap_rc] ++ (if decide (heap_rc = 0)%Z then [oRelease bHeap] else [])
             ++ [oJoinTimerThread; oRelease bTimerThread] else [])
          ++ [oSetClosure false; oRelease bClosure]
          ++ if q then oDestroyQueueTimed ZMQ_SHUTDOWN_TIMEOUT
                       :: (if decide (wait = MAMA_STATUS_OK) then [oRelease bQueue] else []) else []).
Proof.
  unfold zmqBridge_close. cbn [negb]. destruct (decide (wait = MAMA_STATUS_OK)) as [Hw|Hw];
    [rewrite bool_decide_true by done|rewrite bool_decide_false by done]; destruct c as [[]], q; cbn.
  all: destruct (decide (heap_rc = 0)%Z); cbn; repeat (case_decide; try done); done.
Qed.

(** C27: opening and closing. A successful open acquires the closure, the
    queue, the heap and its thread.  Closing the bridge releases, in this
    order: the heap if it can be destroyed, its thread, the closure, and last
    the queue if it is empty before the timeout; so it releases exactly what
    was acquired when both calls succeed.  Only the failure of the first is
    reported: the status of [mamaQueue_destroyTimedWait] is lost, and a queue
    that could not be destroyed stays although closing returns MAMA_STATUS_OK.
    A failed open releases nothing of what it acquired; closing it is
    undefined without a closure, and joins a thread that was never started
    when only the start of the heap failed. *)
Theorem open_close env heap_rc wait :
  ∃ st s1 o1, zmqBridge_open true env unopened = Some (st, s1, o1) ∧ released o1 = []
  ∧ (st = MAMA_STATUS_OK →
       acquired o1 = [bClosure; bQueue; bHeap; bTimerThread]
       ∧ ∃ s2 o2, zmqBridge_close true heap_rc wait s1
            = Some (if decide (heap_rc = 0)%Z then MAMA_STATUS_OK else MAMA_STATUS_PLATFORM, s2, o2)
         ∧ bi_closure s2 = None ∧ bi_queue s2 = bool_decide (wait ≠ MAMA_STATUS_OK)
         ∧ released o2 = (if decide (heap_rc = 0)%Z then [bHeap] else []) ++ [bTimerThread; bClosure]
                         ++ (if decide (wait = MAMA_STATUS_OK) then [bQueue] else []))
  ∧ (st ≠ MAMA_STATUS_OK →
       (zmqBridge_close true heap_rc wait s1 = None ↔ oe_mem env = false)
       ∧ ∀ st' s2 o2, zmqBridge_close true 0 MAMA_STATUS_OK s1 = Some (st', s2, o2) →
           if decide (bHeap ∈ acquired o1)
           then released o2 ≡ₚ bTimerThread :: acquired o1 else released o2 ≡ₚ acquired o1).
Proof.
  unfold zmqBridge_open. destruct env as [mem qs hp stt]. cbn [oe_mem oe_queue oe_heap oe_start negb].
  destruct mem; cbn [negb].
  - destruct (decide (qs ≠ MAMA_STATUS_OK)) as [Hq|Hq];
      [|destruct (decide (hp ≠ 0)%Z) as [Hh|Hh];
        [|destruct (decide (stt ≠ 0)%Z) as [Hs|Hs]]];
      cbn -[zmqBridge_close]; do 3 eexists; (split; [reflexivity|]); (split; [done|]).
    4: { split; [|done]. intros _. split; [done|]. do 2 eexists. split; [etransitivity; [apply close_run|reflexivity]|]. cbn.
         split; [done|]. split; [by destruct wait|]. by destruct (decide (heap_rc = 0)%Z), wait. }
    all: split; [done|]; intros _; cbn -[zmqBridge_close]; unfold set_closure, set_queue, unopened;
      cbn -[zmqBridge_close]; rewrite !close_run; split; [done|]; intros st' s2 o2 [= _ _ <-]; cbn.
    all: case_decide; try set_solver; try solve_Permutation.
  - cbn. do 3 eexists. split; [reflexivity|]. split; [done|]. split; [done|]. intros _. by split.
Qed.

(** The version fits its array, whatever the numbers. *)
Lemma version_fits major minor patch : is_Some (zmqBridge_getVersion major minor patch).
Proof.
  unfold zmqBridge_getVersion. eexists. apply strcpy_fits. rewrite !length_app.
  pose proof (length_dec major). pose proof (length_dec minor). pose proof (length_dec patch). cbn. lia.
Qed.

End Bridge.
