(* ===== verification/Accessors.v ===== *)
(** * The remaining entry points

    The functions of msg.c, inbox.c and subscription.c that only read their
    object or relay a callback, and those of io.c and notimpl.c that the
    bridge does not implement.  A [bool] tells whether a pointer the code
    compares with NULL is not NULL. *)

From S2P Require Import Prelude CLib CMonad Msg Subject Socket Collections Routing.
Import ZM.

Module Acc.

(** ** Messages (msg.c) *)

Section Messages.

Context {Parent : Type}.

(** The second result: the pointer that is freed. *)
Definition zmqBridgeMamaMsg_destroy (msg : option nat) (destroyMsg : Z) : mama_status * option nat :=
  match msg with
  | None => (MAMA_STATUS_NULL_ARG, None)
  | Some p => (MAMA_STATUS_OK, Some p)
  end.

Definition zmqBridgeMamaMsg_destroyMiddlewareMsg (msg : option nat) : mama_status * option nat :=
  zmqBridgeMamaMsg_destroy msg 1.

Definition zmqBridgeMamaMsg_detach (setMessageOwner : option Parent → Z → mama_status)
    (msg : option (zmqBridgeMsgImpl Parent)) : mama_status :=
  match msg with
  | None => MAMA_STATUS_NULL_ARG
  | Some impl => setMessageOwner (mParent impl) 1%Z
  end.

(** [*error] becomes NULL. *)
Definition zmqBridgeMamaMsg_getPlatformError (error : bool) : mama_status * option (option nat) :=
  (MAMA_STATUS_NOT_IMPLEMENTED, if error then Some None else None).

Definition zmqBridgeMamaMsg_getNativeHandle (msg : option nat) (result : bool) : mama_status * option nat :=
  match msg with
  | Some p => if result then (MAMA_STATUS_OK, Some p) else (MAMA_STATUS_NULL_ARG, None)
  | None => (MAMA_STATUS_NULL_ARG, None)
  end.

(** The second result: the handle that is freed. *)
Definition zmqBridgeMamaMsg_destroyReplyHandle (result : option nat) : mama_status * option nat :=
  match result with
  | None => (MAMA_STATUS_NULL_ARG, None)
  | Some p => (MAMA_STATUS_OK, Some p)
  end.

Definition zmqBridgeMamaMsgImpl_getSendSubject (msg : option (zmqBridgeMsgImpl Parent))
    : mama_status * option (list byte) :=
  match msg with
  | None => (MAMA_STATUS_NULL_ARG, None)
  | Some impl => (MAMA_STATUS_OK, Some (mSendSubject impl))
  end.

(** [getBridgeMsg]: the answer of [mamaMsgImpl_getBridgeMsg]. *)
Definition zmqBridgeMamaMsgImpl_getBridgeMsg (mamaMsg : bool) (getBridgeMsg : mama_status * option nat) : option nat :=
  if negb mamaMsg then None
  else if decide (fst getBridgeMsg ≠ MAMA_STATUS_OK) then None else snd getBridgeMsg.

End Messages.

(** ** Inboxes (inbox.c) *)

Definition zmqBridgeMamaInboxImpl_getReplyHandle (inbox : option ZT.zmqInboxImpl) : option (list byte) :=
  ZT.ib_replyHandle <$> inbox.

Definition zmqBridgeMamaInboxImpl_onCreate (closure : option ZT.zmqInboxImpl) : () := ().

(** The callback that is called, with its arguments. *)
Definition zmqBridgeMamaInboxImpl_onDestroy (closure : option ZT.zmqInboxImpl)
    : option (ZT.handle * ZT.handle * ZT.handle) :=
  impl ← closure;
  cb ← ZT.ib_onDestroyed impl;
  Some (cb, ZT.ib_parent impl, ZT.ib_closure impl).

Definition zmqBridgeMamaInboxImpl_onError (closure : option ZT.zmqInboxImpl) (status : mama_status)
    : option (ZT.handle * mama_status * ZT.handle) :=
  impl ← closure;
  cb ← ZT.ib_errCB impl;
  Some (cb, status, ZT.ib_closure impl).

(** ** Subscriptions (subscription.c) *)

Definition zmqBridgeMamaSubscription_isValid (subscriber : option ZT.zmqSubscription) : Z :=
  match subscriber with None => 0%Z | Some impl => ZT.sub_isValid impl end.

Definition zmqBridgeMamaSubscription_hasWildcards (subscriber : option ZT.zmqSubscription) : Z :=
  match subscriber with None => 0%Z | Some impl => ZT.sub_isWildcard impl end.

Definition zmqBridgeMamaSubscription_isTportDisconnected (subscriber : option ZT.zmqSubscription) : Z :=
  match subscriber with None => 1%Z | Some impl => ZT.sub_isTportDisconnected impl end.

Definition zmqBridgeMamaSubscription_getPlatformError : mama_status := MAMA_STATUS_NOT_IMPLEMENTED.
Definition zmqBridgeMamaSubscription_setTopicClosure : mama_status := MAMA_STATUS_NOT_IMPLEMENTED.

Section Operations.

Context {T P L : Type} `{StrTable T ZT.ptr} `{EndpointPool P ZT.ptr} `{WList L ZT.ptr}.

Notation TC := (C (ZT.transport T P L) ZT.tobs).

Definition zmqBridgeMamaSubscription_muteCurrentTopic (subscriber : option ZT.ptr) : TC mama_status :=
  ZT.zmqBridgeMamaSubscription_mute subscriber.

(** The transport index is not used. *)
Definition zmqBridgeMamaInbox_create (argsOk mem : bool) (mamaQueue zmqQueue msgCB : ZT.handle)
    (errorCB onDestroyed : option ZT.handle) (closure parent : ZT.handle) : TC (mama_status * option ZT.ptr) :=
  ZT.zmqBridgeMamaInbox_createByIndex argsOk mem mamaQueue zmqQueue msgCB errorCB onDestroyed closure parent.

End Operations.

(** ** Not implemented (io.c, notimpl.c) *)

Definition zmqBridgeMamaIo_create : mama_status := MAMA_STATUS_NOT_IMPLEMENTED.
Definition zmqBridgeMamaIo_destroy : mama_status := MAMA_STATUS_NOT_IMPLEMENTED.
Definition zmqBridgeMamaIo_getDescriptor : mama_status := MAMA_STATUS_NOT_IMPLEMENTED.

Definition zmqBridgeMamaTransport_forceClientDisconnect : mama_status := MAMA_STATUS_NOT_IMPLEMENTED.
Definition zmqBridgeMamaTransport_findConnection : mama_status := MAMA_STATUS_NOT_IMPLEMENTED.
Definition zmqBridgeMamaTransport_getAllConnections : mama_status := MAMA_STATUS_NOT_IMPLEMENTED.
Definition zmqBridgeMamaTransport_getAllConnectionsForTopic : mama_status := MAMA_STATUS_NOT_IMPLEMENTED.
Definition zmqBridgeMamaTransport_requestConflation : mama_status := MAMA_STATUS_NOT_IMPLEMENTED.
Definition zmqBridgeMamaTransport_requestEndConflation : mama_status := MAMA_STATUS_NOT_IMPLEMENTED.
Definition zmqBridgeMamaTransport_getAllServerConnections : mama_status := MAMA_STATUS_NOT_IMPLEMENTED.
Definition zmqBridgeMamaTransport_freeAllServerConnections : mama_status := MAMA_STATUS_NOT_IMPLEMENTED.
Definition zmqBridgeMamaTransport_freeAllConnections : mama_status := MAMA_STATUS_NOT_IMPLEMENTED.
Definition zmqBridgeMamaTransport_sendMsgToConnection : mama_status := MAMA_STATUS_NOT_IMPLEMENTED.
Definition zmqBridgeMamaTransport_installConnectConflateMgr : mama_status := MAMA_STATUS_NOT_IMPLEMENTED.
Definition zmqBridgeMamaTransport_uninstallConnectConflateMgr : mama_status := MAMA_STATUS_NOT_IMPLEMENTED.
Definition zmqBridgeMamaTransport_startConnectionConflation : mama_status := MAMA_STATUS_NOT_IMPLEMENTED.
Definition zmqBridgeMamaTransport_getNativeTransportNamingCtx : mama_status := MAMA_STATUS_NOT_IMPLEMENTED.

(** The status and what is stored in the result. *)
Definition zmqBridgeMamaTransport_getNumLoadBalanceAttributes (name numLoadBalanceAttributes : bool)
    : mama_status * option Z :=
  if negb numLoadBalanceAttributes || negb name then (MAMA_STATUS_NULL_ARG, None) else (MAMA_STATUS_OK, Some 0%Z).

Definition zmqBridgeMamaTransport_getLoadBalanceSharedObjectName (loadBalanceSharedObjectName : bool)
    : mama_status * option (option (list byte)) :=
  if negb loadBalanceSharedObjectName then (MAMA_STATUS_NULL_ARG, None) else (MAMA_STATUS_NOT_IMPLEMENTED, Some None).

(** [true]: [TPORT_LB_SCHEME_STATIC] is stored. *)
Definition zmqBridgeMamaTransport_getLoadBalanceScheme (name scheme : bool) : mama_status * bool :=
  if negb scheme || negb name then (MAMA_STATUS_NULL_ARG, false) else (MAMA_STATUS_NOT_IMPLEMENTED, true).

Definition zmqBridgeMamaTransport_isConnectionIntercepted (result : bool) : mama_status * option Z :=
  if negb result then (MAMA_STATUS_NULL_ARG, None) else (MAMA_STATUS_NOT_IMPLEMENTED, Some 0%Z).

End Acc.
