(* ===== verification/Ere.v ===== *)
(** * Extended regular expressions (regcomp, regexec of the C library)

    The part of POSIX extended regular expressions the source generates: an
    optional anchor at either end, and characters, [.] and negated bracket
    expressions, each optionally repeated with [*] or [+].  [parse] is [None]
    for anything else. *)

From S2P Require Import Prelude CLib.

Module Ere.

(** ** Syntax *)

Inductive cset := Any | Chr (c : byte) | NotIn (l : list byte).
Inductive rep := One | Star | Plus.
Abbreviation item := (cset * rep)%type.

Record ere := mkEre { e_start : bool; e_items : list item; e_end : bool }.

Definition in_set (cs : cset) (c : byte) : bool :=
  match cs with
  | Any => true
  | Chr c' => bool_decide (c = c')
  | NotIn l => bool_decide (c ∉ l)
  end.

(** The characters that do not stand for themselves. *)
Definition special : list byte := lit "^.[]$()|*+?{}\".

Definition parse_rep (s : list byte) : rep * list byte :=
  match s with
  | c :: s' => if decide (c = x2a) then (Star, s') else if decide (c = x2b) then (Plus, s') else (One, s)
  | [] => (One, s)
  end.

(** [fuel]: the length of the text is enough. *)
Fixpoint parse_items (fuel : nat) (s : list byte) : option (list item * bool) :=
  match fuel with
  | 0 => None
  | S fuel' =>
      let next cs rest :=
        let '(r, rest') := parse_rep rest in
        '(its, e) ← parse_items fuel' rest';
        Some ((cs, r) :: its, e) in
      match s with
      | [] => Some ([], false)
      | c :: rest =>
          if decide (c = x24) then (if decide (rest = []) then Some ([], true) else None)
          else if decide (c = x2e) then next Any rest
          else if decide (c = x5b) then
            match rest with
            | x5e :: d :: x5d :: rest' => next (NotIn [d]) rest'
            | _ => None
            end
          else if decide (c ∈ special) then None
          else next (Chr c) rest
      end
  end.

Definition parse (s : list byte) : option ere :=
  match s with
  | c :: rest =>
      if decide (c = x5e) then '(its, e) ← parse_items (S (length rest)) rest; Some (mkEre true its e)
      else '(its, e) ← parse_items (S (length s)) s; Some (mkEre false its e)
  | [] => Some (mkEre false [] false)
  end.

(** ** Matching *)

Section Match.

Context (rest : list byte → bool) (cs : cset).

(** Any number of characters of the set, then the rest. *)
Fixpoint star (s : list byte) : bool :=
  rest s || match s with c :: s' => in_set cs c && star s' | [] => false end.

End Match.

Fixpoint match_items (its : list item) (final : bool) (s : list byte) : bool :=
  match its with
  | [] => negb final || bool_decide (s = [])
  | (cs, One) :: its' =>
      match s with c :: s' => in_set cs c && match_items its' final s' | [] => false end
  | (cs, Star) :: its' => star (match_items its' final) cs s
  | (cs, Plus) :: its' =>
      match s with c :: s' => in_set cs c && star (match_items its' final) cs s' | [] => false end
  end.

(** Without the anchor a match may start anywhere. *)
Fixpoint match_anywhere (its : list item) (final : bool) (s : list byte) : bool :=
  match_items its final s || match s with _ :: s' => match_anywhere its final s' | [] => false end.

Definition regexec (e : ere) (s : list byte) : bool :=
  if e_start e then match_items (e_items e) (e_end e) s else match_anywhere (e_items e) (e_end e) s.

(** ** Properties *)

Lemma star_spec rest cs s :
  star rest cs s = true ↔ ∃ w s', s = w ++ s' ∧ Forall (λ c, in_set cs c = true) w ∧ rest s' = true.
Proof.
  induction s as [|c s IH]; cbn [star].
  - rewrite orb_false_r. split.
    + intros H. by exists [], [].
    + intros (w & s' & E & _ & H). symmetry in E. apply app_eq_nil in E as [-> ->]. done.
  - rewrite orb_true_iff, andb_true_iff, IH. split.
    + intros [H|[Hc (w & s' & -> & Hw & H)]]; [by exists [], (c :: s)|]. exists (c :: w), s'. by repeat constructor.
    + intros (w & s' & E & Hw & H). destruct w as [|d w]; [cbn in E; subst; by left|].
      injection E as -> ->. apply Forall_cons in Hw as [Hd Hw]. right. split; [done|]. by exists w, s'.
Qed.

(** A literal prefix is compared character by character. *)
Lemma match_literal cs its final s :
  match_items (((λ c, (Chr c, One)) <$> cs) ++ its) final s = true
  ↔ ∃ s', s = cs ++ s' ∧ match_items its final s' = true.
Proof.
  revert s. induction cs as [|c cs IH]; intros s; cbn.
  - split; [by exists s|by intros (s' & -> & H)].
  - destruct s as [|d s]; [split; [done|by intros (? & ? & _)]|].
    rewrite andb_true_iff, IH, bool_decide_eq_true. split.
    + intros [-> (s' & -> & H)]. by exists s'.
    + intros (s' & [= -> ->] & H). eauto.
Qed.

End Ere.
