(* ===== verification/OzTopics.v ===== *)
(** * Hierarchical topics (src/examples/ozimpl.cpp)

    [ws2posix] turns a topic of the OZ interface, where [*] stands for a part
    between slashes and a trailing [/.] for everything below, into the
    regular expression a wildcard subscription of the bridge takes; the
    bridge cuts its zmq prefix out of this expression ([Subject]).
    [std::string] is a list of bytes; an exception is [None]. *)

From S2P Require Import Prelude CLib Subject Ere.
Import Subj.

Module Topics.

(** ** std::string *)

(** [find (c, pos)]: the offset of the first [c] at or after [pos]. *)
Fixpoint find_from (s : list byte) (c : byte) : option nat :=
  match s with
  | [] => None
  | b :: s' => if decide (b = c) then Some 0 else S <$> find_from s' c
  end.
Definition str_find (s : list byte) (c : byte) (pos : nat) : option nat :=
  Nat.add pos <$> find_from (drop pos s) c.

(** [rfind (p)]: the offset of the last [p]. *)
Fixpoint str_rfind (s p : list byte) : option nat :=
  match s with
  | [] => if is_prefix p [] then Some 0 else None
  | _ :: s' =>
      match str_rfind s' p with
      | Some n => Some (S n)
      | None => if is_prefix p s then Some 0 else None
      end
  end.

(** A position as a [size_t]; not found is [npos], the largest one. *)
Definition size_of (p : option nat) : Z := match p with Some n => Z.of_nat n | None => (2 ^ 64 - 1)%Z end.

(** [replace (pos, n, r)] throws [out_of_range] beyond the end. *)
Definition str_replace (s : list byte) (pos : Z) (n : nat) (r : list byte) : option (list byte) :=
  if decide (pos <= Z.of_nat (length s))%Z
  then Some (take (Z.to_nat pos) s ++ r ++ drop (Z.to_nat pos + n) s) else None.

(** ** ws2posix *)

Definition ANCHORED_WILD : list byte := lit "^[^_][^/]*".
Definition ANCHORED_ALL : list byte := lit "^[^_].*".

(** The loop that replaces every [*] from position [p] on; a replacement
    contains none, so as many rounds as characters are enough. *)
Fixpoint replace_stars (fuel : nat) (p : option nat) (regex : list byte) : list byte :=
  match fuel, p with
  | S fuel', Some n =>
      let regex' := take n regex ++ WILD ++ drop (n + 1) regex in
      replace_stars fuel' (str_find regex' x2a n) regex'
  | _, _ => regex
  end.

(** The first part: the start of the expression. *)
Definition start_regex (inTopic regex : list byte) : mama_status * nat * list byte :=
  match str_find inTopic x2a 0 with
  | Some 0 => (MAMA_STATUS_OK, length ANCHORED_WILD, ANCHORED_WILD ++ drop 1 inTopic)
  | Some _ => (MAMA_STATUS_OK, 0, x5e :: inTopic)
  | None => (MAMA_STATUS_INVALID_ARG, 0, regex ++ inTopic)
  end.

(** The last part: the super wildcard, or the anchor at the end. *)
Definition finish_regex (status : mama_status) (regex : list byte) : option (mama_status * list byte) :=
  let p := str_rfind regex (lit "/.") in
  let at_end := wrapu 64 (Z.of_nat (length regex) - 2) in
  if decide (size_of p = at_end) then
    if decide (p = Some 0) then Some (MAMA_STATUS_OK, ANCHORED_ALL)
    else
      r ← str_replace regex at_end 2 (lit ".*");
      Some (MAMA_STATUS_OK, match r with
                            | c :: _ => if decide (c ≠ x5e) then x5e :: r else r
                            | [] => x5e :: r
                            end)
  else Some (status, if decide (status = MAMA_STATUS_OK) then regex ++ [x24] else regex).

(** [regex] is the string the result is appended to. *)
Definition ws2posix (wsTopic regex : list byte) : option (mama_status * list byte) :=
  let '(status, q, regex) := start_regex wsTopic regex in
  finish_regex status (replace_stars (length regex) (str_find regex x2a q) regex).

(** ** The wildcard type of a subscriber *)

Inductive wcType := wcUnspecified | wcNone | wcPOSIX | wcWS.

#[export] Instance wcType_eq_dec : EqDecision wcType.
Proof. solve_decision. Defined.

(** [strpbrk (topic, chars)]: whether one of the characters occurs. *)
Definition guess_wcType (wc : wcType) (topic : list byte) : wcType :=
  if decide (wc = wcUnspecified) then
    if existsb (λ c, bool_decide (c ∈ lit ".^$*+[]")) topic then wcPOSIX else wc
  else wc.

Example ws1 : ws2posix (lit "a/*/b") [] = Some (MAMA_STATUS_OK, lit "^a/[^/]+/b$").
Proof. vm_compute. reflexivity. Qed.
Example ws2 : ws2posix (lit "*/b/*") [] = Some (MAMA_STATUS_OK, lit "^[^_][^/]*/b/[^/]+$").
Proof. vm_compute. reflexivity. Qed.
Example ws3 : ws2posix (lit "a/b/.") [] = Some (MAMA_STATUS_OK, lit "^a/b.*").
Proof. vm_compute. reflexivity. Qed.
Example ws4 : ws2posix (lit "/.") [] = Some (MAMA_STATUS_OK, lit "^[^_].*").
Proof. vm_compute. reflexivity. Qed.
Example ws5 : ws2posix (lit "a") [] = None.
Proof. vm_compute. reflexivity. Qed.
(** What [subscriber::start] gets, which passes the topic as both arguments. *)
Example ws6 : ws2posix (lit "a/b/.") (lit "a/b/.") = Some (MAMA_STATUS_OK, lit "^a/b/.a/b.*").
Proof. vm_compute. reflexivity. Qed.

(** ** The replacement of the wildcards *)

Definition subst_stars (s : list byte) : list byte := concat ((λ c, if decide (c = x2a) then WILD else [c]) <$> s).

Definition stars (s : list byte) : nat := length (filter (λ c, c = x2a) s).

Lemma find_from_spec s c :
  match find_from s c with
  | None => c ∉ s
  | Some k => ∃ l r, s = l ++ c :: r ∧ c ∉ l ∧ length l = k
  end.
Proof.
  induction s as [|b s IH]; cbn [find_from]; [set_solver|]. destruct (decide (b = c)) as [->|Hb].
  - exists [], s. split; [done|]. split; [set_solver|done].
  - destruct (find_from s c) as [k|]; cbn.
    + destruct IH as (l & r & -> & Hl & <-). exists (b :: l), r. split; [done|]. split; [set_solver|done].
    + set_solver.
Qed.

Lemma find_from_skip l s c : c ∉ l → find_from (l ++ s) c = Nat.add (length l) <$> find_from s c.
Proof.
  induction l as [|b l IH]; intros Hc; cbn; [by destruct (find_from s c)|].
  rewrite decide_False by set_solver. rewrite IH by set_solver. by destruct (find_from s c).
Qed.

Lemma str_find_skip a b s c : c ∉ b →
  str_find (a ++ b ++ s) c (length a) = str_find (a ++ b ++ s) c (length (a ++ b)).
Proof.
  intros Hb. unfold str_find. rewrite drop_app_length. rewrite app_assoc, drop_app_length.
  rewrite find_from_skip by done. rewrite length_app. destruct (find_from s c); cbn; f_equal; lia.
Qed.

Lemma subst_plain s : x2a ∉ s → subst_stars s = s.
Proof.
  induction s as [|b s IH]; [done|]. intros Hn. unfold subst_stars in *. cbn.
  rewrite decide_False by set_solver. cbn. f_equal. apply IH. set_solver.
Qed.

Lemma subst_app s1 s2 : subst_stars (s1 ++ s2) = subst_stars s1 ++ subst_stars s2.
Proof. unfold subst_stars. by rewrite fmap_app, concat_app. Qed.

Lemma wild_plain : x2a ∉ WILD.
Proof. by_decide. Qed.

(** The loop replaces every star after the position it starts from. *)
Lemma replace_stars_spec fuel : ∀ pre rest, stars rest ≤ fuel →
  replace_stars fuel (str_find (pre ++ rest) x2a (length pre)) (pre ++ rest) = pre ++ subst_stars rest.
Proof.
  induction fuel as [|fuel IH]; intros pre rest Hs; unfold str_find; rewrite drop_app_length;
    pose proof (find_from_spec rest x2a) as Hf; destruct (find_from rest x2a) as [k|] eqn:Ef; cbn;
    try (by rewrite subst_plain).
  - destruct Hf as (l & r & -> & Hl & _). unfold stars in Hs. rewrite filter_app, filter_cons_True, length_app in Hs by done. cbn in Hs. lia.
  - destruct Hf as (l & r & -> & Hl & <-).
    assert (take (length pre + length l) (pre ++ l ++ x2a :: r) = pre ++ l) as ->.
    { by rewrite app_assoc, take_app_length' by by rewrite length_app. }
    assert (drop (length pre + length l + 1) (pre ++ l ++ x2a :: r) = r) as ->.
    { rewrite app_assoc. rewrite (drop_app_ge _ _ _) by (rewrite length_app; lia). rewrite length_app.
      by replace (length pre + length l + 1 - (length pre + length l)) with 1 by lia. }
    replace (length pre + length l) with (length (pre ++ l)) by by rewrite length_app.
    change (x5b :: x5e :: x2f :: x5d :: x2b :: r) with (WILD ++ r).
    rewrite (str_find_skip (pre ++ l) WILD r x2a) by apply wild_plain.
    replace ((pre ++ l) ++ WILD ++ r) with (((pre ++ l) ++ WILD) ++ r) by by rewrite <-!app_assoc.
    rewrite IH.
    + rewrite subst_app. change (subst_stars (x2a :: r)) with (WILD ++ subst_stars r).
      rewrite (subst_plain l) by done. by rewrite <-!app_assoc.
    + unfold stars in *. rewrite filter_app, filter_cons_True, length_app in Hs by done. cbn in Hs. lia.
Qed.

Lemma stars_length s : stars s ≤ length s.
Proof. unfold stars. apply length_filter. Qed.

(** ** The end of the expression *)

Lemma rfind_none s : x2e ∉ s → str_rfind s (lit "/.") = None.
Proof.
  induction s as [|b s IH]; [done|]. intros Hn. cbn [str_rfind]. rewrite IH by set_solver.
  destruct s as [|c s]; cbn; [by case_decide|]. case_decide; [|done]. case_decide; [|done]. set_solver.
Qed.

Lemma rfind_end s : str_rfind (s ++ lit "/.") (lit "/.") = Some (length s).
Proof. induction s as [|b s IH]; [done|]. cbn [str_rfind app length]. by rewrite IH. Qed.

Lemma finish_plain status s :
  x2e ∉ s → 2 ≤ length s → (Z.of_nat (length s) < 2 ^ 63)%Z →
  finish_regex status s = Some (status, if decide (status = MAMA_STATUS_OK) then s ++ [x24] else s).
Proof.
  intros Hn Hl Hb. unfold finish_regex. rewrite rfind_none by done. cbv zeta.
  rewrite wrapu_id by lia. rewrite decide_False by (cbn [size_of]; lia). done.
Qed.

Lemma finish_super status s :
  s ≠ [] → (Z.of_nat (length s) < 2 ^ 63)%Z →
  finish_regex status (s ++ lit "/.")
  = Some (MAMA_STATUS_OK, if decide (head s = Some x5e) then s ++ lit ".*" else x5e :: s ++ lit ".*").
Proof.
  intros Hs Hb. unfold finish_regex. rewrite rfind_end. cbv zeta.
  assert (length (s ++ lit "/.") = length s + 2) as El by by rewrite length_app.
  rewrite El. replace (Z.of_nat (length s + 2) - 2)%Z with (Z.of_nat (length s)) by lia.
  rewrite wrapu_id by lia. rewrite decide_True by done.
  rewrite decide_False by (intros [= ?%nil_length_inv]; done).
  unfold str_replace. rewrite decide_True by lia. rewrite Nat2Z.id, take_app_length. rewrite drop_ge by lia.
  rewrite app_nil_r. cbn [mbind option_bind]. destruct s as [|c s]; [done|]. cbn.
  repeat case_decide; try done; congruence.
Qed.

(** ** What the topics mean *)

(** A topic: characters that stand for themselves, wildcards, and the super
    wildcard at the end. *)
Definition ws_render (ts : list token) (sup : bool) : list byte :=
  ((λ t, match t with tChar c => c | tWild => x2a end) <$> ts) ++ (if sup then lit "/." else []).

(** The subjects the expression of a topic should have: the super wildcard is
    any text, also one that goes on within the last part. *)
Inductive ws_match : list token → bool → list byte → Prop :=
  | ws_end : ws_match [] false []
  | ws_super s : ws_match [] true s
  | ws_char c ts sup s : ws_match ts sup s → ws_match (tChar c :: ts) sup (c :: s)
  | ws_wild w ts sup s : w ≠ [] → x2f ∉ w → ws_match ts sup s → ws_match (tWild :: ts) sup (w ++ s).

(** A topic that starts with a wildcard leaves out the subjects that start
    with an underscore; the first character may be any other. *)
Definition ws_matches (ts : list token) (sup : bool) (s : list byte) : Prop :=
  match ts with
  | [] => ∃ c s', s = c :: s' ∧ c ≠ x5f
  | tWild :: ts' => ∃ c w s', s = c :: w ++ s' ∧ c ≠ x5f ∧ x2f ∉ w ∧ ws_match ts' sup s'
  | _ => ws_match ts sup s
  end.

(** The expression of a topic. *)
Definition ws_regex (ts : list token) (sup : bool) : list byte :=
  match ts with
  | [] => ANCHORED_ALL
  | tWild :: ts' => ANCHORED_WILD ++ render_tokens ts' ++ (if sup then lit ".*" else [x24])
  | _ => x5e :: render_tokens ts ++ (if sup then lit ".*" else [x24])
  end.

(** What [subscriber::start] gets for a topic without a wildcard, because it
    passes the topic as both arguments. *)
Definition twice_regex (ts : list token) : list byte :=
  x5e :: render_tokens ts ++ lit "/." ++ render_tokens ts ++ lit ".*".

(** The subjects of a topic as in WS-Topic, where the super wildcard stands
    for the topic and everything below it; a wildcard at the start leaves out
    the subjects that start with an underscore. *)
Definition topic_matches (ts : list token) (sup : bool) (s : list byte) : Prop :=
  (head ts = Some tWild → head s ≠ Some x5f)
  ∧ ∃ m r, s = m ++ r ∧ ws_match ts false m ∧ (r = [] ∨ sup = true ∧ head r = Some x2f).


Lemma token_char c : token_ok (tChar c) → c ≠ x2a ∧ c ≠ x2e ∧ c ≠ x5e ∧ c ≠ x24 ∧ c ≠ x5b ∧ c ≠ x2b.
Proof. intros H. split_and!; intros ->; apply H; by_decide. Qed.

Lemma subst_render ts : Forall token_ok ts → subst_stars (ws_render ts false) = render_tokens ts.
Proof.
  unfold ws_render. rewrite app_nil_r. induction 1 as [|t ts Ht Hts IH]; [done|].
  destruct t as [c|]; unfold subst_stars in *; cbn -[WILD].
  - destruct (token_char c Ht) as (? & _). rewrite decide_False by done. cbn. by f_equal.
  - by f_equal.
Qed.

Lemma render_no_dot ts : Forall token_ok ts → x2e ∉ render_tokens ts.
Proof.
  induction 1 as [|t ts Ht Hts IH]; [set_solver|]. destruct t as [c|]; cbn.
  - destruct (token_char c Ht) as (_ & ? & _). set_solver.
  - set_solver by eauto.
Qed.

Lemma find_render ts : Forall token_ok ts → has_wild ts = true → ∃ n, find_from (ws_render ts false) x2a = Some n
  ∧ (n = 0 ↔ head ts = Some tWild).
Proof.
  unfold ws_render. rewrite app_nil_r. induction 1 as [|t ts Ht Hts IH]; [done|]. destruct t as [c|]; cbn.
  - intros (n & E & _)%IH. destruct (token_char c Ht) as (? & _). rewrite decide_False by done. rewrite E.
    exists (S n). by split.
  - exists 0. by split.
Qed.

Lemma no_star ts : Forall token_ok ts → has_wild ts = false → x2a ∉ ws_render ts false.
Proof.
  unfold ws_render. rewrite app_nil_r. induction 1 as [|t ts Ht Hts IH]; [set_solver|]. destruct t as [c|]; [|done]. cbn.
  intros Hw. destruct (token_char c Ht) as (? & _). specialize (IH Hw). set_solver.
Qed.

Lemma render_plain ts : has_wild ts = false → ws_render ts false = render_tokens ts.
Proof.
  unfold ws_render. rewrite app_nil_r. induction ts as [|[c|] ts IH]; cbn; [done| |done]. intros. f_equal. auto.
Qed.

Lemma render_super ts : ws_render ts true = ws_render ts false ++ lit "/.".
Proof. unfold ws_render. by rewrite app_nil_r. Qed.

Lemma replace_all pre rest n : length (pre ++ rest) ≤ n →
  replace_stars n (str_find (pre ++ rest) x2a (length pre)) (pre ++ rest) = pre ++ subst_stars rest.
Proof.
  intros Hn. apply replace_stars_spec. pose proof (stars_length rest). rewrite length_app in Hn. lia.
Qed.

Lemma render_not_nil ts : ts ≠ [] → render_tokens ts ≠ [].
Proof. by destruct ts as [|[] ?]. Qed.

Lemma subst_ws ts sup : Forall token_ok ts →
  subst_stars (ws_render ts sup) = render_tokens ts ++ (if sup then lit "/." else []).
Proof.
  intros Hts. destruct sup; [|by rewrite subst_render, app_nil_r]. by rewrite render_super, subst_app, subst_render.
Qed.

(** The loop on the three kinds of starts. *)
Lemma finish_either (status : mama_status) pre ts (sup : bool) :
  status = MAMA_STATUS_OK → Forall token_ok ts → x2e ∉ pre → head pre = Some x5e → (ts ≠ [] ∨ 2 ≤ length pre) →
  (Z.of_nat (length (pre ++ render_tokens ts)) < 2 ^ 63)%Z →
  finish_regex status (pre ++ render_tokens ts ++ (if sup then lit "/." else []))
  = Some (MAMA_STATUS_OK, pre ++ render_tokens ts ++ (if sup then lit ".*" else [x24])).
Proof.
  intros -> Hts Hd Hh Hl Hb.
  assert (2 ≤ length (pre ++ render_tokens ts)) as Hlen.
  { rewrite length_app. destruct pre as [|c pre]; [done|]. cbn [length].
    destruct Hl as [Hl|Hl]; [|cbn in Hl; lia]. apply render_not_nil in Hl. destruct (render_tokens ts); cbn; [done|lia]. }
  destruct sup.
  - rewrite app_assoc, finish_super; [|by destruct pre|done]. rewrite decide_True by by destruct pre.
    by rewrite <-app_assoc.
  - rewrite app_nil_r, finish_plain; [|by pose proof (render_no_dot ts Hts); set_solver|done|done].
    rewrite decide_True by done. by rewrite <-app_assoc.
Qed.

Lemma find_from_app s r c n : find_from s c = Some n → find_from (s ++ r) c = Some n.
Proof.
  revert n. induction s as [|b s IH]; intros n; cbn; [done|]. case_decide; [done|].
  destruct (find_from s c) as [k|]; [|done]. by rewrite (IH k).
Qed.

Lemma find_from_none s c : c ∉ s → find_from s c = None.
Proof.
  intros Hc. pose proof (find_from_spec s c) as Hf. destruct (find_from s c); [|done].
  destruct Hf as (l & r & -> & _). set_solver.
Qed.

(** With a wildcard, what the result is appended to is dropped. *)
Lemma ws2posix_wild ts sup regex :
  Forall token_ok ts → has_wild ts = true →
  (Z.of_nat (length (ANCHORED_WILD ++ render_tokens ts)) < 2 ^ 63)%Z →
  ws2posix (ws_render ts sup) regex = Some (MAMA_STATUS_OK, ws_regex ts sup).
Proof.
  intros Hts Ew Hb. rewrite length_app in Hb. change (length ANCHORED_WILD) with 10 in Hb. unfold ws2posix, start_regex.
  - destruct (find_render ts Hts Ew) as (n & E & Hn).
    assert (str_find (ws_render ts sup) x2a 0 = Some n) as ->.
    { unfold str_find. rewrite drop_0. destruct sup; [|by rewrite E].
      by rewrite render_super, (find_from_app _ _ _ n E). }
    destruct n as [|n].
    + destruct ts as [|[c|] ts]; [done|by pose proof (proj1 Hn eq_refl)|].
      apply Forall_cons in Hts as [_ Hts]. change (drop 1 (ws_render (tWild :: ts) sup)) with (ws_render ts sup).
      rewrite replace_all by done. rewrite subst_ws by done.
      apply finish_either; [done|done|by_decide|done|right; cbn; lia|]. rewrite length_app. cbn in *. lia.
    + destruct ts as [|[c|] ts]; [done| |by pose proof (proj2 Hn eq_refl)].
      change (x5e :: ws_render (tChar c :: ts) sup) with ([] ++ (x5e :: ws_render (tChar c :: ts) sup)).
      rewrite (replace_all [] _ _) by done. cbn [app].
      change (x5e :: ws_render (tChar c :: ts) sup) with ([x5e] ++ ws_render (tChar c :: ts) sup).
      rewrite subst_app, subst_ws by done.
      apply (finish_either MAMA_STATUS_OK [x5e]); [done|done|by_decide|done|by left|]. rewrite length_app in *. cbn in *. lia.
Qed.

(** Without one, the topic is appended to what is there. *)
Lemma ws2posix_super ts :
  Forall token_ok ts → has_wild ts = false → (Z.of_nat (length (ANCHORED_WILD ++ render_tokens ts)) < 2 ^ 62)%Z →
  ws2posix (ws_render ts true) (ws_render ts true) = Some (MAMA_STATUS_OK, twice_regex ts).
Proof.
  intros Hts Ew Hb. rewrite length_app in Hb. change (length ANCHORED_WILD) with 10 in Hb.
  unfold ws2posix, start_regex. rewrite !render_super.
  pose proof (no_star ts Hts Ew) as Hns. rewrite render_plain in * by done.
  set (l := render_tokens ts) in *. assert (x2a ∉ l ++ lit "/.") as Hs1.
  { intros [?|Hin]%elem_of_app; [done|]. revert Hin. by_decide. }
  assert (x2a ∉ (l ++ lit "/.") ++ l ++ lit "/.") as Hs2 by (intros [?|?]%elem_of_app; done).
  unfold str_find at 1. rewrite drop_0, find_from_none by done. cbn [fmap option_fmap option_map].
  pose proof (replace_all [] ((l ++ lit "/.") ++ l ++ lit "/.") _ (Nat.le_refl _)) as Hr. cbn [app length] in Hr. rewrite Hr.
  rewrite subst_plain by done. rewrite app_assoc, finish_super.
  - rewrite decide_False; [unfold twice_regex; fold l; by rewrite <-!app_assoc|].
    unfold l. destruct Hts as [|t ts' Ht _]; [done|]. destruct t as [c|]; [|done]. cbn.
    destruct (token_char c Ht) as (_ & _ & ? & _). congruence.
  - by destruct l.
  - rewrite !length_app. cbn. lia.
Qed.

(** ** The language of the expression *)

Definition items_of (ts : list token) : list Ere.item :=
  (λ t, match t with tChar c => (Ere.Chr c, Ere.One) | tWild => (Ere.NotIn [x2f], Ere.Plus) end) <$> ts.

(** The tail does not start with a repetition. *)
Definition no_rep (s : list byte) : Prop := head s ≠ Some x2a ∧ head s ≠ Some x2b.

Lemma parse_rep_one s : no_rep s → Ere.parse_rep s = (Ere.One, s).
Proof.
  intros [H1 H2]. destruct s as [|c s]; [done|]. cbn. cbn in H1, H2.
  rewrite !decide_False by congruence. done.
Qed.

Lemma no_rep_render ts tl : Forall token_ok ts → no_rep tl → no_rep (render_tokens ts ++ tl).
Proof.
  intros Hts Htl. destruct Hts as [|t ts Ht _]; [done|]. destruct t as [c|]; [|done].
  destruct (token_char c Ht) as (? & _ & _ & _ & _ & ?). by split; cbn; intros [= ->].
Qed.

Lemma parse_char f c rest : token_ok (tChar c) → no_rep rest →
  Ere.parse_items (S f) (c :: rest)
  = match Ere.parse_items f rest with Some (its, e) => Some ((Ere.Chr c, Ere.One) :: its, e) | None => None end.
Proof.
  intros Hc Hr. destruct (token_char c Hc) as (_ & ? & _ & ? & ? & _). cbn [Ere.parse_items].
  rewrite !decide_False by done. by rewrite parse_rep_one.
Qed.

Lemma parse_wild f rest :
  Ere.parse_items (S f) (WILD ++ rest)
  = match Ere.parse_items f rest with
    | Some (its, e) => Some ((Ere.NotIn [x2f], Ere.Plus) :: its, e)
    | None => None
    end.
Proof. reflexivity. Qed.

Lemma parse_render ts tl its e :
  Forall token_ok ts → no_rep tl → (∀ f, length tl < f → Ere.parse_items f tl = Some (its, e)) →
  ∀ f, length (render_tokens ts ++ tl) < f →
  Ere.parse_items f (render_tokens ts ++ tl) = Some (items_of ts ++ its, e).
Proof.
  intros Hts Htl Hp. induction Hts as [|t ts Ht Hts IH]; [exact Hp|]. intros f Hf.
  destruct f as [|f]; [lia|]. destruct t as [c|]; cbn [render_tokens] in Hf |- *.
  - cbn [app]. rewrite parse_char, IH; [done|cbn in Hf; lia|done|by apply no_rep_render].
  - rewrite <-app_assoc in *. rewrite parse_wild, IH; [done|]. rewrite length_app in Hf. cbn in Hf. lia.
Qed.

(** The expression matches what its tokens say. *)
Lemma match_ws ts (sup : bool) s :
  Ere.match_items (items_of ts ++ (if sup then [(Ere.Any, Ere.Star)] else [])) (negb sup) s = true ↔ ws_match ts sup s.
Proof.
  revert s. induction ts as [|[c|] ts IH]; intros s; cbn [items_of fmap list_fmap app].
  - destruct sup; cbn.
    + split; [intros _; apply ws_super|intros _]. apply Ere.star_spec. exists [], s. by repeat split.
    + rewrite bool_decide_eq_true. split; [intros ->; apply ws_end|by inversion 1].
  - cbn. destruct s as [|d s]; [split; [done|by inversion 1]|].
    rewrite andb_true_iff, bool_decide_eq_true. unfold items_of in IH. rewrite IH. split.
    + intros [-> H]. by apply ws_char.
    + by inversion 1.
  - cbn [Ere.match_items]. split.
    + destruct s as [|d s]; [done|]. rewrite andb_true_iff, Ere.star_spec.
      intros [Hd (w & s' & -> & Hw & H)]. rewrite app_comm_cons. apply ws_wild; [done| |by apply IH].
      cbn in Hd. apply bool_decide_eq_true in Hd. rewrite Forall_forall in Hw. intros [Heq|Hin]%elem_of_cons; [set_solver|].
      specialize (Hw _ Hin). cbn in Hw. apply bool_decide_eq_true in Hw. set_solver.
    + inversion 1 as [| | |w ts' sup' s' Hw Hn Hm]; subst. destruct w as [|d w]; [done|]. cbn [app].
      rewrite andb_true_iff, Ere.star_spec. split; [cbn; apply bool_decide_eq_true; set_solver|].
      exists w, s'. split; [done|]. split; [|by apply IH]. apply Forall_forall. intros c Hc. cbn.
      apply bool_decide_eq_true. set_solver.
Qed.

Lemma parse_tail (sup : bool) f :
  length (if sup then lit ".*" else [x24]) < f →
  Ere.parse_items f (if sup then lit ".*" else [x24])
  = Some (if sup then [(Ere.Any, Ere.Star)] else [], negb sup).
Proof. destruct sup; cbn; intros Hf; (destruct f as [|[|f]]; [lia|lia|done]) || (destruct f as [|f]; [lia|done]). Qed.

(** The expression of a topic that starts with a wildcard. *)
Lemma parse_lead rest :
  Ere.parse (ANCHORED_WILD ++ rest)
  = match Ere.parse_items (8 + length rest) rest with
    | Some (its, e) => Some (Ere.mkEre true ((Ere.NotIn [x5f], Ere.One) :: (Ere.NotIn [x2f], Ere.Star) :: its) e)
    | None => None
    end.
Proof.
  change (Ere.parse (ANCHORED_WILD ++ rest)) with
    ('(its, e) ← ('(its, e) ← ('(its, e) ← Ere.parse_items (8 + length rest) rest;
       Some ((Ere.NotIn [x2f], Ere.Star) :: its, e)); Some ((Ere.NotIn [x5f], Ere.One) :: its, e));
     Some (Ere.mkEre true its e)).
  by destruct (Ere.parse_items (8 + length rest) rest) as [[its e]|].
Qed.

(** The expression of a topic has the language of the topic. *)
Lemma ws_regex_language ts sup :
  Forall token_ok ts →
  ∃ e, Ere.parse (ws_regex ts sup) = Some e ∧ ∀ s, Ere.regexec e s = true ↔ ws_matches ts sup s.
Proof.
  intros Hts.
  set (tl := if sup then [(Ere.Any, Ere.Star)] else []).
  assert (∀ ts f, Forall token_ok ts → length (render_tokens ts ++ (if sup then lit ".*" else [x24])) < f →
    Ere.parse_items f (render_tokens ts ++ (if sup then lit ".*" else [x24])) = Some (items_of ts ++ tl, negb sup)) as Hp.
  { intros ts' f Hts' Hf. apply parse_render; [done|by destruct sup| |done]. intros f' Hf'. by apply parse_tail. }
  destruct ts as [|[c|] ts].
  - exists (Ere.mkEre true [(Ere.NotIn [x5f], Ere.One); (Ere.Any, Ere.Star)] false).
    split; [done|]. intros s. cbn. destruct s as [|c s]; [split; [done|]|].
    + by intros (c & s' & ? & _).
    + rewrite andb_true_iff, bool_decide_eq_true, Ere.star_spec. split.
      * intros [Hc _]. exists c, s. set_solver.
      * intros (c' & s' & [= -> ->] & Hc). split; [set_solver|]. exists [], s'. by repeat split.
  - exists (Ere.mkEre true (items_of (tChar c :: ts) ++ tl) (negb sup)). split.
    + unfold ws_regex, Ere.parse. rewrite decide_True by done. rewrite Hp; [done|done|lia].
    + intros s. apply match_ws.
  - apply Forall_cons in Hts as Hts'. destruct Hts' as [_ Hts'].
    exists (Ere.mkEre true ((Ere.NotIn [x5f], Ere.One) :: (Ere.NotIn [x2f], Ere.Star) :: items_of ts ++ tl) (negb sup)).
    split.
    + unfold ws_regex. rewrite parse_lead, Hp; [done|done|lia].
    + intros s. cbn [Ere.regexec Ere.e_start Ere.e_items Ere.e_end Ere.match_items ws_matches].
      destruct s as [|c s]; [split; [done|by intros (? & ? & ? & ? & _)]|].
      rewrite andb_true_iff, Ere.star_spec. cbn [Ere.in_set]. rewrite bool_decide_eq_true. split.
      * intros [Hc (w & s' & -> & Hs & Hm)]. exists c, w, s'. split; [done|]. split; [set_solver|].
        split; [|by apply match_ws]. intros Hin. rewrite Forall_forall in Hs. specialize (Hs _ Hin).
        apply bool_decide_eq_true in Hs. set_solver.
      * intros (c' & w & s' & [= <- ->] & Hc & Hs & Hm). split; [set_solver|]. exists w, s'. split; [done|].
        split; [|by apply match_ws]. apply Forall_forall. intros d Hd. apply bool_decide_eq_true. set_solver.
Qed.

Lemma items_plain ts : has_wild ts = false → items_of ts = (λ c, (Ere.Chr c, Ere.One)) <$> render_tokens ts.
Proof. induction ts as [|[c|] ts IH]; [done| |done]. intros Hw. cbn. f_equal. by apply IH. Qed.

Lemma parse_dot f rest : no_rep rest →
  Ere.parse_items (S f) (x2e :: rest)
  = match Ere.parse_items f rest with Some (its, e) => Some ((Ere.Any, Ere.One) :: its, e) | None => None end.
Proof. intros Hr. cbn [Ere.parse_items]. by rewrite parse_rep_one. Qed.

(** The expression of a topic without a wildcard. *)
Lemma twice_language ts :
  Forall token_ok ts → has_wild ts = false →
  ∃ e, Ere.parse (twice_regex ts) = Some e
    ∧ ∀ s, Ere.regexec e s = true ↔ ∃ c r, s = render_tokens ts ++ x2f :: c :: render_tokens ts ++ r.
Proof.
  intros Hts Hw. pose proof (items_plain ts Hw) as Hit. set (l := render_tokens ts) in *.
  set (its := items_of ts ++ (Ere.Chr x2f, Ere.One) :: (Ere.Any, Ere.One) :: items_of ts ++ [(Ere.Any, Ere.Star)]).
  exists (Ere.mkEre true its false). split.
  - unfold twice_regex, Ere.parse. fold l. rewrite decide_True by done. unfold l at 2.
    rewrite (parse_render ts (lit "/." ++ l ++ lit ".*") ((Ere.Chr x2f, Ere.One) :: (Ere.Any, Ere.One) :: items_of ts ++ [(Ere.Any, Ere.Star)]) false);
      [done|done|done| |apply Nat.lt_succ_diag_r].
    intros f Hf. destruct f as [|[|f]]; [lia|cbn in Hf; lia|]. cbn in Hf.
    change (lit "/." ++ l ++ lit ".*") with (x2f :: x2e :: l ++ lit ".*").
    rewrite parse_char by by_decide. rewrite parse_dot by by apply no_rep_render.
    unfold l. rewrite (parse_render ts (lit ".*") [(Ere.Any, Ere.Star)] false); [done|done|done| |cbn; fold l; lia].
    intros f' Hf'. by apply (parse_tail true).
  - intros s. cbn [Ere.regexec Ere.e_start Ere.e_items Ere.e_end]. unfold its. rewrite Hit, Ere.match_literal.
    split.
    + intros (s' & -> & Hm). cbn [Ere.match_items] in Hm. destruct s' as [|d [|c s']]; [done|by rewrite andb_false_r in Hm|].
      apply andb_true_iff in Hm as [Hd Hm]. cbn [Ere.in_set andb] in Hd, Hm. apply bool_decide_eq_true in Hd as ->.
      apply Ere.match_literal in Hm as (r & -> & _). by exists c, r.
    + intros (c & r & ->). exists (x2f :: c :: l ++ r). split; [done|]. cbn [Ere.match_items Ere.in_set andb].
      rewrite bool_decide_true by done. cbn [andb]. apply Ere.match_literal. exists r. split; [done|].
      cbn [Ere.match_items]. apply Ere.star_spec. exists [], r. by repeat split.
Qed.

(** ** The language of the topic *)

Lemma ws_super_split ts s : ws_match ts true s ↔ ∃ m r, s = m ++ r ∧ ws_match ts false m.
Proof.
  split.
  - remember true as sup. induction 1 as [|s|c ts sup s _ IH|w ts sup s Hw Hn _ IH]; [done|..].
    + exists [], s. split; [done|constructor].
    + destruct (IH Heqsup) as (m & r & -> & Hm). exists (c :: m), r. split; [done|by constructor].
    + destruct (IH Heqsup) as (m & r & -> & Hm). exists (w ++ m), r. split; [by rewrite app_assoc|by constructor].
  - intros (m & r & -> & Hm). remember false as sup.
    induction Hm as [|s|c ts sup s _ IH|w ts sup s Hw Hn _ IH]; subst; cbn [app]; [constructor|done|constructor; auto|].
    rewrite <-app_assoc. constructor; auto.
Qed.

(** The part of a text before its first slash. *)
Lemma slash_split (s : list byte) : ∃ w r, s = w ++ r ∧ x2f ∉ w ∧ (r = [] ∨ head r = Some x2f).
Proof.
  induction s as [|c s (w & r & -> & Hw & Hr)]; [exists [], []; split_and!; [done|set_solver|by left]|].
  destruct (decide (c = x2f)) as [->|Hc].
  - exists [], (x2f :: w ++ r). split_and!; [done|set_solver|by right].
  - exists (c :: w), r. split_and!; [done|set_solver|done].
Qed.

(** After a last wildcard, the rest of the part belongs to it. *)
Lemma ws_super_wild ts s : last ts = Some tWild → ws_match ts true s →
  ∃ m r, s = m ++ r ∧ ws_match ts false m ∧ (r = [] ∨ head r = Some x2f).
Proof.
  intros Hl Hm. remember true as sup. induction Hm as [|s|c ts sup s _ IH|w ts sup s Hw Hn Hm IH]; subst; [done..| |].
  - destruct ts as [|t ts]; [done|]. destruct (IH Hl eq_refl) as (m & r & -> & Hm & Hr).
    exists (c :: m), r. split_and!; [done|by constructor|done].
  - destruct ts as [|t ts].
    + destruct (slash_split s) as (w' & r & -> & Hw' & Hr). exists ((w ++ w') ++ []), r.
      split_and!; [by rewrite app_nil_r, app_assoc| |done]. constructor; [by destruct w|set_solver|constructor].
    + destruct (IH Hl eq_refl) as (m & r & -> & Hm' & Hr).
      exists (w ++ m), r. split_and!; [by rewrite app_assoc|by constructor|done].
Qed.

(** The expression has all subjects of the topic; and no others but those
    that start with a slash, and, when the last part before the super wildcard
    ends with a character, those that go on within that part. *)
Lemma topic_ws ts sup s : ts ≠ [] → topic_matches ts sup s → ws_matches ts sup s.
Proof.
  intros Hts (Hh & m & r & -> & Hm & Hr).
  assert (∀ ts m, ws_match ts false m → ws_match ts sup (m ++ r)) as Happ.
  { clear -Hr. intros ts m Hm. destruct sup; [apply ws_super_split; eauto|]. destruct Hr as [->|[? _]]; [|done].
    by rewrite app_nil_r. }
  destruct ts as [|[c|] ts]; [done|by apply Happ|]. inversion Hm as [| | |w ts' sup' m' Hw Hn Hm']; subst.
  destruct w as [|c w]; [done|]. specialize (Hh eq_refl). cbn in Hh. exists c, w, (m' ++ r).
  split_and!; [by rewrite <-app_comm_cons, app_assoc|congruence|set_solver|by apply Happ].
Qed.

Lemma ws_topic ts sup s : ts ≠ [] →
  ws_matches ts sup s → head s ≠ Some x2f → sup = false ∨ last ts = Some tWild → topic_matches ts sup s.
Proof.
  intros Hts Hm Hs Hor.
  assert (∀ ts s, (sup = false ∨ last ts = Some tWild) → ws_match ts sup s →
    ∃ m r, s = m ++ r ∧ ws_match ts false m ∧ (r = [] ∨ sup = true ∧ head r = Some x2f)) as Hsplit.
  { clear. intros ts s Hor Hm. destruct sup.
    - destruct Hor as [?|Hl]; [done|]. destruct (ws_super_wild ts s Hl Hm) as (m & r & -> & Hm' & Hr). naive_solver.
    - exists s, []. rewrite app_nil_r. auto. }
  destruct ts as [|[c|] ts]; [done|split; [done|by apply Hsplit]|].
  destruct Hm as (c & w & s' & -> & Hc & Hw & Hm). cbn in Hs. split; [cbn; congruence|].
  assert (c ≠ x2f) as Hc' by congruence. destruct ts as [|t ts].
  - destruct sup.
    + destruct (slash_split s') as (w' & r & -> & Hw' & Hr). exists ((c :: w ++ w') ++ []), r.
      split_and!; [by rewrite app_nil_r, <-app_comm_cons, app_assoc|constructor; [done|set_solver|constructor]|naive_solver].
    + inversion Hm; subst. exists ((c :: w) ++ []), []. split_and!; [by rewrite !app_nil_r|constructor; [done|set_solver|constructor]|by left].
  - destruct (Hsplit (t :: ts) s') as (m & r & -> & Hm' & Hr); [exact Hor|done|].
    exists ((c :: w) ++ m), r. split_and!; [by rewrite <-app_assoc|constructor; [done|set_solver|done]|done].
Qed.

(** C21: hierarchical topics, as [subscriber::start] converts them (with the
    topic as both arguments), for topics whose characters, but for the
    wildcards, stand for themselves in an expression, and of any length that a
    string has.  The expression is one the C library accepts.
    For a topic with a wildcard it matches every subject of the topic as in
    WS-Topic, and no others but these: subjects that start with a slash, when
    a wildcard comes first, and subjects that go on within the last part, when
    that part ends with a character before the super wildcard.  For a super
    wildcard alone it does not describe the topic: it matches the subjects
    that repeat the topic after a slash and one more character. *)
Theorem ws2posix_matches ts sup :
  Forall token_ok ts → has_wild ts = true ∨ sup = true →
  (Z.of_nat (length (ANCHORED_WILD ++ render_tokens ts)) < 2 ^ 62)%Z →
  ∃ regex e, ws2posix (ws_render ts sup) (ws_render ts sup) = Some (MAMA_STATUS_OK, regex) ∧ Ere.parse regex = Some e
    ∧ (has_wild ts = true → ∀ s,
         (Ere.regexec e s = true ↔ ws_matches ts sup s)
         ∧ (topic_matches ts sup s → Ere.regexec e s = true)
         ∧ (Ere.regexec e s = true → head s ≠ Some x2f → sup = false ∨ last ts = Some tWild → topic_matches ts sup s))
    ∧ (has_wild ts = false → ∀ s,
         Ere.regexec e s = true ↔ ∃ c r, s = render_tokens ts ++ x2f :: c :: render_tokens ts ++ r).
Proof.
  intros Hts Hw Hb. destruct (has_wild ts) eqn:Ew.
  - destruct (ws_regex_language ts sup Hts) as (e & He & Hm). exists (ws_regex ts sup), e.
    split; [apply ws2posix_wild; [done|done|lia]|]. split; [done|]. split; [|done]. intros _ s.
    assert (ts ≠ []) as Hn by by destruct ts. rewrite Hm. split_and!; [done|by apply topic_ws|by apply ws_topic].
  - destruct Hw as [?| ->]; [done|]. destruct (twice_language ts Hts Ew) as (e & He & Hm). exists (twice_regex ts), e.
    split; [by apply ws2posix_super|]. split; [done|]. by split.
Qed.

(** What goes on within the last part: [a/*/b/.] takes in [a/x/bc]. *)
Example ws_overmatch :
  ∃ regex e, ws2posix (lit "a/*/b/.") (lit "a/*/b/.") = Some (MAMA_STATUS_OK, regex) ∧ Ere.parse regex = Some e
    ∧ Ere.regexec e (lit "a/x/bc") = true.
Proof. do 2 eexists. split; [vm_compute; reflexivity|]. split; [vm_compute; reflexivity|]. vm_compute. reflexivity. Qed.

(** ** With the prefix of the bridge *)

Lemma ws_literal ts sup s : ws_match ts sup s → is_prefix (literal_prefix ts) s = true.
Proof. induction 1; cbn; try done. by rewrite decide_True. Qed.

(** The first wildcard of the text is that of the tokens, whatever follows
    that has none. *)
Lemma strstr_wild ts tl :
  Forall token_ok ts → has_wild ts = true → strstr (render_tokens ts ++ tl) WILD = Some (length (literal_prefix ts)).
Proof.
  induction 1 as [|t ts Ht Hts IH]; [done|]. destruct t as [c|]; cbn [has_wild].
  - intros Hw. specialize (IH Hw). cbn [render_tokens app literal_prefix length strstr].
    destruct (token_char c Ht) as (_ & _ & _ & _ & Hc & _).
    assert (is_prefix WILD (c :: render_tokens ts ++ tl) = false) as ->.
    { cbn. by destruct (decide (x5b = c)). }
    by rewrite IH.
  - intros _. done.
Qed.

Lemma strstr_none s : x2b ∉ s → strstr s WILD = None.
Proof.
  intros Hn. destruct (strstr s WILD) as [n|] eqn:E; [|done]. exfalso. apply strstr_Some in E as (l & r & -> & _).
  apply Hn, elem_of_app. right. apply elem_of_app. left. by_decide.
Qed.

Lemma no_plus ts (sup : bool) :
  Forall token_ok ts → has_wild ts = false → x2b ∉ render_tokens ts ++ (if sup then lit ".*" else [x24]).
Proof.
  intros Hts Hw. intros [Hin|Hin]%elem_of_app; [|destruct sup; revert Hin; by_decide]. revert Hin.
  induction Hts as [|t ts Ht Hts IH]; [set_solver|]. destruct t as [c|]; [|done]. cbn.
  destruct (token_char c Ht) as (_ & _ & _ & _ & _ & ?). specialize (IH Hw). set_solver.
Qed.

Lemma is_prefix_self p r : is_prefix p (p ++ r) = true.
Proof. apply is_prefix_app. by exists r. Qed.

Lemma is_prefix_take p s n : length p ≤ n → is_prefix p s = true → is_prefix p (take n s) = true.
Proof.
  intros Hn Hp. apply is_prefix_app in Hp as [r ->]. rewrite take_app_ge by done. apply is_prefix_self.
Qed.

(** Without another wildcard and but for a super wildcard, the expression is
    its own prefix. *)
Lemma prefix_whole pre r :
  strstr (pre ++ r) WILD = None → 2 ≤ length r →
  ∃ q, wildcard_prefix (x5e :: pre ++ r) = Some q ∧ is_prefix pre q = true.
Proof.
  intros Hs Hr. unfold wildcard_prefix. rewrite decide_True by done. cbv zeta. rewrite Hs.
  rewrite decide_False by (cbn [length]; rewrite length_app; lia). case_decide.
  - eexists. split; [done|]. apply is_prefix_take; [rewrite length_app; lia|]. apply is_prefix_self.
  - eexists. split; [done|]. apply is_prefix_self.
Qed.

(** The prefix for a topic that starts with a wildcard is a part of the text
    of the expression. *)
Definition LEAD : list byte := lit "[^_][^/]*".

Lemma strstr_lead r : strstr (LEAD ++ r) WILD = Nat.add 9 <$> strstr r WILD.
Proof. unfold LEAD, WILD. cbn. by destruct (strstr r _). Qed.

Lemma prefix_lead r : last r = Some x24 ∨ 2 ≤ length r →
  ∃ pre, wildcard_prefix (ANCHORED_WILD ++ r) = Some pre ∧ is_prefix LEAD pre = true.
Proof.
  intros Hr. change (ANCHORED_WILD ++ r) with (x5e :: (LEAD ++ r)). unfold wildcard_prefix.
  rewrite decide_True by done. cbv zeta. rewrite strstr_lead. destruct (strstr r WILD) as [n|]; cbn [fmap option_fmap option_map].
  { eexists. split; [done|]. apply is_prefix_take; [cbn; lia|]. apply is_prefix_self. }
  rewrite decide_False by (cbn; lia). case_decide as Hs.
  - eexists. split; [done|]. destruct Hr as [Hr|Hr].
    + exfalso. apply (f_equal last) in Hs. apply last_Some in Hr as [r' ->].
      rewrite app_assoc, app_comm_cons in Hs. rewrite drop_app_le in Hs by (rewrite length_app; cbn; lia).
      by rewrite last_snoc in Hs.
    + apply is_prefix_take; [rewrite length_app; cbn; lia|]. apply is_prefix_self.
  - eexists. split; [done|]. apply is_prefix_self.
Qed.

(** What a wildcard subscription with the expression [regex] receives: zmq
    compares the prefix, the bridge the expression. *)
Definition received (regex s : list byte) : Prop :=
  ∃ pre e, wildcard_prefix regex = Some pre ∧ Ere.parse regex = Some e ∧ is_prefix pre s = true ∧ Ere.regexec e s = true.

(** Nothing that does not start with the text [t]. *)
Lemma received_text t regex pre s :
  wildcard_prefix regex = Some pre → is_prefix t pre = true → received regex s → is_prefix t s = true.
Proof.
  intros E Ht (pre' & e & E' & _ & Hpre & _). rewrite E in E'. injection E' as <-.
  apply is_prefix_app in Ht as [r1 ->]. apply is_prefix_app in Hpre as [r2 ->].
  rewrite <-app_assoc. apply is_prefix_self.
Qed.

(** C29: hierarchical topics end to end, from [subscriber::start] through
    [ws2posix] and the prefix the bridge gives to zmq, for topics as above.  A
    topic that starts with a character and has a wildcard receives exactly the
    subjects its expression matches, among them all subjects of the topic as
    in WS-Topic, and, but for subjects that start with a slash, no others but
    those that go on within its last part.  A topic that starts with a
    wildcard, whatever follows, receives only subjects that start with the
    text [[^_][^/]*], and a super wildcard without another one only subjects
    that start with the text of the topic, [/.] included: their prefix is a
    piece of the expression. *)
Theorem ws_prefix ts sup :
  Forall token_ok ts → has_wild ts = true ∨ sup = true →
  (Z.of_nat (length (ANCHORED_WILD ++ render_tokens ts)) < 2 ^ 62)%Z →
  ∃ regex, ws2posix (ws_render ts sup) (ws_render ts sup) = Some (MAMA_STATUS_OK, regex)
  ∧ (has_wild ts = true → head ts ≠ Some tWild → ∀ s,
       (received regex s ↔ ws_matches ts sup s) ∧ (topic_matches ts sup s → received regex s)
       ∧ (received regex s → head s ≠ Some x2f → sup = false ∨ last ts = Some tWild → topic_matches ts sup s))
  ∧ (head ts = Some tWild → ∀ s, received regex s → is_prefix LEAD s = true)
  ∧ (has_wild ts = false → ∀ s, received regex s → is_prefix (ws_render ts true) s = true).
Proof.
  intros Hts Hw Hb. destruct (has_wild ts) eqn:Ew.
  - exists (ws_regex ts sup). split; [apply ws2posix_wild; [done|done|lia]|]. split_and!; [|intros Hh|done].
    + intros _ Hh s. destruct ts as [|[c|] ts]; [done| |done].
      destruct (ws_regex_language _ sup Hts) as (e & He & Hm).
      assert (wildcard_prefix (ws_regex (tChar c :: ts) sup) = Some (literal_prefix (tChar c :: ts))) as Hpre.
      { unfold ws_regex, wildcard_prefix. rewrite decide_True by done. cbv zeta. rewrite strstr_wild by done.
        destruct (render_literal (tChar c :: ts)) as (r & -> & _). by rewrite <-app_assoc, take_app_length. }
      assert (received (ws_regex (tChar c :: ts) sup) s ↔ ws_matches (tChar c :: ts) sup s) as Hrec.
      { split.
        - intros (pre & e' & _ & He' & _ & Hr). rewrite He in He'. injection He' as <-. by apply Hm.
        - intros Hs. exists (literal_prefix (tChar c :: ts)), e. split_and!; [done|done|by eapply ws_literal|by apply Hm]. }
      rewrite Hrec. split_and!; [done|by apply topic_ws|by apply ws_topic].
    + intros s. destruct ts as [|[c|] ts]; [done..|].
      destruct (prefix_lead (render_tokens ts ++ (if sup then lit ".*" else [x24]))) as (pre & E & Hpre).
      { destruct sup; [right; rewrite length_app; cbn; lia|left; apply last_snoc]. }
      by apply (received_text _ _ pre).
  - destruct Hw as [?| ->]; [done|]. exists (twice_regex ts). split; [by apply ws2posix_super|].
    split_and!; [done|by destruct ts as [|[] ?]|]. intros _ s.
    destruct (prefix_whole (render_tokens ts ++ lit "/.") (render_tokens ts ++ lit ".*")) as (pre & E & Hpre).
    { apply strstr_none. pose proof (no_plus ts true Hts Ew) as Hp.
      intros [[?|Hin]%elem_of_app|?]%elem_of_app; [set_solver|revert Hin; by_decide|done]. }
    { rewrite length_app. cbn. lia. }
    rewrite render_super, render_plain by done. apply (received_text _ _ pre); [|done].
    unfold twice_regex. by rewrite <-E, <-!app_assoc.
Qed.

Lemma ws2posix_matches_witness :
  (∃ regex e, ws2posix (lit "*/b/*/.") (lit "*/b/*/.") = Some (MAMA_STATUS_OK, regex) ∧ Ere.parse regex = Some e
    ∧ ∀ s, topic_matches [tWild; tChar x2f; tChar x62; tChar x2f; tWild] true s → Ere.regexec e s = true)
  ∧ (∃ regex e, ws2posix (lit "a/.") (lit "a/.") = Some (MAMA_STATUS_OK, regex) ∧ Ere.parse regex = Some e
    ∧ ∀ s, Ere.regexec e s = true ↔ ∃ c r, s = lit "a" ++ x2f :: c :: lit "a" ++ r).
Proof.
  split.
  - destruct (ws2posix_matches [tWild; tChar x2f; tChar x62; tChar x2f; tWild] true) as (regex & e & E & Ep & H & _);
      [repeat constructor; by_decide|by left|vm_compute; done|]. exists regex, e. split; [exact E|]. split; [exact Ep|].
    intros s. apply (H eq_refl s).
  - destruct (ws2posix_matches [tChar x61] true) as (regex & e & E & Ep & _ & H);
      [repeat constructor; by_decide|by right|vm_compute; done|]. exists regex, e. exact (conj E (conj Ep (H eq_refl))).
Defined.

Lemma ws_prefix_witness :
  (∃ regex, ws2posix (lit "a/*") (lit "a/*") = Some (MAMA_STATUS_OK, regex)
     ∧ ∀ s, received regex s ↔ ws_matches [tChar x61; tChar x2f; tWild] false s)
  ∧ (∃ regex, ws2posix (lit "a/.") (lit "a/.") = Some (MAMA_STATUS_OK, regex)
     ∧ ∀ s, received regex s → is_prefix (lit "a/.") s = true).
Proof.
  split.
  - destruct (ws_prefix [tChar x61; tChar x2f; tWild] false) as (regex & E & H & _);
      [repeat constructor; by_decide|by left|vm_compute; done|]. exists regex. split; [exact E|].
    intros s. apply (H eq_refl ltac:(discriminate) s).
  - destruct (ws_prefix [tChar x61] true) as (regex & E & _ & _ & H);
      [repeat constructor; by_decide|by right|vm_compute; done|]. exists regex. split; [exact E|]. exact (H eq_refl).
Defined.

End Topics.
