(* ===== verification/OzArgs.v ===== *)
(** * The command line of the OZ programs (src/examples/ozimpl.cpp, [cmdLine])

    The middleware, payload and transport names come from flags, the
    environment or a default; the topic is the last argument, unless that
    is the value of a flag. *)

From S2P Require Import Prelude CLib Nsd.
Import Nsd.

Module CmdLine.

(** [strncasecmp (a, b, n) == 0] on strings without NUL. *)
Definition strncasecmp_eq (a b : list byte) (n : nat) : bool :=
  bool_decide (lower <$> take n (a ++ [NUL]) = lower <$> take n (b ++ [NUL])).

(** The loop over the arguments after the name of the program: the argument
    after the first that matches.  [None]: the argument is NULL, from which a
    string is made; [Some None]: no argument matches. *)
Fixpoint find_flag (flag : list byte) (args : list (list byte)) : option (option (list byte)) :=
  match args with
  | [] => Some None
  | a :: args' =>
      if strncasecmp_eq flag a (length a) then
        match args' with v :: _ => Some (Some v) | [] => None end
      else find_flag flag args'
  end.

Section CmdLine.

Context (getenv : list byte → option (list byte)) (argv : list (list byte)).

Definition getMw : option (list byte) :=
  r ← find_flag (lit "-m") (drop 1 argv);
  Some (match r with Some v => v | None => default (lit "zmq") (getenv (lit "MAMA_MW")) end).

Definition getPayload : option (list byte) :=
  r ← find_flag (lit "-p") (drop 1 argv);
  Some (match r with Some v => v | None => default (lit "omnmmsg") (getenv (lit "MAMA_PAYLOAD")) end).

Definition getTport : option (list byte) :=
  r ← find_flag (lit "-tport") (drop 1 argv);
  Some (default [] r).

Definition getTportSub : option (list byte) :=
  tport ← getTport;
  Some (if decide (tport = []) then default (lit "oz") (getenv (lit "MAMA_TPORT_SUB")) else tport).

Definition getTportPub : option (list byte) :=
  tport ← getTport;
  Some (if decide (tport = []) then default (lit "oz") (getenv (lit "MAMA_TPORT_PUB")) else tport).

(** [argv_[argc_-2][0]] of an empty argument is its NUL. *)
Definition getTopic (defaultValue : list byte) : list byte :=
  let argc := length argv in
  if decide (argc < 2) then defaultValue
  else if decide (argc = 2) then default defaultValue (argv !! 1)
  else
    match argv !! (argc - 2) with
    | Some (c :: _) => if decide (c = x2d) then defaultValue else default defaultValue (argv !! (argc - 1))
    | _ => default defaultValue (argv !! (argc - 1))
    end.

End CmdLine.

(** ** Command lines that are flags with values, and a topic *)

Inductive flag := fMw | fPayload | fTport.

#[export] Instance flag_eq_dec : EqDecision flag.
Proof. solve_decision. Defined.

Definition flag_text (f : flag) : list byte :=
  match f with fMw => lit "-m" | fPayload => lit "-p" | fTport => lit "-tport" end.

Definition flag_args (opts : list (flag * list byte)) : list (list byte) :=
  concat ((λ o, [flag_text o.1; o.2]) <$> opts).

(** A value or topic: not empty, and not like a flag. *)
Definition plain (s : list byte) : Prop := match s with [] => False | c :: _ => c ≠ x2d end.

Definition value_of (f : flag) (opts : list (flag * list byte)) : option (list byte) :=
  snd <$> head (filter (λ o, o.1 = f) opts).

(** Only the dash is a dash in lower case. *)
Lemma lower_dash c : lower c = x2d → c = x2d.
Proof. by destruct c. Qed.

Lemma flag_matches f g : strncasecmp_eq (flag_text f) (flag_text g) (length (flag_text g)) = bool_decide (g = f).
Proof. by destruct f, g. Qed.

Lemma plain_no_match f v : plain v → strncasecmp_eq (flag_text f) v (length v) = false.
Proof.
  destruct v as [|c v]; [done|]. intros Hc. apply bool_decide_eq_false.
  assert (∃ r, flag_text f = x2d :: r) as (r & ->) by by destruct f; eexists.
  cbn. intros [= E _]. symmetry in E. change (lower x2d) with x2d in E. apply lower_dash in E. by apply Hc.
Qed.

Lemma find_value f opts rest : Forall (λ o, plain o.2) opts →
  find_flag (flag_text f) (flag_args opts ++ rest)
  = match value_of f opts with Some v => Some (Some v) | None => find_flag (flag_text f) rest end.
Proof.
  induction 1 as [|[g v] opts Hv Hopts IH]; [done|]. unfold flag_args in *.
  cbn [fmap list_fmap concat fst snd app find_flag]. rewrite flag_matches. unfold value_of. rewrite filter_cons. cbn [fst].
  case_bool_decide as Hg.
  - subst g. by rewrite decide_True.
  - rewrite decide_False by done. rewrite plain_no_match by done. exact IH.
Qed.

Lemma find_topic f topic : (∀ t, topic = Some t → plain t) → find_flag (flag_text f) (option_list topic) = Some None.
Proof. destruct topic as [t|]; [|done]. intros Ht. cbn. by rewrite plain_no_match by by apply Ht. Qed.

Lemma find_all f opts topic :
  Forall (λ o, plain o.2) opts → (∀ t, topic = Some t → plain t) →
  find_flag (flag_text f) (flag_args opts ++ option_list topic) = Some (value_of f opts).
Proof. intros Ho Ht. rewrite find_value by done. destruct (value_of f opts); [done|]. by rewrite find_topic. Qed.

Lemma flag_args_snoc opts f v : flag_args (opts ++ [(f, v)]) = flag_args opts ++ [flag_text f; v].
Proof. unfold flag_args. by rewrite fmap_app, concat_app. Qed.

Lemma value_plain f opts v : Forall (λ o, plain o.2) opts → value_of f opts = Some v → plain v.
Proof.
  induction 1 as [|[g w] opts Hw Hopts IH]; [done|]. unfold value_of in *. rewrite filter_cons. cbn [fst].
  case_decide; [by intros [= <-]|done].
Qed.

(** The last two of at least three arguments. *)
Lemma topic_last p x y d : p ≠ [] →
  getTopic (p ++ [x; y]) d = match x with c :: _ => if decide (c = x2d) then d else y | [] => y end.
Proof.
  intros Hp. unfold getTopic. assert (0 < length p) by (destruct p; [done|cbn; lia]).
  rewrite length_app. cbn [length]. rewrite !decide_False by lia. rewrite !lookup_app_r by lia.
  replace (length p + 2 - 2 - length p) with 0 by lia. replace (length p + 2 - 1 - length p) with 1 by lia. done.
Qed.

Lemma topic_of prog opts topic d :
  Forall (λ o, plain o.2) opts → getTopic (prog :: flag_args opts ++ option_list topic) d = default d topic.
Proof.
  intros Ho. destruct opts as [|[f v] opts _] using rev_ind; [by destruct topic|].
  rewrite flag_args_snoc. apply Forall_app in Ho as [_ Hv]. rewrite Forall_singleton in Hv. cbn [snd] in Hv.
  destruct topic as [t|]; cbn [default]; [change (option_list (Some t)) with [t]|change (option_list None) with (@nil (list byte))].
  - replace (prog :: (flag_args opts ++ [flag_text f; v]) ++ [t])
      with ((prog :: flag_args opts ++ [flag_text f]) ++ [v; t]) by (cbn; by rewrite <-!app_assoc).
    rewrite topic_last by done.
    destruct v as [|c v]; [done|]. by rewrite decide_False.
  - rewrite app_nil_r. change (prog :: flag_args opts ++ [flag_text f; v]) with ((prog :: flag_args opts) ++ [flag_text f; v]).
    rewrite topic_last by done. by destruct f.
Qed.

(** The command line. Flags with values in any order, with a topic at the
    end or without, are read as they are meant: the first value of a flag,
    else the environment, else the default, and the topic or its default. A
    flag at the end makes a string of NULL; an empty argument is taken for
    every flag, and so is a single dash. *)
Theorem cmdLine_options getenv prog opts topic d :
  Forall (λ o, plain o.2) opts → (∀ t, topic = Some t → plain t) →
  let argv := prog :: flag_args opts ++ option_list topic in
  getMw getenv argv = Some (default (default (lit "zmq") (getenv (lit "MAMA_MW"))) (value_of fMw opts))
  ∧ getPayload getenv argv = Some (default (default (lit "omnmmsg") (getenv (lit "MAMA_PAYLOAD"))) (value_of fPayload opts))
  ∧ getTportSub getenv argv = Some (default (default (lit "oz") (getenv (lit "MAMA_TPORT_SUB"))) (value_of fTport opts))
  ∧ getTportPub getenv argv = Some (default (default (lit "oz") (getenv (lit "MAMA_TPORT_PUB"))) (value_of fTport opts))
  ∧ getTopic argv d = default d topic
  ∧ (value_of fMw opts = None → getMw getenv (prog :: flag_args opts ++ [lit "-m"]) = None)
  ∧ (∀ dash v, dash ∈ [[]; lit "-"] →
       getMw getenv [prog; dash; v] = Some v ∧ getPayload getenv [prog; dash; v] = Some v
       ∧ getTport [prog; dash; v] = Some v).
Proof.
  intros Ho Ht argv. unfold getTportSub, getTportPub, getTport, getMw, getPayload.
  change (lit "-m") with (flag_text fMw). change (lit "-p") with (flag_text fPayload).
  change (lit "-tport") with (flag_text fTport). change (drop 1 argv) with (flag_args opts ++ option_list topic).
  rewrite !find_all by done. rewrite !bind_some.
  assert (∀ v, value_of fTport opts = Some v → v ≠ []) as Hne.
  { intros v Hv ->. by apply (value_plain _ _ _ Ho) in Hv. }
  split_and!.
  - by destruct (value_of fMw opts).
  - by destruct (value_of fPayload opts).
  - destruct (value_of fTport opts) as [v|]; cbn [default]; [|done]. rewrite decide_False; [done|]. by apply Hne.
  - destruct (value_of fTport opts) as [v|]; cbn [default]; [|done]. rewrite decide_False; [done|]. by apply Hne.
  - by apply topic_of.
  - intros Hv. change (drop 1 (prog :: flag_args opts ++ [flag_text fMw])) with (flag_args opts ++ [flag_text fMw]).
    rewrite find_value, Hv by done. done.
  - intros dash v Hd. assert (dash = [] ∨ dash = lit "-") as [-> | ->] by set_solver; done.
Qed.

Lemma cmdLine_options_witness :
  getTopic [lit "sub"; lit "-m"; lit "zmq"; lit "-tport"; lit "omnm"; lit "a/b"] (lit "prefix/suffix") = lit "a/b"
  ∧ getMw (λ _, None) [lit "sub"; lit "-m"] = None.
Proof.
  split.
  - apply (cmdLine_options (λ _, None) (lit "sub") [(fMw, lit "zmq"); (fTport, lit "omnm")] (Some (lit "a/b")));
      [by repeat constructor|by intros ? [= <-]].
  - apply (cmdLine_options (λ _, None) (lit "sub") [] None (lit "x")); [constructor|done|done].
Defined.

End CmdLine.
