(* ===== verification/Oz.v ===== *)
(** * The OZ C++ interface (src/examples/ozimpl.cpp, ozimpl.h)

    The objects a program works with - connection, session, publishers,
    subscribers, requests, replies, timers - with their allocation, their
    shared and weak pointers, the MAMA calls they make and the callbacks they
    get.  An object that was deleted is no longer in its map, so that
    following a pointer to it is undefined.
    A [shared_ptr] is identified by the variable that holds it ([owner]): the
    deleter runs when the last owner is gone, and [weak_ptr::lock] gives NULL
    from then on.  An exception is not distinguished from undefined
    behaviour.  The members [status_] are only ever written. *)

From S2P Require Import Prelude CLib CMonad CDouble OzTopics.
Import Topics.

Module Oz.

(** ** Calls to MAMA, and callbacks *)

(** The last argument of a creation is the closure: the object itself. *)
Inductive mcall :=
  | mama_loadBridge (mw : list byte)
  | mama_loadPayloadBridge (payload : list byte)
  | mama_open
  | mama_getDefaultEventQueue (bridge : Z)
  | mamaTransport_allocate
  | mamaTransport_create (transport : Z) (name : list byte) (bridge : Z)
  | mama_startBackgroundEx (bridge : Z)
  | mama_stop (bridge : Z)
  | mamaTransport_destroy (transport : Z)
  | mama_close
  | mamaQueue_create (bridge : Z)
  | mamaDispatcher_create (queue : Z)
  | mamaDispatcher_destroy (dispatcher : Z)
  | mamaQueue_destroyTimedWait (queue timeout : Z)
  | mamaSubscription_allocate
  | mamaSubscription_createBasic (sub transport queue : Z) (topic : list byte) (closure : nat)
  | mamaSubscription_createBasicWildCard (sub transport queue : Z) (regex : list byte) (closure : nat)
  | mamaSubscription_destroyEx (sub : Z)
  | mamaSubscription_deallocate (sub : Z)
  | mamaPublisher_create (transport : Z) (topic : list byte)
  | mamaPublisher_send (pub msg : Z)
  | mamaPublisher_sendFromInbox (pub inbox msg : Z)
  | mamaPublisher_sendReplyToInbox (pub request reply : Z)
  | mamaInbox_create2 (transport queue : Z) (closure : nat)
  | mamaInbox_destroy (inbox : Z)
  | mamaTimer_create2 (queue : Z) (interval : double) (closure : nat)
  | mamaTimer_destroy (timer : Z).

Inductive event :=
  | eCall (c : mcall) (status : mama_status) (handle : Z)
  | eOnCreate (sub : nat)
  | eOnError (sub : nat) (status : mama_status)
  | eOnMsg (sub : nat) (topic : list byte) (msg : Z)
  | eOnReply (request : nat) (msg : Z)
  | eOnRequestError (request : nat) (status : mama_status)
  | eOnTimer (timer : nat)
  | eSem (request : nat) (op : list byte).

(** ** Objects *)

(** The variables that hold a [shared_ptr] to a publisher. *)
Inductive owner := client (n : nat) | ofRequest (r : nat) | local.

#[export] Instance owner_eq_dec : EqDecision owner.
Proof. solve_decision. Defined.
#[export] Program Instance owner_countable : Countable owner :=
  inj_countable' (λ o, match o with client n => inl (inl n) | ofRequest r => inl (inr r) | local => inr () end)
    (λ x, match x with inl (inl n) => client n | inl (inr r) => ofRequest r | inr _ => local end) _.
Next Obligation. by intros []. Qed.

Record connection := mkConnection {
  c_mw : list byte;
  c_payload : list byte;
  c_name : list byte;
  c_bridge : Z;
  c_queue : Z;
  c_transport : Z;
  c_payloadBridge : Z;
  c_pubs : gmap (list byte) nat }.

(** The members [pConn_] and [pSession_] are addresses. *)
Record session := mkSession { se_conn : nat; se_queue : Z; se_dispatcher : Z }.

Record publisher := mkPublisher { p_conn : nat; p_pub : Z; p_topic : list byte; p_owners : gset owner }.

(** A sink that is NULL is [false]. *)
Record subscriber := mkSubscriber {
  s_session : nat;
  s_sub : Z;
  s_sink : bool;
  s_topic : list byte;
  s_origTopic : list byte;
  s_wcType : wcType }.

(** [r_replied]: the count of the semaphore, once it is initialized. *)
Record request := mkRequest {
  r_session : nat;
  r_topic : list byte;
  r_sink : bool;
  r_pub : option nat;
  r_inbox : Z;
  r_replied : option Z }.

Record timer := mkTimer { t_session : nat; t_interval : double; t_timer : Z; t_sink : bool }.

Record reply := mkReply { rp_conn : nat }.

Record oz := mkOz {
  o_conns : gmap nat connection;
  o_sessions : gmap nat session;
  o_pubs : gmap nat publisher;
  o_subs : gmap nat subscriber;
  o_reqs : gmap nat request;
  o_replies : gmap nat reply;
  o_timers : gmap nat timer;
  o_next : nat;
  o_calls : nat }.

Definition set_conns x s := mkOz x (o_sessions s) (o_pubs s) (o_subs s) (o_reqs s) (o_replies s) (o_timers s) (o_next s) (o_calls s).
Definition set_sessions x s := mkOz (o_conns s) x (o_pubs s) (o_subs s) (o_reqs s) (o_replies s) (o_timers s) (o_next s) (o_calls s).
Definition set_pubs x s := mkOz (o_conns s) (o_sessions s) x (o_subs s) (o_reqs s) (o_replies s) (o_timers s) (o_next s) (o_calls s).
Definition set_subs x s := mkOz (o_conns s) (o_sessions s) (o_pubs s) x (o_reqs s) (o_replies s) (o_timers s) (o_next s) (o_calls s).
Definition set_reqs x s := mkOz (o_conns s) (o_sessions s) (o_pubs s) (o_subs s) x (o_replies s) (o_timers s) (o_next s) (o_calls s).
Definition set_replies x s := mkOz (o_conns s) (o_sessions s) (o_pubs s) (o_subs s) (o_reqs s) x (o_timers s) (o_next s) (o_calls s).
Definition set_timers x s := mkOz (o_conns s) (o_sessions s) (o_pubs s) (o_subs s) (o_reqs s) (o_replies s) x (o_next s) (o_calls s).
Definition set_next x s := mkOz (o_conns s) (o_sessions s) (o_pubs s) (o_subs s) (o_reqs s) (o_replies s) (o_timers s) x (o_calls s).
Definition set_calls x s := mkOz (o_conns s) (o_sessions s) (o_pubs s) (o_subs s) (o_reqs s) (o_replies s) (o_timers s) (o_next s) x.

Definition set_cache m c := mkConnection (c_mw c) (c_payload c) (c_name c) (c_bridge c) (c_queue c) (c_transport c) (c_payloadBridge c) m.
Definition set_bridge b c := mkConnection (c_mw c) (c_payload c) (c_name c) b (c_queue c) (c_transport c) (c_payloadBridge c) (c_pubs c).
Definition set_payloadBridge b c := mkConnection (c_mw c) (c_payload c) (c_name c) (c_bridge c) (c_queue c) (c_transport c) b (c_pubs c).
Definition set_queue q c := mkConnection (c_mw c) (c_payload c) (c_name c) (c_bridge c) q (c_transport c) (c_payloadBridge c) (c_pubs c).
Definition set_transport t c := mkConnection (c_mw c) (c_payload c) (c_name c) (c_bridge c) (c_queue c) t (c_payloadBridge c) (c_pubs c).
Definition set_pub h p := mkPublisher (p_conn p) h (p_topic p) (p_owners p).
Definition set_owners o p := mkPublisher (p_conn p) (p_pub p) (p_topic p) o.
Definition set_sub h x := mkSubscriber (s_session x) h (s_sink x) (s_topic x) (s_origTopic x) (s_wcType x).
Definition set_topics t o x := mkSubscriber (s_session x) (s_sub x) (s_sink x) t o (s_wcType x).
Definition set_wcType w x := mkSubscriber (s_session x) (s_sub x) (s_sink x) (s_topic x) (s_origTopic x) w.
Definition set_inbox i r := mkRequest (r_session r) (r_topic r) (r_sink r) (r_pub r) i (r_replied r).
Definition set_rpub p r := mkRequest (r_session r) (r_topic r) (r_sink r) p (r_inbox r) (r_replied r).
Definition set_replied n r := mkRequest (r_session r) (r_topic r) (r_sink r) (r_pub r) (r_inbox r) n.
Definition set_timer t x := mkTimer (t_session x) (t_interval x) t (t_sink x).

Section Oz.

(** The status of the n-th call, and what the variable for its result holds
    afterwards. *)
Context (answer : nat → mcall → mama_status) (handle_of : nat → mcall → Z).

Local Notation OC := (C oz event).

Definition call_handle (c : mcall) : OC (mama_status * Z) :=
  s ← cget;
  let st := answer (o_calls s) c in
  let h := handle_of (o_calls s) c in
  cput (set_calls (S (o_calls s)) s) ;;
  emit (eCall c st h) ;;
  mret (st, h).

Definition call (c : mcall) : OC mama_status := r ← call_handle c; mret r.1.

(** [CALL_MAMA_FUNC (x); k] *)
Definition CALL_MAMA_FUNC (x k : OC mama_status) : OC mama_status :=
  s ← x;
  if decide (s ≠ MAMA_STATUS_OK) then mret s else k.

(** Follow a pointer. *)
Definition the_conn (a : nat) : OC connection := s ← cget; cpart (o_conns s !! a).
Definition the_sess (a : nat) : OC session := s ← cget; cpart (o_sessions s !! a).
Definition the_pub (a : nat) : OC publisher := s ← cget; cpart (o_pubs s !! a).
Definition the_sub (a : nat) : OC subscriber := s ← cget; cpart (o_subs s !! a).
Definition the_req (a : nat) : OC request := s ← cget; cpart (o_reqs s !! a).
Definition the_reply (a : nat) : OC reply := s ← cget; cpart (o_replies s !! a).
Definition the_timer (a : nat) : OC timer := s ← cget; cpart (o_timers s !! a).

Definition put_conn (a : nat) (c : connection) : OC () := cmodify (λ s, set_conns (<[a := c]> (o_conns s)) s).
Definition put_sess (a : nat) (x : session) : OC () := cmodify (λ s, set_sessions (<[a := x]> (o_sessions s)) s).
Definition put_pub (a : nat) (p : publisher) : OC () := cmodify (λ s, set_pubs (<[a := p]> (o_pubs s)) s).
Definition put_sub (a : nat) (x : subscriber) : OC () := cmodify (λ s, set_subs (<[a := x]> (o_subs s)) s).
Definition put_req (a : nat) (r : request) : OC () := cmodify (λ s, set_reqs (<[a := r]> (o_reqs s)) s).
Definition put_timer (a : nat) (t : timer) : OC () := cmodify (λ s, set_timers (<[a := t]> (o_timers s)) s).

(** A new address. *)
Definition new_addr : OC nat := s ← cget; cput (set_next (S (o_next s)) s) ;; mret (o_next s).

(** [pSession_->getConnection()->getTransport()] *)
Definition session_transport (pSession : nat) : OC Z :=
  x ← the_sess pSession; c ← the_conn (se_conn x); mret (c_transport c).
Definition session_queue (pSession : nat) : OC Z := x ← the_sess pSession; mret (se_queue x).

(** ** connection *)

Definition new_connection (mw payload name : list byte) : OC nat :=
  a ← new_addr; put_conn a (mkConnection mw payload name 0 0 0 0 ∅) ;; mret a.

Definition connection_start (this : nat) : OC mama_status :=
  c ← the_conn this;
  r ← call_handle (mama_loadBridge (c_mw c)); put_conn this (set_bridge r.2 c) ;;
  CALL_MAMA_FUNC (mret r.1) (
  c ← the_conn this;
  r ← call_handle (mama_loadPayloadBridge (c_payload c)); put_conn this (set_payloadBridge r.2 c) ;;
  CALL_MAMA_FUNC (mret r.1) (
  CALL_MAMA_FUNC (call mama_open) (
  c ← the_conn this;
  r ← call_handle (mama_getDefaultEventQueue (c_bridge c)); put_conn this (set_queue r.2 c) ;;
  CALL_MAMA_FUNC (mret r.1) (
  c ← the_conn this;
  r ← call_handle mamaTransport_allocate; put_conn this (set_transport r.2 c) ;;
  CALL_MAMA_FUNC (mret r.1) (
  c ← the_conn this;
  CALL_MAMA_FUNC (call (mamaTransport_create (c_transport c) (c_name c) (c_bridge c))) (
  CALL_MAMA_FUNC (call (mama_startBackgroundEx (c_bridge c))) (
  mret MAMA_STATUS_OK))))))).

Definition connection_destroy (this : nat) : OC mama_status :=
  c ← the_conn this;
  CALL_MAMA_FUNC (call (mama_stop (c_bridge c))) (
  CALL_MAMA_FUNC (call (mamaTransport_destroy (c_transport c))) (
  CALL_MAMA_FUNC (call mama_close) (
  cmodify (λ s, set_conns (delete this (o_conns s)) s) ;;
  mret MAMA_STATUS_OK))).

Definition removePublisher (this : nat) (topic : list byte) : OC () :=
  c ← the_conn this; put_conn this (set_cache (delete topic (c_pubs c)) c).

(** The [shared_ptr] that is returned goes to the variable [o]. *)
Definition getPublisher (o : owner) (this : nat) (topic : list byte) : OC (option nat) :=
  c ← the_conn this;
  match c_pubs c !! topic with
  | Some a =>
      s ← cget;
      match o_pubs s !! a with
      | Some p => put_pub a (set_owners ({[o]} ∪ p_owners p) p) ;; mret (Some a)
      | None => mret None
      end
  | None =>
      a ← new_addr;
      put_pub a (mkPublisher this 0 topic {[o]}) ;;
      c ← the_conn this;
      put_conn this (set_cache (<[topic := a]> (c_pubs c)) c) ;;
      mret (Some a)
  end.

(** ** session *)

Definition new_session (pConn : nat) : OC nat :=
  a ← new_addr; put_sess a (mkSession pConn 0 0) ;; mret a.

Definition session_start (this : nat) : OC mama_status :=
  x ← the_sess this;
  c ← the_conn (se_conn x);
  r ← call_handle (mamaQueue_create (c_bridge c)); put_sess this (mkSession (se_conn x) r.2 (se_dispatcher x)) ;;
  CALL_MAMA_FUNC (mret r.1) (
  x ← the_sess this;
  r ← call_handle (mamaDispatcher_create (se_queue x)); put_sess this (mkSession (se_conn x) (se_queue x) r.2) ;;
  CALL_MAMA_FUNC (mret r.1) (
  mret MAMA_STATUS_OK)).

Definition session_destroy (this : nat) : OC mama_status :=
  x ← the_sess this;
  CALL_MAMA_FUNC (call (mamaDispatcher_destroy (se_dispatcher x))) (
  CALL_MAMA_FUNC (call (mamaQueue_destroyTimedWait (se_queue x) 100)) (
  cmodify (λ s, set_sessions (delete this (o_sessions s)) s) ;;
  mret MAMA_STATUS_OK)).

(** ** publisher *)

Definition publisher_destroy (a : nat) : OC mama_status :=
  p ← the_pub a;
  removePublisher (p_conn p) (p_topic p) ;;
  cmodify (λ s, set_pubs (delete a (o_pubs s)) s) ;;
  mret MAMA_STATUS_OK.

(** The end of the [shared_ptr] in the variable [o]: [publisherDeleter] for
    the last one. *)
Definition release (o : owner) (a : nat) : OC () :=
  p ← the_pub a;
  let rest := p_owners p ∖ {[o]} in
  put_pub a (set_owners rest p) ;;
  if decide (rest = ∅) then _ ← publisher_destroy a; mret () else mret ().

(** The part the three functions share: the publisher is created when it is
    first used.  Its handle goes to [k]. *)
Definition with_pub (a : nat) (k : Z → OC mama_status) : OC mama_status :=
  p ← the_pub a;
  if decide (p_pub p = 0)%Z then
    c ← the_conn (p_conn p);
    r ← call_handle (mamaPublisher_create (c_transport c) (p_topic p)); put_pub a (set_pub r.2 p) ;;
    CALL_MAMA_FUNC (mret r.1) (p ← the_pub a; k (p_pub p))
  else k (p_pub p).

Definition publisher_publish (a : nat) (msg : Z) : OC mama_status :=
  with_pub a (λ pub, call (mamaPublisher_send pub msg)).
Definition publisher_sendRequest (a : nat) (msg inbox : Z) : OC mama_status :=
  with_pub a (λ pub, call (mamaPublisher_sendFromInbox pub inbox msg)).
Definition publisher_sendReply (a : nat) (request reply : Z) : OC mama_status :=
  with_pub a (λ pub, call (mamaPublisher_sendReplyToInbox pub request reply)).

(** ** subscriber *)

Definition new_subscriber (pSession : nat) (topic : list byte) (sink : bool) (wc : wcType) : OC nat :=
  a ← new_addr; put_sub a (mkSubscriber pSession 0 sink topic [] wc) ;; mret a.

(** The two kinds of subscriptions. *)
Definition subscriber_wildcard (a : nat) : OC mama_status :=
  x ← the_sub a;
  transport ← session_transport (s_session x);
  queue ← session_queue (s_session x);
  CALL_MAMA_FUNC (call (mamaSubscription_createBasicWildCard (s_sub x) transport queue (s_topic x) a))
    (mret MAMA_STATUS_OK).
Definition subscriber_basic (a : nat) : OC mama_status :=
  x ← the_sub a;
  transport ← session_transport (s_session x);
  queue ← session_queue (s_session x);
  CALL_MAMA_FUNC (call (mamaSubscription_createBasic (s_sub x) transport queue (s_topic x) a))
    (mret MAMA_STATUS_OK).

(** The switch over the wildcard type. *)
Definition subscriber_switch (a : nat) : OC mama_status :=
  x ← the_sub a;
  put_sub a (set_topics (s_topic x) (s_topic x) x) ;;
  x ← the_sub a;
  match s_wcType x with
  | wcWS =>
      r ← cpart (ws2posix (s_origTopic x) (s_topic x));
      put_sub a (set_topics r.2 (s_origTopic x) x) ;;
      CALL_MAMA_FUNC (mret r.1) (subscriber_wildcard a)
  | wcPOSIX => subscriber_wildcard a
  | wcUnspecified | wcNone => subscriber_basic a
  end.

Definition subscriber_start (a : nat) : OC mama_status :=
  x ← the_sub a;
  put_sub a (set_wcType (guess_wcType (s_wcType x) (s_topic x)) x) ;;
  x ← the_sub a;
  r ← call_handle mamaSubscription_allocate; put_sub a (set_sub r.2 x) ;;
  CALL_MAMA_FUNC (mret r.1) (subscriber_switch a).

Definition subscriber_destroy (a : nat) : OC mama_status :=
  x ← the_sub a;
  CALL_MAMA_FUNC (call (mamaSubscription_destroyEx (s_sub x))) (mret MAMA_STATUS_OK).

Definition subscriber_createCB (closure : nat) : OC () :=
  x ← the_sub closure; if s_sink x then emit (eOnCreate closure) else mret ().
Definition subscriber_errorCB (closure : nat) (status : mama_status) : OC () :=
  x ← the_sub closure; if s_sink x then emit (eOnError closure status) else mret ().
Definition subscriber_msgCB (closure : nat) (msg : Z) : OC () :=
  x ← the_sub closure; if s_sink x then emit (eOnMsg closure (s_topic x) msg) else mret ().
Definition subscriber_wcCB (closure : nat) (topic : list byte) (msg : Z) : OC () :=
  x ← the_sub closure; if s_sink x then emit (eOnMsg closure topic msg) else mret ().

Definition subscriber_destroyCB (closure : nat) : OC () :=
  x ← the_sub closure;
  _ ← call (mamaSubscription_deallocate (s_sub x));
  cmodify (λ s, set_subs (delete closure (o_subs s)) s).

(** ** request *)

Definition new_request (pSession : nat) (topic : list byte) (sink : bool) : OC nat :=
  a ← new_addr; put_req a (mkRequest pSession topic sink None 0 None) ;; mret a.

Definition request_destroy (a : nat) : OC mama_status :=
  r ← the_req a;
  if decide (r_inbox r ≠ 0)%Z then
    CALL_MAMA_FUNC (call (mamaInbox_destroy (r_inbox r))) (mret MAMA_STATUS_OK)
  else mret MAMA_STATUS_OK.

(** [~request], then its members. *)
Definition request_delete (a : nat) : OC () :=
  r ← the_req a;
  _ ← cpart (r_replied r);
  emit (eSem a (lit "destroy")) ;;
  match r_pub r with Some p => release (ofRequest a) p | None => mret () end ;;
  cmodify (λ s, set_reqs (delete a (o_reqs s)) s).

(** The inbox and the publisher are made for the first message. *)
Definition request_inbox (a : nat) : OC mama_status :=
  r ← the_req a;
  if decide (r_inbox r = 0%Z) then
    transport ← session_transport (r_session r);
    queue ← session_queue (r_session r);
    x ← call_handle (mamaInbox_create2 transport queue a);
    put_req a (set_inbox x.2 r) ;;
    mret x.1
  else mret MAMA_STATUS_OK.

Definition request_publisher (a : nat) : OC () :=
  r ← the_req a;
  match r_pub r with
  | None =>
      x ← the_sess (r_session r);
      p ← getPublisher (ofRequest a) (se_conn x) (r_topic r);
      put_req a (set_rpub p r)
  | Some _ => mret ()
  end.

Definition request_transmit (a : nat) (msg : Z) : OC mama_status :=
  r ← the_req a;
  put_req a (set_replied (Some 0%Z) r) ;;
  emit (eSem a (lit "init")) ;;
  pub ← cpart (r_pub r);
  publisher_sendRequest pub msg (r_inbox r).

Definition request_send (a : nat) (msg : Z) : OC mama_status :=
  CALL_MAMA_FUNC (request_inbox a) (request_publisher a ;; request_transmit a msg).

Inductive errno := ETIMEDOUT | EINVAL | EOTHER.

(** [wsem_timedwait] at the moment it returns: with a reply counted, or with
    the error [e]. *)
Definition request_waitReply (a : nat) (seconds : double) (e : errno) : OC mama_status :=
  r ← the_req a;
  _ ← cpart (to_int32 (dmul seconds (dint 1000)));
  n ← cpart (r_replied r);
  if decide (0 < n)%Z then
    put_req a (set_replied (Some (n - 1)%Z) r) ;;
    emit (eSem a (lit "wait")) ;;
    mret MAMA_STATUS_OK
  else
    mret (match e with
          | ETIMEDOUT => MAMA_STATUS_TIMEOUT
          | EINVAL => MAMA_STATUS_INVALID_ARG
          | EOTHER => MAMA_STATUS_SYSTEM_ERROR
          end).

Definition request_errorCB (closure : nat) (status : mama_status) : OC () :=
  r ← the_req closure; if r_sink r then emit (eOnRequestError closure status) else mret ().

Definition request_msgCB (closure : nat) (msg : Z) : OC () :=
  r ← the_req closure;
  if r_sink r then
    n ← cpart (r_replied r);
    put_req closure (set_replied (Some (n + 1)%Z) r) ;;
    emit (eSem closure (lit "post")) ;;
    emit (eOnReply closure msg)
  else mret ().

Definition request_destroyCB (closure : nat) : OC () := request_delete closure.

(** ** reply *)

Definition INBOX_TOPIC : list byte := lit "_INBOX".

(** [fromInbox]: the answer of [mamaMsg_isFromInbox]. *)
Definition reply_getReplyTopic (fromInbox : bool) : mama_status * list byte :=
  if negb fromInbox then (MAMA_STATUS_INVALID_ARG, []) else (MAMA_STATUS_OK, INBOX_TOPIC).

Definition new_reply (pConn : nat) : OC nat :=
  a ← new_addr; cmodify (λ s, set_replies (<[a := mkReply pConn]> (o_replies s)) s) ;; mret a.

Definition reply_destroy (this : nat) : OC mama_status :=
  _ ← the_reply this;
  cmodify (λ s, set_replies (delete this (o_replies s)) s) ;;
  mret MAMA_STATUS_OK.

Definition reply_send (this : nat) (request reply : Z) (fromInbox : bool) : OC mama_status :=
  let '(status, replyTopic) := reply_getReplyTopic fromInbox in
  CALL_MAMA_FUNC (mret status) (
  x ← the_reply this;
  publisher ← getPublisher local (rp_conn x) replyTopic;
  match publisher with
  | None => mret MAMA_STATUS_PLATFORM
  | Some p =>
      st ← publisher_sendReply p request reply;
      release local p ;;
      mret st
  end).

(** [send (msg)]: the message is its own reply. *)
Definition reply_send1 (this : nat) (msg : Z) (fromInbox : bool) : OC mama_status := reply_send this msg msg fromInbox.

(** ** timer *)

Definition new_timer (pSession : nat) (interval : double) (sink : bool) : OC nat :=
  a ← new_addr; put_timer a (mkTimer pSession interval 0 sink) ;; mret a.

Definition timer_start (a : nat) : OC mama_status :=
  t ← the_timer a;
  queue ← session_queue (t_session t);
  r ← call_handle (mamaTimer_create2 queue (t_interval t) a);
  put_timer a (set_timer r.2 t) ;;
  CALL_MAMA_FUNC (mret r.1) (mret MAMA_STATUS_OK).

Definition timer_destroy (a : nat) : OC mama_status :=
  t ← the_timer a;
  CALL_MAMA_FUNC (call (mamaTimer_destroy (t_timer t))) (mret MAMA_STATUS_OK).

Definition timer_timerCB (closure : nat) : OC () :=
  t ← the_timer closure; if t_sink t then emit (eOnTimer closure) else mret ().

Definition timer_destroyCB (closure : nat) : OC () :=
  _ ← the_timer closure;
  cmodify (λ s, set_timers (delete closure (o_timers s)) s).

End Oz.

End Oz.
