(* ===== verification/OzSystem.v ===== *)
(** * Programs on the OZ interface

    A program that uses the objects of [Oz] by its rules, and MAMA, which
    calls back: the operations of both, what is allowed when, and the states
    that can be reached.  A program starts with nothing and makes any number of
    connections and sessions.  It uses a session only while its connection is
    there, starts an object or sends a request only while its session is
    there, and destroys a connection when it has no session and no publisher
    any more.  It starts a subscriber or timer only while
    it has no handle, and does not use an object after it destroyed it;
    MAMA calls the callbacks of what was created with success, and the
    callback of the destruction once, as the last.  Callbacks come between
    operations, not inside. *)

From S2P Require Import Prelude CLib CMonad CDouble OzTopics Oz.
Import Topics Oz.

Module System.

Inductive kind := kSub | kInbox | kTimer.

#[export] Instance kind_eq_dec : EqDecision kind.
Proof. solve_decision. Defined.
#[export] Program Instance kind_countable : Countable kind :=
  inj_countable' (λ k, match k with kSub => inl () | kInbox => inr (inl ()) | kTimer => inr (inr ()) end)
    (λ x, match x with inl _ => kSub | inr (inl _) => kInbox | inr (inr _) => kTimer end) _.
Next Obligation. by intros []. Qed.

(** What MAMA holds: by handle, the closure and whether its destruction was
    asked for. *)
Abbreviation mama := (gmap (kind * Z) (nat * bool)).

(** [s_held]: the objects the program may use; [s_vars]: its variables of
    type [shared_ptr<publisher>]. *)
Record sys := mkSys {
  s_oz : oz;
  s_mama : mama;
  s_held : gset (kind * nat);
  s_vars : gmap nat nat }.

Definition destroying (x : nat * bool) : nat * bool := (x.1, true).

(** The effect of a successful call on what MAMA holds. *)
Definition apply_call (c : mcall) (h : Z) (m : mama) : mama :=
  match c with
  | mamaSubscription_createBasic sub _ _ _ a
  | mamaSubscription_createBasicWildCard sub _ _ _ a => <[(kSub, sub) := (a, false)]> m
  | mamaInbox_create2 _ _ a => <[(kInbox, h) := (a, false)]> m
  | mamaTimer_create2 _ _ a => <[(kTimer, h) := (a, false)]> m
  | mamaSubscription_destroyEx sub => alter destroying (kSub, sub) m
  | mamaInbox_destroy i => alter destroying (kInbox, i) m
  | mamaTimer_destroy t => alter destroying (kTimer, t) m
  | _ => m
  end.

Definition apply_event (m : mama) (e : event) : mama :=
  match e with
  | eCall c MAMA_STATUS_OK h => apply_call c h m
  | _ => m
  end.

Definition after (log : list event) (m : mama) : mama := foldl apply_event m log.

(** ** Operations *)

Inductive op :=
  (* the program *)
  | oNewConnection (mw payload name : list byte)
  | oStartConnection (c : nat)
  | oDestroyConnection (c : nat)
  | oNewSession (c : nat)
  | oStartSession (x : nat)
  | oDestroySession (x : nat)
  | oGetPublisher (n : nat) (c : nat) (topic : list byte)
  | oDropPublisher (n : nat)
  | oPublish (n : nat) (msg : Z)
  | oNewSubscriber (x : nat) (topic : list byte) (sink : bool) (wc : wcType)
  | oStartSubscriber (a : nat)
  | oDestroySubscriber (a : nat)
  | oNewRequest (x : nat) (topic : list byte) (sink : bool)
  | oSend (a : nat) (msg : Z)
  | oWaitReply (a : nat) (seconds : double) (e : errno)
  | oDestroyRequest (a : nat)
  | oNewReply (c : nat)
  | oReply (a : nat) (request reply : Z) (fromInbox : bool)
  | oDestroyReply (a : nat)
  | oNewTimer (x : nat) (interval : double) (sink : bool)
  | oStartTimer (a : nat)
  | oDestroyTimer (a : nat)
  (* MAMA, by handle *)
  | oSubCreated (h : Z)
  | oSubError (h : Z) (status : mama_status)
  | oSubMsg (h : Z) (msg : Z)
  | oSubWcMsg (h : Z) (topic : list byte) (msg : Z)
  | oSubDestroyed (h : Z)
  | oInboxMsg (h : Z) (msg : Z)
  | oInboxError (h : Z) (status : mama_status)
  | oInboxDestroyed (h : Z)
  | oTimer (h : Z)
  | oTimerDestroyed (h : Z).

Definition held (s : sys) (k : kind) (a : nat) : Prop := (k, a) ∈ s_held s.
Definition called (s : sys) (k : kind) (h : Z) : Prop := is_Some (s_mama s !! (k, h)).

(** The handle in each object: NULL before it is started. *)
Definition handles (k : kind) (o : oz) : gmap nat Z :=
  match k with
  | kSub => s_sub <$> o_subs o
  | kInbox => r_inbox <$> o_reqs o
  | kTimer => t_timer <$> o_timers o
  end.
(** The session of each object. *)
Definition sessions_of (k : kind) (o : oz) : gmap nat nat :=
  match k with
  | kSub => s_session <$> o_subs o
  | kInbox => r_session <$> o_reqs o
  | kTimer => t_session <$> o_timers o
  end.
Definition has_conn (s : sys) (c : nat) : Prop := is_Some (o_conns (s_oz s) !! c).
Definition has_session (s : sys) (x : nat) : Prop := is_Some (o_sessions (s_oz s) !! x).
Definition ready (s : sys) (k : kind) (a : nat) : Prop :=
  ∃ x, sessions_of k (s_oz s) !! a = Some x ∧ has_session s x.

(** Nothing refers to the connection any more. *)
Definition unused (o : oz) (c : nat) : Prop :=
  (∀ x y, o_sessions o !! x = Some y → se_conn y ≠ c) ∧ (∀ a p, o_pubs o !! a = Some p → p_conn p ≠ c).

Definition unstarted (s : sys) (k : kind) (a : nat) : Prop := handles k (s_oz s) !! a = Some 0%Z.

Definition allowed (s : sys) (o : op) : Prop :=
  match o with
  | oNewConnection _ _ _ => True
  | oStartConnection c => has_conn s c
  | oDestroyConnection c => has_conn s c ∧ unused (s_oz s) c
  | oNewSession c => has_conn s c
  | oStartSession x | oDestroySession x => has_session s x
  | oGetPublisher n c _ => s_vars s !! n = None ∧ has_conn s c
  | oDropPublisher n | oPublish n _ => is_Some (s_vars s !! n)
  | oNewSubscriber x _ _ _ | oNewRequest x _ _ | oNewTimer x _ _ => has_session s x
  | oNewReply c => has_conn s c
  | oReply a _ _ _ => ∃ r, o_replies (s_oz s) !! a = Some r ∧ has_conn s (rp_conn r)
  | oDestroyReply a => is_Some (o_replies (s_oz s) !! a)
  | oStartSubscriber a =>
      held s kSub a ∧ unstarted s kSub a ∧ ready s kSub a
      ∧ ∀ x, o_subs (s_oz s) !! a = Some x → guess_wcType (s_wcType x) (s_topic x) = wcWS →
             is_Some (ws2posix (s_topic x) (s_topic x))
  | oDestroySubscriber a => held s kSub a
  | oSend a _ => held s kInbox a ∧ ready s kInbox a
  | oDestroyRequest a => held s kInbox a
  | oWaitReply a seconds _ =>
      held s kInbox a ∧ is_Some (to_int32 (dmul seconds (dint 1000)))
      ∧ ∀ r, o_reqs (s_oz s) !! a = Some r → is_Some (r_replied r)
  | oStartTimer a => held s kTimer a ∧ unstarted s kTimer a ∧ ready s kTimer a
  | oDestroyTimer a => held s kTimer a
  | oSubCreated h | oSubError h _ | oSubMsg h _ | oSubWcMsg h _ _ => called s kSub h
  | oSubDestroyed h => ∃ a, s_mama s !! (kSub, h) = Some (a, true)
  | oInboxMsg h _ | oInboxError h _ => called s kInbox h
  | oInboxDestroyed h => ∃ a, s_mama s !! (kInbox, h) = Some (a, true)
  | oTimer h => called s kTimer h
  | oTimerDestroyed h => ∃ a, s_mama s !! (kTimer, h) = Some (a, true)
  end.

Section System.

Context (answer : nat → mcall → mama_status) (handle_of : nat → mcall → Z).

Local Notation OC := (C oz event).

Definition var (s : sys) (n : nat) : OC nat := cpart (s_vars s !! n).
Definition closure (s : sys) (k : kind) (h : Z) : OC nat := cpart (fst <$> s_mama s !! (k, h)).
Definition void {A} (m : OC A) : OC nat := m ;; mret 0.

(** The result is the address of a new object, or of a publisher. *)
Definition run (s : sys) (o : op) : OC nat :=
  match o with
  | oNewConnection mw payload name => new_connection mw payload name
  | oStartConnection c => void (connection_start answer handle_of c)
  | oDestroyConnection c => void (connection_destroy answer handle_of c)
  | oNewSession c => new_session c
  | oStartSession x => void (session_start answer handle_of x)
  | oDestroySession x => void (session_destroy answer handle_of x)
  | oGetPublisher n c topic => p ← getPublisher (client n) c topic; cpart p
  | oDropPublisher n => void (p ← var s n; release (client n) p)
  | oPublish n msg => void (p ← var s n; publisher_publish answer handle_of p msg)
  | oNewSubscriber x topic sink wc => new_subscriber x topic sink wc
  | oStartSubscriber a => void (subscriber_start answer handle_of a)
  | oDestroySubscriber a => void (subscriber_destroy answer handle_of a)
  | oNewRequest x topic sink => new_request x topic sink
  | oSend a msg => void (request_send answer handle_of a msg)
  | oWaitReply a seconds e => void (request_waitReply a seconds e)
  | oDestroyRequest a => void (request_destroy answer handle_of a)
  | oNewReply c => new_reply c
  | oReply a request reply fromInbox => void (reply_send answer handle_of a request reply fromInbox)
  | oDestroyReply a => void (reply_destroy a)
  | oNewTimer x interval sink => new_timer x interval sink
  | oStartTimer a => void (timer_start answer handle_of a)
  | oDestroyTimer a => void (timer_destroy answer handle_of a)
  | oSubCreated h => void (closure s kSub h ≫= subscriber_createCB)
  | oSubError h st => void (a ← closure s kSub h; subscriber_errorCB a st)
  | oSubMsg h msg => void (a ← closure s kSub h; subscriber_msgCB a msg)
  | oSubWcMsg h topic msg => void (a ← closure s kSub h; subscriber_wcCB a topic msg)
  | oSubDestroyed h => void (closure s kSub h ≫= subscriber_destroyCB answer handle_of)
  | oInboxMsg h msg => void (a ← closure s kInbox h; request_msgCB a msg)
  | oInboxError h st => void (a ← closure s kInbox h; request_errorCB a st)
  | oInboxDestroyed h => void (closure s kInbox h ≫= request_destroyCB)
  | oTimer h => void (closure s kTimer h ≫= timer_timerCB)
  | oTimerDestroyed h => void (closure s kTimer h ≫= timer_destroyCB)
  end.

(** The program and MAMA after an operation with the result [a]. *)
Definition mama_next (o : op) (m : mama) : mama :=
  match o with
  | oSubDestroyed h => delete (kSub, h) m
  | oInboxDestroyed h => delete (kInbox, h) m
  | oTimerDestroyed h => delete (kTimer, h) m
  | _ => m
  end.

Definition held_next (o : op) (a : nat) (x : gset (kind * nat)) : gset (kind * nat) :=
  match o with
  | oNewSubscriber _ _ _ _ => {[(kSub, a)]} ∪ x
  | oNewRequest _ _ _ => {[(kInbox, a)]} ∪ x
  | oNewTimer _ _ _ => {[(kTimer, a)]} ∪ x
  | oDestroySubscriber b => x ∖ {[(kSub, b)]}
  | oDestroyRequest b => x ∖ {[(kInbox, b)]}
  | oDestroyTimer b => x ∖ {[(kTimer, b)]}
  | _ => x
  end.

Definition vars_next (o : op) (a : nat) (v : gmap nat nat) : gmap nat nat :=
  match o with
  | oGetPublisher n _ _ => <[n := a]> v
  | oDropPublisher n => delete n v
  | _ => v
  end.

Definition perform (s : sys) (o : op) : option (sys * list event) :=
  match run s o (s_oz s) with
  | Some (a, oz', log) =>
      Some (mkSys oz' (mama_next o (after log (s_mama s))) (held_next o a (s_held s)) (vars_next o a (s_vars s)), log)
  | None => None
  end.

(** Before the first operation there is nothing. *)
Definition initial (s : sys) : Prop := ∃ n calls, s = mkSys (mkOz ∅ ∅ ∅ ∅ ∅ ∅ ∅ n calls) ∅ ∅ ∅.

Inductive reachable : sys → Prop :=
  | reach_initial s : initial s → reachable s
  | reach_step s o s' log : reachable s → allowed s o → perform s o = Some (s', log) → reachable s'.

End System.

End System.
