(* ===== verification/OzProofs.v ===== *)
(** * The OZ objects: invariants and the operations that keep them

    The cache of publishers and its owners ([PubInv]), and the objects with
    callbacks ([ObjInv]). *)

From S2P Require Import Prelude CLib CMonad CDouble OzTopics Oz OzSystem.
Import Topics Oz System.

Module OzInv.

(** ** Publishers *)

(** The caches of all connections as one table, by connection and topic. *)
Definition cached (conns : gmap nat connection) (k : nat * list byte) : option nat :=
  conns !! k.1 ≫= λ c, c_pubs c !! k.2.

Definition p_key (p : publisher) : nat * list byte := (p_conn p, p_topic p).

(** [own]: what each [shared_ptr] variable points to. *)
Definition PubInv (own : owner → option nat) (cache : nat * list byte → option nat) (pubs : gmap nat publisher) (next : nat) : Prop :=
  (∀ t a, cache t = Some a ↔ ∃ p, pubs !! a = Some p ∧ p_key p = t)
  ∧ (∀ o a, own o = Some a ↔ ∃ p, pubs !! a = Some p ∧ o ∈ p_owners p)
  ∧ (∀ a p, pubs !! a = Some p → p_owners p ≠ ∅ ∧ a < next).

Definition upd (own : owner → option nat) (o : owner) (x : option nat) : owner → option nat :=
  λ o', if decide (o' = o) then x else own o'.

Lemma upd_same own o x : upd own o x o = x.
Proof. unfold upd. by rewrite decide_True. Qed.
Lemma upd_other own o o' x : o' ≠ o → upd own o x o' = own o'.
Proof. intros. unfold upd. by rewrite decide_False. Qed.

Lemma PubInv_ext own own' cache cache' pubs next next' :
  (∀ o, own o = own' o) → (∀ t, cache t = cache' t) → next ≤ next' →
  PubInv own cache pubs next → PubInv own' cache' pubs next'.
Proof.
  intros E Ec Hn (H1 & H2 & H3). split_and!; [intros t a; rewrite <-Ec; apply H1| |].
  - intros o a. by rewrite <-E.
  - intros a p Hp. destruct (H3 _ _ Hp). split; [done|lia].
Qed.

Lemma own_live own cache pubs next o a : PubInv own cache pubs next → own o = Some a → is_Some (pubs !! a).
Proof. intros (_ & H2 & _) Ho. apply H2 in Ho as (p & -> & _). done. Qed.

(** A publisher gets another handle. *)
Lemma PubInv_handle own cache pubs next a p h :
  pubs !! a = Some p → PubInv own cache pubs next → PubInv own cache (<[a := set_pub h p]> pubs) next.
Proof.
  intros Ep (H1 & H2 & H3). split_and!.
  - intros t b. rewrite H1. destruct (decide (b = a)) as [->|Hb].
    + rewrite lookup_insert_eq, Ep. split; intros (q & [= <-] & Hq); eexists; (split; [reflexivity|done]).
    + by rewrite lookup_insert_ne.
  - intros o b. rewrite H2. destruct (decide (b = a)) as [->|Hb].
    + rewrite lookup_insert_eq, Ep. split; intros (q & [= <-] & Hq); eexists; (split; [reflexivity|done]).
    + by rewrite lookup_insert_ne.
  - intros b q. destruct (decide (b = a)) as [->|Hb].
    + rewrite lookup_insert_eq. intros [= <-]. by apply (H3 a p).
    + rewrite lookup_insert_ne by done. apply H3.
Qed.

(** A variable gets a publisher that another one points to. *)
Lemma PubInv_share own cache pubs next o a p :
  own o = None → pubs !! a = Some p → PubInv own cache pubs next →
  PubInv (upd own o (Some a)) cache (<[a := set_owners ({[o]} ∪ p_owners p) p]> pubs) next.
Proof.
  intros Eo Ep (H1 & H2 & H3). split_and!.
  - intros t b. rewrite H1. destruct (decide (b = a)) as [->|Hb].
    + rewrite lookup_insert_eq, Ep. split; intros (q & [= <-] & Hq); eexists; (split; [reflexivity|done]).
    + by rewrite lookup_insert_ne.
  - intros o' b. destruct (decide (o' = o)) as [->|Ho].
    + rewrite upd_same. destruct (decide (b = a)) as [->|Hb].
      * rewrite lookup_insert_eq. split; [|done]. intros _. eexists. split; [reflexivity|]. cbn. set_solver.
      * rewrite lookup_insert_ne by done. split; [congruence|]. intros Hq. apply H2 in Hq. congruence.
    + rewrite upd_other by done. rewrite H2. destruct (decide (b = a)) as [->|Hb].
      * rewrite lookup_insert_eq, Ep. split; intros (q & [= <-] & Hq); eexists; (split; [reflexivity|]); cbn in *; set_solver.
      * by rewrite lookup_insert_ne.
  - intros b q. destruct (decide (b = a)) as [->|Hb].
    + rewrite lookup_insert_eq. intros [= <-]. destruct (H3 _ _ Ep). cbn. split; [set_solver|done].
    + rewrite lookup_insert_ne by done. apply H3.
Qed.

(** A new publisher. *)
Lemma PubInv_new own cache cache' pubs next o c t :
  own o = None → cache (c, t) = None → (∀ k, cache' k = if decide (k = (c, t)) then Some next else cache k) →
  PubInv own cache pubs next →
  PubInv (upd own o (Some next)) cache' (<[next := mkPublisher c 0 t {[o]}]> pubs) (S next).
Proof.
  intros Eo Et Ec (H1 & H2 & H3).
  assert (pubs !! next = None) as Hnew.
  { destruct (pubs !! next) as [q|] eqn:E; [|done]. destruct (H3 _ _ E). lia. }
  split_and!.
  - intros k b. rewrite Ec. destruct (decide (b = next)) as [->|Hb].
    + rewrite lookup_insert_eq. destruct (decide (k = (c, t))) as [->|Ht].
      * split; [|done]. intros _. by eexists.
      * split; [|by intros (q & [= <-] & E)]. intros Hc. apply H1 in Hc as (q & Hq & _). congruence.
    + rewrite lookup_insert_ne by done. destruct (decide (k = (c, t))) as [->|Ht]; [|apply H1].
      split; [congruence|]. intros Hq. apply H1 in Hq. congruence.
  - intros o' b. destruct (decide (o' = o)) as [->|Ho].
    + rewrite upd_same. destruct (decide (b = next)) as [->|Hb].
      * rewrite lookup_insert_eq. split; [|done]. intros _. eexists. split; [reflexivity|]. cbn. set_solver.
      * rewrite lookup_insert_ne by done. split; [congruence|]. intros Hq. apply H2 in Hq. congruence.
    + rewrite upd_other by done. rewrite H2. destruct (decide (b = next)) as [->|Hb].
      * rewrite lookup_insert_eq, Hnew. split; [by intros (? & ? & _)|]. intros (q & [= <-] & Hq). cbn in Hq. set_solver.
      * by rewrite lookup_insert_ne.
  - intros b q. destruct (decide (b = next)) as [->|Hb].
    + rewrite lookup_insert_eq. intros [= <-]. cbn. split; [set_solver|lia].
    + rewrite lookup_insert_ne by done. intros Hq. destruct (H3 _ _ Hq). split; [done|lia].
Qed.

(** A variable gives up its publisher, which others point to. *)
Lemma PubInv_drop own cache pubs next o a p :
  pubs !! a = Some p → o ∈ p_owners p → p_owners p ∖ {[o]} ≠ ∅ → PubInv own cache pubs next →
  PubInv (upd own o None) cache (<[a := set_owners (p_owners p ∖ {[o]}) p]> pubs) next.
Proof.
  intros Ep Ho Hne (H1 & H2 & H3). assert (own o = Some a) as Eo by (apply H2; eauto). split_and!.
  - intros t b. rewrite H1. destruct (decide (b = a)) as [->|Hb].
    + rewrite lookup_insert_eq, Ep. split; intros (q & [= <-] & Hq); eexists; (split; [reflexivity|done]).
    + by rewrite lookup_insert_ne.
  - intros o' b. destruct (decide (o' = o)) as [->|Hn].
    + rewrite upd_same. split; [done|]. destruct (decide (b = a)) as [->|Hb].
      * rewrite lookup_insert_eq. intros (q & [= <-] & Hq). cbn in Hq. set_solver.
      * rewrite lookup_insert_ne by done. intros Hq. apply H2 in Hq. congruence.
    + rewrite upd_other by done. rewrite H2. destruct (decide (b = a)) as [->|Hb].
      * rewrite lookup_insert_eq, Ep. split; intros (q & [= <-] & Hq); eexists; (split; [reflexivity|]); cbn in *; set_solver.
      * by rewrite lookup_insert_ne.
  - intros b q. destruct (decide (b = a)) as [->|Hb].
    + rewrite lookup_insert_eq. intros [= <-]. by destruct (H3 _ _ Ep).
    + rewrite lookup_insert_ne by done. apply H3.
Qed.

(** The last one does: the publisher and its entry are gone. *)
Lemma PubInv_last own cache cache' pubs next o a p :
  pubs !! a = Some p → o ∈ p_owners p → p_owners p ∖ {[o]} = ∅ →
  (∀ k, cache' k = if decide (k = p_key p) then None else cache k) → PubInv own cache pubs next →
  PubInv (upd own o None) cache' (delete a pubs) next.
Proof.
  intros Ep Ho He Ec (H1 & H2 & H3). assert (own o = Some a) as Eo by (apply H2; eauto).
  assert (cache (p_key p) = Some a) as Et by (apply H1; eauto). split_and!.
  - intros k b. rewrite Ec. destruct (decide (b = a)) as [->|Hb].
    + rewrite lookup_delete_eq. split; [|by intros (? & ? & _)]. case_decide as Ek; [done|]. intros Hc.
      apply H1 in Hc as (q & Hq & <-). congruence.
    + rewrite lookup_delete_ne by done. rewrite <-H1. case_decide as Ek; [subst k|done]. split; [done|congruence].
  - intros o' b. destruct (decide (o' = o)) as [->|Hn].
    + rewrite upd_same. split; [done|]. intros (q & Hq & Hin). apply lookup_delete_Some in Hq as [Hb Hq].
      assert (own o = Some b) by (apply H2; eauto). congruence.
    + rewrite upd_other by done. rewrite H2. destruct (decide (b = a)) as [->|Hb].
      * rewrite lookup_delete_eq, Ep. split; [|by intros (? & ? & _)]. intros (q & [= <-] & Hq). set_solver.
      * by rewrite lookup_delete_ne.
  - intros b q Hq. apply lookup_delete_Some in Hq as [_ Hq]. by apply H3.
Qed.

(** ** The operations on publishers *)

(** What they leave alone. *)
Definition others_same (s s' : oz) : Prop :=
  (set_cache ∅ <$> o_conns s' = set_cache ∅ <$> o_conns s ∧ o_sessions s' = o_sessions s ∧ o_replies s' = o_replies s)
  ∧ o_subs s' = o_subs s ∧ o_reqs s' = o_reqs s ∧ o_timers s' = o_timers s
  ∧ o_next s ≤ o_next s' ∧ o_calls s ≤ o_calls s'.

(** The part of the state with the publishers, given the variables. *)
Definition pubs_ok (own : owner → option nat) (s : oz) : Prop :=
  PubInv own (cached (o_conns s)) (o_pubs s) (o_next s).

(** The cache of one connection changes. *)
Lemma cached_insert (conns : gmap nat connection) c cn cn' t :
  conns !! c = Some cn →
  (∀ t', t' ≠ t → c_pubs cn' !! t' = c_pubs cn !! t') →
  ∀ k, cached (<[c := cn']> conns) k = if decide (k = (c, t)) then c_pubs cn' !! t else cached conns k.
Proof.
  intros Ec Hp [c' t']. unfold cached. cbn. destruct (decide (c' = c)) as [->|Hc].
  - rewrite lookup_insert_eq, Ec. cbn. case_decide as E; [by injection E as ->|]. apply Hp. congruence.
  - rewrite lookup_insert_ne by done. by rewrite decide_False by congruence.
Qed.

Lemma cached_same (conns : gmap nat connection) c cn cn' :
  conns !! c = Some cn → c_pubs cn' = c_pubs cn → ∀ k, cached (<[c := cn']> conns) k = cached conns k.
Proof.
  intros Ec Hp [c' t]. unfold cached. cbn. destruct (decide (c' = c)) as [->|Hc].
  - by rewrite lookup_insert_eq, Ec; cbn; rewrite Hp.
  - by rewrite lookup_insert_ne.
Qed.

Lemma conns_cache (conns : gmap nat connection) c cn m :
  conns !! c = Some cn → set_cache ∅ <$> <[c := set_cache m cn]> conns = set_cache ∅ <$> conns.
Proof. intros Ec. rewrite fmap_insert. apply insert_id. by rewrite lookup_fmap, Ec. Qed.

(** A publisher is alive only while its connection is. *)
Lemma pub_conn own (conns : gmap nat connection) pubs next a p :
  PubInv own (cached conns) pubs next → pubs !! a = Some p → is_Some (conns !! p_conn p).
Proof.
  intros (H1 & _) Ep. assert (cached conns (p_key p) = Some a) as Hc by (apply H1; eauto).
  unfold cached, p_key in Hc. cbn in Hc. destruct (conns !! p_conn p); [done|discriminate].
Qed.

(** A log that MAMA's objects do not depend on. *)
Definition quiet (log : list event) : Prop := ∀ m, after log m = m.

Lemma quiet_nil : quiet [].
Proof. done. Qed.

Lemma after_app l1 l2 m : after (l1 ++ l2) m = after l2 (after l1 m).
Proof. apply foldl_app. Qed.

Lemma quiet_app l1 l2 : quiet l1 → quiet l2 → quiet (l1 ++ l2).
Proof. intros H1 H2 m. by rewrite after_app, H1, H2. Qed.

Lemma frame_refl s : others_same s s.
Proof. by repeat split. Qed.

Lemma frame_trans s1 s2 s3 : others_same s1 s2 → others_same s2 s3 → others_same s1 s3.
Proof.
  intros ((A1 & A2 & A3) & A4 & A5 & A6 & A7 & A8) ((B1 & B2 & B3) & B4 & B5 & B6 & B7 & B8). split_and!; [congruence..|lia|lia].
Qed.

Lemma wp_conn s a c (Q : connection → oz → list event → Prop) : o_conns s !! a = Some c → Q c s [] → wp (the_conn a) Q s.
Proof. intros E HQ. unfold the_conn. apply wp_bind, wp_get, (wp_part _ _ _ _ E HQ). Qed.

Lemma wp_pub s a p (Q : publisher → oz → list event → Prop) : o_pubs s !! a = Some p → Q p s [] → wp (the_pub a) Q s.
Proof. intros E HQ. unfold the_pub. apply wp_bind, wp_get, (wp_part _ _ _ _ E HQ). Qed.

(** Step through an operation; pointers that are followed are given. *)
Ltac oz_steps := repeat (wp_step || lazymatch goal with
  | |- wp (put_conn _ _) _ _ => apply wp_modify
  | |- wp (put_sess _ _) _ _ => apply wp_modify
  | |- wp (put_pub _ _) _ _ => apply wp_modify
  | |- wp (put_sub _ _) _ _ => apply wp_modify
  | |- wp (put_req _ _) _ _ => apply wp_modify
  | |- wp (put_timer _ _) _ _ => apply wp_modify
  | |- wp new_addr _ _ => unfold new_addr
  | E : o_conns _ !! ?a = Some _ |- wp (the_conn ?a) _ _ => apply (wp_conn _ _ _ _ E)
  | |- wp (the_conn _) _ _ => eapply wp_conn; [apply lookup_insert_eq|]
  end; cbv zeta; cbn [app o_conns o_sessions o_pubs o_subs o_reqs o_replies o_timers o_next o_calls
    set_conns set_sessions set_pubs set_subs set_reqs set_replies set_timers set_next set_calls]).

Lemma getPublisher_wp own o c t s :
  pubs_ok own s → own o = None → is_Some (o_conns s !! c) →
  wp (getPublisher o c t) (λ r s' log, log = [] ∧ others_same s s'
    ∧ ∃ a p, r = Some a ∧ o_pubs s' !! a = Some p ∧ p_key p = (c, t) ∧ pubs_ok (upd own o (Some a)) s') s.
Proof.
  intros HI Ho [cn Ec]. unfold getPublisher. oz_steps. destruct (c_pubs cn !! t) as [a|] eqn:Et.
  - oz_steps. assert (cached (o_conns s) (c, t) = Some a) as Ht by (unfold cached; cbn; by rewrite Ec).
    apply (proj1 HI) in Ht as (p & Ep & Ht). rewrite Ep. oz_steps. split; [done|].
    split; [by repeat split|]. exists a, (set_owners ({[o]} ∪ p_owners p) p). split; [done|].
    split; [apply lookup_insert_eq|]. split; [done|]. by apply PubInv_share.
  - oz_steps. eapply wp_conn; [exact Ec|]. oz_steps. split; [done|].
    split; [split; [split; [by apply conns_cache|done]|]; split_and!; cbn; [done..|lia|done]|].
    exists (o_next s), (mkPublisher c 0 t {[o]}). split; [done|]. split; [apply lookup_insert_eq|]. split; [done|].
    eapply PubInv_new, HI; [done|by unfold cached; cbn; rewrite Ec|]. intros k. cbn [o_conns set_conns set_pubs set_next].
    rewrite (cached_insert _ _ cn _ t Ec).
    + cbn. by rewrite lookup_insert_eq.
    + intros t' Ht'. cbn. by rewrite lookup_insert_ne.
Qed.

Lemma release_wp own o a s :
  pubs_ok own s → own o = Some a →
  wp (release o a) (λ _ s' log, log = [] ∧ others_same s s' ∧ pubs_ok (upd own o None) s'
    ∧ ∀ p, o_pubs s !! a = Some p → o_pubs s' !! a = if decide (p_owners p = {[o]}) then None else Some (set_owners (p_owners p ∖ {[o]}) p)) s.
Proof.
  intros HI Ho. pose proof (proj1 (proj1 (proj2 HI) o a) Ho) as (p & Ep & Hin).
  destruct (pub_conn _ _ _ _ _ _ HI Ep) as [cn Ec].
  unfold release. oz_steps. apply (wp_pub _ _ _ _ Ep). oz_steps.
  assert (p_owners p ∖ {[o]} = ∅ ↔ p_owners p = {[o]}) as Hsing.
  { split; [|intros ->; set_solver]. intros He. apply set_eq. intros x. split; [|set_solver].
    intros Hx. destruct (decide (x = o)); [set_solver|]. assert (x ∈ p_owners p ∖ {[o]}) by set_solver. set_solver. }
  destruct (decide (p_owners p ∖ {[o]} = ∅)) as [He|He].
  - unfold publisher_destroy, removePublisher. oz_steps. eapply wp_pub; [apply lookup_insert_eq|].
    oz_steps. eapply wp_conn; [exact Ec|]. oz_steps.
    split; [done|]. split; [split; [split; [by apply conns_cache|done]|done]|]. split.
    + red. cbn [o_conns o_pubs o_next]. rewrite delete_insert_eq. eapply PubInv_last; [done..| |exact HI]. intros k.
      cbn [p_conn p_topic set_owners o_conns set_conns set_pubs]. rewrite (cached_insert _ _ cn _ (p_topic p) Ec).
      * cbn. by rewrite lookup_delete_eq.
      * intros t' Ht'. cbn. by rewrite lookup_delete_ne.
    + intros q Eq. rewrite delete_insert_eq, lookup_delete_eq. rewrite Ep in Eq. injection Eq as <-.
      rewrite decide_True by by apply Hsing. done.
  - oz_steps. split; [done|]. split; [by repeat split|]. split.
    + by apply PubInv_drop.
    + intros q Eq. cbn. rewrite lookup_insert_eq. rewrite Ep in Eq. injection Eq as <-.
      rewrite decide_False; [done|]. by rewrite <-Hsing.
Qed.

Section Calls.

Context (answer : nat → mcall → mama_status) (handle_of : nat → mcall → Z).

(** A call goes to MAMA and leaves the objects alone. *)
Definition ticked (s : oz) : oz := set_calls (S (o_calls s)) s.

Lemma call_handle_wp c s Q :
  Q (answer (o_calls s) c, handle_of (o_calls s) c) (ticked s) [eCall c (answer (o_calls s) c) (handle_of (o_calls s) c)] →
  wp (call_handle answer handle_of c) Q s.
Proof. done. Qed.

Lemma oz_call_wp c s (Q : mama_status → oz → list event → Prop) :
  Q (answer (o_calls s) c) (ticked s) [eCall c (answer (o_calls s) c) (handle_of (o_calls s) c)] →
  wp (call answer handle_of c) Q s.
Proof. done. Qed.

(** The calls that create and destroy nothing MAMA calls back. *)
Definition quiet_call (c : mcall) : Prop := ∀ h m, apply_call c h m = m.

Lemma quiet_event c st h : quiet_call c → quiet [eCall c st h].
Proof. intros Hc m. unfold after. cbn. by destruct st. Qed.

Lemma with_pub_wp own a f s :
  pubs_ok own s → is_Some (o_pubs s !! a) → (∀ h, quiet_call (f h)) →
  wp (with_pub answer handle_of a (λ h, call answer handle_of (f h)))
    (λ _ s' log, quiet log ∧ others_same s s' ∧ pubs_ok own s') s.
Proof.
  intros HI [p Ep] Hq. destruct (pub_conn _ _ _ _ _ _ HI Ep) as [cn Ec].
  unfold with_pub, CALL_MAMA_FUNC. oz_steps. apply (wp_pub _ _ _ _ Ep). case_decide as Hh.
  - oz_steps. apply call_handle_wp. oz_steps. cbn [fst snd]. case_decide as Hst.
    + oz_steps. split; [by apply quiet_event|]. split; [repeat split; cbn; lia|]. by apply PubInv_handle.
    + oz_steps. eapply wp_pub; [apply lookup_insert_eq|]. apply oz_call_wp. cbn [app].
      split; [apply (quiet_app [_] [_]); by apply quiet_event|]. split; [repeat split; cbn; lia|]. by apply PubInv_handle.
  - apply oz_call_wp. split; [by apply quiet_event|]. split; [repeat split; cbn; lia|]. done.
Qed.

Lemma conn_stays s s' c : others_same s s' → is_Some (o_conns s !! c) → is_Some (o_conns s' !! c).
Proof.
  intros ((E & _) & _) Hc. apply (f_equal (lookup c)) in E. rewrite !lookup_fmap in E.
  destruct (o_conns s' !! c), (o_conns s !! c); try done.
Qed.

Lemma reply_send_wp own a r request reply fromInbox s :
  pubs_ok own s → own local = None → o_replies s !! a = Some r → is_Some (o_conns s !! rp_conn r) →
  wp (reply_send answer handle_of a request reply fromInbox)
    (λ _ s' log, quiet log ∧ others_same s s' ∧ pubs_ok own s') s.
Proof.
  intros Hp Ho Er Hc. unfold reply_send, reply_getReplyTopic, CALL_MAMA_FUNC. destruct fromInbox; cbn [negb].
  - oz_steps. rewrite decide_False by by intros H. apply wp_bind. unfold the_reply. apply wp_bind, wp_get, (wp_part _ _ _ _ Er).
    apply wp_bind. eapply wp_mono; [|by apply getPublisher_wp].
    intros x s1 log1 (-> & F1 & b & p & -> & Ep & _ & Hp1). apply wp_bind. eapply wp_mono; [|eapply with_pub_wp; [done|by eexists|done]].
    intros st s2 log2 (Hq2 & F2 & Hp2). apply wp_bind. eapply wp_mono; [|apply (release_wp _ local b s2 Hp2 (upd_same _ _ _))].
    intros _ s3 log3 (-> & F3 & HI & _). apply wp_ret. cbn [app]. rewrite !app_nil_r. split; [done|].
    split; [by eapply frame_trans, frame_trans|]. eapply PubInv_ext, HI; [|done..].
    intros o. unfold upd. by repeat case_decide; subst.
  - oz_steps. rewrite decide_True by done. oz_steps. split; [done|]. by split; [apply frame_refl|].
Qed.

End Calls.

(** ** Objects with callbacks *)

(** [m]: the handle in each object of the kind, NULL or one of those given
    before ([old]), which no two objects share. What MAMA calls back exists
    and has the handle; what it is to destroy is no longer used. *)
Record ObjInv (k : kind) (m : gmap nat Z) (calls : mama) (held : gset (kind * nat)) (next : nat) (old : Z → Prop) : Prop := {
  oi_called h a b : calls !! (k, h) = Some (a, b) → m !! a = Some h ∧ h ≠ 0%Z ∧ (b = true → (k, a) ∉ held);
  oi_held a : (k, a) ∈ held → is_Some (m !! a);
  oi_next a : is_Some (m !! a) → a < next;
  oi_inj a a' h : m !! a = Some h → m !! a' = Some h → h ≠ 0%Z → a = a';
  oi_old a h : m !! a = Some h → h ≠ 0%Z → old h }.

Lemma ObjInv_new k m calls held next old :
  ObjInv k m calls held next old → ObjInv k (<[next := 0%Z]> m) calls ({[(k, next)]} ∪ held) (S next) old.
Proof.
  intros [H1 H2 H3 H4 H5].
  assert (∀ a, is_Some (m !! a) → a ≠ next) as Hne. { intros a Ha ->. apply H3 in Ha. lia. }
  split.
  - intros h' a b Hc. destruct (H1 _ _ _ Hc) as (Hm & H0 & Hb). assert (a ≠ next) by (apply Hne; eauto).
    rewrite lookup_insert_ne by done. split_and!; [done..|set_solver].
  - intros a [Ha|Ha]%elem_of_union.
    + assert (a = next) as -> by set_solver. by rewrite lookup_insert_eq.
    + apply H2 in Ha as Hs. apply Hne in Hs as ?. by rewrite lookup_insert_ne.
  - intros a. destruct (decide (a = next)) as [->|Ha]; [lia|]. rewrite lookup_insert_ne by done. intros Hs. apply H3 in Hs. lia.
  - intros a a' h. rewrite !lookup_insert_Some. intros [[? ?]|[? Ha]] [[? ?]|[? Ha']] ?; try congruence. by apply (H4 a a' h).
  - intros a h. rewrite lookup_insert_Some. intros [[? ?]|[? Ha]] ?; [congruence|eauto].
Qed.

(** Objects of another kind come and go. *)
Lemma ObjInv_frame k m calls calls' held held' next next' (old old' : Z → Prop) :
  (∀ h, calls' !! (k, h) = calls !! (k, h)) → (∀ a, (k, a) ∈ held' ↔ (k, a) ∈ held) → next ≤ next' →
  (∀ h, old h → old' h) →
  ObjInv k m calls held next old → ObjInv k m calls' held' next' old'.
Proof.
  intros Ec Eh Hn Ho [H1 H2 H3 H4 H5]. split; [| | |done|eauto].
  - intros h a b. rewrite Ec, Eh. apply H1.
  - intros a. rewrite Eh. apply H2.
  - intros a Ha. apply H3 in Ha. lia.
Qed.

(** An object MAMA does not know gets a new handle, or NULL. *)
Lemma ObjInv_handle k m calls held next (old old' : Z → Prop) a h :
  (∀ h' b, calls !! (k, h') ≠ Some (a, b)) → is_Some (m !! a) →
  (∀ h, old h → old' h) → (h ≠ 0%Z → ¬ old h ∧ old' h) →
  ObjInv k m calls held next old → ObjInv k (<[a := h]> m) calls held next old'.
Proof.
  intros Hu Ha Ho Hh [H1 H2 H3 H4 H5]. split.
  - intros h' a' b Hc. assert (a' ≠ a) by (intros ->; by eapply Hu). rewrite lookup_insert_ne by done. by apply H1.
  - intros a' Hd. destruct (decide (a' = a)) as [->|Hn]; [by rewrite lookup_insert_eq|]. rewrite lookup_insert_ne by done. by apply H2.
  - intros a'. destruct (decide (a' = a)) as [->|Hn]; [intros _; by apply H3|]. rewrite lookup_insert_ne by done. apply H3.
  - intros b b' h'. rewrite !lookup_insert_Some. intros [[? ?]|[? Hb]] [[? ?]|[? Hb']] Hn; try congruence.
    + subst. exfalso. apply (proj1 (Hh Hn)). eauto.
    + subst. exfalso. apply (proj1 (Hh Hn)). eauto.
    + by apply (H4 b b' h').
  - intros b h'. rewrite lookup_insert_Some. intros [[? ?]|[? Hb]] Hn; [subst; by apply Hh|eauto].
Qed.

(** MAMA gets an object with its handle. *)
Lemma ObjInv_create k m calls held next old a h :
  m !! a = Some h → h ≠ 0%Z →
  ObjInv k m calls held next old → ObjInv k m (<[(k, h) := (a, false)]> calls) held next old.
Proof.
  intros Ha Hh [H1 H2 H3 H4 H5]. split; [|done..].
  intros h' a' b. destruct (decide (h' = h)) as [->|Hn].
  - rewrite lookup_insert_eq. by intros [= <- <-].
  - rewrite lookup_insert_ne by congruence. apply H1.
Qed.

(** The program asks for the destruction of an object. *)
Lemma ObjInv_destroy k m calls held next old a h :
  m !! a = Some h → ObjInv k m calls held next old →
  ObjInv k m (alter destroying (k, h) calls) (held ∖ {[(k, a)]}) next old.
Proof.
  intros Ha [H1 H2 H3 H4 H5]. split; [|set_solver|done..].
  intros h' a' b. destruct (decide (h' = h)) as [->|Hn].
  - rewrite lookup_alter_eq. destruct (calls !! (k, h)) as [[a'' b'']|] eqn:Ec; [|done]. cbn. intros [= -> <-].
    destruct (H1 _ _ _ Ec) as (Hm & H0 & _). rewrite (H4 _ _ _ Ha Hm H0). split_and!; [done..|set_solver].
  - rewrite lookup_alter_ne by congruence. intros Hc. destruct (H1 _ _ _ Hc) as (Hm & H0 & Hb). split_and!; [done..|set_solver].
Qed.

(** It is no longer used although its destruction failed. *)
Lemma ObjInv_forget k m calls held next old a :
  ObjInv k m calls held next old → ObjInv k m calls (held ∖ {[(k, a)]}) next old.
Proof.
  intros [H1 H2 H3 H4 H5]. split; [|set_solver|done..]. intros h a' b Hc. destruct (H1 _ _ _ Hc) as (? & ? & ?).
  split_and!; [done..|set_solver].
Qed.

(** The callback of its destruction deletes it. *)
Lemma ObjInv_delete k m calls held next old a h :
  calls !! (k, h) = Some (a, true) → ObjInv k m calls held next old →
  ObjInv k (delete a m) (delete (k, h) calls) held next old.
Proof.
  intros Hc [H1 H2 H3 H4 H5]. destruct (H1 _ _ _ Hc) as (Hm & H0 & Hb). split.
  - intros h' a' b'. rewrite lookup_delete_Some. intros [Hn Hc']. destruct (H1 _ _ _ Hc') as (Hm' & H0' & Hb').
    rewrite lookup_delete_ne; [done|]. intros <-. apply Hn. congruence.
  - intros a' Ha'. rewrite lookup_delete_ne; [by apply H2|]. intros <-. by apply Hb.
  - intros a' [x Hx]. apply lookup_delete_Some in Hx as [_ Hx]. eauto.
  - intros b b' h'. rewrite !lookup_delete_Some. intros [_ Hx] [_ Hx']. eauto.
  - intros b h'. rewrite lookup_delete_Some. intros [_ Hx]. eauto.
Qed.

End OzInv.
