(* ===== verification/OzConn.v ===== *)
(** * Connections and sessions: their invariant and their operations

    Every session has its connection ([ConnInv]).  Starting a connection or a
    session changes its members only; a destruction that fails changes
    nothing. *)

From S2P Require Import Prelude CLib CMonad CDouble OzTopics Oz OzSystem OzProofs.
Import Topics Oz System OzInv.

Module OzConn.

Record ConnInv (o : oz) : Prop := {
  ci_session x y : o_sessions o !! x = Some y → is_Some (o_conns o !! se_conn y);
  ci_conn_next c : is_Some (o_conns o !! c) → c < o_next o;
  ci_session_next x : is_Some (o_sessions o !! x) → x < o_next o }.

(** The same connections and sessions, whatever their members. *)
Definition conns_kept (o o' : oz) : Prop :=
  (∀ c, is_Some (o_conns o' !! c) ↔ is_Some (o_conns o !! c)) ∧ se_conn <$> o_sessions o' = se_conn <$> o_sessions o.

Lemma conns_kept_refl o : conns_kept o o.
Proof. done. Qed.

Lemma conns_kept_eq o o' : o_conns o' = o_conns o → o_sessions o' = o_sessions o → conns_kept o o'.
Proof. intros E1 E2. split; [intros c; by rewrite E1|by rewrite E2]. Qed.

Lemma conns_kept_same o o' : others_same o o' → conns_kept o o'.
Proof.
  intros ((E & E2 & _) & _). split; [|by rewrite E2]. intros c. apply (f_equal (lookup c)) in E.
  rewrite !lookup_fmap in E. by destruct (o_conns o' !! c), (o_conns o !! c).
Qed.

Lemma session_kept o o' x y :
  conns_kept o o' → o_sessions o !! x = Some y → ∃ y', o_sessions o' !! x = Some y' ∧ se_conn y' = se_conn y.
Proof.
  intros [_ E] Ex. apply (f_equal (lookup x)) in E. rewrite !lookup_fmap, Ex in E. cbn in E.
  destruct (o_sessions o' !! x) as [y'|]; [|done]. exists y'. split; [done|]. cbn in E. congruence.
Qed.

Lemma session_from o o' x y :
  conns_kept o o' → o_sessions o' !! x = Some y → ∃ y', o_sessions o !! x = Some y' ∧ se_conn y' = se_conn y.
Proof. intros [Hc E] Ex. apply (session_kept o' o x y); [|done]. split; [intros c; symmetry; apply Hc|by symmetry]. Qed.

Lemma ConnInv_kept o o' : conns_kept o o' → o_next o ≤ o_next o' → ConnInv o → ConnInv o'.
Proof.
  intros Hk Hn [H1 H2 H3]. pose proof Hk as [Hc _]. split.
  - intros x y Ex. destruct (session_from _ _ _ _ Hk Ex) as (y' & Ey & <-). apply Hc. eauto.
  - intros c Hx. apply Hc, H2 in Hx. lia.
  - intros x [y Ex]. destruct (session_from _ _ _ _ Hk Ex) as (y' & Ey & _). assert (x < o_next o) by eauto. lia.
Qed.

(** ** Computations that keep them *)

Lemma conns_kept_trans o1 o2 o3 : conns_kept o1 o2 → conns_kept o2 o3 → conns_kept o1 o3.
Proof. intros [C1 S1] [C2 S2]. split; [intros c; by rewrite C2|congruence]. Qed.

(** The reply objects too. *)
Definition kept (o o' : oz) : Prop := conns_kept o o' ∧ o_replies o' = o_replies o.

Lemma kept_refl o : kept o o.
Proof. done. Qed.
Lemma kept_trans o1 o2 o3 : kept o1 o2 → kept o2 o3 → kept o1 o3.
Proof. intros [C1 E1] [C2 E2]. split; [by eapply conns_kept_trans|congruence]. Qed.
Lemma kept_eq o o' : o_conns o' = o_conns o → o_sessions o' = o_sessions o → o_replies o' = o_replies o → kept o o'.
Proof. intros. split; [by apply conns_kept_eq|done]. Qed.

Definition stays {A} (m : C oz event A) : Prop := ∀ o a o' log, m o = Some (a, o', log) → kept o o'.

Lemma stays_ret {A} (a : A) : stays (mret a).
Proof. intros o b o' log [= <- <- <-]. apply kept_refl. Qed.
Lemma stays_get : stays cget.
Proof. intros o b o' log [= <- <- <-]. apply kept_refl. Qed.
Lemma stays_emit e : stays (emit e).
Proof. intros o b o' log [= <- <- <-]. apply kept_refl. Qed.
Lemma stays_part {A} (x : option A) : stays (cpart x).
Proof. intros o b o' log. unfold cpart. destruct x; [|done]. intros [= <- <- <-]. apply kept_refl. Qed.
Lemma stays_bind {A B} (m : C oz event A) (k : A → C oz event B) : stays m → (∀ a, stays (k a)) → stays (m ≫= k).
Proof.
  intros Hm Hk o b o' log E. apply C_bind_Some in E as (a & o1 & l1 & l2 & E1 & E2 & _).
  eapply kept_trans; [exact (Hm _ _ _ _ E1)|exact (Hk a _ _ _ _ E2)].
Qed.
Lemma stays_modify (f : oz → oz) : (∀ o, o_conns (f o) = o_conns o ∧ o_sessions (f o) = o_sessions o ∧ o_replies (f o) = o_replies o) → stays (cmodify f).
Proof. intros Hf o b o' log [= <- <- <-]. by apply kept_eq; apply Hf. Qed.

(** Reads, and writes to the objects. *)
Lemma stays_read {A} (f : oz → option A) : stays (s ← cget; cpart (f s)).
Proof. apply stays_bind; [apply stays_get|]. intros s. apply stays_part. Qed.
Lemma stays_new_addr : stays new_addr.
Proof. intros o b o' log [= <- <- <-]. by apply kept_eq. Qed.
Lemma stays_put_pub a p : stays (put_pub a p).
Proof. by apply stays_modify. Qed.
Lemma stays_put_sub a x : stays (put_sub a x).
Proof. by apply stays_modify. Qed.
Lemma stays_put_req a r : stays (put_req a r).
Proof. by apply stays_modify. Qed.
Lemma stays_put_timer a t : stays (put_timer a t).
Proof. by apply stays_modify. Qed.

Lemma stays_put_conn {A} a (f : connection → connection) (k : connection → () → C oz event A) :
  (∀ c x, stays (k c x)) → stays (c ← the_conn a; put_conn a (f c) ≫= k c).
Proof.
  intros Hk o b o' log E. apply C_bind_Some in E as (c & o1 & l1 & l2 & E1 & E2 & _).
  unfold the_conn in E1. apply C_bind_Some in E1 as (s & o2 & l3 & l4 & [= <- <- <-] & E1 & _).
  unfold cpart in E1. destruct (o_conns o !! a) as [c0|] eqn:Ec; [|done]. injection E1 as <- <- <-.
  apply C_bind_Some in E2 as ([] & o3 & l5 & l6 & [= <- <-] & E2 & _). apply Hk in E2.
  eapply kept_trans; [|exact E2]. split; [|done]. split; [|done]. intros d. cbn.
  destruct (decide (d = a)) as [->|Hd]; [rewrite lookup_insert_eq, Ec; by split|by rewrite lookup_insert_ne].
Qed.

Lemma stays_remove a t : stays (removePublisher a t).
Proof.
  unfold removePublisher. intros o b o' log E.
  apply (stays_put_conn a (λ c, set_cache (delete t (c_pubs c)) c) (λ _ _, mret ()) (λ _ _, stays_ret _) o () o' log).
  apply C_bind_Some in E as (c & o1 & l1 & l2 & E1 & E2 & ->). rewrite (C_bind_eq _ _ _ _ _ _ E1).
  destruct b. by rewrite (C_void _ _ _ _ _ E2).
Qed.

Ltac stays_step := first
  [apply stays_ret | apply stays_emit | apply stays_part | apply stays_read | apply stays_get | apply stays_new_addr
  |apply stays_put_pub | apply stays_put_sub | apply stays_put_req | apply stays_put_timer
  |apply stays_remove | apply stays_modify; done | apply stays_put_conn; intros ? []
  |apply stays_bind; [|intros ?] | case_match | case_decide].

(** ** New ones, and their end *)

Lemma ConnInv_new_connection o cn :
  ConnInv o → ConnInv (set_conns (<[o_next o := cn]> (o_conns o)) (set_next (S (o_next o)) o)).
Proof.
  intros [H1 H2 H3]. split; cbn.
  - intros x y Ex. destruct (decide (se_conn y = o_next o)) as [->|Hn]; [by rewrite lookup_insert_eq|].
    rewrite lookup_insert_ne by done. eauto.
  - intros c. destruct (decide (c = o_next o)) as [->|Hn]; [lia|]. rewrite lookup_insert_ne by done. intros Hc%H2. lia.
  - intros x Hx%H3. lia.
Qed.

Lemma ConnInv_new_session o c y :
  ConnInv o → is_Some (o_conns o !! c) → se_conn y = c →
  ConnInv (set_sessions (<[o_next o := y]> (o_sessions o)) (set_next (S (o_next o)) o)).
Proof.
  intros [H1 H2 H3] Hc Ey. split; cbn.
  - intros x z [[_ <-]|[_ Ex]]%lookup_insert_Some; [by rewrite Ey|eauto].
  - intros d Hd%H2. lia.
  - intros x. destruct (decide (x = o_next o)) as [->|Hn]; [lia|]. rewrite lookup_insert_ne by done. intros Hx%H3. lia.
Qed.

Lemma ConnInv_delete_connection o c :
  ConnInv o → (∀ x y, o_sessions o !! x = Some y → se_conn y ≠ c) → ConnInv (set_conns (delete c (o_conns o)) o).
Proof.
  intros [H1 H2 H3] Hu. split; cbn; [| |done].
  - intros x y Ex. rewrite lookup_delete_ne; [by eapply H1|]. intros E. by eapply Hu.
  - intros d [cn Hd]. apply lookup_delete_Some in Hd as [_ Hd]. eauto.
Qed.

Lemma ConnInv_delete_session o x : ConnInv o → ConnInv (set_sessions (delete x (o_sessions o)) o).
Proof.
  intros [H1 H2 H3]. split; cbn; [|done|].
  - intros z y Ez. apply lookup_delete_Some in Ez as [_ Ez]. eauto.
  - intros z [y Ez]. apply lookup_delete_Some in Ez as [_ Ez]. eauto.
Qed.

(** A connection without publishers has an empty cache. *)
Lemma cached_delete_connection own conns pubs next c :
  PubInv own (cached conns) pubs next → (∀ a p, pubs !! a = Some p → p_conn p ≠ c) →
  ∀ k, cached (delete c conns) k = cached conns k.
Proof.
  intros (H1 & _) Hu [d t]. unfold cached at 1. cbn [fst snd]. destruct (decide (d = c)) as [->|Hd].
  - rewrite lookup_delete_eq. cbn. destruct (cached conns (c, t)) as [a|] eqn:E; [|done].
    apply H1 in E as (p & Ep & Ek). exfalso. apply (Hu _ _ Ep). unfold p_key in Ek. congruence.
  - by rewrite lookup_delete_ne.
Qed.

Lemma cached_new_connection (conns : gmap nat connection) c cn :
  conns !! c = None → c_pubs cn = ∅ → ∀ k, cached (<[c := cn]> conns) k = cached conns k.
Proof.
  intros Ec Hp [d t]. unfold cached. cbn. destruct (decide (d = c)) as [->|Hd].
  - by rewrite lookup_insert_eq, Ec; cbn; rewrite Hp.
  - by rewrite lookup_insert_ne.
Qed.

(** ** Starting *)

Section Start.

Context (answer : nat → mcall → mama_status) (handle_of : nat → mcall → Z).

(** Only the members of one connection change, and not its cache. *)
Definition conn_like (a : nat) (o o' : oz) : Prop :=
  ∃ c c' n, o_conns o !! a = Some c ∧ c_pubs c' = c_pubs c ∧ o_calls o ≤ n
    ∧ o' = set_calls n (set_conns (<[a := c']> (o_conns o)) o).

Lemma conn_like_refl a o : is_Some (o_conns o !! a) → conn_like a o o.
Proof. intros [c Ec]. exists c, c, (o_calls o). rewrite insert_id by done. split_and!; [done..|by destruct o]. Qed.

Lemma conn_like_trans a o1 o2 o3 : conn_like a o1 o2 → conn_like a o2 o3 → conn_like a o1 o3.
Proof.
  intros (c & c' & n & Ec & Ep & Hn & ->) (d & d' & m & Ed & Eq & Hm & ->). cbn in *.
  rewrite lookup_insert_eq in Ed. injection Ed as <-. exists c, d', m. rewrite insert_insert_eq.
  split_and!; [done|congruence|lia|done].
Qed.

Lemma conn_like_kept a o o' : conn_like a o o' → kept o o'.
Proof.
  intros (c & c' & n & Ec & _ & _ & ->). split; [|done]. split; [|done]. intros d. cbn. destruct (decide (d = a)) as [->|Hd].
  - rewrite lookup_insert_eq, Ec. by split.
  - by rewrite lookup_insert_ne.
Qed.

Definition retains (a : nat) (m : C oz event mama_status) : Prop :=
  ∀ o, is_Some (o_conns o !! a) → wp m (λ _ o' log, quiet log ∧ conn_like a o o') o.

Lemma retains_next {A} (m : C oz event A) a e o o1 :
  quiet [e] → conn_like a o o1 → wp m (λ _ o' log, quiet log ∧ conn_like a o1 o') o1 →
  wp m (λ _ o' log, quiet (e :: log) ∧ conn_like a o o') o1.
Proof. intros Hq Hl. apply wp_mono. intros x o' log [Hq' Ho]. split; [by apply (quiet_app [e])|by eapply conn_like_trans]. Qed.

Lemma retains_ret a st : retains a (mret st).
Proof. intros o Ho. apply wp_ret. split; [apply quiet_nil|by apply conn_like_refl]. Qed.

Lemma retains_then a st k : retains a k → retains a (CALL_MAMA_FUNC (mret st) k).
Proof. intros Hk o Ho. unfold CALL_MAMA_FUNC. apply wp_bind, wp_ret. case_decide; [by apply retains_ret|by apply Hk]. Qed.

Lemma ticked_like a o : is_Some (o_conns o !! a) → conn_like a o (ticked o).
Proof.
  intros [c Ec]. exists c, c, (S (o_calls o)). rewrite insert_id by done. split_and!; [done..|lia|by destruct o].
Qed.

Lemma retains_call a c k : quiet_call c → retains a k → retains a (CALL_MAMA_FUNC (call answer handle_of c) k).
Proof.
  intros Hc Hk o Ho. unfold CALL_MAMA_FUNC. apply wp_bind, oz_call_wp.
  apply (retains_next _ a _ o); [by apply quiet_event|by apply ticked_like|].
  case_decide; [by apply retains_ret|by apply Hk].
Qed.

(** A call whose result goes to the connection. *)
Lemma retains_member a (c : connection → mcall) (f : Z → connection → connection) k :
  (∀ cn, quiet_call (c cn)) → (∀ h cn, c_pubs (f h cn) = c_pubs cn) → retains a k →
  retains a (cn ← the_conn a; r ← call_handle answer handle_of (c cn); put_conn a (f r.2 cn) ;; CALL_MAMA_FUNC (mret r.1) k).
Proof.
  intros Hc Hf Hk o [cn Ecn]. apply wp_bind, (wp_conn _ _ _ _ Ecn), wp_bind, call_handle_wp.
  apply wp_bind, wp_modify. cbn [app].
  set (o1 := set_conns _ _). apply (retains_next _ a _ o o1); [by apply quiet_event| |].
  - exists cn, (f (handle_of (o_calls o) (c cn)) cn), (S (o_calls o)). split_and!; [done|apply Hf|lia|done].
  - apply retains_then; [done|]. cbn. by rewrite lookup_insert_eq.
Qed.

Lemma retains_conn a k : (∀ cn, retains a (k cn)) → retains a (cn ← the_conn a; k cn).
Proof. intros Hk o Ho. pose proof Ho as [cn Ecn]. apply wp_bind, (wp_conn _ _ _ _ Ecn). by apply Hk. Qed.

Lemma connection_start_like a : retains a (connection_start answer handle_of a).
Proof.
  unfold connection_start.
  repeat first [apply retains_member; [done|done|]|apply retains_call; [done|]|apply retains_conn; intros ?|apply retains_ret|apply retains_then].
Qed.

(** The same for a session. *)
Definition session_like (x : nat) (o o' : oz) : Prop :=
  ∃ y y' n, o_sessions o !! x = Some y ∧ se_conn y' = se_conn y ∧ o_calls o ≤ n
    ∧ o' = set_calls n (set_sessions (<[x := y']> (o_sessions o)) o).

Lemma session_like_intro x o y q d n :
  o_sessions o !! x = Some y → o_calls o ≤ n →
  session_like x o (set_calls n (set_sessions (<[x := mkSession (se_conn y) q d]> (o_sessions o)) o)).
Proof. intros Ey Hn. by exists y, (mkSession (se_conn y) q d), n. Qed.

Lemma session_like_kept x o o' : session_like x o o' → kept o o'.
Proof.
  intros (y & y' & n & Ey & Ec & _ & ->). split; [|done]. split; [done|]. cbn. rewrite fmap_insert. apply insert_id. by rewrite lookup_fmap, Ey, Ec.
Qed.

Lemma wp_sess s a x (Q : session → oz → list event → Prop) : o_sessions s !! a = Some x → Q x s [] → wp (the_sess a) Q s.
Proof. intros E HQ. unfold the_sess. apply wp_bind, wp_get, (wp_part _ _ _ _ E HQ). Qed.

Lemma session_start_like o x :
  ConnInv o → is_Some (o_sessions o !! x) →
  wp (session_start answer handle_of x) (λ _ o' log, quiet log ∧ session_like x o o') o.
Proof.
  intros HC [y Ey]. destruct (ci_session _ HC _ _ Ey) as [cn Ecn]. unfold session_start, CALL_MAMA_FUNC.
  apply wp_bind, (wp_sess _ _ _ _ Ey), wp_bind, (wp_conn _ _ _ _ Ecn), wp_bind, call_handle_wp. cbn [fst snd]. oz_steps.
  assert (∀ l r, quiet [l] → quiet [r] → quiet [l; r]) as Hq by (intros l r; apply (quiet_app [l] [r])).
  case_decide.
  - oz_steps. split; [by apply quiet_event|]. apply (session_like_intro x o y _ _ (S (o_calls o))); [done|lia].
  - oz_steps. eapply wp_sess; [apply lookup_insert_eq|]. oz_steps. apply call_handle_wp. cbn [fst snd]. oz_steps.
    unfold ticked. cbn [o_sessions set_sessions set_calls]. rewrite insert_insert_eq.
    case_decide; oz_steps; (split; [apply Hq; by apply quiet_event|]);
      (apply (session_like_intro x o y _ _ (S (S (o_calls o)))); [done|lia]).
Qed.

(** ** Destroying *)

Ltac quiet_log := repeat first [solve [apply quiet_event; done]|apply (quiet_app [_]); [apply quiet_event; done|]].

(** One that fails only counts its calls. *)
Lemma connection_destroy_wp o a :
  is_Some (o_conns o !! a) →
  wp (connection_destroy answer handle_of a) (λ st o' log, quiet log
    ∧ ∃ n, o_calls o ≤ n ∧ o' = set_calls n (if decide (st = MAMA_STATUS_OK) then set_conns (delete a (o_conns o)) o else o)
    ∧ ((∀ i d, answer i d = MAMA_STATUS_OK) → st = MAMA_STATUS_OK)) o.
Proof.
  intros [c Ec]. unfold connection_destroy, CALL_MAMA_FUNC. apply wp_bind, (wp_conn _ _ _ _ Ec).
  do 3 (apply wp_bind, oz_call_wp; case_decide as Hst;
    [oz_steps; split; [quiet_log|];
     eexists; split; [|split; [rewrite decide_False by done; reflexivity|intros Hok; by rewrite Hok in Hst]]; cbn; lia|clear Hst]).
  oz_steps. split; [quiet_log|].
  eexists. split; [|split; [rewrite decide_True by done; reflexivity|done]]. cbn. lia.
Qed.

Lemma session_destroy_wp o x :
  is_Some (o_sessions o !! x) →
  wp (session_destroy answer handle_of x) (λ st o' log, quiet log
    ∧ ∃ n, o_calls o ≤ n ∧ o' = set_calls n (if decide (st = MAMA_STATUS_OK) then set_sessions (delete x (o_sessions o)) o else o)
    ∧ ((∀ i d, answer i d = MAMA_STATUS_OK) → st = MAMA_STATUS_OK)) o.
Proof.
  intros [y Ey]. unfold session_destroy, CALL_MAMA_FUNC. apply wp_bind, (wp_sess _ _ _ _ Ey).
  do 2 (apply wp_bind, oz_call_wp; case_decide as Hst;
    [oz_steps; split; [quiet_log|];
     eexists; split; [|split; [rewrite decide_False by done; reflexivity|intros Hok; by rewrite Hok in Hst]]; cbn; lia|clear Hst]).
  oz_steps. split; [quiet_log|].
  eexists. split; [|split; [rewrite decide_True by done; reflexivity|done]]. cbn. lia.
Qed.

End Start.

End OzConn.
