(* ===== verification/OzSpec.v ===== *)
(** * The OZ objects in every program and every interleaving

    The invariant of [OzSystem], kept by each operation of the program and
    each callback of MAMA. *)

From S2P Require Import Prelude CLib CMonad CDouble OzTopics Oz OzSystem OzProofs OzConn.
Import Topics Oz System OzInv OzConn.

Module OzSafe.

(** ** What MAMA promises *)

(** The calls whose handle is kept in an object that is called back. *)
Definition creates (c : mcall) : Prop :=
  match c with mamaSubscription_allocate | mamaInbox_create2 _ _ _ | mamaTimer_create2 _ _ _ => True | _ => False end.

(** A creation gives a handle of its own when it succeeds, and leaves NULL
    when it fails. *)
Class Mama (answer : nat → mcall → mama_status) (handle_of : nat → mcall → Z) := {
  handle_fresh n m c d : creates c → creates d → handle_of n c = handle_of m d → handle_of n c ≠ 0%Z → n = m;
  handle_ok n c : creates c → answer n c = MAMA_STATUS_OK → handle_of n c ≠ 0%Z;
  handle_failed n c : creates c → answer n c ≠ MAMA_STATUS_OK → handle_of n c = 0%Z }.

Section Safe.

Context (answer : nat → mcall → mama_status) (handle_of : nat → mcall → Z) `{!Mama answer handle_of}.

Definition old (o : oz) (h : Z) : Prop := ∃ n c, n < o_calls o ∧ creates c ∧ handle_of n c = h.

(** What the variables of type [shared_ptr] point to. *)
Definition own (s : sys) (o : owner) : option nat :=
  match o with
  | client n => s_vars s !! n
  | ofRequest r => o_reqs (s_oz s) !! r ≫= r_pub
  | local => None
  end.

(** A request with an inbox has its semaphore and its publisher, and MAMA
    knows it. *)
Definition ReqInv (reqs : gmap nat request) (calls : mama) : Prop :=
  ∀ a r, reqs !! a = Some r → r_inbox r ≠ 0%Z →
    is_Some (r_replied r) ∧ is_Some (r_pub r) ∧ ∃ b, calls !! (kInbox, r_inbox r) = Some (a, b).

Definition Inv (s : sys) : Prop :=
  pubs_ok (own s) (s_oz s) ∧ ConnInv (s_oz s)
  ∧ (∀ k, ObjInv k (handles k (s_oz s)) (s_mama s) (s_held s) (o_next (s_oz s)) (old (s_oz s)))
  ∧ ReqInv (o_reqs (s_oz s)) (s_mama s).

Lemma old_mono (o o' : oz) h : o_calls o ≤ o_calls o' → old o h → old o' h.
Proof. intros Hn (n & c & ? & ? & ?). exists n, c. split; [lia|done]. Qed.

(** The handle of the next call. *)
Lemma new_handle o c : creates c → handle_of (o_calls o) c ≠ 0%Z →
  ¬ old o (handle_of (o_calls o) c) ∧ ∀ o', o_calls o < o_calls o' → old o' (handle_of (o_calls o) c).
Proof.
  intros Hc H0. split.
  - intros (n & d & Hn & Hd & E). assert (n = o_calls o); [|lia]. symmetry. eapply handle_fresh; [exact Hc|exact Hd|done|done].
  - intros o' Ho. by exists (o_calls o), c.
Qed.

Lemma pubs_ok_ext own1 own2 s s' :
  (∀ o, own1 o = own2 o) → o_conns s' = o_conns s → o_pubs s' = o_pubs s → o_next s ≤ o_next s' →
  pubs_ok own1 s → pubs_ok own2 s'.
Proof. intros E Ec Ep Hn HP. unfold pubs_ok. rewrite Ec, Ep. by eapply PubInv_ext, HP. Qed.

(** ** Operations on publishers *)

Lemma inv_quiet s oz' log vars' :
  Inv s → quiet log → others_same (s_oz s) oz' →
  pubs_ok (own (mkSys oz' (s_mama s) (s_held s) vars')) oz' →
  Inv (mkSys oz' (after log (s_mama s)) (s_held s) vars').
Proof.
  intros (HP & HS & HO & HR) Hq F HP'. rewrite Hq. pose proof F as (_ & F2 & F3 & F4 & F5 & F6).
  split; [done|]. cbn [s_oz s_mama s_held]. split; [by eapply ConnInv_kept, HS; [apply conns_kept_same|]|]. split; [|by rewrite F3].
  intros k. assert (handles k oz' = handles k (s_oz s)) as -> by (destruct k; cbn; congruence).
  eapply ObjInv_frame, HO; [done|done|done|]. intros h. by apply old_mono.
Qed.

(** [allowed] operations keep the invariant. *)
Definition keeps (s : sys) (o : op) : Prop :=
  wp (run answer handle_of s o)
    (λ a oz' log, Inv (mkSys oz' (mama_next o (after log (s_mama s))) (held_next o a (s_held s)) (vars_next o a (s_vars s))))
    (s_oz s).

Lemma keeps_get s n c topic : Inv s → allowed s (oGetPublisher n c topic) → keeps s (oGetPublisher n c topic).
Proof.
  intros HI [Hn Hc]. unfold keeps, run. apply wp_bind. eapply wp_mono; [|apply (getPublisher_wp (own s)); [by apply HI|done|done]].
  intros r s1 log1 (-> & F & a & p & -> & _ & _ & HP). apply (wp_part _ _ _ _ eq_refl). cbn [app mama_next held_next vars_next].
  apply (inv_quiet s s1 []); [done|done|done|]. eapply pubs_ok_ext, HP; [|done..]. intros o. unfold upd.
  destruct F as (_ & _ & F3 & _). destruct o as [m|r|]; cbn.
  - destruct (decide (m = n)) as [->|Hm]; [rewrite decide_True, lookup_insert_eq by done; done|].
    rewrite decide_False, lookup_insert_ne by congruence. done.
  - by rewrite F3.
  - done.
Qed.

Lemma keeps_drop s n : Inv s → is_Some (s_vars s !! n) → keeps s (oDropPublisher n).
Proof.
  intros HI [a Ha]. unfold keeps, run, void, var. do 2 apply wp_bind. apply (wp_part _ _ _ _ Ha).
  eapply wp_mono; [|apply (release_wp (own s) (client n) a); [by apply HI|done]].
  intros _ s1 log1 (-> & F & HP & _). apply wp_ret. cbn [app mama_next held_next vars_next].
  apply (inv_quiet s s1 []); [done|done|done|]. eapply pubs_ok_ext, HP; [|done..]. intros o. unfold upd.
  destruct F as (_ & _ & F3 & _). destruct o as [m|r|]; cbn.
  - destruct (decide (m = n)) as [->|Hm]; [rewrite decide_True, lookup_delete_eq by done; done|].
    rewrite decide_False, lookup_delete_ne by congruence. done.
  - by rewrite F3.
  - done.
Qed.

(** Operations that leave the variables alone. *)
Lemma inv_frame s oz' log :
  Inv s → quiet log ∧ others_same (s_oz s) oz' ∧ pubs_ok (own s) oz' →
  Inv (mkSys oz' (after log (s_mama s)) (s_held s) (s_vars s)).
Proof.
  intros HI (Hq & F & HP). apply inv_quiet; [done..|]. eapply pubs_ok_ext, HP; [|done..]. intros [m|r|]; cbn; [done| |done].
  by destruct F as (_ & _ & -> & _).
Qed.

Lemma keeps_publish s n msg : Inv s → is_Some (s_vars s !! n) → keeps s (oPublish n msg).
Proof.
  intros HI [a Ha]. unfold keeps, run, void, var. do 2 apply wp_bind. apply (wp_part _ _ _ _ Ha).
  eapply wp_mono; [|apply (with_pub_wp _ _ (own s)); [by apply HI| |done]].
  - intros st s1 log1 H. apply wp_ret. cbn [app]. rewrite app_nil_r. by apply inv_frame.
  - destruct HI as (HP & _). by eapply own_live; [exact HP|exact (Ha : own s (client n) = _)].
Qed.

Lemma keeps_reply s a request reply fromInbox :
  Inv s → allowed s (oReply a request reply fromInbox) → keeps s (oReply a request reply fromInbox).
Proof.
  intros HI (r & Er & Hc). unfold keeps, run, void. apply wp_bind.
  eapply wp_mono; [|eapply (reply_send_wp _ _ (own s)); [by apply HI|done|exact Er|exact Hc]].
  intros st s1 log1 H. apply wp_ret. rewrite app_nil_r. by apply inv_frame.
Qed.

(** ** Connections, sessions and replies *)

(** The objects are the same, and so are the publishers and the caches. *)
Definition objects_same (o o' : oz) : Prop :=
  o_pubs o' = o_pubs o ∧ o_subs o' = o_subs o ∧ o_reqs o' = o_reqs o ∧ o_timers o' = o_timers o
  ∧ o_next o ≤ o_next o' ∧ o_calls o ≤ o_calls o' ∧ ∀ k, cached (o_conns o') k = cached (o_conns o) k.

Lemma inv_conns s oz' log :
  Inv s → quiet log ∧ objects_same (s_oz s) oz' ∧ ConnInv oz' → Inv (mkSys oz' (after log (s_mama s)) (s_held s) (s_vars s)).
Proof.
  intros (HP & HS & HO & HR) (Hq & (F1 & F2 & F3 & F4 & F5 & F6 & F7) & HC). rewrite Hq.
  split; [|split; [done|split; [|by cbn; rewrite F3]]]; cbn [s_oz s_mama s_held].
  - unfold pubs_ok. rewrite F1. eapply PubInv_ext, HP; [|done|done]. intros [n|r|]; cbn; [done|by rewrite F3|done].
  - intros k. assert (handles k oz' = handles k (s_oz s)) as -> by (destruct k; cbn; congruence).
    eapply ObjInv_frame, HO; [done|done|done|]. intros h. by apply old_mono.
Qed.

(** Enough for an operation that is one of those. *)
Lemma keeps_conns s o {A} (m : C oz event A) :
  Inv s → run answer handle_of s o = void m →
  (∀ oz' a x, mama_next o oz' = oz' ∧ held_next o a x = x) → vars_next o 0 (s_vars s) = s_vars s →
  wp m (λ _ o' log, quiet log ∧ objects_same (s_oz s) o' ∧ ConnInv o') (s_oz s) → keeps s o.
Proof.
  intros HI Hrun Hn Hv Hm. unfold keeps. rewrite Hrun. unfold void. apply wp_bind. eapply wp_mono; [|exact Hm].
  intros a s' log H. apply wp_ret. rewrite app_nil_r. destruct (Hn (after log (s_mama s)) 0 (s_held s)) as [-> ->]. rewrite Hv.
  by apply inv_conns.
Qed.

Lemma keeps_newConnection s mw payload name : Inv s → keeps s (oNewConnection mw payload name).
Proof.
  intros HI. unfold keeps, run, new_connection. oz_steps. apply (inv_conns s _ []); [done|]. split; [done|].
  assert (o_conns (s_oz s) !! o_next (s_oz s) = None) as Hnew.
  { destruct (o_conns (s_oz s) !! _) eqn:E; [|done]. destruct HI as (_ & HC & _). pose proof (ci_conn_next _ HC _ (mk_is_Some _ _ E)). lia. }
  split; [|by apply ConnInv_new_connection, HI]. split_and!; cbn; [done..|lia|done|]. by apply cached_new_connection.
Qed.

Lemma keeps_newSession s c : Inv s → has_conn s c → keeps s (oNewSession c).
Proof.
  intros HI Hc. unfold keeps, run, new_session. oz_steps. apply (inv_conns s _ []); [done|]. split; [done|].
  split; [split_and!; cbn; [done..|lia|done|done]|]. eapply ConnInv_new_session; [apply HI|exact Hc|done].
Qed.

Lemma keeps_startConnection s c : Inv s → has_conn s c → keeps s (oStartConnection c).
Proof.
  intros HI Hc. apply (keeps_conns s _ (connection_start answer handle_of c)); [done..|].
  eapply wp_mono; [|by apply connection_start_like]. intros st o' log [Hq Hl]. split; [done|].
  split; [|eapply ConnInv_kept; [eapply conn_like_kept, Hl| |by apply HI]].
  - destruct Hl as (cn & cn' & n & Ecn & Ep & Hn & ->). split_and!; cbn; [done..|]. by eapply cached_same.
  - by destruct Hl as (cn & cn' & n & _ & _ & _ & ->).
Qed.

Lemma keeps_startSession s x : Inv s → has_session s x → keeps s (oStartSession x).
Proof.
  intros HI Hx. apply (keeps_conns s _ (session_start answer handle_of x)); [done..|].
  eapply wp_mono; [|apply session_start_like; [apply HI|done]]. intros st o' log [Hq Hl]. split; [done|].
  split; [|eapply ConnInv_kept; [eapply session_like_kept, Hl| |by apply HI]].
  - destruct Hl as (y & y' & n & Ey & _ & Hn & ->). by split_and!; cbn.
  - by destruct Hl as (y & y' & n & _ & _ & _ & ->).
Qed.

Lemma keeps_destroyConnection s c : Inv s → allowed s (oDestroyConnection c) → keeps s (oDestroyConnection c).
Proof.
  intros HI (Hc & Hs & Hp). apply (keeps_conns s _ (connection_destroy answer handle_of c)); [done..|].
  eapply wp_mono; [|by apply connection_destroy_wp]. intros st o' log (Hq & n & Hn & -> & _). split; [done|].
  case_decide; (split; [split_and!; cbn; try done|]).
  - eapply cached_delete_connection; [apply HI|done].
  - apply (ConnInv_kept (set_conns (delete c (o_conns (s_oz s))) (s_oz s))); [by apply conns_kept_eq|done|]. apply ConnInv_delete_connection; [apply HI|done].
  - eapply (ConnInv_kept (s_oz s)); [by apply conns_kept_eq|done|]. apply HI.
Qed.

Lemma keeps_destroySession s x : Inv s → has_session s x → keeps s (oDestroySession x).
Proof.
  intros HI Hx. apply (keeps_conns s _ (session_destroy answer handle_of x)); [done..|].
  eapply wp_mono; [|by apply session_destroy_wp]. intros st o' log (Hq & n & Hn & -> & _). split; [done|].
  case_decide; (split; [by split_and!|]).
  - apply (ConnInv_kept (set_sessions (delete x (o_sessions (s_oz s))) (s_oz s))); [by apply conns_kept_eq|done|]. apply ConnInv_delete_session, HI.
  - eapply (ConnInv_kept (s_oz s)); [by apply conns_kept_eq|done|]. apply HI.
Qed.

Lemma keeps_newReply s c : Inv s → keeps s (oNewReply c).
Proof.
  intros HI. unfold keeps, run, new_reply. oz_steps. apply (inv_conns s _ []); [done|]. split; [done|].
  split; [split_and!; cbn; [done..|lia|done|done]|]. eapply (ConnInv_kept (s_oz s)); [by apply conns_kept_eq|cbn; lia|apply HI].
Qed.

Lemma keeps_destroyReply s a : Inv s → is_Some (o_replies (s_oz s) !! a) → keeps s (oDestroyReply a).
Proof.
  intros HI [r Er]. apply (keeps_conns s _ (reply_destroy a)); [done..|]. unfold reply_destroy, the_reply.
  do 2 apply wp_bind. apply wp_get, (wp_part _ _ _ _ Er). oz_steps. split; [done|].
  split; [by split_and!|]. eapply (ConnInv_kept (s_oz s)); [by apply conns_kept_eq|done|apply HI].
Qed.

(** ** Callbacks that only tell the program *)

Lemma wp_sub s a x (Q : subscriber → oz → list event → Prop) : o_subs s !! a = Some x → Q x s [] → wp (the_sub a) Q s.
Proof. intros E HQ. unfold the_sub. apply wp_bind, wp_get, (wp_part _ _ _ _ E HQ). Qed.
Lemma wp_req s a x (Q : request → oz → list event → Prop) : o_reqs s !! a = Some x → Q x s [] → wp (the_req a) Q s.
Proof. intros E HQ. unfold the_req. apply wp_bind, wp_get, (wp_part _ _ _ _ E HQ). Qed.
Lemma wp_timer s a x (Q : timer → oz → list event → Prop) : o_timers s !! a = Some x → Q x s [] → wp (the_timer a) Q s.
Proof. intros E HQ. unfold the_timer. apply wp_bind, wp_get, (wp_part _ _ _ _ E HQ). Qed.

(** What MAMA calls back is there, with its handle. *)
Lemma called_object s k h a b : Inv s → s_mama s !! (k, h) = Some (a, b) → handles k (s_oz s) !! a = Some h ∧ h ≠ 0%Z.
Proof. intros (_ & _ & HO & _) Hc. by destruct (oi_called _ _ _ _ _ _ (HO k) _ _ _ Hc) as (? & ? & _). Qed.

Lemma sub_of (o : oz) a h : handles kSub o !! a = Some h → ∃ x, o_subs o !! a = Some x ∧ s_sub x = h.
Proof. cbn. rewrite lookup_fmap_Some. intros (x & <- & E). eauto. Qed.
Lemma req_of (o : oz) a h : handles kInbox o !! a = Some h → ∃ x, o_reqs o !! a = Some x ∧ r_inbox x = h.
Proof. cbn. rewrite lookup_fmap_Some. intros (x & <- & E). eauto. Qed.
Lemma timer_of (o : oz) a h : handles kTimer o !! a = Some h → ∃ x, o_timers o !! a = Some x ∧ t_timer x = h.
Proof. cbn. rewrite lookup_fmap_Some. intros (x & <- & E). eauto. Qed.

(** A callback that is at most told to the program. *)
Lemma keeps_told s o k h (m : nat → C oz event ()) :
  Inv s → called s k h → run answer handle_of s o = void (a ← closure s k h; m a) →
  (∀ oz' a x, mama_next o oz' = oz' ∧ held_next o a x = x) → vars_next o 0 (s_vars s) = s_vars s →
  (∀ a, handles k (s_oz s) !! a = Some h → wp (m a) (λ _ s' log, s' = s_oz s ∧ quiet log) (s_oz s)) →
  keeps s o.
Proof.
  intros HI [[a b] Hc] Hrun Hn Hv Hm. destruct (called_object _ _ _ _ _ HI Hc) as [Ha _].
  unfold keeps. rewrite Hrun. unfold void, closure. do 2 apply wp_bind.
  apply (wp_part _ a); [by rewrite Hc|]. eapply wp_mono; [|by apply Hm]. intros _ s' log (-> & Hq). apply wp_ret.
  cbn [app]. rewrite app_nil_r. destruct (Hn (after log (s_mama s)) 0 (s_held s)) as [-> ->]. rewrite Hv.
  apply inv_frame; [done|]. split; [done|]. split; [apply frame_refl|]. by apply HI.
Qed.

Ltac told_sub Hs := intros a Ha; apply sub_of in Ha as (x & Ex & _);
  apply wp_bind, (wp_sub _ _ _ _ Ex); destruct (s_sink x); [by apply wp_emit|by apply wp_ret].

Lemma keeps_subCreated s h : Inv s → called s kSub h → keeps s (oSubCreated h).
Proof. intros HI Hc. apply (keeps_told s _ kSub h subscriber_createCB); [done..|]. told_sub Hs. Qed.
Lemma keeps_subError s h st : Inv s → called s kSub h → keeps s (oSubError h st).
Proof. intros HI Hc. apply (keeps_told s _ kSub h (λ a, subscriber_errorCB a st)); [done..|]. told_sub Hs. Qed.
Lemma keeps_subMsg s h msg : Inv s → called s kSub h → keeps s (oSubMsg h msg).
Proof. intros HI Hc. apply (keeps_told s _ kSub h (λ a, subscriber_msgCB a msg)); [done..|]. told_sub Hs. Qed.
Lemma keeps_subWcMsg s h topic msg : Inv s → called s kSub h → keeps s (oSubWcMsg h topic msg).
Proof. intros HI Hc. apply (keeps_told s _ kSub h (λ a, subscriber_wcCB a topic msg)); [done..|]. told_sub Hs. Qed.

Lemma keeps_inboxError s h st : Inv s → called s kInbox h → keeps s (oInboxError h st).
Proof.
  intros HI Hc. apply (keeps_told s _ kInbox h (λ a, request_errorCB a st)); [done..|]. intros a Ha.
  apply req_of in Ha as (x & Ex & _). apply wp_bind, (wp_req _ _ _ _ Ex). destruct (r_sink x); [by apply wp_emit|by apply wp_ret].
Qed.

Lemma keeps_timer s h : Inv s → called s kTimer h → keeps s (oTimer h).
Proof.
  intros HI Hc. apply (keeps_told s _ kTimer h timer_timerCB); [done..|]. intros a Ha.
  apply timer_of in Ha as (x & Ex & _). apply wp_bind, (wp_timer _ _ _ _ Ex). destruct (t_sink x); [by apply wp_emit|by apply wp_ret].
Qed.

(** ** The semaphore of a request *)

Lemma inv_replied s a r n :
  o_reqs (s_oz s) !! a = Some r → Inv s →
  Inv (mkSys (set_reqs (<[a := set_replied (Some n) r]> (o_reqs (s_oz s))) (s_oz s)) (s_mama s) (s_held s) (s_vars s)).
Proof.
  intros Er (HP & HS & HO & HR). split; [|split; [by eapply ConnInv_kept, HS|split]]; cbn [s_oz s_mama s_held].
  - eapply pubs_ok_ext, HP; [|done..]. intros [m|b|]; cbn; [done| |done].
    destruct (decide (b = a)) as [->|Hb]; [by rewrite lookup_insert_eq, Er|by rewrite lookup_insert_ne].
  - intros k. assert (handles k (set_reqs (<[a := set_replied (Some n) r]> (o_reqs (s_oz s))) (s_oz s)) = handles k (s_oz s)) as ->;
      [|apply HO]. destruct k; cbn; [done| |done]. rewrite fmap_insert. apply insert_id. by rewrite lookup_fmap, Er.
  - intros b q. cbn. destruct (decide (b = a)) as [->|Hb].
    + rewrite lookup_insert_eq. intros [= <-] Hi. cbn in *. destruct (HR _ _ Er Hi) as (_ & ? & ?). by split.
    + rewrite lookup_insert_ne by done. apply HR.
Qed.

Lemma keeps_inboxMsg s h msg : Inv s → called s kInbox h → keeps s (oInboxMsg h msg).
Proof.
  intros HI [[a b] Hc]. destruct (called_object _ _ _ _ _ HI Hc) as [Ha H0]. apply req_of in Ha as (r & Er & <-).
  unfold keeps, run, void, closure, request_msgCB. do 2 apply wp_bind. apply (wp_part _ a); [by rewrite Hc|].
  apply wp_bind, (wp_req _ _ _ _ Er). destruct (r_sink r).
  - assert (∃ n, r_replied r = Some n) as [n En]. { destruct HI as (_ & _ & _ & HR). by apply (HR a r Er H0). }
    apply wp_bind, (wp_part _ _ _ _ En). oz_steps. by apply (inv_replied s a r (n + 1) Er).
  - oz_steps. by destruct s.
Qed.

Lemma keeps_wait s a seconds e : Inv s → allowed s (oWaitReply a seconds e) → keeps s (oWaitReply a seconds e).
Proof.
  intros HI (Hh & [ms Ems] & Hr). assert (is_Some (handles kInbox (s_oz s) !! a)) as [h Ha].
  { destruct HI as (_ & _ & HO & _). by apply (oi_held _ _ _ _ _ _ (HO kInbox)). }
  apply req_of in Ha as (r & Er & <-). destruct (Hr _ Er) as [n En].
  unfold keeps, run, void, request_waitReply. do 2 apply wp_bind. apply (wp_req _ _ _ _ Er).
  apply wp_bind, (wp_part _ _ _ _ Ems). apply wp_bind, (wp_part _ _ _ _ En). case_decide.
  - oz_steps. by apply (inv_replied s a r (n - 1) Er).
  - oz_steps. by destruct s.
Qed.

(** ** New objects *)

(** The kind [k] has a new object, at the next address. *)
Lemma inv_new s k oz' :
  Inv s → o_conns oz' = o_conns (s_oz s) → o_sessions oz' = o_sessions (s_oz s) → o_pubs oz' = o_pubs (s_oz s) →
  o_next oz' = S (o_next (s_oz s)) → o_calls oz' = o_calls (s_oz s) →
  handles k oz' = <[o_next (s_oz s) := 0%Z]> (handles k (s_oz s)) → (∀ k', k' ≠ k → handles k' oz' = handles k' (s_oz s)) →
  (o_reqs oz' = o_reqs (s_oz s)
   ∨ ∃ x topic sink, o_reqs oz' = <[o_next (s_oz s) := mkRequest x topic sink None 0 None]> (o_reqs (s_oz s))) →
  Inv (mkSys oz' (s_mama s) ({[(k, o_next (s_oz s))]} ∪ s_held s) (s_vars s)).
Proof.
  intros (HP & HS & HO & HR) E1 E2 E3 E4 E5 Ek Eo Er.
  assert (∀ b r, o_reqs (s_oz s) !! b = Some r → b ≠ o_next (s_oz s)) as Hfr.
  { intros b r Eb ->. specialize (HO kInbox). assert (is_Some (handles kInbox (s_oz s) !! o_next (s_oz s))) as Hs.
    { cbn. rewrite lookup_fmap, Eb. eauto. } apply (oi_next _ _ _ _ _ _ HO) in Hs. lia. }
  split; [|split; [by eapply ConnInv_kept, HS; [apply conns_kept_eq|cbn; rewrite E4; lia]|split]]; cbn [s_oz s_mama s_held].
  - eapply (pubs_ok_ext (own s)), HP; [|done..|lia]. intros [m|b|]; cbn; [done| |done].
    destruct Er as [->|(x & topic & sink & ->)]; [done|]. destruct (decide (b = o_next (s_oz s))) as [->|Hb].
    + rewrite lookup_insert_eq. destruct (o_reqs (s_oz s) !! o_next (s_oz s)) as [r|] eqn:E; [by apply Hfr in E|done].
    + by rewrite lookup_insert_ne.
  - intros k'. rewrite E4. destruct (decide (k' = k)) as [->|Hk].
    + rewrite Ek. apply ObjInv_new. eapply ObjInv_frame, HO; [done|done|done|]. intros h. apply old_mono. lia.
    + rewrite Eo by done. eapply ObjInv_frame, HO; [done| |lia|intros h; apply old_mono; lia]. set_solver.
  - destruct Er as [->|(x & topic & sink & ->)]; [done|]. intros b r. destruct (decide (b = o_next (s_oz s))) as [->|Hb].
    + rewrite lookup_insert_eq. by intros [= <-].
    + rewrite lookup_insert_ne by done. apply HR.
Qed.

Lemma keeps_newSub s x topic sink wc : Inv s → keeps s (oNewSubscriber x topic sink wc).
Proof.
  intros HI. unfold keeps, run, new_subscriber. oz_steps. apply (inv_new s kSub); [done..| | |by left].
  - cbn. by rewrite fmap_insert.
  - by intros [] ?.
Qed.

Lemma keeps_newRequest s x topic sink : Inv s → keeps s (oNewRequest x topic sink).
Proof.
  intros HI. unfold keeps, run, new_request. oz_steps. apply (inv_new s kInbox); [done..| | |right; eauto].
  - cbn. by rewrite fmap_insert.
  - by intros [] ?.
Qed.

Lemma keeps_newTimer s x interval sink : Inv s → keeps s (oNewTimer x interval sink).
Proof.
  intros HI. unfold keeps, run, new_timer. oz_steps. apply (inv_new s kTimer); [done..| | |by left].
  - cbn. by rewrite fmap_insert.
  - by intros [] ?.
Qed.

(** ** Destruction *)

Lemma ReqInv_destroying k h reqs m : ReqInv reqs m → ReqInv reqs (alter destroying (k, h) m).
Proof.
  intros HR a r Er Hi. destruct (HR a r Er Hi) as (? & ? & b & Hb). split_and!; [done..|].
  destruct (decide ((k, h) = (kInbox, r_inbox r))) as [E|E].
  - rewrite E, lookup_alter_eq, Hb. by exists true.
  - rewrite lookup_alter_ne by done. eauto.
Qed.

(** One call that destroys, whatever its answer. *)
Lemma inv_destroy s k a h c :
  Inv s → handles k (s_oz s) !! a = Some h →
  (∀ x m, apply_call c x m = alter destroying (k, h) m) →
  Inv (mkSys (ticked (s_oz s))
        (after [eCall c (answer (o_calls (s_oz s)) c) (handle_of (o_calls (s_oz s)) c)] (s_mama s))
        (s_held s ∖ {[(k, a)]}) (s_vars s)).
Proof.
  intros (HP & HS & HO & HR) Ha Hc.
  assert (∀ m, (m = s_mama s ∨ m = alter destroying (k, h) (s_mama s)) →
    Inv (mkSys (ticked (s_oz s)) m (s_held s ∖ {[(k, a)]}) (s_vars s))) as Hgen.
  { intros m Hm. split; [|split; [by eapply ConnInv_kept, HS|split]]; cbn [s_oz s_mama s_held].
    - by eapply (pubs_ok_ext (own s)), HP; [intros []|..].
    - intros k'. assert (handles k' (ticked (s_oz s)) = handles k' (s_oz s)) as -> by by destruct k'.
      destruct (decide (k' = k)) as [->|Hk].
      + eapply (ObjInv_frame _ _ m m _ _ _ _ (old (s_oz s))); [done|done|done|intros x; apply old_mono; cbn; lia|].
        destruct Hm as [-> | ->]; [by apply ObjInv_forget|by apply ObjInv_destroy].
      + eapply ObjInv_frame, HO; [|set_solver|done|intros x; apply old_mono; cbn; lia].
        intros x. destruct Hm as [-> | ->]; [done|]. by rewrite lookup_alter_ne by congruence.
    - destruct Hm as [-> | ->]; [done|]. by apply ReqInv_destroying. }
  apply Hgen. unfold after. cbn [foldl apply_event]. destruct (answer _ c); (by right; rewrite Hc) || by left.
Qed.

Lemma keeps_destroySub s a : Inv s → held s kSub a → keeps s (oDestroySubscriber a).
Proof.
  intros HI Ha. assert (is_Some (handles kSub (s_oz s) !! a)) as [h Eh].
  { destruct HI as (_ & _ & HO & _). by apply (oi_held _ _ _ _ _ _ (HO kSub)). }
  destruct (sub_of _ _ _ Eh) as (x & Ex & Ehx). unfold keeps, run, void, subscriber_destroy, CALL_MAMA_FUNC.
  do 2 apply wp_bind. apply (wp_sub _ _ _ _ Ex). apply wp_bind, oz_call_wp.
  case_decide; oz_steps; apply (inv_destroy s kSub a h); [done|done|by rewrite Ehx|done|done|by rewrite Ehx].
Qed.

Lemma keeps_destroyTimer s a : Inv s → held s kTimer a → keeps s (oDestroyTimer a).
Proof.
  intros HI Ha. assert (is_Some (handles kTimer (s_oz s) !! a)) as [h Eh].
  { destruct HI as (_ & _ & HO & _). by apply (oi_held _ _ _ _ _ _ (HO kTimer)). }
  destruct (timer_of _ _ _ Eh) as (x & Ex & Ehx). unfold keeps, run, void, timer_destroy, CALL_MAMA_FUNC.
  do 2 apply wp_bind. apply (wp_timer _ _ _ _ Ex). apply wp_bind, oz_call_wp.
  case_decide; oz_steps; apply (inv_destroy s kTimer a h); [done|done|by rewrite Ehx|done|done|by rewrite Ehx].
Qed.

(** A request that was never sent is only forgotten. *)
Lemma inv_forget s k a : Inv s → Inv (mkSys (s_oz s) (s_mama s) (s_held s ∖ {[(k, a)]}) (s_vars s)).
Proof.
  intros (HP & HS & HO & HR). split; [done|]. split; [done|]. split; [|done]. intros k'.
  destruct (decide (k' = k)) as [->|Hk]; [by apply ObjInv_forget|].
  eapply ObjInv_frame, HO; [done|cbn; set_solver|done|done].
Qed.

Lemma keeps_destroyRequest s a : Inv s → held s kInbox a → keeps s (oDestroyRequest a).
Proof.
  intros HI Ha. assert (is_Some (handles kInbox (s_oz s) !! a)) as [h Eh].
  { destruct HI as (_ & _ & HO & _). by apply (oi_held _ _ _ _ _ _ (HO kInbox)). }
  destruct (req_of _ _ _ Eh) as (x & Ex & Ehx). unfold keeps, run, void, request_destroy, CALL_MAMA_FUNC.
  do 2 apply wp_bind. apply (wp_req _ _ _ _ Ex). case_decide.
  - apply wp_bind, oz_call_wp.
    case_decide; oz_steps; apply (inv_destroy s kInbox a h); [done|done|by rewrite Ehx|done|done|by rewrite Ehx].
  - oz_steps. by apply inv_forget.
Qed.

(** ** The callback of the destruction *)

Lemma inv_deleted s k a h oz' :
  Inv s → s_mama s !! (k, h) = Some (a, true) →
  pubs_ok (own (mkSys oz' (s_mama s) (s_held s) (s_vars s))) oz' → conns_kept (s_oz s) oz' →
  o_next (s_oz s) ≤ o_next oz' → o_calls (s_oz s) ≤ o_calls oz' →
  handles k oz' = delete a (handles k (s_oz s)) → (∀ k', k' ≠ k → handles k' oz' = handles k' (s_oz s)) →
  o_reqs oz' = (if decide (k = kInbox) then delete a (o_reqs (s_oz s)) else o_reqs (s_oz s)) →
  Inv (mkSys oz' (delete (k, h) (s_mama s)) (s_held s) (s_vars s)).
Proof.
  intros HI Hc HP' E2 E4 E5 Ek Eo Er. destruct (called_object _ _ _ _ _ HI Hc) as [Ha H0].
  destruct HI as (HP & HS & HO & HR). split; [done|]. split; [by eapply ConnInv_kept, HS|]. split; cbn [s_oz s_mama s_held].
  - intros k'. destruct (decide (k' = k)) as [->|Hk].
    + rewrite Ek. eapply ObjInv_frame; [done|done|exact E4| |by apply ObjInv_delete]. intros x. by apply old_mono.
    + rewrite Eo by done. eapply ObjInv_frame, HO; [|done|done|intros x; by apply old_mono].
      intros x. by rewrite lookup_delete_ne by congruence.
  - intros b q Eq Hi. assert (o_reqs (s_oz s) !! b = Some q ∧ (k = kInbox → b ≠ a)) as [Eq' Hb].
    { rewrite Er in Eq. case_decide; [|done]. apply lookup_delete_Some in Eq as [? ?]. split; [done|congruence]. }
    destruct (HR _ _ Eq' Hi) as (? & ? & x & Hx). split_and!; [done..|]. exists x. rewrite lookup_delete_ne; [done|].
    intros [= -> ->]. by apply Hb; [|congruence].
Qed.

Lemma keeps_subDestroyed s h : Inv s → allowed s (oSubDestroyed h) → keeps s (oSubDestroyed h).
Proof.
  intros HI [a Hc]. destruct (called_object _ _ _ _ _ HI Hc) as [Ha _]. apply sub_of in Ha as (x & Ex & _).
  unfold keeps, run, void, closure, subscriber_destroyCB. do 2 apply wp_bind. apply (wp_part _ a); [by rewrite Hc|].
  apply wp_bind, (wp_sub _ _ _ _ Ex). apply wp_bind, oz_call_wp. oz_steps. cbn [mama_next held_next vars_next].
  rewrite quiet_event by done. apply (inv_deleted s kSub a h); [done|done| |done|done|cbn; lia| |by intros []|done].
  - eapply (pubs_ok_ext (own s)), HI; [by intros []|done..].
  - cbn. by rewrite fmap_delete.
Qed.

Lemma keeps_timerDestroyed s h : Inv s → allowed s (oTimerDestroyed h) → keeps s (oTimerDestroyed h).
Proof.
  intros HI [a Hc]. destruct (called_object _ _ _ _ _ HI Hc) as [Ha _]. apply timer_of in Ha as (x & Ex & _).
  unfold keeps, run, void, closure, timer_destroyCB. do 2 apply wp_bind. apply (wp_part _ a); [by rewrite Hc|].
  apply wp_bind, (wp_timer _ _ _ _ Ex). oz_steps. cbn [mama_next held_next vars_next].
  apply (inv_deleted s kTimer a h); [done|done| |done|done|done| |by intros []|done].
  - eapply (pubs_ok_ext (own s)), HI; [by intros []|done..].
  - cbn. by rewrite fmap_delete.
Qed.

(** [~request]: the semaphore, the publisher, the object. *)
Lemma request_delete_wp s a h b :
  Inv s → s_mama s !! (kInbox, h) = Some (a, b) →
  wp (request_delete a) (λ _ s' log, quiet log ∧ o_reqs s' = delete a (o_reqs (s_oz s))
    ∧ others_same (s_oz s) (set_reqs (o_reqs (s_oz s)) s') ∧ pubs_ok (upd (own s) (ofRequest a) None) s') (s_oz s).
Proof.
  intros HI Hc. destruct (called_object _ _ _ _ _ HI Hc) as [Ha H0]. apply req_of in Ha as (r & Er & <-).
  destruct HI as (HP & HS & HO & HR). destruct (HR _ _ Er H0) as ([n En] & [p Ep] & _).
  unfold request_delete. apply wp_bind, (wp_req _ _ _ _ Er), wp_bind, (wp_part _ _ _ _ En).
  apply wp_bind, wp_emit, wp_bind. rewrite Ep.
  eapply wp_mono; [|apply (release_wp (own s) (ofRequest a) p); [done|cbn; by rewrite Er]].
  intros _ s1 log1 (-> & F & HP1 & _). oz_steps. split; [done|]. destruct F as (F1 & F2 & F3 & F4 & F5 & F6).
  split; [by rewrite F3|]. split; [done|]. exact HP1.
Qed.

Lemma keeps_inboxDestroyed s h : Inv s → allowed s (oInboxDestroyed h) → keeps s (oInboxDestroyed h).
Proof.
  intros HI [a Hc]. unfold keeps, run, void, closure, request_destroyCB. do 2 apply wp_bind.
  apply (wp_part _ a); [by rewrite Hc|]. eapply wp_mono; [|by eapply request_delete_wp].
  intros _ s1 log1 (Hq & Er & F & HP1). pose proof F as (_ & F2 & F3 & F4 & F5 & F6). apply wp_ret. cbn [app mama_next held_next vars_next].
  rewrite app_nil_r, Hq. apply (inv_deleted s kInbox a h); [done|done| |exact (conns_kept_same _ _ F)|done|done| | |done].
  - eapply pubs_ok_ext, HP1; [|done..]. intros [m|b|]; cbn; [done| |done]. unfold upd. rewrite Er.
    destruct (decide (b = a)) as [->|Hb]; [rewrite decide_True by done; by rewrite lookup_delete_eq|].
    rewrite decide_False by congruence. by rewrite lookup_delete_ne.
  - cbn. by rewrite Er, fmap_delete.
  - intros [] ?; [|done|]; cbn in *; by f_equal.
Qed.

(** ** Starting subscribers and timers *)

Lemma inv_started s k a h oz' m :
  Inv s → k ≠ kInbox → unstarted s k a → (h ≠ 0%Z → ¬ old (s_oz s) h ∧ old oz' h) →
  o_conns oz' = o_conns (s_oz s) → o_sessions oz' = o_sessions (s_oz s) → o_pubs oz' = o_pubs (s_oz s) →
  o_next oz' = o_next (s_oz s) → o_calls (s_oz s) ≤ o_calls oz' → o_reqs oz' = o_reqs (s_oz s) →
  handles k oz' = <[a := h]> (handles k (s_oz s)) → (∀ k', k' ≠ k → handles k' oz' = handles k' (s_oz s)) →
  (m = s_mama s ∨ (h ≠ 0%Z ∧ m = <[(k, h) := (a, false)]> (s_mama s))) →
  Inv (mkSys oz' m (s_held s) (s_vars s)).
Proof.
  intros (HP & HS & HO & HR) Hk Hu Hh E1 E2 E3 E4 E5 Er Ek Eo Hm.
  assert (∀ h' b, s_mama s !! (k, h') ≠ Some (a, b)) as Hnone.
  { intros h' b Hc. destruct (oi_called _ _ _ _ _ _ (HO k) _ _ _ Hc) as (Ha & H0 & _). unfold unstarted in Hu. congruence. }
  assert (is_Some (handles k (s_oz s) !! a)) as Hs by by rewrite Hu.
  split; [|split; [by eapply ConnInv_kept, HS; [apply conns_kept_eq|cbn; rewrite E4]|split]]; cbn [s_oz s_mama s_held].
  - eapply (pubs_ok_ext (own s)), HP; [|done|done|lia]. intros [|b|]; cbn; [done|by rewrite Er|done].
  - intros k'. rewrite E4. destruct (decide (k' = k)) as [->|Hn].
    + rewrite Ek. assert (ObjInv k (<[a:=h]> (handles k (s_oz s))) (s_mama s) (s_held s) (o_next (s_oz s)) (old oz')) as Hobj.
      { eapply ObjInv_handle, HO; [done|done| |done]. intros x. by apply old_mono. }
      destruct Hm as [-> |[H0 ->]]; [done|]. apply ObjInv_create; [by rewrite lookup_insert_eq|done|done].
    + rewrite Eo by done. eapply ObjInv_frame, HO; [|done|done|intros x; by apply old_mono].
      intros x. destruct Hm as [-> |[_ ->]]; [done|]. by rewrite lookup_insert_ne by congruence.
  - rewrite Er. intros b q Eq Hi. destruct (HR _ _ Eq Hi) as (? & ? & y & Hy). split_and!; [done..|]. exists y.
    destruct Hm as [-> |[_ ->]]; [done|]. by rewrite lookup_insert_ne by congruence.
Qed.

(** The state of a handle after its creation. *)
Lemma handle_new s c oz' :
  creates c → o_calls (s_oz s) < o_calls oz' →
  handle_of (o_calls (s_oz s)) c ≠ 0%Z → ¬ old (s_oz s) (handle_of (o_calls (s_oz s)) c) ∧ old oz' (handle_of (o_calls (s_oz s)) c).
Proof. intros Hc Hn H0. destruct (new_handle (s_oz s) c Hc H0) as [? Ho]. by split; [|apply Ho]. Qed.

Lemma wp_queue o x (Q : Z → oz → list event → Prop) :
  is_Some (o_sessions o !! x) → (∀ q, Q q o []) → wp (session_queue x) Q o.
Proof. intros [y E] HQ. unfold session_queue. apply wp_bind, (wp_sess _ _ _ _ E), wp_ret, HQ. Qed.

Lemma wp_transport o x (Q : Z → oz → list event → Prop) :
  ConnInv o → is_Some (o_sessions o !! x) → (∀ t, Q t o []) → wp (session_transport x) Q o.
Proof.
  intros HC [y E] HQ. destruct (ci_session _ HC _ _ E) as [c Ec].
  unfold session_transport. apply wp_bind, (wp_sess _ _ _ _ E), wp_bind, (wp_conn _ _ _ _ Ec), wp_ret, HQ.
Qed.

(** The session of an object that is ready. *)
Lemma ready_sub s a x : ready s kSub a → o_subs (s_oz s) !! a = Some x → has_session s (s_session x).
Proof. intros (y & Hy & Hs) Ex. cbn in Hy. rewrite lookup_fmap, Ex in Hy. by injection Hy as <-. Qed.
Lemma ready_req s a r : ready s kInbox a → o_reqs (s_oz s) !! a = Some r → has_session s (r_session r).
Proof. intros (y & Hy & Hs) Ex. cbn in Hy. rewrite lookup_fmap, Ex in Hy. by injection Hy as <-. Qed.
Lemma ready_timer s a t : ready s kTimer a → o_timers (s_oz s) !! a = Some t → has_session s (t_session t).
Proof. intros (y & Hy & Hs) Ex. cbn in Hy. rewrite lookup_fmap, Ex in Hy. by injection Hy as <-. Qed.

Lemma keeps_startTimer s a : Inv s → allowed s (oStartTimer a) → keeps s (oStartTimer a).
Proof.
  intros HI (Hh & Hu & Hrd). destruct (timer_of _ _ _ Hu) as (x & Ex & Ehx).
  unfold keeps, run, void, timer_start, CALL_MAMA_FUNC. do 2 apply wp_bind. apply (wp_timer _ _ _ _ Ex).
  apply wp_bind, wp_queue; [by eapply ready_timer|]. intros q. apply wp_bind, call_handle_wp. cbn [fst snd]. oz_steps.
  set (c := mamaTimer_create2 q (t_interval x) a). set (h := handle_of (o_calls (s_oz s)) c).
  assert (∀ m, m = s_mama s ∨ (h ≠ 0%Z ∧ m = <[(kTimer, h) := (a, false)]> (s_mama s)) →
    Inv (mkSys (set_timers (<[a := set_timer h x]> (o_timers (s_oz s))) (ticked (s_oz s))) m (s_held s) (s_vars s))) as Hgen.
  { intros m Hm. apply (inv_started s kTimer a h); try done; try (cbn; lia).
    - intros H0. apply (handle_new s c); [done|cbn; lia|done].
    - cbn. by rewrite fmap_insert.
    - by intros []. }
  case_decide as Hst; oz_steps; cbn [mama_next held_next vars_next]; apply Hgen; unfold after; cbn [foldl apply_event].
  - left. revert Hst. by destruct (answer _ c).
  - right. split; [by apply handle_ok|]. by rewrite Hst.
Qed.

(** What a creation of a subscription with the handle of [y] leaves. *)
Definition subscribed (a : nat) (h : Z) (o o' : oz) (log : list event) : Prop :=
  (∃ z n, o' = set_calls n (set_subs (<[a := z]> (o_subs o)) o) ∧ s_sub z = h ∧ o_calls o ≤ n)
  ∧ ∀ m, after log m = m ∨ after log m = <[(kSub, h) := (a, false)]> m.

Lemma create_sub_wp o a y c :
  o_subs o !! a = Some y → (∀ x m, apply_call c x m = <[(kSub, s_sub y) := (a, false)]> m) →
  wp (CALL_MAMA_FUNC (call answer handle_of c) (mret MAMA_STATUS_OK)) (λ _ o' log, subscribed a (s_sub y) o o' log) o.
Proof.
  intros Ey Hc. unfold CALL_MAMA_FUNC. apply wp_bind, oz_call_wp.
  assert (∀ st h, subscribed a (s_sub y) o (ticked o) [eCall c st h]) as Hs.
  { intros st h. split.
    - exists y, (S (o_calls o)). rewrite insert_id by done. split; [by destruct o|]. split; [done|lia].
    - intros m. unfold after. cbn. rewrite Hc. destruct st; auto. }
  case_decide; oz_steps; apply Hs.
Qed.

Lemma kind_of_sub_wp o a y wild :
  o_subs o !! a = Some y → ConnInv o → is_Some (o_sessions o !! s_session y) →
  wp (if wild : bool then subscriber_wildcard answer handle_of a else subscriber_basic answer handle_of a)
    (λ _ o' log, subscribed a (s_sub y) o o' log) o.
Proof.
  intros Ey HC Hs. destruct wild; apply wp_bind, (wp_sub _ _ _ _ Ey), wp_bind, wp_transport; try done; intros t;
    apply wp_bind, wp_queue; try done; intros q; by apply create_sub_wp.
Qed.

(** The stores before do not matter. *)
Lemma subscribed_after a h o y o' log :
  subscribed a h (set_subs (<[a := y]> (o_subs o)) o) o' log → subscribed a h o o' log.
Proof.
  intros [(z & n & -> & Hz & Hn) Hl]. split; [|done]. exists z, n. cbn. by rewrite insert_insert_eq.
Qed.

Lemma switch_wp o a y :
  o_subs o !! a = Some y → ConnInv o → is_Some (o_sessions o !! s_session y) →
  (s_wcType y = wcWS → is_Some (ws2posix (s_topic y) (s_topic y))) →
  wp (subscriber_switch answer handle_of a) (λ _ o' log, subscribed a (s_sub y) o o' log) o.
Proof.
  intros Ey HC Hs Hws. unfold subscriber_switch. apply wp_bind, (wp_sub _ _ _ _ Ey). oz_steps.
  eapply wp_sub; [apply lookup_insert_eq|]. cbn [s_wcType set_topics s_origTopic s_topic app].
  assert (∀ wild w, wp (if wild : bool then subscriber_wildcard answer handle_of a else subscriber_basic answer handle_of a)
    (λ _ o' log, subscribed a (s_sub y) o o' log) (set_subs (<[a := w]> (o_subs o)) o) ∨ s_sub w ≠ s_sub y ∨ s_session w ≠ s_session y) as Hk.
  { intros wild w. destruct (decide (s_sub w = s_sub y)) as [E|]; [|by right; left].
    destruct (decide (s_session w = s_session y)) as [E'|]; [left|by right; right]. rewrite <-E.
    eapply wp_mono; [|apply (kind_of_sub_wp _ a w wild); [apply lookup_insert_eq|by eapply ConnInv_kept, HC|by rewrite E']].
    intros st o' log. apply subscribed_after. }
  destruct (s_wcType y) eqn:Ew.
  - destruct (Hk false (set_topics (s_topic y) (s_topic y) y)) as [H|[H|H]]; [exact H|done|done].
  - destruct (Hk false (set_topics (s_topic y) (s_topic y) y)) as [H|[H|H]]; [exact H|done|done].
  - destruct (Hk true (set_topics (s_topic y) (s_topic y) y)) as [H|[H|H]]; [exact H|done|done].
  - destruct (Hws eq_refl) as [[st regex] Er]. apply wp_bind, (wp_part _ _ _ _ Er). oz_steps. cbn [fst snd o_subs set_subs].
    rewrite insert_insert_eq. unfold CALL_MAMA_FUNC. oz_steps. case_decide.
    + oz_steps. split; [|by left]. exists (set_topics regex (s_topic y) (set_topics (s_topic y) (s_topic y) y)), (o_calls o).
      split; [done|]. by split.
    + destruct (Hk true (set_topics regex (s_topic y) (set_topics (s_topic y) (s_topic y) y))) as [Hw|[Hw|Hw]]; [exact Hw|done|done].
Qed.

Lemma keeps_startSub s a : Inv s → allowed s (oStartSubscriber a) → keeps s (oStartSubscriber a).
Proof.
  intros HI (Hh & Hu & Hrd & Hws). destruct (sub_of _ _ _ Hu) as (x & Ex & Ehx). specialize (Hws _ Ex).
  pose proof (proj1 (proj2 HI)) as HC. pose proof (ready_sub _ _ _ Hrd Ex) as Hsess.
  unfold keeps, run, void, subscriber_start, CALL_MAMA_FUNC at 1. apply wp_bind. apply wp_bind, (wp_sub _ _ _ _ Ex). oz_steps.
  eapply wp_sub; [apply lookup_insert_eq|]. oz_steps. apply call_handle_wp. cbn [fst snd o_calls set_subs]. oz_steps.
  set (c := mamaSubscription_allocate). set (h := handle_of (o_calls (s_oz s)) c).
  assert (∀ y n m, s_sub y = h → o_calls (s_oz s) < n → m = s_mama s ∨ (h ≠ 0%Z ∧ m = <[(kSub, h) := (a, false)]> (s_mama s)) →
    Inv (mkSys (set_calls n (set_subs (<[a := y]> (o_subs (s_oz s))) (s_oz s))) m (s_held s) (s_vars s))) as Hgen.
  { intros y n m Hy Hn Hm. apply (inv_started s kSub a h); try done; try (cbn; lia).
    - intros H0. by apply (handle_new s c).
    - cbn. by rewrite fmap_insert, Hy.
    - by intros []. }
  cbn [o_subs ticked set_calls set_subs]. rewrite insert_insert_eq. case_decide as Hst; oz_steps.
  - cbn [mama_next held_next vars_next]. rewrite quiet_event by done.
    apply (Hgen (set_sub h (set_wcType (guess_wcType (s_wcType x) (s_topic x)) x)) (S (o_calls (s_oz s)))); [done|lia|by left].
  - eapply wp_mono; [|eapply switch_wp; [apply lookup_insert_eq|by eapply ConnInv_kept, HC|exact Hsess|exact Hws]].
    intros _ o' log [(z & n & -> & Hz & Hn) Hl]. apply wp_ret. rewrite app_nil_r. cbn [mama_next held_next vars_next].
    cbn in Hz, Hn. match goal with |- context [after (?e :: log)] => change (e :: log) with ([e] ++ log) end.
    rewrite after_app, quiet_event by done. cbn [o_subs set_subs set_calls]. rewrite insert_insert_eq.
    refine (Hgen z n (after log (s_mama s)) Hz _ _); [lia|]. destruct (Hl (s_mama s)) as [-> | ->]; [by left|right]. split; [|done].
    by apply handle_ok.
Qed.

(** ** Sending a request *)

(** The first send: an inbox, a publisher and a semaphore. *)
Lemma inv_sent s a r h p own2 o :
  Inv s → o_reqs (s_oz s) !! a = Some r → r_inbox r = 0%Z →
  h ≠ 0%Z → ¬ old (s_oz s) h → old o h →
  o_reqs o = <[a := mkRequest (r_session r) (r_topic r) (r_sink r) (Some p) h (Some 0%Z)]> (o_reqs (s_oz s)) →
  pubs_ok own2 o → (∀ x, own2 x = if decide (x = ofRequest a) then Some p else own s x) →
  conns_kept (s_oz s) o → o_subs o = o_subs (s_oz s) → o_timers o = o_timers (s_oz s) →
  o_next (s_oz s) ≤ o_next o → o_calls (s_oz s) ≤ o_calls o →
  Inv (mkSys o (<[(kInbox, h) := (a, false)]> (s_mama s)) (s_held s) (s_vars s)).
Proof.
  intros (HP & HS & HO & HR) Er Hi H0 Hn Ho Er' HP' Hown E1 E2 E3 Hnx Hc.
  split; [|split; [by eapply ConnInv_kept, HS|split]]; cbn [s_oz s_mama s_held].
  - eapply pubs_ok_ext, HP'; [|done..]. intros x. rewrite Hown. destruct x as [m|b|]; cbn; [done| |done]. rewrite Er'.
    destruct (decide (b = a)) as [->|Hb]; [rewrite decide_True by done; by rewrite lookup_insert_eq|].
    rewrite decide_False by congruence. by rewrite lookup_insert_ne.
  - intros k. destruct (decide (k = kInbox)) as [->|Hk].
    + cbn. rewrite Er', fmap_insert. cbn [r_inbox]. apply ObjInv_create; [by rewrite lookup_insert_eq|done|].
      eapply (ObjInv_frame _ _ (s_mama s)); [done|done|exact Hnx|intros x Hx; exact Hx|].
      eapply ObjInv_handle, HO; [|by cbn; rewrite lookup_fmap, Er|intros x; by apply old_mono|done].
      intros h' b Hc'. destruct (oi_called _ _ _ _ _ _ (HO kInbox) _ _ _ Hc') as (Ha & Hn0 & _). cbn in Ha.
      rewrite lookup_fmap, Er in Ha. cbn in Ha. congruence.
    + assert (handles k o = handles k (s_oz s)) as -> by (destruct k; cbn; congruence).
      eapply ObjInv_frame, HO; [|done|done|intros x; by apply old_mono]. intros x. by rewrite lookup_insert_ne by congruence.
  - rewrite Er'. intros b q. destruct (decide (b = a)) as [->|Hb].
    + rewrite lookup_insert_eq. intros [= <-] _. cbn. split_and!; [done..|]. exists false. by rewrite lookup_insert_eq.
    + rewrite lookup_insert_ne by done. intros Eq Hq. destruct (HR _ _ Eq Hq) as (? & ? & y & Hy). split_and!; [done..|].
      exists y. rewrite lookup_insert_ne; [done|]. intros [= E]. apply Hn.
      apply (oi_old _ _ _ _ _ _ (HO kInbox) b); [|done]. cbn. rewrite lookup_fmap, Eq. cbn. congruence.
Qed.

(** The state whose request has its inbox already, or has it again NULL. *)
Lemma inv_reqs_same s n : Inv s → o_calls (s_oz s) ≤ n → ∀ a r, o_reqs (s_oz s) !! a = Some r →
  Inv (mkSys (set_calls n (set_reqs (<[a := r]> (o_reqs (s_oz s))) (s_oz s))) (s_mama s) (s_held s) (s_vars s)).
Proof.
  intros HI Hn a r Er. rewrite insert_id by done.
  apply (inv_frame s _ [] HI). split; [done|]. split; [by repeat split; cbn|].
  destruct HI as (HP & _). eapply (pubs_ok_ext (own s)), HP; done.
Qed.

Lemma request_publisher_wp own1 o a r :
  pubs_ok own1 o → ConnInv o → is_Some (o_sessions o !! r_session r) → o_reqs o !! a = Some r → own1 (ofRequest a) = r_pub r →
  wp (request_publisher a) (λ _ o' log, log = [] ∧ ∃ p,
    o_reqs o' = <[a := set_rpub (Some p) r]> (o_reqs o)
    ∧ others_same o (set_reqs (o_reqs o) o')
    ∧ pubs_ok (λ x, if decide (x = ofRequest a) then Some p else own1 x) o'
    ∧ is_Some (o_pubs o' !! p) ∧ (∀ p0, r_pub r = Some p0 → p0 = p)) o.
Proof.
  intros HP HC [x Es] Er Ho. destruct (ci_session _ HC _ _ Es) as [cn Ecn]. unfold request_publisher. apply wp_bind, (wp_req _ _ _ _ Er). destruct (r_pub r) as [p|] eqn:Ep.
  - apply wp_ret. split; [done|]. exists p. split.
    + rewrite insert_id; [done|]. rewrite Er. f_equal. destruct r. cbn in Ep. by subst.
    + split; [by repeat split|]. split.
      * eapply pubs_ok_ext, HP; [|done..]. intros y. case_decide; [by subst|done].
      * split; [by eapply own_live|]. by intros p0 [= ->].
  - apply wp_bind, (wp_sess _ _ _ _ Es), wp_bind. eapply wp_mono; [|by apply (getPublisher_wp own1)].
    intros y o1 log1 (-> & (F1 & F2 & F3 & F4 & F5 & F6) & p & q & -> & Eq & _ & HP1). oz_steps. split; [done|]. exists p.
    split; [by cbn; rewrite F3|]. split; [done|]. split; [exact HP1|]. by split; [eexists|].
Qed.

Lemma failed_event c st h m : st ≠ MAMA_STATUS_OK → after [eCall c st h] m = m.
Proof. unfold after. cbn. by destruct st. Qed.

(** The rest of a send, from a state [o] with the inbox there. *)
Lemma send_rest_wp s own1 o a r msg m :
  pubs_ok own1 o → ConnInv o → is_Some (o_sessions o !! r_session r) → o_reqs o !! a = Some r → own1 (ofRequest a) = r_pub r →
  (∀ p o', o_reqs o' = <[a := mkRequest (r_session r) (r_topic r) (r_sink r) (Some p) (r_inbox r) (Some 0%Z)]> (o_reqs o) →
     others_same o (set_reqs (o_reqs o) o') →
     pubs_ok (λ x, if decide (x = ofRequest a) then Some p else own1 x) o' → (∀ p0, r_pub r = Some p0 → p0 = p) →
     Inv (mkSys o' m (s_held s) (s_vars s))) →
  wp (request_publisher a ;; request_transmit answer handle_of a msg)
    (λ _ o' log, Inv (mkSys o' (after log m) (s_held s) (s_vars s))) o.
Proof.
  intros HP HC Hs Er Ho Hgen. apply wp_bind. eapply wp_mono; [|by eapply request_publisher_wp].
  intros _ o1 log1 (-> & p & Er1 & F & HP1 & Hp & Hp0). unfold request_transmit. apply wp_bind.
  eapply wp_req; [rewrite Er1; apply lookup_insert_eq|]. oz_steps. apply (wp_part _ p); [done|].
  eapply wp_mono; [|apply (with_pub_wp answer handle_of (own (mkSys (set_reqs (<[a:=mkRequest (r_session r) (r_topic r) (r_sink r) (Some p) (r_inbox r) (Some 0%Z)]> (o_reqs o1)) o1) m (s_held s) (s_vars s)))); [|done|done]].
  - intros st o' log H. apply (inv_frame (mkSys _ m (s_held s) (s_vars s))) in H; [exact H|].
    apply (Hgen p); [by cbn; rewrite Er1, insert_insert_eq|exact F|exact HP1|exact Hp0].
  - apply (Hgen p); [by cbn; rewrite Er1, insert_insert_eq|exact F|exact HP1|exact Hp0].
Qed.

Lemma keeps_send s a msg : Inv s → allowed s (oSend a msg) → keeps s (oSend a msg).
Proof.
  intros HI [Ha Hrd]. assert (is_Some (handles kInbox (s_oz s) !! a)) as [h Eh].
  { destruct HI as (_ & _ & HO & _). by apply (oi_held _ _ _ _ _ _ (HO kInbox)). }
  destruct (req_of _ _ _ Eh) as (r & Er & Ehr). clear h Eh Ehr.
  pose proof HI as (HP & HC & _ & HR). pose proof (ready_req _ _ _ Hrd Er) as Hsess.
  unfold keeps, run, void, request_send, CALL_MAMA_FUNC, request_inbox. do 3 apply wp_bind. apply (wp_req _ _ _ _ Er).
  case_decide as Hi.
  - apply wp_bind, wp_transport; [done..|]. intros t. apply wp_bind, wp_queue; [done|]. intros q.
    apply wp_bind, call_handle_wp. cbn [fst snd]. oz_steps.
    set (c := mamaInbox_create2 t q a). set (h := handle_of (o_calls (s_oz s)) c).
    case_decide as Hst.
    + assert (h = 0%Z) as -> by by apply handle_failed. oz_steps. cbn [mama_next held_next vars_next].
      rewrite failed_event by done. apply inv_reqs_same; [done|cbn; lia|]. rewrite Er. f_equal. destruct r. cbn in Hi. by subst.
    + assert (h ≠ 0%Z) as H0 by by apply handle_ok. rewrite Hst.
      eapply wp_mono; [|eapply (send_rest_wp s (own s) _ a (set_inbox h r) msg (<[(kInbox, h) := (a, false)]> (s_mama s)))].
      * intros st o' log H. oz_steps. cbn [mama_next held_next vars_next]. rewrite ?app_nil_r. exact H.
      * exact HP.
      * by eapply ConnInv_kept, HC.
      * exact Hsess.
      * apply lookup_insert_eq.
      * cbn. by rewrite Er.
      * intros p o' Er' F HP' _. pose proof F as (_ & F2 & F3 & F4 & F5 & F6). cbn in Er'. rewrite insert_insert_eq in Er'.
        apply (inv_sent s a r h p (λ x, if decide (x = ofRequest a) then Some p else own s x) o' HI Er Hi H0); try done.
        -- by eapply new_handle.
        -- apply (new_handle (s_oz s) c); [done|done|]. cbn in F6. lia.
        -- exact (conns_kept_same _ _ F).
        -- cbn in F6. lia.
  - oz_steps. rewrite decide_False by by intros H.
    eapply wp_mono; [|eapply (send_rest_wp s (own s) _ a r msg (s_mama s))].
    + intros st o' log H. oz_steps. cbn [mama_next held_next vars_next]. rewrite ?app_nil_r. exact H.
    + exact HP.
    + exact HC.
    + exact Hsess.
    + done.
    + cbn. by rewrite Er.
    + destruct (HR _ _ Er Hi) as (_ & [p0 Ep0] & _). intros p o' Er' F HP' Hp. specialize (Hp _ Ep0). subst p.
      assert (Inv (mkSys (set_reqs (o_reqs (s_oz s)) o') (s_mama s) (s_held s) (s_vars s))) as HI'.
      { apply (inv_frame s _ [] HI). split; [done|]. split; [done|]. eapply pubs_ok_ext, HP'; [|done..].
        intros x. cbv beta. destruct (decide (x = ofRequest a)) as [->|]; [|done]. cbn. by rewrite Er. }
      apply (inv_replied _ a r 0) in HI'; [|done]. cbn [s_oz s_mama s_held s_vars o_reqs set_reqs] in HI'.
      assert (set_replied (Some 0%Z) r = mkRequest (r_session r) (r_topic r) (r_sink r) (Some p0) (r_inbox r) (Some 0%Z)) as E.
      { unfold set_replied. by rewrite Ep0. }
      rewrite E, <-Er' in HI'. by destruct o'.
Qed.

(** ** All operations *)

Lemma allowed_keeps s o : Inv s → allowed s o → keeps s o.
Proof.
  intros HI Ha. destruct o; cbn in Ha.
  - by apply keeps_newConnection.
  - by apply keeps_startConnection.
  - by apply keeps_destroyConnection.
  - by apply keeps_newSession.
  - by apply keeps_startSession.
  - by apply keeps_destroySession.
  - by apply keeps_get.
  - by apply keeps_drop.
  - by apply keeps_publish.
  - by apply keeps_newSub.
  - by apply keeps_startSub.
  - by apply keeps_destroySub.
  - by apply keeps_newRequest.
  - by apply keeps_send.
  - by apply keeps_wait.
  - by apply keeps_destroyRequest.
  - by apply keeps_newReply.
  - by apply keeps_reply.
  - by apply keeps_destroyReply.
  - by apply keeps_newTimer.
  - by apply keeps_startTimer.
  - by apply keeps_destroyTimer.
  - by apply keeps_subCreated.
  - by apply keeps_subError.
  - by apply keeps_subMsg.
  - by apply keeps_subWcMsg.
  - by apply keeps_subDestroyed.
  - by apply keeps_inboxMsg.
  - by apply keeps_inboxError.
  - by apply keeps_inboxDestroyed.
  - by apply keeps_timer.
  - by apply keeps_timerDestroyed.
Qed.

Lemma oz_step s o : Inv s → allowed s o → ∃ s' log, perform answer handle_of s o = Some (s', log) ∧ Inv s'.
Proof.
  intros HI Ha. apply allowed_keeps in Ha; [|done]. unfold keeps, wp in Ha. unfold perform.
  destruct (run answer handle_of s o (s_oz s)) as [[[a oz'] log]|]; [|done]. eauto.
Qed.

Lemma oz_initial s : initial s → Inv s.
Proof.
  intros (n & calls & ->). split; [|split; [|split]].
  - split_and!.
    + intros t a. unfold cached. cbn. rewrite lookup_empty. split; [done|]. intros (p & Hp & _). by rewrite lookup_empty in Hp.
    + intros o a. cbn. split; [|intros (p & Hp & _); by rewrite lookup_empty in Hp]. destruct o; cbn; by rewrite ?lookup_empty.
    + intros a p. cbn. by rewrite lookup_empty.
  - split; cbn; [intros x y; by rewrite lookup_empty|intros c; rewrite lookup_empty; by intros []..].
  - intros k. split; cbn.
    + done.
    + set_solver.
    + intros a [y Hy]. by destruct k.
    + intros a a' h Hy. by destruct k.
    + intros a h Hy. by destruct k.
  - done.
Qed.

Lemma oz_reachable s : reachable answer handle_of s → Inv s.
Proof.
  induction 1 as [s Hs|s o s' log Hr IH Ha Hp]; [by apply oz_initial|].
  destruct (oz_step s o IH Ha) as (s1 & log1 & E & HI). congruence.
Qed.

(** C20: objects of the OZ interface. In every program that follows the rules,
    with any number of connections and sessions, and every order of its
    operations and MAMA's callbacks, each operation is
    defined: no deleted object is followed, by the program or by a callback.
    The caches hold exactly the publishers that are alive, at most one for a
    connection and a topic; a publisher is alive exactly while a variable
    points to it, and then so is its connection; every session has its
    connection; and what MAMA may still call back is alive, and no longer used
    once its destruction was asked for. *)
Theorem oz_safe s :
  reachable answer handle_of s →
  (∀ o, allowed s o → ∃ s' log, perform answer handle_of s o = Some (s', log))
  ∧ (∀ c t a, (∃ cn, o_conns (s_oz s) !! c = Some cn ∧ c_pubs cn !! t = Some a)
       ↔ ∃ p, o_pubs (s_oz s) !! a = Some p ∧ p_conn p = c ∧ p_topic p = t)
  ∧ (∀ a b p q, o_pubs (s_oz s) !! a = Some p → o_pubs (s_oz s) !! b = Some q →
       p_conn p = p_conn q → p_topic p = p_topic q → a = b)
  ∧ (∀ a, is_Some (o_pubs (s_oz s) !! a) ↔ ∃ o, own s o = Some a)
  ∧ (∀ a p, o_pubs (s_oz s) !! a = Some p → has_conn s (p_conn p))
  ∧ (∀ x y, o_sessions (s_oz s) !! x = Some y → has_conn s (se_conn y))
  ∧ (∀ k h a b, s_mama s !! (k, h) = Some (a, b) →
       handles k (s_oz s) !! a = Some h ∧ (b = true → ¬ held s k a)).
Proof using Type*.
  intros HI%oz_reachable. pose proof HI as (HP & HC & HO & _). split_and!.
  - intros o Ha. destruct (oz_step s o HI Ha) as (s' & log & E & _). eauto.
  - intros c t a. transitivity (cached (o_conns (s_oz s)) (c, t) = Some a).
    + unfold cached. cbn. rewrite bind_Some. done.
    + rewrite (proj1 HP). unfold p_key. split; intros (p & Ep & E); exists p; (split; [done|]); [by injection E|by destruct E as [-> ->]].
  - intros a b p q Ep Eq E1 E2.
    assert (cached (o_conns (s_oz s)) (p_key p) = Some a) as Ea by (apply HP; eauto).
    assert (cached (o_conns (s_oz s)) (p_key q) = Some b) as Eb by (apply HP; eauto). unfold p_key in *. congruence.
  - destruct HP as (_ & HP2 & HP3). intros a. split.
    + intros [p Ep]. destruct (HP3 _ _ Ep) as [Hne _]. apply set_choose_L in Hne as [o Ho]. exists o. apply HP2. eauto.
    + intros [o Ho]. apply HP2 in Ho as (p & -> & _). done.
  - intros a p Ep. by eapply pub_conn.
  - apply HC.
  - intros k h a b Hc. destruct (oi_called _ _ _ _ _ _ (HO k) _ _ _ Hc) as (? & _ & ?). by split.
Qed.

End Safe.

(** MAMA that gives a new handle to each creation. *)
#[export] Instance demo_mama : Mama (λ _ _, MAMA_STATUS_OK) (λ n c, Z.of_nat (S n)).
Proof. split; [intros; lia|intros; lia|done]. Qed.

Definition demo_answer : nat → mcall → mama_status := λ _ _, MAMA_STATUS_OK.
Definition demo_handle : nat → mcall → Z := λ n _, Z.of_nat (S n).

Definition demo_start : sys := mkSys (mkOz ∅ ∅ ∅ ∅ ∅ ∅ ∅ 0 0) ∅ ∅ ∅.

(** The states of a program, one operation after the other. *)
Fixpoint runs (s : sys) (os : list op) : option sys :=
  match os with
  | [] => Some s
  | o :: os' => '(s', _) ← perform demo_answer demo_handle s o; runs s' os'
  end.

(** It follows the rules. *)
Fixpoint follows (s : sys) (os : list op) : Prop :=
  match os with
  | [] => True
  | o :: os' => allowed s o ∧ match perform demo_answer demo_handle s o with Some (s', _) => follows s' os' | None => True end
  end.

Lemma runs_reachable os s s' :
  reachable demo_answer demo_handle s → follows s os → runs s os = Some s' → reachable demo_answer demo_handle s'.
Proof.
  revert s. induction os as [|o os IH]; intros s Hs; cbn; [by intros _ [= <-]|]. intros [Ha Hf].
  destruct (perform demo_answer demo_handle s o) as [[s1 log]|] eqn:E; [|done]. rewrite bind_some. apply IH; [|done]. by eapply reach_step.
Qed.

Lemma oz_demo_reachable : reachable demo_answer demo_handle demo_start.
Proof. apply reach_initial. by exists 0, 0. Qed.

(** A connection, at 0, with a session, at 1. *)
Definition demo_open : list op :=
  [oNewConnection (lit "zmq") (lit "omnmmsg") (lit "oz"); oStartConnection 0; oNewSession 0; oStartSession 1].

(** A request that is sent, answered and destroyed, while the program also
    publishes to its topic, there and on a second connection; then the
    sessions and connections are destroyed. *)
Definition demo_program : list op :=
  demo_open ++ [oNewConnection (lit "zmq") (lit "omnmmsg") (lit "oz"); oNewRequest 1 (lit "a/b") true; oSend 3 7;
    oGetPublisher 0 0 (lit "a/b"); oGetPublisher 1 2 (lit "a/b"); oPublish 0 8; oPublish 1 8;
    oInboxMsg 10 9; oDestroyRequest 3; oDestroySession 1; oInboxDestroyed 10; oDropPublisher 0; oDestroyConnection 0].

Example oz_demo :
  (λ s, (size (s_mama s), size (o_reqs (s_oz s)), size (o_pubs (s_oz s)), size (o_sessions (s_oz s)), size (o_conns (s_oz s)))) <$>
    runs demo_start demo_program
  = Some (0, 0, 1, 0, 1).
Proof. vm_compute. reflexivity. Qed.

Ltac follow := split_and!; repeat first [exact I|by eexists|split]; try (unfold held; by_decide).

Lemma oz_safe_witness :
  ∃ s, runs demo_start (demo_open ++ [oNewRequest 1 (lit "a/b") true; oSend 2 7]) = Some s
    ∧ ∃ s' log, perform demo_answer demo_handle s (oInboxMsg 10 9) = Some (s', log).
Proof.
  eexists. split; [vm_compute; reflexivity|].
  eapply (oz_safe demo_answer demo_handle).
  - eapply (runs_reachable (demo_open ++ [oNewRequest 1 (lit "a/b") true; oSend 2 7]) demo_start);
      [apply oz_demo_reachable| |vm_compute; reflexivity].
    vm_compute. follow. exists 1. split; [reflexivity|by eexists].
  - vm_compute. eauto.
Defined.

End OzSafe.
