(* ===== verification/OzReply.v ===== *)
(** * Requests, replies and the life cycle of a connection

    What a program of the OZ interface can rely on: when [waitReply]
    succeeds, what a reply leaves behind, and the calls that start and
    destroy a connection and a session. *)

From S2P Require Import Prelude CLib CMonad CDouble OzTopics Oz OzSystem OzProofs OzConn OzSpec.
Import Topics Oz System OzInv OzConn OzSafe.

Module OzReply.

Section Reply.

Context (answer : nat → mcall → mama_status) (handle_of : nat → mcall → Z).

(** ** Replies *)

Lemma oz_ext s s' :
  o_conns s = o_conns s' → o_sessions s = o_sessions s' → o_pubs s = o_pubs s' → o_subs s = o_subs s' → o_reqs s = o_reqs s' →
  o_replies s = o_replies s' → o_timers s = o_timers s' → o_next s = o_next s' → o_calls s = o_calls s' → s = s'.
Proof. destruct s, s'. cbn. by intros -> -> -> -> -> -> -> -> ->. Qed.

(** A reply while no publisher for replies is alive. *)
Lemma reply_run a request reply s r c :
  o_replies s !! a = Some r → o_conns s !! rp_conn r = Some c → c_pubs c !! INBOX_TOPIC = None → o_pubs s !! o_next s = None →
  let create := mamaPublisher_create (c_transport c) INBOX_TOPIC in
  answer (o_calls s) create = MAMA_STATUS_OK →
  ∃ st x, reply_send answer handle_of a request reply true s
  = Some (st, set_next (S (o_next s)) (set_calls (S (S (o_calls s))) s),
          [eCall create MAMA_STATUS_OK (handle_of (o_calls s) create);
           eCall (mamaPublisher_sendReplyToInbox (handle_of (o_calls s) create) request reply) st x]).
Proof.
  intros Er Ec Et Ef create Hok.
  set (h := handle_of (o_calls s) create). set (send := mamaPublisher_sendReplyToInbox h request reply).
  exists (answer (S (o_calls s)) send), (handle_of (S (o_calls s)) send).
  enough (wp (reply_send answer handle_of a request reply true)
    (λ st s' log, st = answer (S (o_calls s)) send ∧ s' = set_next (S (o_next s)) (set_calls (S (S (o_calls s))) s)
      ∧ log = [eCall create MAMA_STATUS_OK h; eCall send st (handle_of (S (o_calls s)) send)]) s) as Hwp.
  { unfold wp in Hwp. destruct (reply_send _ _ _ _ _ _ _) as [[[st s'] log]|]; [|done]. by destruct Hwp as (-> & -> & ->). }
  unfold reply_send, reply_getReplyTopic, getPublisher, CALL_MAMA_FUNC. cbn [negb]. oz_steps.
  rewrite decide_False by by intros H. unfold the_reply. oz_steps. apply (wp_part _ _ _ _ Er). oz_steps. rewrite Et. oz_steps.
  eapply wp_conn; [exact Ec|]. oz_steps.
  unfold publisher_sendReply, with_pub, CALL_MAMA_FUNC. oz_steps. eapply wp_pub; [apply lookup_insert_eq|].
  cbn [p_pub p_topic app]. rewrite decide_True by done. oz_steps. eapply wp_conn; [cbn; apply lookup_insert_eq|]. oz_steps. apply call_handle_wp. oz_steps. cbn [fst snd o_calls set_conns set_pubs set_next].
  change (mamaPublisher_create (c_transport _) INBOX_TOPIC) with create. rewrite Hok.
  rewrite decide_False by by intros H. oz_steps. eapply wp_pub; [cbn; apply lookup_insert_eq|]. cbn [p_pub set_pub app].
  apply oz_call_wp. unfold release. oz_steps. eapply wp_pub; [cbn; apply lookup_insert_eq|]. oz_steps. cbn [p_owners set_pub].
  rewrite decide_True by set_solver. unfold publisher_destroy, removePublisher. oz_steps.
  eapply wp_pub; [cbn; apply lookup_insert_eq|]. oz_steps. eapply wp_conn; [cbn; apply lookup_insert_eq|]. oz_steps.
  split; [done|]. split; [|done]. apply oz_ext; try done; cbn.
  - rewrite delete_insert_eq, delete_id by done. rewrite insert_insert_eq. apply insert_id. rewrite Ec. by destruct c.
  - by rewrite !delete_insert_eq, delete_id by done.
Qed.

Definition is_create (e : event) : bool :=
  match e with eCall (mamaPublisher_create _ _) MAMA_STATUS_OK _ => true | _ => false end.

(** C31: what replies leave behind. As long as no publisher for the reply topic
    is kept alive, each reply creates a MAMA publisher of its own and drops
    its object at the end, without destroying that publisher: after any
    number of replies the objects are the same as before, and as many MAMA
    publishers are left that nothing refers to. *)
Theorem reply_leaks (l : list (Z * Z)) a s r c :
  o_replies s !! a = Some r → o_conns s !! rp_conn r = Some c → c_pubs c !! INBOX_TOPIC = None → (∀ a, o_next s ≤ a → o_pubs s !! a = None) →
  (∀ n, answer n (mamaPublisher_create (c_transport c) INBOX_TOPIC) = MAMA_STATUS_OK) →
  ∃ log, cforeach (λ x, _ ← reply_send answer handle_of a x.1 x.2 true; mret ()) l s
    = Some ((), set_next (length l + o_next s) (set_calls (2 * length l + o_calls s) s), log)
    ∧ length (filter is_create log) = length l.
Proof.
  intros Er Ec Et Ef Hok. revert s Er Ec Ef. induction l as [|[q m] l IH]; intros s Er Ec Ef.
  - exists []. by destruct s.
  - destruct (reply_run a q m s r c Er Ec Et (Ef _ (Nat.le_refl _)) (Hok _)) as (st & x & E).
    destruct (IH (set_next (S (o_next s)) (set_calls (S (S (o_calls s))) s))) as (log & El & Hlog); [done|done|cbn; intros; apply Ef; lia|].
    eexists. split.
    + cbn [cforeach fst snd]. rewrite (C_bind_eq _ _ _ _ _ _ (C_void _ _ _ _ _ E)), El. cbn. do 3 f_equal.
      unfold set_next, set_calls. cbn. f_equal; lia.
    + rewrite !filter_cons. cbn [is_create]. rewrite decide_True by done. rewrite decide_False by by intros []. cbn [length]. by rewrite Hlog.
Qed.

(** ** Waiting for the reply *)

Definition wait_error (e : errno) : mama_status :=
  match e with
  | ETIMEDOUT => MAMA_STATUS_TIMEOUT
  | EINVAL => MAMA_STATUS_INVALID_ARG
  | EOTHER => MAMA_STATUS_SYSTEM_ERROR
  end.

(** The replies between a send and a wait are counted if there is a sink. *)
Lemma replies_wp a msgs s r n :
  o_reqs s !! a = Some r → r_replied r = Some n →
  wp (cforeach (request_msgCB a) msgs)
    (λ _ s' _, ∃ r', o_reqs s' !! a = Some r'
       ∧ r_replied r' = Some (n + (if r_sink r then Z.of_nat (length msgs) else 0))%Z) s.
Proof.
  revert s r n. induction msgs as [|m msgs IH]; intros s r n Er En; cbn [cforeach].
  - apply wp_ret. exists r. split; [done|]. rewrite En. f_equal. destruct (r_sink r); cbn; lia.
  - apply wp_bind. unfold request_msgCB. apply wp_bind, (wp_req _ _ _ _ Er). destruct (r_sink r) eqn:Es.
    + apply wp_bind, (wp_part _ _ _ _ En). oz_steps.
      eapply wp_mono; [|eapply (IH _ (set_replied (Some (n + 1)%Z) r) (n + 1)%Z); [apply lookup_insert_eq|done]].
      intros _ s' o (r' & Er' & En'). exists r'. split; [done|]. rewrite En'. cbn [r_sink set_replied]. rewrite Es. f_equal. cbn [length]. lia.
    + oz_steps. eapply wp_mono; [|by eapply (IH _ r n)].
      intros _ s' o (r' & Er' & En'). exists r'. split; [done|]. by rewrite En', Es.
Qed.

End Reply.

Section Await.

Context (answer : nat → mcall → mama_status) (handle_of : nat → mcall → Z) `{!Mama answer handle_of}.

(** A send, whatever its status, sets the count to zero, unless the inbox
    could not be created. *)
Lemma send_count s a msg r :
  Inv handle_of s → o_reqs (s_oz s) !! a = Some r → has_session s (r_session r) →
  wp (request_send answer handle_of a msg)
    (λ st s' _, st = MAMA_STATUS_OK → ∃ r', o_reqs s' !! a = Some r' ∧ r_replied r' = Some 0%Z ∧ r_sink r' = r_sink r) (s_oz s).
Proof.
  intros HI Er Hsess. pose proof HI as (HP & HC & _ & HR).
  unfold request_send, CALL_MAMA_FUNC. apply wp_bind.
  apply (wp_mono _ (λ st s1 _, pubs_ok (own s) s1 ∧ ConnInv s1 ∧ is_Some (o_sessions s1 !! r_session r)
    ∧ ∃ r1, o_reqs s1 !! a = Some r1 ∧ r_pub r1 = r_pub r ∧ r_sink r1 = r_sink r ∧ r_session r1 = r_session r)).
  - intros st s1 log1 (HP1 & HC1 & Hs1 & r1 & Er1 & Ep1 & Ek1 & En1). case_decide as Hst; [by apply wp_ret|].
    apply wp_bind. eapply wp_mono; [|eapply (request_publisher_wp (own s)); [done|done|by rewrite En1|exact Er1|]].
    + intros _ s2 log2 (-> & p & Er2 & F & HP2 & Hp & _). unfold request_transmit. apply wp_bind.
      eapply wp_req; [rewrite Er2; apply lookup_insert_eq|]. oz_steps. apply (wp_part _ p); [done|].
      eapply wp_mono; [|eapply (with_pub_wp answer handle_of); [|exact Hp|done]].
      * intros st' s3 log3 (_ & (_ & _ & F3 & _) & _) _. cbn in F3. rewrite F3, lookup_insert_eq. eexists. split; [reflexivity|]. by split.
      * exact HP2.
    + cbn. by rewrite Er.
  - unfold request_inbox. apply wp_bind, (wp_req _ _ _ _ Er). case_decide as Hi.
    + apply wp_bind, wp_transport; [done..|]. intros t. apply wp_bind, wp_queue; [done|]. intros q.
      apply wp_bind, call_handle_wp. oz_steps. split; [exact HP|]. split; [by eapply ConnInv_kept, HC|]. split; [exact Hsess|].
      eexists. split; [apply lookup_insert_eq|]. by split.
    + apply wp_ret. split; [exact HP|]. split; [done|]. split; [done|]. by exists r.
Qed.

(** C30: waiting for a reply. After a request was sent, a wait succeeds exactly
    when a reply came since then and the request has a sink; otherwise it
    reports why it ended: without a sink it never succeeds, and a reply to
    an earlier send does not count. *)
Theorem reply_awaited s a r msg msgs seconds e :
  reachable answer handle_of s → o_reqs (s_oz s) !! a = Some r → has_session s (r_session r) → is_Some (to_int32 (dmul seconds (dint 1000))) →
  wp (st ← request_send answer handle_of a msg;
      if decide (st ≠ MAMA_STATUS_OK) then mret None
      else cforeach (request_msgCB a) msgs ;; st ← request_waitReply a seconds e; mret (Some st))
    (λ result _ _, ∀ st, result = Some st →
       st = if bool_decide (msgs ≠ []) && r_sink r then MAMA_STATUS_OK else wait_error e) (s_oz s).
Proof using Type*.
  intros HI%oz_reachable Er Hx [ms Ems]; [|done]. apply wp_bind. eapply wp_mono; [|by eapply send_count].
  intros st s1 log1 Hs1. case_decide as Hst; [by apply wp_ret|]. destruct (Hs1 Hst) as (r1 & Er1 & En1 & Ek1).
  apply wp_bind. eapply wp_mono; [|by eapply replies_wp]. intros _ s2 log2 (r2 & Er2 & En2). rewrite Ek1 in En2.
  unfold request_waitReply. do 2 apply wp_bind. apply (wp_req _ _ _ _ Er2).
  apply wp_bind, (wp_part _ _ _ _ Ems), wp_bind, (wp_part _ _ _ _ En2).
  destruct (r_sink r), msgs as [|m msgs]; cbn [length]; case_decide; try lia; oz_steps; by intros st' [= <-].
Qed.

End Await.

(** ** The life cycle of a connection and its session *)

Section Connection.

Context (answer : nat → mcall → mama_status) (handle_of : nat → mcall → Z).

Definition call_of (e : event) : option (mcall * mama_status) :=
  match e with eCall c st _ => Some (c, st) | _ => None end.

(** The calls of [cs] in order, up to the first that fails; its status is the
    result. *)
Definition in_order (cs : list mcall) (st : mama_status) (log : list event) : Prop :=
  ∃ k, 1 ≤ k ≤ length cs
    ∧ call_of <$> log = zip_with (λ c x, Some (c, x)) (take k cs) (replicate (k - 1) MAMA_STATUS_OK ++ [st])
    ∧ (st = MAMA_STATUS_OK → k = length cs).

Definition connection_calls (c : connection) (n : nat) : list mcall :=
  let bridge := handle_of n (mama_loadBridge (c_mw c)) in
  let transport := handle_of (4 + n) mamaTransport_allocate in
  [mama_loadBridge (c_mw c); mama_loadPayloadBridge (c_payload c); mama_open; mama_getDefaultEventQueue bridge;
   mamaTransport_allocate; mamaTransport_create transport (c_name c) bridge; mama_startBackgroundEx bridge].

Ltac oz_call := oz_steps; (apply call_handle_wp || apply oz_call_wp); oz_steps;
  cbn [fst snd ticked set_calls set_conns o_calls o_conns o_sessions o_pubs o_subs o_reqs o_replies o_timers o_next].
Ltac oz_exit k :=
  case_decide; [oz_steps; split; [exists k; split; [cbn; lia|]; split; [cbn in *; congruence|done]|split; [eexists; apply lookup_insert_eq|done]]|].
Ltac oz_conn := oz_steps; eapply wp_conn; [apply lookup_insert_eq|]; oz_steps.

(** The start of a connection, on every answer of MAMA. *)
Lemma connection_start_calls s a c :
  o_conns s !! a = Some c →
  wp (connection_start answer handle_of a)
    (λ st s' log, in_order (connection_calls c (o_calls s)) st log
       ∧ is_Some (o_conns s' !! a) ∧ (st = MAMA_STATUS_OK → ∃ c', o_conns s' !! a = Some c'
           ∧ c_bridge c' = handle_of (o_calls s) (mama_loadBridge (c_mw c))
           ∧ c_transport c' = handle_of (4 + o_calls s) mamaTransport_allocate)) s.
Proof.
  intros Ec. unfold connection_start, CALL_MAMA_FUNC. oz_steps. oz_call. oz_exit 1.
  oz_conn. oz_call. oz_exit 2. oz_call. oz_exit 3. oz_conn. oz_call. oz_exit 4. oz_conn. oz_call. oz_exit 5.
  oz_conn. oz_call. oz_exit 6. oz_call. oz_exit 7. oz_steps.
  split; [exists 7; split; [cbn; lia|]; split; [cbn in *; congruence|done]|]. split; [eexists; apply lookup_insert_eq|]. intros _. eexists.
  split; [apply lookup_insert_eq|done].
Qed.

(** Its end: the object is deleted only when all calls succeed. *)
Lemma connection_destroy_calls s a c :
  o_conns s !! a = Some c →
  wp (connection_destroy answer handle_of a)
    (λ st s' log, in_order [mama_stop (c_bridge c); mamaTransport_destroy (c_transport c); mama_close] st log
       ∧ o_conns s' !! a = if decide (st = MAMA_STATUS_OK) then None else Some c) s.
Proof.
  intros Ec. unfold connection_destroy, CALL_MAMA_FUNC. oz_steps. apply oz_call_wp.
  assert (∀ st o, st ≠ MAMA_STATUS_OK → o_conns o = o_conns s →
    o_conns o !! a = if decide (st = MAMA_STATUS_OK) then None else Some c) as Hfail.
  { intros st o Hst ->. by rewrite decide_False. }
  case_decide as H1; oz_steps; [split; [exists 1; split; [cbn; lia|]; split; [cbn in *; congruence|done]|by apply Hfail]|].
  oz_steps. apply oz_call_wp. case_decide as H2; oz_steps; [split; [exists 2; split; [cbn; lia|]; split; [cbn in *; congruence|done]|by apply Hfail]|].
  oz_steps. apply oz_call_wp. case_decide as H3; oz_steps; [split; [exists 3; split; [cbn; lia|]; split; [cbn in *; congruence|done]|by apply Hfail]|].
  split; [exists 3; split; [cbn; lia|]; split; [cbn in *; congruence|done]|]. cbn. by rewrite decide_True, lookup_delete_eq.
Qed.

(** The session of the connection. *)
Lemma session_start_calls s a c x :
  o_sessions s !! a = Some x → o_conns s !! se_conn x = Some c →
  wp (session_start answer handle_of a)
    (λ st s' log, in_order [mamaQueue_create (c_bridge c); mamaDispatcher_create (handle_of (o_calls s) (mamaQueue_create (c_bridge c)))] st log
       ∧ is_Some (o_sessions s' !! a) ∧ (st = MAMA_STATUS_OK → ∃ x', o_sessions s' !! a = Some x'
           ∧ se_queue x' = handle_of (o_calls s) (mamaQueue_create (c_bridge c)))) s.
Proof.
  intros Ex Ec. unfold session_start, CALL_MAMA_FUNC. oz_steps. apply (wp_sess _ _ _ _ Ex). oz_steps. oz_call. oz_exit 1.
  oz_steps. eapply wp_sess; [apply lookup_insert_eq|]. oz_steps. oz_call. oz_exit 2. oz_steps.
  split; [exists 2; split; [cbn; lia|]; split; [cbn in *; congruence|done]|]. split; [eexists; apply lookup_insert_eq|]. intros _. eexists.
  split; [apply lookup_insert_eq|done].
Qed.

Lemma session_destroy_calls s a x :
  o_sessions s !! a = Some x →
  wp (session_destroy answer handle_of a)
    (λ st s' log, in_order [mamaDispatcher_destroy (se_dispatcher x); mamaQueue_destroyTimedWait (se_queue x) 100] st log
       ∧ o_sessions s' !! a = if decide (st = MAMA_STATUS_OK) then None else Some x) s.
Proof.
  intros Ex. unfold session_destroy, CALL_MAMA_FUNC. apply wp_bind, (wp_sess _ _ _ _ Ex). oz_steps. apply oz_call_wp.
  case_decide as H1; oz_steps; [split; [exists 1; split; [cbn; lia|]; split; [cbn in *; congruence|done]|by rewrite decide_False]|].
  oz_steps. apply oz_call_wp. case_decide as H2; oz_steps; [split; [exists 2; split; [cbn; lia|]; split; [cbn in *; congruence|done]|by rewrite decide_False]|].
  split; [exists 2; split; [cbn; lia|]; split; [cbn in *; congruence|done]|]. cbn. by rewrite decide_True, lookup_delete_eq.
Qed.

End Connection.

(** After the session a reply object, at 2, or a request without a sink. *)
Lemma reply_leaks_witness :
  ∃ s, runs demo_start (demo_open ++ [oNewReply 0]) = Some s
    ∧ ∃ log, cforeach (λ x, _ ← reply_send demo_answer demo_handle 2 x.1 x.2 true; mret ()) [(1, 2); (3, 4)]%Z (s_oz s)
        = Some ((), set_next 5 (set_calls 13 (s_oz s)), log)
      ∧ length (filter is_create log) = 2.
Proof.
  eexists. split; [vm_compute; reflexivity|].
  eapply (reply_leaks demo_answer demo_handle [(1, 2); (3, 4)]%Z 2); [reflexivity|vm_compute; reflexivity|reflexivity| |done].
  intros a _. done.
Defined.

Lemma reply_awaited_witness :
  ∃ s, runs demo_start (demo_open ++ [oNewRequest 1 (lit "a/b") false]) = Some s
    ∧ ∀ seconds e, is_Some (to_int32 (dmul seconds (dint 1000))) →
      wp (st ← request_send demo_answer demo_handle 2 7;
          if decide (st ≠ MAMA_STATUS_OK) then mret None
          else cforeach (request_msgCB 2) [9%Z] ;; st ← request_waitReply 2 seconds e; mret (Some st))
        (λ result _ _, ∀ st, result = Some st → st = wait_error e) (s_oz s).
Proof.
  eexists. split; [vm_compute; reflexivity|]. intros seconds e Hs.
  eapply (reply_awaited demo_answer demo_handle) with (msgs := [9%Z]) (r := mkRequest 1 (lit "a/b") false None 0 None);
    [|vm_compute; reflexivity|vm_compute; by eexists|done].
  eapply (runs_reachable (demo_open ++ [oNewRequest 1 (lit "a/b") false]) demo_start); [apply oz_demo_reachable| |vm_compute; reflexivity].
  vm_compute. follow.
Defined.

End OzReply.
