(* ===== verification/OzPrograms.v ===== *)
(** * The example programs (src/examples/leak.cpp, pub.cpp, rep.cpp, req.cpp,
    req2.cpp, sub.cpp, timer.cpp, timer2.cpp, wc.cpp, wc2.cpp)

    Each [main] is a program of operations of [Oz] with the exceptions of
    [TRY_MAMA_FUNC], run while MAMA calls back between any two of them; the
    event sinks of the examples act inside the callbacks.  What is printed
    is left out, and the functions of [mamaMsg] only answer; a sink that
    throws does nothing more.  The sinks are variables of [main], declared
    after the session: a run is inside their scope until the program leaves
    it, and then destroys the session and the connection.  A callback that
    calls a sink outside its scope is a [fault], and so is a second reply in
    req.cpp. *)

From S2P Require Import Prelude CLib CMonad CDouble OzTopics OzArgs Threads Oz OzSystem.
Import CmdLine Topics Oz System.

Module Programs.

(** ** Statements

    A statement is an atomic action on the state of [OzSystem]; [None] is
    undefined behaviour. *)

Definition act (A : Type) : Type := sys → option (A * sys).

Definition exec (A : Type) (a : act A) (s : sys) : outcome (A * sys) :=
  match a s with Some r => Next r | None => Fault end.

(** A piece of a program that may throw a [mama_status]. *)
Definition E (A : Type) : Type := prog act (mama_status + A).

#[export] Instance E_ret : MRet E := λ A a, Ret (inr a).
#[export] Instance E_bind : MBind E := λ A B f p,
  pbind (λ r, match r with inl st => Ret (inl st) | inr a => f a end) p.

Definition stm {A} (a : act A) : E A := Do a (λ r, Ret (inr r)).

Definition TRY_MAMA_FUNC (x : act mama_status) : E () :=
  Do x (λ s, if decide (s ≠ MAMA_STATUS_OK) then Ret (inl s) else Ret (inr ())).

Inductive msgCall :=
  | mamaMsg_create
  | mamaMsg_updateString (name value : list byte)
  | mamaMsg_updateU32 (name : list byte) (value : Z)
  | mamaMsg_destroy.

(** The events of sleeping, and of waiting for a signal. *)
Definition pause : act () := λ s, Some ((), s).

(** A value that may be undefined. *)
Definition value {A} (x : option A) : act A := λ s, a ← x; Some (a, s).

Section Examples.

Context (answer : nat → mcall → mama_status) (handle_of : nat → mcall → Z).
Context (msg_answer : msgCall → mama_status) (msg : Z).
Context (getenv : list byte → option (list byte)) (argv : list (list byte)).

(** An operation of the program; the result is an address. *)
Definition operation (o : op) : act nat := λ s,
  match run answer handle_of s o (s_oz s) with
  | Some (a, oz', log) =>
      Some (a, mkSys oz' (mama_next o (after log (s_mama s))) (held_next o a (s_held s)) (vars_next o a (s_vars s)))
  | None => None
  end.

(** The function an operation calls, for those that return a status. *)
Definition status_of (s : sys) (o : op) : C oz event mama_status :=
  match o with
  | oStartConnection c => connection_start answer handle_of c
  | oDestroyConnection c => connection_destroy answer handle_of c
  | oStartSession x => session_start answer handle_of x
  | oDestroySession x => session_destroy answer handle_of x
  | oPublish n msg => p ← var s n; publisher_publish answer handle_of p msg
  | oStartSubscriber a => subscriber_start answer handle_of a
  | oDestroySubscriber a => subscriber_destroy answer handle_of a
  | oSend a msg => request_send answer handle_of a msg
  | oWaitReply a seconds e => request_waitReply a seconds e
  | oDestroyRequest a => request_destroy answer handle_of a
  | oStartTimer a => timer_start answer handle_of a
  | oDestroyTimer a => timer_destroy answer handle_of a
  | _ => run answer handle_of s o ;; mret MAMA_STATUS_OK
  end.

Definition with_status (o : op) : act mama_status := λ s,
  match status_of s o (s_oz s) with
  | Some (st, oz', log) =>
      Some (st, mkSys oz' (mama_next o (after log (s_mama s))) (held_next o 0 (s_held s)) (vars_next o 0 (s_vars s)))
  | None => None
  end.

Definition msg_call (c : msgCall) : act mama_status := λ s, Some (msg_answer c, s).

(** ** The programs *)

Definition open_connection (tport : option (list byte)) : E nat :=
  mw ← stm (value (getMw getenv argv));
  payload ← stm (value (getPayload getenv argv));
  name ← stm (value tport);
  conn ← stm (operation (oNewConnection mw payload name));
  TRY_MAMA_FUNC (with_status (oStartConnection conn)) ;;
  mret conn.

Definition open_session (conn : nat) : E nat :=
  sess ← stm (operation (oNewSession conn));
  TRY_MAMA_FUNC (with_status (oStartSession sess)) ;;
  mret sess.

(** The deleters at the end of [main]; they ignore the status. *)
Definition close_session (sess : nat) : E () := stm (with_status (oDestroySession sess)) ;; mret ().
Definition close_connection (conn : nat) : E () := stm (with_status (oDestroyConnection conn)) ;; mret ().

(** The rest of [main] when the scope of the sink ends: the deleters of the
    connection and of the session, if there is one. *)
Definition leave (r : nat * option nat) : E () :=
  match r.2 with
  | Some sess => close_session sess ;; close_connection r.1
  | None => close_connection r.1
  end.

(** Each program up to the end of the scope of its sink.

    sub.cpp, wc.cpp, wc2.cpp, rep.cpp: they differ in the default topic and
    in the sink. *)
Definition main_subscriber (defaultTopic : list byte) : E (nat * option nat) :=
  let topic := getTopic argv defaultTopic in
  conn ← open_connection (getTportSub getenv argv);
  sess ← open_session conn;
  sub ← stm (operation (oNewSubscriber sess topic true wcUnspecified));
  TRY_MAMA_FUNC (with_status (oStartSubscriber sub)) ;;
  stm pause ;;
  stm (with_status (oDestroySubscriber sub)) ;;
  mret (conn, Some sess).

Definition main_sub : E (nat * option nat) := main_subscriber (lit "prefix/suffix").
Definition main_rep : E (nat * option nat) := main_subscriber (lit "prefix/suffix").
Definition main_wc : E (nat * option nat) := main_subscriber (lit "^prefix/[^/]+$").
Definition main_wc2 : E (nat * option nat) := main_subscriber (lit "prefix/*").

(** timer.cpp, timer2.cpp, leak.cpp: a timer that runs
    while main sleeps. *)
Definition main_timer : E (nat * option nat) :=
  conn ← open_connection (getTportSub getenv argv);
  sess ← open_session conn;
  timer ← stm (operation (oNewTimer sess (of_decimal false 5 (-1)) true));
  TRY_MAMA_FUNC (with_status (oStartTimer timer)) ;;
  stm pause ;;
  stm (with_status (oDestroyTimer timer)) ;;
  mret (conn, Some sess).

(** The timer of timer2.cpp is destroyed by its deleter, at the same place;
    leak.cpp then leaks a block it does not use. *)
Definition main_timer2 : E (nat * option nat) := main_timer.
Definition main_leak : E (nat * option nat) := main_timer.

(** [++i] of an [int]. *)
Definition next_int (i : Z) : option Z := if decide (i + 1 < 2 ^ 31)%Z then Some (i + 1)%Z else None.

Definition create_msg : E () :=
  TRY_MAMA_FUNC (msg_call mamaMsg_create) ;;
  TRY_MAMA_FUNC (msg_call (mamaMsg_updateString (lit "name") (lit "value"))).

(** The loop while the signal has not come: for [n] iterations. *)
Fixpoint pub_loop (n : nat) (i : Z) : E () :=
  match n with
  | 0 => mret ()
  | S n' =>
      stm pause ;;
      i ← stm (value (next_int i));
      TRY_MAMA_FUNC (msg_call (mamaMsg_updateU32 (lit "num") i)) ;;
      TRY_MAMA_FUNC (with_status (oPublish 0 msg)) ;;
      pub_loop n' i
  end.

Definition main_pub (n : nat) : E (nat * option nat) :=
  let topic := getTopic argv (lit "prefix/suffix") in
  conn ← open_connection (getTportPub getenv argv);
  stm (operation (oGetPublisher 0 conn topic)) ;;
  create_msg ;;
  pub_loop n 0 ;;
  TRY_MAMA_FUNC (msg_call mamaMsg_destroy) ;;
  stm (operation (oDropPublisher 0)) ;;
  mret (conn, None).

Fixpoint req_loop (sess : nat) (topic : list byte) (n : nat) (i : Z) : E () :=
  match n with
  | 0 => mret ()
  | S n' =>
      stm pause ;;
      i ← stm (value (next_int i));
      TRY_MAMA_FUNC (msg_call (mamaMsg_updateU32 (lit "num") i)) ;;
      pRequest ← stm (operation (oNewRequest sess topic true));
      TRY_MAMA_FUNC (with_status (oSend pRequest msg)) ;;
      req_loop sess topic n' i
  end.

Definition main_req (n : nat) : E (nat * option nat) :=
  let topic := getTopic argv (lit "prefix/suffix") in
  conn ← open_connection (getTportPub getenv argv);
  sess ← open_session conn;
  create_msg ;;
  req_loop sess topic n 0 ;;
  TRY_MAMA_FUNC (msg_call mamaMsg_destroy) ;;
  mret (conn, Some sess).

(** [e]: the error of [waitReply] if no reply comes. *)
Definition main_req2 (e : errno) : E (nat * option nat) :=
  let topic := getTopic argv (lit "prefix/suffix") in
  conn ← open_connection (getTportPub getenv argv);
  sess ← open_session conn;
  create_msg ;;
  TRY_MAMA_FUNC (msg_call (mamaMsg_updateU32 (lit "num") 1)) ;;
  req ← stm (operation (oNewRequest sess topic true));
  TRY_MAMA_FUNC (with_status (oSend req msg)) ;;
  stm (with_status (oWaitReply req (dint 5) e)) ;;
  mret (conn, Some sess).

Inductive example :=
  | exLeak | exPub (n : nat) | exRep | exReq (n : nat) | exReq2 (e : errno)
  | exSub | exTimer | exTimer2 | exWc | exWc2.

Definition program (p : example) : E (nat * option nat) :=
  match p with
  | exSub => main_sub
  | exRep => main_rep
  | exWc => main_wc
  | exWc2 => main_wc2
  | exLeak => main_leak
  | exTimer => main_timer
  | exTimer2 => main_timer2
  | exPub n => main_pub n
  | exReq n => main_req n
  | exReq2 e => main_req2 e
  end.

(** ** Callbacks *)

(** The object MAMA calls back, by handle. *)
Definition op_handle (o : op) : option (kind * Z) :=
  match o with
  | oSubCreated h | oSubError h _ | oSubMsg h _ | oSubWcMsg h _ _ | oSubDestroyed h => Some (kSub, h)
  | oInboxMsg h _ | oInboxError h _ | oInboxDestroyed h => Some (kInbox, h)
  | oTimer h | oTimerDestroyed h => Some (kTimer, h)
  | _ => None
  end.

(** The connection of an object, by way of its session. *)
Definition conn_of (s : sys) (k : kind) (a : nat) : option nat :=
  x ← sessions_of k (s_oz s) !! a; y ← o_sessions (s_oz s) !! x; Some (se_conn y).

(** MAMA calls back while the connection and the session of the object are
    there. *)
Definition may_call (s : sys) (o : op) : Prop :=
  allowed s o
  ∧ ∃ kh x c, op_handle o = Some kh ∧ s_mama s !! kh = Some x ∧ conn_of s kh.1 x.1 = Some c ∧ has_conn s c.

(** The callbacks that call the sink; the objects of the examples all have
    one. *)
Definition calls_sink (o : op) : bool :=
  match o with
  | oSubCreated _ | oSubError _ _ | oSubMsg _ _ | oSubWcMsg _ _ _ | oInboxMsg _ _ | oInboxError _ _ | oTimer _ => true
  | _ => false
  end.

(** The sink of the example is a variable of [main]: pub.cpp has none, and
    the request of req2.cpp is its own. *)
Definition sink_in_main (p : example) : bool := match p with exPub _ | exReq2 _ => false | _ => true end.

(** A reply in req.cpp to a request that its sink has destroyed before. *)
Definition replied (p : example) (s : sys) (o : op) : Prop :=
  match p, o with
  | exReq _, oInboxMsg h _ => ∃ x, s_mama s !! (kInbox, h) = Some x ∧ ¬ held s kInbox x.1
  | _, _ => False
  end.

(** The static variable of rep.cpp: its reply object is made by the first
    callback, for the connection of the subscriber. *)
Definition static_reply (s : sys) (h : Z) (a : nat) (l : list op) : Prop :=
  (is_Some (o_replies (s_oz s) !! a) ∧ l = [])
  ∨ (o_replies (s_oz s) = ∅ ∧ a = o_next (s_oz s)
     ∧ ∃ x c, s_mama s !! (kSub, h) = Some x ∧ conn_of s kSub x.1 = Some c ∧ l = [oNewReply c]).

(** What the sink of the example does in the callback: rep.cpp replies to a
    request with a copy of it, req.cpp destroys the request. *)
Definition reaction (p : example) (s : sys) (o : op) (l : list op) : Prop :=
  match p, o with
  | exRep, (oSubMsg h _ | oSubWcMsg h _ _) =>
      ∃ a l1 l2, static_reply s h a l1 ∧ l = l1 ++ l2 ∧ (l2 = [] ∨ ∃ temp fromInbox, l2 = [oReply a temp temp fromInbox])
  | exReq _, oInboxMsg h _ => ∃ x, s_mama s !! (kInbox, h) = Some x ∧ l = [oDestroyRequest x.1]
  | _, _ => l = []
  end.

Fixpoint perform_all (s : sys) (l : list op) : option sys :=
  match l with
  | [] => Some s
  | o :: l' => '(s', _) ← perform answer handle_of s o; perform_all s' l'
  end.

Inductive callback (p : example) (s s' : sys) : Prop :=
  | callback_intro o l :
      may_call s o → ¬ replied p s o → reaction p s o l → perform_all s (o :: l) = Some s' → callback p s s'.

(** Where the program is: in the scope of its sink or after it. *)
Inductive place :=
  | Inside (x : E (nat * option nat))
  | Outside (x : E ()).

(** A callback that must not come at this place. *)
Definition fault (p : example) (x : place) (s : sys) (o : op) : Prop :=
  (match x with Inside _ => False | Outside _ => sink_in_main p = true ∧ calls_sink o = true end) ∨ replied p s o.

(** The statement the program is at, and the state.  A program that has
    thrown stays where it is: nothing catches the status. *)
Inductive ex_step (p : example) : place * sys → place * sys → Prop :=
  | ex_inside A (a : act A) k r s s' : exec A a s = Next (r, s') → ex_step p (Inside (Do a k), s) (Inside (k r), s')
  | ex_leave r s : ex_step p (Inside (Ret (inr r)), s) (Outside (leave r), s)
  | ex_outside A (a : act A) k r s s' : exec A a s = Next (r, s') → ex_step p (Outside (Do a k), s) (Outside (k r), s')
  | ex_callback x o l s s' :
      may_call s o → ¬ fault p x s o → reaction p s o l → perform_all s (o :: l) = Some s' → ex_step p (x, s) (x, s').

Definition begin : sys := mkSys (mkOz ∅ ∅ ∅ ∅ ∅ ∅ ∅ 0 0) ∅ ∅ ∅.

(** The objects that are left when the program ends. *)
Definition leftover (p : example) (h : gset (kind * nat)) : Prop :=
  match p with
  | exReq _ => ∀ x, x ∈ h → x.1 = kInbox
  | exReq2 _ => ∃ a, h = {[(kInbox, a)]}
  | _ => h = ∅
  end.

Definition ended (p : example) (r : mama_status + ()) (s : sys) : Prop :=
  match r with
  | inl st => st ≠ MAMA_STATUS_OK
  | inr () => s_vars s = ∅ ∧ leftover p (s_held s)
              ∧ ((∀ n c, answer n c = MAMA_STATUS_OK) → o_conns (s_oz s) = ∅ ∧ o_sessions (s_oz s) = ∅)
  end.

(** The names can be read, and the loop does not run past the last [int]. *)
Definition readable_args : Prop :=
  is_Some (getMw getenv argv) ∧ is_Some (getPayload getenv argv) ∧ is_Some (getTport argv).
Definition iterations (p : example) : nat := match p with exPub n | exReq n => n | _ => 0 end.

Definition is_req (p : example) : bool := match p with exReq _ => true | _ => false end.

End Examples.

End Programs.
