(* ===== verification/OzProgramsSpec.v ===== *)
(** * The example programs are safe

    Callbacks that are no fault keep what a program relies on; each statement
    of a program is then an operation that is allowed, up to the destruction
    of the connection, after which nothing calls back.  The witness runs
    sub.cpp to its end, and to a message that comes after the scope of its
    sink. *)

From S2P Require Import Prelude CLib CMonad CDouble OzTopics OzArgs Threads Oz OzSystem OzProofs OzConn OzSpec OzPrograms.
Import CmdLine Topics Oz System OzInv OzConn OzSafe Programs.

Module ProgramsSafe.

Section Examples.

Context (answer : nat → mcall → mama_status) (handle_of : nat → mcall → Z) `{!Mama answer handle_of}.
Context (msg_answer : msgCall → mama_status) (msg : Z).
Context (getenv : list byte → option (list byte)) (argv : list (list byte)).

Local Notation Inv := (Inv handle_of).
Local Notation operation := (operation answer handle_of).
Local Notation with_status := (with_status answer handle_of).
Local Notation status_of := (status_of answer handle_of).
Local Notation perform := (perform answer handle_of).
Local Notation run := (run answer handle_of).
Local Notation perform_all := (perform_all answer handle_of).
Local Notation callback := (callback answer handle_of).
Local Notation ex_step := (ex_step answer handle_of).
Local Notation ended := (ended answer).
Local Notation readable_args := (readable_args getenv argv).
Local Notation msg_call := (msg_call msg_answer).
Local Notation open_connection := (open_connection answer handle_of getenv argv).
Local Notation open_session := (open_session answer handle_of).
Local Notation close_session := (close_session answer handle_of).
Local Notation close_connection := (close_connection answer handle_of).
Local Notation leave := (leave answer handle_of).
Local Notation create_msg := (create_msg msg_answer).
Local Notation pub_loop := (pub_loop answer handle_of msg_answer msg).
Local Notation req_loop := (req_loop answer handle_of msg_answer msg).
Local Notation main_subscriber := (main_subscriber answer handle_of getenv argv).
Local Notation main_timer := (main_timer answer handle_of getenv argv).
Local Notation main_pub := (main_pub answer handle_of msg_answer msg getenv argv).
Local Notation main_req := (main_req answer handle_of msg_answer msg getenv argv).
Local Notation main_req2 := (main_req2 answer handle_of msg_answer msg getenv argv).
Local Notation program := (program answer handle_of msg_answer msg getenv argv).

(** ** What an operation leaves alone *)

(** Operations that keep the connections, the sessions and the replies. *)
Definition ordinary (o : op) : Prop :=
  match o with
  | oNewConnection _ _ _ | oDestroyConnection _ | oNewSession _ | oDestroySession _ | oNewReply _ | oDestroyReply _ => False
  | _ => True
  end.

Lemma stays_call_handle c : stays (call_handle answer handle_of c).
Proof. intros o b o' log [= <- <- <-]. by apply kept_eq. Qed.
Lemma stays_call c : stays (call answer handle_of c).
Proof. intros o b o' log [= <- <- <-]. by apply kept_eq. Qed.

Ltac stays_steps := repeat first [apply stays_call_handle | apply stays_call | stays_step].

Lemma stays_getPublisher w c t : stays (getPublisher w c t).
Proof. unfold getPublisher. stays_steps. Qed.

Lemma stays_release w a : stays (release w a).
Proof. unfold release, publisher_destroy. stays_steps. Qed.

Lemma stays_with_pub a k : (∀ h, stays (k h)) → stays (with_pub answer handle_of a k).
Proof. intros Hk. unfold with_pub, CALL_MAMA_FUNC. repeat first [apply Hk|apply stays_call_handle|stays_step]. Qed.

Lemma stays_transport x : stays (session_transport x).
Proof. unfold session_transport. stays_steps. Qed.
Lemma stays_queue x : stays (session_queue x).
Proof. unfold session_queue. stays_steps. Qed.

Lemma stays_subscriber_start a : stays (subscriber_start answer handle_of a).
Proof.
  unfold subscriber_start, subscriber_switch, subscriber_wildcard, subscriber_basic, CALL_MAMA_FUNC.
  repeat first [apply stays_transport|apply stays_queue|progress stays_steps].
Qed.

Lemma stays_request_send a m : stays (request_send answer handle_of a m).
Proof.
  unfold request_send, CALL_MAMA_FUNC, request_inbox, request_publisher, request_transmit, publisher_sendRequest.
  repeat first [apply stays_transport|apply stays_queue|apply stays_getPublisher|apply stays_with_pub; intros ?|apply stays_call
               |apply stays_call_handle|stays_step].
Qed.

Lemma stays_reply_send a q r f : stays (reply_send answer handle_of a q r f).
Proof.
  unfold reply_send, CALL_MAMA_FUNC, publisher_sendReply. destruct (reply_getReplyTopic f) as [st t].
  repeat first [apply stays_getPublisher|apply stays_release|apply stays_with_pub; intros ?|apply stays_call|stays_step].
Qed.

Lemma run_kept s o a o' log :
  Inv s → allowed s o → ordinary o → run s o (s_oz s) = Some (a, o', log) → kept (s_oz s) o'.
Proof.
  intros HI Ha Ho. destruct o; cbn [run ordinary] in *; try done.
  1: { intros E. apply C_bind_Some in E as (st & o1 & l1 & l2 & E1 & [= <- <- <-] & _).
       pose proof (connection_start_like answer handle_of c (s_oz s) Ha) as Hw. unfold wp in Hw. rewrite E1 in Hw.
       eapply conn_like_kept, Hw. }
  1: { intros E. apply C_bind_Some in E as (st & o1 & l1 & l2 & E1 & [= <- <- <-] & _).
       pose proof (session_start_like answer handle_of (s_oz s) x (proj1 (proj2 HI)) Ha) as Hw. unfold wp in Hw. rewrite E1 in Hw.
       eapply session_like_kept, Hw. }
  all: intros E; refine ((_ : stays _) _ _ _ _ E); clear E.
  all: unfold void, var, closure, publisher_publish, new_subscriber, subscriber_destroy, new_request, request_waitReply,
    request_destroy, new_reply, reply_destroy, new_timer, timer_start, timer_destroy, subscriber_createCB, subscriber_errorCB,
    subscriber_msgCB, subscriber_wcCB, subscriber_destroyCB, request_msgCB, request_errorCB, request_destroyCB, request_delete,
    timer_timerCB, timer_destroyCB, CALL_MAMA_FUNC.
  all: repeat first [apply stays_getPublisher|apply stays_release|apply stays_with_pub; intros ?|apply stays_subscriber_start
    |apply stays_request_send|apply stays_reply_send|apply stays_queue|apply stays_call|apply stays_call_handle|stays_step].
Qed.

(** ** Callbacks keep what the program relies on *)

(** What callbacks leave alone. *)
Record undisturbed (p : example) (s s' : sys) : Prop := {
  f_vars : s_vars s' = s_vars s;
  f_held : s_held s' ⊆ s_held s;
  f_kept : is_req p = false → s_held s' = s_held s;
  f_conns : conns_kept (s_oz s) (s_oz s');
  f_handles k a : held s' k a → handles k (s_oz s') !! a = handles k (s_oz s) !! a;
  f_sessions k a : held s' k a → sessions_of k (s_oz s') !! a = sessions_of k (s_oz s) !! a;
  f_subs a : held s' kSub a → o_subs (s_oz s') !! a = o_subs (s_oz s) !! a;
  f_unstarted k a : held s k a → unstarted s k a → held s' k a }.

Lemma frame_id p s : undisturbed p s s.
Proof. by constructor. Qed.

Lemma frame_comp p s1 s2 s3 : undisturbed p s1 s2 → undisturbed p s2 s3 → undisturbed p s1 s3.
Proof.
  intros [V1 H1 K1 C1 E1 N1 S1 U1] [V2 H2 K2 C2 E2 N2 S2 U2].
  assert (∀ k a, held s3 k a → held s2 k a) as H32 by (unfold held; set_solver). constructor.
  - congruence.
  - set_solver.
  - intros Hp. rewrite K2, K1; done.
  - by eapply conns_kept_trans.
  - intros k a Ha. rewrite (E2 _ _ Ha). auto.
  - intros k a Ha. rewrite (N2 _ _ Ha). auto.
  - intros a Ha. rewrite (S2 _ Ha). auto.
  - intros k a Ha Hu. pose proof (U1 _ _ Ha Hu) as Ha2. apply U2; [done|]. unfold unstarted in *. by rewrite E1.
Qed.

(** An operation that leaves alone the objects that are held. *)
Definition same_objects (s : sys) (o : oz) : Prop :=
  (∀ k a, held s k a → handles k o !! a = handles k (s_oz s) !! a ∧ sessions_of k o !! a = sessions_of k (s_oz s) !! a)
  ∧ ∀ a, held s kSub a → o_subs o !! a = o_subs (s_oz s) !! a.

Lemma same_objects_refl s : same_objects s (s_oz s).
Proof. done. Qed.

Lemma same_objects_eq s o :
  o_subs o = o_subs (s_oz s) → o_reqs o = o_reqs (s_oz s) → o_timers o = o_timers (s_oz s) → same_objects s o.
Proof. intros E1 E2 E3. split; [|by rewrite E1]. intros [] a _; cbn; by rewrite ?E1, ?E2, ?E3. Qed.

(** A run of an operation that is allowed, with a postcondition. *)
Lemma perform_wp s o (Q : nat → oz → list event → Prop) s' log :
  wp (run s o) Q (s_oz s) → perform s o = Some (s', log) →
  ∃ a, Q a (s_oz s') log ∧ run s o (s_oz s) = Some (a, s_oz s', log) ∧ s_vars s' = vars_next o a (s_vars s)
       ∧ s_held s' = held_next o a (s_held s) ∧ s_mama s' = mama_next o (after log (s_mama s)).
Proof.
  unfold wp, System.perform. destruct (run s o (s_oz s)) as [[[a oz'] l]|] eqn:E; [|done]. intros HQ [= <- <-]. by exists a.
Qed.

(** The invariant of the objects; the connection of a reply is there. *)
Definition Good (s : sys) : Prop := Inv s ∧ ∀ a r, o_replies (s_oz s) !! a = Some r → has_conn s (rp_conn r).

Lemma good_kept s s' : Good s → Inv s' → kept (s_oz s) (s_oz s') → Good s'.
Proof. intros [_ HR] HI' [[Hc _] Er]. split; [done|]. intros a r. rewrite Er. intros E%HR. by apply Hc. Qed.

Lemma good_step s o :
  Good s → allowed s o → ordinary o → ∃ s' log, perform s o = Some (s', log) ∧ Good s' ∧ kept (s_oz s) (s_oz s').
Proof.
  intros HG Ha Ho. pose proof HG as [HI _]. destruct (oz_step answer handle_of s o HI Ha) as (s' & log & Hp & HI').
  exists s', log. split; [done|]. assert (kept (s_oz s) (s_oz s')) as Hk; [|split; [by eapply good_kept|done]].
  unfold System.perform in Hp. destruct (run s o (s_oz s)) as [[[a oz'] l]|] eqn:E; [|done]. injection Hp as <- <-. by eapply run_kept.
Qed.

Lemma perform_frame p s o s' log :
  Good s → allowed s o → ordinary o → wp (run s o) (λ _ o' _, same_objects s o') (s_oz s) → perform s o = Some (s', log) →
  (∀ a x v, held_next o a x = x ∧ vars_next o a v = v) → Good s' ∧ undisturbed p s s' ∧ s_held s' = s_held s.
Proof.
  intros HI Ha Ho Hw Hp Hn. destruct (good_step s o HI Ha Ho) as (s1 & log1 & Hp1 & HI' & Hk).
  rewrite Hp in Hp1. injection Hp1 as <- <-. split; [done|].
  destruct (perform_wp s o _ s' log Hw Hp) as (a & [HS HS2] & Er & Hv & Hh & _).
  destruct (Hn a (s_held s) (s_vars s)) as [E1 E2]. rewrite E1 in Hh. rewrite E2 in Hv. split; [|done].
  constructor; [done|by rewrite Hh|done|apply Hk| | | |].
  1, 2: intros k b Hb; apply HS; unfold held in *; by rewrite <-Hh.
  - intros b Hb. apply HS2. unfold held in *. by rewrite <-Hh.
  - intros k b Hb _. unfold held in *. by rewrite Hh.
Qed.

(** A callback does not touch an object that is held. *)
Lemma told_objects s o k h (m : nat → C oz event ()) :
  Inv s → called s k h → run s o = void (a ← closure s k h; m a) →
  (∀ a, handles k (s_oz s) !! a = Some h → wp (m a) (λ _ o' _, same_objects s o') (s_oz s)) →
  wp (run s o) (λ _ o' _, same_objects s o') (s_oz s).
Proof.
  intros HI [[a b] Hc] Hrun Hm. destruct (called_object _ s k h a b HI Hc) as [Ha _]. rewrite Hrun. unfold void, closure.
  do 2 apply wp_bind. apply (wp_part _ a); [by rewrite Hc|]. eapply wp_mono; [|by apply Hm]. intros [] o' log H'. by apply wp_ret.
Qed.

(** The object of a handle that is being destroyed is not held. *)
Lemma destroyed_not_held s k h a : Inv s → s_mama s !! (k, h) = Some (a, true) → ¬ held s k a.
Proof. intros (_ & _ & HO & _) Hc. destruct (oi_called _ _ _ _ _ _ (HO k) _ _ _ Hc) as (_ & _ & Hb). by apply Hb. Qed.

(** Its deletion. *)
Lemma objects_delete s k h a o' :
  Inv s → s_mama s !! (k, h) = Some (a, true) →
  o_subs o' = (if decide (k = kSub) then delete a (o_subs (s_oz s)) else o_subs (s_oz s)) →
  o_reqs o' = (if decide (k = kInbox) then delete a (o_reqs (s_oz s)) else o_reqs (s_oz s)) →
  o_timers o' = (if decide (k = kTimer) then delete a (o_timers (s_oz s)) else o_timers (s_oz s)) → same_objects s o'.
Proof.
  intros HI Hc E1 E2 E3. assert (∀ b, held s k b → b ≠ a) as Hne by (intros b Hb ->; by eapply destroyed_not_held).
  destruct k; repeat (rewrite decide_True in * by done || rewrite decide_False in * by done).
  all: split; [intros k' b Hb; destruct k'; cbn; rewrite !lookup_fmap|intros b Hb]; rewrite ?E1, ?E2, ?E3; try (by split).
  all: by rewrite lookup_delete_ne by by apply not_eq_sym, Hne.
Qed.

Ltac told_wp := intros a Ha;
  first [apply sub_of in Ha as (x & Ex & _); apply wp_bind, (wp_sub _ _ _ _ Ex); destruct (s_sink x)
        |apply req_of in Ha as (x & Ex & _); apply wp_bind, (wp_req _ _ _ _ Ex); destruct (r_sink x)
        |apply timer_of in Ha as (x & Ex & _); apply wp_bind, (wp_timer _ _ _ _ Ex); destruct (t_sink x)];
  [apply wp_emit|apply wp_ret]; apply same_objects_refl.

Lemma callback_objects s o :
  Inv s → is_Some (op_handle o) → allowed s o → wp (run s o) (λ _ o' _, same_objects s o') (s_oz s).
Proof.
  intros HI Hm Hal. destruct o; try by destruct Hm. all: cbn in Hal.
  - apply (told_objects s _ kSub h subscriber_createCB); [done..|]. told_wp.
  - apply (told_objects s _ kSub h (λ a, subscriber_errorCB a status)); [done..|]. told_wp.
  - apply (told_objects s _ kSub h (λ a, subscriber_msgCB a msg0)); [done..|]. told_wp.
  - apply (told_objects s _ kSub h (λ a, subscriber_wcCB a topic msg0)); [done..|]. told_wp.
  - destruct Hal as [a Hc]. destruct (called_object _ _ _ _ _ _ HI Hc) as [Ha _]. apply sub_of in Ha as (x & Ex & _).
    cbn [System.run]. unfold void, closure, subscriber_destroyCB. do 2 apply wp_bind. apply (wp_part _ a); [by rewrite Hc|].
    apply wp_bind, (wp_sub _ _ _ _ Ex). apply wp_bind, oz_call_wp. oz_steps. by apply (objects_delete s kSub h a).
  - destruct Hal as [[a b] Hc]. destruct (called_object _ _ _ _ _ _ HI Hc) as [Ha H0]. apply req_of in Ha as (r & Er & <-).
    cbn [System.run]. unfold void, closure, request_msgCB. do 2 apply wp_bind. apply (wp_part _ a); [by rewrite Hc|].
    apply wp_bind, (wp_req _ _ _ _ Er). destruct (r_sink r); [|apply wp_ret, wp_ret, same_objects_refl].
    destruct HI as (_ & _ & _ & HR). destruct (HR a r Er H0) as ([n En] & _). apply wp_bind, (wp_part _ _ _ _ En). oz_steps.
    split; [|done]. intros k c _. destruct k; cbn; [done| |done]. rewrite !fmap_insert.
    by rewrite !insert_id by by rewrite lookup_fmap, Er.
  - apply (told_objects s _ kInbox h (λ a, request_errorCB a status)); [done..|]. told_wp.
  - destruct Hal as [a Hc]. cbn [System.run]. unfold void, closure, request_destroyCB. do 2 apply wp_bind.
    apply (wp_part _ a); [by rewrite Hc|]. eapply wp_mono; [|by eapply request_delete_wp].
    intros [] o' log (_ & Er & (F1 & F2 & F3 & F4 & F5 & F6) & _). apply wp_ret. by apply (objects_delete s kInbox h a).
  - apply (told_objects s _ kTimer h timer_timerCB); [done..|]. told_wp.
  - destruct Hal as [a Hc]. destruct (called_object _ _ _ _ _ _ HI Hc) as [Ha _]. apply timer_of in Ha as (x & Ex & _).
    cbn [System.run]. unfold void, closure, timer_destroyCB. do 2 apply wp_bind. apply (wp_part _ a); [by rewrite Hc|].
    apply wp_bind, (wp_timer _ _ _ _ Ex). oz_steps. by apply (objects_delete s kTimer h a).
Qed.

Lemma op_frame p s o s' log :
  Good s → is_Some (op_handle o) → allowed s o → perform s o = Some (s', log) →
  Good s' ∧ undisturbed p s s' ∧ s_held s' = s_held s.
Proof.
  intros HI Hm Ha Hp. eapply perform_frame; [done|exact Ha| |by apply callback_objects; [apply HI|..]|done|].
  - by destruct o; destruct Hm.
  - by intros; destruct o; destruct Hm.
Qed.

(** ** The operations of the sinks *)

Lemma reply_frame p s a q r f s' log :
  Good s → allowed s (oReply a q r f) → perform s (oReply a q r f) = Some (s', log) → Good s' ∧ undisturbed p s s'.
Proof.
  intros HI Ha Hp. edestruct (perform_frame p s (oReply a q r f)) as (HG & F & _); [done|done|done| |done|done|done].
  destruct Ha as (y & Ey & Hc). cbn [System.run]. unfold void. apply wp_bind.
  eapply wp_mono; [|eapply (reply_send_wp _ _ (own s)); [by apply HI|done|exact Ey|exact Hc]].
  intros st o' l (_ & (_ & F2 & F3 & F4 & _) & _). apply wp_ret. by apply same_objects_eq.
Qed.

Lemma new_reply_frame p s c s' log :
  Good s → has_conn s c → perform s (oNewReply c) = Some (s', log) →
  Good s' ∧ undisturbed p s s' ∧ o_replies (s_oz s') !! o_next (s_oz s) = Some (mkReply c) ∧ has_conn s' c.
Proof.
  intros [HI HR] Hc Hp. destruct (oz_step answer handle_of s (oNewReply c) HI Hc) as (s1 & log1 & Hp1 & HI').
  rewrite Hp in Hp1. injection Hp1 as <- <-. injection Hp as <- <-. split_and!.
  - split; [done|]. intros a r. cbn. intros [[_ <-]|[_ E]]%lookup_insert_Some; [exact Hc|by eapply HR].
  - by constructor; try (intros k; by destruct k).
  - apply lookup_insert_eq.
  - exact Hc.
Qed.

(** A message is only told. *)
Lemma msg_told s o h :
  Inv s → allowed s o → (∃ m, o = oSubMsg h m) ∨ (∃ t m, o = oSubWcMsg h t m) →
  ∀ s' log, perform s o = Some (s', log) → s_oz s' = s_oz s ∧ s_mama s' = s_mama s.
Proof.
  intros HI Ha Ho s' log Hp.
  assert (wp (run s o) (λ _ o' l, o' = s_oz s ∧ quiet l) (s_oz s) ∧ ∀ m, mama_next o m = m) as [Hw Hm].
  { assert (called s kSub h) as [[a b] Hc] by (destruct Ho as [[m ->]|(t & m & ->)]; exact Ha).
    destruct (called_object _ _ _ _ _ _ HI Hc) as [Hh _]. apply sub_of in Hh as (x & Ex & _).
    destruct Ho as [[m ->]|(t & m & ->)]; (split; [|done]); cbn [System.run]; unfold void, closure; do 2 apply wp_bind;
      (apply (wp_part _ a); [by rewrite Hc|]); apply wp_bind, (wp_sub _ _ _ _ Ex); destruct (s_sink x);
      (apply wp_emit || apply wp_ret); by apply wp_ret. }
  destruct (perform_wp _ _ _ _ _ Hw Hp) as (a & [Eo Hq] & _ & _ & _ & Em). by rewrite Em, Hm, Hq.
Qed.

Lemma perform_cons s o l s1 log : perform s o = Some (s1, log) → perform_all s (o :: l) = perform_all s1 l.
Proof. intros E. cbn [Programs.perform_all]. by rewrite E, bind_some. Qed.

Lemma perform_all_app s l1 l2 s1 : perform_all s l1 = Some s1 → perform_all s (l1 ++ l2) = perform_all s1 l2.
Proof.
  revert s. induction l1 as [|o l1 IH]; intros s; cbn; [by intros [= ->]|].
  destruct (perform s o) as [[s2 log]|]; [|done]. rewrite !bind_some. apply IH.
Qed.

(** The sink of rep.cpp gets its reply object. *)
Lemma reply_sink p s h a l :
  Good s → static_reply s h a l → (∀ x c, s_mama s !! (kSub, h) = Some x → conn_of s kSub x.1 = Some c → has_conn s c) →
  ∃ s', perform_all s l = Some s' ∧ Good s' ∧ undisturbed p s s' ∧ ∃ r, o_replies (s_oz s') !! a = Some r ∧ has_conn s' (rp_conn r).
Proof.
  intros HG [[[r Er] ->]|(_ & -> & x & c & Ex & Ec & ->)] Hc.
  - exists s. split; [done|]. split; [done|]. split; [apply frame_id|]. exists r. split; [done|]. by eapply HG.
  - specialize (Hc x c Ex Ec). destruct (oz_step answer handle_of s (oNewReply c) (proj1 HG) Hc) as (s' & log & E & _).
    destruct (new_reply_frame p s c s' log HG Hc E) as (HG' & F & Er & Hc'). exists s'.
    split; [by rewrite (perform_cons _ _ _ _ _ E)|]. split; [done|]. split; [done|]. by exists (mkReply c).
Qed.

Lemma rep_sink s h l a l1 l2 :
  Good s → (∀ x c, s_mama s !! (kSub, h) = Some x → conn_of s kSub x.1 = Some c → has_conn s c) →
  static_reply s h a l1 → l = l1 ++ l2 → (l2 = [] ∨ ∃ temp fromInbox, l2 = [oReply a temp temp fromInbox]) →
  ∃ s', perform_all s l = Some s' ∧ Good s' ∧ undisturbed exRep s s'.
Proof.
  intros HG Hc H1 -> H2. destruct (reply_sink exRep s h a l1 HG H1 Hc) as (s1 & E1 & HG1 & F1 & Hr).
  rewrite (perform_all_app _ _ _ _ E1). destruct H2 as [->|(temp & f & ->)]; [by exists s1|].
  destruct (good_step s1 (oReply a temp temp f) HG1 Hr I) as (s2 & log & E2 & _).
  destruct (reply_frame exRep s1 a temp temp f s2 log HG1 Hr E2) as [HG2 F2]. exists s2.
  split; [by rewrite (perform_cons _ _ _ _ _ E2)|]. split; [done|by eapply frame_comp].
Qed.

(** The sink of req.cpp destroys the request. *)
Lemma destroy_frame n s b h s' log :
  Good s → held s kInbox b → s_mama s !! (kInbox, h.1) = Some (b, h.2) →
  perform s (oDestroyRequest b) = Some (s', log) → Good s' ∧ undisturbed (exReq n) s s'.
Proof.
  intros HG Hb Hc Hp. destruct (good_step s (oDestroyRequest b) HG Hb I) as (s1 & log1 & Hp1 & HG' & Hk).
  rewrite Hp in Hp1. injection Hp1 as <- <-. split; [done|].
  destruct (called_object _ _ _ _ _ _ (proj1 HG) Hc) as [Hh H0]. pose proof Hh as Hh'. apply req_of in Hh' as (r & Er & Ei).
  assert (wp (run s (oDestroyRequest b)) (λ _ o' _, o_subs o' = o_subs (s_oz s) ∧ o_reqs o' = o_reqs (s_oz s)
    ∧ o_timers o' = o_timers (s_oz s)) (s_oz s)) as Hw.
  { cbn [System.run]. unfold void, request_destroy, CALL_MAMA_FUNC. do 2 apply wp_bind. apply (wp_req _ _ _ _ Er).
    case_decide; [|by apply wp_ret, wp_ret]. apply wp_bind, oz_call_wp. by case_decide; apply wp_ret, wp_ret. }
  destruct (perform_wp _ _ _ _ _ Hw Hp) as (a & (E1 & E2 & E3) & _ & Hv & Hd & _). cbn in Hv, Hd.
  constructor; [done|rewrite Hd; set_solver|done|apply Hk| | | |].
  - intros [] c _; cbn; by rewrite ?E1, ?E2, ?E3.
  - intros [] c _; cbn; by rewrite ?E1, ?E2, ?E3.
  - intros c _. by rewrite E1.
  - intros k c Hc' Hu. unfold held in *. rewrite Hd. apply elem_of_difference. split; [done|]. rewrite elem_of_singleton. intros [= -> ->].
    unfold unstarted in Hu. congruence.
Qed.

Lemma inbox_quiet s h m : Inv s → called s kInbox h → wp (run s (oInboxMsg h m)) (λ _ _ log, quiet log) (s_oz s).
Proof.
  intros HI [[a b] Hc]. destruct (called_object _ _ _ _ _ _ HI Hc) as [Ha H0]. apply req_of in Ha as (r & Er & <-).
  cbn [System.run]. unfold void, closure, request_msgCB. do 2 apply wp_bind. apply (wp_part _ a); [by rewrite Hc|].
  apply wp_bind, (wp_req _ _ _ _ Er). destruct (r_sink r); [|by apply wp_ret, wp_ret].
  destruct HI as (_ & _ & _ & HR). destruct (HR a r Er H0) as ([n En] & _). apply wp_bind, (wp_part _ _ _ _ En). by oz_steps.
Qed.

(** A callback with what the sink does in it. *)
Lemma callback_ok p s o l :
  Good s → may_call s o → ¬ replied p s o → reaction p s o l →
  ∃ s', perform_all s (o :: l) = Some s' ∧ Good s' ∧ undisturbed p s s'.
Proof.
  intros HG (Ha & kh & z & c & Hk & Hz & Hcz & Hc) Hrx Hre. assert (is_Some (op_handle o)) as Hop by by rewrite Hk.
  destruct (oz_step answer handle_of s o (proj1 HG) Ha) as (s1 & log & E & _).
  destruct (op_frame p s o s1 log HG Hop Ha E) as (HG1 & F1 & Eh). rewrite (perform_cons _ _ _ _ _ E).
  assert (l = [] → ∃ s', perform_all s1 l = Some s' ∧ Good s' ∧ undisturbed p s s') as Hnil by (intros ->; by exists s1).
  assert (∀ h, (∃ m, o = oSubMsg h m) ∨ (∃ t m, o = oSubWcMsg h t m) → ∀ a l1 l2, static_reply s h a l1 → l = l1 ++ l2 →
    (l2 = [] ∨ ∃ temp f, l2 = [oReply a temp temp f]) → ∃ s', perform_all s1 l = Some s' ∧ Good s' ∧ undisturbed exRep s1 s') as Hrep.
  { intros h Ho a l1 l2 H1 El H2. destruct (msg_told s o h (proj1 HG) Ha Ho s1 log E) as [Eo Em].
    apply (rep_sink s1 h l a l1 l2); [done| | |done|done].
    - intros x d Ex Ed. assert (kh = (kSub, h)) as -> by (destruct Ho as [[m ->]|(t & m & ->)]; by injection Hk).
      rewrite Em, Hz in Ex. injection Ex as <-. unfold conn_of, has_conn in *. rewrite Eo in *. cbn [fst] in Hcz. congruence.
    - unfold static_reply, conn_of in *. by rewrite Eo, Em. }
  destruct p, o; cbn [reaction] in Hre; try by apply Hnil.
  - destruct Hre as (a & l1 & l2 & H1 & El & H2). destruct (Hrep h ltac:(eauto) a l1 l2 H1 El H2) as (s' & E' & HG' & F').
    exists s'. split; [done|]. split; [done|by eapply frame_comp].
  - destruct Hre as (a & l1 & l2 & H1 & El & H2). destruct (Hrep h ltac:(eauto) a l1 l2 H1 El H2) as (s' & E' & HG' & F').
    exists s'. split; [done|]. split; [done|by eapply frame_comp].
  - destruct Hre as (x & Hx & ->).
    assert (held s1 kInbox x.1) as Hb1.
    { unfold held. rewrite Eh. apply dec_stable. intros Hn. apply Hrx. by exists x. }
    destruct (good_step s1 (oDestroyRequest x.1) HG1 Hb1 I) as (s2 & log2 & E2 & _).
    assert (s_mama s1 !! (kInbox, h) = Some x) as Hx1.
    { destruct (perform_wp _ _ _ _ _ (inbox_quiet s h msg0 (proj1 HG) ltac:(by eexists)) E) as (? & Hq & _ & _ & _ & ->). by rewrite Hq. }
    destruct (destroy_frame n s1 x.1 (h, x.2) s2 log2 HG1) as [HG2 F2]; [done|cbn [fst snd]; rewrite Hx1; by destruct x|done|].
    exists s2. split; [by rewrite (perform_cons _ _ _ _ _ E2)|]. split; [done|by eapply frame_comp].
Qed.

Lemma callback_frame p s s' : Good s → callback p s s' → Good s' ∧ undisturbed p s s'.
Proof.
  intros HG [o l Hm Hr Hre Hp]. destruct (callback_ok p s o l HG Hm Hr Hre) as (s1 & E & H). rewrite Hp in E. by injection E as <-.
Qed.

(** ** Reasoning about a program

    While a session has its connection, the invariant holds and callbacks may
    come; else the program is alone. *)

Definition alone (s : sys) : Prop := ∀ x y, o_sessions (s_oz s) !! x = Some y → ¬ has_conn s (se_conn y).

Definition G (s : sys) : Prop := Good s ∨ alone s.

Local Notation rgp p := (rg exec (rtc (callback p)) (λ _ _, True) G (λ _, False)).

Lemma rely_open p s s' : Good s → rtc (callback p) s s' → Good s' ∧ undisturbed p s s'.
Proof.
  intros HI Hr. revert HI. induction Hr as [s|s s1 s' H1 Hr IH]; intros HI; [split; [done|apply frame_id]|].
  destruct (callback_frame p s s1 HI H1) as [HI1 F1]. destruct (IH HI1) as [HI' F']. split; [done|by eapply frame_comp].
Qed.

Lemma alone_silent s o : alone s → ¬ may_call s o.
Proof.
  intros Ha (_ & kh & z & c & _ & _ & Hc & Hs). unfold conn_of in Hc.
  apply bind_Some in Hc as (x & _ & Hc). apply bind_Some in Hc as (y & Ey & [= <-]). by eapply Ha.
Qed.

Lemma rely_alone p s s' : alone s → rtc (callback p) s s' → s' = s.
Proof. intros Ha Hr. induction Hr as [|s s1 s' [o l Hc _ _ _] _ _]; [done|]. by destruct (alone_silent s o Ha). Qed.

Section Rules.

Context (p : example) {B : Type} (Q : mama_status + B → sys → Prop).
Context (Hthrow : ∀ st s, st ≠ MAMA_STATUS_OK → Q (inl st) s).

Lemma rg_do {A} (a : act A) (k : A → prog act (mama_status + B)) s :
  (∀ s1, rtc (callback p) s s1 → G s1 → ∃ r s2, a s1 = Some (r, s2) ∧ G s2 ∧ rgp p (k r) Q s2) → rgp p (Do a k) Q s.
Proof. intros H s1 Hr HG. destruct (H s1 Hr HG) as (r & s2 & E & HG2 & Hk). unfold exec. rewrite E. done. Qed.

(** A statement while callbacks may come, and one while they do not. *)
Lemma rg_stm_open {A} (a : act A) (f : A → E B) s :
  Good s →
  (∀ s1, Good s1 → undisturbed p s s1 → ∃ r s2, a s1 = Some (r, s2) ∧ Good s2 ∧ rgp p (f r) Q s2) →
  rgp p (stm a ≫= f) Q s.
Proof.
  intros HI H. apply (rg_do a f). intros s1 Hr _. destruct (rely_open _ _ _ HI Hr) as [HI1 F1].
  destruct (H s1 HI1 F1) as (r & s2 & E & HG2 & Hk). exists r, s2. split; [done|]. split; [by left|done].
Qed.

Lemma rg_throw st s : st ≠ MAMA_STATUS_OK → rgp p (Ret (inl st) : E B) Q s.
Proof. intros Hst. apply rg_ret. intros. by apply Hthrow. Qed.

Lemma rg_try_open {x : act mama_status} (f : () → E B) s :
  Good s →
  (∀ s1, Good s1 → undisturbed p s s1 → ∃ st s2, x s1 = Some (st, s2) ∧ Good s2 ∧ (st = MAMA_STATUS_OK → rgp p (f ()) Q s2)) →
  rgp p (TRY_MAMA_FUNC x ≫= f) Q s.
Proof.
  intros HI H. apply rg_do. intros s1 Hr _. destruct (rely_open _ _ _ HI Hr) as [HI1 F1].
  destruct (H s1 HI1 F1) as (st & s2 & E & HG2 & Hk). exists st, s2. split; [done|]. split; [by left|].
  destruct (decide (st = MAMA_STATUS_OK)) as [->|Hst].
  - rewrite decide_False by by intros []. by apply Hk.
  - rewrite decide_True by done. by apply rg_throw.
Qed.

(** The end of a part. *)
Lemma rg_ret_open (b : B) s : Good s → (∀ s1, Good s1 → undisturbed p s s1 → Q (inr b) s1) → rgp p (mret b : E B) Q s.
Proof. intros HI H. apply rg_ret. intros s1 Hr _. destruct (rely_open _ _ _ HI Hr). by apply H. Qed.

(** A part that ends with a status. *)
Lemma rg_try_last (x : act mama_status) (Q' : mama_status + () → sys → Prop) s :
  (∀ st s, st ≠ MAMA_STATUS_OK → Q' (inl st) s) → Good s →
  (∀ s1, Good s1 → undisturbed p s s1 →
     ∃ st s2, x s1 = Some (st, s2) ∧ Good s2 ∧ (st = MAMA_STATUS_OK → ∀ s3, Good s3 → undisturbed p s2 s3 → Q' (inr ()) s3)) →
  rgp p (TRY_MAMA_FUNC x) Q' s.
Proof.
  intros Ht HI H s1 Hr HG. destruct (rely_open _ _ _ HI Hr) as [HI1 F1]. destruct (H s1 HI1 F1) as (st & s2 & E & HG2 & Hk).
  unfold exec. rewrite E. split; [done|]. split; [by left|].
  destruct (decide (st = MAMA_STATUS_OK)) as [->|Hst].
  - rewrite decide_False by by intros []. apply rg_ret. intros s3 Hr3 _. destruct (rely_open _ _ _ HG2 Hr3). by apply Hk.
  - rewrite decide_True by done. apply rg_ret. intros. by apply Ht.
Qed.

(** One part of a program, then the rest. *)
Lemma rg_then {A} (m : E A) (f : A → E B) s :
  rgp p m (λ r s', match r with inl st => st ≠ MAMA_STATUS_OK | inr a => rgp p (f a) Q s' end) s → rgp p (m ≫= f) Q s.
Proof.
  intros H. change (m ≫= f) with (pbind (λ r, match r with inl st => Ret (inl st) | inr a => f a end) m).
  apply rg_bind; [apply _|]. eapply rg_mono; [|exact H]. intros [st|a] s' _ Hs; [by apply rg_throw|done].
Qed.

End Rules.

(** What the functions with a status do, in the open. *)
Definition has_status (o : op) : Prop :=
  match o with
  | oStartConnection _ | oDestroyConnection _ | oStartSession _ | oDestroySession _
  | oPublish _ _ | oStartSubscriber _ | oDestroySubscriber _ | oSend _ _ | oWaitReply _ _ _ | oDestroyRequest _ | oStartTimer _ | oDestroyTimer _ => True
  | _ => False
  end.

Lemma status_perform s o s' log :
  has_status o → perform s o = Some (s', log) → ∃ st, with_status o s = Some (st, s').
Proof.
  intros Ho. unfold System.perform, Programs.with_status. assert (run s o = void (status_of s o)) as -> by by destruct o.
  unfold void, mbind, C_bind, mret, C_ret. destruct (status_of s o (s_oz s)) as [[[st oz'] l]|]; [|done].
  rewrite app_nil_r. intros [= <- <-]. by eexists.
Qed.

Lemma status_step s o :
  has_status o → ordinary o → Good s → allowed s o →
  ∃ st s', with_status o s = Some (st, s') ∧ Good s' ∧ conns_kept (s_oz s) (s_oz s')
    ∧ s_held s' = held_next o 0 (s_held s) ∧ s_vars s' = vars_next o 0 (s_vars s).
Proof.
  intros Hs Ho HG Ha. destruct (good_step s o HG Ha Ho) as (s' & log & Hp & HG' & Hk & _).
  destruct (status_perform s o s' log Hs Hp) as [st Est]. exists st, s'. split; [done|]. split; [done|]. split; [done|].
  unfold Programs.with_status in Est. destruct (status_of s o (s_oz s)) as [[[st' oz'] l]|]; [|done]. by injection Est as <- <-.
Qed.

Lemma with_status_wp o (Q : mama_status → oz → list event → Prop) s :
  wp (status_of s o) Q (s_oz s) →
  ∃ st s' log, with_status o s = Some (st, s') ∧ Q st (s_oz s') log ∧ s_mama s' = mama_next o (after log (s_mama s))
    ∧ s_held s' = held_next o 0 (s_held s) ∧ s_vars s' = vars_next o 0 (s_vars s).
Proof.
  unfold wp, Programs.with_status. destruct (status_of s o (s_oz s)) as [[[st oz'] log]|]; [|done]. intros HQ. by eexists st, _, log.
Qed.

Lemma operation_step s o :
  Inv s → allowed s o →
  ∃ a s' log, operation o s = Some (a, s') ∧ Inv s' ∧ run s o (s_oz s) = Some (a, s_oz s', log)
    ∧ s_held s' = held_next o a (s_held s) ∧ s_vars s' = vars_next o a (s_vars s).
Proof.
  intros HI Ha. destruct (oz_step answer handle_of s o HI Ha) as (s' & log & Hp & HI').
  unfold System.perform in Hp. unfold Programs.operation. destruct (run s o (s_oz s)) as [[[a oz'] l]|] eqn:E; [|done].
  injection Hp as <- <-. by eexists a, _, l.
Qed.

(** ** The connection and the session of a program *)

(** The program has the connection [c] and, when it is there, the session. *)
Definition opened (c : nat) (x : option nat) (s : sys) : Prop :=
  (∀ d, has_conn s d ↔ d = c)
  ∧ se_conn <$> o_sessions (s_oz s) = match x with Some x => {[x := c]} | None => ∅ end.

Lemma opened_kept c x s s' : conns_kept (s_oz s) (s_oz s') → opened c x s → opened c x s'.
Proof. intros [Hc Hs] [H1 H2]. split; [|by rewrite Hs]. intros d. unfold has_conn in *. by rewrite Hc. Qed.

Lemma opened_conn c x s : opened c x s → has_conn s c.
Proof. intros [H _]. by apply H. Qed.

Lemma opened_session c x s : opened c (Some x) s → has_session s x.
Proof.
  intros [_ H]. apply (f_equal (lookup x)) in H. rewrite lookup_fmap, lookup_singleton_eq in H. unfold has_session.
  by destruct (o_sessions (s_oz s) !! x).
Qed.

Lemma opened_none c s : opened c None s → o_sessions (s_oz s) = ∅.
Proof. intros [_ H]. by apply fmap_empty_inv in H. Qed.

(** Everything is there, and the program has made nothing yet. *)
Definition fresh (c : nat) (x : option nat) (s : sys) : Prop := Good s ∧ opened c x s ∧ s_held s = ∅ ∧ s_vars s = ∅.

Lemma fresh_frame p c x s s' : fresh c x s → Good s' → undisturbed p s s' → fresh c x s'.
Proof.
  intros (_ & Ho & Hh & Hv) HG F. split; [done|]. split; [by eapply opened_kept; [apply F|]|].
  split; [|by rewrite (f_vars _ _ _ F)]. pose proof (f_held _ _ _ F). set_solver.
Qed.

Section Parts.

Context (p : example).

(** The result of a part: a status that is not OK, or what holds next. *)
Definition part {A} (K : A → sys → Prop) (r : mama_status + A) (s : sys) : Prop :=
  match r with inl st => st ≠ MAMA_STATUS_OK | inr a => K a s end.

Lemma part_throw {A} (K : A → sys → Prop) st s : st ≠ MAMA_STATUS_OK → part K (inl st) s.
Proof. done. Qed.

(** Before there is a connection. *)
Definition blank (s : sys) : Prop :=
  Good s ∧ o_conns (s_oz s) = ∅ ∧ o_sessions (s_oz s) = ∅ ∧ s_held s = ∅ ∧ s_vars s = ∅.

Lemma blank_begin : blank begin.
Proof. split; [|done]. split; [apply (oz_initial answer handle_of); by exists 0, 0|]. intros a r. cbn. by rewrite lookup_empty. Qed.

Lemma blank_frame s s' : blank s → Good s' → undisturbed p s s' → blank s'.
Proof.
  intros (_ & Ec & Es & Hh & Hv) HG F. pose proof (f_conns _ _ _ F) as [Hc Hs]. split; [done|]. split_and!.
  - apply map_eq. intros d. rewrite lookup_empty. apply eq_None_not_Some. rewrite Hc, Ec, lookup_empty. by intros [].
  - rewrite Es, fmap_empty in Hs. by apply fmap_empty_inv in Hs.
  - pose proof (f_held _ _ _ F). set_solver.
  - by rewrite (f_vars _ _ _ F).
Qed.

Lemma open_connection_ok tport s :
  readable_args → is_Some tport → blank s → rgp p (open_connection tport) (part (λ c, fresh c None)) s.
Proof.
  intros ([mw Emw] & [pl Epl] & _) [name ->] Hs. unfold Programs.open_connection.
  assert (∀ {B} (Q : mama_status + B → sys → Prop) {A} (x : option A) y (f : A → E B) s,
    x = Some y → blank s → (∀ s, blank s → rgp p (f y) Q s) → rgp p (stm (value x) ≫= f) Q s) as Hval.
  { intros B Q A x y f s0 -> H0 Hf. apply rg_stm_open; [apply H0|]. intros s1 HG1 F1. pose proof (blank_frame _ _ H0 HG1 F1).
    exists y, s1. split_and!; [done|done|by apply Hf]. }
  eapply Hval; [exact Emw|done|]. clear dependent s. intros s Hs. eapply Hval; [exact Epl|done|].
  clear dependent s. intros s Hs. eapply Hval; [done|done|]. clear dependent s. intros s Hs.
  apply rg_stm_open; [apply Hs|]. intros s1 HG1 F1. pose proof (blank_frame _ _ Hs HG1 F1) as (_ & Ec & Es & Hh & Hv).
  destruct (operation_step s1 (oNewConnection mw pl name) (proj1 HG1) I) as (c & s2 & log & E2 & HI2 & Er & Hh2 & Hv2).
  exists c, s2. split; [done|]. injection Er as <- Eo <-. cbn in Hh2, Hv2. symmetry in Eo.
  assert (fresh (o_next (s_oz s1)) None s2) as Hf2.
  { split; [split; [done|]|split; [split|]].
    - intros a r. unfold has_conn. rewrite Eo. cbn. intros [x Ex]%HG1. by rewrite Ec in Ex.
    - intros d. unfold has_conn. rewrite Eo. cbn. rewrite Ec. split; [|intros ->; by rewrite lookup_insert_eq].
      intros [x [[-> _]|[_ Ex]]%lookup_insert_Some]; [done|by rewrite lookup_empty in Ex].
    - rewrite Eo. cbn. by rewrite Es.
    - by rewrite Hh2, Hv2. }
  split; [apply Hf2|]. apply rg_try_open; [done|apply Hf2|]. intros s3 HG3 F3. pose proof (fresh_frame _ _ _ _ _ Hf2 HG3 F3) as (_ & Ho3 & Hh3 & Hv3).
  destruct (status_step s3 (oStartConnection (o_next (s_oz s1))) I I HG3 (opened_conn _ _ _ Ho3)) as (st & s4 & E4 & HG4 & Hk4 & Hh4 & Hv4).
  exists st, s4. split; [done|]. split; [done|]. intros _. apply rg_ret_open; [done|]. intros s5 HG5 F5. cbn.
  eapply fresh_frame; [|done|exact F5]. split; [done|]. split; [by eapply opened_kept|]. by rewrite Hh4, Hv4.
Qed.

Lemma open_session_ok c s : fresh c None s → rgp p (open_session c) (part (λ x, fresh c (Some x))) s.
Proof.
  intros Hs. unfold Programs.open_session. apply rg_stm_open; [apply Hs|]. intros s1 HG1 F1.
  pose proof (fresh_frame _ _ _ _ _ Hs HG1 F1) as (_ & Ho1 & Hh & Hv).
  destruct (operation_step s1 (oNewSession c) (proj1 HG1) (opened_conn _ _ _ Ho1)) as (x & s2 & log & E2 & HI2 & Er & Hh2 & Hv2).
  exists x, s2. split; [done|]. injection Er as <- Eo <-. cbn in Hh2, Hv2. symmetry in Eo.
  assert (fresh c (Some (o_next (s_oz s1))) s2) as Hf2.
  { split; [split; [done|]|split; [split|]].
    - intros a r. unfold has_conn. rewrite Eo. cbn. apply HG1.
    - intros d. unfold has_conn. rewrite Eo. cbn. apply Ho1.
    - rewrite Eo. cbn. rewrite (opened_none _ _ Ho1), insert_empty. apply map_fmap_singleton.
    - by rewrite Hh2, Hv2. }
  split; [apply Hf2|]. apply rg_try_open; [done|apply Hf2|]. intros s3 HG3 F3. pose proof (fresh_frame _ _ _ _ _ Hf2 HG3 F3) as (_ & Ho3 & Hh3 & Hv3).
  destruct (status_step s3 (oStartSession (o_next (s_oz s1))) I I HG3 (opened_session _ _ _ Ho3)) as (st & s4 & E4 & HG4 & Hk4 & Hh4 & Hv4).
  exists st, s4. split; [done|]. split; [done|]. intros _. apply rg_ret_open; [done|]. intros s5 HG5 F5. cbn.
  eapply fresh_frame; [|done|exact F5]. split; [done|]. split; [by eapply opened_kept|]. by rewrite Hh4, Hv4.
Qed.

(** ** The end *)

Definition all_ok : Prop := ∀ n c, answer n c = MAMA_STATUS_OK.

Lemma leftover_frame s s' : undisturbed p s s' → leftover p (s_held s) → leftover p (s_held s').
Proof.
  intros F. destruct (is_req p) eqn:E; [|by rewrite (f_kept _ _ _ F E)]. destruct p; try done. cbn. intros H x Hx. apply H, (f_held _ _ _ F), Hx.
Qed.

(** What the deleters find. *)
Definition closing (c : nat) (x : option nat) (s : sys) : Prop :=
  Good s ∧ opened c x s ∧ leftover p (s_held s) ∧ s_vars s = ∅.

Lemma closing_frame c x s s' : closing c x s → rtc (callback p) s s' → closing c x s'.
Proof.
  intros (HG & Ho & Hl & Hv) Hr. destruct (rely_open _ _ _ HG Hr) as [HG' F]. split; [done|].
  split; [by eapply opened_kept; [apply F|]|]. split; [by eapply leftover_frame|]. by rewrite (f_vars _ _ _ F).
Qed.

(** Calls that are only counted. *)
Lemma good_ticks s log n :
  Good s → quiet log → o_calls (s_oz s) ≤ n →
  Good (mkSys (set_calls n (s_oz s)) (after log (s_mama s)) (s_held s) (s_vars s)).
Proof.
  intros HG Hq Hn. apply (good_kept s); [done| |by split]. apply inv_conns; [apply HG|]. split; [done|].
  split; [by split_and!|]. eapply (ConnInv_kept (s_oz s)); [by apply conns_kept_eq|done|apply HG].
Qed.

Lemma close_connection_ok c x s :
  closing c x s → (all_ok → x = None) → rgp p (close_connection c) (ended p) s.
Proof.
  intros Hcl Hok. unfold Programs.close_connection. apply rg_do. intros s1 Hr _.
  apply (closing_frame _ _ _ _ Hcl) in Hr as (HG & Ho & Hl & Hv). clear Hcl s.
  destruct (with_status_wp (oDestroyConnection c) _ s1 (connection_destroy_wp answer handle_of _ c (opened_conn _ _ _ Ho)))
    as (st & s2 & log & E & (Hq & n & Hn & Eo & Hst) & Em & Hh2 & Hv2). cbn in Em, Hh2, Hv2.
  exists st, s2. split; [done|]. destruct (decide (st = MAMA_STATUS_OK)) as [->|Hne].
  - assert (∀ d, o_conns (s_oz s2) !! d = None) as Hnone.
    { intros d. rewrite Eo. cbn. destruct (delete c (o_conns (s_oz s1)) !! d) as [cn|] eqn:Ed; [|done].
      apply lookup_delete_Some in Ed as [Hd Ed]. exfalso. apply Hd. symmetry. apply Ho. by eexists. }
    assert (alone s2) as Ha. { intros y z _ [cn Ecn]. by rewrite Hnone in Ecn. }
    split; [by right|]. apply rg_ret. intros s3 Hr3 _. apply rely_alone in Hr3 as ->; [|done]. cbn. rewrite Hv2, Hh2.
    split; [done|]. split; [done|]. intros Ha'. split; [by apply map_empty|]. rewrite Eo. cbn. rewrite (Hok Ha') in Ho.
    by eapply opened_none.
  - assert (Good s2) as HG2.
    { pose proof (good_ticks s1 log n HG Hq Hn) as H. rewrite <-Eo, <-Em, <-Hh2, <-Hv2 in H. by destruct s2. }
    split; [by left|]. apply rg_ret_open; [done|]. intros s3 HG3 F3. cbn. rewrite (f_vars _ _ _ F3), Hv2.
    split; [done|]. split; [eapply leftover_frame; [exact F3|by rewrite Hh2]|]. intros Ha. by specialize (Hst Ha).
Qed.

Lemma close_ok c x s : closing c (Some x) s → rgp p (close_session x ;; close_connection c) (ended p) s.
Proof.
  intros Hcl. apply (rg_then p (ended p)); [done|]. unfold Programs.close_session. apply rg_do. intros s1 Hr _.
  apply (closing_frame _ _ _ _ Hcl) in Hr as (HG & Ho & Hl & Hv). clear Hcl s. pose proof (opened_session _ _ _ Ho) as Hs.
  destruct (with_status_wp (oDestroySession x) _ s1 (session_destroy_wp answer handle_of _ x Hs))
    as (st & s2 & log & E & (Hq & n & Hn & Eo & Hst) & Em & Hh2 & Hv2). cbn in Em, Hh2, Hv2.
  exists st, s2. split; [done|].
  assert (∃ y, closing c y s2 ∧ (all_ok → y = None)) as (y & Hcl & Hy).
  { destruct (oz_step answer handle_of s1 (oDestroySession x) (proj1 HG) Hs) as (s2' & log' & Hp & HI2).
    destruct (status_perform s1 (oDestroySession x) s2' log' I Hp) as [st' Est]. rewrite E in Est. injection Est as <- <-.
    assert (opened c (if decide (st = MAMA_STATUS_OK) then None else Some x) s2) as Ho2.
    { split; [intros d; unfold has_conn; rewrite Eo; case_decide; apply Ho|]. rewrite Eo. case_decide; cbn; [|apply Ho].
      rewrite fmap_delete, (proj2 Ho). apply delete_singleton_eq. }
    exists (if decide (st = MAMA_STATUS_OK) then None else Some x). split; [|intros Ha; by rewrite decide_True by by apply Hst].
    split; [|split; [exact Ho2|by rewrite Hh2, Hv2]]. split; [done|]. intros a r. rewrite Eo.
    intros Er. apply Ho2. apply Ho. eapply HG. by destruct (decide (st = MAMA_STATUS_OK)). }
  split; [left; apply Hcl|]. apply rg_ret. intros s3 Hr3 _. eapply close_connection_ok; [by eapply closing_frame|exact Hy].
Qed.

(** When the scope of the sink ends, only the session and the connection are
    left to be destroyed. *)
Definition scope_end : mama_status + nat * option nat → sys → Prop := part (λ r, closing r.1 r.2).

Lemma scope_ok c x s : closing c x s → rgp p (mret (c, x) : E (nat * option nat)) scope_end s.
Proof. intros Hcl. apply rg_ret. intros s1 Hr _. by eapply closing_frame. Qed.

Lemma leave_ok r s : closing r.1 r.2 s → rgp p (leave r) (ended p) s.
Proof.
  destruct r as [c [x|]]; cbn [fst snd]; intros Hcl; [by apply close_ok|]. by eapply close_connection_ok.
Qed.

End Parts.

(** ** The programs *)

Lemma operation_good s o :
  ordinary o → Good s → allowed s o →
  ∃ a s' log, operation o s = Some (a, s') ∧ Good s' ∧ conns_kept (s_oz s) (s_oz s') ∧ run s o (s_oz s) = Some (a, s_oz s', log)
    ∧ s_held s' = held_next o a (s_held s) ∧ s_vars s' = vars_next o a (s_vars s).
Proof.
  intros Ho HG Ha. destruct (operation_step s o (proj1 HG) Ha) as (a & s' & log & E & HI & Er & Hh & Hv).
  assert (kept (s_oz s) (s_oz s')) as Hk by (eapply run_kept; [apply HG|done..]).
  exists a, s', log. split; [done|]. split; [by eapply good_kept|]. split; [apply Hk|done].
Qed.

Section Mains.

Context (p : example).

Local Notation ending := (scope_end p).

Lemma opened_ok tport (f : nat → nat → E (nat * option nat)) :
  readable_args → is_Some tport → (∀ c x s, fresh c (Some x) s → rgp p (f c x) ending s) →
  rgp p (c ← open_connection tport; x ← open_session c; f c x) ending begin.
Proof.
  intros Ha Ht Hf. apply (rg_then p ending); [done|]. eapply rg_mono; [|by apply open_connection_ok, blank_begin].
  intros [st|c] s _; [done|]. intros Hu. apply (rg_then p ending); [done|]. eapply rg_mono; [|by apply open_session_ok].
  intros [st|x] s' _; [done|apply Hf].
Qed.

(** A new object: it is held and has no handle. *)
Definition creates_object (o : op) (k : kind) (x : nat) : Prop :=
  match o, k with
  | oNewSubscriber y _ _ wcUnspecified, kSub | oNewRequest y _ _, kInbox | oNewTimer y _ _, kTimer => y = x
  | _, _ => False
  end.

(** What is known of it until it is started. *)
Definition made (k : kind) (a x : nat) (s : sys) : Prop :=
  held s k a ∧ unstarted s k a ∧ sessions_of k (s_oz s) !! a = Some x
  ∧ (k = kSub → ∀ y, o_subs (s_oz s) !! a = Some y → s_wcType y = wcUnspecified).

Lemma made_ready k a x c s : made k a x s → opened c (Some x) s → ready s k a.
Proof. intros (_ & _ & Hx & _) Ho. exists x. split; [done|by eapply opened_session]. Qed.

Lemma new_step s o k c x :
  creates_object o k x → Good s → opened c (Some x) s →
  ∃ a s', operation o s = Some (a, s') ∧ Good s' ∧ opened c (Some x) s' ∧ s_held s' = {[(k, a)]} ∪ s_held s ∧ s_vars s' = s_vars s
    ∧ made k a x s'.
Proof.
  intros Hk HG Ho. pose proof (opened_session _ _ _ Ho) as Hs.
  destruct (operation_good s o) as (a & s' & log & E & HG' & Hc & Er & Hh & Hv); [by destruct o, k|done|destruct o, k; cbn in Hk; try destruct wc; try done; by subst|].
  exists a, s'. split; [done|]. split; [done|]. split; [by eapply opened_kept|].
  destruct o, k; try done; cbn in Hk, Hh, Hv; try destruct wc; try done; subst; injection Er as <- Eo <-; symmetry in Eo;
    (split; [done|]); (split; [done|]); unfold made, held, unstarted; rewrite Hh, Eo; cbn;
    (split; [by apply elem_of_union_l, elem_of_singleton|]); rewrite !lookup_fmap, !lookup_insert_eq; (split; [done|]); (split; [done|]).
  all: try done. by intros _ y [= <-].
Qed.

Lemma made_frame k a x s s' : undisturbed p s s' → made k a x s → made k a x s'.
Proof.
  intros F (Hh & Hu & Hx & Hs). pose proof (f_unstarted _ _ _ F _ _ Hh Hu) as Hh'. split; [done|]. split_and!.
  - unfold unstarted. by rewrite (f_handles _ _ _ F).
  - by rewrite (f_sessions _ _ _ F).
  - intros -> y. rewrite (f_subs _ _ _ F) by done. by apply Hs.
Qed.

(** An object that is created, started, and destroyed at the end. *)
Lemma object_ok (o : op) (k : kind) (start dest : nat → op) c x s :
  is_req p = false → (∀ h, leftover p h ↔ h = ∅) → creates_object o k x →
  (∀ a, has_status (start a) ∧ ordinary (start a) ∧ has_status (dest a) ∧ ordinary (dest a)) →
  (∀ a t, made k a x t → ready t k a → allowed t (start a)) → (∀ a t, held t k a → allowed t (dest a)) →
  (∀ a h v, held_next (start a) 0 h = h ∧ vars_next (start a) 0 v = v ∧ held_next (dest a) 0 h = h ∖ {[(k, a)]} ∧ vars_next (dest a) 0 v = v) →
  fresh c (Some x) s →
  rgp p (a ← stm (operation o); TRY_MAMA_FUNC (with_status (start a)) ;; stm pause ;; stm (with_status (dest a)) ;; mret (c, Some x))
    ending s.
Proof.
  intros Hp Hlo Ho Hst Has Had Hn Hf. apply (rg_stm_open p ending); [by apply Hf|]. intros s1 HG1 F1.
  pose proof (fresh_frame _ _ _ _ _ Hf HG1 F1) as (_ & Ho1 & Hh1 & Hv1).
  destruct (new_step s1 o k c x Ho HG1 Ho1) as (a & s2 & E2 & HG2 & Ho2 & Hh2 & Hv2 & Hm2). destruct (Hst a) as (Hs1 & Hr1 & Hs2 & Hr2).
  destruct (Hn a (s_held s2) (s_vars s2)) as (N1 & N2 & _). exists a, s2. split; [done|]. split; [done|]. rewrite Hh1 in Hh2.
  apply (rg_try_open p ending); [done|done|]. intros s3 HG3 F3. pose proof (made_frame _ _ _ _ _ F3 Hm2) as Hm3.
  pose proof (opened_kept _ _ _ _ (f_conns _ _ _ F3) Ho2) as Ho3.
  destruct (status_step s3 (start a) Hs1 Hr1 HG3 (Has _ _ Hm3 (made_ready _ _ _ _ _ Hm3 Ho3))) as (st & s4 & E4 & HG4 & Hk4 & Hh4 & Hv4).
  exists st, s4. split; [done|]. split; [done|]. intros ->. pose proof (opened_kept _ _ _ _ Hk4 Ho3) as Ho4.
  rewrite (f_kept _ _ _ F3 Hp), N1, Hh2 in Hh4. rewrite (f_vars _ _ _ F3), N2, Hv2, Hv1 in Hv4.
  apply (rg_stm_open p ending); [done|]. intros s5 HG5 F5. exists (), s5. split; [done|]. split; [done|].
  apply (rg_stm_open p ending); [done|]. intros s6 HG6 F6.
  assert (s_held s6 = {[(k, a)]} ∪ ∅) as Hh6 by by rewrite (f_kept _ _ _ F6 Hp), (f_kept _ _ _ F5 Hp).
  assert (s_vars s6 = ∅) as Hv6 by by rewrite (f_vars _ _ _ F6), (f_vars _ _ _ F5).
  assert (opened c (Some x) s6) as Ho6 by (eapply opened_kept; [apply F6|]; eapply opened_kept; [apply F5|done]).
  destruct (status_step s6 (dest a) Hs2 Hr2 HG6) as (st' & s7 & E7 & HG7 & Hk7 & Hh7 & Hv7).
  { apply Had. unfold held. rewrite Hh6. by apply elem_of_union_l, elem_of_singleton. }
  destruct (Hn a (s_held s6) (s_vars s6)) as (_ & _ & N3 & N4). rewrite N3, Hh6 in Hh7. rewrite N4, Hv6 in Hv7.
  exists st', s7. split; [done|]. split; [done|]. apply scope_ok. split; [done|]. split; [by eapply opened_kept|].
  split; [|done]. apply Hlo. rewrite Hh7. set_solver.
Qed.

Lemma sub_name : readable_args → is_Some (getTportSub getenv argv).
Proof. intros (_ & _ & [t Et]). unfold getTportSub. by rewrite Et. Qed.
Lemma pub_name : readable_args → is_Some (getTportPub getenv argv).
Proof. intros (_ & _ & [t Et]). unfold getTportPub. by rewrite Et. Qed.

Lemma subscribe_ok topic : is_req p = false → (∀ h, leftover p h ↔ h = ∅) → readable_args → rgp p (main_subscriber topic) ending begin.
Proof.
  intros Hp Hlo Ha. apply opened_ok; [done|by apply sub_name|]. intros c x s Hf.
  apply (object_ok (oNewSubscriber x (getTopic argv topic) true wcUnspecified) kSub oStartSubscriber oDestroySubscriber); try done.
  intros a t (Hh & Hu & _ & Hw) Hr. split; [done|]. split; [done|]. split; [done|]. intros y Ey. rewrite (Hw eq_refl y Ey).
  unfold guess_wcType. rewrite decide_True by done. by case_match.
Qed.

Lemma main_timer_ok : is_req p = false → (∀ h, leftover p h ↔ h = ∅) → readable_args → rgp p main_timer ending begin.
Proof.
  intros Hp Hlo Ha. apply opened_ok; [done|by apply sub_name|]. intros c x s Hf.
  apply (object_ok (oNewTimer x (of_decimal false 5 (-1)) true) kTimer oStartTimer oDestroyTimer); try done.
  by intros a t (Hh & Hu & _).
Qed.

(** The functions of messages change nothing. *)
Lemma msg_open {B} (Q : mama_status + B → sys → Prop) c (f : () → E B) s :
  (∀ st s, st ≠ MAMA_STATUS_OK → Q (inl st) s) → Good s → (∀ s1, Good s1 → undisturbed p s s1 → rgp p (f ()) Q s1) →
  rgp p (TRY_MAMA_FUNC (msg_call c) ≫= f) Q s.
Proof.
  intros HQ HG Hf. apply (rg_try_open p Q); [done|done|]. intros s1 HG1 F1. exists (msg_answer c), s1.
  split; [done|]. split; [done|]. intros _. by apply Hf.
Qed.

Lemma create_msg_ok s (K : () → sys → Prop) :
  Good s → (∀ s', Good s' → undisturbed p s s' → K () s') → rgp p create_msg (part K) s.
Proof.
  intros HI HK. unfold Programs.create_msg. apply (msg_open (part K)); [done|done|]. intros s1 HI1 F1.
  apply rg_try_last; [done|done|]. intros s2 HI2 F2. eexists _, s2. split; [done|]. split; [done|].
  intros _ s3 HI3 F3. apply HK; [done|]. eapply frame_comp; [exact F1|]. by eapply frame_comp.
Qed.

(** ** pub.cpp *)

Definition pub_state (c a : nat) (s : sys) : Prop := Good s ∧ opened c None s ∧ s_held s = ∅ ∧ s_vars s = {[0 := a]}.

Lemma pub_frame c a s s' : pub_state c a s → Good s' → undisturbed p s s' → pub_state c a s'.
Proof.
  intros (_ & Ho & Hh & Hv) HG F. split; [done|]. split; [by eapply opened_kept; [apply F|]|].
  split; [|by rewrite (f_vars _ _ _ F)]. pose proof (f_held _ _ _ F). set_solver.
Qed.

Lemma pub_var c a s : pub_state c a s → is_Some (s_vars s !! 0).
Proof. intros (_ & _ & _ & ->). by rewrite lookup_singleton_eq. Qed.

Lemma pub_loop_ok c a n : ∀ i s (Q : mama_status + () → sys → Prop), (∀ st s, st ≠ MAMA_STATUS_OK → Q (inl st) s) →
  (0 <= i)%Z → (i + Z.of_nat n < 2 ^ 31)%Z → pub_state c a s → (∀ s', pub_state c a s' → Q (inr ()) s') → rgp p (pub_loop n i) Q s.
Proof.
  induction n as [|n IH]; intros i s Q HQ H0 Hn Hs Hend; cbn [Programs.pub_loop].
  - apply rg_ret_open; [apply Hs|]. intros s1 HG1 F1. apply Hend. by eapply pub_frame.
  - apply (rg_stm_open p Q); [apply Hs|]. intros s1 HG1 F1. exists (), s1. split; [done|]. split; [done|].
    apply (rg_stm_open p Q); [done|]. intros s2 HG2 F2. exists (i + 1)%Z, s2.
    split; [unfold value, next_int; by rewrite decide_True by lia|]. split; [done|].
    apply (msg_open Q); [done|done|]. intros s3 HG3 F3. apply (rg_try_open p Q); [done|done|]. intros s4 HG4 F4.
    assert (pub_state c a s4) as Hs4 by (do 4 (eapply pub_frame; [|done|done]); done).
    destruct (status_step s4 (oPublish 0 msg) I I HG4 (pub_var _ _ _ Hs4)) as (st & s5 & E5 & HG5 & Hk5 & Hh5 & Hv5).
    exists st, s5. split; [done|]. split; [done|]. intros _. destruct Hs4 as (_ & Ho4 & Hh4 & Hv4). cbn in Hh5, Hv5.
    apply (IH _ s5); [done|lia|lia| |done]. split; [done|]. split; [by eapply opened_kept|]. by rewrite Hh5, Hv5.
Qed.

Lemma main_pub_ok n : (∀ h, leftover p h ↔ h = ∅) → readable_args → (Z.of_nat n < 2 ^ 31)%Z → rgp p (main_pub n) ending begin.
Proof.
  intros Hlo Ha Hn. unfold Programs.main_pub. apply (rg_then p ending); [done|].
  eapply rg_mono; [|by apply open_connection_ok, blank_begin; [done|apply pub_name]].
  intros [st|c] s _; [done|]. intros Hf. apply (rg_stm_open p ending); [apply Hf|]. intros s1 HG1 F1.
  pose proof (fresh_frame _ _ _ _ _ Hf HG1 F1) as (_ & Ho1 & Hh1 & Hv1).
  destruct (operation_good s1 (oGetPublisher 0 c (getTopic argv (lit "prefix/suffix"))) I HG1) as (a & s2 & log & E2 & HG2 & Hk2 & _ & Hh2 & Hv2).
  { split; [by rewrite Hv1|by eapply opened_conn]. }
  exists a, s2. split; [done|]. split; [done|]. cbn in Hh2, Hv2. rewrite Hh1 in Hh2. rewrite Hv1, insert_empty in Hv2.
  assert (pub_state c a s2) as Hs2 by (split; [done|]; split; [by eapply opened_kept|done]).
  apply (rg_then p ending); [done|]. eapply rg_mono; [|apply (create_msg_ok s2 (λ _, pub_state c a)); [done|by intros; eapply pub_frame]].
  intros [st|[]] s3 _; [done|]. intros Hs3. apply (rg_then p ending); [done|]. apply (pub_loop_ok c a n 0); [done|done|lia|done|].
  intros s4 Hs4. apply (msg_open ending); [done|apply Hs4|]. intros s5 HG5 F5. pose proof (pub_frame _ _ _ _ Hs4 HG5 F5) as Hs5.
  apply (rg_stm_open p ending); [done|]. intros s6 HG6 F6. pose proof (pub_frame _ _ _ _ Hs5 HG6 F6) as Hs6.
  destruct (operation_good s6 (oDropPublisher 0) I HG6 (pub_var _ _ _ Hs6)) as (r & s7 & log7 & E7 & HG7 & Hk7 & _ & Hh7 & Hv7).
  exists r, s7. split; [done|]. split; [done|]. destruct Hs6 as (_ & Ho6 & Hh6 & Hv6). cbn in Hh7, Hv7.
  apply scope_ok. split; [done|]. split; [by eapply opened_kept|].
  split; [apply Hlo; by rewrite Hh7|]. by rewrite Hv7, Hv6, delete_singleton_eq.
Qed.

(** ** req.cpp and req2.cpp *)

Definition only_requests (s : sys) : Prop := (∀ x, x ∈ s_held s → x.1 = kInbox) ∧ s_vars s = ∅.

Lemma only_requests_frame s s' : only_requests s → undisturbed p s s' → only_requests s'.
Proof. intros [Hh Hv] F. split; [|by rewrite (f_vars _ _ _ F)]. intros x Hx. apply Hh, (f_held _ _ _ F), Hx. Qed.

Lemma req_loop_ok c x topic n : ∀ i s (Q : mama_status + () → sys → Prop), (∀ st s, st ≠ MAMA_STATUS_OK → Q (inl st) s) →
  (0 <= i)%Z → (i + Z.of_nat n < 2 ^ 31)%Z → Good s → opened c (Some x) s → only_requests s →
  (∀ s', Good s' → opened c (Some x) s' → only_requests s' → Q (inr ()) s') → rgp p (req_loop x topic n i) Q s.
Proof.
  induction n as [|n IH]; intros i s Q HQ H0 Hn HG Ho Hs Hend; cbn [Programs.req_loop].
  - apply rg_ret_open; [done|]. intros s' HG' F. apply Hend; [done|by eapply opened_kept; [apply F|]|by eapply only_requests_frame].
  - apply (rg_stm_open p Q); [done|]. intros s1 HG1 F1. exists (), s1. split; [done|]. split; [done|].
    apply (rg_stm_open p Q); [done|]. intros s2 HG2 F2. exists (i + 1)%Z, s2. split; [unfold value, next_int; by rewrite decide_True by lia|].
    split; [done|]. apply (msg_open Q); [done|done|]. intros s3 HG3 F3. apply (rg_stm_open p Q); [done|]. intros s4 HG4 F4.
    assert (undisturbed p s s4) as F by (do 3 (eapply frame_comp; [|done]); done).
    pose proof (opened_kept _ _ _ _ (f_conns _ _ _ F) Ho) as Ho4. pose proof (only_requests_frame _ _ Hs F) as [Hh4 Hv4].
    destruct (new_step s4 (oNewRequest x topic true) kInbox c x eq_refl HG4 Ho4) as (a & s5 & E5 & HG5 & Ho5 & Hh5 & Hv5 & Hm5).
    exists a, s5. split; [done|]. split; [done|].
    assert (only_requests s5) as Hs5. { split; [|by rewrite Hv5]. rewrite Hh5. intros y [->%elem_of_singleton|Hx]%elem_of_union; [done|by apply Hh4]. }
    apply (rg_try_open p Q); [done|done|]. intros s6 HG6 F6. pose proof (made_frame _ _ _ _ _ F6 Hm5) as Hm6.
    pose proof (opened_kept _ _ _ _ (f_conns _ _ _ F6) Ho5) as Ho6.
    destruct (status_step s6 (oSend a msg) I I HG6) as (st & s7 & E7 & HG7 & Hk7 & Hh7 & Hv7); [split; [apply Hm6|by eapply made_ready]|].
    exists st, s7. split; [done|]. split; [done|]. intros _. cbn in Hh7, Hv7. pose proof (only_requests_frame _ _ Hs5 F6) as [Hr6 Hv6].
    apply (IH _ s7); [done|lia|lia|done|by eapply opened_kept| |done]. split; [by rewrite Hh7|by rewrite Hv7].
Qed.

Lemma main_req_ok n : (∀ h, leftover p h ↔ ∀ x, x ∈ h → x.1 = kInbox) → readable_args → (Z.of_nat n < 2 ^ 31)%Z → rgp p (main_req n) ending begin.
Proof.
  intros Hlo Ha Hn. apply opened_ok; [done|by apply pub_name|]. intros c x s Hf. apply (rg_then p ending); [done|].
  eapply rg_mono; [|apply (create_msg_ok s (λ _, fresh c (Some x))); [by apply Hf|by intros; eapply fresh_frame]].
  intros [st|[]] s1 _; [done|]. intros (HG1 & Ho1 & Hh1 & Hv1).
  apply (rg_then p ending); [done|]. apply (req_loop_ok c x _ n 0); [done|done|lia|done|done|split; [by rewrite Hh1|done]|].
  intros s2 HG2 Ho2 Hs2. apply (msg_open ending); [done|done|]. intros s3 HG3 F3. apply scope_ok.
  destruct (only_requests_frame _ _ Hs2 F3) as [Hh3 Hv3]. split; [done|]. split; [by eapply opened_kept; [apply F3|]|].
  split; [by apply Hlo|done].
Qed.

(** After a send that succeeds the request has an inbox. *)
Lemma send_rest_inbox own1 o a r m :
  pubs_ok own1 o → ConnInv o → is_Some (o_sessions o !! r_session r) → o_reqs o !! a = Some r → own1 (ofRequest a) = r_pub r →
  wp (request_publisher a ;; request_transmit answer handle_of a m) (λ _ o' _, handles kInbox o' !! a = Some (r_inbox r)) o.
Proof.
  intros HP HC Hs Er Ho. apply wp_bind. eapply wp_mono; [|by eapply request_publisher_wp].
  intros _ o1 log1 (-> & q & Er1 & F & HP1 & Hq & _). unfold request_transmit. apply wp_bind.
  eapply wp_req; [rewrite Er1; apply lookup_insert_eq|]. oz_steps. apply (wp_part _ q); [done|].
  eapply wp_mono; [|by eapply with_pub_wp]. intros st o' log (_ & (_ & _ & F3 & _) & _). cbn in F3 |- *. rewrite F3.
  by rewrite lookup_fmap, lookup_insert_eq.
Qed.

Lemma send_inbox s a m : Inv s → allowed s (oSend a m) →
  wp (request_send answer handle_of a m) (λ st o' _, st = MAMA_STATUS_OK → ∃ h, h ≠ 0%Z ∧ handles kInbox o' !! a = Some h) (s_oz s).
Proof.
  intros HI [Ha Hrd]. assert (is_Some (handles kInbox (s_oz s) !! a)) as [h Eh].
  { destruct HI as (_ & _ & HO & _). by apply (oi_held _ _ _ _ _ _ (HO kInbox)). }
  destruct (req_of _ _ _ Eh) as (r & Er & Ehr). clear h Eh Ehr. pose proof HI as (HP & HC & _). pose proof (ready_req _ _ _ Hrd Er) as Hs.
  unfold request_send, CALL_MAMA_FUNC, request_inbox. do 2 apply wp_bind. apply (wp_req _ _ _ _ Er). case_decide as Hi.
  - apply wp_bind, wp_transport; [done..|]. intros t. apply wp_bind, wp_queue; [done|]. intros q.
    apply wp_bind, call_handle_wp. cbn [fst snd]. oz_steps. case_decide as Hst; [by oz_steps|].
    eapply wp_mono; [|apply (send_rest_inbox (own s) _ a (set_inbox (handle_of (o_calls (s_oz s)) (mamaInbox_create2 t q a)) r)); [|by eapply ConnInv_kept, HC|exact Hs|apply lookup_insert_eq|cbn; by rewrite Er]].
    + intros st o' log E _. eexists. split; [|exact E]. cbn. apply handle_ok; [done|]. destruct (decide (answer (o_calls (s_oz s)) (mamaInbox_create2 t q a) = MAMA_STATUS_OK)); tauto.
    + eapply pubs_ok_ext, HP; done.
  - oz_steps. rewrite decide_False by by intros H. eapply wp_mono; [|apply (send_rest_inbox (own s)); [done|done|exact Hs|exact Er|cbn; by rewrite Er]].
    intros st o' log E _. by exists (r_inbox r).
Qed.

Lemma main_req2_ok e : is_req p = false → (∀ h, leftover p h ↔ ∃ a, h = {[(kInbox, a)]}) → readable_args → rgp p (main_req2 e) ending begin.
Proof.
  intros Hp Hlo Ha. apply opened_ok; [done|by apply pub_name|]. intros c x s Hf. apply (rg_then p ending); [done|].
  eapply rg_mono; [|apply (create_msg_ok s (λ _, fresh c (Some x))); [by apply Hf|by intros; eapply fresh_frame]].
  intros [st|[]] s1 _; [done|]. intros Hf1.
  apply (msg_open ending); [done|by apply Hf1|]. intros s2 HG2 F2. pose proof (fresh_frame _ _ _ _ _ Hf1 HG2 F2) as Hf2.
  apply (rg_stm_open p ending); [done|]. intros s3 HG3 F3. pose proof (fresh_frame _ _ _ _ _ Hf2 HG3 F3) as (_ & Ho3 & Hh3 & Hv3).
  destruct (new_step s3 (oNewRequest x (getTopic argv (lit "prefix/suffix")) true) kInbox c x eq_refl HG3 Ho3)
    as (a & s4 & E4 & HG4 & Ho4 & Hh4 & Hv4 & Hm4).
  exists a, s4. split; [done|]. split; [done|]. rewrite Hh3 in Hh4.
  apply (rg_try_open p ending); [done|done|]. intros s5 HG5 F5. pose proof (made_frame _ _ _ _ _ F5 Hm4) as Hm5.
  pose proof (opened_kept _ _ _ _ (f_conns _ _ _ F5) Ho4) as Ho5.
  assert (allowed s5 (oSend a msg)) as Hal5 by (split; [apply Hm5|by eapply made_ready]).
  destruct (status_step s5 (oSend a msg) I I HG5 Hal5) as (st & s6 & E6 & HG6 & Hk6 & Hh6 & Hv6).
  destruct (with_status_wp (oSend a msg) _ s5 (send_inbox s5 a msg (proj1 HG5) Hal5)) as (st' & s6' & log & E6' & Hin & _).
  rewrite E6 in E6'. injection E6' as <- <-.
  exists st, s6. split; [done|]. split; [done|]. intros Hst. destruct (Hin Hst) as (h & H0 & Eh).
  cbn in Hh6, Hv6. rewrite (f_kept _ _ _ F5 Hp), Hh4 in Hh6. rewrite (f_vars _ _ _ F5), Hv4, Hv3 in Hv6.
  apply (rg_stm_open p ending); [done|]. intros s7 HG7 F7. pose proof (f_kept _ _ _ F7 Hp) as Hh7. rewrite Hh6 in Hh7.
  assert (held s7 kInbox a) as Ha7 by (unfold held; rewrite Hh7; by apply elem_of_union_l, elem_of_singleton).
  destruct (status_step s7 (oWaitReply a (dint 5) e) I I HG7) as (st8 & s8 & E8 & HG8 & Hk8 & Hh8 & Hv8).
  { split; [done|]. split; [vm_compute; by eexists|]. intros r Er. destruct HG7 as [(_ & _ & _ & HR) _]. apply (HR a r Er).
    rewrite <-(f_handles _ _ _ F7 _ _ Ha7) in Eh. apply req_of in Eh as (r' & Er' & Ei). congruence. }
  exists st8, s8. split; [done|]. split; [done|]. apply scope_ok. cbn in Hh8, Hv8. split; [done|]. split.
  { eapply opened_kept; [exact Hk8|]. eapply opened_kept; [apply F7|]. by eapply opened_kept. }
  split; [|by rewrite Hv8, (f_vars _ _ _ F7)]. apply Hlo. exists a. rewrite Hh8, Hh7. set_solver.
Qed.

End Mains.

(** Every program, from the beginning. *)
Lemma program_ok p : readable_args → (Z.of_nat (iterations p) < 2 ^ 31)%Z → rgp p (program p) (scope_end p) begin.
Proof.
  intros Ha Hn. destruct p as [|n| |n|e| | | | |].
  all: cbn [Programs.program iterations] in *.
  2: by apply main_pub_ok.
  3: by apply main_req_ok.
  3: by apply main_req2_ok.
  1, 4, 5: by apply main_timer_ok.
  all: by apply subscribe_ok.
Qed.

(** What holds in every state of every run. *)
Definition sound (p : example) (c : place * sys) : Prop :=
  match c.1 with
  | Inside x => rgp p x (scope_end p) c.2
  | Outside x => rgp p x (ended p) c.2
  end ∧ G c.2.

Lemma sound_step p c c' : sound p c → ex_step p c c' → sound p c'.
Proof.
  intros [Hx HG] H1. inversion H1 as [A a k r s s' Ea|r s|A a k r s s' Ea|x o l s s' Hm Hf Hre Hp]; subst; cbn [fst snd] in *.
  - apply rg_now in Hx; [|apply _|done]. rewrite Ea in Hx. split; apply Hx.
  - apply rg_now in Hx; [|apply _|done]. split; [by apply leave_ok|done].
  - apply rg_now in Hx; [|apply _|done]. rewrite Ea in Hx. split; apply Hx.
  - assert (callback p s s') as Hc by (apply (callback_intro _ _ _ _ _ o l); [done|by intros ?; apply Hf; right|done|done]).
    split.
    + destruct x as [x|x]; cbn [fst snd]; (eapply rg_stable; [apply _|exact Hx|by apply rtc_once]).
    + destruct HG as [HG|Ha]; [left; by eapply callback_frame|]. by destruct (alone_silent s o Ha).
Qed.

Lemma run_ok p c c' : sound p c → rtc (ex_step p) c c' → sound p c'.
Proof. intros Hs Hr. induction Hr; eauto using sound_step. Qed.

(** A second reply: the sink destroys the inbox again. *)
Lemma replied_again p s o l :
  Good s → may_call s o → replied p s o → reaction p s o l →
  ∃ h m x s1 log1 s2 log2 st n, o = oInboxMsg h m ∧ s_mama s !! (kInbox, h) = Some x ∧ l = [oDestroyRequest x.1]
    ∧ perform s o = Some (s1, log1) ∧ perform s1 (oDestroyRequest x.1) = Some (s2, log2)
    ∧ eCall (mamaInbox_destroy h) st n ∈ log2.
Proof.
  intros HG (Ha & _) Hr Hre. destruct p; try done. destruct o as [| | | | | | | | | | | | | | | | | | | | | | | | | | |h m| | | |]; try done.
  cbn [replied reaction] in *. destruct Hre as ([a b] & Hx & ->). cbn [fst].
  destruct (oz_step answer handle_of s (oInboxMsg h m) (proj1 HG) Ha) as (s1 & log1 & E1 & HI1).
  assert (s_mama s1 !! (kInbox, h) = Some (a, b)) as Hx1.
  { destruct (perform_wp _ _ _ _ _ (inbox_quiet s h m (proj1 HG) ltac:(by eexists)) E1) as (? & Hq & _ & _ & _ & ->). by rewrite Hq. }
  destruct (called_object _ _ _ _ _ _ HI1 Hx1) as [Hh H0]. apply req_of in Hh as (q & Eq & Ei).
  assert (wp (run s1 (oDestroyRequest a)) (λ _ _ log, ∃ st n, eCall (mamaInbox_destroy h) st n ∈ log) (s_oz s1)) as Hw.
  { cbn [System.run]. unfold void, request_destroy, CALL_MAMA_FUNC. do 2 apply wp_bind. apply (wp_req _ _ _ _ Eq).
    rewrite Ei. rewrite decide_True by done. apply wp_bind, oz_call_wp.
    case_decide; apply wp_ret, wp_ret; do 2 eexists; by left. }
  unfold wp in Hw. destruct (run s1 (oDestroyRequest a) (s_oz s1)) as [[[v o'] log2]|] eqn:E; [|done].
  destruct Hw as (st & n' & Hin). exists h, m, (a, b), s1, log1. eexists _, log2, st, n'.
  split_and!; [done|done|done|done| |done]. unfold System.perform. cbn [fst]. by rewrite E.
Qed.

(** C22: the example programs. Whatever MAMA answers and whenever it calls
    back, with whatever number of iterations before the signal: no statement
    of the program is undefined, and no deleted object is followed.  A
    callback, with what the sink does in it, is defined unless it calls a sink
    of [main] after its scope, while the session is still there, or is a
    second reply to a request of req.cpp, for which the sink destroys the
    inbox again.  Without such callbacks the program throws a status that is
    not OK, which nothing catches, or ends with nothing left of its objects
    but the request of req2.cpp and requests of req.cpp; then, if MAMA refused
    nothing, the session and the connection are deleted. *)
Theorem examples_safe p c :
  readable_args → (Z.of_nat (iterations p) < 2 ^ 31)%Z → rtc (ex_step p) (Inside (program p), begin) c →
  (∀ A (a : act A), (∃ k, c.1 = Inside (Do a k)) ∨ (∃ k, c.1 = Outside (Do a k)) → is_Some (a c.2))
  ∧ (∀ o l, may_call c.2 o → reaction p c.2 o l →
       (¬ fault p c.1 c.2 o → is_Some (perform_all c.2 (o :: l)))
       ∧ (replied p c.2 o → ∃ h m x s1 log1 s2 log2 st n,
            o = oInboxMsg h m ∧ s_mama c.2 !! (kInbox, h) = Some x ∧ l = [oDestroyRequest x.1]
            ∧ perform c.2 o = Some (s1, log1) ∧ perform s1 (oDestroyRequest x.1) = Some (s2, log2)
            ∧ eCall (mamaInbox_destroy h) st n ∈ log2))
  ∧ (∀ st, c.1 = Inside (Ret (inl st)) → st ≠ MAMA_STATUS_OK)
  ∧ (∀ r, c.1 = Outside (Ret r) → ended p r c.2).
Proof using Type*.
  intros Ha Hn Hr.
  assert (sound p (Inside (program p), begin)) as H0 by (split; [by apply program_ok|left; apply blank_begin]).
  destruct (run_ok p _ c H0 Hr) as [Hx HG]. destruct c as [x s]. cbn [fst snd] in *. split_and!.
  - intros A a [[k ->]|[k ->]]; apply rg_now in Hx; try apply _; try done; unfold exec in Hx; destruct (a s); by try destruct Hx.
  - intros o l Hm Hre. destruct HG as [HG|Hal]; [|by destruct (alone_silent s o Hal)]. split.
    + intros Hf. destruct (callback_ok p s o l HG Hm ltac:(by intros ?; apply Hf; right) Hre) as (s' & -> & _). by eexists.
    + intros Hrep. by apply (replied_again p).
  - intros st ->. apply rg_now in Hx; [|apply _|done]. exact Hx.
  - intros r ->. apply rg_now in Hx; [|apply _|done]. exact Hx.
Qed.

End Examples.

(** ** A run *)

Section Run.

Context (answer : nat → mcall → mama_status) (handle_of : nat → mcall → Z) (p : example).

(** [n] steps without a callback. *)
Fixpoint advance (n : nat) (x : place) (s : sys) : option (place * sys) :=
  match n with
  | 0 => Some (x, s)
  | S n' =>
      match x with
      | Inside (Do a k) => '(r, s') ← a s; advance n' (Inside (k r)) s'
      | Inside (Ret (inr r)) => advance n' (Outside (leave answer handle_of r)) s
      | Outside (Do a k) => '(r, s') ← a s; advance n' (Outside (k r)) s'
      | _ => Some (x, s)
      end
  end.

Lemma advance_steps n x s c : advance n x s = Some c → rtc (ex_step answer handle_of p) (x, s) c.
Proof.
  revert x s. induction n as [|n IH]; intros x s; [intros [= <-]; apply rtc_refl|].
  destruct x as [[[st|r]|R a k]|[r|R a k]]; cbn [advance]; try (intros [= <-]; apply rtc_refl).
  - intros Hn. eapply rtc_l; [apply ex_leave|by apply IH].
  - destruct (a s) as [[r s']|] eqn:E; [|done]. rewrite bind_some. intros Hn. eapply rtc_l; [|by apply IH].
    apply ex_inside. unfold exec. by rewrite E.
  - destruct (a s) as [[r s']|] eqn:E; [|done]. rewrite bind_some. intros Hn. eapply rtc_l; [|by apply IH].
    apply ex_outside. unfold exec. by rewrite E.
Qed.

(** The program is in the scope of its sink. *)
Definition inside (x : place) : bool := match x with Inside _ => true | Outside _ => false end.

(** [n] steps, the callback [o], to which the sink does not react, and
    [m] more steps. *)
Definition told_at (n m : nat) (o : op) (x : place) (s : sys) : option (place * sys) :=
  c ← advance n x s; s1 ← perform_all answer handle_of c.2 [o]; advance m c.1 s1.

(** In the scope of the sink, after [n] steps. *)
Definition ready_at (n : nat) (x : place) (s : sys) (check : sys → bool) : bool :=
  match advance n x s with Some c => inside c.1 && check c.2 | None => false end.

Lemma told_at_steps n m o x s c (check : sys → bool) :
  told_at n m o x s = Some c → (∀ t, reaction p t o []) → (∀ t, ¬ replied p t o) → (∀ t, check t = true → may_call t o) →
  ready_at n x s check = true →
  rtc (ex_step answer handle_of p) (x, s) c.
Proof.
  unfold told_at, ready_at. intros E Hre Hrep Hm Hc. destruct (advance n x s) as [[x1 s1]|] eqn:E1; [|done].
  rewrite bind_some in E. cbn [fst snd] in E, Hc. apply andb_true_iff in Hc as [Hi Hc].
  destruct (perform_all answer handle_of s1 [o]) as [s2|] eqn:E2; [|done]. rewrite bind_some in E.
  transitivity (x1, s1); [by eapply advance_steps|]. eapply rtc_l; [|by eapply advance_steps].
  apply (ex_callback _ _ _ _ o []); [by apply Hm| |done|done]. intros [Hf|Hf]; [by destruct x1|by eapply Hrep].
Qed.

End Run.

(** sub.cpp with a message while it waits. *)
Definition demo_main : place :=
  Inside (program demo_answer demo_handle (λ _, MAMA_STATUS_OK) 7 (λ _, None) [lit "sub"; lit "a/b"] exSub).
Abbreviation demo_end := (told_at demo_answer demo_handle 9 5 (oSubMsg 10 5) demo_main begin).

Definition may_call_sub (s : sys) (h : Z) : bool :=
  match s_mama s !! (kSub, h) with
  | Some x => match conn_of s kSub x.1 with Some c => bool_decide (is_Some (o_conns (s_oz s) !! c)) | None => false end
  | None => false
  end.

Lemma may_call_sub_ok s h m : may_call_sub s h = true → may_call s (oSubMsg h m).
Proof.
  unfold may_call_sub. destruct (s_mama s !! (kSub, h)) as [x|] eqn:Ex; [|done].
  destruct (conn_of s kSub x.1) as [c|] eqn:Ec; [|done]. rewrite bool_decide_eq_true. intros Hc.
  split; [by eexists|]. by exists (kSub, h), x, c.
Qed.

Lemma sub_demo_may_call : ready_at demo_answer demo_handle 9 demo_main begin (λ t, may_call_sub t 10) = true.
Proof. vm_compute. reflexivity. Qed.

Definition at_end (x : option (place * sys)) : bool := match x with Some (Outside (Ret (inr ())), _) => true | _ => false end.

Lemma sub_demo_ends : at_end demo_end = true.
Proof. vm_compute. reflexivity. Qed.

Lemma ended_case x : at_end x = true → ∃ s, x = Some (Outside (Ret (inr ())), s).
Proof. destruct x as [[[|[[st|[]]|]] s]|]; try done. by exists s. Qed.

Lemma sub_demo_run c : demo_end = Some c → rtc (ex_step demo_answer demo_handle exSub) (demo_main, begin) c.
Proof.
  intros E. refine (told_at_steps demo_answer demo_handle exSub 9 5 (oSubMsg 10 5) demo_main begin c
    (λ t, may_call_sub t 10) E (λ t, eq_refl) (λ t (H : False), H) (λ t, may_call_sub_ok t 10 5) sub_demo_may_call).
Qed.

(** The message comes when the scope of the sink has ended: MAMA may call,
    since the session is still there. *)
Definition late (x : option (place * sys)) : bool :=
  match x with Some c => negb (inside c.1) && may_call_sub c.2 10 | None => false end.

Lemma late_case x : late x = true → ∃ y s, x = Some (Outside y, s) ∧ may_call_sub s 10 = true.
Proof. destruct x as [[[|y] s]|]; try done. intros H. by exists y, s. Qed.

Lemma sub_demo_late : late (advance demo_answer demo_handle 12 demo_main begin) = true.
Proof. vm_compute. reflexivity. Qed.

Lemma demo_args : readable_args (λ _, None) [lit "sub"; lit "a/b"].
Proof. repeat split; vm_compute; by eexists. Qed.

Lemma examples_safe_witness :
  (∃ s, demo_end = Some (Outside (Ret (inr ())), s) ∧ s_held s = ∅ ∧ o_conns (s_oz s) = ∅)
  ∧ ∃ y s, rtc (ex_step demo_answer demo_handle exSub) (demo_main, begin) (Outside y, s)
      ∧ may_call s (oSubMsg 10 5) ∧ fault exSub (Outside y) s (oSubMsg 10 5).
Proof.
  split.
  - destruct (ended_case demo_end sub_demo_ends) as [s E]. exists s. split; [exact E|].
    pose proof (examples_safe demo_answer demo_handle (λ _, MAMA_STATUS_OK) 7 (λ _, None) [lit "sub"; lit "a/b"] exSub
      (Outside (Ret (inr ())), s) demo_args eq_refl (sub_demo_run _ E)) as H.
    destruct (proj2 (proj2 (proj2 H)) _ eq_refl) as (_ & Hh & Hc). exact (conj Hh (proj1 (Hc (λ _ _, eq_refl)))).
  - destruct (late_case _ sub_demo_late) as (y & s & E & Hm). exists y, s.
    exact (conj (advance_steps demo_answer demo_handle exSub 12 demo_main begin _ E)
      (conj (may_call_sub_ok s 10 5 Hm) (or_introl (conj eq_refl eq_refl)))).
Defined.

End ProgramsSafe.
