(* ===== verification/HammerNail.v ===== *)
(** * The load generator and its receiver (src/src/hammer.c, nail.c)

    [hammer] publishes numbered messages as fast as it can, [nail] receives
    them, counts them per second and reports the gaps in their numbers.  The
    accesses through [seq], [s] and [us], which are not aligned, are taken
    as the machine executes them: as reads and writes of little-endian
    bytes. *)

From stdpp Require Import sorting.
From S2P Require Import Prelude CLib Naming NamingProofs Monitor.
Import ZN Monitor.

Module HammerNail.

(** [sizeof(buffer)] *)
Definition BUFFER_SIZE : nat := 223.

(** Offsets of [seq], [s] and [us]. *)
Definition SEQ_OFF : nat := 2.
Definition S_OFF : nat := 10.
Definition US_OFF : nat := 14.

Definition read_le (b : list byte) (pos n : nat) : option Z := of_le <$> peek b pos n.

(** ** The sockets

    What the programs do before their loops. *)

Definition ZMQ_PUB : Z := 1.
Definition ZMQ_SUB : Z := 2.
Definition ZMQ_SNDHWM : Z := 23.
Definition ZMQ_RCVHWM : Z := 24.

Inductive setupCall :=
  | cSocket (type : Z)
  | cSetInt (option value : Z)
  | cSubscribe (topic : list byte)
  | cBind (endpoint : list byte)
  | cConnect (endpoint : list byte).

Definition hammer_calls : list setupCall :=
  [cSocket ZMQ_PUB; cSetInt ZMQ_SNDHWM 0; cBind (lit "tcp://*:5556")].
Definition nail_calls : list setupCall :=
  [cSocket ZMQ_SUB; cConnect (lit "tcp://localhost:5556"); cSetInt ZMQ_RCVHWM 0; cSubscribe (lit "A")].

(** An option other than a subscription holds for the connections made after
    it is set: the value of [option] at the first bind or connect. *)
Fixpoint hwm_used (option : Z) (v : Z) (l : list setupCall) : Z :=
  match l with
  | [] => v
  | cSetInt o v' :: l' => hwm_used option (if decide (o = option) then v' else v) l'
  | (cBind _ | cConnect _) :: _ => v
  | _ :: l' => hwm_used option v l'
  end.

(** ** hammer *)

(** What [gettimeofday] and [zmq_send] answer in one iteration. *)
Record hammerEnv := mkHammerEnv { tv_sec : Z; tv_usec : Z; rc_send : Z; errno_send : Z }.

Inductive hammerOut := hSend (msg : list byte) | hError (e : Z).

(** The buffer before the loop; [junk] is what was on the stack. *)
Definition hammer_init (junk : nat → byte) : option (list byte) :=
  b ← poke (fresh junk BUFFER_SIZE) 0 [x41; NUL];
  poke b SEQ_OFF (le_bytes 8 0).

Definition hammer_step (b : list byte) (e : hammerEnv) : option (list byte * list hammerOut) :=
  seq ← read_le b SEQ_OFF 8;
  b ← poke b SEQ_OFF (le_bytes 8 (wrapu 64 (seq + 1)));
  b ← poke b S_OFF (le_bytes 4 (uint32 (tv_sec e)));
  b ← poke b US_OFF (le_bytes 4 (uint32 (tv_usec e)));
  Some (b, hSend b :: (if decide (rc_send e = -1)%Z then [hError (errno_send e)] else [])).

(** The endless loop, for the iterations of [es]. *)
Fixpoint hammer_loop (b : list byte) (es : list hammerEnv) : option (list hammerOut) :=
  match es with
  | [] => Some []
  | e :: es' => '(b', o) ← hammer_step b e; os ← hammer_loop b' es'; Some (o ++ os)
  end.

Definition hammer (junk : nat → byte) (es : list hammerEnv) : option (list hammerOut) :=
  b ← hammer_init junk; hammer_loop b es.

(** ** nail *)

(** What one iteration is given: a message, or an error; whether [calloc]
    succeeds; the second of the clock. *)
Inductive received := rMsg (msg : list byte) | rError (e : Z).
Record nailEnv := mkNailEnv { n_recv : received; n_mem : bool; n_sec : Z }.

Inductive nailOut := nError (e : Z) | nSeconds (s count : Z) | nGap (expected seq : Z).

(** [n_leaked]: the sizes of the copies, which are never freed. *)
Record nail := mkNail {
  n_buffer : list byte;
  n_last : Z;
  n_count : Z;
  n_expected : Z;
  n_leaked : list nat }.

Definition nail_init (junk : nat → byte) : nail := mkNail (fresh junk BUFFER_SIZE) 0 0 1 [].

(** [zmq_recv] stores as much of the message as fits and returns its size. *)
Definition zmq_recv (b : list byte) (r : received) : option (Z * list byte) :=
  match r with
  | rMsg msg => b' ← poke b 0 (take BUFFER_SIZE msg); Some (Z.of_nat (length msg), b')
  | rError _ => Some ((-1)%Z, b)
  end.

(** [memcpy (copy, buffer, size)]: inside the buffer, into the [calloc]ed
    block of that size. *)
Definition copy_buffer (mem : bool) (b : list byte) (size : Z) : option (list byte) :=
  if decide (size < 0)%Z then None else if mem then peek b 0 (Z.to_nat size) else None.

Definition nail_step (n : nail) (e : nailEnv) : option (nail * list nailOut) :=
  '(size, b) ← zmq_recv (n_buffer n) (n_recv e);
  let out1 := match n_recv e with rError c => [nError c] | rMsg _ => [] end in
  copy ← copy_buffer (n_mem e) b size;
  let count := wrapu 64 (n_count n + 1) in
  seq ← read_le b SEQ_OFF 8;
  s ← read_le b S_OFF 4;
  let sec := uint32 (n_sec e) in
  let '(last, count, out2) :=
    if decide (sec ≠ n_last n) then (sec, 0%Z, [nSeconds s count]) else (n_last n, count, []) in
  let '(expected, out3) :=
    if decide (seq ≠ n_expected n) then (seq, [nGap (n_expected n) seq]) else (n_expected n, []) in
  Some (mkNail b last count (wrapu 64 (expected + 1)) (length copy :: n_leaked n), out1 ++ out2 ++ out3).

Fixpoint nail_loop (n : nail) (es : list nailEnv) : option (nail * list nailOut) :=
  match es with
  | [] => Some (n, [])
  | e :: es' => '(n', o) ← nail_step n e; '(n'', os) ← nail_loop n' es'; Some (n'', o ++ os)
  end.

(** ** Memory *)

Lemma poke_in m pos src : pos + length src ≤ length m → poke m pos src = Some (take pos m ++ src ++ drop (pos + length src) m).
Proof. intros. unfold poke. by rewrite decide_True. Qed.

Lemma length_poke m pos src m' : poke m pos src = Some m' → length m' = length m.
Proof. unfold poke. case_decide; [|done]. intros [= <-]. rewrite !length_app, length_take, length_drop. lia. Qed.

Lemma peek_poke_same m pos src m' : poke m pos src = Some m' → peek m' pos (length src) = Some src.
Proof.
  unfold poke. case_decide; [|done]. intros [= <-].
  pose proof (peek_app (take pos m) src (drop (pos + length src) m)) as Hp. rewrite length_take in Hp. by rewrite Nat.min_l in Hp by lia.
Qed.

(** A write to the right of the bytes that are read. *)
Lemma peek_poke_right m pos src m' pos' n : poke m pos src = Some m' → pos' + n ≤ pos → peek m' pos' n = peek m pos' n.
Proof.
  intros E Hn. unfold peek. rewrite (length_poke _ _ _ _ E). case_decide; [|done].
  unfold poke in E. case_decide; [|done]. injection E as <-. f_equal.
  rewrite drop_app_le by (rewrite length_take; lia). rewrite take_app_le by (rewrite length_drop, length_take; lia).
  rewrite skipn_firstn_comm, take_take. by rewrite Nat.min_l by lia.
Qed.

Lemma poke_defined m pos src : pos + length src ≤ length m → ∃ m', poke m pos src = Some m' ∧ length m' = length m.
Proof. intros H. rewrite (poke_in _ _ _ H). eexists. split; [done|]. eapply length_poke, poke_in, H. Qed.

Lemma read_le_some b pos n : pos + n ≤ length b → is_Some (read_le b pos n).
Proof. intros H. unfold read_le, peek. by rewrite decide_True. Qed.

(** What was written with [le_bytes] is read back. *)
Lemma read_le_poke b pos n z b' : poke b pos (le_bytes n z) = Some b' → (0 <= z < 256 ^ Z.of_nat n)%Z → read_le b' pos n = Some z.
Proof.
  intros E Hz. apply peek_poke_same in E. rewrite length_le_bytes in E. unfold read_le. rewrite E. cbn. by rewrite of_le_bytes.
Qed.

Lemma read_le_poke_right b pos src b' pos' n : poke b pos src = Some b' → pos' + n ≤ pos → read_le b' pos' n = read_le b pos' n.
Proof. intros E Hn. unfold read_le. by rewrite (peek_poke_right _ _ _ _ _ _ E Hn). Qed.

(** ** What hammer sends *)

Definition sent (os : list hammerOut) : list (list byte) := omap (λ o, match o with hSend m => Some m | hError _ => None end) os.

(** The messages carry these numbers. *)
Definition numbered (zs : list Z) (ms : list (list byte)) : Prop :=
  Forall2 (λ z m, length m = BUFFER_SIZE ∧ read_le m SEQ_OFF 8 = Some z) zs ms.

Lemma hammer_init_run junk : ∃ b, hammer_init junk = Some b ∧ length b = BUFFER_SIZE ∧ read_le b SEQ_OFF 8 = Some 0%Z.
Proof.
  unfold hammer_init. pose proof (length_fresh junk BUFFER_SIZE) as Hf.
  destruct (poke_defined (fresh junk BUFFER_SIZE) 0 [x41; NUL]) as (b & E & Hl); [rewrite Hf; vm_compute; lia|].
  rewrite Hf in Hl. rewrite E, bind_some.
  destruct (poke_defined b SEQ_OFF (le_bytes 8 0)) as (b' & E' & Hl'); [rewrite Hl; unfold BUFFER_SIZE, SEQ_OFF; cbn; lia|].
  exists b'. split_and!; [done|congruence|]. by apply (read_le_poke _ _ _ _ _ E').
Qed.

Lemma hammer_step_run b e z :
  length b = BUFFER_SIZE → read_le b SEQ_OFF 8 = Some z → (0 <= z)%Z → (z + 1 < 2 ^ 64)%Z →
  ∃ b' err, hammer_step b e = Some (b', hSend b' :: err) ∧ sent err = [] ∧ length b' = BUFFER_SIZE ∧ read_le b' SEQ_OFF 8 = Some (z + 1)%Z.
Proof.
  intros Hl Hz H0 H64. unfold hammer_step. rewrite Hz, bind_some. rewrite (wrapu_id 64 (z + 1)) by lia.
  destruct (poke_defined b SEQ_OFF (le_bytes 8 (z + 1))) as (b1 & E1 & Hl1); [rewrite length_le_bytes, Hl; unfold BUFFER_SIZE, SEQ_OFF; lia|].
  rewrite E1, bind_some.
  destruct (poke_defined b1 S_OFF (le_bytes 4 (uint32 (tv_sec e)))) as (b2 & E2 & Hl2); [rewrite length_le_bytes, Hl1, Hl; unfold BUFFER_SIZE, S_OFF; lia|].
  rewrite E2, bind_some.
  destruct (poke_defined b2 US_OFF (le_bytes 4 (uint32 (tv_usec e)))) as (b3 & E3 & Hl3); [rewrite length_le_bytes, Hl2, Hl1, Hl; unfold BUFFER_SIZE, US_OFF; lia|].
  rewrite E3, bind_some. eexists b3, _. split_and!; [done|by case_decide|congruence|].
  rewrite (read_le_poke_right _ _ _ _ _ _ E3), (read_le_poke_right _ _ _ _ _ _ E2) by (unfold SEQ_OFF, S_OFF, US_OFF; lia).
  apply (read_le_poke _ _ _ _ _ E1). change (256 ^ Z.of_nat 8)%Z with (2 ^ 64)%Z. lia.
Qed.

Lemma hammer_loop_run es : ∀ b z,
  length b = BUFFER_SIZE → read_le b SEQ_OFF 8 = Some z → (0 <= z)%Z → (z + Z.of_nat (length es) < 2 ^ 64)%Z →
  ∃ os, hammer_loop b es = Some os ∧ numbered (seqZ (z + 1) (Z.of_nat (length es))) (sent os).
Proof.
  induction es as [|e es IH]; intros b z Hl Hz H0 H64; cbn [hammer_loop].
  - exists []. split; [done|constructor].
  - cbn [length] in H64. destruct (hammer_step_run b e z) as (b' & err & E & Hs & Hl' & Hz'); [done|done|lia|lia|].
    rewrite E, bind_some. destruct (IH b' (z + 1)%Z) as (os & E' & Hn); [done|done|lia|lia|].
    rewrite E', bind_some. eexists. split; [done|]. unfold sent. rewrite omap_app. change (omap _ (hSend b' :: err)) with (b' :: sent err).
    rewrite Hs. cbn [length]. rewrite seqZ_cons by lia. constructor; [done|].
    replace (Z.succ (z + 1)) with (z + 1 + 1)%Z by lia. by replace (Z.pred (Z.of_nat (S (length es)))) with (Z.of_nat (length es)) by lia.
Qed.

Lemma hammer_run junk es :
  (Z.of_nat (length es) < 2 ^ 64)%Z →
  ∃ os, hammer junk es = Some os ∧ numbered (seqZ 1 (Z.of_nat (length es))) (sent os).
Proof.
  intros H64. unfold hammer. destruct (hammer_init_run junk) as (b & E & Hl & Hz). rewrite E, bind_some. by apply (hammer_loop_run es b 0).
Qed.

(** ** What nail reports *)

Definition gap_width (o : nailOut) : Z := match o with nGap e s => s - e | _ => 0 end.
Definition gaps (os : list nailOut) : Z := foldr (λ o w, gap_width o + w)%Z 0%Z os.
Definition is_gap (o : nailOut) : Prop := match o with nGap _ _ => True | _ => False end.

Lemma gaps_app os os' : gaps (os ++ os') = (gaps os + gaps os')%Z.
Proof. unfold gaps. induction os as [|o os IH]; cbn; [done|]. rewrite IH. lia. Qed.

(** Iterations that receive messages, with memory for the copies. *)
Definition receives (m : list byte) (e : nailEnv) : Prop := n_recv e = rMsg m ∧ n_mem e = true.

Lemma zmq_recv_full b m : length b = BUFFER_SIZE → length m = BUFFER_SIZE → zmq_recv b (rMsg m) = Some (Z.of_nat BUFFER_SIZE, m).
Proof.
  intros Hb Hm. unfold zmq_recv. rewrite take_ge by lia. rewrite poke_in by (cbn; lia). rewrite bind_some. cbn [take app].
  rewrite drop_ge by lia. by rewrite app_nil_r, Hm.
Qed.

Lemma nail_step_run n e m z x :
  length (n_buffer n) = BUFFER_SIZE → n_expected n = x → receives m e → length m = BUFFER_SIZE → read_le m SEQ_OFF 8 = Some z →
  ∃ n' os, nail_step n e = Some (n', os) ∧ length (n_buffer n') = BUFFER_SIZE ∧ n_expected n' = wrapu 64 (z + 1)
    ∧ n_leaked n' = BUFFER_SIZE :: n_leaked n ∧ gaps os = (z - x)%Z ∧ (Forall (λ o, ¬ is_gap o) os ↔ z = x).
Proof.
  intros Hb <- [Hr Hmem] Hm Hz. unfold nail_step. rewrite Hr, Hmem, (zmq_recv_full _ _ Hb Hm), bind_some.
  unfold copy_buffer. rewrite decide_False by lia. rewrite Nat2Z.id. unfold peek. rewrite decide_True by lia. cbn [drop]. rewrite bind_some.
  rewrite Hz, bind_some. destruct (read_le_some m S_OFF 4) as [s Es]; [rewrite Hm; vm_compute; lia|]. rewrite Es, bind_some.
  rewrite (take_ge m) by lia. rewrite Hm.
  do 2 case_decide; eexists _, _; (split; [done|]); cbn [n_buffer n_expected n_leaked app gaps foldr gap_width];
    (split_and!; [done|first [done|congruence]|done|unfold gaps; cbn; lia|]); rewrite ?Forall_cons, Forall_nil; cbn; naive_solver lia.
Qed.

(** Whatever increasing numbers arrive, the widths of the gaps are the
    numbers that did not. *)
Lemma nail_loop_run ne : ∀ n zs ms x,
  Forall2 receives ms ne → numbered zs ms → StronglySorted Z.lt zs → Forall (λ z, x <= z < 2 ^ 64)%Z zs → (0 <= x)%Z →
  length (n_buffer n) = BUFFER_SIZE → n_expected n = wrapu 64 x →
  ∃ n' os, nail_loop n ne = Some (n', os) ∧ n_leaked n' = replicate (length ms) BUFFER_SIZE ++ n_leaked n
    ∧ (gaps os + Z.of_nat (length ms) = default (x - 1) (last zs) + 1 - x)%Z
    ∧ (Forall (λ o, ¬ is_gap o) os ↔ zs = seqZ x (Z.of_nat (length ms))).
Proof.
  induction ne as [|e ne IH]; intros n zs ms x Hr Hn Hs Hx H0 Hb He; cbn [nail_loop].
  - inversion Hr; subst. inversion Hn; subst. eexists _, _. split; [done|]. cbn. split_and!; [done|lia|done].
  - inversion Hr as [|m ? ms' ? Hr1 Hr']; subst. inversion Hn as [|z ? zs' ? [Hm Hz] Hn']; subst.
    inversion Hs as [|?? Hs' Hlt]; subst. apply Forall_cons in Hx as [Hx Hx'].
    rewrite wrapu_id in He by lia.
    destruct (nail_step_run n e m z x) as (n1 & os & E & Hb1 & He1 & Hl1 & Hg & Hno); [done..|]. rewrite E, bind_some.
    destruct (IH n1 zs' ms' (z + 1)%Z) as (n2 & os' & E' & Hl2 & Hg' & Hno'); [done|done|done| |lia|done|done|].
    { rewrite Forall_forall in Hlt, Hx' |- *. intros y Hy. specialize (Hlt y Hy). specialize (Hx' y Hy). cbn in Hx'. lia. }
    rewrite E', bind_some. eexists _, _. split; [done|]. rewrite gaps_app, Hl2, Hl1. cbn [length]. split_and!.
    + rewrite replicate_S_end, <-(assoc_L (++)). done.
    + rewrite last_cons. destruct (last zs') as [y|]; cbn in *; lia.
    + rewrite Forall_app, Hno, Hno', (seqZ_cons x) by lia. replace (Z.succ x) with (x + 1)%Z by lia.
      replace (Z.pred (Z.of_nat (S (length ms')))) with (Z.of_nat (length ms')) by lia. split; [|by intros [= -> ->]]. intros [-> ->]. done.
Qed.

(** ** Together *)

Lemma numbered_sublist zs ms got : numbered zs ms → got `sublist_of` ms → ∃ ys, ys `sublist_of` zs ∧ numbered ys got.
Proof.
  intros Hn Hg. revert zs Hn. induction Hg as [|m got ms Hg IH|m got ms Hg IH]; intros zs Hn.
  - exists []. split; [apply sublist_nil_l|constructor].
  - inversion Hn as [|z ? zs' ? Hz Hn']; subst. destruct (IH _ Hn') as (ys & Hys & Hny). exists (z :: ys). split; [by constructor|by constructor].
  - inversion Hn as [|z ? zs' ? Hz Hn']; subst. destruct (IH _ Hn') as (ys & Hys & Hny). exists ys. split; [by constructor|done].
Qed.

Lemma sorted_sublist (ys zs : list Z) : ys `sublist_of` zs → StronglySorted Z.lt zs → StronglySorted Z.lt ys.
Proof.
  intros Hs. induction Hs as [|z ys zs Hs IH|z ys zs Hs IH]; [done| |].
  - inversion 1; subst. constructor; [by apply IH|].
    rewrite Forall_forall in *. intros y Hy. apply (elem_of_sublist _ _ _ Hy) in Hs. auto.
  - inversion 1; subst. by apply IH.
Qed.

Lemma sorted_seqZ n : ∀ x, StronglySorted Z.lt (seqZ x (Z.of_nat n)).
Proof.
  induction n as [|n IH]; intros x; [constructor|]. rewrite seqZ_cons by lia. replace (Z.pred (Z.of_nat (S n))) with (Z.of_nat n) by lia.
  constructor; [apply IH|]. rewrite Forall_forall. intros y Hy%elem_of_seqZ. lia.
Qed.

Lemma numbered_fun ys zs ms : numbered ys ms → numbered zs ms → ys = zs.
Proof.
  intros Hy. revert zs. induction Hy as [|y m ys ms [_ Hm] Hy IH]; intros zs Hz; inversion Hz as [|z ? zs' ? [_ Hm'] Hz']; subst; [done|].
  f_equal; [congruence|by apply IH].
Qed.

(** A selection of the messages that is numbered 1, 2, ... is a beginning. *)
Lemma numbered_prefix n ms got ys :
  numbered (seqZ 1 (Z.of_nat n)) ms → got `sublist_of` ms → numbered ys got →
  ys = seqZ 1 (Z.of_nat (length got)) ↔ got = take (length got) ms.
Proof.
  intros Hn Hg Hy. split; intros E.
  - apply list_eq. intros i. destruct (got !! i) as [m|] eqn:Em.
    + subst ys. pose proof (lookup_lt_Some _ _ _ Em) as Hi. rewrite lookup_take_lt by done.
      destruct (Forall2_lookup_r _ _ _ _ _ Hy Em) as (y & Ey & _ & Hym). apply lookup_seqZ in Ey as [-> _].
      apply list_elem_of_lookup_2 in Em. apply (elem_of_sublist _ _ _ Em), list_elem_of_lookup_1 in Hg as [j Ej].
      destruct (Forall2_lookup_r _ _ _ _ _ Hn Ej) as (z & Ez & _ & Hzm). apply lookup_seqZ in Ez as [-> _].
      rewrite Hym in Hzm. injection Hzm as Hij. replace i with j by lia. done.
    + symmetry. apply lookup_take_ge. by apply lookup_ge_None in Em.
  - apply (numbered_fun _ _ got); [done|]. rewrite E at 2. pose proof (sublist_length _ _ Hg) as Hl.
    pose proof (Forall2_length _ _ _ Hn) as Hl'. rewrite length_seqZ in Hl'.
    replace (seqZ 1 (Z.of_nat (length got))) with (take (length got) (seqZ 1 (Z.of_nat n))); [by apply Forall2_take|].
    replace (Z.of_nat n) with (Z.of_nat (length got) + (Z.of_nat n - Z.of_nat (length got)))%Z by lia. rewrite seqZ_app by lia.
    rewrite take_app_le by (rewrite length_seqZ; lia). apply take_ge. rewrite length_seqZ. lia.
Qed.

(** hammer removes the limit of its queue before it binds; nail removes its
    own after it has connected, and keeps the default. *)
Lemma nail_limit_late v : hwm_used ZMQ_SNDHWM v hammer_calls = 0%Z ∧ hwm_used ZMQ_RCVHWM v nail_calls = v.
Proof. done. Qed.

(** C32: what hammer sends nail checks. In less than 2^64 iterations hammer
    is defined and sends one message each; whichever of them arrive, in
    order, nail is defined, has leaked 223 bytes for each, and the widths of
    the gaps it has printed are the number of messages that were lost before
    the last one it received; it prints none exactly if it received the
    first messages without exception. *)
Theorem hammer_nail junk es :
  (Z.of_nat (length es) < 2 ^ 64)%Z →
  ∃ os, hammer junk es = Some os ∧ length (sent os) = length es
    ∧ ∀ junk' got ne, got `sublist_of` sent os → Forall2 receives got ne →
        ∃ n out, nail_loop (nail_init junk') ne = Some (n, out)
          ∧ n_leaked n = replicate (length got) BUFFER_SIZE
          ∧ (∀ m, last got = Some m → read_le m SEQ_OFF 8 = Some (gaps out + Z.of_nat (length got))%Z)
          ∧ (Forall (λ o, ¬ is_gap o) out ↔ got = take (length got) (sent os)).
Proof.
  intros Hes. destruct (hammer_run junk es Hes) as (os & E & Hn). exists os. split; [done|].
  pose proof (Forall2_length _ _ _ Hn) as Hl. rewrite length_seqZ, Nat2Z.id in Hl. split; [done|].
  intros junk' got ne Hg Hne. destruct (numbered_sublist _ _ _ Hn Hg) as (ys & Hys & Hny).
  destruct (nail_loop_run ne (nail_init junk') ys got 1) as (n & out & En & Hk & Hgap & Hno); [done|done| | |done|by apply length_fresh|done|].
  { by eapply sorted_sublist, sorted_seqZ. }
  { rewrite Forall_forall. intros y Hy. apply (elem_of_sublist _ _ _ Hy), elem_of_seqZ in Hys. lia. }
  exists n, out. split_and!; [done|by rewrite Hk, app_nil_r| |by rewrite Hno, (numbered_prefix _ _ _ _ Hn Hg Hny)].
  intros m Hm. rewrite last_lookup in Hm. rewrite last_lookup in Hgap. rewrite (Forall2_length _ _ _ Hny) in Hgap.
  destruct (Forall2_lookup_r _ _ _ _ _ Hny Hm) as (y & Ey & _ & Hym). rewrite Ey in Hgap. cbn in Hgap. rewrite Hym. f_equal. lia.
Qed.

Lemma hammer_nail_witness :
  ∃ os, hammer (λ _, NUL) [mkHammerEnv 5 6 223 0; mkHammerEnv 5 7 (-1) 11; mkHammerEnv 6 0 223 0] = Some os ∧ length (sent os) = 3
    ∧ ∃ n out, nail_loop (nail_init (λ _, NUL))
        ((λ m, mkNailEnv (rMsg m) true 9) <$> [sent os !!! 0; sent os !!! 2]) = Some (n, out)
        ∧ n_leaked n = [223; 223] ∧ out = [nSeconds 5 1; nGap 2 3].
Proof.
  destruct (hammer_nail (λ _, NUL) [mkHammerEnv 5 6 223 0; mkHammerEnv 5 7 (-1) 11; mkHammerEnv 6 0 223 0]) as (os & E & Hl & H); [done|].
  exists os. split; [done|]. split; [exact Hl|].
  destruct (H (λ _, NUL) [sent os !!! 0; sent os !!! 2] ((λ m, mkNailEnv (rMsg m) true 9) <$> [sent os !!! 0; sent os !!! 2])) as (n & out & En & Hk & _).
  { destruct (sent os) as [|a [|b [|c [|]]]]; try done. cbn. do 2 constructor. by constructor. }
  { by repeat constructor. }
  exists n, out. split; [done|]. split; [exact Hk|]. vm_compute in E. injection E as <-. vm_compute in En. by injection En as _ <-.
Defined.

(** What nail does not check. An iteration is defined exactly if a
    message was received that fits the buffer and the copy was allocated: a
    failed receive, which is printed, and a message of more than 223 bytes
    are undefined. *)
Theorem nail_defined n e :
  length (n_buffer n) = BUFFER_SIZE →
  is_Some (nail_step n e) ↔ n_mem e = true ∧ ∃ m, n_recv e = rMsg m ∧ length m ≤ BUFFER_SIZE.
Proof.
  intros Hb. unfold nail_step. destruct (n_recv e) as [m|c]; cbn [zmq_recv].
  - destruct (poke_defined (n_buffer n) 0 (take BUFFER_SIZE m)) as (b & E & Hl); [rewrite length_take; lia|]. rewrite E, !bind_some.
    unfold copy_buffer. rewrite decide_False by lia. destruct (n_mem e); [|split; [by intros []|by intros []]]. rewrite Nat2Z.id. unfold peek.
    destruct (decide (0 + length m ≤ length b)) as [Hm|Hm].
    + rewrite bind_some. destruct (read_le_some b SEQ_OFF 8) as [z Ez]; [rewrite Hl, Hb; vm_compute; lia|]. rewrite Ez, bind_some.
      destruct (read_le_some b S_OFF 4) as [y Ey]; [rewrite Hl, Hb; vm_compute; lia|]. rewrite Ey, bind_some.
      split; [|do 2 case_decide; by eexists]. intros _. split; [done|]. exists m. split; [done|lia].
    + split; [by intros []|]. intros (_ & ? & [= <-] & ?). lia.
  - rewrite bind_some. unfold copy_buffer. rewrite decide_True by lia. split; [by intros []|]. by intros (_ & ? & ? & _).
Qed.

Lemma nail_defined_witness : ¬ is_Some (nail_step (nail_init (λ _, NUL)) (mkNailEnv (rError 4) true 0)).
Proof. rewrite (nail_defined (nail_init (λ _, NUL)) (mkNailEnv (rError 4) true 0)) by apply length_fresh. by intros (_ & ? & ? & _). Defined.

End HammerNail.
