(* ===== verification/QueueBench.v ===== *)
(** * The queue benchmark (src/src/queuebench.c)

    [main] starts producers ([dealer]) and consumers ([worker]) that share a
    queue of OpenMAMA or zmq sockets until ten million events were received.
    The threads are interleaved step by step: a step is one access to a
    shared counter or to the queue (the sockets are only used inside [gLock],
    so a critical section is one step), with what the thread does on its own
    variables after it.  The queue and zmq are not in src/: whether an event
    is accepted, which sockets a message reaches and whether a consumer finds
    one is arbitrary. *)

From S2P Require Import Prelude CLib Naming NamingProofs Monitor CNum HammerNail.
Import ZN Monitor.
Import HammerNail (read_le, read_le_some).

Module QueueBench.

Definition QB_SIZE : Z := 10000000.
Definition QUEUE_WOMBAT : Z := 1.
Definition QUEUE_ZMQ : Z := 2.

(** ** The threads *)

(** Where a producer is, and what it has read ([currentSize]). *)
Inductive dealer_pc := dRead | dSend (currentSize : Z) | dIncr | dDone.
Record dealer := mkDealer { d_pc : dealer_pc; d_local : Z }.

(** Where a consumer is, and what it has read ([recEv]); [w_queue]: what its
    socket has received. *)
Inductive worker_pc := wRead | wTake (recEv : Z) | wIncr (recEv : Z) | wDone.
Record worker := mkWorker { w_pc : worker_pc; w_local : Z; recvSeqNo : Z; lastSeqNo : Z; w_queue : list (list byte) }.

(** [mWombatQueue]: the number of events it holds; all are the same. *)
Record qbn := mkQbn {
  gSentEvents : Z;
  gReceivedEvents : Z;
  mWombatQueue : Z;
  dealers : list dealer;
  workers : list worker }.

Definition set_queue q (s : qbn) := mkQbn (gSentEvents s) (gReceivedEvents s) q (dealers s) (workers s).
Definition set_dealer i d (s : qbn) := mkQbn (gSentEvents s) (gReceivedEvents s) (mWombatQueue s) (<[i := d]> (dealers s)) (workers s).
Definition set_worker i w (s : qbn) := mkQbn (gSentEvents s) (gReceivedEvents s) (mWombatQueue s) (dealers s) (<[i := w]> (workers s)).
Definition incr_sent (s : qbn) := mkQbn (gSentEvents s + 1) (gReceivedEvents s) (mWombatQueue s) (dealers s) (workers s).

Definition wQueueCb (s : qbn) : qbn := mkQbn (gSentEvents s) (gReceivedEvents s + 1) (mWombatQueue s) (dealers s) (workers s).

Inductive qbOut :=
  | oSpammed (currentSize : Z) (idx : nat)
  | oDoneSpamming (idx : nat) (local : Z)
  | oChewed (recEv : Z) (idx : nat).

(** What the queue or zmq answers to a producer: whether the event is
    accepted, whether the message reaches the socket of a consumer. *)
Record answer := mkAnswer { a_accepted : bool; a_reaches : nat → bool }.

(** The buffer of 6 bytes. *)
Definition dealer_msg (currentSize : Z) : list byte := [x41; NUL] ++ le_bytes 4 (currentSize mod 2 ^ 32).

Definition deliver (a : answer) (msg : list byte) (j : nat) (w : worker) : worker :=
  if a_reaches a j then mkWorker (w_pc w) (w_local w) (recvSeqNo w) (lastSeqNo w) (w_queue w ++ [msg]) else w.

Definition zmq_send (a : answer) (msg : list byte) (s : qbn) : qbn :=
  mkQbn (gSentEvents s) (gReceivedEvents s) (mWombatQueue s) (dealers s) (imap (deliver a msg) (workers s)).

Definition wombatQueue_enqueue (a : answer) (s : qbn) : qbn :=
  if a_accepted a then set_queue (mWombatQueue s + 1) s else s.

Section Threads.

Context (gQueueChoice : Z).

(** One step of a producer; [None]: it has none. *)
Definition dealer_step (i : nat) (a : answer) (s : qbn) : option (qbn * list qbOut) :=
  ep ← dealers s !! i;
  match d_pc ep with
  | dRead =>
      let currentSize := gSentEvents s in
      if decide (currentSize <= QB_SIZE)%Z
      then Some (set_dealer i (mkDealer (dSend currentSize) (d_local ep)) s, [])
      else Some (set_dealer i (mkDealer dDone (d_local ep)) s, [oDoneSpamming i (d_local ep)])
  | dSend currentSize =>
      let s := if decide (gQueueChoice = QUEUE_ZMQ) then zmq_send a (dealer_msg currentSize) s else s in
      let s := if decide (gQueueChoice = QUEUE_WOMBAT) then wombatQueue_enqueue a s else s in
      Some (set_dealer i (mkDealer dIncr (d_local ep + 1)) s,
        if decide (currentSize mod 1000000 = 0)%Z then [oSpammed currentSize i] else [])
  | dIncr => Some (incr_sent (set_dealer i (mkDealer dRead (d_local ep)) s), [])
  | dDone => None
  end.

Definition chewed (recEv : Z) (i : nat) : list qbOut :=
  if decide (0 < recEv ∧ recEv mod 1000000 = 0)%Z then [oChewed recEv i] else [].

Definition set_wpc (pc : worker_pc) (w : worker) : worker := mkWorker pc (w_local w) (recvSeqNo w) (lastSeqNo w) (w_queue w).

(** One step of a consumer; [found]: whether the receive, or the dispatch,
    does not return empty-handed. *)
Definition worker_step (i : nat) (found : bool) (s : qbn) : option (qbn * list qbOut) :=
  ep ← workers s !! i;
  match w_pc ep with
  | wRead =>
      let recEv := gReceivedEvents s in
      Some (set_worker i (set_wpc (if decide (recEv < QB_SIZE)%Z then wTake recEv else wDone) ep) s, [])
  | wTake recEv =>
      if decide (gQueueChoice = QUEUE_ZMQ) then
        match found, w_queue ep with
        | true, zmsg :: q =>
            seqNo ← read_le zmsg 2 4;
            Some (set_worker i (mkWorker (wIncr recEv) (w_local ep) (wraps 32 seqNo) (lastSeqNo ep) q) s, [])
        | _, _ => Some (set_worker i (set_wpc wRead ep) s, [])
        end
      else if decide (gQueueChoice = QUEUE_WOMBAT) then
        if decide (found = true ∧ 0 < mWombatQueue s)%Z
        then Some (set_worker i (set_wpc (wIncr recEv) ep) (set_queue (mWombatQueue s - 1) s), [])
        else Some (set_worker i (set_wpc wRead ep) s, chewed recEv i)
      else Some (set_worker i (set_wpc wRead ep) s, chewed recEv i)
  | wIncr recEv =>
      if decide (gQueueChoice = QUEUE_ZMQ)
      then Some (set_worker i (mkWorker wRead (w_local ep + 1) (recvSeqNo ep) (recvSeqNo ep) (w_queue ep)) (wQueueCb s), chewed recEv i)
      else Some (set_worker i (set_wpc wRead ep) (wQueueCb s), chewed recEv i)
  | wDone => None
  end.

Inductive qb_step (s : qbn) : qbn → Prop :=
  | qb_dealer i a s' out : dealer_step i a s = Some (s', out) → qb_step s s'
  | qb_worker i found s' out : worker_step i found s = Some (s', out) → qb_step s s'.

End Threads.

(** ** main *)

Inductive qbExit := eUsage | eFirstArg.

(** What the calls of the setup answer: the blocks of [calloc] (the handle,
    the threads and endpoints of the consumers and of the producers), the
    sockets, and whether the threads start. *)
Record qbEnv := mkQbEnv {
  q_calloc : nat → bool;
  q_socket : nat → Z;
  q_thread : nat → bool }.

Inductive qbCall :=
  | cCtxNew
  | cQueueCreate
  | cSocketPub (s : Z) | cSndHwm (s v : Z) | cBind (s : Z) (uri : list byte)
  | cSocketSub (s : Z) | cRcvHwm (s v : Z) | cRcvTimeo (s v : Z) | cSubscribe (s : Z) (topic : list byte) | cConnect (s : Z) (uri : list byte).

(** [strcmp] with a literal. *)
Definition queue_choice (arg : list byte) : option Z :=
  if decide (arg = lit "wombat") then Some QUEUE_WOMBAT
  else if decide (arg = lit "zmq") then Some QUEUE_ZMQ else None.

(** The arguments, [argv] with its final NULL. *)
Definition qb_args (argv : list (list byte)) : option (qbExit + Z * Z * Z) :=
  let argc := length argv in
  if decide (argc = 1 ∨ 4 < argc) then Some (inl eUsage)
  else
    arg1 ← argv !! 1;
    match queue_choice arg1 with
    | None => Some (inl eFirstArg)
    | Some choice =>
        arg2 ← argv !! 2; pubs ← atoi arg2;
        arg3 ← argv !! 3; subs ← atoi arg3;
        Some (inr (choice, pubs, subs))
    end.

Definition mUri (choice : Z) : list byte := if decide (choice = QUEUE_ZMQ) then lit "inproc://worker" else [].

Definition queue_calls (choice : Z) : list qbCall :=
  (if decide (choice = QUEUE_ZMQ) then [cCtxNew] else []) ++ (if decide (choice = QUEUE_WOMBAT) then [cQueueCreate] else []).

(** The producers share the first socket. *)
Definition pub_calls (env : qbEnv) (choice : Z) (i : nat) : list qbCall :=
  if decide (0 = i) then [cSocketPub (q_socket env 0); cSndHwm (q_socket env 0) 0; cBind (q_socket env 0) (mUri choice)] else [].

Definition sub_calls (env : qbEnv) (choice : Z) (n i : nat) : list qbCall :=
  let s := q_socket env (n + i) in
  [cSocketSub s; cRcvHwm s 0; cRcvTimeo s 100; cSubscribe s (lit "A"); cConnect s (mUri choice)].

(** Until the threads are started: the calls and the state. A block that was
    not allocated is only used if the loop has an iteration; a thread that
    did not start is joined through a handle of zeroes. *)
Definition qb_setup (env : qbEnv) (choice pubs subs : Z) : option (list qbCall * qbn) :=
  let np := Z.to_nat pubs in
  let ns := Z.to_nat subs in
  if negb (q_calloc env 0) then None
  else if decide (0 < ns ∧ (q_calloc env 1 && q_calloc env 3) = false) then None
  else if decide (0 < np ∧ (q_calloc env 2 && q_calloc env 4) = false) then None
  else if forallb (q_thread env) (seq 0 (ns + np)) then
    Some (queue_calls choice ++ concat (pub_calls env choice <$> seq 0 np)
          ++ concat (sub_calls env choice (if decide (np = 0) then 0 else 1) <$> seq 0 ns),
          mkQbn 0 0 0 (replicate np (mkDealer dRead 0)) (replicate ns (mkWorker wRead 0 0 0 [])))
  else None.

Definition qb_main (env : qbEnv) (argv : list (list byte)) : option (qbExit + list qbCall * qbn) :=
  r ← qb_args argv;
  match r with
  | inl e => Some (inl e)
  | inr (choice, pubs, subs) => inr <$> qb_setup env choice pubs subs
  end.

(** [main] ends when it has joined all threads. *)
Definition all_done (s : qbn) : Prop :=
  Forall (λ d, d_pc d = dDone) (dealers s) ∧ Forall (λ w, w_pc w = wDone) (workers s).

(** ** Sums over the threads *)

Definition zsum {A} (f : A → Z) (l : list A) : Z := foldr (λ x n, f x + n)%Z 0%Z l.
#[local] Arguments zsum : simpl never.

Lemma zsum_insert {A} (f : A → Z) l i x y : l !! i = Some x → zsum f (<[i := y]> l) = (zsum f l - f x + f y)%Z.
Proof.
  revert i. induction l as [|z l IH]; intros [|i]; [done|done|intros [= ->]; unfold zsum; cbn; lia|].
  intros H. change (<[S i := y]> (z :: l)) with (z :: <[i := y]> l). specialize (IH i H). unfold zsum in *. cbn [foldr]. lia.
Qed.

Lemma zsum_bounds {A} (f : A → Z) l lo hi :
  (∀ x, lo <= f x <= hi)%Z → (lo * Z.of_nat (length l) <= zsum f l <= hi * Z.of_nat (length l))%Z.
Proof. intros Hf. unfold zsum. induction l as [|x l IH]; cbn [foldr length]; [lia|]. specialize (Hf x). lia. Qed.

Lemma zsum_imap {A} (f : A → Z) (g : nat → A → A) l : (∀ i x, f (g i x) = f x) → zsum f (imap g l) = zsum f l.
Proof. revert g. unfold zsum. induction l as [|x l IH]; intros g Hg; [done|]. cbn. rewrite Hg, (IH (g ∘ S)); [done|]. intros. apply Hg. Qed.

Lemma zsum_0 {A} (f : A → Z) l : Forall (λ x, f x = 0%Z) l → zsum f l = 0%Z.
Proof. unfold zsum. induction 1 as [|x l Hx Hl IH]; cbn; lia. Qed.

Lemma zsum_nonneg {A} (f : A → Z) l : (∀ x, 0 <= f x)%Z → (0 <= zsum f l)%Z.
Proof. intros Hf. unfold zsum. induction l as [|x l IH]; cbn; [lia|]. specialize (Hf x). lia. Qed.

(** ** The invariant *)

(** Between a read of the counter and the increment that follows it. *)
Definition d_flying (d : dealer) : Z := match d_pc d with dSend _ | dIncr => 1 | _ => 0 end.
Definition w_flying (w : worker) : Z := match w_pc w with wTake _ | wIncr _ => 1 | _ => 0 end.
(** Enqueued or received, not yet counted. *)
Definition d_uncounted (d : dealer) : Z := match d_pc d with dIncr => 1 | _ => 0 end.
Definition w_uncounted (w : worker) : Z := match w_pc w with wIncr _ => 1 | _ => 0 end.

Definition dealer_ok (sent : Z) (d : dealer) : Prop :=
  match d_pc d with dSend cs => (0 <= cs <= QB_SIZE)%Z | dDone => (QB_SIZE < sent)%Z | _ => True end.
Definition worker_ok (received : Z) (w : worker) : Prop :=
  Forall (λ m, length m = 6) (w_queue w) ∧ (w_pc w = wDone → (QB_SIZE <= received)%Z).

Record qb_inv (np ns : nat) (s : qbn) : Prop := {
  inv_np : length (dealers s) = np;
  inv_ns : length (workers s) = ns;
  inv_nonneg : (0 <= gSentEvents s ∧ 0 <= gReceivedEvents s ∧ 0 <= mWombatQueue s)%Z;
  inv_sent : (gSentEvents s + zsum d_flying (dealers s) <= QB_SIZE + Z.of_nat np)%Z;
  inv_received : (gReceivedEvents s + zsum w_flying (workers s) <= QB_SIZE - 1 + Z.of_nat ns)%Z;
  inv_local : zsum d_local (dealers s) = (gSentEvents s + zsum d_uncounted (dealers s))%Z;
  inv_dealers : Forall (dealer_ok (gSentEvents s)) (dealers s);
  inv_workers : Forall (worker_ok (gReceivedEvents s)) (workers s) }.

Lemma qb_size_pos : (0 < QB_SIZE)%Z.
Proof. done. Qed.

Lemma flying_bounds (d : dealer) : (0 <= d_flying d <= 1)%Z.
Proof. unfold d_flying. destruct (d_pc d); lia. Qed.
Lemma w_flying_bounds (w : worker) : (0 <= w_flying w <= 1)%Z.
Proof. unfold w_flying. destruct (w_pc w); lia. Qed.

(** A thread that reads is not counted among the others. *)
Lemma reading_room {A} (f : A → Z) l i x : (∀ x, 0 <= f x <= 1)%Z → l !! i = Some x → f x = 0%Z → (zsum f l + 1 <= Z.of_nat (length l))%Z.
Proof.
  intros Hf Hi Hx. revert i Hi. unfold zsum. induction l as [|y l IH]; intros [|i] Hi; [done|done| |].
  - injection Hi as ->. cbn [foldr length]. pose proof (zsum_bounds f l 0 1 Hf) as Hb. unfold zsum in Hb. lia.
  - cbn [foldr length]. specialize (IH i Hi). specialize (Hf y). lia.
Qed.

Lemma workers_ok_mono r r' ws : (r <= r')%Z → Forall (worker_ok r) ws → Forall (worker_ok r') ws.
Proof. intros Hr Hws. eapply Forall_impl; [exact Hws|]. intros w [Hq Hd]. split; [done|]. intros Hw. specialize (Hd Hw). lia. Qed.

Lemma dealers_ok_mono r r' ds : (r <= r')%Z → Forall (dealer_ok r) ds → Forall (dealer_ok r') ds.
Proof. intros Hr Hds. eapply Forall_impl; [exact Hds|]. intros d. unfold dealer_ok. destruct (d_pc d); lia. Qed.

Lemma deliver_workers_ok r a msg ws : length msg = 6 → Forall (worker_ok r) ws → Forall (worker_ok r) (imap (deliver a msg) ws).
Proof.
  intros Hm Hws. rewrite Forall_lookup in *. intros i w. rewrite list_lookup_imap, fmap_Some. intros (w0 & Hw & ->).
  destruct (Hws _ _ Hw) as [Hq Hd]. unfold deliver. destruct (a_reaches a i); [|done]. split; [|done]. apply Forall_app. split; [done|by constructor].
Qed.

Section Steps.

Context (choice : Z) (np ns : nat).

Lemma inv_put_dealer s i d d' :
  qb_inv np ns s → dealers s !! i = Some d → dealer_ok (gSentEvents s) d' →
  (d_flying d' <= d_flying d ∨ (d_flying d = 0 ∧ gSentEvents s <= QB_SIZE))%Z →
  (d_local d' - d_uncounted d' = d_local d - d_uncounted d)%Z →
  qb_inv np ns (set_dealer i d' s).
Proof.
  intros [Hnp Hns Hn Hs Hr Hl Hd Hw] Hi Hok Hf Hc. constructor; try done; cbn.
  - by rewrite length_insert.
  - rewrite (zsum_insert _ _ _ _ _ Hi). pose proof (flying_bounds d'). destruct Hf as [Hf|[Hf HQ]]; [lia|].
    pose proof (reading_room d_flying _ _ _ flying_bounds Hi Hf). rewrite Hnp in *. lia.
  - rewrite !(zsum_insert _ _ _ _ _ Hi). lia.
  - by apply Forall_insert.
Qed.

Lemma inv_put_worker s i w w' :
  qb_inv np ns s → workers s !! i = Some w → worker_ok (gReceivedEvents s) w' →
  (w_flying w' <= w_flying w ∨ (w_flying w = 0 ∧ gReceivedEvents s < QB_SIZE))%Z →
  qb_inv np ns (set_worker i w' s).
Proof.
  intros [Hnp Hns Hn Hs Hr Hl Hd Hw] Hi Hok Hf. constructor; try done; cbn.
  - by rewrite length_insert.
  - rewrite (zsum_insert _ _ _ _ _ Hi). pose proof (w_flying_bounds w'). destruct Hf as [Hf|[Hf HQ]]; [lia|].
    pose proof (reading_room w_flying _ _ _ w_flying_bounds Hi Hf). rewrite Hns in *. lia.
  - by apply Forall_insert.
Qed.

Lemma inv_queue s q : qb_inv np ns s → (0 <= q)%Z → qb_inv np ns (set_queue q s).
Proof. intros [Hnp Hns Hn Hs Hr Hl Hd Hw] Hq. constructor; cbn; try done. lia. Qed.

Lemma length_dealer_msg cs : length (dealer_msg cs) = 6.
Proof. unfold dealer_msg. by rewrite length_app, length_le_bytes. Qed.

Lemma deliver_pc a msg i w : w_pc (deliver a msg i w) = w_pc w.
Proof. unfold deliver. by destruct (a_reaches a i). Qed.

Lemma inv_send s a cs : qb_inv np ns s → qb_inv np ns (zmq_send a (dealer_msg cs) s).
Proof.
  intros [Hnp Hns Hn Hs Hr Hl Hd Hw]. constructor; cbn; try done.
  - by rewrite length_imap.
  - rewrite zsum_imap; [done|]. intros j w. unfold w_flying. by rewrite deliver_pc.
  - by apply deliver_workers_ok, Hw; apply length_dealer_msg.
Qed.

Lemma inv_enqueue s a : qb_inv np ns s → qb_inv np ns (wombatQueue_enqueue a s).
Proof. intros Hs. unfold wombatQueue_enqueue. destruct (a_accepted a); [|done]. apply inv_queue; [done|]. destruct Hs. lia. Qed.

(** What a step of a producer is, and that it keeps the invariant. *)
Lemma dealer_step_inv s i a :
  qb_inv np ns s → i < np →
  (∃ d, dealers s !! i = Some d ∧ d_pc d = dDone ∧ dealer_step choice i a s = None)
  ∨ ∃ s' out, dealer_step choice i a s = Some (s', out) ∧ qb_inv np ns s'.
Proof.
  intros Hs Hi. pose proof (inv_np _ _ _ Hs) as Hnp. destruct (lookup_lt_is_Some_2 (dealers s) i) as [d Hd]; [lia|].
  pose proof (Forall_lookup_1 _ _ _ _ (inv_dealers _ _ _ Hs) Hd) as Hok. unfold dealer_ok in Hok.
  unfold dealer_step. rewrite Hd, bind_some. destruct (d_pc d) as [|cs| |] eqn:Epc.
  - right. destruct (decide _) as [HQ|HQ]; (eexists _, _; split; [done|]);
      (eapply inv_put_dealer; [done|done| | |]); cbn; unfold dealer_ok, d_flying, d_uncounted; rewrite ?Epc; cbn; try lia.
    destruct Hs as [_ _ ? _ _ _ _ _]. lia.
  - right. eexists _, _. split; [done|].
    assert (∀ t, qb_inv np ns t → dealers t = dealers s → qb_inv np ns (set_dealer i (mkDealer dIncr (d_local d + 1)) t)) as Hput.
    { intros t Ht E. eapply inv_put_dealer; [done|by rewrite E|done| |]; unfold d_flying, d_uncounted; rewrite ?Epc; cbn; lia. }
    apply Hput.
    + destruct (decide (choice = QUEUE_WOMBAT)); [apply inv_enqueue|]; destruct (decide (choice = QUEUE_ZMQ)); try done; by apply inv_send.
    + destruct (decide (choice = QUEUE_WOMBAT)), (decide (choice = QUEUE_ZMQ)); unfold wombatQueue_enqueue; try destruct (a_accepted a); done.
  - right. eexists _, _. split; [done|]. destruct Hs as [_ Hns Hn Hsn Hr Hl Hds Hw]. constructor; cbn; try done.
    + by rewrite length_insert.
    + lia.
    + rewrite (zsum_insert _ _ _ _ _ Hd). unfold d_flying at 2 3. rewrite Epc. cbn. lia.
    + rewrite !(zsum_insert _ _ _ _ _ Hd). unfold d_uncounted at 2 3. rewrite Epc. cbn. lia.
    + apply Forall_insert; [|done]. eapply dealers_ok_mono, Hds. lia.
  - left. by exists d.
Qed.

Lemma worker_step_inv s i found :
  qb_inv np ns s → i < ns →
  (∃ w, workers s !! i = Some w ∧ w_pc w = wDone ∧ worker_step choice i found s = None)
  ∨ ∃ s' out, worker_step choice i found s = Some (s', out) ∧ qb_inv np ns s'.
Proof.
  intros Hs Hi. pose proof (inv_ns _ _ _ Hs) as Hns. destruct (lookup_lt_is_Some_2 (workers s) i) as [w Hw]; [lia|].
  pose proof (Forall_lookup_1 _ _ _ _ (inv_workers _ _ _ Hs) Hw) as [Hq Hdone].
  assert (∀ t pc, qb_inv np ns t → workers t = workers s → gReceivedEvents t = gReceivedEvents s →
    (w_flying (set_wpc pc w) <= w_flying w ∨ (w_flying w = 0 ∧ gReceivedEvents s < QB_SIZE))%Z → (pc = wDone → QB_SIZE <= gReceivedEvents s)%Z →
    qb_inv np ns (set_worker i (set_wpc pc w) t)) as Hput.
  { intros t pc Ht E Er Hf Hpc. eapply inv_put_worker; [done|by rewrite E|by rewrite Er|by rewrite Er]. }
  unfold worker_step. rewrite Hw, bind_some. destruct (w_pc w) as [|r|r|] eqn:Epc.
  - right. eexists _, _. split; [done|]. destruct (decide _) as [HQ|HQ]; apply Hput; try done; unfold w_flying; rewrite ?Epc; cbn; lia.
  - right. destruct (decide (choice = QUEUE_ZMQ)).
    + assert (qb_inv np ns (set_worker i (set_wpc wRead w) s)) as Hback by (apply Hput; try done; unfold w_flying; rewrite ?Epc; cbn; lia).
      destruct found; [|by eexists _, _]. destruct (w_queue w) as [|m q] eqn:Eq; [by eexists _, _|]. apply Forall_cons in Hq as [Hm Hq].
      destruct (read_le_some m 2 4) as [z Ez]; [lia|]. rewrite Ez, bind_some. eexists _, _. split; [done|].
      eapply inv_put_worker; [done|done|done|]. unfold w_flying. rewrite Epc. cbn. lia.
    + destruct (decide (choice = QUEUE_WOMBAT)); [destruct (decide (found = true ∧ 0 < mWombatQueue s)%Z) as [[_ H0]|]|]; (eexists _, _; split; [done|]); apply Hput; try done;
        unfold w_flying; rewrite ?Epc; cbn; try lia. apply inv_queue; [done|lia].
  - right. assert (∀ w', w_pc w' = wRead → w_queue w' = w_queue w → qb_inv np ns (set_worker i w' (wQueueCb s))) as Hcount.
    { intros w' Epc' Eq. destruct Hs as [Hnp _ Hn Hsn Hr Hl Hds Hws]. constructor; cbn; try done.
      - by rewrite length_insert.
      - lia.
      - rewrite (zsum_insert _ _ _ _ _ Hw). unfold w_flying at 2 3. rewrite Epc, Epc'. lia.
      - apply Forall_insert; [eapply workers_ok_mono, Hws; lia|]. split; [by rewrite Eq|by rewrite Epc']. }
    destruct (decide _); (eexists _, _; split; [done|by apply Hcount]).
  - left. by exists w.
Qed.

Lemma qb_step_inv s s' : qb_inv np ns s → qb_step choice s s' → qb_inv np ns s'.
Proof.
  intros Hs [i a t out E|i f t out E].
  - assert (i < np) as Hi.
    { rewrite <-(inv_np _ _ _ Hs). apply lookup_lt_is_Some. unfold dealer_step in E. destruct (dealers s !! i); [by eexists|done]. }
    destruct (dealer_step_inv s i a Hs Hi) as [(d & _ & _ & E')|(t' & out' & E' & Ht)]; rewrite E in E'; [done|by injection E' as <- <-].
  - assert (i < ns) as Hi.
    { rewrite <-(inv_ns _ _ _ Hs). apply lookup_lt_is_Some. unfold worker_step in E. destruct (workers s !! i); [by eexists|done]. }
    destruct (worker_step_inv s i f Hs Hi) as [(d & _ & _ & E')|(t' & out' & E' & Ht)]; rewrite E in E'; [done|by injection E' as <- <-].
Qed.

Lemma qb_steps_inv s s' : qb_inv np ns s → rtc (qb_step choice) s s' → qb_inv np ns s'.
Proof. intros Hs Hr. induction Hr as [|s s1 s' H1 Hr IH]; [done|]. by apply IH, (qb_step_inv s). Qed.

End Steps.

(** ** Ending *)

#[local] Instance dealer_pc_eq : EqDecision dealer_pc.
Proof. solve_decision. Defined.
#[local] Instance worker_pc_eq : EqDecision worker_pc.
Proof. solve_decision. Defined.

Lemma all_or {A} (P : A → Prop) `{∀ x, Decision (P x)} l : Forall P l ∨ ∃ i x, l !! i = Some x ∧ ¬ P x.
Proof.
  destruct (decide (Forall P l)) as [|H']; [by left|right]. apply not_Forall_Exists, Exists_exists in H' as (x & Hx & Hn); [|apply _].
  apply list_elem_of_lookup_1 in Hx as [i Hi]. by exists i, x.
Qed.

Lemma zsum_pos {A} (f : A → Z) l : (0 < zsum f l)%Z → ∃ i x, l !! i = Some x ∧ (0 < f x)%Z.
Proof.
  intros H. destruct (all_or (λ x, ¬ 0 < f x)%Z l) as [Hl|(i & x & Hi & Hx)]; [|exists i, x; split; [done|lia]].
  exfalso. revert H. unfold zsum. induction Hl as [|x l Hx Hl IH]; cbn; lia.
Qed.

Section Ends.

Context (choice : Z) (np ns : nat).
Context (Hchoice : choice = QUEUE_WOMBAT ∨ choice = QUEUE_ZMQ).

Definition w_len (w : worker) : Z := Z.of_nat (length (w_queue w)).

(** The events that were, or can still be, counted as received. *)
Definition held (s : qbn) : Z :=
  gReceivedEvents s + zsum w_uncounted (workers s)
  + if decide (choice = QUEUE_ZMQ) then zsum w_len (workers s) else mWombatQueue s.

(** On the whole, no event was lost. *)
Definition kept (s : qbn) : Prop := (gSentEvents s + zsum d_uncounted (dealers s) <= held s)%Z.

Definition dealers_done (s : qbn) : Prop := Forall (λ d, d_pc d = dDone) (dealers s).

Lemma received_held s : qb_inv np ns s → (gReceivedEvents s <= held s)%Z.
Proof.
  intros [_ _ Hn _ _ _ _ _]. unfold held.
  assert (0 <= zsum w_uncounted (workers s))%Z by (apply zsum_nonneg; intros w; unfold w_uncounted; destruct (w_pc w); lia).
  assert (0 <= zsum w_len (workers s))%Z by (apply zsum_nonneg; intros w; unfold w_len; lia).
  destruct (decide _); lia.
Qed.

(** A consumer changes neither the producers nor what is held. *)
Lemma worker_step_held s i f s' out :
  worker_step choice i f s = Some (s', out) →
  held s' = held s ∧ dealers s' = dealers s ∧ gSentEvents s' = gSentEvents s ∧ (gReceivedEvents s <= gReceivedEvents s')%Z.
Proof.
  unfold worker_step. destruct (workers s !! i) as [w|] eqn:Hw; [|done]. rewrite bind_some. unfold held.
  assert (∀ w', zsum w_uncounted (<[i := w']> (workers s)) = (zsum w_uncounted (workers s) - w_uncounted w + w_uncounted w')%Z) as Hu
    by (intros; by apply zsum_insert).
  assert (∀ w', zsum w_len (<[i := w']> (workers s)) = (zsum w_len (workers s) - w_len w + w_len w')%Z) as Hl by (intros; by apply zsum_insert).
  destruct (w_pc w) as [|r|r|] eqn:Epc; [| | |done].
  - intros [= <- <-]. cbn. rewrite Hu, Hl. unfold w_uncounted, w_len. rewrite Epc. split_and!; try done; repeat case_decide; cbn; lia.
  - repeat case_decide; [|intros [= <- <-]..].
    { destruct f; [destruct (w_queue w) as [|m q] eqn:Eq; [|destruct (read_le m 2 4); [rewrite bind_some|done]]|]; intros [= <- <-];
        cbn; rewrite Hu, Hl; unfold w_uncounted, w_len; rewrite Epc, ?Eq; cbn [w_pc w_queue length set_wpc]; rewrite ?Eq; cbn [length]; split_and!; try done; lia. }
    all: cbn; rewrite Hu, ?Hl; unfold w_uncounted, w_len; rewrite Epc; cbn; split_and!; try done; lia.
  - case_decide; intros [= <- <-]; cbn; rewrite Hu, ?Hl; unfold w_uncounted, w_len; rewrite Epc; cbn; split_and!; try done; lia.
Qed.

(** The producers come to an end, and lose nothing if nothing is refused. *)
Definition good : answer := mkAnswer true (λ _, true).
Definition d_rank (d : dealer) : Z := match d_pc d with dRead => 3 | dSend _ => 2 | dIncr => 1 | dDone => 0 end.
Definition d_work (s : qbn) : Z := 3 * (QB_SIZE + Z.of_nat np - gSentEvents s) + zsum d_rank (dealers s).

Lemma zsum_delivered msg ws : zsum w_len (imap (deliver good msg) ws) = (zsum w_len ws + Z.of_nat (length ws))%Z.
Proof.
  assert (∀ f : nat → nat, zsum w_len (imap (deliver good msg ∘ f) ws) = zsum w_len ws + Z.of_nat (length ws))%Z as H; [|apply (H id)].
  induction ws as [|w ws IH]; intros f; [done|]. cbn [imap]. specialize (IH (f ∘ S)). unfold zsum in *. cbn [foldr length].
  change (deliver good msg ∘ f ∘ S) with (deliver good msg ∘ (f ∘ S)). rewrite IH.
  unfold w_len at 1 3. cbn. rewrite length_app. cbn. lia.
Qed.

Lemma send_held s cs : length (workers s) = ns → ns ≠ 0 → choice = QUEUE_ZMQ → (held s + 1 <= held (zmq_send good (dealer_msg cs) s))%Z.
Proof.
  intros Hn H0 Hc. unfold held. rewrite !decide_True by done. cbn [gReceivedEvents workers zmq_send]. rewrite zsum_imap by done.
  rewrite zsum_delivered. lia.
Qed.

Lemma dealer_step_work s i s' out :
  qb_inv np ns s → dealer_step choice i good s = Some (s', out) →
  (d_work s' < d_work s)%Z ∧ (kept s ∨ ns = 0 → kept s' ∨ ns = 0).
Proof.
  intros Hs. unfold dealer_step. destruct (dealers s !! i) as [d|] eqn:Hd; [|done]. rewrite bind_some. unfold d_work, kept.
  assert (∀ d', zsum d_rank (<[i := d']> (dealers s)) = (zsum d_rank (dealers s) - d_rank d + d_rank d')%Z) as Hr by (intros; by apply zsum_insert).
  assert (∀ d', zsum d_uncounted (<[i := d']> (dealers s)) = (zsum d_uncounted (dealers s) - d_uncounted d + d_uncounted d')%Z) as Hu
    by (intros; by apply zsum_insert).
  assert (∀ t d', held (set_dealer i d' t) = held t) as Hh by done.
  destruct (d_pc d) as [|cs| |] eqn:Epc; [| | |done].
  - destruct (decide _); intros [= <- <-]; rewrite Hh; cbn; rewrite Hr, Hu; unfold d_rank at 2 3, d_uncounted at 3 4; rewrite Epc; cbn; (split; [lia|]);
      (intros [H|H]; [left; lia|by right]).
  - assert (∀ t, dealers t = dealers s → gSentEvents t = gSentEvents s → (ns ≠ 0 → (held s + 1 <= held t)%Z) →
      (d_work (set_dealer i (mkDealer dIncr (d_local d + 1)) t) < d_work s)%Z
      ∧ (kept s ∨ ns = 0 → kept (set_dealer i (mkDealer dIncr (d_local d + 1)) t) ∨ ns = 0)) as Hput.
    { intros t E1 E2 Ht. unfold d_work, kept. rewrite Hh. cbn. rewrite E1, E2, Hr, Hu. unfold d_rank at 2 3, d_uncounted at 3 4. rewrite Epc. cbn. split; [lia|].
      intros [H|H]; [|by right]. destruct (decide (ns = 0)) as [|Hn]; [by right|left]. specialize (Ht Hn). lia. }
    intros [= <- <-]. destruct Hchoice as [E|E].
    + rewrite (decide_False (P := choice = QUEUE_ZMQ)) by (by rewrite E). rewrite (decide_True (P := choice = QUEUE_WOMBAT)) by done.
      apply Hput; try done. intros _. unfold held. rewrite !(decide_False (P := choice = QUEUE_ZMQ)) by (by rewrite E). cbn. lia.
    + rewrite (decide_True (P := choice = QUEUE_ZMQ)) by done. rewrite (decide_False (P := choice = QUEUE_WOMBAT)) by (by rewrite E).
      apply Hput; try done. intros Hn. apply send_held; [apply Hs|done|done].
  - intros [= <- <-]. change (held (incr_sent ?t)) with (held t). rewrite Hh. cbn. rewrite Hr, Hu. unfold d_rank at 2 3, d_uncounted at 3 4. rewrite Epc. cbn.
    split; [lia|]. intros [H|H]; [left; lia|by right].
Qed.

Lemma d_work_nonneg s : qb_inv np ns s → (0 <= d_work s)%Z.
Proof.
  intros [_ _ _ Hs _ _ _ _]. unfold d_work. assert (0 <= zsum d_flying (dealers s))%Z by (apply zsum_nonneg; intros; apply flying_bounds).
  assert (0 <= zsum d_rank (dealers s))%Z by (apply zsum_nonneg; intros d; unfold d_rank; destruct (d_pc d); lia). lia.
Qed.

Lemma dealers_end s :
  qb_inv np ns s → kept s ∨ ns = 0 →
  ∃ s', rtc (qb_step choice) s s' ∧ qb_inv np ns s' ∧ dealers_done s' ∧ (kept s' ∨ ns = 0).
Proof.
  intros Hs Hk. remember (Z.to_nat (d_work s)) as n eqn:En. revert s Hs Hk En. induction (lt_wf n) as [n _ IH]. intros s Hs Hk ->.
  destruct (all_or (λ d, d_pc d = dDone) (dealers s)) as [Hd|(i & d & Hd & Hpc)]; [by exists s|].
  assert (i < np) as Hi by (rewrite <-(inv_np _ _ _ Hs); by eapply lookup_lt_Some).
  destruct (dealer_step_inv choice np ns s i good Hs Hi) as [(d' & Hd' & Hpc' & _)|(s1 & out & E & Hs1)]; [congruence|].
  destruct (dealer_step_work _ _ _ _ Hs E) as [Hw Hk1]. pose proof (d_work_nonneg _ Hs1).
  destruct (IH (Z.to_nat (d_work s1)) ltac:(lia) s1 Hs1 (Hk1 Hk) eq_refl) as (s' & Hr & Hrest).
  exists s'. split; [|done]. eapply rtc_l; [|done]. by eapply qb_dealer.
Qed.

(** The consumers come to an end if enough is held. First: enough events are
    counted. *)
Definition w_rank (w : worker) : Z := match w_pc w with wRead => 2 | wTake _ => 1 | _ => 0 end.
Definition w_work (s : qbn) : Z := 3 * (QB_SIZE + Z.of_nat ns - gReceivedEvents s) + zsum w_rank (workers s).

(** A consumer that can count an event, or take one. *)
Definition fit (s : qbn) (w : worker) : Prop :=
  (∃ r, w_pc w = wIncr r) ∨ w_pc w ≠ wDone ∧ if decide (choice = QUEUE_ZMQ) then (0 < w_len w)%Z else (0 < mWombatQueue s)%Z.

Lemma fit_exists s :
  qb_inv np ns s → ns ≠ 0 → (gReceivedEvents s < QB_SIZE)%Z → (QB_SIZE <= held s)%Z → ∃ i w, workers s !! i = Some w ∧ fit s w.
Proof.
  intros Hs Hn Hr Hh. assert (∀ i w, workers s !! i = Some w → w_pc w ≠ wDone) as Hnot.
  { intros i w Hw Hd. destruct (Forall_lookup_1 _ _ _ _ (inv_workers _ _ _ Hs) Hw) as [_ H]. specialize (H Hd). lia. }
  unfold held in Hh. destruct (decide (0 < zsum w_uncounted (workers s))%Z) as [Hu|Hu].
  - apply zsum_pos in Hu as (i & w & Hw & Hu). exists i, w. split; [done|]. left. unfold w_uncounted in Hu. destruct (w_pc w); try lia. by eexists.
  - unfold fit. destruct (decide (choice = QUEUE_ZMQ)).
    + destruct (zsum_pos w_len (workers s)) as (i & w & Hw & Hl); [lia|]. exists i, w. split; [done|]. right. split; [by eapply Hnot|done].
    + destruct (lookup_lt_is_Some_2 (workers s) 0) as [w Hw]; [rewrite (inv_ns _ _ _ Hs); lia|]. exists 0, w. split; [done|]. right. split; [by eapply Hnot|lia].
Qed.

Lemma worker_step_work s i w s' out :
  workers s !! i = Some w → fit s w → (gReceivedEvents s < QB_SIZE)%Z → worker_step choice i true s = Some (s', out) → (w_work s' < w_work s)%Z.
Proof.
  intros Hw Hfit HQ. unfold worker_step. rewrite Hw, bind_some. unfold w_work.
  assert (∀ w', zsum w_rank (<[i := w']> (workers s)) = (zsum w_rank (workers s) - w_rank w + w_rank w')%Z) as Hr by (intros; by apply zsum_insert).
  destruct (w_pc w) as [|r|r|] eqn:Epc; [| | |done].
  - rewrite decide_True by done. intros [= <- <-]. cbn. rewrite Hr. unfold w_rank at 2 3. rewrite Epc. cbn. lia.
  - destruct Hfit as [[r' Hf]|[_ Hf]]; [congruence|]. destruct (decide (choice = QUEUE_ZMQ)) as [|Hz].
    + unfold w_len in Hf. destruct (w_queue w) as [|m q]; [cbn in Hf; lia|]. destruct (read_le m 2 4); [rewrite bind_some|done].
      intros [= <- <-]. cbn. rewrite Hr. unfold w_rank at 2 3. rewrite Epc. cbn. lia.
    + destruct Hchoice as [E|]; [|done]. rewrite (decide_True (P := choice = QUEUE_WOMBAT)) by done. rewrite decide_True by done.
      intros [= <- <-]. cbn. rewrite Hr. unfold w_rank at 2 3. rewrite Epc. cbn. lia.
  - destruct (decide (choice = QUEUE_ZMQ)); intros [= <- <-]; cbn; rewrite Hr; unfold w_rank at 2 3; rewrite Epc; cbn; lia.
Qed.

Lemma w_work_nonneg s : qb_inv np ns s → (0 <= w_work s)%Z.
Proof.
  intros [_ _ _ _ Hs _ _ _]. unfold w_work. assert (0 <= zsum w_flying (workers s))%Z by (apply zsum_nonneg; intros; apply w_flying_bounds).
  assert (0 <= zsum w_rank (workers s))%Z by (apply zsum_nonneg; intros w; unfold w_rank; destruct (w_pc w); lia). lia.
Qed.

Lemma worker_index s i w : qb_inv np ns s → workers s !! i = Some w → i < ns.
Proof. intros Hs Hw. rewrite <-(inv_ns _ _ _ Hs). by eapply lookup_lt_Some. Qed.

Lemma workers_count s :
  qb_inv np ns s → ns ≠ 0 → dealers_done s → (QB_SIZE <= held s)%Z →
  ∃ s', rtc (qb_step choice) s s' ∧ qb_inv np ns s' ∧ dealers_done s' ∧ (QB_SIZE <= gReceivedEvents s')%Z.
Proof.
  intros Hs Hn Hd Hh. remember (Z.to_nat (w_work s)) as n eqn:En. revert s Hs Hd Hh En. induction (lt_wf n) as [n _ IH]. intros s Hs Hd Hh ->.
  destruct (decide (gReceivedEvents s < QB_SIZE)%Z) as [HQ|HQ]; [|exists s; split_and!; [done|done|done|lia]].
  destruct (fit_exists s Hs Hn HQ Hh) as (i & w & Hw & Hf).
  destruct (worker_step_inv choice np ns s i true Hs (worker_index _ _ _ Hs Hw)) as [(w' & Hw' & Hpc & _)|(s1 & out & E & Hs1)].
  { rewrite Hw in Hw'. injection Hw' as <-. destruct Hf as [[r Hf]|[Hf _]]; congruence. }
  pose proof (worker_step_work _ _ _ _ _ Hw Hf HQ E) as Hlt. pose proof (w_work_nonneg _ Hs1).
  destruct (worker_step_held _ _ _ _ _ E) as (Eh & Ed & _).
  destruct (IH (Z.to_nat (w_work s1)) ltac:(lia) s1) as (s' & Hr & Hrest); [done|unfold dealers_done; by rewrite Ed|lia|done|].
  exists s'. split; [|done]. eapply rtc_l; [|done]. by eapply qb_worker.
Qed.

(** Then: each consumer sees it. *)
Definition w_left (w : worker) : Z := match w_pc w with wIncr _ => 3 | wTake _ => 2 | wRead => 1 | wDone => 0 end.

Lemma worker_step_left s i w s' out :
  workers s !! i = Some w → (QB_SIZE <= gReceivedEvents s)%Z → worker_step choice i false s = Some (s', out) →
  (zsum w_left (workers s') < zsum w_left (workers s))%Z.
Proof.
  intros Hw HQ. unfold worker_step. rewrite Hw, bind_some.
  assert (∀ w', zsum w_left (<[i := w']> (workers s)) = (zsum w_left (workers s) - w_left w + w_left w')%Z) as Hr by (intros; by apply zsum_insert).
  destruct (w_pc w) as [|r|r|] eqn:Epc; [| | |done].
  - rewrite decide_False by lia. intros [= <- <-]. cbn. rewrite Hr. unfold w_left at 2 3. rewrite Epc. cbn. lia.
  - rewrite (decide_False (P := (false = true ∧ _))) by naive_solver. repeat case_decide; intros [= <- <-]; cbn; rewrite Hr; unfold w_left at 2 3; rewrite Epc; cbn; lia.
  - case_decide; intros [= <- <-]; cbn; rewrite Hr; unfold w_left at 2 3; rewrite Epc; cbn; lia.
Qed.

Lemma workers_end s :
  qb_inv np ns s → dealers_done s → (QB_SIZE <= gReceivedEvents s)%Z ∨ ns = 0 →
  ∃ s', rtc (qb_step choice) s s' ∧ all_done s'.
Proof.
  intros Hs Hd HQ. remember (Z.to_nat (zsum w_left (workers s))) as n eqn:En. revert s Hs Hd HQ En. induction (lt_wf n) as [n _ IH]. intros s Hs Hd HQ ->.
  destruct (all_or (λ w, w_pc w = wDone) (workers s)) as [Hw|(i & w & Hw & Hpc)]; [by exists s|].
  pose proof (worker_index _ _ _ Hs Hw). destruct HQ as [HQ|]; [|lia].
  destruct (worker_step_inv choice np ns s i false Hs ltac:(done)) as [(w' & Hw' & Hpc' & _)|(s1 & out & E & Hs1)]; [congruence|].
  pose proof (worker_step_left _ _ _ _ _ Hw HQ E) as Hlt. destruct (worker_step_held _ _ _ _ _ E) as (Eh & Ed & _ & Hge).
  assert (0 <= zsum w_left (workers s1))%Z by (apply zsum_nonneg; intros x; unfold w_left; destruct (w_pc x); lia).
  destruct (IH (Z.to_nat (zsum w_left (workers s1))) ltac:(lia) s1) as (s' & Hr & Hrest); [done|unfold dealers_done; by rewrite Ed|left; lia|done|].
  exists s'. split; [|done]. eapply rtc_l; [|done]. by eapply qb_worker.
Qed.

(** Once the producers are done, what is held decides. *)
Lemma done_held s s' : dealers_done s → rtc (qb_step choice) s s' → held s' = held s.
Proof.
  intros Hd Hr. induction Hr as [|s s1 s' H1 Hr IH]; [done|]. destruct H1 as [i a t out E|i f t out E].
  - exfalso. unfold dealer_step in E. destruct (dealers s !! i) as [d|] eqn:Ei; [|done]. rewrite bind_some in E.
    by rewrite (Forall_lookup_1 _ _ _ _ Hd Ei) in E.
  - destruct (worker_step_held _ _ _ _ _ E) as (Eh & Ed & _). rewrite <-Eh. apply IH. unfold dealers_done. by rewrite Ed.
Qed.

End Ends.

(** ** The program *)

(** The program has started its threads, in state [s0]. *)
Definition started env argv choice pubs subs s0 : Prop :=
  qb_args argv = Some (inr (choice, pubs, subs)) ∧ ∃ calls, qb_main env argv = Some (inr (calls, s0)).

Lemma queue_choice_cases q c : queue_choice q = Some c → c = QUEUE_WOMBAT ∨ c = QUEUE_ZMQ.
Proof. unfold queue_choice. repeat case_decide; intros [=]; auto. Qed.

Lemma args_choice argv c p s : qb_args argv = Some (inr (c, p, s)) → c = QUEUE_WOMBAT ∨ c = QUEUE_ZMQ.
Proof.
  unfold qb_args. case_decide; [done|]. destruct (argv !! 1) as [q|]; [|done]. rewrite bind_some.
  destruct (queue_choice q) as [c'|] eqn:Eq; [|done]. apply queue_choice_cases in Eq.
  destruct (argv !! 2) as [a|]; [|done]. rewrite bind_some. destruct (atoi a); [|done]. rewrite bind_some.
  destruct (argv !! 3) as [a'|]; [|done]. rewrite bind_some. destruct (atoi a'); [|done]. rewrite bind_some. by intros [= <- _ _].
Qed.

Lemma setup_inv env choice pubs subs calls s0 :
  qb_setup env choice pubs subs = Some (calls, s0) → qb_inv (Z.to_nat pubs) (Z.to_nat subs) s0 ∧ kept choice s0.
Proof.
  unfold qb_setup. destruct (negb _); [done|]. do 2 (destruct (decide _); [done|]). destruct (forallb _ _); [|done]. intros [= _ <-].
  assert (∀ {A} (f : A → Z) n x, f x = 0%Z → zsum f (replicate n x) = 0%Z) as H0
    by (intros; by apply zsum_0, Forall_replicate).
  pose proof qb_size_pos. split.
  - constructor; cbn; rewrite ?length_replicate, ?H0; try done; try lia; apply Forall_replicate; done.
  - unfold kept, held. cbn. rewrite !H0 by done. destruct (decide _); lia.
Qed.

Lemma started_inv env argv choice pubs subs s0 :
  started env argv choice pubs subs s0 →
  qb_inv (Z.to_nat pubs) (Z.to_nat subs) s0 ∧ kept choice s0 ∧ (choice = QUEUE_WOMBAT ∨ choice = QUEUE_ZMQ).
Proof.
  intros [Ha (calls & Hm)]. unfold qb_main in Hm. rewrite Ha, bind_some in Hm.
  destruct (qb_setup env choice pubs subs) as [[c s]|] eqn:E; [|done]. injection Hm as _ <-. apply setup_inv in E as [Hi Hk].
  split_and!; [done|done|by eapply args_choice].
Qed.

(** C33: the queue benchmark counts what it says, up to the threads. In every
    state it reaches, whatever the queue answers, each thread has ended or
    can go on; no more than [QB_SIZE] events and one per producer are sent,
    and fewer than [QB_SIZE] and one per consumer are counted as received;
    when all threads have ended, more than [QB_SIZE] were sent, as many as
    the producers report, and at least [QB_SIZE] were received. *)
Theorem queuebench_counts env argv choice pubs subs s0 s :
  started env argv choice pubs subs s0 → rtc (qb_step choice) s0 s →
  (∀ i d a, dealers s !! i = Some d → d_pc d = dDone ∨ is_Some (dealer_step choice i a s))
  ∧ (∀ i w found, workers s !! i = Some w → w_pc w = wDone ∨ is_Some (worker_step choice i found s))
  ∧ (0 <= gSentEvents s <= QB_SIZE + Z.max 0 pubs)%Z
  ∧ (0 <= gReceivedEvents s <= QB_SIZE - 1 + Z.max 0 subs)%Z
  ∧ (all_done s →
      zsum d_local (dealers s) = gSentEvents s
      ∧ ((0 < pubs)%Z → (QB_SIZE < gSentEvents s)%Z) ∧ ((0 < subs)%Z → (QB_SIZE <= gReceivedEvents s)%Z)).
Proof.
  intros Hst Hr. apply started_inv in Hst as (Hi & _ & _). pose proof (qb_steps_inv _ _ _ _ _ Hi Hr) as Hs. split_and!.
  - intros i d a Hd. destruct (dealer_step_inv choice _ _ s i a Hs) as [(d' & Hd' & Hp & _)|(s' & out & E & _)]; [|left; congruence|right; by eexists].
    rewrite <-(inv_np _ _ _ Hs). by eapply lookup_lt_Some.
  - intros i w f Hw. destruct (worker_step_inv choice _ _ s i f Hs) as [(w' & Hw' & Hp & _)|(s' & out & E & _)]; [|left; congruence|right; by eexists].
    rewrite <-(inv_ns _ _ _ Hs). by eapply lookup_lt_Some.
  - apply Hs.
  - pose proof (inv_sent _ _ _ Hs). assert (0 <= zsum d_flying (dealers s))%Z by (apply zsum_nonneg; intros; apply flying_bounds). lia.
  - apply Hs.
  - pose proof (inv_received _ _ _ Hs). assert (0 <= zsum w_flying (workers s))%Z by (apply zsum_nonneg; intros; apply w_flying_bounds). lia.
  - intros [Hd Hw]. split_and!.
    + rewrite (inv_local _ _ _ Hs), (zsum_0 d_uncounted); [lia|]. eapply Forall_impl; [exact Hd|]. intros d Hp. unfold d_uncounted. by rewrite Hp.
    + intros Hp. destruct (lookup_lt_is_Some_2 (dealers s) 0) as [d Hd0]; [rewrite (inv_np _ _ _ Hs); lia|].
      pose proof (Forall_lookup_1 _ _ _ _ (inv_dealers _ _ _ Hs) Hd0) as Hok. unfold dealer_ok in Hok. by rewrite (Forall_lookup_1 _ _ _ _ Hd Hd0) in Hok.
    + intros Hp. destruct (lookup_lt_is_Some_2 (workers s) 0) as [w Hw0]; [rewrite (inv_ns _ _ _ Hs); lia|].
      pose proof (Forall_lookup_1 _ _ _ _ (inv_workers _ _ _ Hs) Hw0) as [_ Hok]. apply Hok, (Forall_lookup_1 _ _ _ _ Hw Hw0).
Qed.

Definition demo_env : qbEnv := mkQbEnv (λ _, true) (λ i, Z.of_nat (i + 1)) (λ _, true).
Definition demo_argv : list (list byte) := [lit "queuebench"; lit "zmq"; lit "1"; lit "1"].
Definition demo_start : qbn := mkQbn 0 0 0 [mkDealer dRead 0] [mkWorker wRead 0 0 0 []].

Lemma demo_started : started demo_env demo_argv QUEUE_ZMQ 1 1 demo_start.
Proof. split; [by vm_compute|]. eexists. by vm_compute. Qed.

Lemma queuebench_counts_witness :
  ∃ s, rtc (qb_step QUEUE_ZMQ) demo_start s ∧ gReceivedEvents s = 1%Z ∧ (0 <= gSentEvents s <= QB_SIZE + 1)%Z.
Proof.
  assert (∃ s, rtc (qb_step QUEUE_ZMQ) demo_start s ∧ gReceivedEvents s = 1%Z) as (s & Hr & H1).
  { eexists. split.
    - eapply rtc_l; [eapply (qb_dealer _ _ 0 good); vm_compute; reflexivity|]. eapply rtc_l; [eapply (qb_dealer _ _ 0 good); vm_compute; reflexivity|].
      eapply rtc_l; [eapply (qb_worker _ _ 0 true); vm_compute; reflexivity|]. eapply rtc_l; [eapply (qb_worker _ _ 0 true); vm_compute; reflexivity|].
      eapply rtc_l; [eapply (qb_worker _ _ 0 true); vm_compute; reflexivity|]. apply rtc_refl.
    - done. }
  exists s. split; [done|]. split; [done|]. by apply (queuebench_counts demo_env demo_argv QUEUE_ZMQ 1 1 demo_start s demo_started Hr).
Defined.

(** C34: when the queue benchmark ends. While the events that are counted, in
    a queue or on their way are at least those that were sent, a benchmark
    with a producer can still end. Once the producers have ended, it can
    exactly if there is no consumer or [QB_SIZE] events are counted, in a
    queue or on their way: the status of enqueue is ignored, and after too
    many refusals, or without a producer, the consumers wait for ever. *)
Theorem queuebench_ends env argv choice pubs subs s0 s :
  started env argv choice pubs subs s0 → rtc (qb_step choice) s0 s →
  ((0 < pubs)%Z → kept choice s → ∃ s', rtc (qb_step choice) s s' ∧ all_done s')
  ∧ (dealers_done s →
      (∃ s', rtc (qb_step choice) s s' ∧ all_done s') ↔ (subs <= 0)%Z ∨ (QB_SIZE <= held choice s)%Z).
Proof.
  intros Hst Hr. apply started_inv in Hst as (Hi & _ & Hc). pose proof (qb_steps_inv _ _ _ _ _ Hi Hr) as Hs.
  assert (∀ t, qb_inv (Z.to_nat pubs) (Z.to_nat subs) t → dealers_done t → (subs <= 0)%Z ∨ (QB_SIZE <= held choice t)%Z →
    ∃ s', rtc (qb_step choice) t s' ∧ all_done s') as Hend.
  { intros t Ht Hd Hh. destruct (decide (Z.to_nat subs = 0)) as [E|Hn]; [by eapply workers_end; eauto|].
    destruct (workers_count choice _ _ Hc t Ht Hn Hd) as (t1 & Hr1 & Ht1 & Hd1 & HQ); [lia|].
    destruct (workers_end choice _ _ t1 Ht1 Hd1 (or_introl HQ)) as (s' & Hr2 & Hall). exists s'. split; [by etrans|done]. }
  split.
  - intros Hp Hk. destruct (dealers_end choice _ _ Hc s Hs (or_introl Hk)) as (t & Hrt & Ht & Hd & Hkt).
    destruct (Hend t Ht Hd) as (s' & Hr' & Hall); [|exists s'; split; [by etrans|done]].
    destruct Hkt as [Hkt|]; [right|left; lia].
    destruct (lookup_lt_is_Some_2 (dealers t) 0) as [d Hd0]; [rewrite (inv_np _ _ _ Ht); lia|].
    pose proof (Forall_lookup_1 _ _ _ _ (inv_dealers _ _ _ Ht) Hd0) as Hok. unfold dealer_ok in Hok.
    rewrite (Forall_lookup_1 _ _ _ _ Hd Hd0) in Hok. unfold kept in Hkt.
    assert (0 <= zsum d_uncounted (dealers t))%Z by (apply zsum_nonneg; intros x; unfold d_uncounted; destruct (d_pc x); lia). lia.
  - intros Hd. split; [|by apply Hend]. intros (s' & Hr' & Hdone & Hall). destruct (decide (subs <= 0)%Z); [by left|right].
    rewrite <-(done_held choice s s' Hd Hr'). pose proof (qb_steps_inv _ _ _ _ _ Hs Hr') as Hs'.
    destruct (lookup_lt_is_Some_2 (workers s') 0) as [w Hw0]; [rewrite (inv_ns _ _ _ Hs'); lia|].
    pose proof (Forall_lookup_1 _ _ _ _ (inv_workers _ _ _ Hs') Hw0) as [_ Hok].
    specialize (Hok (Forall_lookup_1 _ _ _ _ Hall Hw0)). pose proof (received_held choice _ _ _ Hs'). lia.
Qed.

Lemma queuebench_ends_witness : ∃ s', rtc (qb_step QUEUE_ZMQ) demo_start s' ∧ all_done s'.
Proof.
  destruct (queuebench_ends demo_env demo_argv QUEUE_ZMQ 1 1 demo_start demo_start demo_started (rtc_refl _ _)) as [H _].
  apply H; [lia|]. unfold kept. by vm_compute.
Defined.

(** The arguments of the queue benchmark. Too few or too many print the
    usage, another queue than wombat or zmq is refused, two numbers are read
    as they are; the usage takes the numbers for optional, but without both
    of them a NULL is converted, which is undefined. *)
Theorem queuebench_args prog arg1 rest :
  (4 < 2 + length rest → qb_args (prog :: arg1 :: rest) = Some (inl eUsage))
  ∧ qb_args [prog] = Some (inl eUsage)
  ∧ (length rest ≤ 2 →
      (queue_choice arg1 = None → qb_args (prog :: arg1 :: rest) = Some (inl eFirstArg))
      ∧ ∀ choice, queue_choice arg1 = Some choice →
          (length rest < 2 → qb_args (prog :: arg1 :: rest) = None)
          ∧ ∀ pubs subs, in_range 32 pubs = true → in_range 32 subs = true → rest = [dec pubs; dec subs] →
              qb_args (prog :: arg1 :: rest) = Some (inr (choice, pubs, subs))).
Proof.
  unfold qb_args. split_and!; [intros H; by rewrite decide_True by (cbn; lia)|done|]. intros Hl.
  rewrite decide_False by (cbn; lia). cbn [lookup list_lookup]. rewrite bind_some. split; [by intros ->|]. intros c ->. split.
  - intros H2. destruct rest as [|a [|]]; [done| |cbn in H2; lia]. cbn. by destruct (atoi a).
  - intros pubs subs Hp Hs ->. cbn. by rewrite (atoi_dec _ Hp), bind_some, (atoi_dec _ Hs).
Qed.

Lemma queuebench_args_witness : qb_args [lit "queuebench"; lit "wombat"; lit "3"; lit "-1"] = Some (inr (QUEUE_WOMBAT, 3, -1)%Z).
Proof.
  apply (queuebench_args (lit "queuebench") (lit "wombat") [lit "3"; lit "-1"]) with (choice := QUEUE_WOMBAT); [cbn; lia|done|done|done|by vm_compute].
Defined.

End QueueBench.
